(* ===== verification/_CoqProject ===== *)
-Q . S2P
Prelude.v
CallBinding.v
Mangle.v
Text.v
Literal.v
Token.v
Scanner.v
Lexer.v
LexTokens.v
Mir.v
Structure.v
Regions.v
RegionSemantics.v
RegionSafety.v
RegionExamples.v
RegionExits.v
ForwardWalk.v
ForwardSound.v
ForwardEnds.v
MovePlaces.v
Moves.v
MoveFacts.v
MoveSafety.v
MoveExamples.v
Dtypes.v
Layout.v
Ieee.v
NarrowFloat.v
FloatOps.v
DoubleRounding.v
Lanes.v
LaneLaws.v
Values.v
ValueLaws.v
ValueTyping.v
Bitcast.v
Fold.v
FoldLaws.v
ParamNode.v
OrderedMap.v
ParamBuild.v
ParamRing.v
ParamCanon.v
ParamIdentity.v
ParamBudget.v
ParamLogic.v
ParamExamples.v
Ast.v
AstWalk.v
AstRewrite.v
RewriteRuns.v
Parser.v
ParseTypes.v
ParseExprs.v
ParseStmts.v
ParseItems.v
ParseProgram.v
ParseRuns.v
TypeRuns.v
ExprRuns.v
StmtRuns.v
ItemRuns.v
ProgramRuns.v
ParseLexer.v
Enums.v
Operators.v
