(* ===== verification/Prelude.v ===== *)
(** * A verification library for the mojito compiler

    mojito compiles a subset of Mojo.  A source text is lexed
    ([mojito-lexer]) and parsed ([mojito-parser]), its modules are linked
    ([mojito-module]), compile-time code is elaborated ([mojito-comptime]) and
    checked ([mojito-checker]), and the checked bodies are lowered to MIR
    ([mojito-mir]): structured blocks, whose region ops ([if], [loop],
    [match], [try]) hold blocks of their own.  A verifier checks MIR between
    passes; ownership analyses ([mojito-analysis]) check moves, loans and
    drops on it; monomorphization ([mojito-native]) makes it concrete; and
    the virtual machine ([mojito-vm]) runs it or the LLVM backend
    ([mojito-pliron]) emits it, laid out by [mojito-native-core].

    ** Conventions

    Every definition is executable and keeps its source's name.  A Rust
    [Result] is an [outcome] with [Err]; a panic (an index out of range, a
    failed assertion, an overflow of checked arithmetic) is [Panic]; a loop
    out of fuel is [Diverge], which no run of the code yields and which the
    termination theorems rule out.  A machine integer is a [Z] with its range
    written out where it can matter; a [usize] that only indexes is a [nat];
    a list index out of range is a panic; a [BTreeMap] is a sorted list of
    pairs or a [gmap]; a method on [&mut self] takes the state and returns
    it.  Code that is not in the repository is a class of operations and one
    of laws, with an instance that satisfies them.

    ** The files

    - [CallBinding] (mojito-ast, [call.rs]): which argument fills which
      parameter slot.  [match_call_slots] and the bracket forms bind as the
      language defines, use each argument once, and report the first error.
    - [Mangle] (mojito-native, [mangle.rs]): native names are injective C
      identifiers.
    - [Text], [Literal] (mojito-common, [literal.rs]): characters, strings,
      and the exact literals; arithmetic, parsing and display are exact.  The
      big numbers of [num-bigint] and [num-rational] are interfaces.
    - [Token], [Scanner], [Lexer], [LexTokens] (mojito-common, [token.rs];
      mojito-lexer, [lexer.rs]): the lexer, with the off-side rule.  It ends,
      its stream balances indentation, counts delimiters and orders spans, and each kind of token
      is read as the language defines it.  The Unicode tables are a class.
    - [Mir] (mojito-mir, [ir.rs]): blocks, region ops, terminators, frames.
      The instructions that hold no region are a parameter of every file on
      MIR, with the registers they read and write.
    - [Structure] (mojito-mir, [verify/structure.rs] and the walk around it):
      the verifier, as the list of its findings.
    - [Regions] (mojito-vm, [regions.rs], [frames.rs]): the cursor by which the
      machine moves through region ops, and the loop of one frame.
      [RegionSemantics] gives region ops a semantics by recursion on nesting
      and proves the machine computes it; [RegionSafety] proves that a
      function without findings, whose terminators name registers it has (the
      verifier does not look), never loses its cursor; [RegionExits] models
      the visitors that rewrite the values an exit carries and proves they
      visit the exits the machine and the verifier resolve to the op;
      [RegionExamples] runs a program.
    - [ForwardWalk], [ForwardSound], [ForwardEnds] (mojito-analysis,
      [region_walk.rs]): the walk every forward ownership check is an
      instance of.  Its flow covers every run of the machine on such a
      function, and its loops settle.
    - [MovePlaces], [Moves], [MoveFacts], [MoveSafety], [MoveExamples]
      (mojito-analysis, [moves.rs]): the trees of moved parts and the lifetime
      analysis over that walk.  [MoveFacts] says of the whole body what
      [move_context] collects in a pass: reference parameters' handles, call
      operands, owners of setup loans and aliases of borrowed parameters.  With
      these [MoveSafety] states the contract [OwnershipMachine]: what each
      instruction reads and what it may take out, which is only storage known
      where the function is written.  A verified function the analysis
      accepts, whose registers name one reference parameter each, never misses
      a value on such a machine.
    - [Dtypes] (mojito-ast, [ast.rs]): lane types and operators with their
      tables.
    - [Layout] (mojito-native-core, [layout.rs]): sizes, alignments, offsets.
    - [Ieee], [NarrowFloat] (mojito-common, [literal.rs]): binary floats, and
      literals rounded to them; the search among neighbours is the IEEE
      rounding.
    - [FloatOps], [DoubleRounding]: the float operations of Rust's standard
      library over a format, and when an operation rounded to double and then
      to a narrow lane is the operation rounded once.
    - [Lanes], [LaneLaws] (mojito-types, [ct.rs], [mlir.rs]): the value of each
      lane operation.  Integer lanes are exact modulo the lane; float lanes
      are IEEE in the lane's own format.
    - [Values], [ValueLaws], [ValueTyping], [Bitcast] (mojito-vm,
      [runtime.rs]): the machine's values and their operators.  Scalars behave
      as one-lane vectors but for a zero divisor, a float [%] and operators
      they do not have; operators keep dtypes, widths and ranges or report the
      error [refusal] names; and bit casts of all but narrow float lanes keep
      bits.
    - [Fold], [FoldLaws] (mojito-types, [param_expr/fold.rs], [param_expr.rs]):
      the compile-time folder.  Machine arithmetic is exact modulo its width,
      and a value folded for an operator that is one instruction is the value
      the machine computes, but for [//] and [%] by zero.
    - [ParamNode], [OrderedMap], [ParamBuild] (mojito-types,
      [param_expr.rs]): compile-time expressions, their canonical order, the
      polynomials and the constructors.  Meta-types, printing, and the
      constructors of types and attributes are classes.
    - [ParamRing], [ParamCanon], [ParamIdentity], [ParamBudget]: what a
      polynomial means in any commutative ring of the domain's
      characteristic.  Over atoms that the order distinguishes and that
      always have a value, two built expressions are one node exactly when the
      ring laws make them equal; a node has its expression's value; building
      ends, and only a product can exceed the budget.
    - [ParamLogic]: connectives keep truth and, over nodes that the order
      distinguishes, see sets; a comparison that folds is right.  [ParamExamples] orders parameter references, shows that
      the order of all nodes has a cycle, and runs the constructors.
    - [Ast], [AstWalk] (mojito-ast, [ast.rs], [visit.rs]): the syntax trees,
      and the read-only walk as the nodes it visits.
    - [AstRewrite] ([visit.rs]): the rewriting walk over any visitor, a record
      of callbacks on a state, with fuel for the nesting of nodes.
      [RewriteRuns]: under a visitor of the class [Tracks], which moves nodes
      without replacing them, fuel for the number of nodes is enough and the
      nodes handed over are those of the read-only walk, but for two places
      that the rewriting walk goes past.
    - [Parser], [ParseTypes], [ParseExprs], [ParseStmts], [ParseItems],
      [ParseProgram] (mojito-parser, [parser.rs] and [parser/]): the cursor
      and recursive descent over any token stream, a state monad with errors.
      A function that recurs through another takes the record [Rec] of the
      entries, which [parsers] ties with fuel; the entry points are at the end
      of [ParseProgram].  The debug form of a node is a class.
    - [ParseRuns], [TypeRuns], [ExprRuns], [StmtRuns], [ItemRuns],
      [ProgramRuns]: on a stream that keeps the interface [Bounded] no
      function of the parser panics or runs on, each consumes a token where it
      must, and spans are ordered; with [Recovering], recovery ends.
    - [ParseLexer]: the lexer keeps both interfaces, so parsing is total on a
      clean source and recovery on one that lexes; recovery agrees with the
      fail-fast parser where that succeeds, and never ends where the lexer
      stays at a character, as it does in [x = ?].
    - [Enums] (mojito-parser, [enums.rs]): the members of an enum, checked,
      written as source text, parsed and located at their cases; what the
      checks accept, how a payload is cut, and where members are located.
    - [Operators]: printing an operator tree with the fewest parentheses and
      parsing it gives the tree back.
    A component's state, its operations and their lines are in its file's own
    comment; composition follows the code: [Lexer] calls [Scanner],
    [RegionSafety] joins [Structure] and [Regions], [MoveSafety] instantiates
    [ForwardSound] with the scan of [Moves].

    ** Fuel

    [Lexer.next_fuel] and the fuel of the string scanners exceed the bytes
    left, and each round consumes one.  The machine, the structured semantics
    and a loop's fixpoint run on fuel with no bound of their own (a MIR loop
    may run for ever): their theorems hold of every amount, and
    [walk_forward_ends] and [analyze_lifetimes_ends] give the walk an amount
    that is enough.  [Layout.layout_of] recurses through struct names;
    [layout_of_total] gives the depth of the structs as its fuel.  The parser's
    recursion and loops share one fuel; [ParseLexer.parse_fuel] is two units
    for each token the lexer can still emit, of which a byte gives three at
    most, an interpolated fragment included.  The rewriting walk's fuel bounds
    the nesting of nodes: a visitor may put anything in a node's place, and
    for one that does not the number of nodes is enough.

    ** Not modelled

    The scopes a visitor may decline, the display bindings of [visit.rs] and
    the debug form of trees are left out of the front end.  The module linker, compile-time elaboration, checker and lowering work on
    checked trees whose data types alone span tens of thousands of lines and
    are not begun.  Instructions without regions, and so the
    machine's heap, the rest of the verifier, the other ownership checks and the
    clean-up passes, wait for a model of MIR instructions and types.  The
    LLVM backend calls the pliron library, which is not in the repository.
    The driver, the runtime's C entry points and foreign calls are
    input/output.  The standard library is Mojo. *)

From stdpp Require Export base tactics decidable option list numbers strings.
From Stdlib Require Export ZArith Lia.

#[export] Set Default Proof Using "Type".

(** ** Outcomes of Rust code

    A Rust function returns ([Ok]), returns an error value ([Err]), or
    panics ([Panic]: a failed [unwrap], an index or slice out of range, an
    arithmetic overflow).  Loops that are not structural run on fuel; running
    out is [Diverge], a value no Rust run produces, so a theorem that rules it
    out is a termination theorem. *)
Inductive outcome (E A : Type) : Type :=
| Ok (a : A)
| Err (e : E)
| Panic
| Diverge.
Arguments Ok {E A} a.
Arguments Err {E A} e.
Arguments Panic {E A}.
Arguments Diverge {E A}.

#[export] Instance outcome_ret E : MRet (outcome E) := λ A a, Ok a.
#[export] Instance outcome_bind E : MBind (outcome E) := λ A B f m,
  match m with
  | Ok a => f a
  | Err e => Err e
  | Panic => Panic
  | Diverge => Diverge
  end.
#[export] Instance outcome_fmap E : FMap (outcome E) := λ A B f m,
  match m with
  | Ok a => Ok (f a)
  | Err e => Err e
  | Panic => Panic
  | Diverge => Diverge
  end.

(** [Option::unwrap]. *)
Definition unwrap {E A} (o : option A) : outcome E A :=
  match o with Some a => Ok a | None => Panic end.

(** [Option::ok_or]. *)
Definition ok_or {E A} (e : E) (o : option A) : outcome E A :=
  match o with Some a => Ok a | None => Err e end.

(** A runtime check that panics when it fails. *)
Definition assert_or_panic {E} (b : bool) : outcome E unit :=
  if b then Ok tt else Panic.

(** [post r Q R]: [r] neither panics nor runs out of fuel, a returned value
    satisfies [Q] and a returned error satisfies [R]. *)
Definition post {E A} (r : outcome E A) (Q : A → Prop) (R : E → Prop) : Prop :=
  match r with
  | Ok a => Q a
  | Err e => R e
  | Panic | Diverge => False
  end.

Section post.
Context {E A B : Type}.
Implicit Types (r : outcome E A) (Q : A → Prop) (R : E → Prop).

Lemma post_mono r Q Q' R R' :
  post r Q R → (∀ a, Q a → Q' a) → (∀ e, R e → R' e) → post r Q' R'.
Proof. destruct r; simpl; auto. Qed.

Lemma post_bind r (k : A → outcome E B) (Q : B → Prop) R :
  post r (λ a, post (k a) Q R) R → post (r ≫= k) Q R.
Proof. by destruct r. Qed.

Lemma post_bind_inv r (k : A → outcome E B) (Q : B → Prop) R :
  post (r ≫= k) Q R → post r (λ a, post (k a) Q R) R.
Proof. by destruct r. Qed.

Lemma post_ok r Q R a : post r Q R → r = Ok a → Q a.
Proof. by intros H ->. Qed.

Lemma post_err r Q R e : post r Q R → r = Err e → R e.
Proof. by intros H ->. Qed.

Lemma post_total r Q R :
  post r Q R → (∃ a, r = Ok a ∧ Q a) ∨ (∃ e, r = Err e ∧ R e).
Proof. destruct r; simpl; naive_solver. Qed.

Lemma bind_ok_inv r (k : A → outcome E B) b :
  r ≫= k = Ok b ↔ ∃ a, r = Ok a ∧ k a = Ok b.
Proof. destruct r; simpl; naive_solver. Qed.

Lemma unwrap_ok (o : option A) a : unwrap (E:=E) o = Ok a ↔ o = Some a.
Proof. destruct o; simpl; naive_solver. Qed.

Lemma ok_or_ok (o : option A) e a : ok_or (E:=E) e o = Ok a ↔ o = Some a.
Proof. destruct o; simpl; naive_solver. Qed.
End post.

#[export] Instance post_proper {E A} (r : outcome E A) :
  Proper (pointwise_relation A impl ==> pointwise_relation E impl ==> impl) (post r).
Proof. intros Q Q' HQ R R' HR H. eapply post_mono; [exact H|apply HQ|apply HR]. Qed.

Create HintDb rust discriminated.
Create HintDb wrap.
#[export] Hint Resolve post_bind : rust.

(** Step through a successful bind: [H : m ≫= k = Ok b] becomes the two
    equations for [m] and [k]. *)
Ltac bind_inv H :=
  let a := fresh "a" in
  let H1 := fresh "Hm" in
  apply bind_ok_inv in H; destruct H as (a & H1 & H).

(** Case analysis on every [if] and [match] scrutinee of the goal, with
    arithmetic clean-up: the workhorse for executable definitions. *)
Ltac crush_cases :=
  repeat first
    [ progress simplify_eq/=
    | case_match
    | case_decide ];
  try done; try lia.

(** ** Machine integers

    A [w]-bit integer is a [Z] in its range; [to_unsigned] and [to_signed]
    are the wrapping conversions ([as u64], [as i64], ...). *)
Section machine.
Local Open Scope Z_scope.

Definition to_unsigned (w z : Z) : Z := z mod 2 ^ w.
Definition to_signed (w z : Z) : Z := (z + 2 ^ (w - 1)) mod 2 ^ w - 2 ^ (w - 1).

Definition in_unsigned (w z : Z) : Prop := 0 <= z < 2 ^ w.
Definition in_signed (w z : Z) : Prop := - 2 ^ (w - 1) <= z < 2 ^ (w - 1).

#[export] Instance in_unsigned_dec w z : Decision (in_unsigned w z).
Proof. unfold in_unsigned. apply _. Defined.
#[export] Instance in_signed_dec w z : Decision (in_signed w z).
Proof. unfold in_signed. apply _. Defined.

Lemma pow2_split w : 0 < w → 2 ^ w = 2 * 2 ^ (w - 1).
Proof. intros. rewrite <- Z.pow_succ_r by lia. f_equal. lia. Qed.

Lemma pow2_pos w : 0 <= w → 0 < 2 ^ w.
Proof. intros. by apply Z.pow_pos_nonneg. Qed.

Lemma to_unsigned_range w z : 0 <= w → in_unsigned w (to_unsigned w z).
Proof. intros. apply Z.mod_pos_bound, pow2_pos. lia. Qed.

Lemma to_signed_range w z : 0 < w → in_signed w (to_signed w z).
Proof.
  intros. unfold in_signed, to_signed.
  pose proof (Z.mod_pos_bound (z + 2 ^ (w - 1)) (2 ^ w) (pow2_pos w ltac:(lia))).
  rewrite (pow2_split w) in * by lia. lia.
Qed.

Lemma to_unsigned_small w z : in_unsigned w z → to_unsigned w z = z.
Proof. apply Z.mod_small. Qed.

Lemma to_signed_small w z : 0 < w → in_signed w z → to_signed w z = z.
Proof.
  unfold in_signed, to_signed. intros. rewrite Z.mod_small; [lia|].
  rewrite (pow2_split w) by lia. lia.
Qed.

(** Both conversions keep the residue modulo [2 ^ w]. *)
Lemma to_unsigned_mod w z : to_unsigned w z mod 2 ^ w = z mod 2 ^ w.
Proof. apply Zmod_mod. Qed.

Lemma to_signed_mod w z : to_signed w z mod 2 ^ w = z mod 2 ^ w.
Proof. unfold to_signed. rewrite Zminus_mod_idemp_l. f_equal. lia. Qed.

Lemma to_unsigned_congr w x y :
  x mod 2 ^ w = y mod 2 ^ w → to_unsigned w x = to_unsigned w y.
Proof. done. Qed.

Lemma to_signed_congr w x y :
  x mod 2 ^ w = y mod 2 ^ w → to_signed w x = to_signed w y.
Proof.
  intros H. unfold to_signed. f_equal.
  by rewrite <- Zplus_mod_idemp_l, H, Zplus_mod_idemp_l.
Qed.

Lemma to_signed_idemp w x : to_signed w (to_signed w x) = to_signed w x.
Proof. apply to_signed_congr, to_signed_mod. Qed.

Lemma to_unsigned_idemp w x : to_unsigned w (to_unsigned w x) = to_unsigned w x.
Proof. apply to_unsigned_congr, to_unsigned_mod. Qed.

Lemma to_unsigned_of_signed w x : to_unsigned w (to_signed w x) = to_unsigned w x.
Proof. apply to_unsigned_congr, to_signed_mod. Qed.

Lemma to_signed_of_unsigned w x : to_signed w (to_unsigned w x) = to_signed w x.
Proof. apply to_signed_congr, to_unsigned_mod. Qed.
End machine.

#[export] Hint Resolve to_unsigned_range to_signed_range : rust.
#[export] Hint Rewrite to_unsigned_idemp to_signed_idemp to_unsigned_of_signed
  to_signed_of_unsigned to_unsigned_mod to_signed_mod : wrap.

(** ** Boolean tests over lists *)

(** [slice.contains(x)]. *)
Definition contains `{EqDecision A} (x : A) (l : list A) : bool := bool_decide (x ∈ l).

(** [iter().position(p)]: the index of the first element satisfying [p]. *)
Fixpoint position {A} (p : A → bool) (l : list A) : option nat :=
  match l with
  | [] => None
  | x :: l' => if p x then Some 0 else S <$> position p l'
  end.

Section position.
Context {A : Type} (p : A → bool).

Lemma position_Some l i :
  position p l = Some i ↔
  (∃ x, l !! i = Some x ∧ p x = true) ∧ ∀ j y, j < i → l !! j = Some y → p y = false.
Proof.
  revert i. induction l as [|x l IH]; intros i; simpl.
  { split; [done|]. intros [(y & Hy & _) _]. by rewrite lookup_nil in Hy. }
  destruct (p x) eqn:Hp.
  - split.
    + intros [= <-]. split; [eauto|lia].
    + intros [_ H]. destruct i as [|i]; [done|].
      specialize (H 0 x (Nat.lt_0_succ i) eq_refl). congruence.
  - rewrite fmap_Some. split.
    + intros (j & Hj & ->). apply IH in Hj as [Hx Hlt]. split; [done|].
      intros [|k] y Hk Hy; simpl in *; [congruence|]. apply (Hlt k); [lia|done].
    + intros [(y & Hy & Hpy) Hlt]. destruct i as [|i]; simpl in *; [congruence|].
      exists i. split; [|done]. apply IH. split; [eauto|].
      intros j z Hj Hz. apply (Hlt (S j)); [lia|done].
Qed.

Lemma position_None l : position p l = None ↔ Forall (λ x, p x = false) l.
Proof.
  induction l as [|x l IH]; simpl; [by split; constructor|].
  destruct (p x) eqn:Hp.
  - rewrite Forall_cons. split; [done|]. intros [? _]; congruence.
  - rewrite fmap_None, IH, Forall_cons. tauto.
Qed.

Lemma position_lt l i : position p l = Some i → i < length l.
Proof. intros [(x & Hx & _) _]%position_Some. by apply lookup_lt_Some in Hx. Qed.
End position.
#[export] Hint Resolve position_lt : rust.

(** [into_iter().flatten().collect()] over options. *)
Fixpoint flatten {A} (l : list (option A)) : list A :=
  match l with
  | [] => []
  | Some x :: l => x :: flatten l
  | None :: l => flatten l
  end.

Lemma flatten_fmap_Some {A} (l : list A) : flatten (Some <$> l) = l.
Proof. induction l as [|x l IH]; simpl; [done|]. by f_equal. Qed.

Lemma fmap_Some_flatten {A} (l : list (option A)) :
  Forall is_Some l → Some <$> flatten l = l.
Proof. induction 1 as [|o l [x ->] _ IH]; simpl; [done|]. by f_equal. Qed.

(** [v[i] = x]: panics out of range. *)
Definition set_at {E A} (i : nat) (x : A) (l : list A) : outcome E (list A) :=
  if i <? length l then Ok (<[i := x]> l) else Panic.

Lemma set_at_lt {E A} i (x : A) l : i < length l → set_at (E:=E) i x l = Ok (<[i := x]> l).
Proof. intros H%Nat.ltb_lt. unfold set_at. by rewrite H. Qed.

Lemma filter_fmap {A B} (f : A → B) (Q : B → Prop) `{!∀ x, Decision (Q x)} (l : list A) :
  filter Q (f <$> l) = f <$> filter (λ x, Q (f x)) l.
Proof.
  induction l as [|x l IH]; [done|]. rewrite fmap_cons, !filter_cons, IH. by case_decide.
Qed.
