(* ===== verification/CallBinding.v ===== *)
(** * Call binding (crates/mojito-ast/src/call.rs)

    The phase-neutral matching of call arguments to declared parameters:
    regular calls ([match_call_slots], [match_fieldwise_slots], spreads and
    forwarded keywords) and compile-time bracket lists
    ([match_parameter_slots], [bracket_unbound_slots]).

    A Rust [Result] is an [outcome]; indexing out of range and the
    [debug_assert_eq!] are [Panic].  Names are strings, indices are [nat]. *)

From S2P Require Import Prelude.

(** ** Data *)

Inductive ArgSlot : Type :=
| Positional (index : nat)
| Keyword (index : nat)
| Default.

Inductive MatchError : Type :=
| TooManyPositional (expected got : nat)
| UnknownKeyword (k : string)
| PositionalOnly (k : string)
| Duplicate (k : string)
| Missing (m : string)
| RepeatedSpread
| PositionalAfterSpread
| SpreadOutsideVariadic
| KeywordsBesideForward.

Record CallVariadics : Type := mkVariadics {
  positional : bool;
  keyword : bool;
}.

Record CallSlots : Type := mkCallSlots {
  slots : list ArgSlot;
  positional_overflow : list nat;
  keyword_overflow : list nat;
}.

#[export] Instance ArgSlot_eq_dec : EqDecision ArgSlot.
Proof. solve_decision. Defined.
#[export] Instance MatchError_eq_dec : EqDecision MatchError.
Proof. solve_decision. Defined.

(** ** Spreads *)

Definition spread_position (spreads : list nat) (npos : nat) : outcome MatchError (option nat) :=
  match spreads with
  | [] => Ok None
  | [spread] => if spread + 1 =? npos then Ok (Some spread) else Err PositionalAfterSpread
  | _ => Err RepeatedSpread
  end.

Definition bind_spread (matched : CallSlots) (spread : nat) : outcome MatchError unit :=
  if bool_decide (matched.(positional_overflow) = [spread]) then Ok tt
  else Err SpreadOutsideVariadic.

Definition bind_keyword_forward (matched : CallSlots) (forwarded : bool) : outcome MatchError unit :=
  if forwarded && negb (bool_decide (matched.(keyword_overflow) = [])) then Err KeywordsBesideForward
  else Ok tt.

(** ** Regular calls *)

Section match_call_slots.
Context (param_names : list string) (required : list bool).
Context (positional_only keyword_only : option nat).
Context (npos : nat) (kw_names : list string) (variadics : CallVariadics).

(** [param_names.iter().position(|name| name == keyword)]. *)
Definition param_index (name : string) : option nat :=
  position (λ n, bool_decide (n = name)) param_names.

Definition nparams : nat := length param_names.
Definition positional_limit : nat := Nat.min (default nparams keyword_only) nparams.
Definition n_regular_pos : nat := Nat.min npos positional_limit.

(** [slots.iter_mut().enumerate().take(n_regular_pos)] over [vec![None; nparams]]. *)
Definition initial_slots : list (option ArgSlot) :=
  (λ i, if i <? n_regular_pos then Some (Positional i) else None) <$> seq 0 nparams.

(** Whether the index is below the positional-only marker. *)
Definition is_positional_only (i : nat) : bool :=
  match positional_only with Some limit => i <? limit | None => false end.

(** One iteration of the keyword loop. *)
Definition bind_keyword (acc : list (option ArgSlot) * list nat)
    (keyword_index : nat) (kw : string)
    : outcome MatchError (list (option ArgSlot) * list nat) :=
  let '(slots, keyword_overflow) := acc in
  if contains kw (take keyword_index kw_names) then Err (Duplicate kw)
  else match param_index kw with
  | None =>
      if variadics.(keyword) then Ok (slots, keyword_overflow ++ [keyword_index])
      else Err (UnknownKeyword kw)
  | Some parameter_index =>
      if is_positional_only parameter_index then Err (PositionalOnly kw)
      else match slots !! parameter_index with
      | None => Panic
      | Some (Some _) => Err (Duplicate kw)
      | Some None => Ok (<[parameter_index := Some (Keyword keyword_index)]> slots, keyword_overflow)
      end
  end.

Fixpoint bind_keywords (acc : list (option ArgSlot) * list nat)
    (keyword_index : nat) (todo : list string)
    : outcome MatchError (list (option ArgSlot) * list nat) :=
  match todo with
  | [] => Ok acc
  | kw :: todo => acc ← bind_keyword acc keyword_index kw; bind_keywords acc (S keyword_index) todo
  end.

(** The closing loop: an unfilled slot is an error when required, else a
    default. *)
Fixpoint finish_slots (index : nat) (slots : list (option ArgSlot)) : outcome MatchError (list ArgSlot) :=
  match slots with
  | [] => Ok []
  | slot :: rest =>
      matched ← (match slot with
        | Some slot => Ok slot
        | None =>
            is_required ← unwrap (required !! index);
            if (is_required : bool) then name ← unwrap (param_names !! index); Err (Missing name)
            else Ok Default
        end);
      matched_rest ← finish_slots (S index) rest;
      Ok (matched :: matched_rest)
  end.

Definition match_call_slots : outcome MatchError CallSlots :=
  _ ← assert_or_panic (length required =? nparams);
  if (positional_limit <? npos) && negb variadics.(positional) then
    Err (TooManyPositional positional_limit (npos + length kw_names))
  else
    let positional_overflow :=
      if variadics.(positional) then seq positional_limit (npos - positional_limit) else [] in
    '(slots, keyword_overflow) ← bind_keywords (initial_slots, []) 0 kw_names;
    matched ← finish_slots 0 slots;
    Ok (mkCallSlots matched positional_overflow keyword_overflow).

(** ** Declarative binding

    What a call means, independently of the order the loops run in. *)

(** The keyword at [k] names the parameter at [i]. *)
Definition keyword_names (k i : nat) : Prop :=
  ∃ name, kw_names !! k = Some name ∧ param_index name = Some i.

Inductive binds (i : nat) : ArgSlot → Prop :=
| binds_positional : i < n_regular_pos → binds i (Positional i)
| binds_keyword k :
    n_regular_pos ≤ i → keyword_names k i → is_positional_only i = false → binds i (Keyword k)
| binds_default :
    n_regular_pos ≤ i → (∀ k, ¬ keyword_names k i) → required !! i = Some false → binds i Default.

(** The keywords no named parameter claims, in call order. *)
Definition unclaimed (count : nat) : list nat :=
  filter (λ k, (kw_names !! k ≫= param_index) = None) (seq 0 count).

Record valid_binding (cs : CallSlots) : Prop := {
  vb_arity : npos ≤ positional_limit ∨ variadics.(positional) = true;
  vb_distinct : NoDup kw_names;
  vb_claimed : ∀ k i, keyword_names k i → n_regular_pos ≤ i ∧ is_positional_only i = false;
  vb_unclaimed : unclaimed (length kw_names) = [] ∨ variadics.(keyword) = true;
  vb_length : length cs.(slots) = nparams;
  vb_binds : ∀ i a, cs.(slots) !! i = Some a → binds i a;
  vb_positional_overflow : cs.(positional_overflow) = seq positional_limit (npos - positional_limit);
  vb_keyword_overflow : cs.(keyword_overflow) = unclaimed (length kw_names);
}.

(** Why a call is refused. *)
Definition refusal (e : MatchError) : Prop :=
  match e with
  | TooManyPositional expected got =>
      variadics.(positional) = false ∧ positional_limit < npos ∧
      expected = positional_limit ∧ got = npos + length kw_names
  | UnknownKeyword name => name ∈ kw_names ∧ name ∉ param_names ∧ variadics.(keyword) = false
  | PositionalOnly name =>
      name ∈ kw_names ∧ ∃ i, param_index name = Some i ∧ is_positional_only i = true
  | Duplicate name =>
      name ∈ kw_names ∧ (¬ NoDup kw_names ∨ ∃ i, param_index name = Some i ∧ i < n_regular_pos)
  | Missing name => ∃ i,
      param_names !! i = Some name ∧ required !! i = Some true ∧
      n_regular_pos ≤ i ∧ ∀ k, ¬ keyword_names k i
  | _ => False
  end.
End match_call_slots.

Section match_call_slots_proofs.
Context (param_names : list string) (required : list bool).
Context (positional_only keyword_only : option nat).
Context (npos : nat) (kw_names : list string) (variadics : CallVariadics).

Notation nparams := (nparams param_names).
Notation limit := (positional_limit param_names keyword_only).
Notation nreg := (n_regular_pos param_names keyword_only npos).
Notation names := (keyword_names param_names kw_names).
Notation ponly := (is_positional_only positional_only).
Notation pindex := (param_index param_names).
Notation unclaimed := (unclaimed param_names kw_names).
Notation binds := (binds param_names required positional_only keyword_only npos kw_names).
Notation refusal := (refusal param_names required positional_only keyword_only npos kw_names variadics).
Notation valid := (valid_binding param_names required positional_only keyword_only npos kw_names variadics).

Lemma n_regular_pos_le : nreg ≤ nparams.
Proof. unfold n_regular_pos, positional_limit. lia. Qed.

Lemma param_index_lt name i : pindex name = Some i → i < nparams.
Proof. apply position_lt. Qed.

Lemma param_index_lookup name i : pindex name = Some i → param_names !! i = Some name.
Proof.
  intros [(x & Hx & Hp) _]%position_Some. apply bool_decide_eq_true in Hp. by subst.
Qed.

Lemma param_index_None name : pindex name = None ↔ name ∉ param_names.
Proof.
  unfold param_index. rewrite position_None, Forall_forall.
  setoid_rewrite bool_decide_eq_false. naive_solver.
Qed.

Lemma keyword_names_lt k i : names k i → k < length kw_names ∧ i < nparams.
Proof.
  intros (name & Hk & Hi). split; [by eapply lookup_lt_Some|by eapply param_index_lt].
Qed.

Lemma keyword_names_fun k i j : names k i → names k j → i = j.
Proof. intros (n1 & H1 & H2) (n2 & H3 & H4). congruence. Qed.

(** The parameter a keyword names determines the keyword's text. *)
Lemma keyword_names_same k k' i :
  names k i → names k' i → kw_names !! k = kw_names !! k'.
Proof.
  intros (n1 & H1 & H2%param_index_lookup) (n2 & H3 & H4%param_index_lookup). congruence.
Qed.

Lemma unclaimed_S k : unclaimed (S k) =
  unclaimed k ++ (if decide ((kw_names !! k ≫= pindex) = None) then [k] else []).
Proof.
  unfold CallBinding.unclaimed. by rewrite seq_S, filter_app.
Qed.

Lemma elem_of_unclaimed count k :
  k ∈ unclaimed count ↔ k < count ∧ (kw_names !! k ≫= pindex) = None.
Proof. unfold CallBinding.unclaimed. rewrite list_elem_of_filter, elem_of_seq. naive_solver lia. Qed.

(** What the slot vector and the collector hold once the first [ki]
    keywords are bound. *)
Record keyword_inv (ki : nat) (acc : list (option ArgSlot) * list nat) : Prop := {
  ki_length : length acc.1 = nparams;
  ki_distinct : NoDup (take ki kw_names);
  ki_claimed : ∀ k i, k < ki → names k i → nreg ≤ i ∧ ponly i = false;
  ki_overflow : acc.2 = unclaimed ki;
  ki_collects : unclaimed ki = [] ∨ variadics.(keyword) = true;
  ki_filled : ∀ i a, acc.1 !! i = Some (Some a) →
    (a = Positional i ∧ i < nreg) ∨
    (∃ k, a = Keyword k ∧ k < ki ∧ names k i);
  ki_empty : ∀ i, acc.1 !! i = Some None → nreg ≤ i ∧ ∀ k, k < ki → ¬ names k i;
}.

Lemma keyword_inv_init : keyword_inv 0 (initial_slots param_names keyword_only npos, []).
Proof.
  unfold initial_slots. split; simpl; try done.
  - by rewrite length_fmap, length_seq.
  - apply NoDup_nil_2.
  - lia.
  - by left.
  - intros i a (j & Hj & [-> Hlt]%lookup_seq)%list_lookup_fmap_Some. simpl in Hj.
    destruct (Nat.ltb_spec i nreg); simplify_eq. left. auto.
  - intros i (j & Hj & [-> Hlt]%lookup_seq)%list_lookup_fmap_Some. simpl in Hj.
    destruct (Nat.ltb_spec i nreg); simplify_eq. split; [done|lia].
Qed.

Lemma take_S_NoDup (kw : string) ki :
  kw_names !! ki = Some kw → NoDup (take ki kw_names) → kw ∉ take ki kw_names →
  NoDup (take (S ki) kw_names).
Proof.
  intros Hk Hnd Hni. rewrite (take_S_r _ _ _ Hk). apply NoDup_app. split; [done|].
  split; [|apply NoDup_singleton]. intros x Hx ->%list_elem_of_singleton. done.
Qed.

(** A keyword seen before is a keyword of the call that repeats. *)
Lemma seen_twice kw ki :
  kw_names !! ki = Some kw → kw ∈ take ki kw_names → ¬ NoDup kw_names.
Proof.
  intros Hk (j & Hj)%list_elem_of_lookup Hnd.
  apply lookup_take_Some in Hj as [Hj Hlt].
  pose proof (NoDup_lookup _ _ _ _ Hnd Hj Hk). lia.
Qed.

Lemma bind_keyword_post ki kw acc :
  kw_names !! ki = Some kw → keyword_inv ki acc →
  post (bind_keyword param_names positional_only kw_names variadics acc ki kw)
    (keyword_inv (S ki)) refusal.
Proof.
  intros Hk Hinv. destruct acc as [sl kov]. pose proof (ki_length _ _ Hinv) as Hlen.
  simpl in Hlen. unfold bind_keyword, contains.
  assert (Hin : kw ∈ kw_names) by (apply list_elem_of_lookup; eauto).
  case_bool_decide as Hseen.
  { simpl. eauto using seen_twice. }
  assert (Hnd : NoDup (take (S ki) kw_names)).
  { apply (take_S_NoDup kw); [done|apply Hinv|done]. }
  assert (HS : ∀ k i, k < S ki → names k i → k < ki ∨ k = ki ∧ pindex kw = Some i).
  { intros k i Hlt (n & Hn & Hi). destruct (decide (k = ki)) as [->|]; [right|left; lia].
    by rewrite Hk in Hn; simplify_eq. }
  destruct (pindex kw) as [pi|] eqn:Hpi.
  - destruct (ponly pi) eqn:Hpo; [simpl; eauto|].
    pose proof (param_index_lt _ _ Hpi) as Hlt.
    destruct (lookup_lt_is_Some_2 sl pi) as [so Hso]; [by rewrite Hlen|].
    rewrite Hso. destruct so as [a|].
    + simpl. split; [done|]. destruct (ki_filled _ _ Hinv _ _ Hso) as [[_ ?]|(k & _ & Hkk & Hn)];
        [eauto|]. left. eapply seen_twice; [exact Hk|]. exfalso. apply Hseen.
      apply list_elem_of_lookup. exists k.
      destruct Hn as (n & Hn & Hi%param_index_lookup). apply param_index_lookup in Hpi.
      rewrite lookup_take_Some. split; [congruence|done].
    + destruct (ki_empty _ _ Hinv _ Hso) as [Hreg Hno].
      simpl. split; simpl.
      * rewrite length_insert. apply Hinv.
      * done.
      * intros k i Hk' Hn. destruct (HS _ _ Hk' Hn) as [?|[-> ?]];
          [by eapply (ki_claimed _ _ Hinv)|]. by simplify_eq.
      * rewrite unclaimed_S, Hk. simpl. rewrite Hpi, decide_False, app_nil_r by done. apply Hinv.
      * rewrite unclaimed_S, Hk. simpl. rewrite Hpi, decide_False, app_nil_r by done. apply Hinv.
      * intros i a. rewrite list_lookup_insert. intros Hi. crush_cases.
        -- right. exists ki. split_and!; [done|lia|]. exists kw. naive_solver.
        -- destruct (ki_filled _ _ Hinv _ _ Hi) as [?|(k & ? & ? & ?)]; [by left|].
           right. exists k. split_and!; [done|lia|done].
      * intros i. rewrite list_lookup_insert. intros Hi. crush_cases.
        destruct (ki_empty _ _ Hinv _ Hi) as [? Hno']. split; [done|].
        intros k Hk' Hn. destruct (HS _ _ Hk' Hn) as [?|[-> ?]]; [by eapply Hno'|].
        simplify_eq. match goal with H : ¬ (_ ∧ _) |- _ => apply H end.
        split; [done|lia].
  - destruct (variadics.(keyword)) eqn:Hv.
    2:{ simpl. apply param_index_None in Hpi. done. }
    simpl. split; simpl; try apply Hinv; try done.
    + intros k i Hk' Hn. destruct (HS _ _ Hk' Hn) as [?|[-> ?]]; [|done].
      by eapply (ki_claimed _ _ Hinv).
    + rewrite unclaimed_S, Hk. simpl. rewrite Hpi, decide_True by done. f_equal. apply Hinv.
    + by right.
    + intros i a Hi. destruct (ki_filled _ _ Hinv _ _ Hi) as [?|(k & ? & ? & ?)]; [by left|].
      right. exists k. split_and!; [done|lia|done].
    + intros i Hi. destruct (ki_empty _ _ Hinv _ Hi) as [? Hno']. split; [done|].
      intros k Hk' Hn. destruct (HS _ _ Hk' Hn) as [?|[-> ?]]; [by eapply Hno'|done].
Qed.

Lemma keyword_names_lt_length k i : names k i → k < length kw_names.
Proof. by intros [? _]%keyword_names_lt. Qed.

Lemma bind_keywords_post ki acc :
  ki ≤ length kw_names → keyword_inv ki acc →
  post (bind_keywords param_names positional_only kw_names variadics acc ki (drop ki kw_names))
    (keyword_inv (length kw_names)) refusal.
Proof.
  remember (drop ki kw_names) as todo eqn:Htodo. revert ki acc Htodo.
  induction todo as [|kw todo IH]; intros ki acc Htodo Hle Hinv; cbn [bind_keywords].
  - simpl. pose proof (length_drop kw_names ki) as Hl. rewrite <- Htodo in Hl. simpl in Hl.
    replace (length kw_names) with ki by lia. done.
  - assert (kw_names !! ki = Some kw) as Hk.
    { pose proof (lookup_drop kw_names ki 0) as Hd. rewrite <- Htodo, Nat.add_0_r in Hd. done. }
    apply post_bind. eapply post_mono; [by apply bind_keyword_post| |done].
    intros acc' Hacc'. apply IH; [|by apply lookup_lt_Some in Hk|done].
    rewrite (drop_S _ _ _ Hk) in Htodo. by simplify_eq.
Qed.

(** The closing loop either resolves every slot or reports the first
    required one left empty. *)
Lemma finish_slots_post index sl :
  length required = nparams → index + length sl = nparams →
  post (finish_slots param_names required index sl)
    (λ l, length l = length sl ∧ ∀ i a, l !! i = Some a →
      sl !! i = Some (Some a) ∨ (a = Default ∧ sl !! i = Some None ∧ required !! (index + i) = Some false))
    (λ e, ∃ i name, e = Missing name ∧ sl !! i = Some None ∧
      param_names !! (index + i) = Some name ∧ required !! (index + i) = Some true).
Proof.
  intros Hreq. revert index. induction sl as [|s sl IH]; intros index Hlen; cbn [finish_slots].
  { simpl. split; [done|]. intros i a. by rewrite lookup_nil. }
  simpl in Hlen. unfold CallBinding.nparams in *.
  destruct (lookup_lt_is_Some_2 required index) as [b Hb]; [lia|].
  destruct (lookup_lt_is_Some_2 param_names index) as [nm Hnm]; [lia|].
  assert (∀ a, s = Some a ∨ (a = Default ∧ s = None ∧ b = false) →
    post (matched_rest ← finish_slots param_names required (S index) sl; Ok (a :: matched_rest))
    (λ l, length l = S (length sl) ∧ ∀ i a, l !! i = Some a →
      (s :: sl) !! i = Some (Some a) ∨
      (a = Default ∧ (s :: sl) !! i = Some None ∧ required !! (index + i) = Some false))
    (λ e, ∃ i name, e = Missing name ∧ (s :: sl) !! i = Some None ∧
      param_names !! (index + i) = Some name ∧ required !! (index + i) = Some true)) as Hgo.
  { intros a Ha. apply post_bind. eapply post_mono; [apply IH; lia| |].
    - intros l [Hl Hall]. simpl. split; [lia|]. intros [|i] a'; simpl.
      + intros [= <-]. rewrite Nat.add_0_r, Hb. destruct Ha as [->|(-> & -> & ->)]; eauto.
      + intros Hi. apply Hall in Hi. by rewrite <- Nat.add_succ_comm.
    - intros e (i & name & -> & ? & ? & ?). exists (S i), name. simpl.
      by rewrite <- Nat.add_succ_comm. }
  apply post_bind. destruct s as [a|]; [by apply Hgo; left|].
  rewrite Hb. simpl. destruct b.
  - rewrite Hnm. simpl. exists 0, nm. by rewrite Nat.add_0_r.
  - apply Hgo. auto.
Qed.

Lemma binds_of_inv sl kov i a :
  keyword_inv (length kw_names) (sl, kov) →
  sl !! i = Some (Some a) ∨ (a = Default ∧ sl !! i = Some None ∧ required !! i = Some false) →
  binds i a.
Proof.
  intros Hinv [Hi|(-> & Hi & Hr)].
  - destruct (ki_filled _ _ Hinv _ _ Hi) as [[-> ?]|(k & -> & Hk & Hn)]; [by constructor|].
    destruct (ki_claimed _ _ Hinv _ _ Hk Hn). by constructor.
  - destruct (ki_empty _ _ Hinv _ Hi) as [? Hno]. constructor; [done| |done].
    intros k Hn. eapply Hno; [|exact Hn]. by eapply keyword_names_lt_length.
Qed.

Lemma match_call_slots_post :
  length required = nparams →
  post (match_call_slots param_names required positional_only keyword_only npos kw_names variadics)
    valid refusal.
Proof.
  intros Hreq. unfold match_call_slots. rewrite Hreq, Nat.eqb_refl. cbn [mbind outcome_bind assert_or_panic].
  destruct (Nat.ltb_spec limit npos) as [Hlt|Hge]; simpl.
  all: destruct (positional variadics) eqn:Hv; simpl.
  all: try (split_and!; done).
  all: apply post_bind; eapply post_mono;
    [apply (bind_keywords_post 0); [lia|apply keyword_inv_init]| |done];
    intros [sl kov] Hinv; apply post_bind;
    (eapply post_mono; [apply finish_slots_post; [done|apply Hinv]| |]);
    [intros l [Hl Hall]; simpl|intros e (i & name & -> & Hi & Hn & Hr); exists i; simpl in *;
      destruct (ki_empty _ _ Hinv _ Hi) as [? Hno]; split_and!; [done..|];
      intros k Hk; by eapply Hno; [|exact Hk]; eapply keyword_names_lt_length].
  all: split; simpl; try apply Hinv; try done; try (by left; lia); try (by right).
  all: try (by pose proof (ki_distinct _ _ Hinv) as H; rewrite firstn_all in H).
  all: try (by intros k i Hn; eapply (ki_claimed _ _ Hinv); [|exact Hn]; eapply keyword_names_lt_length).
  all: try (by rewrite Hl; apply Hinv).
  all: try (by intros i a Ha; eapply binds_of_inv; [exact Hinv|]; apply (Hall i a Ha)).
  by replace (npos - limit) with 0 by lia.
Qed.
End match_call_slots_proofs.

(** ** The call contract *)

(** The source argument a slot takes, when it takes one. *)
Definition as_positional (a : ArgSlot) : option nat :=
  match a with Positional i => Some i | _ => None end.
Definition as_keyword (a : ArgSlot) : option nat :=
  match a with Keyword k => Some k | _ => None end.

Section call_contract.
Context (param_names : list string) (required : list bool).
Context (positional_only keyword_only : option nat).
Context (npos : nat) (kw_names : list string) (variadics : CallVariadics).

Notation binds := (binds param_names required positional_only keyword_only npos kw_names).
Notation refusal := (refusal param_names required positional_only keyword_only npos kw_names variadics).
Notation valid := (valid_binding param_names required positional_only keyword_only npos kw_names variadics).
Notation nreg := (n_regular_pos param_names keyword_only npos).

Lemma binds_fun i a a' : NoDup kw_names → binds i a → binds i a' → a = a'.
Proof.
  intros Hnd H1 H2. destruct H1 as [|k ? Hk|? Hno], H2 as [|k' ? Hk'|? Hno']; try done; try lia.
  - f_equal. destruct (Hk) as (n & Hn & _). eapply NoDup_lookup; [exact Hnd|exact Hn|].
    by rewrite <- (keyword_names_same _ _ _ _ _ Hk Hk').
  - by destruct (Hno' k).
  - by destruct (Hno k').
Qed.

Lemma valid_unique cs cs' : valid cs → valid cs' → cs = cs'.
Proof.
  intros V V'. destruct cs as [s p k], cs' as [s' p' k'].
  destruct V as [_ Hnd _ _ Hl Hb Hp Hk], V' as [_ _ _ _ Hl' Hb' Hp' Hk']. simpl in *. subst.
  f_equal. apply list_eq_same_length with (length s); [lia|done|].
  intros i a a' _ Ha Ha'. eapply binds_fun; [done|by apply Hb|by apply Hb'].
Qed.

Lemma refusal_no_binding e cs : length required = nparams param_names → refusal e → ¬ valid cs.
Proof.
  intros Hreq He V. destruct e as [| nm | nm | nm | nm | | | |]; simpl in He; try done.
  - destruct He as (Hv & Hlt & _). destruct (vb_arity _ _ _ _ _ _ _ _ V); [lia|congruence].
  - destruct He as ((i & Hi)%list_elem_of_lookup & Hn & Hv).
    destruct (vb_unclaimed _ _ _ _ _ _ _ _ V) as [Hu|]; [|congruence].
    assert (i ∈ unclaimed param_names kw_names (length kw_names)) as Hin; [|by rewrite Hu in Hin; apply not_elem_of_nil in Hin].
    apply elem_of_unclaimed. split; [by eapply lookup_lt_Some|].
    rewrite Hi. simpl. by apply param_index_None.
  - destruct He as ((k & Hk)%list_elem_of_lookup & i & Hi & Hp).
    destruct (vb_claimed _ _ _ _ _ _ _ _ V k i) as [_ ?]; [by exists nm|congruence].
  - destruct He as ((k & Hk)%list_elem_of_lookup & [Hnd|(i & Hi & Hlt)]).
    + by apply Hnd, V.
    + destruct (vb_claimed _ _ _ _ _ _ _ _ V k i) as [? _]; [by exists nm|lia].
  - destruct He as (i & Hn & Hr & Hge & Hno).
    assert (i < length cs.(slots)) as [a Ha]%lookup_lt_is_Some_2.
    { rewrite (vb_length _ _ _ _ _ _ _ _ V). by eapply lookup_lt_Some. }
    apply (vb_binds _ _ _ _ _ _ _ _ V) in Ha. destruct Ha as [|k ? Hk|]; [lia|by eapply Hno|congruence].
Qed.

Lemma omap_positional l o m :
  (∀ i a, l !! i = Some a → as_positional a = if o + i <? m then Some (o + i) else None) →
  omap as_positional l = seq o (Nat.min (length l) (m - o)).
Proof.
  revert o. induction l as [|a l IH]; intros o H; [done|]. cbn [omap list_omap length].
  pose proof (H 0 a eq_refl) as Ha. rewrite Nat.add_0_r in Ha. rewrite Ha.
  assert (omap as_positional l = seq (S o) (Nat.min (length l) (m - S o))) as IHl.
  { apply IH. intros i a' Hi. rewrite Nat.add_succ_comm. by apply H. }
  change (list_omap _ _ as_positional l) with (omap as_positional l). rewrite IHl.
  destruct (Nat.ltb_spec o m).
  - replace (m - o) with (S (m - S o)) by lia. done.
  - replace (m - S o) with 0 by lia. replace (m - o) with 0 by lia.
    by rewrite !Nat.min_0_r.
Qed.

Lemma valid_positional cs i a :
  valid cs → cs.(slots) !! i = Some a →
  as_positional a = if i <? nreg then Some i else None.
Proof.
  intros V Ha%(vb_binds _ _ _ _ _ _ _ _ V).
  destruct Ha; simpl; destruct (Nat.ltb_spec i nreg); done || lia.
Qed.

Lemma valid_keyword cs i k :
  valid cs → cs.(slots) !! i = Some (Keyword k) → keyword_names param_names kw_names k i.
Proof. intros V Ha%(vb_binds _ _ _ _ _ _ _ _ V). by inversion Ha. Qed.

(** The slot of the parameter a keyword names holds that keyword. *)
Lemma valid_keyword_bound cs i k :
  valid cs → keyword_names param_names kw_names k i → cs.(slots) !! i = Some (Keyword k).
Proof.
  intros V Hn. destruct (keyword_names_lt _ _ _ _ Hn) as [_ Hi].
  destruct (lookup_lt_is_Some_2 cs.(slots) i) as [a Ha]; [by rewrite (vb_length _ _ _ _ _ _ _ _ V)|].
  rewrite Ha. f_equal. eapply binds_fun; [apply V|by apply V|].
  destruct (vb_claimed _ _ _ _ _ _ _ _ V _ _ Hn). by constructor.
Qed.

Lemma NoDup_omap_lookup {A B} (f : A → option B) (l : list A) :
  (∀ i j x y b, l !! i = Some x → l !! j = Some y → f x = Some b → f y = Some b → i = j) →
  NoDup (omap f l).
Proof.
  induction l as [|x l IH]; intros H; cbn [omap list_omap]; [constructor|].
  assert (NoDup (omap f l)) as Hnd.
  { apply IH. intros i j a b c Hi Hj Ha Hb. pose proof (H (S i) (S j) a b c Hi Hj Ha Hb). lia. }
  destruct (f x) as [b|] eqn:Hx; [|done]. constructor; [|done].
  intros (y & (j & Hj)%list_elem_of_lookup & Hy)%list_elem_of_omap.
  by pose proof (H 0 (S j) x y b eq_refl Hj Hx Hy).
Qed.

Lemma valid_keywords_once cs :
  valid cs → omap as_keyword cs.(slots) ++ cs.(keyword_overflow) ≡ₚ seq 0 (length kw_names).
Proof.
  intros V. apply NoDup_Permutation.
  - apply NoDup_app. split_and!.
    + apply NoDup_omap_lookup. intros i j x y b Hi Hj Hx Hy.
      destruct x, y; simplify_eq/=. eapply keyword_names_fun; by eapply valid_keyword.
    + intros k (a & (i & Ha)%list_elem_of_lookup & Hk)%list_elem_of_omap Hin.
      destruct a; simplify_eq/=. apply (valid_keyword cs) in Ha as (n & Hn & Hi); [|done].
      rewrite (vb_keyword_overflow _ _ _ _ _ _ _ _ V), elem_of_unclaimed, Hn in Hin.
      destruct Hin as [_ Hin]. simpl in Hin. congruence.
    + rewrite (vb_keyword_overflow _ _ _ _ _ _ _ _ V). apply NoDup_filter, NoDup_seq.
  - apply NoDup_seq.
  - intros k. rewrite elem_of_app, elem_of_seq, list_elem_of_omap,
      (vb_keyword_overflow _ _ _ _ _ _ _ _ V), elem_of_unclaimed. split.
    + intros [(a & (i & Ha)%list_elem_of_lookup & Hk)|[? _]]; [|lia].
      destruct a; simplify_eq/=. apply (valid_keyword cs) in Ha; [|done].
      apply keyword_names_lt_length in Ha. lia.
    + intros [_ [n Hn]%lookup_lt_is_Some_2].
      destruct (param_index param_names n) as [i|] eqn:Hi.
      * left. exists (Keyword k). split; [|done]. apply list_elem_of_lookup. exists i.
        apply valid_keyword_bound; [done|]. by exists n.
      * right. split; [by eapply lookup_lt_Some|]. by rewrite Hn.
Qed.
End call_contract.

(** The name a slot's keyword argument spells, or the positional index: what
    a slot binds, whatever order the keywords were written in. *)
Definition resolved (kw_names : list string) (a : ArgSlot) : option (nat + string) :=
  match a with
  | Positional i => Some (inl i)
  | Keyword k => inr <$> kw_names !! k
  | Default => None
  end.

Section keyword_order.
Context (param_names : list string) (required : list bool).
Context (positional_only keyword_only : option nat).
Context (npos : nat) (variadics : CallVariadics).

Notation valid := (valid_binding param_names required positional_only keyword_only npos).
Notation refusal := (refusal param_names required positional_only keyword_only npos).

(** Keyword [name] is supplied and names parameter [i]. *)
Definition supplies (kws : list string) (i : nat) (name : string) : Prop :=
  name ∈ kws ∧ param_index param_names name = Some i.

Lemma supplies_iff kws i :
  (∃ k, keyword_names param_names kws k i) ↔ ∃ name, supplies kws i name.
Proof.
  split.
  - intros (k & n & Hn & Hi). exists n. split; [|done]. apply list_elem_of_lookup. eauto.
  - intros (n & (k & Hk)%list_elem_of_lookup & Hi). exists k, n. done.
Qed.

Lemma supplies_perm kws kws' i name : kws ≡ₚ kws' → supplies kws i name → supplies kws' i name.
Proof. intros Hp [? ?]. split; [by rewrite <- Hp|done]. Qed.

Lemma refusal_perm kws kws' e :
  kws ≡ₚ kws' → refusal kws variadics e → refusal kws' variadics e.
Proof.
  intros Hp. destruct e; simpl; try done.
  - by rewrite (Permutation_length Hp).
  - by rewrite Hp.
  - by rewrite Hp.
  - by rewrite Hp.
  - intros (i & ? & ? & ? & Hno). exists i. split_and!; [done..|].
    intros k Hk. assert (∃ name, supplies kws' i name) as [nm Hs].
    { apply supplies_iff. eauto. }
    apply (supplies_perm _ kws) in Hs; [|done].
    destruct (proj2 (supplies_iff kws i)) as [k' Hk']; [by exists nm|]. by eapply Hno.
Qed.

Lemma valid_perm_resolved kws kws' cs cs' :
  kws ≡ₚ kws' → valid kws variadics cs → valid kws' variadics cs' →
  resolved kws <$> cs.(slots) = resolved kws' <$> cs'.(slots).
Proof.
  intros Hp V V'. apply list_eq. intros i. rewrite !list_lookup_fmap.
  destruct (cs.(slots) !! i) as [a|] eqn:Ha, (cs'.(slots) !! i) as [a'|] eqn:Ha'; try done.
  2:{ apply lookup_lt_Some in Ha. apply lookup_ge_None in Ha'.
      pose proof (vb_length _ _ _ _ _ _ _ _ V). pose proof (vb_length _ _ _ _ _ _ _ _ V'). lia. }
  2:{ apply lookup_lt_Some in Ha'. apply lookup_ge_None in Ha.
      pose proof (vb_length _ _ _ _ _ _ _ _ V). pose proof (vb_length _ _ _ _ _ _ _ _ V'). lia. }
  simpl. f_equal.
  apply (vb_binds _ _ _ _ _ _ _ _ V) in Ha. apply (vb_binds _ _ _ _ _ _ _ _ V') in Ha'.
  destruct Ha as [|k ? Hk|? Hno], Ha' as [|k' ? Hk'|? Hno']; try done; try lia; simpl.
  - destruct Hk as (n & Hn & Hi%param_index_lookup), Hk' as (n' & Hn' & Hi'%param_index_lookup).
    rewrite Hn, Hn'. simpl. congruence.
  - exfalso. destruct (proj1 (supplies_iff kws i)) as [nm Hs]; [eauto|].
    apply (supplies_perm _ kws') in Hs; [|done].
    destruct (proj2 (supplies_iff kws' i)) as [j Hj]; [eauto|]. by apply (Hno' j).
  - exfalso. destruct (proj1 (supplies_iff kws' i)) as [nm Hs]; [eauto|].
    apply (supplies_perm _ kws) in Hs; [|done].
    destruct (proj2 (supplies_iff kws i)) as [j Hj]; [eauto|]. by apply (Hno j).
Qed.
End keyword_order.

(** C7: argument matching is total and exact.  On a declaration whose
    [required] flags cover its parameters, [match_call_slots] either returns
    the one binding that satisfies the declarative rules (positionals first,
    each keyword to the parameter it names, defaults only for optional
    parameters nothing fills, overflow to the collectors), or returns an error
    whose stated reason holds of the call, and then no valid binding exists. *)
Theorem match_call_slots_correct param_names required positional_only keyword_only npos kw_names variadics :
  length required = nparams param_names →
  let run := match_call_slots param_names required positional_only keyword_only npos kw_names variadics in
  let valid := valid_binding param_names required positional_only keyword_only npos kw_names variadics in
  (∃ cs, run = Ok cs ∧ ∀ cs', valid cs' ↔ cs' = cs) ∨
  (∃ e, run = Err e ∧ refusal param_names required positional_only keyword_only npos kw_names variadics e ∧
        ∀ cs, ¬ valid cs).
Proof.
  intros Hreq run valid.
  destruct (post_total _ _ _ (match_call_slots_post _ _ positional_only keyword_only npos kw_names variadics Hreq))
    as [(cs & Hcs & V)|(e & He & R)].
  - left. exists cs. split; [done|]. intros cs'. split; [|by intros ->].
    intros V'. by eapply valid_unique.
  - right. exists e. split_and!; [done..|]. intros cs. by eapply refusal_no_binding.
Qed.

(** The declaration and call of the upstream unit test: [def f(a, b = .., *, c)]
    with both collectors, called with three positionals, [c=] and [extra=]. *)
Definition mixed_names : list string := ["a"; "b"; "c"].
Definition mixed_call : outcome MatchError CallSlots :=
  match_call_slots mixed_names [true; false; true] None (Some 2) 3 ["c"; "extra"] (mkVariadics true true).

Lemma match_call_slots_correct_witness :
  mixed_call = Ok (mkCallSlots [Positional 0; Positional 1; Keyword 0] [2] [1]) ∧
  ∀ cs', valid_binding mixed_names [true; false; true] None (Some 2) 3 ["c"; "extra"] (mkVariadics true true) cs' ↔
    cs' = mkCallSlots [Positional 0; Positional 1; Keyword 0] [2] [1].
Proof.
  destruct (match_call_slots_correct mixed_names [true; false; true] None (Some 2) 3 ["c"; "extra"]
    (mkVariadics true true) eq_refl) as [(cs & Hrun & H)|(e & Hrun & _)]; [|discriminate Hrun].
  split; [reflexivity|]. vm_compute in Hrun. injection Hrun as <-. exact H.
Defined.

(** No argument is lost or used twice.  In an accepted call the
    positional arguments bound to slots, followed by the positional overflow,
    are exactly [0, .., npos - 1] in order, and the keywords bound to slots
    together with the keyword overflow are a permutation of all keywords. *)
Theorem match_call_slots_uses_each_argument_once
    param_names required positional_only keyword_only npos kw_names variadics cs :
  length required = nparams param_names →
  match_call_slots param_names required positional_only keyword_only npos kw_names variadics = Ok cs →
  omap as_positional cs.(slots) ++ cs.(positional_overflow) = seq 0 npos ∧
  omap as_keyword cs.(slots) ++ cs.(keyword_overflow) ≡ₚ seq 0 (length kw_names).
Proof.
  intros Hreq Hrun. pose proof (post_ok _ _ _ _ (match_call_slots_post _ _ _ _ _ _ _ Hreq) Hrun) as V.
  split; [|by eapply valid_keywords_once].
  rewrite (omap_positional _ 0 (n_regular_pos param_names keyword_only npos))
    by (intros; by eapply valid_positional).
  rewrite (vb_length _ _ _ _ _ _ _ _ V), (vb_positional_overflow _ _ _ _ _ _ _ _ V).
  pose proof (n_regular_pos_le param_names keyword_only npos).
  replace (Nat.min _ _) with (Nat.min npos (positional_limit param_names keyword_only))
    by (unfold n_regular_pos in *; lia).
  destruct (decide (npos ≤ positional_limit param_names keyword_only)).
  - rewrite Nat.min_l by done. replace (npos - _) with 0 by lia. by rewrite app_nil_r.
  - rewrite Nat.min_r by lia.
    rewrite <- seq_app. f_equal. lia.
Qed.

Lemma match_call_slots_uses_each_argument_once_witness :
  omap as_positional [Positional 0; Positional 1; Keyword 0] ++ [2] = seq 0 3 ∧
  omap as_keyword [Positional 0; Positional 1; Keyword 0] ++ [1] ≡ₚ seq 0 2.
Proof.
  exact (match_call_slots_uses_each_argument_once mixed_names [true; false; true] None (Some 2) 3
    ["c"; "extra"] (mkVariadics true true)
    (mkCallSlots [Positional 0; Positional 1; Keyword 0] [2] [1]) eq_refl eq_refl).
Defined.

(** Keyword order is irrelevant.  Reordering a call's keywords changes
    neither whether it is accepted nor what any parameter receives. *)
Theorem match_call_slots_keyword_order
    param_names required positional_only keyword_only npos kws kws' variadics cs :
  length required = nparams param_names → kws ≡ₚ kws' →
  match_call_slots param_names required positional_only keyword_only npos kws variadics = Ok cs →
  ∃ cs', match_call_slots param_names required positional_only keyword_only npos kws' variadics = Ok cs' ∧
    resolved kws' <$> cs'.(slots) = resolved kws <$> cs.(slots) ∧
    cs'.(positional_overflow) = cs.(positional_overflow).
Proof.
  intros Hreq Hp Hrun. pose proof (post_ok _ _ _ _ (match_call_slots_post _ _ _ _ _ _ _ Hreq) Hrun) as V.
  destruct (post_total _ _ _ (match_call_slots_post _ _ positional_only keyword_only npos kws' variadics Hreq))
    as [(cs' & Hcs' & V')|(e & He & R)].
  - exists cs'. split_and!; [done|symmetry; by eapply valid_perm_resolved|].
    by rewrite (vb_positional_overflow _ _ _ _ _ _ _ _ V), (vb_positional_overflow _ _ _ _ _ _ _ _ V').
  - exfalso. eapply refusal_no_binding; [done| |exact V]. eapply refusal_perm; [|exact R]. done.
Qed.

Lemma match_call_slots_keyword_order_witness :
  ∃ cs', match_call_slots mixed_names [true; true; true] None None 1 ["c"; "b"] (mkVariadics false false) = Ok cs' ∧
    resolved ["c"; "b"] <$> cs'.(slots) = [Some (inl 0); Some (inr "b"%string); Some (inr "c"%string)] ∧
    cs'.(positional_overflow) = [].
Proof.
  exact (match_call_slots_keyword_order mixed_names [true; true; true] None None 1 ["b"; "c"] ["c"; "b"]
    (mkVariadics false false) (mkCallSlots [Positional 0; Keyword 0; Keyword 1] [] []) eq_refl
    (Permutation_swap "c"%string "b"%string []) eq_refl).
Defined.

(** ** Field-wise construction *)

Definition match_fieldwise_slots (field_names : list string) (npos : nat) (kw_names : list string)
    : outcome MatchError (list ArgSlot) :=
  slots <$> match_call_slots field_names (replicate (length field_names) true) None None npos kw_names
    (mkVariadics false false).

(** A field-wise construction supplies every field from the call itself:
    when accepted there is one slot per field, none is a default, and the
    argument count is exactly the field count. *)
Theorem match_fieldwise_slots_supplies_all field_names npos kw_names l :
  match_fieldwise_slots field_names npos kw_names = Ok l →
  length l = length field_names ∧ Default ∉ l ∧ npos + length kw_names = length field_names.
Proof.
  unfold match_fieldwise_slots. intros Hrun.
  set (run := match_call_slots _ _ _ _ _ _ _) in Hrun.
  assert (length (replicate (length field_names) true) = nparams field_names) as Hreq
    by apply length_replicate.
  pose proof (match_call_slots_post field_names _ None None npos kw_names (mkVariadics false false) Hreq) as Hp.
  fold run in Hp. destruct run as [cs| | |]; try done. simpl in *. simplify_eq.
  rename Hp into V. pose proof (vb_length _ _ _ _ _ _ _ _ V) as Hl. unfold nparams in *.
  assert (Default ∉ slots cs) as Hnd.
  { intros (i & Hi)%list_elem_of_lookup. apply (vb_binds _ _ _ _ _ _ _ _ V) in Hi.
    inversion Hi as [| |? ? Hr]. apply lookup_replicate in Hr as [? _]. done. }
  split_and!; [done..|].
  pose proof (valid_keywords_once _ _ _ _ _ _ _ _ V) as Hk%Permutation_length.
  rewrite length_app, length_seq in Hk.
  assert (keyword_overflow cs = []) as Hko.
  { rewrite (vb_keyword_overflow _ _ _ _ _ _ _ _ V). by destruct (vb_unclaimed _ _ _ _ _ _ _ _ V). }
  assert (npos ≤ length field_names) as Hnpos.
  { destruct (vb_arity _ _ _ _ _ _ _ _ V); [|done]. unfold positional_limit, nparams in *. simpl in *. lia. }
  assert (omap as_positional (slots cs) = seq 0 npos) as Hpos%(f_equal length).
  { rewrite (omap_positional _ 0 npos).
    - rewrite Hl. f_equal. lia.
    - intros i a Ha. rewrite (valid_positional _ _ _ _ _ _ _ _ _ _ V Ha).
      unfold n_regular_pos, positional_limit, nparams. simpl. by rewrite Nat.min_id, Nat.min_l. }
  rewrite length_seq in Hpos. rewrite Hko in Hk. simpl in Hk.
  assert (length (omap as_positional (slots cs)) + length (omap as_keyword (slots cs)) = length (slots cs)) as Hsum; [|lia].
  clear - Hnd. induction (slots cs) as [|a l IH]; [done|].
  apply not_elem_of_cons in Hnd as [Ha Hnd]. destruct a; simpl; try done; rewrite <- IH by done;
    unfold omap; lia.
Qed.

Lemma match_fieldwise_slots_supplies_all_witness :
  length [Positional 0; Keyword 1; Keyword 0] = length mixed_names ∧
  Default ∉ [Positional 0; Keyword 1; Keyword 0] ∧ 1 + 2 = 3.
Proof.
  exact (match_fieldwise_slots_supplies_all mixed_names 1 ["c"; "b"] [Positional 0; Keyword 1; Keyword 0] eq_refl).
Defined.

(** ** Parameter markers *)

Inductive ParamKind : Type := Regular | Variadic | KwVariadic.
Inductive ArgConvention : Type := Imm | Mut | Var | Out | Ref | Deinit.
#[export] Instance ParamKind_eq_dec : EqDecision ParamKind.
Proof. solve_decision. Defined.
#[export] Instance ArgConvention_eq_dec : EqDecision ArgConvention.
Proof. solve_decision. Defined.

(** The [DeclaredParam] trait. *)
Class DeclaredParam (P : Type) : Type := {
  param_name : P → string;
  param_kind : P → ParamKind;
  convention : P → option ArgConvention;
  has_default : P → bool;
}.

Section markers.
Context {P : Type} `{!DeclaredParam P}.

Definition is_named_result (p : P) : bool :=
  bool_decide (param_kind p = Regular) && bool_decide (convention p = Some Out).

Definition is_regular_param (p : P) : bool :=
  bool_decide (param_kind p = Regular) && negb (is_named_result p).

(** [params[..index]] panics past the end. *)
Definition regular_marker_index (params : list P) (marker : option nat)
    : outcome MatchError (option nat) :=
  match marker with
  | None => Ok None
  | Some index =>
      _ ← assert_or_panic (index <=? length params);
      Ok (Some (length (filter is_regular_param (take index params))))
  end.

(** [[a, b].into_iter().flatten().min()]. *)
Definition option_min (a b : option nat) : option nat :=
  match a, b with
  | Some a, Some b => Some (Nat.min a b)
  | Some a, None => Some a
  | None, b => b
  end.

Definition effective_keyword_only_index (params : list P) (keyword_only variadic_index : option nat)
    : outcome MatchError (option nat) :=
  a ← regular_marker_index params keyword_only;
  b ← regular_marker_index params variadic_index;
  Ok (option_min a b).
End markers.

(** ** Compile-time bracket lists *)

Inductive ParamMatchError : Type :=
| UnexpectedParameter (skipped_infer_only : bool) (expected got : nat)
| UnexpectedKeyword (k : string)
| UnknownKeywordParam (k : string)
| MisplacedRest.

(** The [CompileTimeParam] trait. *)
Class CompileTimeParam (P : Type) : Type := {
  param_keyword : P → string;
  infer_only : P → bool;
  variadic : P → bool;
}.

Section match_parameter_slots.
Context {P : Type} `{!CompileTimeParam P}.
Context (params : list P).

(** [while params.get(next).is_some_and(infer_only)], over the parameters
    from [next] on. *)
Fixpoint skip_infer_only (rest : list P) (next : nat) (skipped : bool) : nat * bool :=
  match rest with
  | p :: rest => if infer_only p then skip_infer_only rest (S next) true else (next, skipped)
  | [] => (next, skipped)
  end.

Definition expected_params : nat := length (filter (λ p, negb (infer_only p)) params).

(** The positional pass: the slots it writes and the [filled] flags. *)
Fixpoint bind_positionals (got : nat) (keywords : list (option string))
    (filled : list bool) (next : nat) (skipped : bool)
    : outcome ParamMatchError (list (option nat) * list bool) :=
  match keywords with
  | [] => Ok ([], filled)
  | Some _ :: keywords =>
      '(slots, filled) ← bind_positionals got keywords filled next skipped;
      Ok (None :: slots, filled)
  | None :: keywords =>
      let '(next, skipped) := skip_infer_only (drop next params) next skipped in
      match params !! next with
      | None => Err (UnexpectedParameter skipped expected_params got)
      | Some param =>
          '(slots, filled) ← bind_positionals got keywords (<[next := true]> filled)
            (if variadic param then next else S next) skipped;
          Ok (Some next :: slots, filled)
      end
  end.

Definition keyword_param (kw : string) : option nat :=
  position (λ p, bool_decide (param_keyword p = kw)) params.

(** The keyword pass. *)
Fixpoint bind_named (slots : list (option nat)) (keywords : list (option string)) (filled : list bool)
    : outcome ParamMatchError (list (option nat)) :=
  match slots, keywords with
  | slot :: slots, None :: keywords => rest ← bind_named slots keywords filled; Ok (slot :: rest)
  | _ :: slots, Some kw :: keywords =>
      index ← ok_or (UnknownKeywordParam kw) (keyword_param kw);
      is_filled ← unwrap (filled !! index);
      if (is_filled : bool) then Err (UnexpectedKeyword kw)
      else rest ← bind_named slots keywords (<[index := true]> filled); Ok (Some index :: rest)
  | _, _ => Ok []
  end.

Definition match_parameter_slots (keywords : list (option string))
    : outcome ParamMatchError (list nat) :=
  '(slots, filled) ← bind_positionals (length keywords) keywords (replicate (length params) false) 0 false;
  slots ← bind_named slots keywords filled;
  Ok (flatten slots).

(** *** Declarative binding *)

(** The parameters positional arguments may take, from index [n] on, with
    whether each is a pack. *)
Fixpoint open_params (n : nat) (ps : list P) : list (nat * bool) :=
  match ps with
  | [] => []
  | p :: ps => if infer_only p then open_params (S n) ps else (n, variadic p) :: open_params (S n) ps
  end.

(** The parameter the [j]-th positional argument takes. *)
Fixpoint positional_target (opens : list (nat * bool)) (j : nat) : option nat :=
  match opens with
  | [] => None
  | (i, is_pack) :: opens =>
      if is_pack : bool then Some i
      else match j with 0 => Some i | S j => positional_target opens j end
  end.

Definition rank (keywords : list (option string)) (j : nat) : nat :=
  length (filter (λ k : option string, k = None) (take j keywords)).

(** The parameter the [j]-th argument names or takes. *)
Definition argument_target (keywords : list (option string)) (j : nat) : option nat :=
  match keywords !! j with
  | Some (Some kw) => keyword_param kw
  | Some None => positional_target (open_params 0 params) (rank keywords j)
  | None => None
  end.

(** Two arguments share a parameter only as positional arguments (of a
    pack). *)
Definition no_conflict (keywords : list (option string)) : Prop :=
  ∀ j j' i, j ≠ j' → argument_target keywords j = Some i → argument_target keywords j' = Some i →
    keywords !! j = Some None ∧ keywords !! j' = Some None.

Definition bracket_valid (keywords : list (option string)) (slots : list nat) : Prop :=
  Some <$> slots = argument_target keywords <$> seq 0 (length keywords) ∧ no_conflict keywords.

Definition bracket_refusal (keywords : list (option string)) (e : ParamMatchError) : Prop :=
  match e with
  | UnexpectedParameter skipped expected got =>
      (∃ j, keywords !! j = Some None ∧ argument_target keywords j = None) ∧
      skipped = existsb infer_only params ∧ expected = expected_params ∧ got = length keywords
  | UnexpectedKeyword kw =>
      ∃ j j' i, j ≠ j' ∧ keywords !! j = Some (Some kw) ∧
        argument_target keywords j = Some i ∧ argument_target keywords j' = Some i
  | UnknownKeywordParam kw =>
      ∃ j, keywords !! j = Some (Some kw) ∧ argument_target keywords j = None
  | MisplacedRest => False
  end.
End match_parameter_slots.

Section match_parameter_slots_proofs.
Context {P : Type} `{!CompileTimeParam P} (params : list P).

Notation target := (positional_target (open_params 0 params)).
Notation kparam := (keyword_param params).

Definition positional_count (ks : list (option string)) : nat :=
  length (filter (λ k : option string, k = None) ks).

(** The slots the positional pass writes, from positional rank [r] on. *)
Fixpoint pos_slots (r : nat) (ks : list (option string)) : list (option nat) :=
  match ks with
  | [] => []
  | Some _ :: ks => None :: pos_slots r ks
  | None :: ks => target r :: pos_slots (S r) ks
  end.

(** The cursor [next], the flag [skipped] and the [filled] vector after [r]
    positional arguments. *)
Record cursor_inv (r next : nat) (filled : list bool) (skipped : bool) : Prop := {
  ci_next : next ≤ length params;
  ci_targets : ∀ k, target (r + k) = positional_target (open_params next (drop next params)) k;
  ci_length : length filled = length params;
  ci_filled : ∀ i, filled !! i = Some true ↔ i < length params ∧ ∃ r', r' < r ∧ target r' = Some i;
  ci_skipped : skipped = existsb infer_only (take next params);
}.

Lemma skip_infer_only_spec next skipped next' skipped' :
  next ≤ length params →
  skipped = existsb infer_only (take next params) →
  skip_infer_only (drop next params) next skipped = (next', skipped') →
  next' ≤ length params ∧
  open_params next' (drop next' params) = open_params next (drop next params) ∧
  skipped' = existsb infer_only (take next' params) ∧
  (∀ p, params !! next' = Some p → infer_only p = false).
Proof.
  remember (drop next params) as rest eqn:Hrest. revert next skipped Hrest.
  induction rest as [|p rest IH]; intros next skipped Hrest Hle Hsk; simpl.
  - intros [= <- <-]. split_and!; try done; [by rewrite <- Hrest|].
    intros p Hp%lookup_lt_Some. pose proof (length_drop params next) as Hl.
    rewrite <- Hrest in Hl. simpl in Hl. lia.
  - assert (params !! next = Some p) as Hp.
    { pose proof (lookup_drop params next 0) as Hd. by rewrite <- Hrest, Nat.add_0_r in Hd. }
    assert (rest = drop (S next) params) as Hrest'.
    { rewrite (drop_S _ _ _ Hp) in Hrest. by simplify_eq. }
    destruct (infer_only p) eqn:Hi.
    + intros Hs. eapply IH in Hs; [exact Hs|done|by eapply lookup_lt_Some|].
      rewrite (take_S_r _ _ _ Hp), existsb_app. simpl. by rewrite Hi, !orb_true_r.
    + intros [= <- <-]. split_and!; [done|rewrite <- Hrest; simpl; by rewrite Hi|done|].
      intros p' Hp'. by simplify_eq.
Qed.

Lemma positional_count_cons k ks :
  positional_count (k :: ks) = (if decide (k = None) then 1 else 0) + positional_count ks.
Proof. unfold positional_count. rewrite filter_cons. by case_decide. Qed.

Lemma bind_positionals_post got ks r next filled skipped :
  cursor_inv r next filled skipped →
  post (bind_positionals params got ks filled next skipped)
    (λ res, res.1 = pos_slots r ks ∧ length res.2 = length params ∧
      (∀ r', r' < positional_count ks → is_Some (target (r + r'))) ∧
      ∀ i, res.2 !! i = Some true ↔
        i < length params ∧ ∃ r', r' < r + positional_count ks ∧ target r' = Some i)
    (λ e, e = UnexpectedParameter (existsb infer_only params) (expected_params params) got ∧
      ∃ r', r' < positional_count ks ∧ target (r + r') = None).
Proof.
  revert r next filled skipped.
  induction ks as [|[kw|] ks IH]; intros r next filled skipped Hinv; cbn [bind_positionals].
  - simpl. split_and!; [done|apply Hinv|by inversion 1|].
    intros i. rewrite Nat.add_0_r. apply Hinv.
  - apply post_bind. eapply post_mono; [by apply IH|intros [sl fl] (Hsl & Hl & Hs & Hf); simpl in *; subst sl|].
    + rewrite positional_count_cons. simpl. by split_and!.
    + intros e. by rewrite positional_count_cons.
  - destruct (skip_infer_only (drop next params) next skipped) as [next' skipped'] eqn:Hskip.
    destruct (skip_infer_only_spec _ _ _ _ (ci_next _ _ _ _ Hinv) (ci_skipped _ _ _ _ Hinv) Hskip)
      as (Hle & Hopen & Hsk & Hnot).
    destruct (params !! next') as [p|] eqn:Hp.
    + assert (open_params next' (drop next' params) =
        (next', variadic p) :: open_params (S next') (drop (S next') params)) as Hcons.
      { rewrite (drop_S _ _ _ Hp). simpl. by rewrite (Hnot p eq_refl). }
      assert (target r = Some next') as Htr.
      { rewrite <- (Nat.add_0_r r), (ci_targets _ _ _ _ Hinv), <- Hopen, Hcons. simpl. by destruct (variadic p). }
      assert (next' < length params) as Hlt by by eapply lookup_lt_Some.
      assert (cursor_inv (S r) (if variadic p then next' else S next') (<[next' := true]> filled) skipped') as Hinv'.
      { split.
        - destruct (variadic p); lia.
        - intros k. rewrite Nat.add_succ_comm, (ci_targets _ _ _ _ Hinv), <- Hopen, Hcons. simpl.
          destruct (variadic p) eqn:Hv; [|done]. by rewrite Hcons.
        - rewrite length_insert. apply Hinv.
        - intros i. rewrite list_lookup_insert. case_decide as Hd.
          + destruct Hd as [-> Hd]. split; [|done]. intros _. split; [done|].
            exists r. split; [lia|done].
          + rewrite (ci_filled _ _ _ _ Hinv). split.
            * intros (? & r' & ? & ?). split; [done|]. exists r'. split; [lia|done].
            * intros (? & r' & ? & Hr'). split; [done|]. exists r'. split; [|done].
              destruct (decide (r' = r)) as [->|]; [|lia].
              exfalso. apply Hd. rewrite (ci_length _ _ _ _ Hinv). by simplify_eq.
        - destruct (variadic p); [done|]. rewrite (take_S_r _ _ _ Hp), existsb_app. simpl.
          by rewrite (Hnot p eq_refl), !orb_false_r. }
      apply post_bind. eapply post_mono; [by apply IH|intros [sl fl] (Hsl & Hl & Hs & Hf); simpl in *; subst sl|].
      * rewrite positional_count_cons. simpl in *. rewrite Htr. split_and!; [done..| |].
        -- intros [|r'] Hr'; [rewrite Nat.add_0_r; eauto|].
           rewrite Nat.add_succ_r. apply (Hs r'). lia.
        -- intros i. by rewrite Hf, Nat.add_succ_r.
      * intros e (-> & r' & ? & Hr'). rewrite positional_count_cons. split; [done|].
        exists (S r'). rewrite <- Nat.add_succ_comm. split; [simpl; lia|done].
    + apply lookup_ge_None in Hp. assert (next' = length params) as -> by lia.
      simpl. rewrite Hsk, take_ge by done. split; [done|]. exists 0.
      rewrite positional_count_cons. split; [simpl; lia|].
      rewrite (ci_targets _ _ _ _ Hinv), <- Hopen, drop_all. done.
Qed.

(** The slot of an argument once both passes are done. *)
Definition final_slot (s : option nat) (k : option string) : option nat :=
  match k with None => s | Some kw => kparam kw end.

Lemma bind_named_post sl ks filled (T : nat → Prop) :
  length sl = length ks → length filled = length params →
  (∀ i, filled !! i = Some true ↔ i < length params ∧ T i) →
  post (bind_named params sl ks filled)
    (λ l, l = zip_with final_slot sl ks ∧
      ∀ j kw, ks !! j = Some (Some kw) → ∃ i, kparam kw = Some i ∧ ¬ T i ∧
        ∀ j' kw', j' < j → ks !! j' = Some (Some kw') → kparam kw' ≠ Some i)
    (λ e,
      (∃ j kw, e = UnknownKeywordParam kw ∧ ks !! j = Some (Some kw) ∧ kparam kw = None) ∨
      (∃ j kw i, e = UnexpectedKeyword kw ∧ ks !! j = Some (Some kw) ∧ kparam kw = Some i ∧
        (T i ∨ ∃ j' kw', j' < j ∧ ks !! j' = Some (Some kw') ∧ kparam kw' = Some i))).
Proof.
  revert ks filled T. induction sl as [|s sl IH]; intros [|k ks] filled T Hl Hf HT; try done; simpl in Hl.
  destruct k as [kw|]; cbn [bind_named].
  - destruct (kparam kw) as [i|] eqn:Hi; simpl; [|left; by exists 0, kw].
    assert (i < length params) as Hlt by by eapply position_lt.
    destruct (lookup_lt_is_Some_2 filled i) as [b Hb]; [lia|]. rewrite Hb. simpl.
    destruct b.
    { right. exists 0, kw, i. split_and!; [done..|]. left. by apply HT. }
    assert (¬ T i) as HnT.
    { intros Ht. assert (filled !! i = Some true) by by apply HT. congruence. }
    apply post_bind. eapply post_mono;
      [apply (IH ks (<[i := true]> filled) (λ i', T i' ∨ i' = i)); [lia|by rewrite length_insert|] | |].
    + intros i'. rewrite list_lookup_insert. case_decide as Hd.
      * destruct Hd as [<- _]. tauto.
      * rewrite HT. split; [tauto|]. intros [? [?| ->]]; [tauto|]. exfalso. apply Hd. split; [done|lia].
    + intros l [-> Hall]. simpl. rewrite Hi. split; [done|].
      intros [|j] kw' Hk; simpl in Hk.
      * simplify_eq. exists i. split_and!; [done..|lia].
      * apply Hall in Hk as (i' & Hi' & Hn & Hlt'). exists i'. split_and!; [done|tauto|].
        intros [|j'] kw'' Hj Hk''; simpl in Hk''; [simplify_eq; intros ?; simplify_eq; tauto|].
        eapply Hlt'; [|done]. lia.
    + intros e [(j & kw' & -> & Hk & Hn)|(j & kw' & i' & -> & Hk & Hi' & Hor)].
      * left. by exists (S j), kw'.
      * right. exists (S j), kw', i'. split_and!; [done..|].
        destruct Hor as [[?| ->]|(j' & kw'' & ? & ? & ?)]; [by left|right..].
        -- exists 0, kw. split_and!; [lia|done|done].
        -- exists (S j'), kw''. split_and!; [lia|done|done].
  - apply post_bind. eapply post_mono; [apply (IH ks filled T); [lia|done|done]| |].
    + intros l [-> Hall]. simpl. split; [done|]. intros [|j] kw Hk; [done|]. simpl in Hk.
      apply Hall in Hk as (i' & Hi' & Hn & Hlt'). exists i'. split_and!; [done..|].
      intros [|j'] kw'' Hj Hk''; [done|]. eapply Hlt'; [|done]. lia.
    + intros e [(j & kw' & -> & Hk & Hn)|(j & kw' & i' & -> & Hk & Hi' & Hor)].
      * left. by exists (S j), kw'.
      * right. exists (S j), kw', i'. split_and!; [done..|].
        destruct Hor as [?|(j' & kw'' & ? & ? & ?)]; [by left|right].
        exists (S j'), kw''. split_and!; [lia|done|done].
Qed.

Lemma rank_cons k ks j :
  rank (k :: ks) (S j) = (if decide (k = None) then 1 else 0) + rank ks j.
Proof. unfold rank. cbn [take]. apply positional_count_cons. Qed.

Lemma pos_slots_lookup r ks j : pos_slots r ks !! j =
  match ks !! j with
  | Some None => Some (target (r + rank ks j))
  | Some (Some _) => Some None
  | None => None
  end.
Proof.
  revert r j. induction ks as [|[kw|] ks IH]; intros r [|j]; simpl; try done.
  - by rewrite Nat.add_0_r.
  - rewrite IH, rank_cons. destruct (ks !! j) as [[]|]; simpl; try done.
    by rewrite Nat.add_succ_r.
Qed.

Lemma length_pos_slots r ks : length (pos_slots r ks) = length ks.
Proof. revert r. induction ks as [|[kw|] ks IH]; intros r; simpl; auto. Qed.

Lemma rank_lt ks j : ks !! j = Some None → rank ks j < positional_count ks.
Proof.
  revert j. induction ks as [|k ks IH]; intros [|j]; try done.
  - intros [= ->]. rewrite positional_count_cons. unfold rank. simpl. lia.
  - intros Hj. rewrite rank_cons, positional_count_cons. specialize (IH j Hj). lia.
Qed.

Lemma rank_surjective ks r : r < positional_count ks → ∃ j, ks !! j = Some None ∧ rank ks j = r.
Proof.
  revert r. induction ks as [|k ks IH]; intros r Hr; [unfold positional_count in Hr; simpl in Hr; lia|].
  rewrite positional_count_cons in Hr. case_decide as Hk.
  - subst k. destruct r as [|r]; [by exists 0|].
    destruct (IH r) as (j & Hj & <-); [lia|]. exists (S j). split; [done|]. by rewrite rank_cons.
  - destruct (IH r) as (j & Hj & <-); [lia|]. exists (S j). split; [done|].
    rewrite rank_cons. by rewrite decide_False.
Qed.

Lemma final_slots_targets ks :
  zip_with final_slot (pos_slots 0 ks) ks = argument_target params ks <$> seq 0 (length ks).
Proof.
  apply list_eq. intros j. rewrite lookup_zip_with, pos_slots_lookup, list_lookup_fmap. simpl.
  unfold argument_target. destruct (ks !! j) as [k|] eqn:Hk.
  - rewrite lookup_seq_lt by (by eapply lookup_lt_Some). simpl. rewrite Hk. by destruct k.
  - rewrite lookup_seq_ge; [done|by apply lookup_ge_None].
Qed.

Lemma positional_taken ks i :
  (∃ r', r' < positional_count ks ∧ target r' = Some i) →
  ∃ j, ks !! j = Some None ∧ argument_target params ks j = Some i.
Proof.
  intros (r' & (j & Hj & <-)%rank_surjective & Ht). exists j. split; [done|].
  unfold argument_target. by rewrite Hj.
Qed.

Lemma argument_target_named ks j kw :
  ks !! j = Some (Some kw) → argument_target params ks j = kparam kw.
Proof. unfold argument_target. by intros ->. Qed.

Lemma argument_target_positional ks j :
  ks !! j = Some None → argument_target params ks j = target (rank ks j).
Proof. unfold argument_target. by intros ->. Qed.

Lemma cursor_inv_init : cursor_inv 0 0 (replicate (length params) false) false.
Proof.
  split; simpl; try done; [lia|apply length_replicate|].
  intros i. split; [|intros (? & ? & ? & ?); lia]. by intros [? _]%lookup_replicate.
Qed.

Lemma no_conflict_of_named ks :
  (∀ j kw, ks !! j = Some (Some kw) → ∃ i, kparam kw = Some i ∧
    ¬ (∃ r', r' < positional_count ks ∧ target r' = Some i) ∧
    ∀ j' kw', j' < j → ks !! j' = Some (Some kw') → kparam kw' ≠ Some i) →
  no_conflict params ks.
Proof.
  intros Hall.
  assert (∀ j j' i kw, j ≠ j' → ks !! j = Some (Some kw) → argument_target params ks j = Some i →
    argument_target params ks j' = Some i → (∃ kw', ks !! j' = Some (Some kw') ∧ j < j')) as Hkw.
  { intros j j' i kw Hne Hj Hi Hi'. destruct (Hall _ _ Hj) as (i0 & Hi0 & Hn & Hlt).
    rewrite (argument_target_named _ _ _ Hj) in Hi. simplify_eq.
    destruct (ks !! j') as [[kw'|]|] eqn:Hj'; [| |by unfold argument_target in Hi'; rewrite Hj' in Hi'].
    - exists kw'. split; [done|]. rewrite (argument_target_named _ _ _ Hj') in Hi'.
      destruct (decide (j' < j)); [|lia]. by destruct (Hlt j' kw').
    - exfalso. apply Hn. exists (rank ks j').
      rewrite (argument_target_positional _ _ Hj') in Hi'. eauto using rank_lt. }
  intros j j' i Hne Hi Hi'.
  destruct (ks !! j) as [[kw|]|] eqn:Hj; [| |by unfold argument_target in Hi; rewrite Hj in Hi].
  - destruct (Hkw j j' i kw) as (kw' & Hj' & ?); [done..|].
    destruct (Hkw j' j i kw') as (? & ? & ?); [done..|lia].
  - split; [done|]. destruct (ks !! j') as [[kw'|]|] eqn:Hj'; [|done|by unfold argument_target in Hi'; rewrite Hj' in Hi'].
    destruct (Hkw j' j i kw') as (? & ? & ?); [done..|congruence].
Qed.

Lemma match_parameter_slots_post ks :
  post (match_parameter_slots params ks) (bracket_valid params ks) (bracket_refusal params ks).
Proof.
  unfold match_parameter_slots. apply post_bind.
  eapply post_mono; [apply (bind_positionals_post (length ks) ks 0), cursor_inv_init| |].
  - intros [sl fl] (Hsl & Hl & Hs & Hf); simpl in *; subst sl. apply post_bind.
    eapply post_mono; [apply bind_named_post; [apply length_pos_slots|done|exact Hf]| |].
    + intros l [-> Hall]. simpl. split; [|by apply no_conflict_of_named].
      rewrite <- final_slots_targets. apply fmap_Some_flatten, Forall_lookup.
      intros j s. rewrite lookup_zip_with, pos_slots_lookup. simpl.
      destruct (ks !! j) as [[kw|]|] eqn:Hj; simpl; intros [= <-].
      * destruct (Hall _ _ Hj) as (i & -> & _). eauto.
      * apply Hs, rank_lt, Hj.
    + intros e [(j & kw & -> & Hj & Hn)|(j & kw & i & -> & Hj & Hi & Hor)]; simpl.
      * exists j. by rewrite (argument_target_named _ _ _ Hj).
      * destruct Hor as [Ht|(j' & kw' & ? & Hj' & Hi')].
        -- apply positional_taken in Ht as (j' & Hj' & Ht). exists j, j', i.
           rewrite (argument_target_named _ _ _ Hj). split_and!; [congruence|done..].
        -- exists j, j', i. rewrite (argument_target_named _ _ _ Hj), (argument_target_named _ _ _ Hj').
           split_and!; [lia|done..].
  - intros e (-> & r' & Hr' & Ht). simpl. split_and!; [|done..].
    destruct (rank_surjective _ _ Hr') as (j & Hj & <-). exists j. split; [done|].
    by rewrite (argument_target_positional _ _ Hj).
Qed.

Lemma bracket_refusal_invalid ks e slots :
  bracket_refusal params ks e → ¬ bracket_valid params ks slots.
Proof.
  intros He [Hs Hc].
  assert (∀ j, is_Some (ks !! j) → is_Some (argument_target params ks j)) as Hall.
  { intros j [k Hk]. pose proof (f_equal (.!! j) Hs) as Hj. rewrite !list_lookup_fmap in Hj.
    rewrite lookup_seq_lt in Hj by (by eapply lookup_lt_Some). simpl in Hj.
    destruct (slots !! j); simplify_eq/=. rewrite <- Hj. eauto. }
  destruct e; simpl in He; try done.
  - destruct He as ((j & Hj & Hn) & _). destruct (Hall j) as [? ?]; [eauto|congruence].
  - destruct He as (j & j' & i & Hne & Hj & Hi & Hi'). destruct (Hc j j' i) as [? _]; [done..|congruence].
  - destruct He as (j & Hj & Hn). destruct (Hall j) as [? ?]; [eauto|congruence].
Qed.
End match_parameter_slots_proofs.

(** ** Unbound markers *)

Inductive Unbound : Type := Hole | Rest.
#[export] Instance Unbound_eq_dec : EqDecision Unbound.
Proof. solve_decision. Defined.

Record UnboundSlots : Type := mkUnboundSlots {
  listed : nat;
  kept : list nat;
  open : list (option Unbound);
}.

Definition any_open (u : UnboundSlots) : bool := existsb (λ o, bool_decide (is_Some o)) u.(open).

Section bracket_unbound_slots.
(** The syntax trees a bracket argument carries, seen only through what the
    code reads of them: the name of an identifier expression, and the name
    and argument count of a named type. *)
Context {Expr Ty : Type}.
Context (identifier_of : Expr → option string) (named_type : Ty → option (string * nat)).
Context {P : Type} `{!CompileTimeParam P}.

Inductive ParamArg : Type :=
| ArgType (t : Ty)
| ArgValue (e : Expr)
| ArgNamed (name : string) (value : ParamArg).

Definition unbound_marker (argument : ParamArg) : option Unbound :=
  name ← match argument with
    | ArgValue value => identifier_of value
    | ArgType t =>
        match named_type t with Some (name, 0) => Some name | _ => None end
    | ArgNamed _ _ => None
    end;
  if bool_decide (name = "_"%string) then Some Hole
  else if bool_decide (name = "..."%string) then Some Rest
  else None.

Definition marker (argument : ParamArg) : option Unbound :=
  match argument with
  | ArgNamed _ value => unbound_marker value
  | positional => unbound_marker positional
  end.

Definition bracket_keywords (arguments : list ParamArg) : list (option string) :=
  (λ argument, match argument with ArgNamed name _ => Some name | _ => None end) <$> arguments.

(** Whether the list ends in a positional [...]. *)
Definition has_rest (arguments : list ParamArg) : bool :=
  match last arguments with
  | Some (ArgNamed _ _) | None => false
  | Some argument => bool_decide (unbound_marker argument = Some Rest)
  end.

(** [&arguments[..arguments.len() - usize::from(rest)]]. *)
Definition bound_arguments (arguments : list ParamArg) : list ParamArg :=
  take (length arguments - (if has_rest arguments then 1 else 0)) arguments.

(** The marking loop over each bound argument and its slot. *)
Fixpoint mark_slots (position : nat) (bound : list ParamArg) (slots : list nat)
    (open : list (option Unbound)) (filled : list bool) (kept : list nat)
    : outcome ParamMatchError (list (option Unbound) * list bool * list nat) :=
  match bound, slots with
  | argument :: bound, slot :: slots =>
      filled ← set_at slot true filled;
      if bool_decide (marker argument = Some Hole) then
        open ← set_at slot (Some Hole) open;
        mark_slots (S position) bound slots open filled kept
      else mark_slots (S position) bound slots open filled (kept ++ [position])
  | _, _ => Ok (open, filled, kept)
  end.

(** The closing loop a trailing [...] runs. *)
Definition mark_rest (params : list P) (filled : list bool) (open : list (option Unbound))
    : list (option Unbound) :=
  imap (λ index o,
    match params !! index, filled !! index with
    | Some param, Some false => if infer_only param then o else Some Rest
    | _, _ => o
    end) open.

Definition bracket_unbound_slots (params : list P) (arguments : list ParamArg)
    : outcome ParamMatchError UnboundSlots :=
  let rest := has_rest arguments in
  let bound := bound_arguments arguments in
  if existsb (λ argument, bool_decide (marker argument = Some Rest)) bound then Err MisplacedRest
  else
    slots ← match_parameter_slots params (bracket_keywords bound);
    '(open, filled, kept) ← mark_slots 0 bound slots
      (replicate (length params) None) (replicate (length params) false) [];
    Ok (mkUnboundSlots (length bound) kept (if rest then mark_rest params filled open else open)).

(** *** What the markers mean *)

Definition is_hole (arguments : list ParamArg) (p : nat) : Prop :=
  (arguments !! p ≫= marker) = Some Hole.
#[local] Instance is_hole_dec arguments p : Decision (is_hole arguments p).
Proof. unfold is_hole. apply _. Defined.

(** The marker a parameter is left with. *)
Inductive left_open (params : list P) (arguments : list ParamArg) (i : nat) : option Unbound → Prop :=
| open_hole p :
    is_hole (bound_arguments arguments) p →
    argument_target params (bracket_keywords (bound_arguments arguments)) p = Some i →
    left_open params arguments i (Some Hole)
| open_rest param :
    has_rest arguments = true → params !! i = Some param → infer_only param = false →
    (∀ p, argument_target params (bracket_keywords (bound_arguments arguments)) p ≠ Some i) →
    left_open params arguments i (Some Rest)
| open_bound :
    (∀ p, argument_target params (bracket_keywords (bound_arguments arguments)) p = Some i →
      ¬ is_hole (bound_arguments arguments) p) →
    (has_rest arguments = false ∨ (∃ p, argument_target params (bracket_keywords (bound_arguments arguments)) p = Some i) ∨
      (∃ param, params !! i = Some param ∧ infer_only param = true)) →
    left_open params arguments i None.

Definition unbound_valid (params : list P) (arguments : list ParamArg) (u : UnboundSlots) : Prop :=
  u.(listed) = length (bound_arguments arguments) ∧
  u.(kept) = filter (λ p, ¬ is_hole (bound_arguments arguments) p) (seq 0 u.(listed)) ∧
  length u.(open) = length params ∧
  (∀ i o, u.(open) !! i = Some o → left_open params arguments i o) ∧
  no_conflict params (bracket_keywords (bound_arguments arguments)).

Definition unbound_refusal (params : list P) (arguments : list ParamArg) (e : ParamMatchError) : Prop :=
  match e with
  | MisplacedRest => ∃ p a, bound_arguments arguments !! p = Some a ∧ marker a = Some Rest
  | e => bracket_refusal params (bracket_keywords (bound_arguments arguments)) e
  end.
End bracket_unbound_slots.

Section bracket_unbound_slots_proofs.
Context {Expr Ty : Type}.
Context (identifier_of : Expr → option string) (named_type : Ty → option (string * nat)).
Context {P : Type} `{!CompileTimeParam P}.
Context (params : list P).

Notation ParamArg := (@ParamArg Expr Ty).
Notation is_hole := (is_hole identifier_of named_type).
Notation marker := (marker identifier_of named_type).
Notation mark_slots := (mark_slots identifier_of named_type).
Existing Instance is_hole_dec.

(** The positions, from [pos] on, of the arguments that bind a value. *)
Fixpoint kept_from (pos : nat) (bound : list ParamArg) : list nat :=
  match bound with
  | [] => []
  | a :: bound => (if decide (marker a = Some Hole) then [] else [pos]) ++ kept_from (S pos) bound
  end.

Lemma kept_from_filter bound pos :
  kept_from pos bound = Nat.add pos <$> filter (λ p, ¬ is_hole bound p) (seq 0 (length bound)).
Proof.
  revert pos. induction bound as [|a bound IH]; intros pos; [done|]. cbn [kept_from length seq].
  rewrite <- (fmap_S_seq 0), filter_cons, filter_fmap, IH.
  change (is_hole (a :: bound) 0) with (marker a = Some Hole).
  set (l := filter _ (seq 0 (length bound))).
  assert (Nat.add (S pos) <$> l = Nat.add pos <$> (S <$> l)) as ->.
  { rewrite <- list_fmap_compose. apply list_fmap_ext. intros i x _. simpl. lia. }
  destruct (decide (marker a = Some Hole)).
  - by rewrite decide_False by tauto.
  - rewrite decide_True by done. simpl. by rewrite Nat.add_0_r.
Qed.

Lemma mark_slots_ok (bound : list ParamArg) slots pos op filled kept :
  length bound = length slots → Forall (λ i, i < length params) slots →
  length op = length params → length filled = length params →
  ∃ op' filled', mark_slots pos bound slots op filled kept = Ok (op', filled', kept ++ kept_from pos bound) ∧
    length op' = length params ∧ length filled' = length params ∧
    (∀ i, filled' !! i = Some true ↔ filled !! i = Some true ∨ i ∈ slots) ∧
    (∀ i p, slots !! p = Some i → is_hole bound p → op' !! i = Some (Some Hole)) ∧
    (∀ i, (∀ p, slots !! p = Some i → ¬ is_hole bound p) → op' !! i = op !! i).
Proof.
  revert slots pos op filled kept.
  induction bound as [|a bound IH]; intros [|sl slots] pos op filled kept Hl Hs Hop Hfl; try done.
  { exists op, filled. simpl. rewrite app_nil_r. split_and!; try done.
    intros i. rewrite elem_of_nil. tauto. }
  apply Forall_cons in Hs as [Hsl Hs]. simpl in Hl. cbn [CallBinding.mark_slots kept_from].
  rewrite !set_at_lt by lia. cbn [mbind outcome_bind].
  set (op1 := if decide (marker a = Some Hole) then <[sl := Some Hole]> op else op).
  set (kept1 := kept ++ if decide (marker a = Some Hole) then [] else [pos]).
  destruct (IH slots (S pos) op1 (<[sl := true]> filled) kept1)
    as (op' & fl' & Hrun & Hlo & Hlf & Hf & Hh & Hk);
    [lia|done|unfold op1; case_decide; by rewrite ?length_insert|by rewrite length_insert|].
  exists op', fl'. split; [|split_and!; try done].
  - rewrite app_assoc. unfold op1, kept1 in Hrun.
    destruct (decide (marker a = Some Hole)) as [Ha|Ha].
    + rewrite bool_decide_eq_true_2 by done.
      rewrite app_nil_r in *. exact Hrun.
    + rewrite bool_decide_eq_false_2 by done. exact Hrun.
  - intros i. rewrite Hf, elem_of_cons, list_lookup_insert. case_decide as Hd.
    + destruct Hd as [<- _]. tauto.
    + assert (i ≠ sl) by (intros ->; apply Hd; split; [done|lia]). tauto.
  - intros i [|p] Hp Hhole; simpl in Hp; [|by apply (Hh i p)]. simplify_eq.
    destruct (existsb (λ q, bool_decide (slots !! q = Some i ∧ is_hole bound q)) (seq 0 (length slots))) eqn:He.
    + apply existsb_exists in He as (q & _ & [??]%bool_decide_eq_true). by eapply Hh.
    + rewrite Hk.
      * unfold op1. change (is_hole (a :: bound) 0) with (marker a = Some Hole) in Hhole.
        rewrite decide_True by done. rewrite list_lookup_insert_eq by lia. done.
      * intros q Hq Hhq. assert (existsb (λ q, bool_decide (slots !! q = Some i ∧ is_hole bound q))
          (seq 0 (length slots)) = true) as Ht; [|congruence].
        apply existsb_exists. exists q. rewrite bool_decide_eq_true_2 by done. split; [|done].
        apply in_seq. apply lookup_lt_Some in Hq. lia.
  - intros i Hi. rewrite Hk by (intros p Hp; apply (Hi (S p)); done).
    unfold op1. case_decide as Ha; [|done]. apply list_lookup_insert_ne. intros ->.
    by apply (Hi 0).
Qed.

Lemma bracket_valid_lookup ks slots p i :
  bracket_valid params ks slots → slots !! p = Some i ↔ argument_target params ks p = Some i.
Proof.
  intros [Hs _]. pose proof (f_equal (.!! p) Hs) as Hp. rewrite !list_lookup_fmap in Hp.
  destruct (decide (p < length ks)).
  - rewrite lookup_seq_lt in Hp by done. simpl in Hp. destruct (slots !! p); simplify_eq/=.
    rewrite <- Hp. done.
  - rewrite lookup_seq_ge in Hp by lia. destruct (slots !! p); simplify_eq/=.
    unfold argument_target. rewrite lookup_ge_None_2 by lia. done.
Qed.

Lemma open_params_lt n ps i b : (i, b) ∈ open_params n ps → i < n + length ps.
Proof.
  revert n. induction ps as [|p ps IH]; intros n; simpl; [by intros ?%not_elem_of_nil|].
  destruct (infer_only p).
  - intros ?%IH. lia.
  - rewrite elem_of_cons. intros [[= -> ->]|?%IH]; lia.
Qed.

Lemma positional_target_in opens j i : positional_target opens j = Some i → ∃ b, (i, b) ∈ opens.
Proof.
  revert j. induction opens as [|[i' []] opens IH]; intros j; simpl; [done| |].
  - intros [= ->]. exists true. by left.
  - destruct j; [intros [= ->]; exists false; by left|]. intros [b Hb]%IH. exists b. by right.
Qed.

Lemma argument_target_lt ks p i : argument_target params ks p = Some i → i < length params.
Proof.
  unfold argument_target. destruct (ks !! p) as [[kw|]|]; [by apply position_lt| |done].
  intros [b Hb%open_params_lt]%positional_target_in. done.
Qed.

Lemma bracket_valid_lt ks slots :
  bracket_valid params ks slots → length slots = length ks ∧ Forall (λ i, i < length params) slots.
Proof.
  intros V. split.
  - pose proof (f_equal length (proj1 V)) as H. by rewrite !length_fmap, length_seq in H.
  - apply Forall_lookup. intros p i Hp%(bracket_valid_lookup ks); [|done].
    by eapply argument_target_lt.
Qed.

Lemma bracket_unbound_slots_post (arguments : list ParamArg) :
  post (bracket_unbound_slots identifier_of named_type params arguments)
    (unbound_valid identifier_of named_type params arguments)
    (unbound_refusal identifier_of named_type params arguments).
Proof.
  unfold bracket_unbound_slots. set (bound := bound_arguments identifier_of named_type arguments).
  destruct (existsb _ bound) eqn:Hrest.
  { apply existsb_exists in Hrest as (a & (p & Hp)%list_elem_of_In%list_elem_of_lookup & Ha%bool_decide_eq_true).
    by exists p, a. }
  set (ks := bracket_keywords bound).
  assert (length ks = length bound) as Hks by apply length_fmap.
  apply post_bind. eapply post_mono; [apply match_parameter_slots_post| |].
  2:{ intros [] He; simpl in *; try done. }
  intros slots V. destruct (bracket_valid_lt _ _ V) as [Hlen Hlt].
  destruct (mark_slots_ok bound slots 0 (replicate (length params) None) (replicate (length params) false) [])
    as (op & fl & -> & Hlo & Hlf & Hf & Hh & Hk); [by rewrite Hlen|done|apply length_replicate..|].
  cbn [mbind outcome_bind post].
  assert (∀ i, fl !! i = Some true ↔ ∃ p, argument_target params ks p = Some i) as Hfl.
  { intros i. rewrite Hf, list_elem_of_lookup. split.
    - intros [[? _]%lookup_replicate|(p & Hp)]; [done|]. exists p. by apply (bracket_valid_lookup _ slots).
    - intros (p & Hp). right. exists p. by apply (bracket_valid_lookup ks). }
  assert (∀ i o, op !! i = Some o →
    (o = Some Hole ∧ ∃ p, is_hole bound p ∧ argument_target params ks p = Some i) ∨
    (o = None ∧ ∀ p, argument_target params ks p = Some i → ¬ is_hole bound p)) as Hopen.
  { intros i o Ho.
    destruct (existsb (λ p, bool_decide (slots !! p = Some i ∧ is_hole bound p)) (seq 0 (length slots))) eqn:He.
    - apply existsb_exists in He as (p & _ & [Hp Hhp]%bool_decide_eq_true). left.
      rewrite (Hh _ _ Hp Hhp) in Ho. simplify_eq. split; [done|]. exists p. split; [done|].
      by apply (bracket_valid_lookup _ slots).
    - right. assert (∀ p, slots !! p = Some i → ¬ is_hole bound p) as Hno.
      { intros p Hp Hhp. assert (existsb (λ p, bool_decide (slots !! p = Some i ∧ is_hole bound p))
          (seq 0 (length slots)) = true) as Ht; [|congruence].
        apply existsb_exists. exists p. rewrite bool_decide_eq_true_2 by done. split; [|done].
        apply in_seq. apply lookup_lt_Some in Hp. lia. }
      rewrite (Hk _ Hno) in Ho. apply lookup_replicate in Ho as [-> _]. split; [done|].
      intros p Hp. apply Hno. by apply (bracket_valid_lookup ks). }
  split_and!; simpl; [done| | | |apply V].
  - rewrite kept_from_filter. by rewrite list_fmap_id.
  - destruct (has_rest _ _ _); [|done]. unfold mark_rest. by rewrite length_imap.
  - intros i o Ho. destruct (has_rest _ _ _) eqn:Hr; [|].
    + unfold mark_rest in Ho. rewrite list_lookup_imap in Ho.
      destruct (op !! i) as [o'|] eqn:Ho'; simplify_eq/=.
      assert (i < length params) as Hi by (rewrite <- Hlo; by eapply lookup_lt_Some).
      destruct (lookup_lt_is_Some_2 params i Hi) as [param Hparam].
      destruct (lookup_lt_is_Some_2 fl i) as [b Hb]; [lia|]. rewrite Hparam, Hb.
      destruct (Hopen _ _ Ho') as [(-> & p & Hp & Ht)|[-> Hno]].
      * assert (b = true) as ->; [|by apply open_hole with p].
        assert (fl !! i = Some true) by (apply Hfl; eauto). congruence.
      * destruct b; [|destruct (infer_only param) eqn:Hio].
        -- apply open_bound; [done|]. right; left. by apply Hfl.
        -- apply open_bound; [done|]. right; right. eauto.
        -- apply open_rest with param; [done..|]. intros p Hp.
           assert (fl !! i = Some true) by (apply Hfl; eauto). congruence.
    + destruct (Hopen _ _ Ho) as [(-> & p & Hp & Ht)|[-> Hno]]; [by apply open_hole with p|].
      apply open_bound; [done|by left].
Qed.
End bracket_unbound_slots_proofs.

(** C33: bracket binding is total and exact.  [match_parameter_slots] either
    returns the parameter of every bracket argument (the [j]-th positional one
    takes the [j]-th parameter that is not infer-only, a pack absorbing the
    rest; a keyword takes the parameter it names; only positional arguments of
    a pack share a parameter), or reports an error whose reason holds, and then
    no such assignment exists. *)
Theorem match_parameter_slots_correct {P} `{!CompileTimeParam P} (params : list P) keywords :
  (∃ slots, match_parameter_slots params keywords = Ok slots ∧
     ∀ slots', bracket_valid params keywords slots' ↔ slots' = slots) ∨
  (∃ e, match_parameter_slots params keywords = Err e ∧ bracket_refusal params keywords e ∧
     ∀ slots, ¬ bracket_valid params keywords slots).
Proof.
  destruct (post_total _ _ _ (match_parameter_slots_post params keywords)) as [(l & Hl & V)|(e & He & R)].
  - left. exists l. split; [done|]. intros l'. split; [|by intros ->].
    intros [Hs' _]. destruct V as [Hs _]. rewrite <- Hs in Hs'. by apply list_fmap_eq_inj in Hs'; [|intros ?? [=]].
  - right. exists e. split_and!; [done..|]. intros l. by eapply bracket_refusal_invalid.
Qed.

(** Unbound markers.  [bracket_unbound_slots] never panics.  When it
    succeeds, [kept] lists exactly the arguments that are not [_], and every
    parameter's [open] entry is [Hole] when a [_] takes it, [Rest] when a
    trailing [...] covers it (no argument takes it and it is not infer-only),
    and [None] otherwise.  When it fails, the reported reason holds. *)
Theorem bracket_unbound_slots_correct {Expr Ty P} (identifier_of : Expr → option string)
    (named_type : Ty → option (string * nat)) `{!CompileTimeParam P} (params : list P) arguments :
  (∃ u, bracket_unbound_slots identifier_of named_type params arguments = Ok u ∧
     unbound_valid identifier_of named_type params arguments u) ∨
  (∃ e, bracket_unbound_slots identifier_of named_type params arguments = Err e ∧
     unbound_refusal identifier_of named_type params arguments e).
Proof. apply post_total, bracket_unbound_slots_post. Qed.
