(* ===== verification/Mangle.v ===== *)
(** * Native symbol mangling (crates/mojito-native/src/native/mangle.rs)

    [mangle] escapes a MIR symbol name, byte by byte, into a C identifier.
    A Rust byte is an [ascii] (eight bits), a string its bytes. *)

From S2P Require Import Prelude.
From Stdlib Require Import Ascii.

Local Open Scope char_scope.
Local Open Scope nat_scope.
Local Open Scope list_scope.

Notation bytes := (list ascii).

(** The bytes of a string literal. *)
Definition bytes_of (s : string) : bytes := String.list_ascii_of_string s.

Definition byte_in (lo hi b : ascii) : bool :=
  (nat_of_ascii lo <=? nat_of_ascii b) && (nat_of_ascii b <=? nat_of_ascii hi).

(** [b'A'..=b'Z' | b'a'..=b'z' | b'0'..=b'9']. *)
Definition is_alphanumeric (b : ascii) : bool :=
  byte_in "A" "Z" b || byte_in "a" "z" b || byte_in "0" "9" b.

(** A lowercase hexadecimal digit, as [{:x}] prints it. *)
Definition hex_digit (n : nat) : ascii :=
  ascii_of_nat (if n <? 10 then nat_of_ascii "0" + n else nat_of_ascii "a" + (n - 10)).

(** One iteration of the loop: what a byte contributes. *)
Definition mangle_byte (b : ascii) : bytes :=
  if is_alphanumeric b then [b]
  else if (b =? "_")%char then ["_"; "u"]
  else ["_"; hex_digit (nat_of_ascii b / 16); hex_digit (nat_of_ascii b mod 16)].

Fixpoint mangle_bytes (name : bytes) : bytes :=
  match name with
  | [] => []
  | b :: name => mangle_byte b ++ mangle_bytes name
  end.

Definition mangle (name : bytes) : bytes := bytes_of "mj_"%string ++ mangle_bytes name.

(** ** A decoder

    The scheme is injective because a left inverse exists. *)
Definition hex_value (b : ascii) : option nat :=
  if byte_in "0" "9" b then Some (nat_of_ascii b - nat_of_ascii "0")
  else if byte_in "a" "f" b then Some (10 + (nat_of_ascii b - nat_of_ascii "a"))
  else None.

Fixpoint unmangle_bytes (symbol : bytes) : option bytes :=
  match symbol with
  | [] => Some []
  | c :: rest =>
      if (c =? "_")%char then
        match rest with
        | h :: rest' =>
            if (h =? "u")%char then cons "_" <$> unmangle_bytes rest'
            else match rest' with
            | l :: rest'' =>
                hi ← hex_value h; lo ← hex_value l;
                cons (ascii_of_nat (16 * hi + lo)) <$> unmangle_bytes rest''
            | [] => None
            end
        | [] => None
        end
      else cons c <$> unmangle_bytes rest
  end.

Lemma unmangle_mangle_byte b rest :
  unmangle_bytes (mangle_byte b ++ rest) = cons b <$> unmangle_bytes rest.
Proof. destruct b as [[] [] [] [] [] [] [] []]; reflexivity. Qed.

Lemma unmangle_mangle_bytes name : unmangle_bytes (mangle_bytes name) = Some name.
Proof.
  induction name as [|b name IH]; [done|].
  cbn [mangle_bytes]. by rewrite unmangle_mangle_byte, IH.
Qed.

(** A C identifier: letters, digits and underscores, not starting with a
    digit. *)
Definition c_identifier_byte (b : ascii) : bool := is_alphanumeric b || (b =? "_")%char.

Definition c_identifier (symbol : bytes) : bool :=
  match symbol with
  | [] => false
  | b :: _ => negb (byte_in "0" "9" b) && forallb c_identifier_byte symbol
  end.

Lemma mangle_byte_safe b : forallb c_identifier_byte (mangle_byte b) = true.
Proof. destruct b as [[] [] [] [] [] [] [] []]; reflexivity. Qed.

Lemma mangle_bytes_safe name : forallb c_identifier_byte (mangle_bytes name) = true.
Proof.
  induction name as [|b name IH]; [done|]. cbn [mangle_bytes].
  by rewrite forallb_app, mangle_byte_safe, IH.
Qed.

(** The names the native backend declares unmangled: the wrapper [main], the
    C [exit], the [mjrt_*] runtime exports and the [mjthunk_<n>] thunks. *)
Definition reserved (symbol : bytes) : Prop :=
  symbol = bytes_of "main"%string ∨ symbol = bytes_of "exit"%string ∨
  (∃ rest, symbol = bytes_of "mjrt_"%string ++ rest) ∨ (∃ rest, symbol = bytes_of "mjthunk_"%string ++ rest).

(** C40: mangling is safe for the linker.  Distinct MIR names get distinct
    symbols, every symbol is a C identifier, and none is a name the backend
    reserves (the executable wrapper, [exit], the runtime exports, thunks). *)
Theorem mangle_correct :
  (∀ n1 n2, mangle n1 = mangle n2 → n1 = n2) ∧
  (∀ n, c_identifier (mangle n) = true) ∧
  (∀ n, ¬ reserved (mangle n)).
Proof.
  split_and!.
  - intros n1 n2 H%app_inv_head. pose proof (unmangle_mangle_bytes n1) as H1.
    rewrite H, unmangle_mangle_bytes in H1. congruence.
  - intros n. cbn -[mangle_bytes]. apply mangle_bytes_safe.
  - intros n [H|[H|[[rest H]|[rest H]]]]; cbn -[mangle_bytes] in H; congruence.
Qed.

Example mangle_toplevel : mangle (bytes_of "__toplevel__"%string) = bytes_of "mj__u_utoplevel_u_u"%string.
Proof. reflexivity. Qed.
Example mangle_dollar : mangle (bytes_of "a$b.c"%string) = bytes_of "mj_a_24b_2ec"%string.
Proof. reflexivity. Qed.
