(* ===== verification/Text.v ===== *)
(** * Characters and strings of the Rust standard library

    The pieces of [char] and [str] the front end uses.  A [char] is its
    Unicode scalar value, a [str] the list of its characters; byte offsets into
    a string count the UTF-8 length of the characters before them. *)

From S2P Require Import Prelude.
From Stdlib Require Import Ascii.
From Stdlib Require String.

Local Open Scope Z_scope.

Notation char := Z.
Notation str := (list Z).

(** Character and string literals. *)
Definition ch (a : ascii) : char := Z.of_nat (nat_of_ascii a).
Arguments ch a%_char.
Definition lit (s : string) : str := ch <$> String.list_ascii_of_string s.
Arguments lit s%_string.

(** ** Bytes *)

(** [char::len_utf8]. *)
Definition len_utf8 (c : char) : nat :=
  if c <? 0x80 then 1%nat else if c <? 0x800 then 2%nat
  else if c <? 0x10000 then 3%nat else 4%nat.

Arguments len_utf8 : simpl never.

(** [str::len]: the length in bytes. *)
Fixpoint str_len (s : str) : nat :=
  match s with [] => 0 | c :: s => len_utf8 c + str_len s end%nat.

(** [&s[n..]]: [None] is the panic of a byte offset past the end or inside a
    character. *)
Fixpoint str_from (s : str) (n : nat) {struct s} : option str :=
  match n with
  | O => Some s
  | S _ =>
      match s with
      | [] => None
      | c :: s => if (n <? len_utf8 c)%nat then None else str_from s (n - len_utf8 c)
      end
  end.

(** [&s[..n]]. *)
Fixpoint str_to (s : str) (n : nat) : option str :=
  match n with
  | O => Some []
  | S _ =>
      match s with
      | [] => None
      | c :: s => if (n <? len_utf8 c)%nat then None else cons c <$> str_to s (n - len_utf8 c)
      end
  end.

(** [&s[a..b]]. *)
Definition str_slice (s : str) (a b : nat) : option str :=
  if (b <? a)%nat then None else rest ← str_from s a; str_to rest (b - a).

Lemma len_utf8_pos c : (0 < len_utf8 c)%nat.
Proof. unfold len_utf8. repeat case_match; lia. Qed.

Lemma len_utf8_ascii c : c < 0x80 → len_utf8 c = 1%nat.
Proof. unfold len_utf8. intros H%Z.ltb_lt. by rewrite H. Qed.

Lemma str_len_app s1 s2 : str_len (s1 ++ s2) = (str_len s1 + str_len s2)%nat.
Proof. induction s1; simpl; lia. Qed.

Lemma str_from_0 s : str_from s 0 = Some s.
Proof. by destruct s. Qed.
Lemma str_to_0 s : str_to s 0 = Some [].
Proof. by destruct s. Qed.

Lemma str_from_app s1 s2 : str_from (s1 ++ s2) (str_len s1) = Some s2.
Proof.
  induction s1 as [|c s1 IH]; [by destruct s2|]. simpl. pose proof (len_utf8_pos c).
  destruct (len_utf8 c + str_len s1)%nat as [|n] eqn:Hn; [lia|].
  destruct (Nat.ltb_spec (S n) (len_utf8 c)); [lia|].
  by replace (S n - len_utf8 c)%nat with (str_len s1) by lia.
Qed.

Lemma str_to_app s1 s2 : str_to (s1 ++ s2) (str_len s1) = Some s1.
Proof.
  induction s1 as [|c s1 IH]; [by destruct s2|]. simpl. pose proof (len_utf8_pos c).
  destruct (len_utf8 c + str_len s1)%nat as [|n] eqn:Hn; [lia|].
  destruct (Nat.ltb_spec (S n) (len_utf8 c)); [lia|].
  replace (S n - len_utf8 c)%nat with (str_len s1) by lia. by rewrite IH.
Qed.

Lemma str_slice_app s1 s2 s3 a b :
  a = str_len s1 → b = (str_len s1 + str_len s2)%nat → str_slice (s1 ++ s2 ++ s3) a b = Some s2.
Proof.
  intros -> ->. unfold str_slice. destruct (Nat.ltb_spec (str_len s1 + str_len s2) (str_len s1)); [lia|].
  rewrite str_from_app. simpl. rewrite Nat.add_comm, Nat.add_sub. apply str_to_app.
Qed.

(** A slice succeeds exactly at a character boundary. *)
Lemma str_from_Some s n r : str_from s n = Some r ↔ ∃ pre, s = pre ++ r ∧ n = str_len pre.
Proof.
  split.
  - revert n. induction s as [|c s IH]; intros n H.
    + destruct n; simpl in H; [|done]. injection H as <-. by exists [].
    + destruct n as [|n]; [injection H as <-; by exists []|]. simpl in H.
      destruct (Nat.ltb_spec (S n) (len_utf8 c)); [done|]. apply IH in H as (pre & -> & Hn).
      exists (c :: pre). split; [done|]. simpl. lia.
  - intros (pre & -> & ->). apply str_from_app.
Qed.

Lemma str_from_le s n r : str_from s n = Some r → (n + str_len r = str_len s)%nat.
Proof. intros (pre & -> & ->)%str_from_Some. by rewrite str_len_app. Qed.

(** Moving past a prefix of the rest. *)
Lemma str_from_advance s n used r :
  str_from s n = Some (used ++ r) → str_from s (n + str_len used) = Some r.
Proof.
  intros (pre & -> & ->)%str_from_Some. apply str_from_Some. exists (pre ++ used).
  by rewrite str_len_app, (assoc_L (++)).
Qed.

(** The text between two boundaries. *)
Lemma str_slice_between s n mid r :
  str_from s n = Some (mid ++ r) → str_slice s n (n + str_len mid) = Some mid.
Proof. intros (pre & -> & ->)%str_from_Some. by apply str_slice_app. Qed.

(** ** Predicates *)

Definition char_in (lo hi c : char) : bool := (lo <=? c) && (c <=? hi).

Definition is_ascii_digit (c : char) : bool := char_in (ch "0") (ch "9") c.
Definition is_ascii_alphabetic (c : char) : bool :=
  char_in (ch "a") (ch "z") c || char_in (ch "A") (ch "Z") c.
Definition is_ascii_alphanumeric (c : char) : bool := is_ascii_alphabetic c || is_ascii_digit c.
Definition is_ascii_hexdigit (c : char) : bool :=
  is_ascii_digit c || char_in (ch "a") (ch "f") c || char_in (ch "A") (ch "F") c.

(** [char::to_digit]. *)
Definition to_digit (c : char) (radix : Z) : option Z :=
  let d :=
    if is_ascii_digit c then Some (c - ch "0")
    else if char_in (ch "a") (ch "z") c then Some (c - ch "a" + 10)
    else if char_in (ch "A") (ch "Z") c then Some (c - ch "A" + 10)
    else None in
  d ← d; if d <? radix then Some d else None.

(** [char::is_digit]. *)
Definition is_digit (c : char) (radix : Z) : bool := bool_decide (is_Some (to_digit c radix)).

(** [char::from_u32]: scalar values exclude the surrogates. *)
Definition is_scalar (c : Z) : bool :=
  ((0 <=? c) && (c <? 0xd800)) || ((0xdfff <? c) && (c <=? 0x10ffff)).
Definition from_u32 (code : Z) : option char := if is_scalar code then Some code else None.

(** [str::to_ascii_lowercase]. *)
Definition ascii_lowercase (c : char) : char := if char_in (ch "A") (ch "Z") c then c + 32 else c.
Definition to_ascii_lowercase (s : str) : str := ascii_lowercase <$> s.

(** [str::starts_with] a string. *)
Fixpoint starts_with (s p : str) {struct p} : bool :=
  match p, s with
  | [], _ => true
  | x :: p, y :: s => (x =? y) && starts_with s p
  | _ :: _, [] => false
  end.

(** [str::ends_with]. *)
Definition ends_with (s p : str) : bool := starts_with (reverse s) (reverse p).

(** [str::starts_with] a character. *)
Definition starts_with_char (s : str) (c : char) : bool :=
  match s with x :: _ => x =? c | [] => false end.

(** [chars().take_while(p)] and the rest. *)
Fixpoint take_while (p : char → bool) (s : str) : str :=
  match s with
  | c :: s => if p c then c :: take_while p s else []
  | [] => []
  end.
Fixpoint drop_while (p : char → bool) (s : str) : str :=
  match s with
  | c :: s' => if p c then drop_while p s' else s
  | [] => []
  end.

Lemma take_while_drop_while p s : take_while p s ++ drop_while p s = s.
Proof. induction s as [|c s IH]; simpl; [done|]. destruct (p c); simpl; by rewrite ?IH. Qed.

Lemma starts_with_spec s p : starts_with s p = true ↔ ∃ rest, s = p ++ rest.
Proof.
  revert s. induction p as [|x p IH]; intros s; simpl; [split; [by exists s|done]|].
  destruct s as [|y s]; [split; [done|by intros [? ?]]|].
  rewrite andb_true_iff, Z.eqb_eq, IH. split.
  - intros [-> [rest ->]]. by exists rest.
  - intros [rest [= -> ->]]. eauto.
Qed.

Lemma starts_with_char_spec s c : starts_with_char s c = true ↔ ∃ rest, s = c :: rest.
Proof.
  destruct s as [|x s]; simpl; [split; [done|by intros [? ?]]|].
  rewrite Z.eqb_eq. split; [intros ->; eauto|by intros [? [= -> _]]].
Qed.

Lemma starts_with_app p s : starts_with (p ++ s) p = true.
Proof. apply starts_with_spec. eauto. Qed.

(** [str::strip_suffix]. *)
Definition strip_suffix (s p : str) : option str :=
  if ends_with s p then Some (take (length s - length p) s) else None.

Lemma strip_suffix_app s p : strip_suffix (s ++ p) p = Some s.
Proof.
  unfold strip_suffix, ends_with. rewrite reverse_app, starts_with_app, length_app.
  by replace (length s + length p - length p)%nat with (length s) by lia; rewrite take_app_length.
Qed.

(** [str::find] of a character class: the parts before and after the first
    match, which the source separates by slicing. *)
Fixpoint split_once (p : char → bool) (s : str) : option (str * str) :=
  match s with
  | [] => None
  | c :: s => if p c then Some ([], s) else '(before, after) ← split_once p s; Some (c :: before, after)
  end.

Lemma split_once_None p s : split_once p s = None ↔ Forall (λ c, p c = false) s.
Proof.
  induction s as [|c s IH]; simpl; [by split; constructor|]. rewrite Forall_cons.
  destruct (p c) eqn:Hc; [split; [done|intros [? ?]; done]|].
  destruct (split_once p s) as [[]|]; simpl; [split; [done|]|tauto].
  intros [_ H]. by apply IH in H.
Qed.

Lemma split_once_app p s1 c s2 :
  Forall (λ c, p c = false) s1 → p c = true → split_once p (s1 ++ c :: s2) = Some (s1, s2).
Proof. intros H Hc. induction H as [|x s1 Hx _ IH]; simpl; [by rewrite Hc|]. by rewrite Hx, IH. Qed.

(** ** Numbers *)

(** The value of a digit string, most significant digit first. *)
Definition digits_value (radix : Z) (acc : Z) (s : str) : Z :=
  fold_left (λ acc c, acc * radix + default 0 (to_digit c radix)) s acc.

Arguments digits_value : simpl never.

Definition all_digits (radix : Z) (s : str) : bool := forallb (λ c, is_digit c radix) s.

Definition i64_min : Z := - 2 ^ 63.
Definition i64_max : Z := 2 ^ 63 - 1.
Definition u64_max : Z := 2 ^ 64 - 1.
Definition u32_max : Z := 2 ^ 32 - 1.

(** [str::parse::<i64>().ok()]: an optional sign, at least one decimal digit,
    and a value in range. *)
Definition parse_i64 (s : str) : option Z :=
  let '(negative, digits) :=
    match s with
    | c :: rest => if c =? ch "-" then (true, rest) else if c =? ch "+" then (false, rest) else (false, s)
    | [] => (false, [])
    end in
  if all_digits 10 digits && negb (bool_decide (digits = [])) then
    let v := digits_value 10 0 digits in
    let v := if negative : bool then - v else v in
    if (i64_min <=? v) && (v <=? i64_max) then Some v else None
  else None.

Lemma digits_value_acc radix acc s :
  digits_value radix acc s = acc * radix ^ Z.of_nat (length s) + digits_value radix 0 s.
Proof.
  unfold digits_value. revert acc. induction s as [|c s IH]; intros acc; [simpl; lia|].
  cbn [fold_left length]. rewrite IH, (IH (0 * radix + _)), Nat2Z.inj_succ, Z.pow_succ_r by lia. ring.
Qed.

Lemma digits_value_app radix acc s1 s2 :
  digits_value radix acc (s1 ++ s2) = digits_value radix (digits_value radix acc s1) s2.
Proof. apply fold_left_app. Qed.

(** ** Unicode tables

    [char::is_alphabetic] and [char::is_alphanumeric] read the Unicode
    database; they are parameters, of which only the ASCII part is fixed. *)
Class UnicodeTables : Type := {
  is_alphabetic : char → bool;
  is_alphanumeric : char → bool;
}.

Class UnicodeLaws `{UnicodeTables} : Prop := {
  is_alphabetic_ascii c : c < 0x80 → is_alphabetic c = is_ascii_alphabetic c;
  is_alphanumeric_ascii c : c < 0x80 → is_alphanumeric c = is_ascii_alphanumeric c;
}.

(** The ASCII tables, for evaluation. *)
Definition ascii_tables : UnicodeTables :=
  {| is_alphabetic := is_ascii_alphabetic; is_alphanumeric := is_ascii_alphanumeric |}.
