(* ===== verification/Literal.v ===== *)
(** * Exact literals (crates/mojito-common/src/literal.rs)

    [IntLiteral] and [FloatLiteral], the arbitrary-precision compile-time
    numbers.  The big integers and rationals they wrap come from the
    [num-bigint] and [num-rational] crates, which are interfaces here: a class
    of operations and a class of laws, which state the documented meaning of
    each operation through the mathematical value of a number.  Everything is
    proved for any implementation that obeys the laws; [Z_bigint] and
    [Qc_rational] are one. *)

From S2P Require Import Prelude Text.
From Stdlib Require Import Ascii QArith Qabs Qreduction Qround Qcanon Lqa Qpower.

Local Open Scope Z_scope.

(** ** The number crates *)

(** What the code uses of [num_bigint::BigInt]. *)
Class BigInt (B : Type) : Type := {
  bi_val : B → Z;
  bi_from : Z → B;
  bi_parse_bytes : str → Z → option B;
  bi_display : B → str;
  bi_is_zero : B → bool;
  bi_is_positive : B → bool;
  bi_is_negative : B → bool;
  bi_to_i64 : B → option Z;
  bi_to_u64 : B → option Z;
  bi_to_i128 : B → option Z;
  bi_neg : B → B;
  bi_add : B → B → B;
  bi_sub : B → B → B;
  bi_mul : B → B → B;
  bi_div_floor : B → B → B;
  bi_mod_floor : B → B → B;
  bi_pow : B → Z → B;
  bi_shl : B → Z → B;
  bi_shr : B → Z → B;
  bi_and : B → B → B;
  bi_or : B → B → B;
  bi_xor : B → B → B;
  bi_compare : B → B → comparison;
}.

Definition in_range (lo hi z : Z) : option Z := if (lo <=? z) && (z <=? hi) then Some z else None.

(** Digits parse to their value, a minus sign negates them, and other spellings
    are left open; a number displays as a sign and digits. *)
Class BigIntLaws (B : Type) `{!BigInt B} : Prop := {
  bi_val_inj a b : bi_val a = bi_val b → a = b;
  bi_val_from z : bi_val (bi_from z) = z;
  bi_parse_digits ds radix :
    2 <= radix <= 36 → ds ≠ [] → all_digits radix ds = true →
    bi_parse_bytes ds radix = Some (bi_from (digits_value radix 0 ds));
  bi_parse_empty radix : bi_parse_bytes [] radix = None;
  bi_parse_negative ds radix :
    2 <= radix <= 36 → ds ≠ [] → all_digits radix ds = true →
    bi_parse_bytes (ch "-" :: ds) radix = Some (bi_from (- digits_value radix 0 ds));
  bi_display_val a :
    ∃ ds, ds ≠ [] ∧ all_digits 10 ds = true ∧ digits_value 10 0 ds = Z.abs (bi_val a) ∧
      bi_display a = if bi_val a <? 0 then ch "-" :: ds else ds;
  bi_is_zero_val a : bi_is_zero a = (bi_val a =? 0);
  bi_is_positive_val a : bi_is_positive a = (0 <? bi_val a);
  bi_is_negative_val a : bi_is_negative a = (bi_val a <? 0);
  bi_to_i64_val a : bi_to_i64 a = in_range i64_min i64_max (bi_val a);
  bi_to_u64_val a : bi_to_u64 a = in_range 0 u64_max (bi_val a);
  bi_to_i128_val a : bi_to_i128 a = in_range (- 2 ^ 127) (2 ^ 127 - 1) (bi_val a);
  bi_val_neg a : bi_val (bi_neg a) = - bi_val a;
  bi_val_add a b : bi_val (bi_add a b) = bi_val a + bi_val b;
  bi_val_sub a b : bi_val (bi_sub a b) = bi_val a - bi_val b;
  bi_val_mul a b : bi_val (bi_mul a b) = bi_val a * bi_val b;
  bi_val_div_floor a b : bi_val b ≠ 0 → bi_val (bi_div_floor a b) = bi_val a / bi_val b;
  bi_val_mod_floor a b : bi_val b ≠ 0 → bi_val (bi_mod_floor a b) = bi_val a mod bi_val b;
  bi_val_pow a n : 0 <= n → bi_val (bi_pow a n) = bi_val a ^ n;
  bi_val_shl a n : 0 <= n → bi_val (bi_shl a n) = bi_val a * 2 ^ n;
  bi_val_shr a n : 0 <= n → bi_val (bi_shr a n) = bi_val a / 2 ^ n;
  bi_val_and a b : bi_val (bi_and a b) = Z.land (bi_val a) (bi_val b);
  bi_val_or a b : bi_val (bi_or a b) = Z.lor (bi_val a) (bi_val b);
  bi_val_xor a b : bi_val (bi_xor a b) = Z.lxor (bi_val a) (bi_val b);
  bi_compare_val a b : bi_compare a b = (bi_val a ?= bi_val b);
}.

Create HintDb bigint.
#[export] Hint Rewrite @bi_val_from @bi_val_neg @bi_val_add @bi_val_sub @bi_val_mul @bi_val_and
  @bi_val_or @bi_val_xor @bi_compare_val @bi_is_zero_val
  @bi_is_positive_val @bi_is_negative_val @bi_to_i64_val @bi_to_u64_val @bi_to_i128_val
  using typeclasses eauto : bigint.
#[export] Hint Rewrite @bi_val_div_floor @bi_val_mod_floor @bi_val_pow @bi_val_shl @bi_val_shr
  using (first [typeclasses eauto | assumption | lia]) : bigint.

(** What the code uses of [num_rational::BigRational] over [BigInt]. *)
Class BigRational (B R : Type) : Type := {
  rat_val : R → Q;
  rat_new : B → B → R;
  rat_from_integer : B → R;
  rat_numer : R → B;
  rat_denom : R → B;
  rat_is_zero : R → bool;
  rat_is_negative : R → bool;
  rat_is_integer : R → bool;
  rat_neg : R → R;
  rat_abs : R → R;
  rat_add : R → R → R;
  rat_mul : R → R → R;
  rat_div : R → R → R;
  rat_to_integer : R → B;
  rat_compare : R → R → comparison;
}.

Class BigRationalLaws (B R : Type) `{!BigInt B, !BigRational B R} : Prop := {
  rat_val_inj (r s : R) : (rat_val r == rat_val s)%Q → r = s;
  rat_val_new n d : bi_val d ≠ 0 → (rat_val (rat_new n d) == inject_Z (bi_val n) / inject_Z (bi_val d))%Q;
  rat_val_from_integer n : (rat_val (rat_from_integer n) == inject_Z (bi_val n))%Q;
  rat_val_numer r : bi_val (rat_numer r) = Qnum (Qred (rat_val r));
  rat_val_denom r : bi_val (rat_denom r) = Zpos (Qden (Qred (rat_val r)));
  rat_is_zero_val r : rat_is_zero r = Qeq_bool (rat_val r) 0;
  rat_is_negative_val r : rat_is_negative r = negb (Qle_bool 0 (rat_val r));
  rat_is_integer_val r : rat_is_integer r = true ↔ Qden (Qred (rat_val r)) = 1%positive;
  rat_val_neg r : (rat_val (rat_neg r) == - rat_val r)%Q;
  rat_val_abs r : (rat_val (rat_abs r) == Qabs.Qabs (rat_val r))%Q;
  rat_val_add r s : (rat_val (rat_add r s) == rat_val r + rat_val s)%Q;
  rat_val_mul r s : (rat_val (rat_mul r s) == rat_val r * rat_val s)%Q;
  rat_val_div r s : ¬ (rat_val s == 0)%Q → (rat_val (rat_div r s) == rat_val r / rat_val s)%Q;
  rat_val_to_integer r : bi_val (rat_to_integer r) = Z.quot (Qnum (rat_val r)) (Zpos (Qden (rat_val r)));
  rat_compare_val r s : rat_compare r s = (rat_val r ?= rat_val s)%Q;
}.

(** *** An implementation: [Z] and canonical fractions *)

Definition Z_parse_bytes (ds : str) (radix : Z) : option Z :=
  let '(negative, ds) :=
    match ds with c :: rest => if c =? ch "-" then (true, rest) else (false, ds) | [] => (false, []) end in
  if bool_decide (ds = []) then None
  else if all_digits radix ds then
    Some (if negative : bool then - digits_value radix 0 ds else digits_value radix 0 ds)
  else None.

(** The decimal digits of a natural number, before [acc]; [n < 2 ^ fuel]
    suffices. *)
Fixpoint decimal (fuel : nat) (n : Z) (acc : str) : str :=
  match fuel with
  | O => acc
  | S fuel =>
      let acc := ch "0" + n mod 10 :: acc in
      if n <? 10 then acc else decimal fuel (n / 10) acc
  end.

Definition Z_display (z : Z) : str :=
  let n := Z.abs z in
  let ds := decimal (S (Z.to_nat (Z.log2 n))) n [] in
  if z <? 0 then ch "-" :: ds else ds.

Lemma digit_char d : 0 <= d < 10 → to_digit (ch "0" + d) 10 = Some d ∧ is_ascii_digit (ch "0" + d) = true.
Proof.
  intros Hd. assert (Hi : is_ascii_digit (ch "0" + d) = true).
  { unfold is_ascii_digit, char_in. change (ch "0") with 48. change (ch "9") with 57. lia. }
  split; [|done]. unfold to_digit. rewrite Hi. simpl. change (ch "0") with 48.
  replace (48 + d - 48) with d by lia. by destruct (Z.ltb_spec d 10); [|lia].
Qed.

Lemma decimal_spec fuel n acc :
  0 <= n < 2 ^ Z.of_nat fuel → (0 < fuel)%nat →
  Forall (λ c, is_ascii_digit c = true) acc → all_digits 10 acc = true →
  let ds := decimal fuel n acc in
  ds ≠ [] ∧ Forall (λ c, is_ascii_digit c = true) ds ∧ all_digits 10 ds = true ∧
  digits_value 10 0 ds = digits_value 10 n acc.
Proof.
  revert n acc. induction fuel as [|fuel IH]; intros n acc Hn Hf Ha Hd; [lia|]. cbn [decimal].
  destruct (digit_char (n mod 10) ltac:(apply Z.mod_pos_bound; lia)) as [Ht Hi].
  assert (Hacc : all_digits 10 (ch "0" + n mod 10 :: acc) = true).
  { simpl. unfold is_digit. by rewrite Ht. }
  assert (Hv : ∀ m, digits_value 10 m (ch "0" + n mod 10 :: acc) = digits_value 10 (m * 10 + n mod 10) acc).
  { intros m. unfold digits_value. simpl. by rewrite Ht. }
  pose proof (Z.div_mod n 10 ltac:(lia)). pose proof (Z.mod_pos_bound n 10 ltac:(lia)).
  destruct (Z.ltb_spec n 10) as [Hs|Hs].
  - split_and!; [done|by constructor|done|]. rewrite Hv, Z.mod_small by lia. done.
  - rewrite Nat2Z.inj_succ, Z.pow_succ_r in Hn by lia.
    destruct fuel as [|fuel]; [change (Z.of_nat 0) with 0 in Hn; lia|].
    destruct (IH (n / 10) (ch "0" + n mod 10 :: acc)) as (H1 & H2 & H3 & H4); [lia|lia|by constructor|done|].
    split_and!; try done. rewrite H4, Hv. f_equal. lia.
Qed.

Lemma decimal_display n :
  0 <= n →
  let ds := decimal (S (Z.to_nat (Z.log2 n))) n [] in
  ds ≠ [] ∧ Forall (λ c, is_ascii_digit c = true) ds ∧ all_digits 10 ds = true ∧
  digits_value 10 0 ds = n.
Proof.
  intros Hn. apply decimal_spec; [|lia|constructor|done].
  rewrite Nat2Z.inj_succ, Z2Nat.id by apply Z.log2_nonneg. split; [done|].
  destruct (decide (n = 0)) as [->|]; [done|]. apply Z.log2_spec. lia.
Qed.

Lemma all_digits_head radix c ds : all_digits radix (c :: ds) = true → c ≠ ch "-".
Proof.
  intros [Hc _]%andb_true_iff ->. unfold is_digit in Hc. by apply bool_decide_eq_true in Hc as [? ?].
Qed.

#[export] Instance Z_bigint : BigInt Z := {|
  bi_val := id; bi_from := id; bi_parse_bytes := Z_parse_bytes; bi_display := Z_display;
  bi_is_zero := Z.eqb 0; bi_is_positive := Z.ltb 0; bi_is_negative z := z <? 0;
  bi_to_i64 := in_range i64_min i64_max; bi_to_u64 := in_range 0 u64_max;
  bi_to_i128 := in_range (- 2 ^ 127) (2 ^ 127 - 1);
  bi_neg := Z.opp; bi_add := Z.add; bi_sub := Z.sub; bi_mul := Z.mul;
  bi_div_floor := Z.div; bi_mod_floor := Z.modulo; bi_pow := Z.pow;
  bi_shl a n := a * 2 ^ n; bi_shr a n := a / 2 ^ n;
  bi_and := Z.land; bi_or := Z.lor; bi_xor := Z.lxor; bi_compare := Z.compare;
|}.

Lemma Z_parse_digits ds radix :
  ds ≠ [] → all_digits radix ds = true → Z_parse_bytes ds radix = Some (digits_value radix 0 ds).
Proof.
  intros Hne Hd. destruct ds as [|c ds]; [done|]. unfold Z_parse_bytes.
  pose proof (all_digits_head _ _ _ Hd) as Hc%Z.eqb_neq. by rewrite Hc, bool_decide_eq_false_2, Hd.
Qed.

#[export] Instance Z_bigint_laws : BigIntLaws Z.
Proof.
  split; intros; try done.
  - by apply Z_parse_digits.
  - simpl. unfold Z_parse_bytes. by rewrite Z.eqb_refl, bool_decide_eq_false_2, H1.
  - destruct (decimal_display (Z.abs a)) as (? & _ & ? & ?); [lia|]. by eexists.
Qed.

(** A canonical fraction is a [Q] in lowest terms. *)
#[export] Instance Qc_rational : BigRational Z Qc := {|
  rat_val := this; rat_new n d := Q2Qc (inject_Z n / inject_Z d); rat_from_integer n := Q2Qc (inject_Z n);
  rat_numer r := Qnum r; rat_denom r := Zpos (Qden r);
  rat_is_zero r := Qeq_bool r 0; rat_is_negative r := negb (Qle_bool 0 r);
  rat_is_integer r := bool_decide (Qden r = 1%positive);
  rat_neg r := Q2Qc (- r); rat_abs r := Q2Qc (Qabs r);
  rat_add r s := Q2Qc (r + s); rat_mul r s := Q2Qc (r * s); rat_div r s := Q2Qc (r / s);
  rat_to_integer r := Z.quot (Qnum r) (Zpos (Qden r)); rat_compare r s := (r ?= s)%Q;
|}.

#[export] Instance Qc_rational_laws : BigRationalLaws Z Qc.
Proof.
  split; intros; simpl; rewrite ?Qred_correct, ?canon; try done.
  - by apply Qc_is_canon.
  - apply bool_decide_eq_true.
Qed.

(** [MAX_LITERAL_EXPONENT]. *)
Definition max_literal_exponent : Z := 1000000.

Section literals.
Context {B R : Type} `{!BigInt B, !BigRational B R}.

(** ** [IntLiteral] *)

Record IntLiteral : Type := mkInt { int_value : B }.

Definition parse_radix (digits : str) (radix : Z) : option IntLiteral := mkInt <$> bi_parse_bytes digits radix.

Definition to_i64 (x : IntLiteral) : option Z := bi_to_i64 x.(int_value).
Definition to_u64 (x : IntLiteral) : option Z := bi_to_u64 x.(int_value).
Definition to_i128 (x : IntLiteral) : option Z := bi_to_i128 x.(int_value).

Definition wrapping_unsigned (x : IntLiteral) (bits : Z) : option Z :=
  if (bits =? 0) || (64 <? bits) then None
  else let modulus := bi_shl (bi_from 1) bits in bi_to_u64 (bi_mod_floor x.(int_value) modulus).

Definition wrapping_signed (x : IntLiteral) (bits : Z) : option Z :=
  if (bits =? 0) || (64 <? bits) then None
  else
    let modulus := bi_shl (bi_from 1) bits in
    let sign_bit := bi_shl (bi_from 1) (bits - 1) in
    let unsigned := bi_mod_floor x.(int_value) modulus in
    let signed := match bi_compare unsigned sign_bit with Lt => unsigned | _ => bi_sub unsigned modulus end in
    bi_to_i64 signed.

Definition int_is_zero (x : IntLiteral) : bool := bi_is_zero x.(int_value).
Definition int_is_negative (x : IntLiteral) : bool := bi_is_negative x.(int_value).

Definition int_neg (x : IntLiteral) : IntLiteral := mkInt (bi_neg x.(int_value)).
Definition int_add (x y : IntLiteral) : IntLiteral := mkInt (bi_add x.(int_value) y.(int_value)).
Definition int_sub (x y : IntLiteral) : IntLiteral := mkInt (bi_sub x.(int_value) y.(int_value)).
Definition int_mul (x y : IntLiteral) : IntLiteral := mkInt (bi_mul x.(int_value) y.(int_value)).

Definition int_floor_div (x y : IntLiteral) : option IntLiteral :=
  if int_is_zero y then None else Some (mkInt (bi_div_floor x.(int_value) y.(int_value))).
Definition int_floor_mod (x y : IntLiteral) : option IntLiteral :=
  if int_is_zero y then None else Some (mkInt (bi_mod_floor x.(int_value) y.(int_value))).

(** The count of a bounded operation: a [u64] below the resource limit. *)
Definition limited (n : IntLiteral) : option Z :=
  n ← to_u64 n; if max_literal_exponent <? n then None else Some n.

Definition int_pow (x exponent : IntLiteral) : option IntLiteral :=
  exponent ← limited exponent;
  if u32_max <? exponent then None else Some (mkInt (bi_pow x.(int_value) exponent)).
Definition int_shl (x rhs : IntLiteral) : option IntLiteral :=
  shift ← limited rhs; Some (mkInt (bi_shl x.(int_value) shift)).
Definition int_shr (x rhs : IntLiteral) : option IntLiteral :=
  shift ← limited rhs; Some (mkInt (bi_shr x.(int_value) shift)).

Definition int_bitand (x y : IntLiteral) : IntLiteral := mkInt (bi_and x.(int_value) y.(int_value)).
Definition int_bitor (x y : IntLiteral) : IntLiteral := mkInt (bi_or x.(int_value) y.(int_value)).
Definition int_bitxor (x y : IntLiteral) : IntLiteral := mkInt (bi_xor x.(int_value) y.(int_value)).

(** ** [FloatLiteral] *)

Record FloatLiteral : Type := mkFloat { value : R; negative_zero : bool }.

Definition from_rational (v : R) : FloatLiteral := mkFloat v false.

Definition bi_ten_pow (power : Z) : B := bi_pow (bi_from 10) power.

(** The exponent of a power of ten: a [u32] below the resource limit. *)
Definition decimal_power (scale : Z) : option Z :=
  if (u32_max <? scale) || (max_literal_exponent <? scale) then None else Some scale.

Definition parse_decimal (text : str) : option FloatLiteral :=
  '(mantissa, exponent) ←
    match split_once (λ c, (c =? ch "e") || (c =? ch "E")) text with
    | Some (mantissa, exponent) => e ← parse_i64 exponent; Some (mantissa, e)
    | None => Some (text, 0)
    end;
  let '(whole, fraction) := default (mantissa, []) (split_once (Z.eqb (ch ".")) mantissa) in
  let whole := if bool_decide (whole = []) then lit "0" else whole in
  numerator ← bi_parse_bytes (whole ++ fraction) 10;
  let places := Z.of_nat (str_len fraction) in
  (if i64_max <? places then None
   else scale ← in_range i64_min i64_max (places - exponent);
   if 0 <=? scale then
     power ← decimal_power scale;
     Some (from_rational (rat_new numerator (bi_ten_pow power)))
   else
     negated ← in_range i64_min i64_max (- scale);
     power ← decimal_power negated;
     Some (from_rational (rat_from_integer (bi_mul numerator (bi_ten_pow power))))).

Definition parse_exact (text : str) : option FloatLiteral :=
  if bool_decide (text = lit "-0.0") then Some (mkFloat (rat_from_integer (bi_from 0)) true)
  else match split_once (Z.eqb (ch "/")) text with
  | Some (numerator, denominator) =>
      numerator ← bi_parse_bytes numerator 10;
      denominator ← bi_parse_bytes denominator 10;
      if negb (bi_is_positive denominator) then None
      else Some (from_rational (rat_new numerator denominator))
  | None =>
      whole ← strip_suffix text (lit ".0");
      numerator ← bi_parse_bytes whole 10;
      Some (from_rational (rat_from_integer numerator))
  end.

Definition from_int (x : IntLiteral) : FloatLiteral := mkFloat (rat_from_integer x.(int_value)) false.

Definition float_is_zero (x : FloatLiteral) : bool := rat_is_zero x.(value).

Definition sign_negative (x : FloatLiteral) : bool :=
  rat_is_negative x.(value) || (rat_is_zero x.(value) && x.(negative_zero)).

Definition float_abs (x : FloatLiteral) : FloatLiteral := mkFloat (rat_abs x.(value)) false.
Definition float_neg (x : FloatLiteral) : FloatLiteral :=
  mkFloat (rat_neg x.(value)) (float_is_zero x && negb x.(negative_zero)).

(** [if result.is_zero() { result.negative_zero = … }]. *)
Definition sign_zero (result : FloatLiteral) (negative : bool) : FloatLiteral :=
  if float_is_zero result then mkFloat result.(value) negative else result.

Definition float_add (x y : FloatLiteral) : FloatLiteral :=
  sign_zero (from_rational (rat_add x.(value) y.(value)))
    (float_is_zero x && float_is_zero y && x.(negative_zero) && y.(negative_zero)).
Definition float_sub (x y : FloatLiteral) : FloatLiteral := float_add x (float_neg y).
Definition float_mul (x y : FloatLiteral) : FloatLiteral :=
  sign_zero (from_rational (rat_mul x.(value) y.(value))) (xorb (sign_negative x) (sign_negative y)).
Definition float_div (x y : FloatLiteral) : option FloatLiteral :=
  if float_is_zero y then None
  else Some (sign_zero (from_rational (rat_div x.(value) y.(value))) (xorb (sign_negative x) (sign_negative y))).

Definition float_floor_div (x y : FloatLiteral) : option FloatLiteral :=
  quotient ← float_div x y;
  Some (from_rational (rat_from_integer
    (bi_div_floor (rat_numer quotient.(value)) (rat_denom quotient.(value))))).
Definition float_floor_mod (x y : FloatLiteral) : option FloatLiteral :=
  quotient ← float_floor_div x y; Some (float_sub x (float_mul y quotient)).

Definition trunc_to_int (x : FloatLiteral) : IntLiteral := mkInt (rat_to_integer x.(value)).
Definition to_int_if_whole (x : FloatLiteral) : option IntLiteral :=
  if rat_is_integer x.(value) then Some (trunc_to_int x) else None.

Definition numeric_cmp (x y : FloatLiteral) : comparison := rat_compare x.(value) y.(value).

(** [Display]. *)
Definition float_display (x : FloatLiteral) : str :=
  if float_is_zero x && x.(negative_zero) then lit "-0.0"
  else if bi_val (rat_denom x.(value)) =? 1 then bi_display (rat_numer x.(value)) ++ lit ".0"
  else bi_display (rat_numer x.(value)) ++ ch "/" :: bi_display (rat_denom x.(value)).
End literals.
Arguments IntLiteral : clear implicits.
Arguments FloatLiteral : clear implicits.

(** ** Meaning *)

Section int_meaning.
#[local] Set Default Proof Using "Type*".
Context {B : Type} `{!BigInt B, !BigIntLaws B}.
Implicit Types (x y : IntLiteral B).

Definition ival (x : IntLiteral B) : Z := bi_val x.(int_value).

Lemma ival_inj x y : ival x = ival y → x = y.
Proof. destruct x, y. intros H. f_equal. by apply bi_val_inj. Qed.

Lemma in_range_Some lo hi z : lo <= z <= hi → in_range lo hi z = Some z.
Proof. unfold in_range. intros. by destruct (Z.leb_spec lo z), (Z.leb_spec z hi); try lia. Qed.

Lemma in_range_None lo hi z : ¬ (lo <= z <= hi) → in_range lo hi z = None.
Proof. unfold in_range. intros. by destruct (Z.leb_spec lo z), (Z.leb_spec z hi); try lia. Qed.

Lemma in_range_iff lo hi z v : in_range lo hi z = Some v ↔ v = z ∧ lo <= v <= hi.
Proof.
  unfold in_range. destruct (Z.leb_spec lo z), (Z.leb_spec z hi); simpl; (split; [intros [= <-]|intros [-> ?]]); lia || done.
Qed.

Lemma bi_val_pow2 n : 0 <= n → bi_val (bi_shl (bi_from (B:=B) 1) n) = 2 ^ n.
Proof. intros. autorewrite with bigint. lia. Qed.

Lemma bi_val_mod_pow2 (a : B) n : 0 <= n → bi_val (bi_mod_floor a (bi_shl (bi_from 1) n)) = bi_val a mod 2 ^ n.
Proof.
  intros Hn. pose proof (bi_val_pow2 n Hn) as Hp. pose proof (pow2_pos n Hn).
  by rewrite bi_val_mod_floor, Hp by lia.
Qed.

Lemma pow2_le_u64 bits : 1 <= bits <= 64 → 0 < 2 ^ bits <= 2 ^ 64.
Proof. intros. split; [apply pow2_pos; lia|apply Z.pow_le_mono_r; lia]. Qed.

Lemma wrapping_unsigned_val x bits :
  1 <= bits <= 64 → wrapping_unsigned x bits = Some (to_unsigned bits (ival x)).
Proof.
  intros Hb. unfold wrapping_unsigned. destruct (Z.eqb_spec bits 0), (Z.ltb_spec 64 bits); try lia. simpl.
  pose proof (pow2_le_u64 bits Hb).
  rewrite bi_to_u64_val, bi_val_mod_pow2 by lia.
  change (bi_val x.(int_value) mod 2 ^ bits) with (to_unsigned bits (ival x)). apply in_range_Some.
  pose proof (to_unsigned_range bits (ival x) ltac:(lia)) as H1. unfold in_unsigned, u64_max in *. lia.
Qed.

Lemma signed_of_unsigned bits z :
  1 <= bits →
  to_signed bits z = if z mod 2 ^ bits <? 2 ^ (bits - 1) then z mod 2 ^ bits else z mod 2 ^ bits - 2 ^ bits.
Proof.
  intros Hb. unfold to_signed. rewrite <- Zplus_mod_idemp_l.
  pose proof (Z.mod_pos_bound z (2 ^ bits) (pow2_pos bits ltac:(lia))).
  pose proof (pow2_split bits ltac:(lia)).
  destruct (Z.ltb_spec (z mod 2 ^ bits) (2 ^ (bits - 1))).
  - rewrite (Z.mod_small (_ + _)); lia.
  - rewrite <- (Z_mod_plus_full (z mod 2 ^ bits + 2 ^ (bits - 1)) (-1) (2 ^ bits)).
    rewrite (Z.mod_small (_ + _)); lia.
Qed.

Lemma wrapping_signed_val x bits :
  1 <= bits <= 64 → wrapping_signed x bits = Some (to_signed bits (ival x)).
Proof.
  intros Hb. unfold wrapping_signed. destruct (Z.eqb_spec bits 0), (Z.ltb_spec 64 bits); try lia. simpl.
  pose proof (pow2_le_u64 bits Hb).
  assert (Hm : bi_val (bi_mod_floor x.(int_value) (bi_shl (bi_from 1) bits)) = ival x mod 2 ^ bits).
  { apply bi_val_mod_pow2. lia. }
  rewrite bi_to_i64_val, bi_compare_val, Hm, bi_val_pow2 by lia.
  assert (Hr : bi_val (match ival x mod 2 ^ bits ?= 2 ^ (bits - 1) with
      | Lt => bi_mod_floor x.(int_value) (bi_shl (bi_from 1) bits)
      | _ => bi_sub (bi_mod_floor x.(int_value) (bi_shl (bi_from 1) bits)) (bi_shl (bi_from 1) bits)
    end) = to_signed bits (ival x)).
  { rewrite signed_of_unsigned by lia. unfold Z.ltb.
    destruct (ival x mod 2 ^ bits ?= 2 ^ (bits - 1)); rewrite ?bi_val_sub, Hm, ?bi_val_pow2 by lia; done. }
  rewrite Hr. apply in_range_Some.
  pose proof (to_signed_range bits (ival x) ltac:(lia)) as H1. unfold in_signed in H1.
  pose proof (Z.pow_le_mono_r 2 (bits - 1) 63 ltac:(lia) ltac:(lia)). unfold i64_min, i64_max. lia.
Qed.

Lemma limited_val x :
  limited x = if (0 <=? ival x) && (ival x <=? max_literal_exponent) then Some (ival x) else None.
Proof.
  unfold limited, to_u64. rewrite bi_to_u64_val. unfold in_range. fold (ival x).
  destruct (Z.leb_spec 0 (ival x)); [|done]. simpl.
  destruct (Z.leb_spec (ival x) u64_max); simpl.
  - by destruct (Z.ltb_spec max_literal_exponent (ival x)), (Z.leb_spec (ival x) max_literal_exponent); try lia.
  - destruct (Z.leb_spec (ival x) max_literal_exponent); [|done]. unfold max_literal_exponent, u64_max in *. lia.
Qed.

(** An operation returns a literal of value [v] exactly when [c] holds. *)
Definition int_result (o : option (IntLiteral B)) (c : bool) (v : Z) : Prop :=
  if c then ∃ r, o = Some r ∧ ival r = v else o = None.

(** C37: materializing an integer literal in a lane of [bits] bits never fails
    for a width of 1 to 64 and yields the two's-complement residue of the
    exact value; any other width is refused.  Materializing without wrapping
    succeeds exactly on the values the type holds. *)
Theorem int_materialization x :
  (∀ bits, 1 <= bits <= 64 →
    wrapping_unsigned x bits = Some (to_unsigned bits (ival x)) ∧
    wrapping_signed x bits = Some (to_signed bits (ival x))) ∧
  (∀ bits, bits = 0 ∨ 64 < bits → wrapping_unsigned x bits = None ∧ wrapping_signed x bits = None) ∧
  (∀ v, to_i64 x = Some v ↔ v = ival x ∧ in_signed 64 v) ∧
  (∀ v, to_u64 x = Some v ↔ v = ival x ∧ in_unsigned 64 v).
Proof.
  split_and!.
  - intros bits Hb. split; [by apply wrapping_unsigned_val|by apply wrapping_signed_val].
  - intros bits Hb. unfold wrapping_unsigned, wrapping_signed.
    by destruct (Z.eqb_spec bits 0), (Z.ltb_spec 64 bits); try lia.
  - intros v. unfold to_i64. rewrite bi_to_i64_val, in_range_iff. unfold in_signed, i64_min, i64_max.
    change (2 ^ (64 - 1)) with (2 ^ 63). fold (ival x). lia.
  - intros v. unfold to_u64. rewrite bi_to_u64_val, in_range_iff. unfold in_unsigned, u64_max. fold (ival x). lia.
Qed.

(** Integer literal arithmetic is exact.  Division and remainder floor and
    fail only on a zero divisor; powers and shifts fail exactly when their
    count is negative or above the resource limit. *)
Theorem int_arithmetic x y :
  ival (int_neg x) = - ival x ∧
  ival (int_add x y) = ival x + ival y ∧
  ival (int_sub x y) = ival x - ival y ∧
  ival (int_mul x y) = ival x * ival y ∧
  int_result (int_floor_div x y) (negb (ival y =? 0)) (ival x / ival y) ∧
  int_result (int_floor_mod x y) (negb (ival y =? 0)) (ival x mod ival y) ∧
  (let counted := (0 <=? ival y) && (ival y <=? 1000000) in
   int_result (int_pow x y) counted (ival x ^ ival y) ∧
   int_result (int_shl x y) counted (Z.shiftl (ival x) (ival y)) ∧
   int_result (int_shr x y) counted (Z.shiftr (ival x) (ival y))).
Proof.
  unfold int_result. split_and!; try (unfold ival; simpl; by autorewrite with bigint).
  - unfold int_floor_div, int_is_zero. rewrite bi_is_zero_val. fold (ival y).
    destruct (Z.eqb_spec (ival y) 0); simpl; [done|]. eexists; split; [done|]. by apply bi_val_div_floor.
  - unfold int_floor_mod, int_is_zero. rewrite bi_is_zero_val. fold (ival y).
    destruct (Z.eqb_spec (ival y) 0); simpl; [done|]. eexists; split; [done|]. by apply bi_val_mod_floor.
  - unfold int_pow. rewrite limited_val. unfold max_literal_exponent, u32_max.
    destruct (Z.leb_spec 0 (ival y)), (Z.leb_spec (ival y) 1000000); cbn [andb mbind option_bind]; try done.
    case_match eqn:Hl; [apply Z.ltb_lt in Hl; simpl in Hl; lia|].
    eexists; split; [done|]. by apply bi_val_pow.
  - unfold int_shl. rewrite limited_val. unfold max_literal_exponent.
    destruct (Z.leb_spec 0 (ival y)), (Z.leb_spec (ival y) 1000000); cbn [andb]; try done.
    rewrite Z.shiftl_mul_pow2 by lia. eexists; split; [done|]. by apply bi_val_shl.
  - unfold int_shr. rewrite limited_val. unfold max_literal_exponent.
    destruct (Z.leb_spec 0 (ival y)), (Z.leb_spec (ival y) 1000000); cbn [andb]; try done.
    rewrite Z.shiftr_div_pow2 by lia. eexists; split; [done|]. by apply bi_val_shr.
Qed.
End int_meaning.

Section float_meaning.
#[local] Set Default Proof Using "Type*".
Context {B R : Type} `{!BigInt B, !BigRational B R, !BigIntLaws B, !BigRationalLaws B R}.
Implicit Types (f g : FloatLiteral R).

Definition fval (f : FloatLiteral R) : Q := rat_val (B:=B) f.(value).

(** The stored sign only marks a zero. *)
Definition float_wf (f : FloatLiteral R) : Prop := f.(negative_zero) = true → (fval f == 0)%Q.

Lemma float_is_zero_true f : float_is_zero (B:=B) f = true ↔ (fval f == 0)%Q.
Proof. unfold float_is_zero. rewrite rat_is_zero_val. apply Qeq_bool_iff. Qed.

Lemma float_is_zero_false f : float_is_zero (B:=B) f = false ↔ ¬ (fval f == 0)%Q.
Proof. by rewrite <- float_is_zero_true, not_true_iff_false. Qed.

Lemma sign_negative_true f :
  sign_negative (B:=B) f = true ↔ (fval f < 0 ∨ fval f == 0 ∧ f.(negative_zero) = true)%Q.
Proof.
  unfold sign_negative. rewrite orb_true_iff, andb_true_iff, rat_is_negative_val, rat_is_zero_val.
  rewrite negb_true_iff, <- not_true_iff_false, Qle_bool_iff, Qeq_bool_iff. fold (fval f).
  assert (¬ (0 <= fval f) ↔ fval f < 0)%Q as ->; [|done]. split; [apply Qnot_le_lt|apply Qlt_not_le].
Qed.

Lemma fval_from_rational v : fval (from_rational v) = rat_val (B:=B) v.
Proof. done. Qed.

Lemma sign_zero_spec v negative :
  float_wf (sign_zero (B:=B) (from_rational v) negative) ∧
  fval (sign_zero (B:=B) (from_rational v) negative) = rat_val (B:=B) v ∧
  ((rat_val (B:=B) v == 0)%Q → (sign_zero (B:=B) (from_rational v) negative).(negative_zero) = negative).
Proof.
  unfold sign_zero, float_wf. destruct (float_is_zero (from_rational v)) eqn:Hz; simpl.
  - apply float_is_zero_true in Hz. done.
  - apply float_is_zero_false in Hz. split_and!; [done|done|]. intros H. by destruct Hz.
Qed.

Lemma sign_zero_value f : (fval f == 0)%Q → sign_negative (B:=B) f = f.(negative_zero).
Proof.
  intros Hz. destruct (negative_zero f) eqn:Hn.
  - apply sign_negative_true. by right.
  - apply not_true_iff_false. rewrite sign_negative_true. intros [H|[_ H]]; [lra|congruence].
Qed.

(** The sign of a rational. *)
Definition Qneg (q : Q) : bool := negb (Qle_bool 0 q).

Lemma Qneg_true q : Qneg q = true ↔ (q < 0)%Q.
Proof.
  unfold Qneg. rewrite negb_true_iff, <- not_true_iff_false, Qle_bool_iff.
  split; [apply Qnot_le_lt|apply Qlt_not_le].
Qed.

Lemma Qneg_false q : Qneg q = false ↔ (0 <= q)%Q.
Proof. unfold Qneg. rewrite negb_false_iff. apply Qle_bool_iff. Qed.

#[local] Instance Qneg_proper : Proper (Qeq ==> eq) Qneg.
Proof. intros p q Hpq. apply eq_true_iff_eq. rewrite !Qneg_true. by rewrite Hpq. Qed.

Lemma Qneg_cases q :
  ¬ (q == 0)%Q → (q < 0 ∧ Qneg q = true)%Q ∨ (0 < q ∧ Qneg q = false)%Q.
Proof.
  intros Hq. destruct (Qneg q) eqn:H; [left; split; [by apply Qneg_true|done]|right; split; [|done]].
  apply Qneg_false in H. apply Qle_lteq in H as [?|H]; [done|]. by rewrite <- H in Hq.
Qed.

Lemma Qneg_mul p q : ¬ (p == 0)%Q → ¬ (q == 0)%Q → Qneg (p * q) = xorb (Qneg p) (Qneg q).
Proof.
  intros [[Hp ->]|[Hp ->]]%Qneg_cases [[Hq ->]|[Hq ->]]%Qneg_cases; simpl.
  all: (apply Qneg_true; nra) || (apply Qneg_false; nra).
Qed.

Lemma Qneg_inv q : Qneg (/ q) = Qneg q.
Proof. by destruct q as [[|n|n] d]. Qed.

Lemma Qneg_opp q : ¬ (q == 0)%Q → Qneg (- q) = negb (Qneg q).
Proof.
  intros [[Hp ->]|[Hp ->]]%Qneg_cases; simpl; [apply Qneg_false|apply Qneg_true]; lra.
Qed.

Lemma sign_nonzero f : ¬ (fval f == 0)%Q → sign_negative (B:=B) f = Qneg (fval f).
Proof.
  intros Hz. unfold sign_negative. rewrite rat_is_negative_val. fold (fval f).
  assert (rat_is_zero (B:=B) (value f) = false) as -> by by apply float_is_zero_false. apply orb_false_r.
Qed.

(** A result the sign rule of multiplication applies to. *)
Lemma sign_zero_xor f g v :
  (rat_val (B:=B) v == 0 → fval f == 0 ∨ fval g == 0)%Q →
  (¬ rat_val (B:=B) v == 0 → ¬ fval f == 0 ∧ ¬ fval g == 0 ∧
    Qneg (rat_val (B:=B) v) = xorb (Qneg (fval f)) (Qneg (fval g)))%Q →
  sign_negative (B:=B) (sign_zero (B:=B) (from_rational v) (xorb (sign_negative (B:=B) f) (sign_negative (B:=B) g)))
  = xorb (sign_negative (B:=B) f) (sign_negative (B:=B) g).
Proof.
  intros Hz Hnz. destruct (sign_zero_spec v (xorb (sign_negative (B:=B) f) (sign_negative (B:=B) g))) as (_ & Hv & Hs).
  destruct (Qeq_dec (rat_val (B:=B) v) 0) as [H|H].
  - rewrite sign_zero_value by by rewrite Hv. by apply Hs.
  - destruct (Hnz H) as (Hf & Hg & Hx). rewrite sign_nonzero by by rewrite Hv.
    rewrite Hv, Hx. by rewrite !sign_nonzero.
Qed.

Lemma float_add_spec f g :
  float_wf (float_add (B:=B) f g) ∧
  (fval (float_add (B:=B) f g) == fval f + fval g)%Q ∧
  ((fval f + fval g == 0)%Q →
    sign_negative (B:=B) (float_add (B:=B) f g) = sign_negative (B:=B) f && sign_negative (B:=B) g).
Proof.
  unfold float_add. set (n := _ && _ && _ && _).
  destruct (sign_zero_spec (rat_add (B:=B) f.(value) g.(value)) n) as (Hw & Hv & Hs).
  rewrite rat_val_add in Hs. fold (fval f) (fval g) in Hs.
  split_and!; [done|by rewrite Hv, rat_val_add|]. intros Hz.
  rewrite sign_zero_value by by rewrite Hv, rat_val_add. rewrite Hs by done. subst n.
  destruct (Qeq_dec (fval f) 0) as [Hf|Hf].
  - assert (fval g == 0)%Q as Hg by lra. rewrite !sign_zero_value by done.
    by rewrite (proj2 (float_is_zero_true f)), (proj2 (float_is_zero_true g)).
  - assert (¬ fval g == 0)%Q as Hg by (intros ?; apply Hf; lra).
    rewrite (proj2 (float_is_zero_false f)) by done. simpl. rewrite !sign_nonzero by done.
    assert (fval g == - fval f)%Q as -> by lra. rewrite Qneg_opp by done. by destruct (Qneg _).
Qed.

Lemma float_neg_spec f :
  (float_wf (float_neg (B:=B) f)) ∧ (fval (float_neg (B:=B) f) == - fval f)%Q ∧
  sign_negative (B:=B) (float_neg (B:=B) f) = negb (sign_negative (B:=B) f).
Proof.
  assert (Hv : (fval (float_neg (B:=B) f) == - fval f)%Q) by apply rat_val_neg.
  destruct (Qeq_dec (fval f) 0) as [Hf|Hf].
  - split_and!; [intros _; lra|done|]. rewrite !sign_zero_value by (done || lra). simpl.
    by rewrite (proj2 (float_is_zero_true f)).
  - split_and!; [|done|].
    + intros H. simpl in H. by rewrite (proj2 (float_is_zero_false f)) in H.
    + rewrite !sign_nonzero by (try done; intros ?; apply Hf; lra). by rewrite Hv, Qneg_opp.
Qed.

Lemma float_mul_spec f g :
  float_wf (float_mul (B:=B) f g) ∧ (fval (float_mul (B:=B) f g) == fval f * fval g)%Q ∧
  sign_negative (B:=B) (float_mul (B:=B) f g) = xorb (sign_negative (B:=B) f) (sign_negative (B:=B) g).
Proof.
  unfold float_mul. set (n := xorb _ _). destruct (sign_zero_spec (rat_mul (B:=B) f.(value) g.(value)) n) as (Hw & Hv & _).
  split_and!; [done|by rewrite Hv, rat_val_mul|]. apply sign_zero_xor; rewrite rat_val_mul; fold (fval f) (fval g).
  - apply Qmult_integral.
  - intros H. split_and!; [intros H0; apply H; rewrite H0; ring..|].
    apply Qneg_mul; intros H0; apply H; rewrite H0; ring.
Qed.

Lemma Qdiv_zero_inv p q : ¬ (q == 0)%Q → (p / q == 0)%Q → (p == 0)%Q.
Proof. intros Hq H. rewrite <- (Qmult_div_r p q Hq), H. ring. Qed.

Lemma float_div_spec f g :
  ¬ (fval g == 0)%Q →
  ∃ q, float_div (B:=B) f g = Some q ∧ float_wf q ∧ (fval q == fval f / fval g)%Q ∧
    sign_negative (B:=B) q = xorb (sign_negative (B:=B) f) (sign_negative (B:=B) g).
Proof.
  intros Hg. unfold float_div. rewrite (proj2 (float_is_zero_false g)) by done.
  set (n := xorb _ _). destruct (sign_zero_spec (rat_div (B:=B) f.(value) g.(value)) n) as (Hw & Hv & _).
  assert (Hd : (rat_val (B:=B) (rat_div (B:=B) f.(value) g.(value)) == fval f / fval g)%Q) by by apply rat_val_div.
  eexists. split_and!; [done|done|by rewrite Hv|]. apply sign_zero_xor; rewrite Hd.
  - left. by eapply Qdiv_zero_inv.
  - intros H. assert (Hf : ¬ (fval f == 0)%Q) by (intros H0; apply H; rewrite H0; unfold Qdiv; ring).
    split_and!; [done|done|]. unfold Qdiv. rewrite Qneg_mul, Qneg_inv by (try done; intros H0; apply H; unfold Qdiv; rewrite H0; ring).
    done.
Qed.

Lemma float_floor_div_spec f g :
  ¬ (fval g == 0)%Q →
  ∃ q, float_floor_div f g = Some q ∧ float_wf q ∧ (fval q == inject_Z (Qfloor (fval f / fval g)))%Q.
Proof.
  intros Hg. destruct (float_div_spec f g Hg) as (q & Hq & _ & Hv & _).
  unfold float_floor_div. rewrite Hq. cbn [mbind option_bind]. eexists. split_and!; [done|done|].
  rewrite fval_from_rational, rat_val_from_integer.
  rewrite bi_val_div_floor, rat_val_numer, rat_val_denom by (rewrite rat_val_denom; lia).
  rewrite <- (Qfloor_comp _ _ Hv), <- (Qfloor_comp _ _ (Qred_correct (fval q))).
  unfold fval. by destruct (Qred _).
Qed.

Lemma float_zero_divisor f g :
  (fval g == 0)%Q →
  float_div (B:=B) f g = None ∧ float_floor_div (B:=B) f g = None ∧ float_floor_mod (B:=B) f g = None.
Proof.
  intros Hg%float_is_zero_true. assert (float_div (B:=B) f g = None) as H by (unfold float_div; by rewrite Hg).
  unfold float_floor_mod, float_floor_div. by rewrite H.
Qed.

Lemma Qfloor_remainder p q :
  ¬ (q == 0)%Q → let r := (p - q * inject_Z (Qfloor (p / q)))%Q in
  ((0 < q → 0 <= r < q) ∧ (q < 0 → q < r <= 0))%Q.
Proof.
  intros Hq r. pose proof (Qfloor_le (p / q)) as H1. pose proof (Qlt_floor (p / q)) as H2.
  rewrite inject_Z_plus in H2. assert (Hr : (r == q * (p / q - inject_Z (Qfloor (p / q))))%Q).
  { subst r. transitivity (q * (p / q) - q * inject_Z (Qfloor (p / q)))%Q; [|ring].
    by rewrite Qmult_div_r by done. }
  split; intros Hs; rewrite Hr; (generalize dependent (p / q)%Q; intros x ?; intros; clear Hr r;
    generalize dependent (inject_Z (Qfloor x)); intros y ? ?; change (inject_Z 1) with 1%Q in *; split; nra).
Qed.

(** C38: float literal arithmetic computes the exact rational result and
    carries the IEEE sign of a zero through it: negation flips every sign, a
    product or quotient takes the exclusive or of its operands' signs, and a
    sum that is zero is negative only when both addends are.  The stored sign
    of a result marks zeros only, and division fails exactly on a zero
    divisor. *)
Theorem float_arithmetic f g :
  (float_wf (float_neg (B:=B) f) ∧ (fval (float_neg (B:=B) f) == - fval f)%Q ∧
    sign_negative (B:=B) (float_neg (B:=B) f) = negb (sign_negative (B:=B) f)) ∧
  (float_wf (float_add (B:=B) f g) ∧ (fval (float_add (B:=B) f g) == fval f + fval g)%Q ∧
    ((fval f + fval g == 0)%Q →
      sign_negative (B:=B) (float_add (B:=B) f g) = sign_negative (B:=B) f && sign_negative (B:=B) g)) ∧
  (float_wf (float_sub (B:=B) f g) ∧ (fval (float_sub (B:=B) f g) == fval f - fval g)%Q ∧
    ((fval f - fval g == 0)%Q →
      sign_negative (B:=B) (float_sub (B:=B) f g) = sign_negative (B:=B) f && negb (sign_negative (B:=B) g))) ∧
  (float_wf (float_mul (B:=B) f g) ∧ (fval (float_mul (B:=B) f g) == fval f * fval g)%Q ∧
    sign_negative (B:=B) (float_mul (B:=B) f g) = xorb (sign_negative (B:=B) f) (sign_negative (B:=B) g)) ∧
  ((fval g == 0)%Q → float_div (B:=B) f g = None) ∧
  (¬ (fval g == 0)%Q → ∃ q, float_div (B:=B) f g = Some q ∧ float_wf q ∧ (fval q == fval f / fval g)%Q ∧
    sign_negative (B:=B) q = xorb (sign_negative (B:=B) f) (sign_negative (B:=B) g)).
Proof.
  destruct (float_neg_spec g) as (_ & Hv & Hs).
  split_and!; try (apply float_neg_spec || apply float_add_spec || apply float_mul_spec || apply float_div_spec).
  - unfold Qminus. rewrite <- Hv. apply float_add_spec.
  - unfold Qminus. intros H. unfold float_sub. rewrite <- Hs. apply float_add_spec. by rewrite Hv.
  - apply float_zero_divisor.
Qed.

(** Float literals divide with the floor.  For a nonzero divisor the
    quotient is the largest integer below the exact one, the remainder takes
    the divisor's sign and is smaller than it, and the two recompose the
    dividend; a zero divisor has neither. *)
Theorem float_floor_division f g :
  ((fval g == 0)%Q → float_floor_div f g = None ∧ float_floor_mod f g = None) ∧
  (¬ (fval g == 0)%Q → ∃ q r,
    float_floor_div f g = Some q ∧ float_floor_mod f g = Some r ∧
    (fval q == inject_Z (Qfloor (fval f / fval g)))%Q ∧
    (fval f == fval g * fval q + fval r)%Q ∧
    ((0 < fval g → 0 <= fval r < fval g) ∧ (fval g < 0 → fval g < fval r <= 0))%Q).
Proof.
  split.
  - intros Hg. by destruct (float_zero_divisor f g Hg) as (_ & ? & ?).
  - intros Hg. destruct (float_floor_div_spec f g Hg) as (q & Hq & _ & Hv).
    assert (Hr : (fval (float_sub (B:=B) f (float_mul (B:=B) g q)) == fval f - fval g * inject_Z (Qfloor (fval f / fval g)))%Q).
    { destruct (float_mul_spec g q) as (_ & Hm & _). unfold float_sub.
      destruct (float_neg_spec (float_mul (B:=B) g q)) as (_ & Hn & _).
      destruct (float_add_spec f (float_neg (B:=B) (float_mul (B:=B) g q))) as (_ & -> & _).
      rewrite Hn, Hm, Hv. ring. }
    exists q. eexists. split_and!; [done|unfold float_floor_mod; by rewrite Hq|done|rewrite Hr, Hv; ring|..].
    all: rewrite Hr; by apply Qfloor_remainder.
Qed.

(** *** Text *)

(** A decimal spelling: whole digits, a fraction, an exponent. *)
Definition decimal_text (whole : str) (fraction : option str) (exponent : option (char * str)) : str :=
  whole ++ match fraction with Some f => ch "." :: f | None => [] end
        ++ match exponent with Some (c, e) => c :: e | None => [] end.

(** The exponent part stands for [v]. *)
Definition exponent_reads (exponent : option (char * str)) (v : Z) : Prop :=
  match exponent with
  | Some (c, e) => (c = ch "e" ∨ c = ch "E") ∧ parse_i64 e = Some v
  | None => v = 0
  end.

Lemma is_digit_10 c : is_digit c 10 = true → ch "0" <= c <= ch "9".
Proof.
  unfold is_digit, to_digit, is_ascii_digit, char_in.
  change (ch "0") with 48. change (ch "9") with 57. change (ch "a") with 97. change (ch "z") with 122.
  change (ch "A") with 65. change (ch "Z") with 90.
  destruct (Z.leb_spec 48 c), (Z.leb_spec c 57); simpl; try lia.
  all: intros Hd%bool_decide_eq_true; destruct Hd as [? Hd]; revert Hd.
  all: repeat case_match; simpl; try done; case_match; done || lia.
Qed.

Lemma all_digits_Forall ds : all_digits 10 ds = true → Forall (λ c, ch "0" <= c <= ch "9") ds.
Proof.
  induction ds as [|c ds IH]; [constructor|]. intros [Hc Hd]%andb_true_iff.
  constructor; [by apply is_digit_10|by apply IH].
Qed.

Lemma all_digits_app ds ds' : all_digits 10 (ds ++ ds') = all_digits 10 ds && all_digits 10 ds'.
Proof. apply forallb_app. Qed.

Lemma digits_str_len ds : all_digits 10 ds = true → str_len ds = length ds.
Proof.
  intros H%all_digits_Forall. induction H as [|c ds Hc _ IH]; [done|]. simpl.
  rewrite len_utf8_ascii, IH; [done|]. change (ch "9") with 57 in Hc. lia.
Qed.

Lemma digits_no (p : char → bool) ds :
  all_digits 10 ds = true → (∀ c, ch "0" <= c <= ch "9" → p c = false) → Forall (λ c, p c = false) ds.
Proof. intros H%all_digits_Forall Hp. eapply Forall_impl; [exact H|]. done. Qed.

Lemma exponent_split whole fraction exponent v :
  all_digits 10 whole = true → all_digits 10 (default [] fraction) = true → exponent_reads exponent v →
  match split_once (λ c, (c =? ch "e") || (c =? ch "E")) (decimal_text whole fraction exponent) with
  | Some (mantissa, e) => e ← parse_i64 e; Some (mantissa, e)
  | None => Some (decimal_text whole fraction exponent, 0)
  end = Some (decimal_text whole fraction None, v).
Proof.
  intros Hw Hf He.
  assert (Hno : Forall (λ c, (c =? ch "e") || (c =? ch "E") = false) (decimal_text whole fraction None)).
  { assert (Hp : ∀ c, ch "0" <= c <= ch "9" → (c =? ch "e") || (c =? ch "E") = false).
    { intros c. change (ch "9") with 57. change (ch "e") with 101. change (ch "E") with 69. lia. }
    unfold decimal_text. apply Forall_app. split; [by apply digits_no|]. rewrite app_nil_r.
    destruct fraction as [f|]; [|constructor]. constructor; [done|]. by apply digits_no. }
  destruct exponent as [[c e]|]; simpl in He.
  - destruct He as [Hc He]. replace (decimal_text whole fraction (Some (c, e))) with
      (decimal_text whole fraction None ++ c :: e) by (unfold decimal_text; by rewrite app_nil_r, app_assoc).
    rewrite split_once_app; [by rewrite He|done|]. by destruct Hc as [-> | ->].
  - subst v. apply split_once_None in Hno. by rewrite Hno.
Qed.

Lemma fraction_split whole fraction :
  all_digits 10 whole = true →
  default (decimal_text whole fraction None, []) (split_once (Z.eqb (ch ".")) (decimal_text whole fraction None))
  = (whole, default [] fraction).
Proof.
  intros Hw. assert (Hno : Forall (λ c, (ch "." =? c) = false) whole).
  { apply digits_no; [done|]. intros c. change (ch ".") with 46. change (ch "0") with 48. lia. }
  unfold decimal_text. rewrite app_nil_r. destruct fraction as [f|].
  - by rewrite split_once_app.
  - rewrite app_nil_r. apply split_once_None in Hno. by rewrite Hno.
Qed.

Lemma decimal_power_val scale :
  decimal_power scale = if scale <=? max_literal_exponent then Some scale else None.
Proof.
  unfold decimal_power, u32_max, max_literal_exponent.
  destruct (Z.ltb_spec (2 ^ 32 - 1) scale), (Z.ltb_spec 1000000 scale), (Z.leb_spec scale 1000000); try done; lia.
Qed.

Lemma bi_val_ten_pow n : 0 <= n → (inject_Z (bi_val (bi_ten_pow (B:=B) n)) == Qpower 10 n)%Q.
Proof. intros Hn. unfold bi_ten_pow. rewrite bi_val_pow, bi_val_from by done. by apply Zpower_Qpower. Qed.

(** The numerator of a decimal spelling. *)
Lemma decimal_digits whole ds :
  all_digits 10 whole = true → all_digits 10 ds = true →
  bi_parse_bytes ((if bool_decide (whole = []) then lit "0" else whole) ++ ds) 10
  = Some (bi_from (B:=B) (digits_value 10 0 (whole ++ ds))).
Proof.
  intros Hw Hf. case_bool_decide as Hn.
  - subst whole. rewrite bi_parse_digits; [done|lia|done|]. by rewrite all_digits_app, Hf.
  - rewrite bi_parse_digits; [done|lia| |by rewrite all_digits_app, Hw, Hf]. by destruct whole.
Qed.

(** A decimal spelling parses to its exact value.  Whole digits, an
    optional fraction and an optional exponent denote their digits scaled by a
    power of ten, with no rounding; the spelling is refused exactly when the
    scale passes the resource limit of a million places, in either direction. *)
Theorem parse_decimal_exact whole fraction exponent v
    (Hwhole : all_digits 10 whole = true) (Hfraction : all_digits 10 (default [] fraction) = true)
    (Hexponent : exponent_reads exponent v)
    (Hplaces : Z.of_nat (length (default [] fraction)) <= i64_max) :
  let scale := Z.of_nat (length (default [] fraction)) - v in
  let text := decimal_text whole fraction exponent in
  if Z.abs scale <=? 1000000 then
    ∃ f, parse_decimal (B:=B) text = Some f ∧ f.(negative_zero) = false ∧
      (fval f == inject_Z (digits_value 10 0 (whole ++ default [] fraction)) * Qpower 10 (- scale))%Q
  else parse_decimal (B:=B) text = None.
Proof.
  intros scale text. unfold parse_decimal. subst text. rewrite (exponent_split _ _ _ v) by done.
  cbn [mbind option_bind]. rewrite fraction_split, decimal_digits by done. cbn [mbind option_bind].
  rewrite digits_str_len by done. set (n := digits_value _ _ _). fold scale.
  destruct (Z.ltb_spec i64_max (Z.of_nat (length (default [] fraction)))) as [?|_]; [lia|].
  destruct (decide (i64_min <= scale <= i64_max)) as [Hs|Hs].
  2:{ rewrite in_range_None by done. destruct (Z.leb_spec (Z.abs scale) 1000000); [|done].
      unfold i64_min, i64_max in *. lia. }
  rewrite in_range_Some by done. cbn [mbind option_bind]. destruct (Z.leb_spec 0 scale) as [H0|H0].
  - rewrite decimal_power_val, Z.abs_eq by done. unfold max_literal_exponent.
    destruct (Z.leb_spec scale 1000000); [|done]. eexists. split_and!; [done|done|].
    assert (Hp : ¬ (Qpower 10 scale == 0)%Q) by by apply Qpower_not_0.
    rewrite fval_from_rational, rat_val_new, bi_val_ten_pow, bi_val_from, Qpower_opp; [done|lia|].
    unfold bi_ten_pow. rewrite bi_val_pow, bi_val_from by done. lia.
  - destruct (decide (- scale <= i64_max)) as [Hn|Hn].
    2:{ rewrite in_range_None by lia. destruct (Z.leb_spec (Z.abs scale) 1000000); [|done].
        unfold i64_max in *. lia. }
    rewrite in_range_Some by (unfold i64_min; lia). cbn [mbind option_bind].
    rewrite decimal_power_val, Z.abs_neq by lia. unfold max_literal_exponent.
    destruct (Z.leb_spec (- scale) 1000000); [|done]. eexists. split_and!; [done|done|].
    rewrite fval_from_rational, rat_val_from_integer, bi_val_mul, inject_Z_mult, bi_val_ten_pow, bi_val_from by lia.
    done.
Qed.

Lemma display_no (p : char → bool) (a : B) :
  p (ch "-") = false → (∀ c, ch "0" <= c <= ch "9" → p c = false) → Forall (λ c, p c = false) (bi_display a).
Proof.
  intros Hm Hp. destruct (bi_display_val a) as (ds & _ & Hd & _ & ->).
  pose proof (digits_no p ds Hd Hp). by case_match; [constructor|].
Qed.

Lemma parse_display (a : B) : bi_parse_bytes (bi_display a) 10 = Some a.
Proof.
  destruct (bi_display_val a) as (ds & Hne & Hd & Hv & ->).
  destruct (Z.ltb_spec (bi_val a) 0).
  - rewrite bi_parse_negative by (done || lia). f_equal. apply bi_val_inj. rewrite bi_val_from. lia.
  - rewrite bi_parse_digits by (done || lia). f_equal. apply bi_val_inj. rewrite bi_val_from. lia.
Qed.

Lemma display_not_negative_zero (a : B) rest : bi_display a ++ rest ≠ lit "-0" ++ rest.
Proof.
  intros H%app_inv_tail. destruct (bi_display_val a) as (ds & _ & Hd & Hv & Ha). rewrite Ha in H.
  destruct (Z.ltb_spec (bi_val a) 0).
  - injection H as Hds. assert (digits_value 10 0 ds = 0) by by rewrite Hds. lia.
  - subst ds. done.
Qed.

(** The artifact spelling of a float literal, a signed zero, a whole
    number or a reduced fraction, reads back as the same literal. *)
Theorem parse_exact_display f (Hwf : float_wf f) : parse_exact (B:=B) (float_display (B:=B) f) = Some f.
Proof.
  assert (Hval : ∀ v, (rat_val (B:=B) v == fval f)%Q → f.(negative_zero) = false → from_rational v = f).
  { intros v Hv Hn. destruct f as [w n]. simpl in Hn. subst n. unfold from_rational. f_equal. by eapply rat_val_inj. }
  unfold float_display. destruct (float_is_zero f && f.(negative_zero)) eqn:Hz.
  { apply andb_true_iff in Hz as [Hz%float_is_zero_true Hn]. unfold parse_exact. rewrite bool_decide_eq_true_2 by done.
    destruct f as [w n]. simpl in Hn. subst n. do 2 f_equal. apply rat_val_inj. rewrite rat_val_from_integer, bi_val_from.
    by rewrite Hz. }
  assert (Hn : f.(negative_zero) = false).
  { destruct (negative_zero f) eqn:Hn; [|done]. by rewrite (proj2 (float_is_zero_true f) (Hwf Hn)) in Hz. }
  assert (Hq : (Qred (fval f) == fval f)%Q) by apply Qred_correct.
  destruct (Z.eqb_spec (bi_val (rat_denom f.(value))) 1) as [Hd|Hd]; unfold parse_exact.
  - rewrite bool_decide_eq_false_2 by apply (display_not_negative_zero _ (lit ".0")).
    assert (split_once (Z.eqb (ch "/")) (bi_display (rat_numer (B:=B) f.(value)) ++ lit ".0") = None) as ->.
    { apply split_once_None, Forall_app. split; [|by repeat constructor]. apply display_no; [done|].
      intros c. change (ch "/") with 47. change (ch "0") with 48. lia. }
    rewrite strip_suffix_app. cbn [mbind option_bind]. rewrite parse_display. cbn [mbind option_bind]. f_equal.
    apply Hval; [|done]. rewrite rat_val_from_integer, rat_val_numer. rewrite rat_val_denom in Hd. rewrite <- Hq.
    unfold fval in *. destruct (Qred (rat_val (value f))) as [n d]. simpl in *. by injection Hd as ->.
  - rewrite bool_decide_eq_false_2.
    2:{ intros H. assert (ch "/" ∈ lit "-0.0") as Hin by (rewrite <- H; apply elem_of_app; right; by left).
        apply (bool_decide_eq_true_2 (ch "/" ∈ lit "-0.0")) in Hin. by vm_compute in Hin. }
    rewrite split_once_app; [|apply display_no; [done|]|done].
    2:{ intros c. change (ch "/") with 47. change (ch "0") with 48. lia. }
    rewrite parse_display. cbn [mbind option_bind]. rewrite parse_display. cbn [mbind option_bind].
    rewrite bi_is_positive_val, rat_val_denom. simpl. f_equal. apply Hval; [|done].
    rewrite rat_val_new, rat_val_denom, rat_val_numer by (rewrite rat_val_denom; done). rewrite <- Hq.
    unfold fval. destruct (Qred (rat_val (value f))) as [n d]. simpl. rewrite <- Qmake_Qdiv. done.
Qed.
End float_meaning.

(** ** Witnesses *)

Lemma int_materialization_witness :
  wrapping_signed (mkInt 200) 8 = Some (-56) ∧ wrapping_unsigned (mkInt (-1)) 16 = Some 65535.
Proof.
  split.
  - destruct (int_materialization (mkInt 200)) as [H _]. apply (H 8). lia.
  - destruct (int_materialization (mkInt (-1))) as [H _]. apply (H 16). lia.
Defined.

Lemma int_arithmetic_witness : int_result (int_floor_mod (mkInt (-7)) (mkInt 2)) true 1.
Proof. destruct (int_arithmetic (mkInt (-7)) (mkInt 2)) as (_ & _ & _ & _ & _ & H & _). exact H. Defined.

(** The literal of a decimal spelling, over canonical fractions. *)
Definition decimal_literal (s : string) : FloatLiteral Qc :=
  default (from_rational (Q2Qc 0)) (parse_decimal (B:=Z) (lit s)).

Lemma float_arithmetic_witness :
  sign_negative (B:=Z) (float_mul (B:=Z) (float_neg (B:=Z) (decimal_literal "0.0")) (decimal_literal "2.5")) = true.
Proof.
  destruct (float_arithmetic (B:=Z) (float_neg (B:=Z) (decimal_literal "0.0")) (decimal_literal "2.5"))
    as (_ & _ & _ & (_ & _ & H) & _).
  rewrite H. vm_compute. reflexivity.
Defined.

Lemma float_floor_division_witness :
  ∃ q r, float_floor_div (B:=Z) (decimal_literal "7.5") (decimal_literal "2.0") = Some q ∧
    float_floor_mod (B:=Z) (decimal_literal "7.5") (decimal_literal "2.0") = Some r ∧
    (fval (B:=Z) (decimal_literal "7.5") == 2 * 3 + (3 # 2))%Q.
Proof.
  destruct (float_floor_division (B:=Z) (decimal_literal "7.5") (decimal_literal "2.0")) as [_ H].
  destruct H as (q & r & Hq & Hr & _); [vm_compute; discriminate|]. exists q, r. by split_and!.
Defined.

Lemma parse_decimal_exact_witness :
  ∃ f, parse_decimal (B:=Z) (R:=Qc) (lit "12.50e1") = Some f ∧ (fval (B:=Z) f == 125)%Q.
Proof.
  destruct (parse_decimal_exact (B:=Z) (R:=Qc) (lit "12") (Some (lit "50")) (Some (ch "e", lit "1")) 1)
    as (f & Hf & _ & Hv).
  1-4: vm_compute; try done; auto.
  exists f. split; [exact Hf|]. rewrite Hv. by vm_compute.
Defined.

Lemma parse_exact_display_witness :
  float_display (B:=Z) (decimal_literal "-2.25") = lit "-9/4" ∧
  parse_exact (B:=Z) (float_display (B:=Z) (decimal_literal "-2.25")) = Some (decimal_literal "-2.25").
Proof. split; [by vm_compute|]. apply (parse_exact_display (B:=Z)). by vm_compute. Defined.
