(* ===== verification/Token.v ===== *)
(** * Tokens (crates/mojito-common/src/token.rs, error.rs)

    The token type with its keyword table, and the lexer's errors.  Keyword and
    literal texts are character lists; a literal carries its value and its
    source spelling. *)

From S2P Require Import Prelude Text Literal.

(** A half-open byte range of the source. *)
Notation Span := (nat * nat)%type.

Inductive TStringChunk : Type := TText (s : str) | TInterp (s : str).

Inductive Token (B R : Type) : Type :=
| Var | Struct | Trait | Comptime | Raises | Enum | GeneratorType | IsRunInComptimeInterpreter
| Def | Lambda | Return | Pass | NoneKw | And | Or | Not | If | Elif | Else | While | For | In | Is
| With | Break | Continue | Raise | Try | Except | Finally | ImportKw | From | As
| ClassKw | Del | Match | Yield | Case
| Identifier (name : str)
| IntLit (v : IntLiteral B) (spelling : str)
| FloatLit (v : FloatLiteral R) (spelling : str)
| BoolLiteral (b : bool)
| StringLiteral (v spelling : str)
| TripleStringLiteral (v spelling : str)
| TString (chunks : list TStringChunk) (raw : bool)
| Assign | PlusEq | MinusEq | StarEq | SlashEq | DoubleSlashEq | PercentEq | DoubleStarEq
| AmpEq | PipeEq | CaretEq | ShlEq | ShrEq
| Colon | ColonEq | Comma | Semicolon | Dot | Ellipsis | At | Amp | Pipe | Caret | Tilde | Arrow
| LParen | RParen | LBracket | RBracket | LBrace | RBrace
| Plus | Minus | Star | DoubleStar | Slash | DoubleSlash | Percent
| EqEq | NotEq | TLt | TGt | TLe | TGe | Shl | Shr
| Newline | Indent | Dedent | Eof.

Arguments Var {B R}. Arguments Struct {B R}. Arguments Trait {B R}. Arguments Comptime {B R}.
Arguments Raises {B R}. Arguments Enum {B R}. Arguments GeneratorType {B R}.
Arguments IsRunInComptimeInterpreter {B R}. Arguments Def {B R}. Arguments Lambda {B R}.
Arguments Return {B R}. Arguments Pass {B R}. Arguments NoneKw {B R}. Arguments And {B R}.
Arguments Or {B R}. Arguments Not {B R}. Arguments If {B R}. Arguments Elif {B R}. Arguments Else {B R}.
Arguments While {B R}. Arguments For {B R}. Arguments In {B R}. Arguments Is {B R}. Arguments With {B R}.
Arguments Break {B R}. Arguments Continue {B R}. Arguments Raise {B R}. Arguments Try {B R}.
Arguments Except {B R}. Arguments Finally {B R}. Arguments ImportKw {B R}. Arguments From {B R}.
Arguments As {B R}. Arguments ClassKw {B R}. Arguments Del {B R}. Arguments Match {B R}.
Arguments Yield {B R}. Arguments Case {B R}. Arguments Identifier {B R} name.
Arguments IntLit {B R} v spelling. Arguments FloatLit {B R} v spelling. Arguments BoolLiteral {B R} b.
Arguments StringLiteral {B R} v spelling. Arguments TripleStringLiteral {B R} v spelling.
Arguments TString {B R} chunks raw. Arguments Assign {B R}. Arguments PlusEq {B R}. Arguments MinusEq {B R}.
Arguments StarEq {B R}. Arguments SlashEq {B R}. Arguments DoubleSlashEq {B R}. Arguments PercentEq {B R}.
Arguments DoubleStarEq {B R}. Arguments AmpEq {B R}. Arguments PipeEq {B R}. Arguments CaretEq {B R}.
Arguments ShlEq {B R}. Arguments ShrEq {B R}. Arguments Colon {B R}. Arguments ColonEq {B R}.
Arguments Comma {B R}. Arguments Semicolon {B R}. Arguments Dot {B R}. Arguments Ellipsis {B R}.
Arguments At {B R}. Arguments Amp {B R}. Arguments Pipe {B R}. Arguments Caret {B R}. Arguments Tilde {B R}.
Arguments Arrow {B R}. Arguments LParen {B R}. Arguments RParen {B R}. Arguments LBracket {B R}.
Arguments RBracket {B R}. Arguments LBrace {B R}. Arguments RBrace {B R}. Arguments Plus {B R}.
Arguments Minus {B R}. Arguments Star {B R}. Arguments DoubleStar {B R}. Arguments Slash {B R}.
Arguments DoubleSlash {B R}. Arguments Percent {B R}. Arguments EqEq {B R}. Arguments NotEq {B R}.
Arguments TLt {B R}. Arguments TGt {B R}. Arguments TLe {B R}. Arguments TGe {B R}. Arguments Shl {B R}.
Arguments Shr {B R}. Arguments Newline {B R}. Arguments Indent {B R}. Arguments Dedent {B R}.
Arguments Eof {B R}.

(** The fragments a token interpolates. *)
Definition interpolations {B R} (t : Token B R) : list str :=
  match t with
  | TString chunks _ => omap (λ c, match c with TInterp src => Some src | TText _ => None end) chunks
  | _ => []
  end.

Section keywords.
Context {B R : Type}.

(** [Token::keyword]: the reserved words, in the table's order. *)
Definition keyword_table : list (str * Token B R) :=
  [ (lit "var", Var); (lit "struct", Struct); (lit "trait", Trait);
    (lit "comptime", Comptime); (lit "raises", Raises);
    (lit "__generator_type", GeneratorType);
    (lit "__is_run_in_comptime_interpreter", IsRunInComptimeInterpreter);
    (lit "def", Def); (lit "lambda", Lambda); (lit "return", Return);
    (lit "pass", Pass); (lit "None", NoneKw); (lit "and", And); (lit "or", Or);
    (lit "not", Not); (lit "if", If); (lit "elif", Elif); (lit "else", Else);
    (lit "while", While); (lit "for", For); (lit "in", In); (lit "is", Is);
    (lit "with", With); (lit "break", Break); (lit "continue", Continue);
    (lit "raise", Raise); (lit "try", Try); (lit "except", Except);
    (lit "finally", Finally); (lit "import", ImportKw); (lit "from", From);
    (lit "as", As);
    (lit "class", ClassKw); (lit "del", Del); (lit "match", Match);
    (lit "yield", Yield); (lit "case", Case);
    (lit "True", BoolLiteral true); (lit "False", BoolLiteral false) ].

(** The first entry of an association list under [key]. *)
Fixpoint lookup_word {A} (key : str) (table : list (str * A)) : option A :=
  match table with
  | [] => None
  | (word, v) :: table => if bool_decide (key = word) then Some v else lookup_word key table
  end.

Definition keyword (text : str) : option (Token B R) := lookup_word text keyword_table.

Definition member_name_keyword (t : Token B R) : option str :=
  match t with
  | ClassKw => Some (lit "class")
  | Del => Some (lit "del")
  | Match => Some (lit "match")
  | Yield => Some (lit "yield")
  | Case => Some (lit "case")
  | _ => None
  end.

(** The layout tokens. *)
Definition is_layout (t : Token B R) : bool :=
  match t with Newline | Indent | Dedent => true | _ => false end.
End keywords.

(** ** Errors (error.rs) *)

Inductive LexError : Type :=
| IndentationError (pos : nat)
| UnmatchedParenthesis (pos : nat)
| UnexpectedCharacter (c : char) (pos : nat)
| InvalidInteger (pos : nat)
| InvalidFloat (pos : nat)
| UnterminatedString (pos : nat)
| UnterminatedIdentifier (pos : nat)
| InvalidEscape (c : char) (pos : nat).

Definition byte_pos (e : LexError) : nat :=
  match e with
  | IndentationError p | UnmatchedParenthesis p | UnexpectedCharacter _ p | InvalidInteger p
  | InvalidFloat p | UnterminatedString p | UnterminatedIdentifier p | InvalidEscape _ p => p
  end.
