(* ===== verification/Scanner.v ===== *)
(** * Scanning inside a token (crates/mojito-lexer/src/lexer.rs, lines 53-390)

    The methods that consume the text of one token: runs of digits, exponents,
    escapes, strings, t-strings and their interpolations.  They read [input]
    and move [pos] and touch nothing else of the lexer, so each is a function
    of the input from a position to a result and a position.  An error leaves
    the position where the source left it.

    A loop over the characters of a string literal runs on fuel, one unit an
    iteration; every iteration consumes a character, so more fuel than bytes
    left is enough ([string_body_post], [interp_post]). *)

From S2P Require Import Prelude Text Literal Token.
From Stdlib Require Import Ascii.

Local Open Scope Z_scope.

(** Characters without a printable spelling. *)
Definition nl : char := 10.
Definition cr : char := 13.
Definition tab : char := 9.
Definition dquote : char := 34.
Definition squote : char := 39.
Definition backslash : char := 92.
Definition backtick : char := 96.

(** ** The scanner monad *)

Definition Scan (A : Type) : Type := nat → outcome LexError A * nat.

#[export] Instance Scan_ret : MRet Scan := λ A a p, (Ok a, p).
#[export] Instance Scan_bind : MBind Scan := λ A B f m p,
  match m p with
  | (Ok a, p) => f a p
  | (Err e, p) => (Err e, p)
  | (Panic, p) => (Panic, p)
  | (Diverge, p) => (Diverge, p)
  end.

Definition lift {A} (r : outcome LexError A) : Scan A := λ p, (r, p).
Definition fail {A} (e : LexError) : Scan A := lift (Err e).
Definition diverge {A} : Scan A := lift Diverge.
Definition get_pos : Scan nat := λ p, (Ok p, p).
Definition advance (n : nat) : Scan unit := λ p, (Ok tt, p + n)%nat.

(** [u32] arithmetic that panics on overflow. *)
Definition checked_u32 (z : Z) : outcome LexError Z :=
  if (0 <=? z) && (z <=? u32_max) then Ok z else Panic.

Section scanner.
Context {B R : Type} `{!BigInt B, !BigRational B R}.
Context (input : str).

Definition remainder : Scan str := λ p, (unwrap (str_from input p), p).

(** [self.remainder().chars().next()]. *)
Definition peek : Scan (option char) := rem ← remainder; mret (head rem).

(** [&self.input[a..self.pos]]. *)
Definition slice_from (a : nat) : Scan str := λ p, (unwrap (str_slice input a p), p).

Definition skip_to_line_end : Scan unit :=
  rem ← remainder; advance (str_len (take_while (λ c, negb (c =? nl)) rem)).

Definition consume_digit_run (radix : Z) : Scan unit :=
  rem ← remainder; advance (str_len (take_while (λ c, is_digit c radix || (c =? ch "_")) rem)).

Definition is_sign (c : char) : bool := (c =? ch "+") || (c =? ch "-").

Definition consume_exponent : Scan bool :=
  rem ← remainder;
  if negb (starts_with_char rem (ch "e") || starts_with_char rem (ch "E")) then mret false
  else
    after_e ← lift (unwrap (str_from rem 1));
    let sign_len := match head after_e with Some c => if is_sign c then 1%nat else 0%nat | None => 0%nat end in
    after_sign ← lift (unwrap (str_from after_e sign_len));
    if match head after_sign with Some c => is_ascii_digit c | None => false end then
      _ ← advance (1 + sign_len); _ ← consume_digit_run 10; mret true
    else p ← get_pos; fail (InvalidFloat p).

(** *** Escapes *)

Fixpoint read_hex_digits (n start : nat) (code : Z) : Scan Z :=
  match n with
  | O => mret code
  | S n =>
      next ← peek;
      match next with
      | Some c =>
          if is_ascii_hexdigit c then
            digit ← lift (unwrap (to_digit c 16));
            code ← lift (checked_u32 (code * 16 + digit));
            _ ← advance 1; read_hex_digits n start code
          else p ← get_pos; fail (InvalidEscape c p)
      | None => fail (UnterminatedString start)
      end
  end.

Fixpoint octal_run (n : nat) (code : Z) : Scan Z :=
  match n with
  | O => mret code
  | S n =>
      next ← peek;
      match next with
      | Some c =>
          if is_digit c 8 then
            digit ← lift (unwrap (to_digit c 8));
            code ← lift (checked_u32 (code * 8 + digit));
            _ ← advance 1; octal_run n code
          else mret code
      | None => mret code
      end
  end.

Definition read_octal_digits (start : nat) : Scan Z :=
  code ← octal_run 3 0;
  if code <=? 255 then mret code else fail (InvalidEscape (ch "0") start).

(** The escapes of one letter. *)
Definition simple_escape (esc : char) : option char :=
  if esc =? dquote then Some dquote
  else if esc =? squote then Some squote
  else if esc =? backslash then Some backslash
  else if esc =? ch "n" then Some nl
  else if esc =? ch "t" then Some tab
  else if esc =? ch "r" then Some cr
  else if esc =? ch "a" then Some 7
  else if esc =? ch "b" then Some 8
  else if esc =? ch "f" then Some 12
  else if esc =? ch "v" then Some 11
  else None.

Definition escape_code (esc : char) (start : nat) : Scan Z :=
  if esc =? ch "x" then _ ← advance 1; read_hex_digits 2 start 0
  else if esc =? ch "u" then _ ← advance 1; read_hex_digits 4 start 0
  else if esc =? ch "U" then _ ← advance 1; read_hex_digits 8 start 0
  else if char_in (ch "0") (ch "7") esc then read_octal_digits start
  else p ← get_pos; fail (InvalidEscape esc p).

Definition decode_escape (start : nat) : Scan char :=
  next ← peek;
  match next with
  | None => fail (UnterminatedString start)
  | Some esc =>
      match simple_escape esc with
      | Some c => _ ← advance (len_utf8 esc); mret c
      | None =>
          code ← escape_code esc start;
          p ← get_pos;
          lift (ok_or (InvalidEscape esc p) (from_u32 code))
      end
  end.

(** *** Strings *)

Definition delimiter (quote : char) (triple : bool) : str := replicate (if triple then 3%nat else 1%nat) quote.

(** After a backslash of a string that is not raw: a line continuation of a
    triple-quoted string adds nothing, an escape its character. *)
Definition after_backslash (start : nat) (triple : bool) : Scan (option char) :=
  rem ← remainder;
  if triple && starts_with rem [cr; nl] then _ ← advance 2; mret None
  else if triple && starts_with_char rem nl then _ ← advance 1; mret None
  else c ← decode_escape start; mret (Some c).

(** [String::push] of what an escape gave. *)
Definition push (value : str) (c : option char) : str :=
  match c with Some c => value ++ [c] | None => value end.

Fixpoint string_body (fuel start : nat) (delim : str) (triple raw : bool) (value : str) : Scan str :=
  match fuel with
  | O => diverge
  | S fuel =>
      rem ← remainder;
      if starts_with rem delim then _ ← advance (str_len delim); mret value
      else match head rem with
      | None => fail (UnterminatedString start)
      | Some c =>
          if (c =? nl) && negb triple then fail (UnterminatedString start)
          else if (c =? backslash) && negb raw then
            _ ← advance 1;
            pushed ← after_backslash start triple;
            string_body fuel start delim triple raw (push value pushed)
          else _ ← advance (len_utf8 c); string_body fuel start delim triple raw (value ++ [c])
      end
  end.

(** Enough fuel for any loop over the rest of the input. *)
Definition scan_fuel : nat := S (str_len input).

Definition lex_string (token_start : nat) (quote : char) (triple raw : bool) : Scan (Token B R) :=
  start ← get_pos;
  let delim := delimiter quote triple in
  _ ← advance (str_len delim);
  value ← string_body scan_fuel start delim triple raw [];
  spelling ← slice_from token_start;
  mret (if triple then TripleStringLiteral value spelling else StringLiteral value spelling).

(** *** Interpolations *)

Definition is_quote (c : char) : bool := (c =? squote) || (c =? dquote).
Definition is_word (c : char) : bool := is_ascii_alphanumeric c || (c =? ch "_").

(** Whether the text before a quote ends with one of the prefixes as a whole
    word. *)
Definition has_prefix (before : str) (candidates : list str) : bool :=
  existsb (λ prefix,
    match strip_suffix before prefix with
    | Some rest => match last rest with Some previous => negb (is_word previous) | None => true end
    | None => false
    end) candidates.

Definition raw_prefixes : list str :=
  lit <$> ["r"; "R"; "rt"; "rT"; "Rt"; "RT"; "tr"; "tR"; "Tr"; "TR"]%string.
Definition template_prefixes : list str :=
  lit <$> ["t"; "T"; "rt"; "rT"; "Rt"; "RT"; "tr"; "tR"; "Tr"; "TR"]%string.

(** The loop of [take_interpolation] over an interpolation's source, and the
    loop over a string nested in it, which may hold interpolations of its
    own. *)
Fixpoint interp_loop (fuel string_start expr_start depth : nat) : Scan str :=
  match fuel with
  | O => diverge
  | S fuel =>
      rem ← remainder;
      c ← lift (ok_or (UnterminatedString string_start) (head rem));
      if is_quote c then
        let triple := starts_with rem (replicate 3 c) in
        let delim := delimiter c triple in
        before ← slice_from expr_start;
        let raw := has_prefix before raw_prefixes in
        let templated := has_prefix before template_prefixes in
        _ ← advance (str_len delim);
        _ ← nested_loop fuel string_start delim raw templated;
        interp_loop fuel string_start expr_start depth
      else if c =? ch "#" then _ ← skip_to_line_end; interp_loop fuel string_start expr_start depth
      else if c =? ch "{" then _ ← advance 1; interp_loop fuel string_start expr_start (S depth)
      else if c =? ch "}" then
        match depth with
        | O => lift Panic
        | S O => source ← slice_from expr_start; _ ← advance 1; mret source
        | S depth => _ ← advance 1; interp_loop fuel string_start expr_start depth
        end
      else _ ← advance (len_utf8 c); interp_loop fuel string_start expr_start depth
  end
with nested_loop (fuel string_start : nat) (delim : str) (raw templated : bool) : Scan unit :=
  match fuel with
  | O => diverge
  | S fuel =>
      nested ← remainder;
      if starts_with nested delim then advance (str_len delim)
      else if templated && starts_with nested (lit "{{") then
        _ ← advance 2; nested_loop fuel string_start delim raw templated
      else if templated && starts_with_char nested (ch "{") then
        _ ← advance 1;
        expr_start ← get_pos;
        _ ← interp_loop fuel string_start expr_start 1;
        nested_loop fuel string_start delim raw templated
      else if templated && starts_with nested (lit "}}") then
        _ ← advance 2; nested_loop fuel string_start delim raw templated
      else
        c ← lift (ok_or (UnterminatedString string_start) (head nested));
        if (c =? backslash) && negb raw then
          _ ← advance 1;
          next ← peek;
          escaped ← lift (ok_or (UnterminatedString string_start) next);
          _ ← advance (len_utf8 escaped); nested_loop fuel string_start delim raw templated
        else _ ← advance (len_utf8 c); nested_loop fuel string_start delim raw templated
  end.

Definition take_interpolation (fuel string_start : nat) : Scan str :=
  expr_start ← get_pos; interp_loop fuel string_start expr_start 1.

(** *** T-strings *)

(** [chunks.push(TStringChunk::Text(text))] when there is text. *)
Definition flush (chunks : list TStringChunk) (text : str) : list TStringChunk :=
  if bool_decide (text = []) then chunks else chunks ++ [TText text].

Fixpoint tstring_body (fuel start : nat) (delim : str) (triple raw : bool)
    (chunks : list TStringChunk) (text : str) : Scan (list TStringChunk) :=
  match fuel with
  | O => diverge
  | S fuel =>
      rem ← remainder;
      if starts_with rem delim then _ ← advance (str_len delim); mret (flush chunks text)
      else match head rem with
      | None => fail (UnterminatedString start)
      | Some c =>
          if (c =? ch "{") && starts_with rem (lit "{{") then
            _ ← advance 2; tstring_body fuel start delim triple raw chunks (text ++ [ch "{"])
          else if c =? ch "{" then
            _ ← advance 1;
            expr_text ← take_interpolation scan_fuel start;
            tstring_body fuel start delim triple raw (flush chunks text ++ [TInterp expr_text]) []
          else if (c =? ch "}") && starts_with rem (lit "}}") then
            _ ← advance 2; tstring_body fuel start delim triple raw chunks (text ++ [ch "}"])
          else if (c =? nl) && negb triple then fail (UnterminatedString start)
          else if (c =? backslash) && negb raw then
            _ ← advance 1;
            pushed ← after_backslash start triple;
            tstring_body fuel start delim triple raw chunks (push text pushed)
          else _ ← advance (len_utf8 c); tstring_body fuel start delim triple raw chunks (text ++ [c])
      end
  end.

Definition lex_tstring (quote : char) (triple raw : bool) : Scan (Token B R) :=
  start ← get_pos;
  let delim := delimiter quote triple in
  _ ← advance (str_len delim);
  chunks ← tstring_body scan_fuel start delim triple raw [] [];
  mret (TString chunks raw).
End scanner.

(** ** Reasoning about scanners

    [scans m rest Q]: run where [rest] is left, [m] neither panics nor runs
    out of fuel, and stops, with a result or an error, past some prefix of
    [rest]; a result satisfies [Q result used left]. *)

Section reasoning.
Context (input : str).

Definition at_rest (p : nat) (rest : str) : Prop := str_from input p = Some rest.

(** The text from [a] to [p] is [mid]. *)
Definition between (a : nat) (mid : str) (p : nat) (rest : str) : Prop :=
  at_rest a (mid ++ rest) ∧ p = (a + str_len mid)%nat.

Definition scans {A} (m : Scan A) (p : nat) (rest : str) (Q : A → str → str → Prop) : Prop :=
  match m p with
  | (Ok a, p') => ∃ used rest', rest = used ++ rest' ∧ p' = (p + str_len used)%nat ∧ Q a used rest'
  | (Err e, p') => ∃ used rest', rest = used ++ rest' ∧ p' = (p + str_len used)%nat
  | _ => False
  end.

Lemma scans_mono {A} (m : Scan A) p rest (Q Q' : A → str → str → Prop) :
  scans m p rest Q → (∀ a used rest', rest = used ++ rest' → Q a used rest' → Q' a used rest') →
  scans m p rest Q'.
Proof.
  unfold scans. destruct (m p) as [[a|e| |] p']; try done. intros (used & rest' & -> & -> & HQ) H.
  exists used, rest'. eauto.
Qed.

Lemma at_rest_advance p used rest : at_rest p (used ++ rest) → at_rest (p + str_len used) rest.
Proof. apply str_from_advance. Qed.

Lemma scans_bind {A B} (m : Scan A) (f : A → Scan B) p rest (Q : B → str → str → Prop) :
  at_rest p rest →
  scans m p rest (λ a used rest', ∀ p', at_rest p' rest' → p' = (p + str_len used)%nat →
    scans (f a) p' rest' (λ b used' rest'', Q b (used ++ used') rest'')) →
  scans (m ≫= f) p rest Q.
Proof.
  intros Hat. unfold scans at 1 3, mbind, Scan_bind. destruct (m p) as [[a|e| |] p1]; try done.
  intros (used & rest' & -> & -> & H). specialize (H _ (at_rest_advance _ _ _ Hat) eq_refl). revert H.
  unfold scans. destruct (f a _) as [[b|e| |] p2]; try done.
  - intros (used' & rest'' & -> & -> & HQ). exists (used ++ used'), rest''.
    rewrite str_len_app. split_and!; [by rewrite (assoc_L (++))|lia|done].
  - intros (used' & rest'' & -> & ->). exists (used ++ used'), rest''.
    rewrite str_len_app. split_and!; [by rewrite (assoc_L (++))|lia].
Qed.

Lemma scans_stay {A} p rest (Q : A → str → str → Prop) (m : Scan A) a :
  m p = (Ok a, p) → Q a [] rest → scans m p rest Q.
Proof. intros Hm HQ. unfold scans. rewrite Hm. exists [], rest. simpl. split_and!; [done|lia|done]. Qed.

Lemma scans_ret {A} p rest (Q : A → str → str → Prop) a : Q a [] rest → scans (mret a) p rest Q.
Proof. by apply scans_stay. Qed.

Lemma scans_fail {A} p rest (Q : A → str → str → Prop) e : scans (fail e) p rest Q.
Proof. exists [], rest. simpl. split; [done|lia]. Qed.

Lemma scans_remainder p rest (Q : str → str → str → Prop) :
  at_rest p rest → Q rest [] rest → scans (remainder input) p rest Q.
Proof. intros Hat. apply scans_stay. unfold remainder. by rewrite Hat. Qed.

Lemma scans_get_pos p rest (Q : nat → str → str → Prop) : Q p [] rest → scans get_pos p rest Q.
Proof. by apply scans_stay. Qed.

Lemma scans_lift_ok {A} p rest (Q : A → str → str → Prop) r a :
  r = Ok a → Q a [] rest → scans (lift r) p rest Q.
Proof. intros ->. by apply scans_stay. Qed.

Lemma scans_ok_or {A} p rest (Q : A → str → str → Prop) e (o : option A) :
  (∀ a, o = Some a → Q a [] rest) → scans (lift (ok_or e o)) p rest Q.
Proof.
  intros H. destruct o as [a|]; [by eapply scans_stay; [done|apply H]|].
  exists [], rest. simpl. split; [done|lia].
Qed.

Lemma scans_advance p rest (Q : unit → str → str → Prop) n used rest' :
  rest = used ++ rest' → n = str_len used → Q tt used rest' → scans (advance n) p rest Q.
Proof. intros -> -> HQ. exists used, rest'. done. Qed.

Lemma scans_peek p rest (Q : option char → str → str → Prop) :
  at_rest p rest → Q (head rest) [] rest → scans (peek input) p rest Q.
Proof.
  intros Hat HQ. apply scans_bind; [done|]. apply scans_remainder; [done|]. intros p' _ _. by apply scans_ret.
Qed.

Lemma scans_slice p rest (Q : str → str → str → Prop) a mid :
  between a mid p rest → Q mid [] rest → scans (slice_from input a) p rest Q.
Proof.
  intros [Ha ->] HQ. eapply scans_stay; [|done]. unfold slice_from.
  by rewrite (str_slice_between _ _ _ _ Ha).
Qed.

Lemma between_advance a mid p used rest :
  between a mid p (used ++ rest) → between a (mid ++ used) (p + str_len used) rest.
Proof.
  intros [Ha ->]. split; [by rewrite <- (assoc_L (++))|]. rewrite str_len_app. lia.
Qed.

Lemma between_refl p rest : at_rest p rest → between p [] p rest.
Proof. intros. split; [done|]. simpl. lia. Qed.

Lemma scans_take_while p rest (Q : unit → str → str → Prop) f :
  at_rest p rest → Q tt (take_while f rest) (drop_while f rest) →
  scans (rem ← remainder input; advance (str_len (take_while f rem))) p rest Q.
Proof.
  intros Hat HQ. apply scans_bind; [done|]. apply scans_remainder; [done|]. intros p' _ _.
  eapply scans_advance; [by rewrite take_while_drop_while|done|done].
Qed.

Lemma scans_skip_to_line_end p rest Q :
  at_rest p rest →
  Q tt (take_while (λ c, negb (c =? nl)) rest) (drop_while (λ c, negb (c =? nl)) rest) →
  scans (skip_to_line_end input) p rest Q.
Proof. apply scans_take_while. Qed.

Lemma scans_digit_run p rest Q radix :
  at_rest p rest →
  Q tt (take_while (λ c, is_digit c radix || (c =? ch "_")) rest)
    (drop_while (λ c, is_digit c radix || (c =? ch "_")) rest) →
  scans (consume_digit_run input radix) p rest Q.
Proof. apply scans_take_while. Qed.
End reasoning.

(** One step of a scanner: run the next primitive and continue. *)
Ltac scan_step :=
  cbv beta;
  match goal with
  | |- scans (mbind _ _) _ _ _ => eapply scans_bind; [done|]
  | |- scans (mret _) _ _ _ => apply scans_ret
  | |- scans (fail _) _ _ _ => apply scans_fail
  | |- scans (remainder _) _ _ _ => apply scans_remainder; [done|]
  | |- scans (peek _) _ _ _ => apply scans_peek; [done|]
  | |- scans get_pos _ _ _ => apply scans_get_pos
  | |- scans (consume_digit_run _ _) _ _ _ => apply scans_digit_run; [done|]
  | |- scans (skip_to_line_end _) _ _ _ => apply scans_skip_to_line_end; [done|]
  | |- ∀ p', at_rest _ p' _ → _ => let p := fresh "p" in let H := fresh "Hat" in let E := fresh "Hp" in intros p H E
  end.

(** ** The scanners never fail to finish *)

Section total.
Context {B R : Type} `{!BigInt B, !BigRational B R}.
Context (input : str).

Lemma str_from_ascii c s : c < 0x80 → str_from (c :: s) 1 = Some s.
Proof. intros Hc. simpl. rewrite len_utf8_ascii by done. simpl. apply str_from_0. Qed.

Lemma str_len_single c : str_len [c] = len_utf8 c.
Proof. simpl. lia. Qed.

Lemma starts_with_char_cons s c : starts_with_char s c = true → ∃ s', s = c :: s'.
Proof. by intros (s' & ->)%starts_with_char_spec; exists s'. Qed.

Lemma scans_advance1 p rest (Q : unit → str → str → Prop) c rest' :
  rest = c :: rest' → c < 0x80 → Q tt [c] rest' → scans (advance 1) p rest Q.
Proof.
  intros -> Hc HQ. eapply scans_advance; [|by rewrite str_len_single, len_utf8_ascii|done]. done.
Qed.

Lemma scans_advance_char p rest (Q : unit → str → str → Prop) c rest' :
  rest = c :: rest' → Q tt [c] rest' → scans (advance (len_utf8 c)) p rest Q.
Proof. intros -> HQ. eapply scans_advance; [|by rewrite str_len_single|done]. done. Qed.

Lemma scans_advance_prefix p rest (Q : unit → str → str → Prop) pre n :
  starts_with rest pre = true → n = str_len pre →
  (∀ rest', rest = pre ++ rest' → Q tt pre rest') → scans (advance n) p rest Q.
Proof. intros (rest' & ->)%starts_with_spec -> HQ. eapply scans_advance; [done|done|by apply HQ]. Qed.

Lemma consume_exponent_scans p rest :
  at_rest input p rest → scans (consume_exponent input) p rest (λ b used _, b = false → used = []).
Proof.
  intros Hat. unfold consume_exponent. scan_step. scan_step. scan_step.
  destruct (negb _) eqn:He; [by scan_step|]. apply negb_false_iff, orb_true_iff in He.
  assert (∃ e s, rest = e :: s ∧ e < 0x80) as (e & s & -> & He').
  { by destruct He as [(s & ->)%starts_with_char_spec|(s & ->)%starts_with_char_spec]; repeat eexists. }
  scan_step. eapply scans_lift_ok; [by rewrite str_from_ascii|]. scan_step.
  destruct (head s) as [c|] eqn:Hc.
  - destruct s as [|c' s]; [done|]. injection Hc as ->. scan_step. destruct (is_sign c) eqn:Hs.
    + assert (c < 0x80) by (unfold is_sign in Hs; change (ch "+") with 43 in Hs; change (ch "-") with 45 in Hs; lia).
      eapply scans_lift_ok; [by rewrite str_from_ascii|]. scan_step. case_match; [|repeat scan_step].
      scan_step. eapply (scans_advance _ _ _ _ [e; c]); [done|simpl; by rewrite !len_utf8_ascii|].
      scan_step. scan_step. scan_step. scan_step. by scan_step.
    + eapply scans_lift_ok; [by rewrite str_from_0|]. scan_step. simpl. case_match; [|repeat scan_step].
      scan_step. eapply scans_advance1; [done|done || by vm_compute|]. repeat scan_step. done.
  - scan_step. eapply scans_lift_ok; [by rewrite str_from_0|]. scan_step. rewrite Hc. repeat scan_step.
Qed.

(** *** Escapes *)

Lemma hex_digit_value c : is_ascii_hexdigit c = true → ∃ d, to_digit c 16 = Some d ∧ 0 <= d < 16 ∧ c < 0x80.
Proof.
  unfold is_ascii_hexdigit, to_digit, is_ascii_digit, char_in.
  change (ch "0") with 48. change (ch "9") with 57. change (ch "a") with 97. change (ch "f") with 102.
  change (ch "A") with 65. change (ch "F") with 70. change (ch "z") with 122. change (ch "Z") with 90.
  intros H. destruct (Z.leb_spec 48 c), (Z.leb_spec c 57); simpl in *.
  1: exists (c - 48); destruct (Z.ltb_spec (c - 48) 16); split_and!; done || lia.
  all: destruct (Z.leb_spec 97 c), (Z.leb_spec c 102), (Z.leb_spec c 122); simpl in *; try lia.
  all: try (exists (c - 97 + 10); destruct (Z.ltb_spec (c - 97 + 10) 16); split_and!; done || lia).
  all: destruct (Z.leb_spec 65 c), (Z.leb_spec c 70), (Z.leb_spec c 90); simpl in *; try lia.
  all: exists (c - 65 + 10); destruct (Z.ltb_spec (c - 65 + 10) 16); split_and!; done || lia.
Qed.

Lemma octal_digit_value c : is_digit c 8 = true → ∃ d, to_digit c 8 = Some d ∧ 0 <= d < 8 ∧ c < 0x80.
Proof.
  unfold is_digit. intros H%bool_decide_eq_true. destruct H as [d Hd]. exists d. split; [done|]. revert Hd.
  unfold to_digit, is_ascii_digit, char_in.
  change (ch "0") with 48. change (ch "9") with 57. change (ch "a") with 97.
  change (ch "A") with 65. change (ch "z") with 122. change (ch "Z") with 90.
  repeat (case_match; simpl; try done); intros; simplify_eq; lia.
Qed.

Definition hex_digits (ds : str) : Prop := Forall (λ c, is_ascii_hexdigit c = true) ds.
Definition octal_digits (ds : str) : Prop := Forall (λ c, is_digit c 8 = true) ds.

Lemma digits_value_cons radix acc c d ds :
  to_digit c radix = Some d → digits_value radix acc (c :: ds) = digits_value radix (acc * radix + d) ds.
Proof. intros Hd. unfold digits_value. simpl. by rewrite Hd. Qed.

Lemma pow_step radix n : 0 < radix → radix ^ Z.of_nat (S n) = radix * radix ^ Z.of_nat n ∧ 1 <= radix ^ Z.of_nat n.
Proof.
  intros. rewrite Nat2Z.inj_succ, Z.pow_succ_r by lia. split; [done|].
  pose proof (Z.pow_pos_nonneg radix (Z.of_nat n)). lia.
Qed.

Lemma checked_u32_ok z : 0 <= z <= u32_max → checked_u32 z = Ok z.
Proof. unfold checked_u32. intros. by destruct (Z.leb_spec 0 z), (Z.leb_spec z u32_max); try lia. Qed.

Lemma read_hex_digits_scans n start code p rest :
  at_rest input p rest → 0 <= code → (code + 1) * 16 ^ Z.of_nat n <= u32_max + 1 →
  scans (read_hex_digits input n start code) p rest (λ v used _,
    length used = n ∧ hex_digits used ∧ v = digits_value 16 code used).
Proof.
  revert code p rest. induction n as [|n IH]; intros code p rest Hat Hc Hb; simpl.
  { scan_step. by repeat constructor. }
  destruct (pow_step 16 n ltac:(lia)) as [Hp H1]. rewrite Hp in Hb.
  scan_step. scan_step. scan_step. destruct rest as [|c rest]; simpl; [scan_step|].
  destruct (is_ascii_hexdigit c) eqn:Hx; [|repeat scan_step].
  destruct (hex_digit_value c Hx) as (d & Hd & Hr & Ha).
  scan_step. eapply scans_lift_ok; [by rewrite Hd|]. scan_step.
  scan_step. eapply scans_lift_ok; [apply checked_u32_ok; nia|]. scan_step.
  scan_step. eapply scans_advance1; [done|done || by vm_compute|]. scan_step.
  eapply scans_mono; [apply IH; [done|lia|nia]|]. intros v used rest' _ (Hl & Hh & ->). simpl.
  split_and!; [by rewrite Hl|by constructor|by rewrite (digits_value_cons _ _ _ d)].
Qed.

Lemma octal_run_scans n code p rest :
  at_rest input p rest → 0 <= code → (code + 1) * 8 ^ Z.of_nat n <= 512 →
  scans (octal_run input n code) p rest (λ v used rest',
    (length used <= n)%nat ∧ octal_digits used ∧ v = digits_value 8 code used ∧
    (length used = n ∨ ∀ c s, rest' = c :: s → is_digit c 8 = false)).
Proof.
  revert code p rest. induction n as [|n IH]; intros code p rest Hat Hc Hb; simpl.
  { scan_step. split_and!; simpl; [lia|constructor|done|by left]. }
  destruct (pow_step 8 n ltac:(lia)) as [Hp H1]. rewrite Hp in Hb.
  scan_step. scan_step. scan_step. destruct rest as [|c rest]; simpl.
  { scan_step. split_and!; simpl; [lia|constructor|done|by right]. }
  destruct (is_digit c 8) eqn:Hx.
  2:{ scan_step. split_and!; simpl; [lia|constructor|done|]. right. by intros ? ? [= <- <-]. }
  destruct (octal_digit_value c Hx) as (d & Hd & Hr & Ha).
  scan_step. eapply scans_lift_ok; [by rewrite Hd|]. scan_step.
  scan_step. eapply scans_lift_ok; [apply checked_u32_ok; unfold u32_max; nia|]. scan_step.
  scan_step. eapply scans_advance1; [done|done || by vm_compute|]. scan_step.
  eapply scans_mono; [apply IH; [done|lia|nia]|]. intros v used rest' _ (Hl & Hh & -> & Hend). simpl.
  split_and!; [lia|by constructor|by rewrite (digits_value_cons _ _ _ d)|].
  destruct Hend as [->|?]; [by left|by right].
Qed.

(** What an escape's text, after its backslash, denotes. *)
Inductive denotes : str → char → Prop :=
| denotes_simple e c : simple_escape e = Some c → denotes [e] c
| denotes_hex k n ds :
    (k, n) ∈ [(ch "x", 2%nat); (ch "u", 4%nat); (ch "U", 8%nat)] →
    length ds = n → hex_digits ds → is_scalar (digits_value 16 0 ds) = true →
    denotes (k :: ds) (digits_value 16 0 ds)
| denotes_octal ds :
    (1 <= length ds <= 3)%nat → octal_digits ds → digits_value 8 0 ds <= 255 →
    denotes ds (digits_value 8 0 ds).

Lemma from_u32_Some code c : from_u32 code = Some c ↔ c = code ∧ is_scalar code = true.
Proof. unfold from_u32. case_match; (split; [intros [= <-]|intros [-> ?]]); done. Qed.

Lemma simple_escape_ascii e c : simple_escape e = Some c → e < 0x80.
Proof.
  unfold simple_escape, dquote, squote, backslash. intros H.
  repeat (case_match; [match goal with E : (_ =? _) = true |- _ => apply Z.eqb_eq in E; subst e end; vm_compute; done|]).
  done.
Qed.

Lemma hex_escape_scans k n e start p rest :
  (e, n) ∈ [(ch "x", 2%nat); (ch "u", 4%nat); (ch "U", 8%nat)] → e = k → at_rest input p (k :: rest) →
  scans (_ ← advance 1; read_hex_digits input n start 0) p (k :: rest) (λ v used _,
    ∃ ds, used = k :: ds ∧ length ds = n ∧ hex_digits ds ∧ v = digits_value 16 0 ds).
Proof.
  intros Hin -> Hat. assert (Hk : k < 0x80 ∧ (n <= 8)%nat).
  { repeat (apply elem_of_cons in Hin as [[= -> ->]|Hin]; [split; [by vm_compute|lia]|]).
    by apply elem_of_nil in Hin. }
  destruct Hk as [Hk Hn]. scan_step. eapply scans_advance1; [done|done || by vm_compute|]. scan_step.
  eapply scans_mono; [apply read_hex_digits_scans; [done|lia|]|].
  - pose proof (Z.pow_le_mono_r 16 (Z.of_nat n) 8). unfold u32_max. lia.
  - intros v used rest' _ (? & ? & ?). by exists used.
Qed.

Lemma octal_char e : char_in (ch "0") (ch "7") e = true → is_digit e 8 = true.
Proof.
  unfold char_in, is_digit, to_digit, is_ascii_digit, char_in. change (ch "0") with 48. change (ch "7") with 55.
  change (ch "9") with 57. intros H. apply bool_decide_eq_true.
  destruct (Z.leb_spec 48 e), (Z.leb_spec e 57); simpl in *; try lia.
  destruct (Z.ltb_spec (e - 48) 8); [by eexists|lia].
Qed.

Lemma decode_escape_scans start p rest :
  at_rest input p rest → scans (decode_escape input start) p rest (λ c used _, denotes used c).
Proof.
  intros Hat. unfold decode_escape. scan_step. scan_step. scan_step.
  destruct rest as [|e rest]; simpl; [scan_step|]. destruct (simple_escape e) as [c|] eqn:Hs.
  { scan_step. eapply scans_advance_char; [done|]. scan_step. scan_step. rewrite app_nil_r. by constructor. }
  scan_step. eapply (scans_mono _ _ _ (λ v used _, ∀ c, from_u32 v = Some c → denotes used c)).
  - assert (Hhex : ∀ n, (e, n) ∈ [(ch "x", 2%nat); (ch "u", 4%nat); (ch "U", 8%nat)] →
      scans (_ ← advance 1; read_hex_digits input n start 0) p0 (e :: rest)
        (λ v used _, ∀ c, from_u32 v = Some c → denotes used c)).
    { intros n Hin. eapply scans_mono; [by eapply hex_escape_scans|].
      intros v used rest' _ (ds & -> & Hl & Hh & ->) c [-> Hc]%from_u32_Some. by eapply denotes_hex. }
    unfold escape_code. destruct (Z.eqb_spec e (ch "x")); [apply Hhex; subst; by left|].
    destruct (Z.eqb_spec e (ch "u")); [apply Hhex; subst; by right; left|].
    destruct (Z.eqb_spec e (ch "U")); [apply Hhex; subst; by right; right; left|].
    destruct (char_in _ _ _) eqn:Ho; [|repeat scan_step]. apply octal_char in Ho.
    unfold read_octal_digits. scan_step. eapply scans_mono; [apply octal_run_scans; [done|lia|done]|].
    intros v used rest' Hr (Hl & Hd & -> & Hend). scan_step.
    destruct (Z.leb_spec (digits_value 8 0 used) 255); [|scan_step]. scan_step. rewrite app_nil_r.
    intros c [-> _]%from_u32_Some. apply denotes_octal; [|done..]. split; [|done].
    destruct used; [|simpl; lia]. simpl in Hr. subst rest'. destruct Hend as [?|Hend]; [done|].
    rewrite (Hend e rest eq_refl) in Ho. done.
  - intros v used rest' _ H. scan_step. scan_step. scan_step. scan_step.
    apply scans_ok_or. intros c Hc. rewrite !app_nil_r. by apply H.
Qed.

(** *** Strings *)

Lemma after_backslash_scans start triple p rest :
  at_rest input p rest →
  scans (after_backslash input start triple) p rest (λ c used _,
    match c with Some c => denotes used c | None => triple = true ∧ (used = [nl] ∨ used = [cr; nl]) end).
Proof.
  intros Hat. unfold after_backslash. do 3 scan_step.
  destruct (triple && starts_with rest [cr; nl]) eqn:H1.
  { apply andb_true_iff in H1 as [Ht H1]. scan_step. eapply scans_advance_prefix; [done|done|]. intros rest' ->.
    do 2 scan_step. auto. }
  destruct (triple && starts_with_char rest nl) eqn:H2.
  { apply andb_true_iff in H2 as [Ht (rest' & ->)%starts_with_char_cons].
    scan_step. eapply scans_advance1; [done|done || by vm_compute|]. do 2 scan_step. auto. }
  scan_step. eapply scans_mono; [by apply decode_escape_scans|]. intros c used rest' _ Hc.
  do 2 scan_step. by rewrite !app_nil_r.
Qed.

Lemma starts_with_nonempty s pre : starts_with s pre = false → head s = None → pre ≠ [] → s = [].
Proof. by destruct s. Qed.

Lemma str_len_pos s : s ≠ [] → (0 < str_len s)%nat.
Proof. destruct s as [|c s]; [done|]. intros _. simpl. pose proof (len_utf8_pos c). lia. Qed.

Lemma str_len_decreases c s used s' : s = used ++ s' → (str_len s' < str_len (c :: s))%nat.
Proof. intros ->. simpl. rewrite str_len_app. pose proof (len_utf8_pos c). lia. Qed.

(** A result that consumed something. *)
Lemma string_body_scans fuel start delim triple raw value p rest :
  at_rest input p rest → (str_len rest < fuel)%nat →
  scans (string_body input fuel start delim triple raw value) p rest (λ _ used _, ∃ body, used = body ++ delim).
Proof.
  revert value p rest. induction fuel as [|fuel IH]; intros value p rest Hat Hf; [lia|]. cbn [string_body].
  do 3 scan_step. destruct (starts_with rest delim) eqn:Hd.
  { scan_step. eapply scans_advance_prefix; [done|done|]. intros rest' ->. do 2 scan_step. exists []. by rewrite app_nil_r. }
  destruct rest as [|c rest]; simpl; [scan_step|].
  destruct ((c =? nl) && _); [scan_step|].
  destruct ((c =? backslash) && _) eqn:Hb.
  - apply andb_true_iff in Hb as [->%Z.eqb_eq _]. scan_step. eapply scans_advance1; [done|done || by vm_compute|]. scan_step.
    scan_step. eapply scans_mono; [by apply after_backslash_scans|]. intros pushed used rest' -> _. scan_step.
    eapply scans_mono; [apply IH; [done|]|].
    + pose proof (str_len_decreases backslash (used ++ rest') used rest' eq_refl). lia.
    + intros _ used' rest'' _ [body ->]. exists (backslash :: used ++ body). simpl. by rewrite (assoc_L (++)).
  - scan_step. eapply scans_advance_char; [done|]. scan_step. eapply scans_mono; [apply IH; [done|]|].
    + pose proof (str_len_decreases c rest [] rest eq_refl). lia.
    + intros _ used' rest'' _ [body ->]. by exists (c :: body).
Qed.

Lemma at_rest_len p rest : at_rest input p rest → (str_len rest < scan_fuel input)%nat.
Proof. intros H%str_from_le. unfold scan_fuel. lia. Qed.

(** The spelling of a token is the text scanned since it began. *)
Definition string_token (t : Token B R) (triple : bool) (spelling : str) : Prop :=
  ∃ value, t = if triple then TripleStringLiteral value spelling else StringLiteral value spelling.

Lemma lex_string_scans token_start mid quote triple raw p rest :
  between input token_start mid p rest → quote < 0x80 → starts_with rest (delimiter quote triple) = true →
  scans (lex_string (B:=B) (R:=R) input token_start quote triple raw) p rest (λ t used _,
    string_token t triple (mid ++ used) ∧ ∃ body, used = delimiter quote triple ++ body ++ delimiter quote triple).
Proof.
  intros Hb Hq Hd. assert (Hat : at_rest input p rest) by (destruct Hb as [Ha ->]; by apply at_rest_advance).
  unfold lex_string. do 3 scan_step. scan_step. eapply scans_advance_prefix; [done|done|]. intros rest' ->.
  apply between_advance in Hb. scan_step. scan_step. subst p0 p1. rewrite Nat.add_0_r in *.
  eapply scans_mono; [apply string_body_scans; [done|by eapply at_rest_len]|].
  intros value used rest'' -> [body ->]. apply between_advance in Hb. scan_step. scan_step. subst p0.
  eapply scans_slice; [done|]. do 2 scan_step. rewrite !app_nil_r. simpl. split; [|by exists body].
  exists value. by rewrite <- !(assoc_L (++)).
Qed.

(** *** Interpolations *)

Lemma interp_scans fuel :
  (∀ string_start expr_start mid depth p rest,
    between input expr_start mid p rest → (str_len rest < fuel)%nat → (0 < depth)%nat →
    scans (interp_loop input fuel string_start expr_start depth) p rest (λ source used _,
      ∃ text, used = text ++ [ch "}"] ∧ source = mid ++ text)) ∧
  (∀ string_start delim raw templated p rest,
    at_rest input p rest → (str_len rest < fuel)%nat →
    scans (nested_loop input fuel string_start delim raw templated) p rest (λ _ _ _, True)).
Proof.
  induction fuel as [|fuel [IHi IHn]]; [split; intros; lia|].
  assert (Hi : ∀ string_start expr_start mid depth p rest mid' used,
    between input expr_start mid p rest → mid = mid' ++ used → (str_len rest < fuel)%nat → (0 < depth)%nat →
    scans (interp_loop input fuel string_start expr_start depth) p rest (λ source used' _,
      ∃ text, used ++ used' = text ++ [ch "}"] ∧ source = mid' ++ text)).
  { intros ? ? mid depth p rest mid' used Hb -> ? ?. eapply scans_mono; [by apply IHi|].
    intros source used' ? _ (text & -> & ->). exists (used ++ text). by rewrite !(assoc_L (++)). }
  split.
  - intros string_start expr_start mid depth p rest Hb Hf Hdepth. cbn [interp_loop].
    assert (Hat : at_rest input p rest) by (destruct Hb as [Ha ->]; by apply at_rest_advance).
    do 3 scan_step. scan_step. apply scans_ok_or. intros c Hc. destruct rest as [|c' rest]; [done|]. injection Hc as ->.
    scan_step. subst p0 p1. rewrite !Nat.add_0_r in *. clear Hat0 Hat1.
    assert (Hlt : ∀ used s, rest = used ++ s → (str_len s < fuel)%nat).
    { intros used s Hs. pose proof (str_len_decreases c rest used s Hs). lia. }
    assert (Hone : ∀ d, (0 < d)%nat → ∀ p', at_rest input p' rest → p' = (p + str_len [c])%nat →
      scans (interp_loop input fuel string_start expr_start d) p' rest (λ source used' _,
        ∃ text, [c] ++ used' = text ++ [ch "}"] ∧ source = mid ++ text)).
    { intros d Hd p' Hp' ->. eapply Hi; [by apply (between_advance input _ mid p [c])|done|by apply (Hlt [])|done]. }
    destruct (is_quote c) eqn:Hq.
    { set (delim := delimiter c _). assert (Hdel : starts_with (c :: rest) delim = true).
      { subst delim. unfold delimiter. destruct (starts_with (c :: rest) (replicate 3 c)) eqn:H3; [done|].
        simpl. by rewrite Z.eqb_refl. }
      scan_step. eapply scans_slice; [exact Hb|]. scan_step. scan_step.
      eapply scans_advance_prefix; [exact Hdel|done|]. intros rest' Hrest. scan_step. subst p0. rewrite !Nat.add_0_r in *.
      assert (∃ u, rest = u ++ rest') as (u & Hu).
      { subst delim. unfold delimiter in *. destruct (starts_with (c :: rest) (replicate 3 c)); simpl in Hrest;
          injection Hrest as ->; [by exists [c; c]|by exists []]. }
      scan_step. eapply scans_mono; [apply IHn; [done|by eapply Hlt]|]. intros _ used rest'' -> _. scan_step. subst p0 p1.
      rewrite Hrest in Hb. do 2 apply between_advance in Hb. rewrite <- (assoc_L (++)) in Hb.
      eapply scans_mono; [eapply (Hi _ _ _ _ _ _ mid (delim ++ used)); [exact Hb|done| |done]|].
      - apply (Hlt (u ++ used)). by rewrite <- (assoc_L (++)).
      - intros source used' ? _ (text & Ht & ->). exists text. split; [|done]. simpl. by rewrite (assoc_L (++)). }
    destruct (Z.eqb_spec c (ch "#")) as [->|Hhash].
    { set (f := λ c, negb (c =? nl)). scan_step. scan_step.
      change (take_while _ (ch "#" :: rest)) with (ch "#" :: take_while f rest).
      change (drop_while _ (ch "#" :: rest)) with (drop_while f rest). scan_step.
      assert (Hsplit : ch "#" :: rest = (ch "#" :: take_while f rest) ++ drop_while f rest) by (simpl; by rewrite take_while_drop_while).
      rewrite Hsplit in Hb. apply between_advance in Hb.
      eapply Hi; [by subst p0|done|apply (Hlt (take_while f rest)); by rewrite take_while_drop_while|done]. }
    destruct (Z.eqb_spec c (ch "{")) as [->|Hopen].
    { scan_step. eapply scans_advance1; [done|done || by vm_compute|]. scan_step. apply Hone; [lia|done|done]. }
    destruct (Z.eqb_spec c (ch "}")) as [->|Hclose].
    { destruct depth as [|[|depth]]; [lia| |].
      - scan_step. eapply scans_slice; [exact Hb|]. scan_step. scan_step. eapply scans_advance1; [done|done || by vm_compute|]. do 2 scan_step.
        exists []. by rewrite !app_nil_r.
      - scan_step. eapply scans_advance1; [done|done || by vm_compute|]. scan_step. apply Hone; [lia|done|done]. }
    scan_step. eapply scans_advance_char; [done|]. scan_step. apply Hone; done.
  - intros string_start delim raw templated p rest Hat Hf. cbn [nested_loop]. do 3 scan_step.
    subst p0. rewrite Nat.add_0_r in *. clear Hat0.
    assert (Hn : ∀ used s, rest = used ++ s → used ≠ [] → ∀ p', at_rest input p' s →
      scans (nested_loop input fuel string_start delim raw templated) p' s (λ _ _ _, True)).
    { intros used s -> Hu p' Hp'. apply IHn; [done|]. pose proof (str_len_pos _ Hu). rewrite str_len_app in Hf. lia. }
    destruct (starts_with rest delim) eqn:Hd; [by eapply scans_advance_prefix|].
    destruct (templated && starts_with rest (lit "{{")) eqn:H1.
    { apply andb_true_iff in H1 as [_ H1]. scan_step. eapply scans_advance_prefix; [done|done|]. intros rest' ->. scan_step.
      by eapply Hn. }
    destruct (templated && starts_with_char rest (ch "{")) eqn:H2.
    { apply andb_true_iff in H2 as [_ (rest' & ->)%starts_with_char_cons]. scan_step. eapply scans_advance1; [done|done || by vm_compute|].
      scan_step. do 3 scan_step. scan_step. subst p0 p1. rewrite !Nat.add_0_r in *.
      eapply scans_mono; [apply (IHi _ _ [])|].
      - by apply between_refl.
      - pose proof (str_len_decreases (ch "{") rest' [] rest' eq_refl). lia.
      - lia.
      - intros source used rest'' Hr _. scan_step. eapply scans_mono; [eapply (Hn (ch "{" :: used)); [by rewrite Hr|done|done]|].
        done. }
    destruct (templated && starts_with rest (lit "}}")) eqn:H3.
    { apply andb_true_iff in H3 as [_ H3]. scan_step. eapply scans_advance_prefix; [done|done|]. intros rest' ->. scan_step.
      by eapply Hn. }
    scan_step. apply scans_ok_or. intros c Hc. destruct rest as [|c' rest]; [done|]. injection Hc as ->. scan_step.
    subst p0. rewrite Nat.add_0_r in *.
    destruct ((c =? backslash) && negb raw) eqn:Hb.
    + apply andb_true_iff in Hb as [->%Z.eqb_eq _]. scan_step. eapply scans_advance1; [done|done || by vm_compute|]. scan_step.
      scan_step. scan_step. scan_step. scan_step. apply scans_ok_or. intros e He. destruct rest as [|e' rest]; [done|]. injection He as ->.
      scan_step. scan_step. eapply scans_advance_char; [done|]. scan_step. by eapply (Hn [backslash; e]).
    + scan_step. eapply scans_advance_char; [done|]. scan_step. by eapply (Hn [c]).
Qed.

(** *** T-strings *)

(** The fragments of chunks. *)
Definition fragments (chunks : list TStringChunk) : list str :=
  omap (λ c, match c with TInterp src => Some src | TText _ => None end) chunks.

Lemma fragments_flush chunks text : fragments (flush chunks text) = fragments chunks.
Proof. unfold flush, fragments. case_bool_decide; [done|]. rewrite omap_app. simpl. by rewrite app_nil_r. Qed.

(** The fragments of a body are those it started with, or shorter than its text. *)
Lemma tstring_body_scans fuel start delim triple raw chunks text p rest :
  at_rest input p rest → (str_len rest < fuel)%nat →
  scans (tstring_body input fuel start delim triple raw chunks text) p rest (λ chunks' used _,
    ∀ src, src ∈ fragments chunks' → src ∈ fragments chunks ∨ (str_len src < str_len used)%nat).
Proof.
  revert chunks text p rest. induction fuel as [|fuel IH]; intros chunks text p rest Hat Hf; [lia|]. cbn [tstring_body].
  do 3 scan_step. subst p0. rewrite Nat.add_0_r in *. clear Hat0.
  assert (Hn : ∀ used s chunks' text, rest = used ++ s → used ≠ [] →
    (∀ src, src ∈ fragments chunks' → src ∈ fragments chunks ∨ (str_len src < str_len used)%nat) → ∀ p', at_rest input p' s →
    scans (tstring_body input fuel start delim triple raw chunks' text) p' s (λ chunks' used' _,
      ∀ src, src ∈ fragments chunks' → src ∈ fragments chunks ∨ (str_len src < str_len (used ++ used'))%nat)).
  { intros used s chunks' ? -> Hu Hfr p' Hp'. pose proof (str_len_pos _ Hu). rewrite str_len_app in Hf.
    eapply scans_mono; [apply IH; [done|lia]|]. intros out used' ? _ Hout src Hsrc. rewrite str_len_app.
    destruct (Hout src Hsrc) as [H1|H1]; [destruct (Hfr src H1); [by left|right; lia]|right; lia]. }
  assert (Hsame : ∀ used s text, rest = used ++ s → used ≠ [] → ∀ p', at_rest input p' s →
    scans (tstring_body input fuel start delim triple raw chunks text) p' s (λ chunks' used' _,
      ∀ src, src ∈ fragments chunks' → src ∈ fragments chunks ∨ (str_len src < str_len (used ++ used'))%nat)).
  { intros used s ? Hr Hu. eapply Hn; [done|done|by left]. }
  destruct (starts_with rest delim) eqn:Hd.
  { scan_step. eapply scans_advance_prefix; [done|done|]. intros rest' ->. do 2 scan_step. rewrite fragments_flush. by left. }
  destruct rest as [|c rest]; cbn [head]; [scan_step|].
  destruct ((c =? ch "{") && starts_with (c :: rest) (lit "{{")) eqn:H1.
  { apply andb_true_iff in H1 as [_ H1]. scan_step. eapply scans_advance_prefix; [done|done|]. intros rest' Hr. scan_step.
    by eapply (Hsame (lit "{{")). }
  destruct (Z.eqb_spec c (ch "{")) as [->|_].
  { scan_step. eapply scans_advance1; [done|by vm_compute|]. scan_step. unfold take_interpolation.
    do 3 scan_step. scan_step. subst p0 p1. rewrite !Nat.add_0_r in *.
    eapply scans_mono; [apply (proj1 (interp_scans _) _ _ []); [by apply between_refl|by eapply at_rest_len|lia]|].
    intros source used rest'' Hr (body & Hu & Hs). scan_step.
    eapply scans_mono; [eapply (Hn (ch "{" :: used)); [by rewrite Hr|done| |done]|done].
    intros src Hsrc. unfold fragments in Hsrc. rewrite omap_app in Hsrc. fold (fragments (flush chunks text)) in Hsrc.
    rewrite fragments_flush in Hsrc. apply elem_of_app in Hsrc as [?|Hsrc]; [by left|right].
    simpl in Hsrc. apply list_elem_of_singleton in Hsrc as ->. simpl in Hs. subst source used.
    change (ch "{" :: body ++ [ch "}"]) with ([ch "{"] ++ body ++ [ch "}"]). rewrite !str_len_app.
    pose proof (str_len_pos [ch "{"] ltac:(done)). lia. }
  destruct ((c =? ch "}") && starts_with (c :: rest) (lit "}}")) eqn:H3.
  { apply andb_true_iff in H3 as [_ H3]. scan_step. eapply scans_advance_prefix; [done|done|]. intros rest' Hr. scan_step.
    by eapply (Hsame (lit "}}")). }
  destruct ((c =? nl) && _); [scan_step|].
  destruct ((c =? backslash) && _) eqn:Hb.
  - apply andb_true_iff in Hb as [->%Z.eqb_eq _]. scan_step. eapply scans_advance1; [done|done|]. scan_step.
    scan_step. eapply scans_mono; [by apply after_backslash_scans|]. intros pushed used rest' -> _. scan_step.
    by eapply (Hsame (backslash :: used)).
  - scan_step. eapply scans_advance_char; [done|]. scan_step. by eapply (Hsame [c]).
Qed.

Lemma lex_tstring_scans quote triple raw p rest :
  at_rest input p rest → starts_with rest (delimiter quote triple) = true →
  scans (lex_tstring (B:=B) (R:=R) input quote triple raw) p rest (λ t used _,
    (∃ chunks, t = TString chunks raw ∧ ∀ src, src ∈ fragments chunks → (str_len src < str_len used)%nat) ∧ used ≠ []).
Proof.
  intros Hat Hd. unfold lex_tstring. do 3 scan_step. scan_step. eapply scans_advance_prefix; [done|done|]. intros rest' ->.
  do 2 scan_step. eapply scans_mono; [apply tstring_body_scans; [done|by eapply at_rest_len]|].
  intros chunks used rest'' -> Hc. do 2 scan_step. split; [|by destruct triple]. exists chunks. split; [done|].
  intros src Hsrc. destruct (Hc src Hsrc) as [Hnil|?]; [by apply elem_of_nil in Hnil|]. rewrite !str_len_app. lia.
Qed.
End total.

(** ** Strings read back

    A canonical spelling escapes the backslash, the quote and the newline. *)

Section roundtrip.
Context {B R : Type} `{!BigInt B, !BigRational B R}.

Definition quote_char (quote c : char) : str :=
  if c =? nl then [backslash; ch "n"]
  else if (c =? backslash) || (c =? quote) then [backslash; c]
  else [c].

#[local] Arguments quote_char : simpl never.

Definition quote_string (quote : char) (value : str) : str :=
  quote :: flat_map (quote_char quote) value ++ [quote].

(** A scan that is a function of what is left. *)
Lemma scan_peek input p c rest : at_rest input p (c :: rest) → peek input p = (Ok (Some c), p).
Proof. intros Hat. unfold peek, mbind, Scan_bind, remainder. by rewrite Hat. Qed.

Lemma scan_bind_ok {A C} (m : Scan A) (f : A → Scan C) p a p' : m p = (Ok a, p') → (m ≫= f) p = f a p'.
Proof. intros Hm. unfold mbind, Scan_bind. by rewrite Hm. Qed.

Lemma scan_remainder input p rest : at_rest input p rest → remainder input p = (Ok rest, p).
Proof. intros Hat. unfold remainder. by rewrite Hat. Qed.

Lemma decode_simple input start p e c rest :
  at_rest input p (e :: rest) → simple_escape e = Some c → decode_escape input start p = (Ok c, (p + len_utf8 e)%nat).
Proof.
  intros Hat He. unfold decode_escape. rewrite (scan_bind_ok _ _ _ (Some e) p) by by eapply scan_peek. by rewrite He.
Qed.

Lemma scan_after_backslash input start p e c rest :
  at_rest input p (e :: rest) → simple_escape e = Some c →
  after_backslash input start false p = (Ok (Some c), (p + len_utf8 e)%nat).
Proof.
  intros Hat He. unfold after_backslash. rewrite (scan_bind_ok _ _ _ (e :: rest) p) by by eapply scan_remainder. simpl.
  erewrite scan_bind_ok by by eapply decode_simple. done.
Qed.

Lemma string_body_quoted input fuel start quote value acc p tail :
  quote = dquote ∨ quote = squote →
  at_rest input p (flat_map (quote_char quote) value ++ quote :: tail) →
  (str_len (flat_map (quote_char quote) value ++ [quote]) < fuel)%nat →
  string_body input fuel start [quote] false false acc p
  = (Ok (acc ++ value), (p + str_len (flat_map (quote_char quote) value ++ [quote]))%nat).
Proof.
  intros Hq. revert acc p fuel. induction value as [|c value IH]; intros acc p fuel Hat Hf.
  all: destruct fuel as [|fuel]; [lia|]; cbn [string_body].
  { rewrite (scan_bind_ok _ _ _ (quote :: tail) p) by by eapply scan_remainder. simpl.
    rewrite Z.eqb_refl. simpl. rewrite app_nil_r. f_equal. }
  cbn [flat_map] in *. rewrite <- !(assoc_L (++)) in *. erewrite scan_bind_ok by by eapply scan_remainder.
  set (rest := flat_map (quote_char quote) value ++ [quote]) in *.
  assert (Hquote : starts_with [backslash] [quote] = false) by (by destruct Hq as [-> | ->]).
  assert (Hescape : ∀ e, simple_escape e = Some c → quote_char quote c = [backslash; e] →
    starts_with (quote_char quote c ++ flat_map (quote_char quote) value ++ quote :: tail) [quote] = false ∧
    (_ ← advance 1; pushed ← after_backslash input start false;
     string_body input fuel start [quote] false false (push acc pushed)) p
    = (Ok (acc ++ c :: value), (p + str_len (quote_char quote c ++ rest))%nat)).
  { intros e He Hc. rewrite Hc in *. split; [by simpl in *|].
    pose proof (simple_escape_ascii _ _ He). rewrite (scan_bind_ok _ _ _ tt (p + 1)%nat) by done.
    pose proof (at_rest_advance input p [backslash] _ Hat) as Hat1.
    change (str_len [backslash]) with 1%nat in Hat1. erewrite scan_bind_ok by by eapply scan_after_backslash.
    pose proof (at_rest_advance input _ [e] _ Hat1) as Hat2. simpl in Hat2. rewrite Nat.add_0_r in Hat2.
    pose proof (len_utf8_pos e). rewrite IH; [|done|].
    - simpl. rewrite <- (assoc_L (++)). f_equal. change (len_utf8 backslash) with 1%nat. lia.
    - rewrite str_len_app in Hf. simpl in Hf. change (len_utf8 backslash) with 1%nat in Hf. lia. }
  destruct (Z.eqb_spec c nl) as [->|Hnl].
  { assert (quote_char quote nl = [backslash; ch "n"]) as Hc by done. destruct (Hescape (ch "n")) as [H1 H2]; [done|done|].
    rewrite H1. replace (head _) with (Some backslash) by (by rewrite Hc). exact H2. }
  destruct ((c =? backslash) || (c =? quote)) eqn:Hbq.
  { assert (quote_char quote c = [backslash; c]) as Hc.
    { unfold quote_char. rewrite Hbq. by destruct (Z.eqb_spec c nl). }
    assert (He : simple_escape c = Some c).
    { apply orb_true_iff in Hbq as [->%Z.eqb_eq| ->%Z.eqb_eq]; [done|]. by destruct Hq as [-> | ->]. }
    destruct (Hescape c He Hc) as [H1 H2]. rewrite H1.
    replace (head _) with (Some backslash) by (by rewrite Hc). exact H2. }
  apply orb_false_iff in Hbq as [Hb Hqc]. assert (Hc : quote_char quote c = [c]).
  { unfold quote_char. rewrite Hb, Hqc. by destruct (Z.eqb_spec c nl). }
  rewrite Hc in *. simpl in *. rewrite Z.eqb_sym, Hqc, Hb, (proj2 (Z.eqb_neq c nl) Hnl). simpl.
  rewrite (scan_bind_ok _ _ _ tt (p + len_utf8 c)%nat) by done.
  pose proof (at_rest_advance input p [c] _ Hat) as Hat1. simpl in Hat1. rewrite Nat.add_0_r in Hat1.
  pose proof (len_utf8_pos c). rewrite IH; [|done|lia]. rewrite <- (assoc_L (++)). f_equal. lia.
Qed.

(** *** Escapes read back *)

Lemma at_rest_cons input p c rest : at_rest input p (c :: rest) → at_rest input (p + len_utf8 c) rest.
Proof. intros Hat. apply (at_rest_advance input p [c]) in Hat. by rewrite str_len_single in Hat. Qed.

Lemma at_rest_ascii input p c rest : at_rest input p (c :: rest) → c < 0x80 → at_rest input (p + 1) rest.
Proof. intros Hat Hc. apply at_rest_cons in Hat. by rewrite len_utf8_ascii in Hat. Qed.

Lemma read_hex_digits_complete input start code p ds tail :
  at_rest input p (ds ++ tail) → hex_digits ds →
  0 <= code → (code + 1) * 16 ^ Z.of_nat (length ds) <= u32_max + 1 →
  read_hex_digits input (length ds) start code p = (Ok (digits_value 16 code ds), (p + str_len ds)%nat).
Proof.
  intros Hat Hx. revert code p Hat. induction Hx as [|c ds Hc Hx IH]; intros code p Hat H0 Hb.
  { simpl. by rewrite Nat.add_0_r. }
  destruct (hex_digit_value c Hc) as (d & Hd & Hr & Ha). cbn [length read_hex_digits] in *.
  destruct (pow_step 16 (length ds) ltac:(lia)) as [Hp H1]. rewrite Hp in Hb.
  erewrite scan_bind_ok by by eapply scan_peek. cbv beta iota. rewrite Hc.
  rewrite (scan_bind_ok _ _ _ d p) by (by rewrite Hd).
  rewrite (scan_bind_ok _ _ _ (code * 16 + d) p) by (unfold lift; rewrite checked_u32_ok; [done|nia]).
  rewrite (scan_bind_ok _ _ _ tt (p + 1)%nat) by done.
  rewrite IH; [|by eapply at_rest_ascii|lia|nia].
  rewrite (digits_value_cons _ _ _ d) by done. f_equal. simpl. rewrite len_utf8_ascii by done. lia.
Qed.

Lemma octal_run_complete input n code p ds tail :
  at_rest input p (ds ++ tail) → octal_digits ds → (length ds <= n)%nat →
  (length ds = n ∨ ∀ c s, tail = c :: s → is_digit c 8 = false) →
  0 <= code → (code + 1) * 8 ^ Z.of_nat n <= 512 →
  octal_run input n code p = (Ok (digits_value 8 code ds), (p + str_len ds)%nat).
Proof.
  intros Hat Hx. revert n code p Hat. induction Hx as [|c ds Hc Hx IH]; intros n code p Hat Hl Hend H0 Hb.
  { destruct n as [|n]; simpl; [by rewrite Nat.add_0_r|]. simpl in Hat. destruct Hend as [?|Hend]; [done|].
    destruct tail as [|c tail]; (erewrite scan_bind_ok; [|by unfold peek; erewrite scan_bind_ok by by eapply scan_remainder]); simpl.
    - by rewrite Nat.add_0_r.
    - rewrite (Hend c tail) by done. simpl. by rewrite Nat.add_0_r. }
  destruct n as [|n]; [simpl in Hl; lia|]. destruct (octal_digit_value c Hc) as (d & Hd & Hr & Ha). cbn [octal_run].
  destruct (pow_step 8 n ltac:(lia)) as [Hp H1]. rewrite Hp in Hb. simpl in Hl.
  erewrite scan_bind_ok by by eapply scan_peek. cbv beta iota. rewrite Hc.
  rewrite (scan_bind_ok _ _ _ d p) by (by rewrite Hd).
  rewrite (scan_bind_ok _ _ _ (code * 8 + d) p) by (unfold lift; rewrite checked_u32_ok; [done|unfold u32_max; nia]).
  rewrite (scan_bind_ok _ _ _ tt (p + 1)%nat) by done.
  rewrite IH; [|by eapply at_rest_ascii|lia|simpl in Hend; destruct Hend; [left; lia|by right]|lia|nia].
  rewrite (digits_value_cons _ _ _ d) by done. f_equal. simpl. rewrite len_utf8_ascii by done. lia.
Qed.

Lemma octal_not_letter c :
  is_digit c 8 = true → simple_escape c = None ∧ c ≠ ch "x" ∧ c ≠ ch "u" ∧ c ≠ ch "U" ∧ char_in (ch "0") (ch "7") c = true.
Proof.
  intros Hc. assert (Hr : 48 <= c <= 55).
  { unfold is_digit in Hc. apply bool_decide_eq_true in Hc. destruct Hc as [d Hd]. revert Hd.
    unfold to_digit, is_ascii_digit, char_in.
    change (ch "0") with 48. change (ch "9") with 57. change (ch "a") with 97.
    change (ch "A") with 65. change (ch "z") with 122. change (ch "Z") with 90.
    repeat (case_match; simpl; try done); intros; simplify_eq; lia. }
  split_and!.
  - unfold simple_escape, dquote, squote, backslash.
    assert (H : ∀ k, k < 48 ∨ 55 < k → (c =? k) = false) by (intros; lia).
    rewrite !H; first [reflexivity|left; reflexivity|right; reflexivity].
  - change (ch "x") with 120. lia.
  - change (ch "u") with 117. lia.
  - change (ch "U") with 85. lia.
  - unfold char_in. change (ch "0") with 48. change (ch "7") with 55. lia.
Qed.

(** An octal escape stops at three digits or before a character that is none. *)
Definition escape_ends (used tail : str) : Prop :=
  octal_digits used → length used = 3%nat ∨ ∀ c s, tail = c :: s → is_digit c 8 = false.

Lemma is_scalar_small v : 0 <= v <= 255 → is_scalar v = true.
Proof. unfold is_scalar. intros. destruct (Z.leb_spec 0 v), (Z.ltb_spec v 0xd800); simpl; lia || done. Qed.

Lemma octal_value_nonneg code ds : octal_digits ds → 0 <= code → 0 <= digits_value 8 code ds.
Proof.
  intros Hx. revert code. induction Hx as [|c ds Hc _ IH]; intros code H0; [done|].
  destruct (octal_digit_value c Hc) as (d & Hd & Hr & _). rewrite (digits_value_cons _ _ _ d) by done. apply IH. lia.
Qed.

Lemma escape_code_hex input start k n p ds tail :
  (k, n) ∈ [(ch "x", 2%nat); (ch "u", 4%nat); (ch "U", 8%nat)] → length ds = n → hex_digits ds →
  at_rest input p (k :: ds ++ tail) →
  simple_escape k = None ∧
  escape_code input k start p = (Ok (digits_value 16 0 ds), (p + str_len (k :: ds))%nat).
Proof.
  intros Hk Hl Hx Hat. assert (Hg : k < 0x80 ∧ simple_escape k = None ∧
    escape_code input k start = (_ ← advance 1; read_hex_digits input n start 0) ∧ (n <= 8)%nat).
  { repeat (apply elem_of_cons in Hk as [[= -> ->]|Hk]; [split_and!; [by vm_compute|done|done|lia]|]).
    by apply elem_of_nil in Hk. }
  destruct Hg as (Hk' & -> & -> & Hn). split; [done|]. rewrite (scan_bind_ok _ _ _ tt (p + 1)%nat) by done. subst n.
  pose proof (Z.pow_le_mono_r 16 (Z.of_nat (length ds)) 8).
  erewrite read_hex_digits_complete; [|by eapply at_rest_ascii|done|lia|unfold u32_max; lia].
  f_equal. simpl. rewrite (len_utf8_ascii k) by done. lia.
Qed.

Lemma decode_escape_complete input start p used c tail :
  at_rest input p (used ++ tail) → denotes used c → escape_ends used tail →
  decode_escape input start p = (Ok c, (p + str_len used)%nat).
Proof.
  intros Hat Hd Hend. destruct Hd as [e c He|k n ds Hk Hl Hx Hs|ds Hl Hx Hv].
  - erewrite decode_simple by done. by rewrite str_len_single.
  - destruct (escape_code_hex input start k n p ds tail) as [Hsimple Hcode]; [done..|].
    unfold decode_escape. erewrite scan_bind_ok by by eapply scan_peek. cbv beta iota. rewrite Hsimple.
    erewrite scan_bind_ok by done. erewrite scan_bind_ok by done. unfold from_u32. by rewrite Hs.
  - destruct ds as [|c ds]; [simpl in Hl; lia|]. assert (Hc : is_digit c 8 = true) by by apply Forall_cons in Hx as [? _].
    destruct (octal_not_letter c Hc) as (Hsimple & H1 & H2 & H3 & H4).
    unfold decode_escape. erewrite scan_bind_ok by by eapply scan_peek. cbv beta iota. rewrite Hsimple. unfold escape_code.
    rewrite (proj2 (Z.eqb_neq _ _) H1), (proj2 (Z.eqb_neq _ _) H2), (proj2 (Z.eqb_neq _ _) H3), H4.
    assert (Hoct : read_octal_digits input start p = (Ok (digits_value 8 0 (c :: ds)), (p + str_len (c :: ds))%nat)).
    { unfold read_octal_digits. erewrite scan_bind_ok; [|eapply octal_run_complete; [done|done|lia|by apply Hend|done|done]].
      by destruct (Z.leb_spec (digits_value 8 0 (c :: ds)) 255); [|lia]. }
    erewrite scan_bind_ok by done. erewrite scan_bind_ok by done.
    unfold from_u32. rewrite is_scalar_small; [done|]. split; [|done]. by apply octal_value_nonneg.
Qed.

(** C34: escape decoding implements the escape grammar.  Wherever an escape
    starts, decoding neither panics nor overflows; a decoded character is the
    one its text denotes, a one-letter escape, a hexadecimal escape of two,
    four or eight digits naming a Unicode scalar, or one to three octal digits
    below 256; and every such text decodes to its character and no further. *)
Theorem decode_escape_correct input start p rest (Hat : at_rest input p rest) :
  match decode_escape input start p with
  | (Ok c, p') => ∃ used tail, rest = used ++ tail ∧ p' = (p + str_len used)%nat ∧ denotes used c
  | (Err e, p') => ∃ used tail, rest = used ++ tail ∧ p' = (p + str_len used)%nat
  | _ => False
  end ∧
  ∀ used c tail, rest = used ++ tail → denotes used c → escape_ends used tail →
    decode_escape input start p = (Ok c, (p + str_len used)%nat).
Proof.
  split; [exact (decode_escape_scans input start p rest Hat)|].
  intros used c tail -> Hd Hend. by eapply decode_escape_complete.
Qed.

Lemma decode_escape_correct_witness :
  at_rest (lit "x41b") 0%nat (lit "x41b") ∧ decode_escape (lit "x41b") 0%nat 0%nat = (Ok (ch "A"), 3%nat).
Proof.
  split; [reflexivity|]. destruct (decode_escape_correct (lit "x41b") 0%nat 0%nat (lit "x41b")) as [_ H]; [reflexivity|].
  apply (H (lit "x41") (ch "A") (lit "b")); [reflexivity| |].
  - apply (denotes_hex (ch "x") 2%nat (lit "41")); [by left|reflexivity| |reflexivity]. by repeat constructor.
  - intros Hx. by inversion Hx.
Defined.

(** C39: strings read back.  The canonical spelling of any text, with the
    backslash, the quote and the newline escaped, lexes to that text, whatever
    follows it, and the token keeps the spelling. *)
Theorem lex_string_roundtrip input p quote value tail
    (Hquote : quote = dquote ∨ quote = squote)
    (Hat : at_rest input p (quote_string quote value ++ tail)) :
  lex_string (B:=B) (R:=R) input p quote false false p
  = (Ok (StringLiteral value (quote_string quote value)), (p + str_len (quote_string quote value))%nat).
Proof.
  unfold lex_string. rewrite (scan_bind_ok _ _ _ p p) by done.
  assert (Hq : len_utf8 quote = 1%nat) by (by destruct Hquote as [-> | ->]).
  rewrite (scan_bind_ok _ _ _ tt (p + 1)%nat) by (unfold advance, delimiter; simpl; by rewrite Hq).
  pose proof (at_rest_len _ _ _ Hat) as Hlen. 
  assert (Hbody : at_rest input (p + 1) (flat_map (quote_char quote) value ++ quote :: tail)).
  { rewrite <- Hq. apply at_rest_cons. unfold quote_string in Hat. simpl in Hat. by rewrite <- (assoc_L (++)) in Hat. }
  erewrite scan_bind_ok.
  2:{ apply string_body_quoted with (tail := tail) (value := value); [done|done|].
      rewrite str_len_app in Hlen. unfold quote_string in Hlen. simpl in Hlen. lia. }
  assert (Hsum : (p + 1 + str_len (flat_map (quote_char quote) value ++ [quote]) = p + str_len (quote_string quote value))%nat).
  { unfold quote_string. simpl. rewrite Hq. lia. }
  rewrite Hsum. erewrite scan_bind_ok; [done|]. unfold slice_from. by rewrite (str_slice_between _ _ _ _ Hat).
Qed.
End roundtrip.

Lemma lex_string_roundtrip_witness :
  lex_string (B:=Z) (R:=Qcanon.Qc) (quote_string dquote (lit "a\b" ++ [nl]) ++ lit "+1") 0%nat dquote false false 0%nat
  = (Ok (StringLiteral (lit "a\b" ++ [nl]) (quote_string dquote (lit "a\b" ++ [nl]))), 8%nat).
Proof. apply (lex_string_roundtrip _ 0%nat dquote (lit "a\b" ++ [nl]) (lit "+1")); [by left|reflexivity]. Defined.
