(* ===== verification/Lexer.v ===== *)
(** * The lexer (crates/mojito-lexer/src/lexer.rs)

    The lexer's state, its token emission, the off-side rule and the character
    dispatch of [Iterator::next], which the scanners of [Scanner] do the
    reading for.  An error keeps the state it left: the diagnostics parser goes
    on calling [next] after one.

    [next] loops: a round returns, or queues a token, or consumes a character.
    Its fuel, [next_fuel], is more than the number of rounds the rest of the
    input allows ([next_total]). *)

From S2P Require Import Prelude Text Literal Token Scanner.
From Stdlib Require Import Ascii Sorted.

Local Open Scope Z_scope.

Inductive TokenPosition : Type := StatementStart | WithinStatement.

#[export] Instance TokenPosition_eq_dec : EqDecision TokenPosition.
Proof. solve_decision. Defined.

(** ** Token scanners

    The arms of the character dispatch that only read text: each is a scanner
    that returns the token the arm emits.  [token_start] is where the token
    began and [position] where it stands in its statement. *)

Section tokens.
Context {B R : Type} `{!BigInt B, !BigRational B R, !UnicodeTables}.
Context (input : str) (token_start : nat) (position : TokenPosition).
Notation Token := (Token B R).

(** [spelling]. *)
Definition spelling : Scan str := slice_from input token_start.

(** [n] bytes that are the token [t]. *)
Definition symbol (n : nat) (t : Token) : Scan Token := _ ← advance n; mret t.

(** The first of the spellings the rest starts with, else one character. *)
Fixpoint operator (alternatives : list (str * Token)) (single : Token) : Scan Token :=
  match alternatives with
  | [] => symbol 1 single
  | (text, t) :: alternatives =>
      rem ← remainder input;
      if starts_with rem text then symbol (str_len text) t else operator alternatives single
  end.

(** *** Words *)

(** [declares_enum], where [rem] follows the word. *)
Definition declares_enum (rem : str) : bool :=
  let name := drop_while (λ c, (c =? ch " ") || (c =? tab)) rem in
  let word := take_while (λ c, is_alphanumeric c || (c =? ch "_")) name in
  bool_decide (position = StatementStart)
  && (str_len name <? str_len rem)%nat
  && match head word with Some c => is_alphabetic c || (c =? ch "_") | None => false end
  && match keyword (B:=B) (R:=R) word with None => true | Some _ => false end.

(** The string prefixes: whether the string interpolates, whether it is raw. *)
Definition string_prefix (text : str) : option (bool * bool) :=
  let prefix := to_ascii_lowercase text in
  if bool_decide (prefix = lit "r") then Some (false, true)
  else if bool_decide (prefix = lit "t") then Some (true, false)
  else if bool_decide (prefix = lit "rt") || bool_decide (prefix = lit "tr") then Some (true, true)
  else None.

Definition word_token (text rem : str) : Token :=
  if bool_decide (text = lit "enum") && declares_enum rem then Enum
  else default (Identifier text) (keyword text).

Definition lex_word : Scan Token :=
  rem ← remainder input;
  let text := take_while is_word rem in
  _ ← advance (str_len text);
  rem ← remainder input;
  match string_prefix text, head rem with
  | Some (interpolated, raw), Some quote =>
      if is_quote quote then
        let triple := starts_with rem (replicate 3 quote) in
        if interpolated : bool then lex_tstring input quote triple raw
        else lex_string input token_start quote triple raw
      else mret (word_token text rem)
  | _, _ => mret (word_token text rem)
  end.

(** A stropped identifier: the name between backticks. *)
Definition lex_stropped : Scan Token :=
  start ← get_pos;
  _ ← advance 1;
  rem ← remainder input;
  let text := take_while (λ c, negb ((c =? backtick) || (c =? nl) || (c =? cr))) rem in
  _ ← advance (str_len text);
  rem ← remainder input;
  if starts_with_char rem backtick then symbol 1 (Identifier text)
  else fail (UnterminatedIdentifier start).

(** *** Numbers *)

(** The scanned text without its separators. *)
Definition cleaned (start : nat) : Scan str :=
  text ← slice_from input start; mret (filter (λ c, c ≠ ch "_") text).

Definition integer_token (start : nat) (digits : str) (radix : Z) : Scan Token :=
  v ← lift (ok_or (InvalidInteger start) (parse_radix digits radix));
  text ← spelling; mret (IntLit v text).

Definition float_token (start : nat) (digits : str) : Scan Token :=
  v ← lift (ok_or (InvalidFloat start) (parse_decimal (B:=B) digits));
  text ← spelling; mret (FloatLit v text).

(** The radix a prefix names: [0x], [0o] or [0b]. *)
Definition radix_prefix (c : option char) : option Z :=
  match c with
  | Some c =>
      if (c =? ch "x") || (c =? ch "X") then Some 16
      else if (c =? ch "o") || (c =? ch "O") then Some 8
      else if (c =? ch "b") || (c =? ch "B") then Some 2
      else None
  | None => None
  end.

Definition next_is_digit (rem : str) : bool :=
  match head rem with Some c => is_ascii_digit c | None => false end.

(** The fraction of a number: a dot that does not start [..], and its digits. *)
Definition lex_fraction : Scan bool :=
  rem ← remainder input;
  if starts_with_char rem (ch ".") && negb (starts_with rem (lit "..")) then
    _ ← advance 1;
    rem ← remainder input;
    _ ← (if next_is_digit rem then consume_digit_run input 10 else mret tt);
    mret true
  else mret false.

(** A decimal integer has no leading zero unless it is all zeros. *)
Definition leading_zero (digits : str) : bool :=
  (1 <? str_len digits)%nat && starts_with_char digits (ch "0") && existsb (λ d, negb (d =? ch "0")) digits.

Definition lex_decimal (start : nat) : Scan Token :=
  _ ← consume_digit_run input 10;
  fraction ← lex_fraction;
  exponent ← consume_exponent input;
  digits ← cleaned start;
  if (fraction : bool) || exponent then float_token start digits
  else if leading_zero digits then fail (InvalidInteger start)
  else integer_token start digits 10.

Definition lex_number (c : char) : Scan Token :=
  start ← get_pos;
  rem ← remainder input;
  after ← lift (unwrap (str_from rem 1));
  match (if c =? ch "0" then radix_prefix (head after) else None) with
  | Some radix =>
      _ ← advance 2;
      digits_start ← get_pos;
      _ ← consume_digit_run input radix;
      digits ← cleaned digits_start;
      integer_token start digits radix
  | None => lex_decimal start
  end.

(** A dot: an ellipsis, a float without whole digits, or itself. *)
Definition lex_dot : Scan Token :=
  rem ← remainder input;
  if starts_with rem (lit "...") then symbol 3 Ellipsis
  else
    after ← lift (unwrap (str_from rem 1));
    if next_is_digit after then
      start ← get_pos;
      _ ← advance 1;
      _ ← consume_digit_run input 10;
      _ ← consume_exponent input;
      digits ← cleaned start;
      float_token start digits
    else symbol 1 Dot.

(** *** Dispatch *)

Definition scan_token (c : char) : Scan Token :=
  if c =? ch "&" then operator [(lit "&=", AmpEq)] Amp
  else if c =? ch "|" then operator [(lit "|=", PipeEq)] Pipe
  else if c =? ch "^" then operator [(lit "^=", CaretEq)] Caret
  else if c =? ch ":" then operator [(lit ":=", ColonEq)] Colon
  else if c =? ch "," then symbol 1 Comma
  else if c =? ch ";" then symbol 1 Semicolon
  else if c =? ch "." then lex_dot
  else if c =? ch "@" then symbol 1 At
  else if c =? ch "=" then operator [(lit "==", EqEq)] Assign
  else if c =? ch "~" then symbol 1 Tilde
  else if c =? ch "-" then operator [(lit "->", Arrow); (lit "-=", MinusEq)] Minus
  else if c =? ch "+" then operator [(lit "+=", PlusEq)] Plus
  else if c =? ch "*" then operator [(lit "**=", DoubleStarEq); (lit "**", DoubleStar); (lit "*=", StarEq)] Star
  else if c =? ch "/" then
    operator [(lit "//=", DoubleSlashEq); (lit "//", DoubleSlash); (lit "/=", SlashEq)] Slash
  else if c =? ch "%" then operator [(lit "%=", PercentEq)] Percent
  else if c =? ch "<" then operator [(lit "<<=", ShlEq); (lit "<<", Shl); (lit "<=", TLe)] TLt
  else if c =? ch ">" then operator [(lit ">>=", ShrEq); (lit ">>", Shr); (lit ">=", TGe)] TGt
  else if c =? ch "!" then
    rem ← remainder input;
    if starts_with rem (lit "!=") then symbol 2 NotEq
    else p ← get_pos; fail (UnexpectedCharacter c p)
  else if is_quote c then
    rem ← remainder input;
    lex_string input token_start c (starts_with rem (replicate 3 c)) false
  else if c =? backtick then lex_stropped
  else if is_ascii_alphabetic c || (c =? ch "_") then lex_word
  else if is_ascii_digit c then lex_number c
  else p ← get_pos; fail (UnexpectedCharacter c p).
End tokens.

(** ** State *)

Record Lexer (B R : Type) : Type := mkLexer {
  input : str;
  pos : nat;
  token_start : nat;
  indent_stack : list nat;       (* the top of the stack first *)
  paren_count : nat;
  at_line_start : bool;
  eof_emitted : bool;
  last_token_was_string : bool;
  position : TokenPosition;
  pending_tokens : list (Token B R * Span);
}.
Arguments mkLexer {B R}.
Arguments input {B R}. Arguments pos {B R}. Arguments token_start {B R}. Arguments indent_stack {B R}.
Arguments paren_count {B R}. Arguments at_line_start {B R}. Arguments eof_emitted {B R}.
Arguments last_token_was_string {B R}. Arguments position {B R}. Arguments pending_tokens {B R}.

Section lexer.
Context {B R : Type} `{!BigInt B, !BigRational B R, !UnicodeTables}.
Notation Lexer := (Lexer B R).
Notation Token := (Token B R).

(** [Lexer::new]. *)
Definition new (source : str) : Lexer :=
  mkLexer source 0 0 [0%nat] 0 true false false StatementStart [].

(** Field updates. *)
Definition set_pos (p : nat) (l : Lexer) : Lexer :=
  mkLexer l.(input) p l.(token_start) l.(indent_stack) l.(paren_count) l.(at_line_start) l.(eof_emitted)
    l.(last_token_was_string) l.(position) l.(pending_tokens).
Definition mark_start (l : Lexer) : Lexer :=
  mkLexer l.(input) l.(pos) l.(pos) l.(indent_stack) l.(paren_count) l.(at_line_start) l.(eof_emitted)
    l.(last_token_was_string) l.(position) l.(pending_tokens).
Definition set_indent_stack (s : list nat) (l : Lexer) : Lexer :=
  mkLexer l.(input) l.(pos) l.(token_start) s l.(paren_count) l.(at_line_start) l.(eof_emitted)
    l.(last_token_was_string) l.(position) l.(pending_tokens).
Definition set_paren_count (n : nat) (l : Lexer) : Lexer :=
  mkLexer l.(input) l.(pos) l.(token_start) l.(indent_stack) n l.(at_line_start) l.(eof_emitted)
    l.(last_token_was_string) l.(position) l.(pending_tokens).
Definition set_at_line_start (b : bool) (l : Lexer) : Lexer :=
  mkLexer l.(input) l.(pos) l.(token_start) l.(indent_stack) l.(paren_count) b l.(eof_emitted)
    l.(last_token_was_string) l.(position) l.(pending_tokens).
Definition set_eof_emitted (l : Lexer) : Lexer :=
  mkLexer l.(input) l.(pos) l.(token_start) l.(indent_stack) l.(paren_count) l.(at_line_start) true
    l.(last_token_was_string) l.(position) l.(pending_tokens).
Definition set_pending (q : list (Token * Span)) (l : Lexer) : Lexer :=
  mkLexer l.(input) l.(pos) l.(token_start) l.(indent_stack) l.(paren_count) l.(at_line_start) l.(eof_emitted)
    l.(last_token_was_string) l.(position) q.

(** ** Tokens *)

Definition is_string_token (t : Token) : bool :=
  match t with StringLiteral _ _ | TripleStringLiteral _ _ | TString _ _ => true | _ => false end.

Definition starts_statement (t : Token) : bool :=
  match t with Newline | Indent | Dedent | Semicolon => true | _ => false end.

Definition emit (t : Token) (l : Lexer) : Lexer :=
  mkLexer l.(input) l.(pos) l.(token_start) l.(indent_stack) l.(paren_count) l.(at_line_start) l.(eof_emitted)
    (is_string_token t) (if starts_statement t then StatementStart else WithinStatement)
    (l.(pending_tokens) ++ [(t, (l.(token_start), l.(pos)))]).

(** ** Stateful steps *)

Definition M (A : Type) : Type := Lexer → outcome LexError A * Lexer.

#[export] Instance M_ret : MRet M := λ A a l, (Ok a, l).
#[export] Instance M_bind : MBind M := λ A B f m l,
  match m l with
  | (Ok a, l) => f a l
  | (Err e, l) => (Err e, l)
  | (Panic, l) => (Panic, l)
  | (Diverge, l) => (Diverge, l)
  end.

Definition get : M Lexer := λ l, (Ok l, l).
Definition modify (f : Lexer → Lexer) : M unit := λ l, (Ok tt, f l).
Definition lift_outcome {A} (r : outcome LexError A) : M A := λ l, (r, l).
Definition throw {A} (e : LexError) : M A := lift_outcome (Err e).
Definition panic {A} : M A := lift_outcome Panic.

(** Run a scanner on the input from the current position. *)
Definition scan {A} (f : str → Scan A) : M A :=
  λ l, let '(r, p) := f l.(input) l.(pos) in (r, set_pos p l).

Definition rest : M str := scan remainder.
Definition bump (n : nat) : M unit := scan (λ _, advance n).
Definition here : M nat := scan (λ _, get_pos).
(** [self.paren_count -= 1] for a closing delimiter that must match. *)
Definition close_delimiter (t : Token) : M unit :=
  _ ← bump 1;
  l ← get;
  match l.(paren_count) with
  | O => throw (UnmatchedParenthesis l.(pos))
  | S n => _ ← modify (set_paren_count n); modify (emit t)
  end.

Definition open_delimiter (t : Token) : M unit :=
  _ ← bump 1; _ ← modify (λ l, set_paren_count (S l.(paren_count)) l); modify (emit t).

(** ** Layout *)

(** [has_indented_string_continuation]. *)
Definition has_indented_string_continuation : M bool :=
  l ← get;
  rem ← rest;
  if negb l.(last_token_was_string) || negb (starts_with_char rem nl) then mret false
  else
    after_newline ← lift_outcome (unwrap (str_from rem 1));
    let spaces := length (take_while (Z.eqb (ch " ")) after_newline) in
    if (spaces <=? default 0 (head l.(indent_stack)))%nat then mret false
    else
      rest_of_line ← lift_outcome (unwrap (str_from after_newline spaces));
      if match head rest_of_line with Some c => is_quote c | None => false end then mret true
      else
        let prefix := take_while (λ c, contains c (lit "rRtT")) (take 2 rest_of_line) in
        mret (contains (to_ascii_lowercase prefix) [lit "r"; lit "t"; lit "rt"; lit "tr"]
              && match str_from rest_of_line (str_len prefix) with
                 | Some (c :: _) => is_quote c
                 | _ => false
                 end).

(** Close the suites deeper than [spaces]. *)
Fixpoint dedent_to (stack : list nat) (spaces : nat) : M unit :=
  match stack with
  | [] => mret tt
  | top :: below =>
      match Nat.compare top spaces with
      | Gt => _ ← modify (set_indent_stack below); _ ← modify (emit Dedent); dedent_to below spaces
      | Eq => mret tt
      | Lt => p ← here; throw (IndentationError p)
      end
  end.

(** What a step of [next]'s loop asks for: another iteration, the rest of the
    iteration, or to return. *)
Inductive flow : Type := Again | FallThrough | Yield (item : option (Token * Span)).

(** Step 4: the indentation of a line. *)
Definition line_start : M flow :=
  l ← get;
  rem ← rest;
  let spaces := length (take_while (Z.eqb (ch " ")) rem) in
  let is_blank_line :=
    match drop_while (Z.eqb (ch " ")) rem with
    | c :: _ => (c =? nl) || (c =? cr) || (c =? ch "#")
    | [] => false
    end in
  _ ← bump spaces;
  if is_blank_line then
    _ ← scan skip_to_line_end;
    rem ← rest;
    _ ← (if starts_with_char rem nl then bump 1 else mret tt);
    _ ← modify (set_at_line_start true);
    mret Again
  else
    _ ← modify (set_at_line_start false);
    if negb (l.(paren_count) =? 0)%nat then mret FallThrough
    else
      current_indent ← lift_outcome (unwrap (head l.(indent_stack)));
      match Nat.compare spaces current_indent with
      | Gt => _ ← modify (set_indent_stack (spaces :: l.(indent_stack))); _ ← modify (emit Indent); mret Again
      | Lt =>
          _ ← dedent_to l.(indent_stack) spaces;
          l ← get;
          mret (if bool_decide (l.(pending_tokens) = []) then FallThrough else Again)
      | Eq => mret FallThrough
      end.

(** Step 3: the end of the input closes the line and every suite. *)
Fixpoint unwind (stack : list nat) : M unit :=
  match stack with
  | _ :: ((_ :: _) as below) => _ ← modify (set_indent_stack below); _ ← modify (emit Dedent); unwind below
  | _ => mret tt
  end.

Definition end_of_file : M unit :=
  l ← get;
  _ ← (if l.(at_line_start) then mret tt else modify (emit Newline));
  _ ← unwind l.(indent_stack);
  _ ← modify (emit Eof);
  modify set_eof_emitted.

(** ** Characters *)

Definition newline : M unit :=
  l ← get;
  continued ← (if (l.(paren_count) =? 0)%nat then has_indented_string_continuation else mret false);
  if (continued : bool) then bump 1
  else
    _ ← bump 1;
    if (l.(paren_count) =? 0)%nat then _ ← modify (set_at_line_start true); modify (emit Newline)
    else mret tt.

Definition line_continuation : M unit :=
  l ← get;
  let after := (l.(pos) + 1)%nat in
  tail ← lift_outcome (unwrap (str_from l.(input) after));
  if starts_with tail [cr; nl] then modify (set_pos (after + 2)%nat)
  else if starts_with_char tail nl then modify (set_pos (after + 1)%nat)
  else throw (UnexpectedCharacter backslash l.(pos)).

(** Step 5: the token, or the white space, that starts with [c]: white space,
    layout and delimiters change the lexer's state, any other token is only
    scanned. *)
Definition consume (c : char) : M unit :=
  if (c =? ch " ") || (c =? tab) || (c =? cr) then bump (len_utf8 c)
  else if c =? ch "#" then scan skip_to_line_end
  else if c =? nl then newline
  else if c =? backslash then line_continuation
  else if c =? ch "(" then open_delimiter LParen
  else if c =? ch ")" then close_delimiter RParen
  else if c =? ch "[" then open_delimiter LBracket
  else if c =? ch "]" then close_delimiter RBracket
  else if c =? ch "{" then open_delimiter LBrace
  else if c =? ch "}" then
    _ ← bump 1; _ ← modify (λ l, set_paren_count (Nat.pred l.(paren_count)) l); modify (emit RBrace)
  else
    l ← get;
    t ← scan (λ input, scan_token input l.(token_start) l.(position) c);
    modify (emit t).

(** ** [Iterator::next] *)

(** One iteration of the loop. *)
Definition round : M flow :=
  l ← get;
  match l.(pending_tokens) with
  | spanned :: queue => _ ← modify (set_pending queue); mret (Yield (Some spanned))
  | [] =>
      _ ← modify mark_start;
      if l.(eof_emitted) then mret (Yield None)
      else if (str_len l.(input) <=? l.(pos))%nat then _ ← end_of_file; mret Again
      else
        step ← (if l.(at_line_start) then line_start else mret FallThrough);
        match step with
        | FallThrough =>
            rem ← rest;
            c ← lift_outcome (unwrap (head rem));
            _ ← consume c;
            mret Again
        | step => mret step
        end
  end.

Fixpoint rounds (fuel : nat) : M (option (Token * Span)) :=
  match fuel with
  | O => lift_outcome Diverge
  | S fuel =>
      step ← round;
      match step with
      | Yield item => mret item
      | _ => rounds fuel
      end
  end.

(** A round consumes a byte or fills the queue. *)
Definition next_fuel (l : Lexer) : nat := (3 + str_len l.(input))%nat.

Definition next : M (option (Token * Span)) := l ← get; rounds (next_fuel l).

(** Collecting the tokens stops at the first error. *)
Fixpoint collect (fuel : nat) : M (list (Token * Span)) :=
  match fuel with
  | O => lift_outcome Diverge
  | S fuel =>
      item ← next;
      match item with
      | None => mret []
      | Some spanned => tokens ← collect fuel; mret (spanned :: tokens)
      end
  end.

(** At most a token and an indentation change a byte, and the closing ones. *)
Definition collect_fuel (source : str) : nat := (4 + 3 * str_len source)%nat.

Definition lex_spanned (source : str) : outcome LexError (list (Token * Span)) :=
  fst (collect (collect_fuel source) (new source)).

(** [lex] (src/lib.rs): the tokens without their spans. *)
Definition lex (source : str) : outcome LexError (list Token) :=
  match lex_spanned source with
  | Ok tokens => Ok (map fst tokens)
  | Err e => Err e
  | Panic => Panic
  | Diverge => Diverge
  end.
End lexer.

(** Evaluation over integers, canonical fractions and the ASCII tables. *)
Definition lex_ascii (source : str) : outcome LexError (list (Token Z Qcanon.Qc)) :=
  lex (H:=ascii_tables) source.

(** ** What a token scanner yields *)

Section token_classes.
Context {B R : Type}.
Notation Token := (Token B R).

(** Not a layout token, a delimiter or the end. *)
Definition is_plain (t : Token) : bool :=
  match t with
  | Newline | Indent | Dedent | Eof | LParen | RParen | LBracket | RBracket | LBrace | RBrace => false
  | _ => true
  end.

(** The source text a literal token keeps. *)
Definition literal_spelling (t : Token) : option str :=
  match t with
  | IntLit _ s | FloatLit _ s | StringLiteral _ s | TripleStringLiteral _ s => Some s
  | _ => None
  end.

(** A token with no payload to account for. *)
Definition is_simple (t : Token) : bool :=
  is_plain t && bool_decide (literal_spelling t = None) && bool_decide (interpolations t = []).

(** What a token stands for in the measure of the tokens left: itself, or the
    potential of the longest fragment it interpolates. *)
Definition weight (t : Token) : nat :=
  foldr (λ src n, Nat.max (3 * str_len src + 3) n) 1%nat (interpolations t).

Arguments weight : simpl never.

Lemma weight_none t : interpolations t = [] → weight t = 1%nat.
Proof. unfold weight. by intros ->. Qed.

Lemma weight_pos t : (1 <= weight t)%nat.
Proof. unfold weight. induction (interpolations t); cbn [foldr]; lia. Qed.

Lemma weight_fragment t src : src ∈ interpolations t → (3 * str_len src + 3 <= weight t)%nat.
Proof.
  unfold weight. induction (interpolations t) as [|x l IH]; [by intros ?%elem_of_nil|].
  cbn [foldr]. intros [->|Hin]%elem_of_cons; [lia|]. specialize (IH Hin). lia.
Qed.

Lemma weight_bound t n :
  (1 <= n)%nat → (∀ src, src ∈ interpolations t → (str_len src < n)%nat) → (weight t <= 3 * n)%nat.
Proof.
  unfold weight. intros Hn. induction (interpolations t) as [|x l IH]; cbn [foldr]; [lia|]. intros Hall.
  pose proof (Hall x ltac:(by left)). specialize (IH (λ src Hsrc, Hall src (list_elem_of_further _ _ _ Hsrc))). lia.
Qed.

(** A scanner's token, where [mid] is the text since the token's start. *)
Definition scanned (mid : str) (t : Token) (used : str) : Prop :=
  used ≠ [] ∧ is_plain t = true ∧ (∀ s, literal_spelling t = Some s → s = mid ++ used) ∧
  (weight t <= 3 * str_len used)%nat.

Lemma scanned_simple mid t used : is_simple t = true → used ≠ [] → scanned mid t used.
Proof.
  intros [[Hp Hl]%andb_true_iff Hi]%andb_true_iff Hu. apply bool_decide_eq_true in Hl, Hi.
  split_and!; [done|done| |]; [intros s Hs; congruence|]. rewrite (weight_none t Hi). pose proof (str_len_pos _ Hu). lia.
Qed.

(** A literal that keeps its text. *)
Lemma scanned_spelled mid t used :
  used ≠ [] → is_plain t = true → literal_spelling t = Some (mid ++ used) → scanned mid t used.
Proof.
  intros Hu Hp Hl. pose proof (str_len_pos _ Hu). split_and!; [done|done|intros s Hs; congruence|].
  rewrite weight_none; [lia|]. by destruct t.
Qed.
End token_classes.

Section token_scanners.
Context {B R : Type} `{!BigInt B, !BigRational B R, !UnicodeTables}.
Context (input : str) (token_start : nat) (position : TokenPosition).
Notation Token := (Token B R).

Lemma keyword_simple text (t : Token) : keyword text = Some t → is_simple t = true.
Proof.
  unfold keyword. assert (Ht : Forall (λ e : str * Token, is_simple e.2 = true) keyword_table).
  { unfold keyword_table. by repeat constructor. }
  induction Ht as [|[w u] table Hu _ IH]; simpl; [done|]. case_bool_decide; [by intros [= <-]|done].
Qed.

Lemma word_token_simple text rem : is_simple (word_token (B:=B) (R:=R) position text rem) = true.
Proof.
  unfold word_token. destruct (_ && _); [done|].
  destruct (keyword text) as [t|] eqn:Hk; [by eapply keyword_simple|done].
Qed.

Lemma symbol_scans n t p c r pre tail :
  c :: r = pre ++ tail → n = str_len pre → pre ≠ [] → is_simple t = true →
  at_rest input p (c :: r) → ∀ mid, scans (symbol (B:=B) (R:=R) n t) p (c :: r) (λ t used _, scanned mid t used).
Proof.
  intros Hr -> Hne Ht Hat mid. unfold symbol. scan_step. eapply scans_advance; [done|done|]. do 2 scan_step.
  apply scanned_simple; [done|]. by rewrite app_nil_r.
Qed.

Lemma operator_scans alternatives single p c r mid :
  at_rest input p (c :: r) → c < 0x80 → is_simple single = true →
  forallb (λ e : str * Token, negb (bool_decide (e.1 = [])) && is_simple e.2) alternatives = true →
  scans (operator (B:=B) (R:=R) input alternatives single) p (c :: r) (λ t used _, scanned mid t used).
Proof.
  intros Hat Hc Hs. induction alternatives as [|[text t] alternatives IH]; simpl.
  { intros _. apply (symbol_scans 1 single p c r [c] r); [done|by rewrite str_len_single, len_utf8_ascii|done..]. }
  intros [[Hne Ht]%andb_true_iff Ha]%andb_true_iff. apply negb_true_iff, bool_decide_eq_false in Hne.
  do 3 scan_step. subst p0. rewrite Nat.add_0_r in *. destruct (starts_with (c :: r) text) eqn:Hw; [|by apply IH].
  apply starts_with_spec in Hw as [tail Hw]. by eapply symbol_scans.
Qed.

Lemma lex_stropped_scans p r mid :
  at_rest input p (backtick :: r) →
  scans (lex_stropped (B:=B) (R:=R) input) p (backtick :: r) (λ t used _, scanned mid t used).
Proof.
  intros Hat. unfold lex_stropped. do 3 scan_step. scan_step. eapply scans_advance1; [done|done|]. scan_step.
  do 3 scan_step. set (f := λ c, negb _). scan_step. eapply scans_advance; [by rewrite (take_while_drop_while f)|done|].
  scan_step. do 3 scan_step. destruct (starts_with_char _ _) eqn:Hs; [|scan_step].
  apply starts_with_char_cons in Hs as [tail Htail]. rewrite Htail in *. unfold symbol. scan_step. eapply scans_advance1; [done|done|].
  do 2 scan_step. by apply scanned_simple.
Qed.

(** *** Numbers *)

Lemma between_at a mid p rest : between input a mid p rest → at_rest input p rest.
Proof. intros [Ha ->]. by apply at_rest_advance. Qed.

Lemma integer_token_scans start digits radix p rest mid :
  between input token_start mid p rest →
  scans (integer_token (B:=B) (R:=R) input token_start start digits radix) p rest
    (λ t used _, used = [] ∧ is_plain t = true ∧ literal_spelling t = Some mid).
Proof.
  intros Hb. pose proof (between_at _ _ _ _ Hb). unfold integer_token. scan_step. apply scans_ok_or. intros v _. scan_step.
  subst p0. rewrite Nat.add_0_r in *. unfold spelling. scan_step. eapply scans_slice; [done|]. by do 2 scan_step.
Qed.

Lemma float_token_scans start digits p rest mid :
  between input token_start mid p rest →
  scans (float_token (B:=B) (R:=R) input token_start start digits) p rest
    (λ t used _, used = [] ∧ is_plain t = true ∧ literal_spelling t = Some mid).
Proof.
  intros Hb. pose proof (between_at _ _ _ _ Hb). unfold float_token. scan_step. apply scans_ok_or. intros v _. scan_step.
  subst p0. rewrite Nat.add_0_r in *. unfold spelling. scan_step. eapply scans_slice; [done|]. by do 2 scan_step.
Qed.

Lemma cleaned_scans start mid p rest (Q : str → str → str → Prop) :
  between input start mid p rest → Q (filter (λ c, c ≠ ch "_") mid) [] rest → scans (cleaned input start) p rest Q.
Proof.
  intros Hb HQ. pose proof (between_at _ _ _ _ Hb). unfold cleaned. scan_step. eapply scans_slice; [done|]. by do 2 scan_step.
Qed.

Lemma lex_fraction_scans p rest :
  at_rest input p rest → scans (lex_fraction input) p rest (λ _ _ _, True).
Proof.
  intros Hat. unfold lex_fraction. do 3 scan_step. destruct (_ && _) eqn:Hd; [|by scan_step].
  apply andb_true_iff in Hd as [(r & ->)%starts_with_char_cons _]. scan_step. eapply scans_advance1; [done|by vm_compute|].
  do 4 scan_step. scan_step. destruct (next_is_digit r); scan_step; by do 2 scan_step.
Qed.

(** The closing steps of a number whose text so far is [used]. *)
Lemma number_tail mid used t used' :
  used' = [] ∧ is_plain (B:=B) (R:=R) t = true ∧ literal_spelling t = Some (mid ++ used) → used ≠ [] →
  scanned mid t (used ++ used').
Proof.
  intros (-> & Hp & Hl) Hu. rewrite app_nil_r. by apply scanned_spelled.
Qed.

(** Sequencing that keeps the text since the token's start. *)
Lemma scans_bind_between {A C} (m : Scan A) (f : A → Scan C) a mid p rest (Q : C → str → str → Prop) :
  between input a mid p rest →
  scans m p rest (λ x used rest', ∀ p', between input a (mid ++ used) p' rest' →
    scans (f x) p' rest' (λ y used' rest'', Q y (used ++ used') rest'')) →
  scans (m ≫= f) p rest Q.
Proof.
  intros Hb Hm. eapply scans_bind; [by eapply between_at|]. eapply scans_mono; [exact Hm|].
  intros x used rest' -> Hf p' _ ->. apply Hf. by apply between_advance.
Qed.

Lemma between_split a m1 m2 p rest : between input a (m1 ++ m2) p rest → between input (a + str_len m1) m2 p rest.
Proof.
  intros [Ha ->]. split.
  - apply at_rest_advance. by rewrite (assoc_L (++)).
  - rewrite str_len_app. lia.
Qed.

Lemma is_digit_ascii c : is_ascii_digit c = true → is_digit c 10 = true ∧ c < 0x80.
Proof.
  intros Hc. unfold is_digit, to_digit. rewrite Hc. unfold is_ascii_digit, char_in in Hc.
  change (ch "0") with 48 in *. change (ch "9") with 57 in *.
  split; [|lia]. apply bool_decide_eq_true. simpl. destruct (Z.ltb_spec (c - 48) 10); [by eexists|lia].
Qed.

Lemma lex_decimal_scans c r p mid :
  between input token_start mid p (c :: r) → is_ascii_digit c = true →
  scans (lex_decimal (B:=B) (R:=R) input token_start p) p (c :: r) (λ t used _, scanned mid t used).
Proof.
  intros Hb Hc. destruct (is_digit_ascii c Hc) as [Hd _]. unfold lex_decimal.
  assert (Hp : p = (token_start + str_len mid)%nat) by (by destruct Hb).
  eapply scans_bind_between; [done|]. apply scans_digit_run; [by eapply between_at|]. intros p1 Hb1.
  eapply scans_bind_between; [done|]. eapply scans_mono; [by eapply lex_fraction_scans, between_at|].
  intros fraction u2 rest2 _ _ p2 Hb2.
  eapply scans_bind_between; [done|]. eapply scans_mono; [by eapply consume_exponent_scans, between_at|].
  intros exponent u3 rest3 _ _ p3 Hb3. rewrite <- !(assoc_L (++)) in Hb3.
  eapply scans_bind_between; [done|]. eapply cleaned_scans; [rewrite Hp; by apply between_split|].
  intros p4 Hb4. rewrite app_nil_r in Hb4. simpl take_while in *. rewrite Hd in *. simpl in *.
  set (u1 := take_while _ r) in *.
  assert (Hgoal : ∀ t used', used' = [] ∧ is_plain (B:=B) (R:=R) t = true ∧
      literal_spelling t = Some (mid ++ c :: u1 ++ u2 ++ u3) → scanned mid t (c :: u1 ++ u2 ++ u3 ++ used')).
  { intros t used' (-> & Hres). rewrite app_nil_r. replace (c :: u1 ++ u2 ++ u3) with ((c :: u1 ++ u2 ++ u3) ++ []) by by rewrite app_nil_r.
    by apply number_tail. }
  destruct (fraction || exponent).
  { eapply scans_mono; [by apply float_token_scans|]. intros t used' ? _ Hres. by apply Hgoal. }
  destruct (leading_zero _); [scan_step|].
  eapply scans_mono; [by apply integer_token_scans|]. intros t used' ? _ Hres. by apply Hgoal.
Qed.

Lemma lex_number_scans c r p mid :
  between input token_start mid p (c :: r) → is_ascii_digit c = true →
  scans (lex_number (B:=B) (R:=R) input token_start c) p (c :: r) (λ t used _, scanned mid t used).
Proof.
  intros Hb Hc. destruct (is_digit_ascii c Hc) as [_ Ha]. pose proof (between_at _ _ _ _ Hb) as Hat.
  unfold lex_number. do 3 scan_step. do 3 scan_step. scan_step. eapply scans_lift_ok; [by rewrite str_from_ascii|]. scan_step.
  subst p0 p1 p2. rewrite !Nat.add_0_r in *. clear Hat0 Hat1 Hat2.
  destruct (if c =? ch "0" then _ else _) as [radix|] eqn:Hr; [|by apply lex_decimal_scans].
  assert (∃ x s, r = x :: s ∧ x < 0x80) as (x & s & -> & Hx).
  { destruct (c =? ch "0"); [|done]. destruct r as [|x s]; [done|]. exists x, s. split; [done|]. simpl in Hr.
    repeat (case_match; [match goal with E : (_ || _) = true |- _ =>
      apply orb_true_iff in E as [->%Z.eqb_eq| ->%Z.eqb_eq]; by vm_compute end|]). done. }
  eapply scans_bind_between; [done|]. eapply (scans_advance _ _ _ _ [c; x]); [done|simpl; by rewrite !len_utf8_ascii|].
  intros p1 Hb1. eapply scans_bind_between; [done|]. apply scans_get_pos. intros p2 Hb2. rewrite app_nil_r in Hb2.
  eapply scans_bind_between; [done|]. apply scans_digit_run; [by eapply between_at|]. intros p3 Hb3.
  assert (p1 = (token_start + str_len (mid ++ [c; x]))%nat) as -> by (by destruct Hb1).
  eapply scans_bind_between; [done|]. eapply cleaned_scans; [by apply between_split|]. intros p4 Hb4.
  set (u := take_while _ s) in *. rewrite app_nil_r, <- (assoc_L (++)) in Hb4.
  eapply scans_mono; [by apply integer_token_scans|]. intros t used' ? _ Hres. simpl app.
  by apply (number_tail mid (c :: x :: u) t used').
Qed.

Lemma lex_dot_scans r p mid :
  between input token_start mid p (ch "." :: r) →
  scans (lex_dot (B:=B) (R:=R) input token_start) p (ch "." :: r) (λ t used _, scanned mid t used).
Proof.
  intros Hb. pose proof (between_at _ _ _ _ Hb) as Hat. unfold lex_dot. do 3 scan_step.
  subst p0. rewrite Nat.add_0_r in *. clear Hat0. destruct (starts_with _ (lit "...")) eqn:Hdots.
  { apply starts_with_spec in Hdots as [tail Ht]. by eapply symbol_scans. }
  scan_step. eapply scans_lift_ok; [by rewrite str_from_ascii|]. scan_step. subst p0. rewrite Nat.add_0_r in *. clear Hat0.
  destruct (next_is_digit r); [|by eapply (symbol_scans 1 _ _ _ _ [ch "."])].
  do 3 scan_step. subst p0. rewrite Nat.add_0_r in *. clear Hat0.
  eapply scans_bind_between; [done|]. eapply scans_advance1; [done|by vm_compute|]. intros p1 Hb1.
  eapply scans_bind_between; [done|]. apply scans_digit_run; [by eapply between_at|]. intros p2 Hb2.
  eapply scans_bind_between; [done|]. eapply scans_mono; [by eapply consume_exponent_scans, between_at|].
  intros exponent u2 rest2 _ _ p3 Hb3. set (u1 := take_while _ r) in *. rewrite <- !(assoc_L (++)) in Hb3.
  assert (p = (token_start + str_len mid)%nat) as -> by (by destruct Hb).
  eapply scans_bind_between; [done|]. eapply cleaned_scans; [by apply between_split|]. intros p4 Hb4.
  rewrite app_nil_r in Hb4. eapply scans_mono; [by apply float_token_scans|]. intros t used' ? _ Hres.
  assert (Hu : [] ++ [] ++ [] ++ [ch "."] ++ u1 ++ u2 ++ [] ++ used' = ([ch "."] ++ u1 ++ u2) ++ used').
  { simpl. by rewrite <- (assoc_L (++)). }
  rewrite Hu. by apply number_tail.
Qed.

Lemma string_prefix_ascii text : is_Some (string_prefix text) → text ≠ [].
Proof. by intros [? ?] ->. Qed.

Lemma lex_word_scans c r p mid :
  between input token_start mid p (c :: r) → is_word c = true →
  scans (lex_word (B:=B) (R:=R) input token_start position) p (c :: r) (λ t used _, scanned mid t used).
Proof.
  intros Hb Hc. pose proof (between_at _ _ _ _ Hb) as Hat. unfold lex_word. do 3 scan_step.
  subst p0. rewrite Nat.add_0_r in *. clear Hat0. set (text := take_while is_word (c :: r)).
  assert (Htext : text ≠ []) by (subst text; simpl; by rewrite Hc).
  assert (Hrest : c :: r = text ++ drop_while is_word (c :: r)) by (subst text; by rewrite take_while_drop_while).
  eapply scans_bind_between; [done|]. eapply scans_advance; [exact Hrest|done|]. intros p1 Hb1.
  set (tail := drop_while is_word (c :: r)) in *.
  eapply scans_bind_between; [done|]. apply scans_remainder; [by eapply between_at|]. intros p2 Hb2. rewrite app_nil_r in Hb2.
  assert (Hword : ∀ rem, scans (mret (word_token (B:=B) (R:=R) position text rem)) p2 tail
    (λ t used _, scanned mid t ([] ++ text ++ [] ++ used))).
  { intros rem. scan_step. apply scanned_simple; [apply word_token_simple|]. simpl. by rewrite app_nil_r. }
  destruct (string_prefix text) as [[interpolated raw]|]; [|by apply Hword].
  destruct (head tail) as [quote|] eqn:Hq; [|by apply Hword]. destruct (is_quote quote) eqn:Hquote; [|by apply Hword].
  destruct tail as [|q tail]; [done|]. injection Hq as ->.
  assert (Hascii : quote < 0x80).
  { unfold is_quote, squote, dquote in Hquote. lia. }
  assert (Hdelim : starts_with (quote :: tail) (delimiter quote (starts_with (quote :: tail) (replicate 3 quote))) = true).
  { unfold delimiter. destruct (starts_with (quote :: tail) (replicate 3 quote)) eqn:H3; [done|]. simpl. by rewrite Z.eqb_refl. }
  destruct interpolated.
  - eapply scans_mono; [eapply lex_tstring_scans; [by eapply between_at|done]|]. intros t used ? _ [(chunks & -> & Hfr) Hu].
    assert (Hlen : (str_len used <= str_len ([] ++ text ++ [] ++ used))%nat) by (rewrite !str_len_app; lia).
    pose proof (str_len_pos _ Hu). split_and!; [by destruct text|done|done|].
    etrans; [apply (weight_bound _ (str_len used)); [lia|exact Hfr]|lia].
  - eapply scans_mono; [by apply lex_string_scans|]. intros t used ? _ [[value Ht] _]. apply scanned_spelled.
    + simpl. by destruct text.
    + rewrite Ht. by case_match.
    + rewrite Ht. case_match; simpl; by rewrite <- (assoc_L (++)).
Qed.

Lemma lex_quoted_scans c r p mid :
  between input token_start mid p (c :: r) → is_quote c = true →
  scans (rem ← remainder input; lex_string (B:=B) (R:=R) input token_start c (starts_with rem (replicate 3 c)) false)
    p (c :: r) (λ t used _, scanned mid t used).
Proof.
  intros Hb Hq. pose proof (between_at _ _ _ _ Hb) as Hat. do 3 scan_step. subst p0. rewrite Nat.add_0_r in *. clear Hat0.
  set (triple := starts_with (c :: r) (replicate 3 c)).
  assert (Hdelim : starts_with (c :: r) (delimiter c triple) = true).
  { subst triple. unfold delimiter. destruct (starts_with (c :: r) (replicate 3 c)) eqn:H3; [done|]. simpl. by rewrite Z.eqb_refl. }
  eapply scans_mono; [apply lex_string_scans; [done|unfold is_quote, squote, dquote in Hq; lia|done]|].
  intros t used ? _ [[value Ht] [body Hu]]. apply scanned_spelled.
  - rewrite Hu. by destruct triple.
  - rewrite Ht. by destruct triple.
  - rewrite Ht. by destruct triple.
Qed.

(** Every arm of the dispatch scans a plain token, or fails. *)
Lemma scan_token_scans c r p mid :
  between input token_start mid p (c :: r) →
  scans (scan_token (B:=B) (R:=R) input token_start position c) p (c :: r) (λ t used _, scanned mid t used).
Proof.
  intros Hb. pose proof (between_at _ _ _ _ Hb) as Hat. unfold scan_token.
  repeat match goal with
    | |- context [if ?c =? ch ?a then _ else _] =>
        destruct (Z.eqb_spec c (ch a)) as [->|_];
        [first [ apply operator_scans; [done|by vm_compute|done|done]
               | eapply (symbol_scans 1 _ _ _ _ [ch a]); done
               | by apply lex_dot_scans
               | idtac ]|]
    end.
  - do 3 scan_step. subst p0. rewrite Nat.add_0_r in *. clear Hat0.
    destruct (starts_with _ _) eqn:Hw; [|repeat scan_step].
    apply starts_with_spec in Hw as [tail Hw]. by eapply symbol_scans.
  - destruct (is_quote c) eqn:Hq; [by apply lex_quoted_scans|].
    destruct (Z.eqb_spec c backtick) as [->|_]; [by apply lex_stropped_scans|].
    destruct (is_ascii_alphabetic c || (c =? ch "_")) eqn:Hw.
    { apply lex_word_scans; [done|]. unfold is_word, is_ascii_alphanumeric.
      apply orb_true_iff in Hw as [-> | ->]; [done|by rewrite orb_true_r]. }
    destruct (is_ascii_digit c) eqn:Hd; [by apply lex_number_scans|]. repeat scan_step.
Qed.
End token_scanners.

(** ** One step of the lexer

    [runs m l Q]: from [l], [m] neither panics nor runs out of fuel, and a
    result satisfies [Q]. *)

Section steps.
Context {B R : Type} `{!BigInt B, !BigRational B R, !UnicodeTables}.
Notation Lexer := (Lexer B R).
Notation Token := (Token B R).

Definition runs {A} (m : M A) (l : Lexer) (Q : A → Lexer → Prop) : Prop :=
  match m l with
  | (Ok a, l') => Q a l'
  | (Err _, _) => True
  | _ => False
  end.

(** [rem] is left to read, and [token_start] is behind. *)
Definition reading (l : Lexer) (rem : str) : Prop :=
  ∃ mid, between l.(input) l.(token_start) mid l.(pos) rem.

Lemma runs_mono {A} (m : M A) l (Q Q' : A → Lexer → Prop) :
  runs m l Q → (∀ a l', Q a l' → Q' a l') → runs m l Q'.
Proof. unfold runs. destruct (m l) as [[a|e| |] l']; auto. Qed.

Lemma runs_bind {A C} (m : M A) (f : A → M C) l (Q : C → Lexer → Prop) :
  runs m l (λ a l', runs (f a) l' Q) → runs (m ≫= f) l Q.
Proof. unfold runs, mbind, M_bind. by destruct (m l) as [[a|e| |] l']. Qed.

Lemma runs_ret {A} l (Q : A → Lexer → Prop) a : Q a l → runs (mret a) l Q.
Proof. done. Qed.

Lemma runs_get l (Q : Lexer → Lexer → Prop) : Q l l → runs get l Q.
Proof. done. Qed.

Lemma runs_modify f l (Q : unit → Lexer → Prop) : Q tt (f l) → runs (modify f) l Q.
Proof. done. Qed.

Lemma runs_throw {A} l (Q : A → Lexer → Prop) e : runs (throw e) l Q.
Proof. done. Qed.

Lemma runs_lift {A} l (Q : A → Lexer → Prop) r a : r = Ok a → Q a l → runs (lift_outcome r) l Q.
Proof. by intros ->. Qed.

Lemma reading_at l rem : reading l rem → at_rest l.(input) l.(pos) rem.
Proof. intros [mid Hb]. by eapply between_at. Qed.

Lemma reading_advance l used rem :
  reading l (used ++ rem) → reading (set_pos (l.(pos) + str_len used) l) rem.
Proof. intros [mid Hb]. exists (mid ++ used). by apply between_advance. Qed.

Lemma runs_scan {A} (f : str → Scan A) l rem (Q : A → Lexer → Prop) :
  reading l rem →
  scans (f l.(input)) l.(pos) rem (λ a used rem', Q a (set_pos (l.(pos) + str_len used) l)) →
  runs (scan f) l Q.
Proof.
  intros Hr. unfold scans, runs, scan. destruct (f (input l) (pos l)) as [[a|e| |] p]; try done.
  by intros (used & rem' & _ & -> & HQ).
Qed.

Lemma runs_rest l rem (Q : str → Lexer → Prop) :
  reading l rem → Q rem l → runs rest l Q.
Proof.
  intros Hr HQ. unfold rest. unfold runs, scan, remainder. rewrite (reading_at l rem Hr). simpl.
  by destruct l.
Qed.

Lemma runs_bump n l (Q : unit → Lexer → Prop) : Q tt (set_pos (l.(pos) + n) l) → runs (bump n) l Q.
Proof. done. Qed.

(** *** Delimiters *)

(** The bracket depth after a token; [None] for a bracket that closes none.  A
    stray brace is let through. *)
Definition depth_effect (t : Token) (depth : nat) : option nat :=
  match t with
  | LParen | LBracket | LBrace => Some (S depth)
  | RParen | RBracket => match depth with O => None | S d => Some d end
  | RBrace => Some (Nat.pred depth)
  | _ => Some depth
  end.

(** A token of the source text, not of its indentation or end. *)
Definition is_content (t : Token) : bool :=
  match t with Indent | Dedent | Eof => false | _ => true end.

Definition is_newline (t : Token) : bool := match t with Newline => true | _ => false end.

(** The text of a literal token is what its span covers. *)
Definition spelled (source : str) (t : Token) (span : Span) : Prop :=
  ∀ s, literal_spelling t = Some s → str_slice source span.1 span.2 = Some s.

(** [l'] has read [used] since [l], in the same line and suite, and queued the
    content token [t] for it, if any. *)
Record consumed (l l' : Lexer) (used rem' : str) : Prop := {
  consumed_some : used ≠ [];
  consumed_input : l'.(input) = l.(input);
  consumed_start : l'.(token_start) = l.(token_start);
  consumed_stack : l'.(indent_stack) = l.(indent_stack);
  consumed_eof : l'.(eof_emitted) = l.(eof_emitted);
  consumed_pos : l'.(pos) = (l.(pos) + str_len used)%nat;
  consumed_reading : reading l' rem';
  consumed_token :
    (l'.(pending_tokens) = l.(pending_tokens) ∧ l'.(paren_count) = l.(paren_count) ∧
     l'.(at_line_start) = l.(at_line_start)) ∨
    ∃ t, l'.(pending_tokens) = l.(pending_tokens) ++ [(t, (l.(token_start), l'.(pos)))] ∧
      is_content t = true ∧ depth_effect t l.(paren_count) = Some l'.(paren_count) ∧
      spelled l.(input) t (l.(token_start), l'.(pos)) ∧
      (is_newline t = true → l.(paren_count) = 0%nat ∧ last used = Some nl) ∧
      (weight t <= 3 * str_len used)%nat ∧
      l'.(at_line_start) = is_newline t || l.(at_line_start);
}.

Definition consumes (m : M unit) (l : Lexer) (rem : str) : Prop :=
  runs m l (λ _ l', ∃ used rem', rem = used ++ rem' ∧ consumed l l' used rem').

(** Moving without a token. *)
Lemma consumed_move l used rem' :
  reading l (used ++ rem') → used ≠ [] → consumed l (set_pos (l.(pos) + str_len used) l) used rem'.
Proof. intros Hr Hu. split; try done; [by apply reading_advance|by left]. Qed.

(** Moving, then queueing a plain token. *)
Lemma consumed_emit l used rem' t :
  reading l (used ++ rem') → used ≠ [] → is_plain t = true →
  spelled l.(input) t (l.(token_start), (l.(pos) + str_len used)%nat) →
  (weight t <= 3 * str_len used)%nat →
  consumed l (emit t (set_pos (l.(pos) + str_len used) l)) used rem'.
Proof.
  intros Hr Hu Hp Hs Hw. destruct (reading_advance l used rem' Hr) as [mid Hmid].
  split; try done; [by exists mid|]. right. exists t. simpl. by destruct t.
Qed.

Lemma spelled_between source a mid p rem (t : Token) :
  between source a mid p rem → (∀ s, literal_spelling t = Some s → s = mid) → spelled source t (a, p).
Proof. intros [Ha ->] Ht s Hs. rewrite (Ht s Hs). by eapply str_slice_between. Qed.

Lemma spelled_none source (t : Token) span : literal_spelling t = None → spelled source t span.
Proof. intros Ht s Hs. congruence. Qed.

(** The delimiters. *)
Lemma consumed_delimiter l c rem' t n :
  reading l (c :: rem') → c < 0x80 → literal_spelling t = None → interpolations t = [] → is_content t = true →
  is_newline t = false → depth_effect t l.(paren_count) = Some n →
  consumed l (emit t (set_paren_count n (set_pos (l.(pos) + 1) l))) [c] rem'.
Proof.
  intros Hr Hc Hl Hi Ht Hn Hd. assert (Hlen : str_len [c] = 1%nat) by (rewrite str_len_single; by apply len_utf8_ascii).
  destruct (reading_advance l [c] rem' Hr) as [mid Hmid]. rewrite Hlen in Hmid.
  split; simpl; try done; [by rewrite len_utf8_ascii|by exists mid|]. right. exists t.
  rewrite Hn. split_and!; try done; [by apply spelled_none|]. rewrite weight_none by done.
  rewrite len_utf8_ascii by done. lia.
Qed.

Lemma open_delimiter_consumes l c rem t :
  reading l (c :: rem) → c < 0x80 → t ∈ [LParen; LBracket; LBrace] → consumes (open_delimiter t) l (c :: rem).
Proof.
  intros Hr Hc Ht. exists [c], rem. split; [done|]. apply consumed_delimiter; try done.
  all: repeat (apply elem_of_cons in Ht as [->|Ht]; [done|]); by apply elem_of_nil in Ht.
Qed.

Lemma close_delimiter_consumes l c rem t :
  reading l (c :: rem) → c < 0x80 → t ∈ [RParen; RBracket] → consumes (close_delimiter t) l (c :: rem).
Proof.
  intros Hr Hc Ht. unfold consumes, close_delimiter. apply runs_bind, runs_bump, runs_bind, runs_get. simpl.
  destruct (paren_count l) as [|n] eqn:Hn; [done|]. exists [c], rem. split; [done|].
  apply consumed_delimiter; try done; rewrite ?Hn.
  all: repeat (apply elem_of_cons in Ht as [->|Ht]; [done|]); by apply elem_of_nil in Ht.
Qed.

(** *** Lines *)

Definition all_spaces (s : str) : Prop := Forall (λ c, c = ch " ") s.

Lemma spaces_len s : all_spaces s → str_len s = length s.
Proof. induction 1 as [|c s -> _ IH]; [done|]. cbn [str_len length]. rewrite IH. by rewrite len_utf8_ascii. Qed.

Lemma take_while_spaces s : all_spaces (take_while (Z.eqb (ch " ")) s).
Proof. induction s as [|c s IH]; cbn [take_while]; [constructor|]. destruct (Z.eqb_spec (ch " ") c); [by constructor|constructor]. Qed.

Lemma str_from_spaces s :
  str_from s (length (take_while (Z.eqb (ch " ")) s)) = Some (drop_while (Z.eqb (ch " ")) s).
Proof.
  rewrite <- spaces_len by apply take_while_spaces. rewrite <- (take_while_drop_while (Z.eqb (ch " ")) s) at 1.
  apply str_from_app.
Qed.

Lemma continuation_runs l rem (Q : bool → Lexer → Prop) :
  reading l rem → (∀ b, Q b l) → runs has_indented_string_continuation l Q.
Proof.
  intros Hr HQ. unfold has_indented_string_continuation. apply runs_bind, runs_get, runs_bind.
  eapply runs_rest; [done|]. destruct (negb (last_token_was_string l) || _) eqn:Hs; [by apply runs_ret|].
  apply orb_false_iff in Hs as [_ Hs]. apply negb_false_iff, starts_with_char_cons in Hs as [r ->].
  apply runs_bind. eapply runs_lift; [by rewrite str_from_ascii|]. case_match; [by apply runs_ret|].
  apply runs_bind. eapply runs_lift; [by rewrite str_from_spaces|]. case_match; by apply runs_ret.
Qed.

Lemma newline_consumes l rem :
  reading l (nl :: rem) → consumes newline l (nl :: rem).
Proof.
  intros Hr. unfold consumes, newline. apply runs_bind, runs_get, runs_bind.
  assert (Hmove : ∀ continued, continued = true ∨ (paren_count l =? 0)%nat = false →
    runs (if (continued : bool) then bump 1 else _ ← bump 1;
      (if (paren_count l =? 0)%nat then _ ← modify (set_at_line_start true); modify (emit Newline) else mret tt)) l
    (λ _ l', ∃ used rem', nl :: rem = used ++ rem' ∧ consumed l l' used rem')).
  { intros continued Hc. assert (consumed l (set_pos (l.(pos) + 1) l) [nl] rem) by by apply (consumed_move l [nl] rem).
    destruct Hc as [-> | Hp]; [by exists [nl], rem|]. destruct continued; [by exists [nl], rem|].
    apply runs_bind, runs_bump. rewrite Hp. by exists [nl], rem. }
  destruct (Nat.eqb_spec (paren_count l) 0) as [Hp|Hp].
  - eapply continuation_runs; [done|]. intros [|]; [apply (Hmove true); by left|].
    apply runs_bind, runs_bump, runs_bind, runs_modify, runs_modify. exists [nl], rem. split; [done|].
    destruct (reading_advance l [nl] rem Hr) as [mid Hmid].
    split; try done; [by exists mid|]. right. exists Newline. simpl. rewrite Hp.
    split_and!; try done. unfold weight. simpl. lia.
  - apply runs_ret, (Hmove false). by right.
Qed.

Lemma line_continuation_consumes l rem :
  reading l (backslash :: rem) → consumes line_continuation l (backslash :: rem).
Proof.
  intros Hr. unfold consumes, line_continuation. apply runs_bind, runs_get, runs_bind.
  pose proof (at_rest_advance _ _ [backslash] rem (reading_at l _ Hr)) as Hat.
  change (str_len [backslash]) with 1%nat in Hat. eapply runs_lift; [by rewrite Hat|].
  destruct (starts_with rem [cr; nl]) eqn:H1.
  { apply starts_with_spec in H1 as [tail ->]. apply runs_modify. exists [backslash; cr; nl], tail. split; [done|].
    rewrite <- Nat.add_assoc. by apply (consumed_move l [backslash; cr; nl] tail). }
  destruct (starts_with_char rem nl) eqn:H2; [|by apply runs_throw].
  apply starts_with_char_cons in H2 as [tail ->]. apply runs_modify. exists [backslash; nl], tail. split; [done|].
  rewrite <- Nat.add_assoc. by apply (consumed_move l [backslash; nl] tail).
Qed.

Lemma scan_consumes (f : str → Scan Token) l rem mid :
  between l.(input) l.(token_start) mid l.(pos) rem →
  scans (f l.(input)) l.(pos) rem (λ t used _, scanned mid t used) →
  consumes (t ← scan f; modify (emit t)) l rem.
Proof.
  intros Hb Hs. assert (Hr : reading l rem) by by exists mid.
  unfold consumes. apply runs_bind. eapply runs_scan; [done|]. eapply scans_mono; [exact Hs|].
  intros t used rem' -> (Hu & Hp & Hl & Hw). apply runs_modify. exists used, rem'. split; [done|].
  apply consumed_emit; try done. eapply spelled_between; [by apply between_advance|done].
Qed.

Lemma consume_consumes l c rem : reading l (c :: rem) → consumes (consume c) l (c :: rem).
Proof.
  intros Hr. unfold consume.
  destruct (_ || _ || _).
  { exists [c], rem. split; [done|]. rewrite <- str_len_single. by apply consumed_move. }
  destruct (Z.eqb_spec c (ch "#")) as [->|_].
  { unfold consumes. eapply runs_scan; [done|]. apply scans_skip_to_line_end; [by apply reading_at|].
    eexists _, _. split; [symmetry; apply take_while_drop_while|]. apply consumed_move; [|done].
    by rewrite take_while_drop_while. }
  destruct (Z.eqb_spec c nl) as [->|_]; [by apply newline_consumes|].
  destruct (Z.eqb_spec c backslash) as [->|_]; [by apply line_continuation_consumes|].
  destruct (Z.eqb_spec c (ch "(")) as [->|_]; [by apply open_delimiter_consumes; [|vm_compute|left]|].
  destruct (Z.eqb_spec c (ch ")")) as [->|_]; [by apply close_delimiter_consumes; [|vm_compute|left]|].
  destruct (Z.eqb_spec c (ch "[")) as [->|_]; [by apply open_delimiter_consumes; [|vm_compute|right; left]|].
  destruct (Z.eqb_spec c (ch "]")) as [->|_]; [by apply close_delimiter_consumes; [|vm_compute|right; left]|].
  destruct (Z.eqb_spec c (ch "{")) as [->|_]; [by apply open_delimiter_consumes; [|vm_compute|right; right; left]|].
  destruct (Z.eqb_spec c (ch "}")) as [->|_].
  { exists [ch "}"], rem. split; [done|]. by apply (consumed_delimiter l _ rem RBrace). }
  destruct Hr as [mid Hb]. unfold consumes. apply runs_bind, runs_get.
  eapply scan_consumes; [done|]. by apply scan_token_scans.
Qed.
End steps.

(** ** The token stream

    An observer that reads the stream from the outside.  It accepts a stream
    whose spans move forward inside the source (the dedents of one line share
    a span), where no dedent comes without an indent to close, where a closing
    parenthesis or bracket comes only while some delimiter is open (only their
    number is kept, not their kinds, as in the lexer, and a brace that closes
    nothing is let through), where layout comes only outside every delimiter or
    at the very end, and which ends with one [Eof] with every suite closed. *)

Record obs : Type := mkObs { level : nat; depth : nat; last_span : Span; ended : bool }.

Section stream.
Context {B R : Type} `{!BigInt B, !BigRational B R, !UnicodeTables}.
Notation Lexer := (Lexer B R).
Notation Token := (Token B R).
Context (source : str).

Definition observe (s : obs) (item : Token * Span) : option obs :=
  let '(t, (a, b)) := item in
  let forward := (s.(last_span).2 <=? a)%nat in
  let outside := (s.(depth) =? 0)%nat || (a =? str_len source)%nat in
  if s.(ended) || negb ((a <=? b)%nat && (b <=? str_len source)%nat) then None
  else match t with
  | Newline => if forward && outside then Some (mkObs s.(level) s.(depth) (a, b) false) else None
  | Indent => if forward && outside then Some (mkObs (S s.(level)) s.(depth) (a, b) false) else None
  | Dedent =>
      if (forward || bool_decide (s.(last_span) = (a, b))) && outside then
        match s.(level) with O => None | S n => Some (mkObs n s.(depth) (a, b) false) end
      else None
  | Eof =>
      if forward && (s.(level) =? 0)%nat && (a =? str_len source)%nat
      then Some (mkObs 0 s.(depth) (a, b) true) else None
  | t => if forward then d ← depth_effect t s.(depth); Some (mkObs s.(level) d (a, b) false) else None
  end.

Fixpoint observe_all (s : obs) (items : list (Token * Span)) : option obs :=
  match items with
  | [] => Some s
  | item :: items => s ← observe s item; observe_all s items
  end.

Definition start_obs : obs := mkObs 0 0 (0%nat, 0%nat) false.

Lemma observe_all_app s items1 items2 :
  observe_all s (items1 ++ items2) = (s' ← observe_all s items1; observe_all s' items2).
Proof.
  revert s. induction items1 as [|item items1 IH]; intros s; simpl; [done|].
  destruct (observe s item); simpl; [apply IH|done].
Qed.

(** *** The invariant of [next] *)

(** Indentations grow from zero. *)
Definition stack_ok (stack : list nat) : Prop := StronglySorted gt stack ∧ last stack = Some 0%nat.

(** A line starts at the start of the input or after a newline. *)
Definition line_begins (rem : str) : Prop :=
  ∃ pre, source = pre ++ rem ∧ (pre = [] ∨ last pre = Some nl ∨ rem = []).

(** The position is a character boundary, and the suites are in order. *)
Record placed (l : Lexer) : Prop := {
  placed_input : l.(input) = source;
  placed_rest : ∃ rem, at_rest source l.(pos) rem ∧ (l.(at_line_start) = true → line_begins rem);
  placed_stack : stack_ok l.(indent_stack);
}.

(** The observer accepts what was returned and what is queued. *)
Definition observed (out : list (Token * Span)) (l : Lexer) (s : obs) : Prop :=
  observe_all start_obs (out ++ l.(pending_tokens)) = Some s ∧
  Forall (λ item, spelled source item.1 item.2) (out ++ l.(pending_tokens)).

(** The observer's state is the lexer's. *)
Record agrees (l : Lexer) (s : obs) : Prop := {
  agrees_level : length l.(indent_stack) = S s.(level);
  agrees_depth : s.(depth) = l.(paren_count);
  agrees_span : (s.(last_span).2 <= l.(pos))%nat;
  agrees_ended : s.(ended) = l.(eof_emitted);
}.

(** [out] has been returned and [l] comes next. *)
Definition invariant (out : list (Token * Span)) (l : Lexer) : Prop :=
  placed l ∧ ∃ s, observed out l s ∧ agrees l s.

(** What tokens stand for. *)
Definition weights (items : list (Token * Span)) : nat := list_sum (map (λ item, weight item.1) items).

Lemma weights_app items1 items2 : weights (items1 ++ items2) = (weights items1 + weights items2)%nat.
Proof. unfold weights. by rewrite map_app, list_sum_app. Qed.

Lemma weights_layout items t span : interpolations t = [] → weights (items ++ [(t, span)]) = S (weights items).
Proof. intros Ht. rewrite weights_app. unfold weights at 2. simpl. rewrite (weight_none t Ht). lia. Qed.

(** What is left to emit: queued tokens, open suites, three for every byte,
    and the two that end the input. *)
Definition potential (l : Lexer) : nat :=
  weights l.(pending_tokens) + (length l.(indent_stack) - 1) + 3 * (str_len source - l.(pos))
  + (if l.(eof_emitted) then 0 else 2).

(** A last line of spaces only, with no newline. *)
Definition ends_in_spaces : Prop :=
  ∃ pre sp, source = pre ++ sp ∧ sp ≠ [] ∧ all_spaces sp ∧ (pre = [] ∨ last pre = Some nl).

Lemma invariant_new : invariant [] (new source).
Proof.
  split.
  - split; [done| |split; [repeat constructor|done]]. exists source. split; [by destruct source|].
    intros _. exists []. auto.
  - exists start_obs. split; [|done]. split; [done|constructor].
Qed.

Lemma observed_emit out l s s' t :
  observed out l s → observe s (t, (l.(token_start), l.(pos))) = Some s' →
  spelled source t (l.(token_start), l.(pos)) → observed out (emit t l) s'.
Proof.
  intros [Ho Hs] Ht Hsp. split; simpl; rewrite (assoc_L (++)).
  - rewrite observe_all_app, Ho. cbn [mbind option_bind observe_all]. by rewrite Ht.
  - apply Forall_app. split; [done|]. by repeat constructor.
Qed.

Lemma placed_le l : placed l → (l.(pos) <= str_len source)%nat.
Proof. intros [_ (rem & Hat & _) _]. apply str_from_le in Hat. lia. Qed.

Lemma observe_content s t a b d :
  s.(ended) = false → (s.(last_span).2 <= a <= b)%nat → (b <= str_len source)%nat →
  is_content t = true → depth_effect t s.(depth) = Some d → (is_newline t = true → s.(depth) = 0%nat) →
  observe s (t, (a, b)) = Some (mkObs s.(level) d (a, b) false).
Proof.
  intros He Hab Hb Ht Hd Hn. unfold observe. rewrite He. simpl.
  destruct (Nat.leb_spec a b); [|lia]. destruct (Nat.leb_spec b (str_len source)); [|lia].
  destruct (Nat.leb_spec (last_span s).2 a); [|lia]. simpl.
  destruct t; simpl in *; try done; simplify_eq; try done.
  1-2: by case_match; simplify_eq.
  rewrite Hn by done. done.
Qed.

Lemma line_begins_after used rem' pre :
  source = pre ++ used ++ rem' → used ≠ [] → last used = Some nl ∨ rem' = [] → line_begins rem'.
Proof.
  intros -> Hu Hn. exists (pre ++ used). split; [by rewrite <- (assoc_L (++))|]. right.
  destruct Hn as [Hn|]; [left|by right]. rewrite last_app. by rewrite Hn.
Qed.

Lemma at_rest_pre p rem : at_rest source p rem → ∃ pre, source = pre ++ rem.
Proof. intros (pre & -> & _)%str_from_Some. eauto. Qed.

(** Consuming content keeps the invariant. *)
Lemma consumed_invariant out l l' used rem' s :
  placed l → observed out l s → agrees l s →
  (s.(last_span).2 <= l.(token_start) <= l.(pos))%nat → l.(at_line_start) = false → l.(eof_emitted) = false →
  at_rest source l.(pos) (used ++ rem') → consumed l l' used rem' →
  invariant out l' ∧ (potential l' <= potential l)%nat ∧ (l.(pos) < l'.(pos))%nat ∧ l'.(eof_emitted) = false.
Proof.
  intros [Hin Hrest Hstack] Ho [Hlevel Hdepth Hspan Hended] Hts Hls Heof Hat [Hu Hin' Hts' Hst' Heof' Hpos' Hr' Htok].
  pose proof (str_len_pos _ Hu). pose proof (str_from_le _ _ _ Hat) as Hle. rewrite str_len_app in Hle.
  pose proof (at_rest_advance _ _ _ _ Hat) as Hat'. rewrite <- Hpos' in Hat'.
  assert (Hplaced : (l'.(at_line_start) = true → last used = Some nl) → placed l').
  { intros Hl. split; [congruence| |by rewrite Hst']. exists rem'. split; [done|]. intros Hb.
    destruct (at_rest_pre _ _ Hat) as [pre Hpre]. eapply (line_begins_after used); [done|done|auto]. }
  destruct Htok as [(Hp & Hd & Ha)|(t & Hp & Hc & Hd & Hsp & Hn & Hw & Ha)].
  - split_and!; [|unfold potential; rewrite Hp, Hst', Heof', Hpos'; lia|lia|congruence].
    split; [apply Hplaced; intros Hl; congruence|]. exists s. split.
    + unfold observed. by rewrite Hp.
    + split; rewrite ?Hst', ?Hd, ?Heof', ?Hpos'; try done. lia.
  - split_and!; [|unfold potential; rewrite Hp, Hst', Heof', Hpos', weights_app; unfold weights at 2; cbn -[Nat.mul weight]; lia|lia|congruence].
    split.
    { apply Hplaced. rewrite Ha, Hls, orb_false_r. by intros [_ ?]%Hn. }
    exists (mkObs s.(level) l'.(paren_count) (l.(token_start), l'.(pos)) false). split.
    + destruct Ho as [Ho Hs]. split; rewrite Hp, (assoc_L (++)).
      * rewrite observe_all_app, Ho. cbn [mbind option_bind observe_all]. erewrite observe_content; [done|congruence|simpl; lia|lia|done|by rewrite Hdepth|].
        intros Hnl. rewrite Hdepth. by apply Hn.
      * apply Forall_app. split; [done|]. constructor; [|constructor]. simpl. by rewrite <- Hin.
    + split; simpl; [by rewrite Hst'|done|lia|congruence].
Qed.

(** *** Suites *)

Lemma stack_below top next below : stack_ok (top :: next :: below) → stack_ok (next :: below) ∧ (next < top)%nat.
Proof.
  intros [Hs Hl]. apply StronglySorted_inv in Hs as [Hs Hlt]. split; [by split|].
  by apply Forall_cons in Hlt as [? _].
Qed.

Lemma stack_positive top below : stack_ok (top :: below) → (0 < top)%nat → ∃ next below', below = next :: below'.
Proof. intros [_ Hl] Ht. destruct below as [|next below]; [injection Hl as ->; lia|]. eauto. Qed.

(** One suite closed. *)
Lemma dedent_step out l s top next below :
  placed l → observed out l s → agrees l s → l.(indent_stack) = top :: next :: below → l.(eof_emitted) = false →
  (s.(last_span).2 <= l.(token_start))%nat ∨ s.(last_span) = (l.(token_start), l.(pos)) →
  (l.(token_start) <= l.(pos))%nat → s.(depth) = 0%nat ∨ l.(token_start) = str_len source →
  let l' := emit Dedent (set_indent_stack (next :: below) l) in
  ∃ s', placed l' ∧ observed out l' s' ∧ agrees l' s' ∧ s'.(last_span) = (l.(token_start), l.(pos)) ∧ s'.(depth) = s.(depth).
Proof.
  intros Hpl Ho Ha Hst Heof Hspan Hts Hout l'. destruct Ha as [Hlevel Hdepth Hsp Hended].
  destruct Hpl as [Hin Hrest Hstack]. rewrite Hst in *. destruct (stack_below _ _ _ Hstack) as [Hbelow _].
  simpl in Hlevel. assert (Hl : level s = S (length below)) by lia.
  pose proof (placed_le l ltac:(split; [done..|by rewrite Hst])) as Hle.
  exists (mkObs (length below) s.(depth) (l.(token_start), l.(pos)) false). split_and!; try done.
  - eapply observed_emit; [exact Ho| |by apply spelled_none]. unfold observe. rewrite Hended, Heof. simpl.
    destruct (Nat.leb_spec (token_start l) (pos l)); [|lia]. destruct (Nat.leb_spec (pos l) (str_len source)); [|lia]. simpl.
    assert ((last_span s).2 <=? token_start l = true ∨ bool_decide (last_span s = (token_start l, pos l)) = true)%nat as Hf.
    { destruct Hspan as [?|?]; [left; by apply Nat.leb_le|right; by apply bool_decide_eq_true]. }
    assert (((last_span s).2 <=? token_start l)%nat || bool_decide (last_span s = (token_start l, pos l)) = true) as ->.
    { by apply orb_true_iff. }
    assert ((depth s =? 0)%nat || (token_start l =? str_len source)%nat = true) as ->.
    { apply orb_true_iff. by rewrite !Nat.eqb_eq. }
    by rewrite Hl.
Qed.

Lemma dedent_to_runs out spaces stack l s :
  placed l → observed out l s → agrees l s → l.(indent_stack) = stack → l.(eof_emitted) = false →
  (s.(last_span).2 <= l.(token_start))%nat ∨ s.(last_span) = (l.(token_start), l.(pos)) →
  (l.(token_start) <= l.(pos))%nat → s.(depth) = 0%nat →
  runs (dedent_to stack spaces) l (λ _ l', invariant out l' ∧ l'.(pos) = l.(pos) ∧ l'.(eof_emitted) = false ∧
    (potential l' <= potential l)%nat ∧ (length l.(pending_tokens) <= length l'.(pending_tokens))%nat ∧
    (∀ top below, stack = top :: below → (spaces < top)%nat → (length l.(pending_tokens) < length l'.(pending_tokens))%nat)).
Proof.
  revert l s. induction stack as [|top below IH]; intros l s Hpl Ho Ha Hst Heof Hspan Hts Hout.
  { destruct Ha as [Hl _ _ _]. by rewrite Hst in Hl. }
  cbn [dedent_to]. destruct (Nat.compare_spec top spaces) as [->|Hlt|Hgt].
  - apply runs_ret. split_and!; try done; [split; [done|by exists s]|]. intros ? ? [= -> ->]. lia.
  - exact I.
  - pose proof (placed_stack l Hpl) as Hok. rewrite Hst in Hok.
    destruct (stack_positive top below Hok ltac:(lia)) as (next & below' & ->).
    destruct (dedent_step out l s top next below') as (s' & Hpl' & Ho' & Ha' & Hs' & Hd'); [done..|by left|].
    apply runs_bind, runs_modify, runs_bind, runs_modify.
    eapply runs_mono; [apply (IH _ s'); [done|done|done|done|done|by right|done|congruence]|].
    intros _ l' (? & Hp & ? & Hpot & Hpend & _). simpl in *. rewrite length_app in Hpend. simpl in Hpend.
    split_and!; try done; [|lia|lia]. unfold potential in *. rewrite Hst. simpl in *. rewrite weights_layout in Hpot by done. simpl in Hpot. lia.
Qed.

(** Every suite closed at the end. *)
Lemma unwind_runs out stack l s :
  placed l → observed out l s → agrees l s → l.(indent_stack) = stack → l.(eof_emitted) = false →
  (s.(last_span).2 <= l.(token_start))%nat ∨ s.(last_span) = (l.(token_start), l.(pos)) →
  l.(token_start) = str_len source → l.(pos) = str_len source →
  runs (unwind stack) l (λ _ l', ∃ s', placed l' ∧ observed out l' s' ∧ agrees l' s' ∧ l'.(eof_emitted) = false ∧
    length l'.(indent_stack) = 1%nat ∧ l'.(token_start) = str_len source ∧ l'.(pos) = str_len source ∧
    (weights l'.(pending_tokens) = weights l.(pending_tokens) + (length stack - 1))%nat).
Proof.
  revert l s. induction stack as [|top below IH]; intros l s Hpl Ho Ha Hst Heof Hspan Hts Hpos.
  { destruct Ha as [Hl _ _ _]. by rewrite Hst in Hl. }
  destruct below as [|next below]; cbn [unwind].
  { apply runs_ret. exists s. rewrite Hst. by split_and!. }
  destruct (dedent_step out l s top next below) as (s' & Hpl' & Ho' & Ha' & Hs' & Hd'); [done..|lia|by right|].
  apply runs_bind, runs_modify, runs_bind, runs_modify.
  eapply runs_mono; [apply (IH _ s'); [done|done|done|done|done|by right|done|done]|].
  intros _ l' (s'' & ? & ? & ? & ? & ? & ? & ? & Hlen). exists s''. split_and!; try done. rewrite Hlen. simpl.
  rewrite weights_layout by done. lia.
Qed.

Lemma observe_layout s t a b :
  s.(ended) = false → (s.(last_span).2 <= a <= b)%nat → (b <= str_len source)%nat →
  s.(depth) = 0%nat ∨ a = str_len source →
  (t = Newline → observe s (t, (a, b)) = Some (mkObs s.(level) s.(depth) (a, b) false)) ∧
  (t = Indent → observe s (t, (a, b)) = Some (mkObs (S s.(level)) s.(depth) (a, b) false)) ∧
  (t = Eof → s.(level) = 0%nat → a = str_len source → observe s (t, (a, b)) = Some (mkObs 0 s.(depth) (a, b) true)).
Proof.
  intros He Hab Hb Hout. unfold observe. rewrite He. simpl.
  destruct (Nat.leb_spec a b); [|lia]. destruct (Nat.leb_spec b (str_len source)); [|lia].
  destruct (Nat.leb_spec (last_span s).2 a); [|lia]. simpl.
  assert ((depth s =? 0)%nat || (a =? str_len source)%nat = true) as ->.
  { apply orb_true_iff. by rewrite !Nat.eqb_eq. }
  split_and!; intros ->; [done|done|]. intros Hl Ha.
  by rewrite (proj2 (Nat.eqb_eq _ _) Hl), (proj2 (Nat.eqb_eq _ _) Ha).
Qed.

Lemma end_of_file_runs out l s :
  placed l → observed out l s → agrees l s → l.(eof_emitted) = false → l.(pending_tokens) = [] →
  l.(token_start) = l.(pos) → l.(pos) = str_len source →
  runs end_of_file l (λ _ l', invariant out l' ∧ (potential l' <= potential l)%nat ∧ l'.(pending_tokens) ≠ []).
Proof.
  intros Hpl Ho Ha Heof Hpend Hts Hpos. unfold end_of_file. apply runs_bind, runs_get, runs_bind.
  assert (Hnext : ∀ l1 s1, placed l1 → observed out l1 s1 → agrees l1 s1 → l1.(eof_emitted) = false →
    (s1.(last_span).2 <= l1.(token_start))%nat → l1.(token_start) = str_len source → l1.(pos) = str_len source →
    l1.(indent_stack) = l.(indent_stack) → (weights l1.(pending_tokens) <= 1)%nat →
    runs (_ ← unwind l.(indent_stack); _ ← modify (emit Eof); modify set_eof_emitted) l1
      (λ _ l', invariant out l' ∧ (potential l' <= potential l)%nat ∧ l'.(pending_tokens) ≠ [])).
  { intros l1 s1 Hpl1 Ho1 Ha1 Heof1 Hspan1 Hts1 Hpos1 Hst1 Hlen1. apply runs_bind.
    eapply runs_mono; [apply (unwind_runs out _ l1 s1); [done|done|done|done|done|by left|done|done]|].
    intros _ l2 (s2 & [Hin2 Hrest2 Hst2] & Ho2 & [Hl2 Hd2 Hsp2 He2] & Heof2 & Hlen2 & Hts2 & Hpos2 & Hpend2).
    apply runs_bind, runs_modify, runs_modify. split_and!.
    - split; [by split|]. exists (mkObs 0 s2.(depth) (l2.(token_start), l2.(pos)) true). split.
      + change (observed out (emit Eof l2) (mkObs 0 s2.(depth) (l2.(token_start), l2.(pos)) true)).
        eapply observed_emit; [exact Ho2| |by apply spelled_none].
        apply observe_layout; [congruence|lia|lia|by right|done|lia|lia].
      + split; simpl; [lia|done|lia|done].
    - unfold potential. simpl. rewrite weights_layout, Hpend2, Hpend by done. change (weights []) with 0%nat. rewrite Hlen2, Hpos2, Hpos, Heof. lia.
    - simpl. by destruct (pending_tokens l2). }
  pose proof Ha as [Hlevel Hdepth Hsp Hended]. destruct (at_line_start l).
  - apply runs_ret. apply (Hnext l s); try done; [lia|lia|]. rewrite Hpend. unfold weights. simpl. lia.
  - apply runs_modify. apply (Hnext _ (mkObs s.(level) s.(depth) (l.(token_start), l.(pos)) false)); simpl; try done; try lia.
    + by destruct Hpl.
    + eapply observed_emit; [exact Ho| |by apply spelled_none]. apply observe_layout; [congruence|lia|lia|right; lia|done].
    + rewrite Hpend. unfold weights. simpl. lia.
Qed.

(** *** Lines *)

(** The end of the input after a line of spaces. *)
Lemma spaces_only pre rem :
  ¬ ends_in_spaces → source = pre ++ rem → pre = [] ∨ last pre = Some nl ∨ rem = [] → rem ≠ [] → all_spaces rem → False.
Proof.
  intros Hno -> Hpre Hrem Hsp. apply Hno. exists pre, rem. split_and!; try done. by destruct Hpre as [?|[?|?]]; [left|right|].
Qed.

Lemma drop_while_nil f s : drop_while f s = [] → take_while f s = s.
Proof. intros H0. pose proof (take_while_drop_while f s) as H1. by rewrite H0, app_nil_r in H1. Qed.

(** What step 4 leaves: a blank line skipped, tokens queued, or the line's
    first character to scan. *)
Definition line_started (out : list (Token * Span)) (l : Lexer) (f : flow (B:=B) (R:=R)) (l' : Lexer) : Prop :=
  l'.(eof_emitted) = false ∧ (potential l' <= potential l)%nat ∧
  match f with
  | Again => invariant out l' ∧ (l'.(pending_tokens) ≠ [] ∨ (l.(pos) < l'.(pos))%nat)
  | FallThrough => ∃ s rem, placed l' ∧ observed out l' s ∧ agrees l' s ∧ l'.(at_line_start) = false ∧
      (s.(last_span).2 <= l'.(token_start))%nat ∧ (l.(pos) <= l'.(pos))%nat ∧ l'.(pending_tokens) = [] ∧
      reading l' rem ∧ rem ≠ []
  | Yield _ => False
  end.

Lemma reading_placed l rem : placed l → reading l rem → at_rest source l.(pos) rem.
Proof. intros [Hin _ _] Hr. rewrite <- Hin. by apply reading_at. Qed.

Lemma blank_line_runs out l s rem sp c r :
  placed l → observed out l s → agrees l s → l.(eof_emitted) = false → reading l rem →
  rem = sp ++ c :: r → all_spaces sp → (c =? nl) || (c =? cr) || (c =? ch "#") = true →
  runs (_ ← scan skip_to_line_end; rem ← rest;
    _ ← (if starts_with_char rem nl then bump 1 else mret tt);
    _ ← modify (set_at_line_start true); mret Again) (set_pos (l.(pos) + length sp) l)
  (line_started out l).
Proof.
  intros Hpl Ho Ha Heof Hr -> Hsp Hc. pose proof (reading_placed _ _ Hpl Hr) as Hat.
  rewrite <- spaces_len by done. set (l1 := set_pos _ l).
  assert (Hr1 : reading l1 (c :: r)) by by apply reading_advance.
  set (f := λ c, negb (c =? nl)). set (text := take_while f (c :: r)). set (after := drop_while f (c :: r)).
  assert (Htext : c :: r = text ++ after) by (symmetry; apply take_while_drop_while).
  assert (Hdone : ∀ used rem', sp ++ c :: r = used ++ rem' → used ≠ [] → last used = Some nl ∨ rem' = [] →
    line_started out l Again (set_at_line_start true (set_pos (l.(pos) + str_len used) l))).
  { intros used rem' Hsplit Hu Hn. rewrite Hsplit in *. pose proof (str_len_pos _ Hu).
    pose proof (str_from_le _ _ _ Hat) as Hle. rewrite str_len_app in Hle.
    destruct Hpl as [Hin Hrest Hst]. destruct Ha as [Hl Hd Hspan He].
    split_and!; [done|unfold potential; simpl; rewrite Heof; lia| |right; simpl; lia].
    split.
    - split; [done| |done]. exists rem'. split; [by apply at_rest_advance|]. intros _.
      destruct (at_rest_pre _ _ Hat) as [pre Hpre]. by eapply line_begins_after.
    - exists s. split; [done|]. split; simpl; [done|done|lia|done]. }
  apply runs_bind. eapply runs_scan; [exact Hr1|]. apply scans_skip_to_line_end; [by apply reading_at|].
  fold f. fold text after. rewrite Htext in Hr1. pose proof (reading_advance l1 _ _ Hr1) as Hr2.
  apply runs_bind. eapply runs_rest; [exact Hr2|]. apply runs_bind.
  assert (Hpos : set_pos (pos l1 + str_len text) l1 = set_pos (l.(pos) + str_len (sp ++ text)) l).
  { rewrite str_len_app, Nat.add_assoc. done. }
  destruct (starts_with_char after nl) eqn:Hn.
  - apply starts_with_char_cons in Hn as [tail Htail]. apply runs_bump, runs_bind, runs_modify, runs_ret.
    rewrite Hpos. replace (set_pos _ (set_pos _ l)) with (set_pos (l.(pos) + str_len ((sp ++ text) ++ [nl])) l).
    2:{ rewrite (str_len_app _ [nl]). change (str_len [nl]) with 1%nat. by rewrite Nat.add_assoc. }
    apply (Hdone _ tail).
    + by rewrite Htext, Htail, <- !(assoc_L (++)).
    + by destruct (sp ++ text).
    + left. by rewrite last_snoc.
  - apply runs_ret, runs_bind, runs_modify, runs_ret. rewrite Hpos.
    assert (Hafter : after = []).
    { destruct after as [|x tail] eqn:Hd; [done|]. exfalso. subst after. clear -Hd Hn. revert Hd. generalize (c :: r).
      intros s Hd. induction s as [|y s IH]; simpl in Hd; [done|]. destruct (f y) eqn:Hy; [auto|].
      injection Hd as -> ->. subst f. simpl in *. apply negb_false_iff in Hy. congruence. }
    rewrite Hafter, app_nil_r in Htext. rewrite <- Htext. apply (Hdone _ []); [by rewrite app_nil_r|by destruct sp|by right].
Qed.

(** A line with text, whose indentation is [sp]. *)
Lemma text_line_runs out l s rem sp rem' :
  placed l → observed out l s → agrees l s → l.(eof_emitted) = false → l.(pending_tokens) = [] →
  l.(token_start) = l.(pos) → reading l rem → rem = sp ++ rem' → all_spaces sp →
  (rem' = [] → False) →
  let l1 := set_at_line_start false (set_pos (l.(pos) + length sp) l) in
  runs (if negb (l.(paren_count) =? 0)%nat then mret FallThrough
    else
      current_indent ← lift_outcome (unwrap (head l.(indent_stack)));
      match Nat.compare (length sp) current_indent with
      | Gt => _ ← modify (set_indent_stack (length sp :: l.(indent_stack))); _ ← modify (emit Indent); mret Again
      | Lt =>
          _ ← dedent_to l.(indent_stack) (length sp);
          l ← get;
          mret (if bool_decide (l.(pending_tokens) = []) then FallThrough else Again)
      | Eq => mret FallThrough
      end) l1 (line_started out l).
Proof.
  intros Hpl Ho Ha Heof Hpend Hts Hr -> Hsp Hne l1. pose proof (reading_placed _ _ Hpl Hr) as Hat.
  pose proof (reading_advance l sp rem' Hr) as Hr1. pose proof (at_rest_advance _ _ _ _ Hat) as Hat1.
  rewrite spaces_len in Hr1, Hat1 by done. pose proof (str_from_le _ _ _ Hat1) as Hle.
  destruct Hpl as [Hin Hrest Hst]. destruct Ha as [Hlevel Hdepth Hspan Hended].
  assert (Hpl1 : placed l1) by (split; [done| |done]; by exists rem').
  assert (Hpot : (potential l1 + 3 * length sp = potential l)%nat) by (unfold potential; simpl; lia).
  assert (Hfall : line_started out l FallThrough l1).
  { split_and!; [done|lia|]. exists s, rem'. split_and!; try done; try (simpl; lia); split; simpl; try done; lia. }
  destruct (Nat.eqb_spec (paren_count l) 0) as [Hp|Hp]; simpl negb; cbv iota; [|by apply runs_ret].
  destruct (indent_stack l) as [|top below] eqn:Hstack; [done|]. apply runs_bind. eapply runs_lift; [done|].
  simpl head. destruct (Nat.compare_spec (length sp) top) as [Heq|Hlt|Hgt]; [by apply runs_ret| |].
  - apply runs_bind. eapply runs_mono; [apply (dedent_to_runs out _ _ l1 s); simpl; try done|].
    + by split; simpl; rewrite ?Hstack; try done; lia.
    + left. lia.
    + lia.
    + congruence.
    + intros _ l2 (Hinv & Hpos & Heof2 & Hpot2 & _ & Hmore). apply runs_bind, runs_get, runs_ret.
      specialize (Hmore top below eq_refl Hlt). simpl in Hmore. rewrite Hpend in Hmore. simpl in Hmore.
      rewrite bool_decide_eq_false_2 by (intros Hnil; rewrite Hnil in Hmore; simpl in Hmore; lia).
      split_and!; [done|lia|done|]. left. intros Hnil. rewrite Hnil in Hmore. simpl in Hmore. lia.
  - apply runs_bind, runs_modify, runs_bind, runs_modify, runs_ret.
    split_and!; [done| | |left; simpl; by destruct (pending_tokens l)].
    { unfold potential in *. simpl in *. rewrite Hstack in *. rewrite weights_layout by done. simpl in *. lia. }
    split.
    + split; [done|by exists rem'|]. destruct Hst as [Hs Hlast]. split; [|done]. simpl. constructor; [done|].
      constructor; [lia|]. apply StronglySorted_inv in Hs as [_ Hs]. eapply Forall_impl; [exact Hs|]. simpl. lia.
    + exists (mkObs (S s.(level)) s.(depth) (l.(token_start), (l.(pos) + length sp)%nat) false). split.
      * change (observed out (emit Indent l1) (mkObs (S s.(level)) s.(depth) (l.(token_start), (l.(pos) + length sp)%nat) false)).
        eapply observed_emit; [exact Ho| |by apply spelled_none]. apply observe_layout; simpl; [congruence|lia|lia|left; congruence|done].
      * split; simpl in *; [lia|done|lia|done].
Qed.

Lemma line_start_runs out l s rem :
  ¬ ends_in_spaces → placed l → observed out l s → agrees l s → l.(eof_emitted) = false → l.(pending_tokens) = [] →
  l.(token_start) = l.(pos) → l.(at_line_start) = true → reading l rem → rem ≠ [] →
  runs line_start l (line_started out l).
Proof.
  intros Hno Hpl Ho Ha Heof Hpend Hts Hls Hr Hne. unfold line_start. apply runs_bind, runs_get, runs_bind.
  eapply runs_rest; [done|]. apply runs_bind, runs_bump.
  set (sp := take_while _ rem). set (rem' := drop_while _ rem).
  assert (Hrem : rem = sp ++ rem') by (symmetry; apply take_while_drop_while).
  assert (Hsp : all_spaces sp) by apply take_while_spaces.
  assert (Hrem' : rem' = [] → False).
  { intros Hnil. destruct (placed_rest l Hpl) as (rem0 & Hat0 & Hb). specialize (Hb Hls).
    pose proof (reading_placed _ _ Hpl Hr) as Hat. assert (rem0 = rem) as -> by (unfold at_rest in *; congruence).
    destruct Hb as (pre & Hpre & Hends). eapply spaces_only; [done|done|done|done|]. by rewrite Hrem, Hnil, app_nil_r. }
  destruct rem' as [|c r] eqn:Hc; [by destruct Hrem'|]. destruct ((c =? nl) || _ || _) eqn:Hblank.
  - by eapply blank_line_runs.
  - apply runs_bind, runs_modify. by eapply text_line_runs.
Qed.

(** *** [next] *)

Lemma mark_start_placed l : placed l → placed (mark_start l).
Proof. by intros [? ? ?]. Qed.

Lemma agrees_mark l s : agrees l s → agrees (mark_start l) s.
Proof. by intros [? ? ? ?]. Qed.

(** The end of a round. *)
Definition round_done (out : list (Token * Span)) (l : Lexer) (f : flow (B:=B) (R:=R)) (l' : Lexer) : Prop :=
  match f with
  | Yield (Some item) => invariant (out ++ [item]) l' ∧ (potential l' + weight item.1 <= potential l)%nat
  | Yield None => l.(pending_tokens) = [] ∧ l.(eof_emitted) = true ∧ l' = mark_start l
  | Again => invariant out l' ∧ l.(pending_tokens) = [] ∧ (potential l' <= potential l)%nat ∧
      (l'.(pending_tokens) ≠ [] ∨ (l.(pos) < l'.(pos))%nat)
  | FallThrough => False
  end.

Lemma consume_round out l0 l s rem :
  placed l → observed out l s → agrees l s → l.(at_line_start) = false → l.(eof_emitted) = false →
  (s.(last_span).2 <= l.(token_start))%nat → reading l rem → rem ≠ [] → l.(pending_tokens) = [] →
  l0.(pending_tokens) = [] → (l0.(pos) <= l.(pos))%nat → (potential l <= potential l0)%nat →
  runs (rem ← rest; c ← lift_outcome (unwrap (head rem)); _ ← consume c; mret Again) l (round_done out l0).
Proof.
  intros Hpl Ho Ha Hls Heof Hspan Hr Hne Hpend Hpend0 Hpos0 Hpot0. apply runs_bind. eapply runs_rest; [done|].
  destruct rem as [|c r]; [done|]. apply runs_bind. eapply runs_lift; [done|]. apply runs_bind.
  eapply runs_mono; [by apply consume_consumes|]. intros _ l' (used & rem' & Hsplit & Hc). apply runs_ret.
  pose proof (reading_placed _ _ Hpl Hr) as Hat. rewrite Hsplit in Hat.
  assert (Hts : (l.(token_start) <= l.(pos))%nat) by (destruct Hr as [mid [_ ->]]; lia).
  destruct (consumed_invariant out l l' used rem' s) as (Hinv & Hpot & Hpos & _); [done..|].
  split_and!; [done|done|lia|]. right. lia.
Qed.

Lemma round_runs out l : ¬ ends_in_spaces → invariant out l → runs round l (round_done out l).
Proof.
  intros Hno [Hpl (s & Ho & Ha)]. unfold round. apply runs_bind, runs_get.
  destruct (pending_tokens l) as [|item queue] eqn:Hpend.
  2:{ apply runs_bind, runs_modify, runs_ret. destruct Ho as [Ho Hs]. rewrite Hpend in Ho, Hs.
      split; [|unfold potential; simpl; rewrite Hpend; unfold weights; simpl; lia]. destruct Hpl, Ha. split; [done|].
      exists s. split; [|done]. split; simpl; by rewrite <- (assoc_L (++)). }
  apply runs_bind, runs_modify. destruct (eof_emitted l) eqn:Heof; [by apply runs_ret|].
  pose proof (mark_start_placed l Hpl) as Hpl1. pose proof (agrees_mark l s Ha) as Ha1.
  destruct (placed_rest l Hpl) as (rem & Hat & _). pose proof (str_from_le _ _ _ Hat) as Hle.
  assert (Hr1 : reading (mark_start l) rem).
  { exists []. split; simpl; [by rewrite (placed_input l Hpl)|]. lia. }
  assert (Hspan : (s.(last_span).2 <= l.(pos))%nat) by by destruct Ha.
  rewrite (placed_input l Hpl). destruct (Nat.leb_spec (str_len source) (pos l)) as [Hend|Hend].
  - apply runs_bind. eapply runs_mono; [eapply (end_of_file_runs out (mark_start l) s); try done; simpl; lia|].
    intros _ l' (Hinv & Hpot & Hp). apply runs_ret. split_and!; [done|done|exact Hpot|by left].
  - assert (Hne : rem ≠ []) by (intros ->; simpl in Hle; lia). apply runs_bind.
    destruct (at_line_start l) eqn:Hls.
    + eapply runs_mono; [by eapply (line_start_runs out (mark_start l) s rem)|].
      intros f l' (Heof' & Hpot & Hf). destruct f as [| |item]; [|destruct Hf as (s' & rem' & ? & ? & ? & ? & ? & ? & ? & ? & ?)|done].
      * apply runs_ret. destruct Hf as [Hinv Hf]. by split_and!.
      * by eapply consume_round.
    + apply runs_ret. eapply (consume_round out l (mark_start l) s); try done.
Qed.

(** Rounds left before the next token. *)
Definition rounds_left (l : Lexer) : nat :=
  match l.(pending_tokens) with [] => 2 + (str_len source - l.(pos)) | _ => 1 end.

Definition next_done (out : list (Token * Span)) (l : Lexer) (item : option (Token * Span)) (l' : Lexer) : Prop :=
  match item with
  | Some item => invariant (out ++ [item]) l' ∧ (potential l' + weight item.1 <= potential l)%nat
  | None => ∃ s, observe_all start_obs out = Some s ∧ s.(ended) = true ∧
      Forall (λ item, spelled source item.1 item.2) out ∧
      l'.(pending_tokens) = [] ∧ l'.(eof_emitted) = true ∧ l'.(input) = source ∧ (potential l' <= potential l)%nat
  end.

Lemma rounds_runs fuel out l :
  ¬ ends_in_spaces → invariant out l → (rounds_left l <= fuel)%nat → runs (rounds fuel) l (next_done out l).
Proof.
  intros Hno. revert l. induction fuel as [|fuel IH]; intros l Hinv Hf.
  { unfold rounds_left in Hf. destruct (pending_tokens l); lia. }
  cbn [rounds]. apply runs_bind. eapply runs_mono; [by apply (round_runs out)|].
  intros [| |[item|]] l' Hdone; simpl in Hdone; [|done| |].
  - destruct Hdone as (Hinv' & Hpend & Hpot & Hprog). eapply runs_mono; [apply (IH l'); [done|]|].
    + unfold rounds_left in *. rewrite Hpend in Hf. destruct Hinv as [Hpl _], Hinv' as [Hpl' _].
      apply placed_le in Hpl, Hpl'. destruct (pending_tokens l') eqn:Hp'; [|lia]. destruct Hprog as [?|Hlt]; [done|lia].
    + intros [item|] l2 H2; [destruct H2 as [? ?]; split; [done|lia]|]. destruct H2 as (s & ? & ? & ? & ? & ? & ? & ?).
      exists s. split_and!; try done. lia.
  - by apply runs_ret.
  - apply runs_ret. destruct Hdone as (Hpend & Heof & ->). destruct Hinv as [Hpl (s & [Ho Hs] & Ha)].
    rewrite Hpend, app_nil_r in *. exists s.
    split_and!; [done|by rewrite (agrees_ended _ _ Ha)|done|done|done|apply Hpl|done].
Qed.

(** [next] returns: a token, after which the invariant holds again, or the end
    of a complete stream. *)
Lemma next_runs out l : ¬ ends_in_spaces → invariant out l → runs next l (next_done out l).
Proof.
  intros Hno Hinv. unfold next. apply runs_bind, runs_get. apply rounds_runs; [done|done|].
  unfold rounds_left, next_fuel. destruct Hinv as [Hpl _]. rewrite (placed_input l Hpl).
  destruct (pending_tokens l); lia.
Qed.

(** A complete stream. *)
Definition complete (items : list (Token * Span)) : Prop :=
  ∃ s, observe_all start_obs items = Some s ∧ s.(ended) = true ∧
    Forall (λ item, spelled source item.1 item.2) items.

Lemma collect_runs fuel out l :
  ¬ ends_in_spaces → invariant out l → (potential l < fuel)%nat →
  runs (collect fuel) l (λ items _, complete (out ++ items)).
Proof.
  intros Hno. revert out l. induction fuel as [|fuel IH]; intros out l Hinv Hf; [lia|]. cbn [collect].
  apply runs_bind. eapply runs_mono; [by apply (next_runs out)|]. intros [item|] l' Hdone; simpl in Hdone.
  - destruct Hdone as [Hinv' Hpot]. pose proof (weight_pos item.1). apply runs_bind. eapply runs_mono; [apply (IH (out ++ [item])); [done|lia]|].
    intros items l2 Hc. apply runs_ret. cbv beta in Hc. by rewrite <- (assoc_L (++)) in Hc.
  - apply runs_ret. rewrite app_nil_r. destruct Hdone as (s & ? & ? & ? & _). by exists s.
Qed.

Lemma lex_spanned_post : ¬ ends_in_spaces → post (lex_spanned source) complete (λ _, True).
Proof.
  intros Hno. pose proof (collect_runs (collect_fuel source) [] (new source) Hno invariant_new) as Hc.
  unfold lex_spanned. unfold runs in Hc. destruct (collect _ _) as [[items|e| |] l']; simpl; try done;
    apply Hc; unfold potential, collect_fuel; simpl; lia.
Qed.

(** *** Reading the observer *)

Definition count (p : Token → bool) (items : list (Token * Span)) : nat :=
  length (filter (λ item, p item.1 = true) items).

Definition is_indent (t : Token) : bool := match t with Indent => true | _ => false end.
Definition is_dedent (t : Token) : bool := match t with Dedent => true | _ => false end.

Lemma count_cons p item items :
  count p (item :: items) = ((if p item.1 then 1 else 0) + count p items)%nat.
Proof. unfold count. rewrite filter_cons. case_decide as Hp; [by rewrite Hp|]. by destruct (p item.1). Qed.

Lemma observe_level s t span s' :
  observe s (t, span) = Some s' →
  (s.(level) + (if is_indent t then 1 else 0) = s'.(level) + (if is_dedent t then 1 else 0))%nat ∧
  (s.(ended) = false) ∧ (s'.(ended) = true → t = Eof ∧ span = (str_len source, str_len source) ∧ s'.(level) = 0%nat).
Proof.
  destruct span as [a b]. unfold observe. destruct (s.(ended)) eqn:He; [done|]. simpl.
  destruct (Nat.leb_spec a b); [|done]. destruct (Nat.leb_spec b (str_len source)); [|done]. simpl.
  destruct t; cbn -[Nat.eqb]; intros Hs; repeat (case_match; simplify_eq/=; try done); try (split_and!; done || lia).
  split_and!; try done; try lia.
  all: match goal with E : _ && _ && _ = true |- _ => rewrite !andb_true_iff, !Nat.eqb_eq in E end.
  - lia.
  - intros _. split_and!; [done| |done]. f_equal; lia.
Qed.

Lemma observe_all_level s items s' :
  observe_all s items = Some s' →
  (s.(level) + count is_indent items = s'.(level) + count is_dedent items)%nat ∧
  (s.(ended) = false → s'.(ended) = true →
    s'.(level) = 0%nat ∧ ∃ items', items = items' ++ [(Eof, (str_len source, str_len source))]).
Proof.
  revert s. induction items as [|[t span] items IH]; intros s; cbn [observe_all].
  { intros [= ->]. split; [done|]. congruence. }
  destruct (observe s (t, span)) as [s1|] eqn:H1; [|done]. simpl. intros Hs.
  destruct (observe_level _ _ _ _ H1) as (Hl1 & _ & Hend). destruct (IH s1 Hs) as [Hl Hend'].
  rewrite !count_cons. cbn [fst]. split; [lia|]. intros _ He'. destruct (ended s1) eqn:He1.
  - destruct (Hend eq_refl) as (-> & -> & Hz). destruct items as [|item items].
    + injection Hs as <-. split; [done|]. by exists [].
    + exfalso. cbn [observe_all] in Hs. unfold observe in Hs. destruct item as [? [? ?]]. by rewrite He1 in Hs.
  - destruct (Hend' eq_refl He') as [Hz [items' ->]]. split; [done|]. by exists ((t, span) :: items').
Qed.
End stream.

Section lexer_claims.
Context {B R : Type} `{!BigInt B, !BigRational B R, !UnicodeTables}.

(** C31: lexing is total.  On every source whose last line is not made of
    spaces only, the lexer returns its tokens or an error: no slice splits a
    character, no stack or queue is read when empty, no arithmetic overflows,
    and every loop ends. *)
Theorem lex_total (source : str) (Hsource : ¬ ends_in_spaces source) :
  (∃ items, lex_spanned (B:=B) (R:=R) source = Ok items) ∨ (∃ e, lex_spanned (B:=B) (R:=R) source = Err e).
Proof.
  destruct (post_total _ _ _ (lex_spanned_post source Hsource)) as [(items & Hr & _)|(e & Hr & _)]; eauto.
Qed.

(** C8: the token stream is well formed.  When a source whose last line is not
    made of spaces only lexes without an error, the observer accepts its tokens:
    spans move forward within the source, a dedent always closes an indent, a
    closing parenthesis or bracket comes only while some delimiter is open, and
    no newline, indent or dedent comes inside a delimiter before the end of the
    input.  Delimiters are counted: their kinds are not matched, and some may be
    left open at the end.  The suites opened are as many as those closed, the
    last token is the [Eof] at the source's end, and every literal keeps exactly
    the text its span covers. *)
Theorem lex_stream_well_formed (source : str) items
    (Hsource : ¬ ends_in_spaces source) (Hlex : lex_spanned (B:=B) (R:=R) source = Ok items) :
  (∃ s, observe_all source start_obs items = Some s ∧ s.(ended) = true) ∧
  count is_indent items = count is_dedent items ∧
  (∃ items', items = items' ++ [(Eof, (str_len source, str_len source))]) ∧
  Forall (λ item, spelled source item.1 item.2) items.
Proof.
  destruct (post_ok _ _ _ _ (lex_spanned_post source Hsource) Hlex) as (s & Ho & He & Hs).
  destruct (observe_all_level source start_obs items s Ho) as [Hl Hend]. destruct (Hend eq_refl He) as [Hz Heof].
  split_and!; [by exists s| |done|done]. simpl in Hl. lia.
Qed.
End lexer_claims.

(** A source of lines. *)
Definition source_of (lines : list string) : str := concat (map (λ l, lit l ++ [nl]) lines).

Lemma newline_ended source : last source = Some nl → ¬ ends_in_spaces source.
Proof.
  intros Hl (pre & sp & -> & Hne & Hsp & _). destruct (last sp) as [c|] eqn:Hlast.
  - rewrite last_app, Hlast in Hl. injection Hl as ->. apply last_Some in Hlast as [sp' ->].
    apply Forall_app in Hsp as [_ Hsp]. by apply Forall_cons in Hsp as [? _].
  - apply last_None in Hlast. done.
Qed.

Lemma lex_total_witness :
  (∃ items, lex_spanned (H:=ascii_tables) (B:=Z) (R:=Qcanon.Qc) (source_of ["if x:"; "    y = 1"]) = Ok items) ∨
  (∃ e, lex_spanned (H:=ascii_tables) (B:=Z) (R:=Qcanon.Qc) (source_of ["if x:"; "    y = 1"]) = Err e).
Proof. apply (lex_total (H:=ascii_tables)). by apply newline_ended. Defined.

Lemma lex_stream_well_formed_witness :
  ∃ items, lex_spanned (H:=ascii_tables) (B:=Z) (R:=Qcanon.Qc) (source_of ["if x:"; "    f(1,"; "2)"]) = Ok items ∧
    count is_indent items = count is_dedent items.
Proof.
  eexists. split; [vm_compute; reflexivity|].
  apply (lex_stream_well_formed (H:=ascii_tables) (source_of ["if x:"; "    f(1,"; "2)"])); [by apply newline_ended|].
  vm_compute. reflexivity.
Defined.

(** Delimiters are counted and their kinds not matched, and one may stay open. *)
Example delimiters_counted :
  Forall (λ text, ∃ items, lex_spanned (H:=ascii_tables) (B:=Z) (R:=Qcanon.Qc) (source_of [text]) = Ok items)
    ["([)]"%string; "(]"%string; "(}"%string; "("%string].
Proof. repeat constructor; eexists; vm_compute; reflexivity. Qed.

(** The excluded sources do panic: a last line of the suite's own indentation
    and nothing else sends the scan past the end of the input. *)
Example lex_trailing_spaces_panics :
  lex_ascii (source_of ["if x:"; "    pass"] ++ lit "    ") = Panic.
Proof. vm_compute. reflexivity. Qed.

(** A line at the indentation of the line before starts its first token before
    that indentation. *)
Example lex_span_holds_indentation :
  ∃ items, lex_spanned (H:=ascii_tables) (B:=Z) (R:=Qcanon.Qc) (source_of ["if x:"; "    1"; "    2"]) = Ok items ∧
    items !! 7%nat = Some (IntLit (mkInt 2) (lit "    2"), (12, 17)%nat).
Proof. eexists. split; vm_compute; reflexivity. Qed.

(** A dot after digits makes a float whatever follows it, unless it starts
    [..]. *)
Example lex_dot_after_digits_is_float :
  ∃ v, lex_ascii (lit "1.x") = Ok [FloatLit v (lit "1."); Identifier (lit "x"); Newline; Eof].
Proof. eexists. vm_compute. reflexivity. Qed.
