(* ===== verification/LexTokens.v ===== *)
(** * What the lexer reads (crates/mojito-lexer/src/lexer.rs)

    Functional correctness of the token scanners of [Lexer]: operators by the
    longest match, words and keywords, integers by value. *)

From S2P Require Import Prelude Text Literal Token Scanner Lexer.
From Stdlib Require Import Ascii Sorted.

Local Open Scope Z_scope.

Section operators.
Context {B R : Type} `{!BigInt B, !BigRational B R, !UnicodeTables}.
Notation Token := (Token B R).

(** The operator spellings by first character: the longer ones, and the token
    of the character alone. *)
Definition operator_table : list (char * (list (str * Token) * Token)) :=
  [ (ch "&", ([(lit "&=", AmpEq)], Amp)); (ch "|", ([(lit "|=", PipeEq)], Pipe));
    (ch "^", ([(lit "^=", CaretEq)], Caret)); (ch ":", ([(lit ":=", ColonEq)], Colon));
    (ch ",", ([], Comma)); (ch ";", ([], Semicolon)); (ch "@", ([], At)); (ch "~", ([], Tilde));
    (ch "=", ([(lit "==", EqEq)], Assign)); (ch "-", ([(lit "->", Arrow); (lit "-=", MinusEq)], Minus));
    (ch "+", ([(lit "+=", PlusEq)], Plus));
    (ch "*", ([(lit "**=", DoubleStarEq); (lit "**", DoubleStar); (lit "*=", StarEq)], Star));
    (ch "/", ([(lit "//=", DoubleSlashEq); (lit "//", DoubleSlash); (lit "/=", SlashEq)], Slash));
    (ch "%", ([(lit "%=", PercentEq)], Percent));
    (ch "<", ([(lit "<<=", ShlEq); (lit "<<", Shl); (lit "<=", TLe)], TLt));
    (ch ">", ([(lit ">>=", ShrEq); (lit ">>", Shr); (lit ">=", TGe)], TGt)) ].

(** Every spelling with its token. *)
Definition symbols : list (str * Token) :=
  flat_map (λ entry : char * (list (str * Token) * Token), entry.2.1 ++ [([entry.1], entry.2.2)]) operator_table.

Lemma symbols_in text t :
  (text, t) ∈ symbols → ∃ c alternatives single, (c, (alternatives, single)) ∈ operator_table ∧
    (text, t) ∈ alternatives ++ [([c], single)].
Proof.
  unfold symbols. induction operator_table as [|[c [alternatives single]] table IH]; simpl.
  { by intros ?%elem_of_nil. }
  intros [Hin|Hin]%elem_of_app.
  - exists c, alternatives, single. split; [by left|done].
  - destruct (IH Hin) as (c' & a' & s' & ? & ?). exists c', a', s'. split; [by right|done].
Qed.

Lemma in_symbols c alternatives single entry :
  (c, (alternatives, single)) ∈ operator_table → entry ∈ alternatives ++ [([c], single)] → entry ∈ symbols.
Proof.
  unfold symbols. induction operator_table as [|[c' [a' s']] table IH]; simpl; [by intros ?%elem_of_nil|].
  intros [[= -> -> ->]|Ht]%elem_of_cons He; apply elem_of_app; [by left|right; auto].
Qed.

Section at_input.
Context (input : str) (token_start : nat) (position : TokenPosition).

(** The dispatch is the table. *)
Lemma scan_token_operator c alternatives single :
  (c, (alternatives, single)) ∈ operator_table →
  scan_token (B:=B) (R:=R) input token_start position c = operator input alternatives single.
Proof.
  unfold operator_table. intros Hin.
  repeat (apply elem_of_cons in Hin as [[= -> -> ->]|Hin]; [reflexivity|]). by apply elem_of_nil in Hin.
Qed.

Definition same_prefix (s1 s2 rest : str) : Prop := starts_with rest s1 = true ∧ starts_with rest s2 = true.

Lemma prefix_unique s1 s2 rest : same_prefix s1 s2 rest → length s1 = length s2 → s1 = s2.
Proof.
  intros [(r1 & ->)%starts_with_spec (r2 & Hr)%starts_with_spec] Hl. by apply app_inj_1 in Hr as [-> _].
Qed.

Lemma symbol_scan n (t : Token) p : symbol n t p = (Ok t, (p + n)%nat).
Proof. done. Qed.

(** The alternatives are tried longest first. *)
Definition longest_first (alternatives : list (str * Token)) : Prop :=
  NoDup alternatives.*1 ∧ Forall (λ e, 2 <= length e.1)%nat alternatives ∧
  StronglySorted (λ e1 e2, length e2.1 <= length e1.1)%nat alternatives.

Lemma operator_longest alternatives single c text t tail p :
  at_rest input p (text ++ tail) → longest_first alternatives → (text, t) ∈ alternatives ++ [([c], single)] →
  Forall (λ e, starts_with (text ++ tail) e.1 = true → length e.1 <= length text)%nat alternatives →
  Forall (λ e, str_len e.1 = length e.1) alternatives → c < 0x80 →
  operator input alternatives single p = (Ok t, (p + length text)%nat).
Proof.
  intros Hat Hsort Hin Hlong Hascii Hc. induction alternatives as [|[w u] alternatives IH]; simpl.
  { apply list_elem_of_singleton in Hin as [= -> ->]. done. }
  destruct Hsort as (Hnd & Hlen & Hs). apply NoDup_cons in Hnd as [Hw Hnd]. apply Forall_cons in Hlen as [H2 Hlen].
  apply StronglySorted_inv in Hs as [Hs Hmax]. apply Forall_cons in Hlong as [Hl Hlong]. apply Forall_cons in Hascii as [Ha Hascii].
  simpl in *. rewrite (scan_bind_ok _ _ _ (text ++ tail) p) by by apply scan_remainder.
  apply elem_of_cons in Hin as [[= -> ->]|Hin].
  { by rewrite starts_with_app, symbol_scan, Ha. }
  destruct (starts_with (text ++ tail) w) eqn:Hpre; [|by apply IH].
  specialize (Hl eq_refl). exfalso. apply elem_of_app in Hin as [Hin|Hin].
  - rewrite Forall_forall in Hmax. pose proof (Hmax _ Hin) as Hm. simpl in Hm.
    assert (w = text) as ->. { eapply prefix_unique; [split; [done|apply starts_with_app]|lia]. }
    apply Hw. apply list_elem_of_fmap. by exists (text, t).
  - apply list_elem_of_singleton in Hin as [= -> ->]. simpl in Hl. lia.
Qed.

Lemma table_sorted c alternatives single :
  (c, (alternatives, single)) ∈ operator_table →
  longest_first alternatives ∧ Forall (λ e, str_len e.1 = length e.1) alternatives ∧ c < 0x80.
Proof.
  unfold operator_table. intros Hin.
  repeat (apply elem_of_cons in Hin as [[= -> -> ->]|Hin];
    [split_and!; [split_and!; [by apply (bool_decide_unpack _)|repeat constructor..]|repeat constructor|reflexivity]|]).
  by apply elem_of_nil in Hin.
Qed.

Lemma table_first c alternatives single entry :
  (c, (alternatives, single)) ∈ operator_table → entry ∈ alternatives ++ [([c], single)] → head entry.1 = Some c.
Proof.
  assert (Hall : Forall (λ e : char * (list (str * Token) * Token),
    Forall (λ e', head e'.1 = Some e.1) (e.2.1 ++ [([e.1], e.2.2)])) operator_table) by by repeat constructor.
  intros Ht He. rewrite Forall_forall in Hall. specialize (Hall _ Ht). rewrite Forall_forall in Hall. by apply Hall.
Qed.

(** Operators lex by the longest match.  When the input continues with an
    operator's spelling and with no longer spelling of the table, the token is
    that operator's and exactly its spelling is consumed. *)
Theorem operators_longest_match text t c rest tail p
    (Hsymbol : (text, t) ∈ symbols) (Hfirst : text = c :: rest) (Hat : at_rest input p (text ++ tail))
    (Hlongest : ∀ text' t', (text', t') ∈ symbols → starts_with (text ++ tail) text' = true → (length text' <= length text)%nat) :
  scan_token (B:=B) (R:=R) input token_start position c p = (Ok t, (p + length text)%nat).
Proof.
  destruct (symbols_in text t Hsymbol) as (c' & alternatives & single & Htable & Hin).
  destruct (table_sorted _ _ _ Htable) as (Hsort & Hascii & Hc).
  assert (c = c') as <-.
  { pose proof (table_first _ _ _ _ Htable Hin) as Hhead. rewrite Hfirst in Hhead. by injection Hhead. }
  rewrite (scan_token_operator _ _ _ Htable). eapply operator_longest; try done.
  apply Forall_forall. intros [text' t'] He Hpre. eapply Hlongest; [|done].
  eapply in_symbols; [done|]. apply elem_of_app. by left.
Qed.
End at_input.
End operators.

Lemma operators_longest_match_witness :
  scan_token (H:=ascii_tables) (B:=Z) (R:=Qcanon.Qc) (lit "**x") 0%nat WithinStatement (ch "*") 0%nat = (Ok DoubleStar, 2%nat).
Proof.
  apply (operators_longest_match (H:=ascii_tables) (lit "**x") 0%nat WithinStatement (lit "**") DoubleStar (ch "*") (lit "*") (lit "x") 0%nat).
  - unfold symbols. simpl. repeat (first [by left|right]).
  - reflexivity.
  - reflexivity.
  - intros text' t' Hin. unfold symbols in Hin. simpl in Hin.
    repeat (apply elem_of_cons in Hin as [[= -> ->]|Hin]; [vm_compute; (discriminate || lia)|]). by apply elem_of_nil in Hin.
Defined.

(** ** Words and numbers *)

Section words.
Context {B R : Type} `{!BigInt B, !BigRational B R, !UnicodeTables}.
Context (input : str) (token_start : nat) (position : TokenPosition).
Notation Token := (Token B R).

(** [text] is a maximal run of characters in [f]. *)
Definition maximal (f : char → bool) (text tail : str) : Prop :=
  forallb f text = true ∧ match tail with c :: _ => f c = false | [] => True end.

Lemma maximal_take f text tail : maximal f text tail → take_while f (text ++ tail) = text ∧ drop_while f (text ++ tail) = tail.
Proof.
  intros [Ht Hn]. induction text as [|c text IH]; simpl in *.
  - destruct tail as [|c tail]; [done|]. simpl. by rewrite Hn.
  - apply andb_true_iff in Ht as [-> Ht]. by destruct (IH Ht) as [-> ->].
Qed.

Lemma maximal_digits radix text tail p :
  at_rest input p (text ++ tail) → maximal (λ c, is_digit c radix || (c =? ch "_")) text tail →
  consume_digit_run input radix p = (Ok tt, (p + str_len text)%nat).
Proof.
  intros Hat Hm. unfold consume_digit_run. rewrite (scan_bind_ok _ _ _ (text ++ tail) p) by by apply scan_remainder.
  by destruct (maximal_take _ _ _ Hm) as [-> _].
Qed.

(** A word is a keyword or a name.  A maximal run of word characters that
    is not glued to a string as its prefix lexes to its keyword's token, or to
    the identifier of that spelling; [enum] is a keyword only where it declares
    one. *)
Theorem words_read text tail p
    (Hat : at_rest input p (text ++ tail)) (Hword : maximal is_word text tail)
    (Hprefix : string_prefix text = None ∨ match head tail with Some c => is_quote c = false | None => True end) :
  lex_word (B:=B) (R:=R) input token_start position p
  = (Ok (if bool_decide (text = lit "enum") && declares_enum (B:=B) (R:=R) position tail then Enum
         else match keyword text with Some t => t | None => Identifier text end),
     (p + str_len text)%nat).
Proof.
  unfold lex_word. rewrite (scan_bind_ok _ _ _ (text ++ tail) p) by by apply scan_remainder.
  destruct (maximal_take _ _ _ Hword) as [-> _]. rewrite (scan_bind_ok _ _ _ tt (p + str_len text)%nat) by done.
  rewrite (scan_bind_ok _ _ _ tail (p + str_len text)%nat) by (by apply scan_remainder, at_rest_advance).
  assert (Hdone : (mret (word_token (B:=B) (R:=R) position text tail) : Scan Token) (p + str_len text)%nat
    = (Ok (if bool_decide (text = lit "enum") && declares_enum (B:=B) (R:=R) position tail then Enum
         else match keyword text with Some t => t | None => Identifier text end), (p + str_len text)%nat)).
  { reflexivity. }
  destruct (string_prefix text) as [[interpolated raw]|]; [|exact Hdone].
  destruct (head tail) as [c|]; [|exact Hdone]. destruct Hprefix as [?|Hq]; [done|]. by rewrite Hq.
Qed.
End words.

Lemma words_read_witness :
  lex_word (H:=ascii_tables) (B:=Z) (R:=Qcanon.Qc) (lit "while x") 0%nat StatementStart 0%nat = (Ok While, 5%nat) ∧
  lex_word (H:=ascii_tables) (B:=Z) (R:=Qcanon.Qc) (lit "whilst") 0%nat StatementStart 0%nat = (Ok (Identifier (lit "whilst")), 6%nat).
Proof.
  split.
  - rewrite (words_read (H:=ascii_tables) (lit "while x") 0%nat StatementStart (lit "while") (lit " x")); [reflexivity|reflexivity|by split|by left].
  - rewrite (words_read (H:=ascii_tables) (lit "whilst") 0%nat StatementStart (lit "whilst") []); [reflexivity|reflexivity|by split|by left].
Defined.

(** *** Integers *)

Section integers.
#[local] Set Default Proof Using "Type*".
Context {B R : Type} `{!BigInt B, !BigRational B R, !BigIntLaws B}.
Context (input : str).
Notation Token := (Token B R).

(** The digits of a run, without its separators. *)
Definition digits_of (run : str) : str := filter (λ c, c ≠ ch "_") run.

Definition digit_run (radix : Z) (run tail : str) : Prop := maximal (λ c, is_digit c radix || (c =? ch "_")) run tail.

Lemma digits_of_digits radix run tail : digit_run radix run tail → all_digits radix (digits_of run) = true.
Proof.
  intros [Hr _]. unfold digits_of. induction run as [|c run IH]; [done|]. simpl in Hr.
  apply andb_true_iff in Hr as [Hc Hr]. rewrite filter_cons. case_decide as Hu; [|by apply IH].
  simpl. rewrite (IH Hr), andb_true_r. apply orb_true_iff in Hc as [?|Hc%Z.eqb_eq]; [done|by destruct Hu].
Qed.

Lemma cleaned_run start run tail p :
  between input start run p tail → cleaned input start p = (Ok (digits_of run), p).
Proof.
  intros [Ha ->]. unfold cleaned. rewrite (scan_bind_ok _ _ _ run (start + str_len run)%nat); [done|].
  unfold slice_from. by rewrite (str_slice_between _ _ _ _ Ha).
Qed.

(** The integer token of a digit run, or its refusal. *)
Definition integer_result (radix : Z) (run text : str) (start : nat) : outcome LexError Token :=
  if bool_decide (digits_of run = []) then Err (InvalidInteger start)
  else Ok (IntLit (mkInt (bi_from (digits_value radix 0 (digits_of run)))) text).

Lemma integer_token_run token_start start radix run text tail p :
  2 <= radix <= 36 → all_digits radix (digits_of run) = true → between input token_start text p tail →
  integer_token (B:=B) (R:=R) input token_start start (digits_of run) radix p = (integer_result radix run text start, p).
Proof.
  intros Hradix Hd [Ha Hp]. unfold integer_token, integer_result, parse_radix. case_bool_decide as Hnil.
  - rewrite Hnil, bi_parse_empty. done.
  - rewrite bi_parse_digits by done. rewrite (scan_bind_ok _ _ _ (mkInt (bi_from (digits_value radix 0 (digits_of run)))) p) by done.
    rewrite (scan_bind_ok _ _ _ text p); [done|]. unfold spelling, slice_from. by rewrite Hp, (str_slice_between _ _ _ _ Ha).
Qed.

(** Integers read by value.  After [0x], [0o] or [0b] the maximal run of
    the radix's digits and separators is an integer of the digits' value, and a
    run with no digit is refused.  A decimal run that no fraction, exponent or
    prefix continues is the integer of its value, and is refused when it has a
    leading zero.  The token keeps its spelling. *)
Theorem integers_read p tail :
  (∀ k radix run, radix_prefix (Some k) = Some radix → digit_run radix run tail →
    at_rest input p (ch "0" :: k :: run ++ tail) →
    lex_number (B:=B) (R:=R) input p (ch "0") p
    = (integer_result radix run (ch "0" :: k :: run) p, (p + str_len (ch "0" :: k :: run))%nat)) ∧
  (∀ c run, is_ascii_digit c = true → digit_run 10 (c :: run) tail → at_rest input p (c :: run ++ tail) →
    (∀ d, head tail = Some d → d ≠ ch "." ∧ d ≠ ch "e" ∧ d ≠ ch "E" ∧ radix_prefix (Some d) = None) →
    lex_number (B:=B) (R:=R) input p c p
    = (if leading_zero (digits_of (c :: run)) then Err (InvalidInteger p) else integer_result 10 (c :: run) (c :: run) p,
       (p + str_len (c :: run))%nat)).
Proof.
  split.
  - intros k radix run Hk Hrun Hat. assert (Hka : k < 0x80 ∧ 2 <= radix <= 36).
    { unfold radix_prefix in Hk. change (ch "x") with 120 in Hk. change (ch "X") with 88 in Hk.
      change (ch "o") with 111 in Hk. change (ch "O") with 79 in Hk. change (ch "b") with 98 in Hk.
      change (ch "B") with 66 in Hk. repeat case_match; simplify_eq; lia. }
    destruct Hka as [Hka Hradix]. unfold lex_number. rewrite (scan_bind_ok _ _ _ p p) by done.
    rewrite (scan_bind_ok _ _ _ _ p) by by apply scan_remainder.
    rewrite (scan_bind_ok _ _ _ (k :: run ++ tail) p) by (by rewrite str_from_ascii).
    rewrite Z.eqb_refl. change (head (k :: run ++ tail)) with (Some k). rewrite Hk.
    pose proof (at_rest_ascii _ _ _ _ (at_rest_ascii _ _ _ _ Hat ltac:(by vm_compute)) Hka) as Hat2.
    rewrite <- Nat.add_assoc in Hat2. change (1 + 1)%nat with 2%nat in Hat2.
    rewrite (scan_bind_ok _ _ _ tt (p + 2)%nat) by done. rewrite (scan_bind_ok _ _ _ (p + 2)%nat (p + 2)%nat) by done.
    erewrite scan_bind_ok by by eapply maximal_digits.
    rewrite (scan_bind_ok _ _ _ (digits_of run) (p + 2 + str_len run)%nat) by (eapply cleaned_run; split; [exact Hat2|done]).
    assert (Hlen : str_len (ch "0" :: k :: run) = (2 + str_len run)%nat) by (simpl; by rewrite !len_utf8_ascii).
    rewrite Hlen, Nat.add_assoc. eapply (integer_token_run _ _ _ _ _ tail); [done|by eapply digits_of_digits|].
    split; [done|]. rewrite Hlen. lia.
  - intros c run Hc Hrun Hat Htail. destruct (is_digit_ascii c Hc) as [Hdig Hca].
    unfold lex_number. rewrite (scan_bind_ok _ _ _ p p) by done.
    rewrite (scan_bind_ok _ _ _ _ p) by by apply scan_remainder.
    rewrite (scan_bind_ok _ _ _ (run ++ tail) p) by (by rewrite str_from_ascii).
    assert ((if c =? ch "0" then radix_prefix (head (run ++ tail)) else None) = None) as ->.
    { destruct (c =? ch "0"); [|done]. destruct run as [|d run]; simpl.
      - destruct tail as [|d tail]; [done|]. by apply (Htail d).
      - destruct Hrun as [Hall _]. simpl in Hall. apply andb_true_iff in Hall as [_ Hall].
        apply andb_true_iff in Hall as [Hd _]. apply orb_true_iff in Hd as [Hd|Hd%Z.eqb_eq].
        + apply is_digit_10 in Hd. change (ch "0") with 48 in Hd. change (ch "9") with 57 in Hd.
          change (ch "x") with 120. change (ch "X") with 88. change (ch "o") with 111. change (ch "O") with 79.
          change (ch "b") with 98. change (ch "B") with 66.
          assert (Hne : ∀ k, k < 48 ∨ 57 < k → (d =? k) = false) by (intros; lia).
          by rewrite !Hne by (right; lia).
        + by subst d. }
    unfold lex_decimal. rewrite (app_comm_cons run tail c) in Hat.
    erewrite scan_bind_ok by (eapply maximal_digits; [exact Hat|exact Hrun]).
    pose proof (at_rest_advance _ _ _ _ Hat) as Hat1. set (q := (p + str_len (c :: run))%nat) in *.
    assert (Hfrac : lex_fraction input q = (Ok false, q)).
    { unfold lex_fraction. rewrite (scan_bind_ok _ _ _ tail q) by by apply scan_remainder.
      destruct tail as [|d tail]; [done|]. destruct (Htail d eq_refl) as (Hd & _). simpl.
      by rewrite (proj2 (Z.eqb_neq _ _) Hd). }
    assert (Hexp : consume_exponent input q = (Ok false, q)).
    { unfold consume_exponent. rewrite (scan_bind_ok _ _ _ tail q) by by apply scan_remainder.
      destruct tail as [|d tail]; [done|]. destruct (Htail d eq_refl) as (_ & He & HE & _). simpl.
      by rewrite (proj2 (Z.eqb_neq _ _) He), (proj2 (Z.eqb_neq _ _) HE). }
    rewrite (scan_bind_ok _ _ _ false q) by done. rewrite (scan_bind_ok _ _ _ false q) by done.
    rewrite (scan_bind_ok _ _ _ (digits_of (c :: run)) q) by (eapply cleaned_run; split; [exact Hat|done]).
    cbv beta iota. cbn [orb]. destruct (leading_zero _); [done|].
    eapply (integer_token_run _ _ _ _ _ tail); [lia|by eapply digits_of_digits|by split].
Qed.
End integers.

Lemma integers_read_witness :
  lex_number (B:=Z) (R:=Qcanon.Qc) (lit "0xF_F") 0%nat (ch "0") 0%nat = (Ok (IntLit (mkInt 255) (lit "0xF_F")), 5%nat) ∧
  lex_number (B:=Z) (R:=Qcanon.Qc) (lit "1_000+") 0%nat (ch "1") 0%nat = (Ok (IntLit (mkInt 1000) (lit "1_000")), 5%nat).
Proof.
  split.
  - destruct (integers_read (B:=Z) (R:=Qcanon.Qc) (lit "0xF_F") 0%nat []) as [H _].
    rewrite (H (ch "x") 16 (lit "F_F")); [reflexivity|reflexivity|by split|reflexivity].
  - destruct (integers_read (B:=Z) (R:=Qcanon.Qc) (lit "1_000+") 0%nat (lit "+")) as [_ H].
    rewrite (H (ch "1") (lit "_000")); [reflexivity|reflexivity|by split|reflexivity|].
    by intros d [= <-].
Defined.
