(* ===== verification/Mir.v ===== *)
(** * Mir: the structured form of a MIR function

    [mojito-mir/src/mir/ir.rs]: registers, labels, blocks, the region ops
    ([if], [loop], [match], [try] and the compile-time [comptime if] and
    [comptime for]) and the terminators that end a region, with the frames a
    region exit names.  The instructions that hold no region are left to a
    parameter ([op]): nothing here looks inside one. *)

From S2P Require Import Prelude.

(** [Reg(u32)] indexes a frame's register file and is never computed with. *)
Record Reg := MkReg { reg : nat }.
Record LoopLabel := MkLoopLabel { loop_label : N }.
Record TryLabel := MkTryLabel { try_label : N }.

#[export] Instance Reg_eq_dec : EqDecision Reg.
Proof. solve_decision. Defined.
#[export] Instance LoopLabel_eq_dec : EqDecision LoopLabel.
Proof. solve_decision. Defined.
#[export] Instance TryLabel_eq_dec : EqDecision TryLabel.
Proof. solve_decision. Defined.

(** How a region's one block hands off control. *)
Inductive MirTerm : Type :=
| TReturn (value : option Reg)
| TTryYield (values : list Reg)
| TYield (values : list Reg)
| TElifCond (cond : Reg) (values : list Reg)
| TBreak (label : option LoopLabel) (values : list Reg)
| TContinue (label : option LoopLabel) (values : list Reg)
| TComptimeYield (values : list Reg)
| TComptimeBreak (values : list Reg)
| TComptimeContinue (values : list Reg)
| TMatchNext (values : list Reg)
| TMatchComplete (values : list Reg)
| TTryRaise (label : TryLabel) (values : list Reg)
| TErrorReturn
| TUnreachable.

(** The parts of an instruction the region structure does not read: the
    instructions holding no region, parameter expressions and the constants
    that are neither a [Bool] nor a parameter. *)
Class MirTypes := {
  op : Type;
  param : Type;
  constant : Type;
  #[global] param_eq_dec :: EqDecision param;
}.

(** A block, an [elif] arm and a [match] case over the instruction type. *)
Record MirBlock_of (I : Type) := MkBlock { instrs : list I; term : MirTerm }.
Arguments MkBlock {I} instrs term.
Arguments instrs {I} m.
Arguments term {I} m.

Record MirElif_of (I : Type) := MkElif {
  cond_args : list Reg;
  elif_cond : list (MirBlock_of I);
  then_args : list Reg;
  elif_then : list (MirBlock_of I);
}.
Arguments MkElif {I} cond_args elif_cond then_args elif_then.
Arguments cond_args {I} m.
Arguments elif_cond {I} m.
Arguments then_args {I} m.
Arguments elif_then {I} m.

Record MirCase_of (I : Type) := MkCase {
  case_args : list Reg;
  case_body : list (MirBlock_of I);
}.
Arguments MkCase {I} case_args case_body.
Arguments case_args {I} m.
Arguments case_body {I} m.

Section mir.
Context `{MirTypes}.

Inductive Const : Type :=
| ConstBool (b : bool)
| ConstParam (value : param)
| ConstOther (value : constant).

(** A [try]'s [error] slot and a [comptime for]'s binder and the rest of its
    sequence are not control flow and are left out. *)
Inductive MirInstr : Type :=
| ITry (label : TryLabel) (results : list Reg) (body : list (MirBlock_of MirInstr))
    (handler_args : list Reg) (handler : option (list (MirBlock_of MirInstr)))
    (else_args : list Reg) (orelse : option (list (MirBlock_of MirInstr)))
| IIf (results : list Reg) (cond : Reg) (then_ : list (MirBlock_of MirInstr))
    (elifs : list (MirElif_of MirInstr)) (else_args : list Reg)
    (orelse : list (MirBlock_of MirInstr))
| ILoop (label : option LoopLabel) (operands args results : list Reg)
    (body : list (MirBlock_of MirInstr))
| IComptimeIf (results : list Reg) (values : list Const)
    (arms : list (list (MirBlock_of MirInstr))) (orelse : list (MirBlock_of MirInstr))
| IComptimeFor (has_next : param) (operands args results : list Reg)
    (body orelse : list (MirBlock_of MirInstr))
| IComptimeAssert (value : Const)
| IMatch (results : list Reg) (cases : list (MirCase_of MirInstr))
    (else_args : list Reg) (orelse : list (MirBlock_of MirInstr))
| IOp (o : op).

(** The regions an instruction holds, in order. *)
Definition instruction_regions (instruction : MirInstr) :
    list (list (MirBlock_of MirInstr)) :=
  match instruction with
  | IIf _ _ then_ elifs _ orelse =>
      then_ :: (elifs ≫= λ elif, [elif_cond elif; elif_then elif]) ++ [orelse]
  | ILoop _ _ _ _ body => [body]
  | IComptimeIf _ _ arms orelse => arms ++ [orelse]
  | IComptimeFor _ _ _ _ body orelse => [body; orelse]
  | IMatch _ cases _ orelse => (case_body <$> cases) ++ [orelse]
  | ITry _ _ body _ handler _ orelse =>
      body :: option_list handler ++ option_list orelse
  | IComptimeAssert _ | IOp _ => []
  end.

(** [for region in instruction_regions(i)]: what [f] collects over the
    regions, in order, written over the constructors so that a recursive [f]
    is structural. *)
Definition in_regions {A} (f : list (MirBlock_of MirInstr) → list A)
    (instruction : MirInstr) : list A :=
  match instruction with
  | IIf _ _ then_ elifs _ orelse =>
      f then_ ++ flat_map (λ elif, f (elif_cond elif) ++ f (elif_then elif)) elifs ++ f orelse
  | ILoop _ _ _ _ body => f body
  | IComptimeIf _ _ arms orelse => flat_map f arms ++ f orelse
  | IComptimeFor _ _ _ _ body orelse => f body ++ f orelse
  | IMatch _ cases _ orelse => flat_map (λ case, f (case_body case)) cases ++ f orelse
  | ITry _ _ body _ handler _ orelse =>
      f body ++ from_option f [] handler ++ from_option f [] orelse
  | IComptimeAssert _ | IOp _ => []
  end.

Lemma in_regions_eq {A} (f : list (MirBlock_of MirInstr) → list A) i :
  in_regions f i = instruction_regions i ≫= f.
Proof.
  destruct i as [? ? ? ? [?|] ? [?|]|? ? ? es| |? ? arms| | |? cs|]; simpl;
    rewrite ?app_nil_r; try done.
  - f_equal. rewrite bind_app. simpl. rewrite app_nil_r. f_equal.
    induction es as [|e es IH]; simpl; [done|]. by rewrite IH, <- app_assoc.
  - rewrite bind_app. simpl. by rewrite app_nil_r.
  - rewrite bind_app. simpl. rewrite app_nil_r. f_equal.
    induction cs as [|c cs IH]; simpl; [done|]. by rewrite IH.
Qed.

(** The number of instructions of the tree under [i]: what an induction on
    the nesting of regions goes by. *)
Fixpoint instruction_size (i : MirInstr) : nat :=
  S (sum_list (in_regions (flat_map (λ b, map instruction_size (instrs b))) i)).

(** Induction on nesting: a property of every instruction of an op's regions
    gives it of the op. *)
Lemma MirInstr_nested_ind (P : MirInstr → Prop) :
  (∀ i, (∀ bs b j, bs ∈ instruction_regions i → b ∈ bs → j ∈ instrs b → P j) → P i) →
  ∀ i, P i.
Proof.
  intros Hstep i. remember (instruction_size i) as n eqn:Hn.
  revert i Hn. induction (lt_wf n) as [n _ IH]. intros i Hn. apply Hstep.
  intros bs b j Hbs Hb Hj. apply (IH (instruction_size j)); [|done]. subst n.
  assert (instruction_size j ∈
    in_regions (flat_map (λ b, map instruction_size (instrs b))) i) as Hin.
  { rewrite in_regions_eq. apply list_elem_of_bind. exists bs. split; [|done].
    apply list_elem_of_In, in_flat_map. exists b. split; [by apply list_elem_of_In|].
    apply in_map, list_elem_of_In, Hj. }
  assert (∀ l (x : nat), x ∈ l → x ≤ sum_list l) as Hle.
  { intros l x Hx. induction Hx; simpl; lia. }
  apply Hle in Hin. destruct i; simpl in *; lia.
Qed.

(** Every instruction of [bs] in order, each region op followed by its
    regions' instructions. *)
Fixpoint instruction_tree (i : MirInstr) : list MirInstr :=
  i :: in_regions (flat_map (λ b, flat_map instruction_tree (instrs b))) i.

Definition nested_instructions (bs : list (MirBlock_of MirInstr)) : list MirInstr :=
  bs ≫= λ b, instrs b ≫= instruction_tree.

(** The registers a region op defines: its results and its regions'
    arguments. *)
Definition instruction_result_regs (op_results : op → list Reg)
    (instruction : MirInstr) : list Reg :=
  match instruction with
  | IIf results _ _ elifs else_args _ =>
      results ++ (elifs ≫= λ elif, cond_args elif ++ then_args elif) ++ else_args
  | IMatch results cases else_args _ => results ++ (cases ≫= case_args) ++ else_args
  | ITry _ results _ handler_args _ else_args _ => results ++ handler_args ++ else_args
  | IComptimeIf results _ _ _ => results
  | ILoop _ _ args results _ | IComptimeFor _ _ args results _ _ => results ++ args
  | IComptimeAssert _ => []
  | IOp o => op_results o
  end.

(** The registers a region op itself reads. *)
Definition instruction_operand_regs (op_operands : op → list Reg)
    (instruction : MirInstr) : list Reg :=
  match instruction with
  | IIf _ cond _ _ _ _ => [cond]
  | ILoop _ operands _ _ _ | IComptimeFor _ operands _ _ _ _ => operands
  | ITry _ _ _ _ _ _ _ | IComptimeIf _ _ _ _ | IComptimeAssert _ | IMatch _ _ _ _ => []
  | IOp o => op_operands o
  end.

(** Every register the instructions of [bs] define, at any depth. *)
Definition defined_registers (op_results : op → list Reg)
    (bs : list (MirBlock_of MirInstr)) : list Reg :=
  nested_instructions bs ≫= instruction_result_regs op_results.

(** The equation of the source's recursion. *)
Lemma nested_instructions_eq bs :
  nested_instructions bs =
    (bs ≫= instrs) ≫= λ i, i :: (instruction_regions i ≫= nested_instructions).
Proof.
  induction bs as [|b bs IH]; [done|].
  change (nested_instructions (b :: bs)) with
    ((instrs b ≫= instruction_tree) ++ nested_instructions bs).
  change ((b :: bs) ≫= instrs) with (instrs b ++ (bs ≫= instrs)).
  rewrite bind_app, IH. f_equal.
  induction (instrs b) as [|i is_ IHi]; [done|].
  change ((i :: is_) ≫= instruction_tree) with
    (instruction_tree i ++ (is_ ≫= instruction_tree)).
  rewrite IHi. replace (instruction_tree i) with (i :: in_regions nested_instructions i) by (by destruct i).
  by rewrite bind_cons, in_regions_eq.
Qed.

End mir.

Notation MirBlock := (MirBlock_of MirInstr).
Notation MirElif := (MirElif_of MirInstr).
Notation MirCase := (MirCase_of MirInstr).

(** Every register a terminator reads. *)
Definition terminator_regs (t : MirTerm) : list Reg :=
  match t with
  | TElifCond cond values => cond :: values
  | TReturn (Some r) => [r]
  | TYield values | TTryRaise _ values | TTryYield values | TComptimeYield values
  | TMatchNext values | TMatchComplete values | TComptimeBreak values
  | TComptimeContinue values | TBreak _ values | TContinue _ values => values
  | TReturn None | TErrorReturn | TUnreachable => []
  end.

(** ** Region exits and the frames they name *)

Inductive RegionFrame : Type :=
| FLoop (label : option LoopLabel)
| FComptimeFor
| FMatchCase
| FTry (label : TryLabel).

#[export] Instance RegionFrame_eq_dec : EqDecision RegionFrame.
Proof. solve_decision. Defined.

(** [RegionFrame::names]. *)
Definition names (self frame : RegionFrame) : bool :=
  match self, frame with
  | FLoop label, FLoop found =>
      match label with None => true | Some _ => bool_decide (found = label) end
  | FComptimeFor, FComptimeFor | FMatchCase, FMatchCase => true
  | FTry label, FTry found => bool_decide (label = found)
  | _, _ => false
  end.

(** The frame a region terminator leaves to, and whether it resumes it. *)
Definition region_exit (t : MirTerm) : option (RegionFrame * bool) :=
  match t with
  | TBreak label _ => Some (FLoop label, false)
  | TContinue label _ => Some (FLoop label, true)
  | TComptimeBreak _ => Some (FComptimeFor, false)
  | TComptimeContinue _ => Some (FComptimeFor, true)
  | TMatchComplete _ => Some (FMatchCase, false)
  | TMatchNext _ => Some (FMatchCase, true)
  | _ => None
  end.

(** ** Mnemonics of the region ops and terminators ([text.rs]) *)

Definition terminator_mnemonic (t : MirTerm) : string :=
  match t with
  | TReturn _ => "return"
  | TTryYield _ => "try.yield"
  | TYield _ => "yield"
  | TElifCond _ _ => "if.elifcond.yield"
  | TBreak _ _ => "break"
  | TContinue _ _ => "continue"
  | TComptimeYield _ => "comptime.yield"
  | TComptimeBreak _ => "comptime.for.break"
  | TComptimeContinue _ => "comptime.for.continue"
  | TMatchNext _ => "match.next"
  | TMatchComplete _ => "match.complete"
  | TTryRaise _ _ => "try.raise"
  | TErrorReturn => "error_return"
  | TUnreachable => "unreachable"
  end.
