(* ===== verification/Structure.v ===== *)
(** * Structure: the structural verifier of MIR

    [mojito-mir/src/mir/verify/structure.rs], with the walk that drives it
    ([verify_blocks] and [verify_function] of [calls.rs], the register checks
    of [verify_instruction] in [instr.rs], [verify_terminator] of
    [places.rs]) and the rejection of compile-time regions in concrete MIR
    ([concrete_blocks] of [concrete.rs]).  A finding is the block it names and
    its message, a constructor per message of the source.  Types, parameter
    expressions and the checks on instructions that hold no region are
    parameters. *)

From stdpp Require Import gmap.
From S2P Require Import Prelude Mir.

(** What the walk uses of the type language. *)
Class TyOps `{MirTypes} := {
  Ty : Type;
  types_compatible : Ty → Ty → bool;
  (** [is_bool] or the builtin [i1] *)
  is_condition : Ty → bool;
  (** the parameter expression has [Bool] meta *)
  param_is_bool : param → bool;
}.

Record MirFunction `{TyOps} := MkFunction {
  blocks : list MirBlock;
  n_regs : nat;
  reg_types : gmap nat Ty;
  returns_reference : bool;
  ret_ty : option Ty;
  raises : bool;
}.

(** What a region is to the op that holds it. *)
Inductive RegionKind : Type :=
| KFunction
| KTryBody (label : TryLabel) (handled : option (list Reg)) (completes : list Reg)
    (into_else : bool)
| KTryPart (results : list Reg)
| KIfArm (results : list Reg)
| KElifCond (then_args next_args : list Reg)
| KLoopBody (label : option LoopLabel) (args results : list Reg)
| KComptimeIfArm (results : list Reg)
| KComptimeForBody (args results : list Reg)
| KComptimeForElse
| KMatchCase (next_args results : list Reg).

(** Where a block sits: the kinds of the regions around it, outermost
    first. *)
Record RegionContext := MkContext {
  regions : list RegionKind;
  protected : bool;
  asserted : bool;
}.

(** [RegionContext::kind]. *)
Definition kind (context : RegionContext) : RegionKind :=
  default KFunction (last (regions context)).

(** [RegionContext::judged_per_instance]. *)
Definition judged_per_instance (context : RegionContext) : bool :=
  asserted context
  || existsb (λ k, match k with KComptimeIfArm _ => true | _ => false end)
       (regions context).

(** The innermost enclosing region on which [f] is defined:
    [regions.iter().rev().find_map(f)]. *)
Fixpoint find_map {A B} (f : A → option B) (l : list A) : option B :=
  match l with
  | [] => None
  | x :: l => match f x with Some y => Some y | None => find_map f l end
  end.

Definition innermost {B} (f : RegionKind → option B) (context : RegionContext) : option B :=
  find_map f (reverse (regions context)).

Definition try_body_handled (label : TryLabel) (k : RegionKind) :
    option (option (list Reg)) :=
  match k with
  | KTryBody found handled _ _ => if decide (found = label) then Some handled else None
  | _ => None
  end.

(** The handler arguments of the nearest [try] body carrying [label]. *)
Definition raise_target (context : RegionContext) (label : TryLabel) :
    option (option (list Reg)) :=
  innermost (try_body_handled label) context.

Definition loop_named (label : option LoopLabel) (k : RegionKind) :
    option (list Reg * list Reg) :=
  match k with
  | KLoopBody found args results =>
      match label with
      | None => Some (args, results)
      | Some _ => if decide (found = label) then Some (args, results) else None
      end
  | _ => None
  end.

(** The arguments and results of the loop a [break] or [continue] names. *)
Definition enclosing_loop (context : RegionContext) (label : option LoopLabel) :
    option (list Reg * list Reg) :=
  innermost (loop_named label) context.

Definition case_registers (k : RegionKind) : option (list Reg * list Reg) :=
  match k with KMatchCase next_args results => Some (next_args, results) | _ => None end.

(** The next region's arguments and the results of the nearest [match]
    case. *)
Definition enclosing_case (context : RegionContext) : option (list Reg * list Reg) :=
  innermost case_registers context.

Inductive YieldTarget : Type := Results | Arguments.

(** One constructor per message of the source. *)
Inductive Message `{TyOps} : Type :=
| InvalidRegister (r : Reg)
| UntypedRegister (r : Reg)
| PartArguments (args : nat) (part : string)
| ConditionType (what : string) (found : Ty)
| YieldCount (mnemonic : string) (values targets : nat) (target : YieldTarget)
| YieldType (mnemonic : string) (found : Ty) (target : YieldTarget) (expected : Ty)
| ComptimeArms (values arms : nat)
| ComptimeTest (what : string) (value : Const)
| NoHasNextTest
| ElseNotUnreachable
| ForCount (operands results : nat)
| ForType (index : nat) (found expected : Ty)
| NoCase
| RegionBlocks (n : nat)
| OutsideRegion (mnemonic : string)
| RaiseNamesNoTry (mnemonic : string) (label : TryLabel)
| RaiseHasNoHandler (mnemonic : string) (label : TryLabel)
| NoEnclosingLoop (mnemonic : string) (label : option LoopLabel)
| NotInComptimeFor (mnemonic : string)
| NotInMatchCase (mnemonic : string)
| ReturnType (found expected : Ty)
| UnprotectedRaise
| UnprotectedCall
| KeepsComptimeIf (values : list Const)
| KeepsComptimeFor
| KeepsTerminator (mnemonic : string)
| BodyBlocks (n : nat)
| OtherMessage (text : string).

(** A message and the block it names; a function's own has none. *)
Record Finding `{TyOps} := MkFinding { at_block : option nat; message : Message }.
Arguments MkFinding {_ _} at_block message.

(** What the walk asks of an instruction that holds no region. *)
Class OpChecks `{TyOps} := {
  op_results : op → list Reg;
  op_operands : op → list Reg;
  (** the call carries an error contract *)
  op_call_error : op → bool;
  (** every other check on it, at its index in its block *)
  op_findings : MirFunction → RegionContext → list MirInstr → nat → op → list Message;
  (** the concreteness checks on an instruction holding no region *)
  concrete_findings : MirFunction → MirInstr → list Message;
}.

Section structure.
Context `{OpChecks}.
Variable function : MirFunction.

Definition reg_ty (r : Reg) : option Ty := reg_types function !! reg r.

(** A condition is a [Bool] or the builtin [i1]. *)
Definition require_bool (what : string) (cond : Reg) : list Message :=
  match reg_ty cond with
  | Some found => if is_condition found then [] else [ConditionType what found]
  | None => []
  end.

Definition comptime_test_value (what : string) (value : Const) : list Message :=
  let is_bool :=
    match value with
    | ConstBool _ => true
    | ConstParam value => param_is_bool value
    | ConstOther _ => false
    end in
  if is_bool then [] else [ComptimeTest what value].

Definition edge_type (mnemonic : string) (target : YieldTarget) (edge : Reg * Reg) :
    list Message :=
  match reg_ty edge.1, reg_ty edge.2 with
  | Some found, Some expected =>
      if types_compatible found expected then []
      else [YieldType mnemonic found target expected]
  | _, _ => []
  end.

(** The values along one edge match what they define in number and type. *)
Definition yielded_values (mnemonic : string) (values targets : list Reg)
    (target : YieldTarget) : list Message :=
  if negb (length values =? length targets) then
    [YieldCount mnemonic (length values) (length targets) target]
  else zip values targets ≫= edge_type mnemonic target.

Fixpoint operand_types (index : nat) (edges : list (Reg * Reg)) : list Message :=
  match edges with
  | [] => []
  | (operand, result) :: edges =>
      match reg_ty operand, reg_ty result with
      | Some found, Some expected =>
          if types_compatible found expected then operand_types (S index) edges
          else [ForType index found expected]
      | _, _ => operand_types (S index) edges
      end
  end.

(** A [comptime for]'s loop-carried values. *)
Definition comptime_for_values (operands args results : list Reg) : list Message :=
  if negb (length operands =? length results) then
    [ForCount (length operands) (length results)]
  else
    match operand_types 0 (zip operands results) with
    | [] => yielded_values "comptime.for" operands args Arguments
    | found => found
    end.

Definition is_comptime_loop (k : RegionKind) : option RegionKind :=
  match k with KLoopBody _ _ _ | KComptimeForBody _ _ => Some k | _ => None end.

(** A region terminator sits in the region it ends. *)
Definition verify_region_terminator (t : MirTerm) (context : RegionContext) :
    list Message :=
  let mnemonic := terminator_mnemonic t in
  match t, kind context with
  | TYield values, KIfArm results | TComptimeYield values, KComptimeIfArm results =>
      yielded_values mnemonic values results Results
  | TElifCond cond values, KElifCond then_args next_args =>
      require_bool mnemonic cond ++
      match yielded_values mnemonic values then_args Arguments with
      | [] => yielded_values mnemonic values next_args Arguments
      | found => found
      end
  | TTryYield values, KTryBody _ _ completes into_else =>
      yielded_values mnemonic values completes (if into_else then Arguments else Results)
  | TTryYield values, KTryPart results => yielded_values mnemonic values results Results
  | TErrorReturn, _ => []
  | TTryRaise label values, _ =>
      match raise_target context label with
      | None => [RaiseNamesNoTry mnemonic label]
      | Some None => [RaiseHasNoHandler mnemonic label]
      | Some (Some args) => yielded_values mnemonic values args Arguments
      end
  | (TYield _ | TComptimeYield _ | TElifCond _ _ | TTryYield _), _ =>
      [OutsideRegion mnemonic]
  | TBreak label values, _ =>
      match enclosing_loop context label with
      | None => [NoEnclosingLoop mnemonic label]
      | Some (args, results) => yielded_values mnemonic values results Results
      end
  | TContinue label values, _ =>
      match enclosing_loop context label with
      | None => [NoEnclosingLoop mnemonic label]
      | Some (args, results) => yielded_values mnemonic values args Arguments
      end
  | TComptimeBreak values, _ =>
      match innermost is_comptime_loop context with
      | Some (KComptimeForBody args results) => yielded_values mnemonic values results Results
      | _ => [NotInComptimeFor mnemonic]
      end
  | TComptimeContinue values, _ =>
      match innermost is_comptime_loop context with
      | Some (KComptimeForBody args results) => yielded_values mnemonic values args Arguments
      | _ => [NotInComptimeFor mnemonic]
      end
  | TMatchNext values, _ =>
      match enclosing_case context with
      | None => [NotInMatchCase mnemonic]
      | Some (next_args, results) => yielded_values mnemonic values next_args Arguments
      end
  | TMatchComplete values, _ =>
      match enclosing_case context with
      | None => [NotInMatchCase mnemonic]
      | Some (next_args, results) => yielded_values mnemonic values results Results
      end
  | (TReturn _ | TUnreachable), _ => []
  end.

(** [verify_terminator]. *)
Definition verify_terminator (t : MirTerm) (context : RegionContext) : list Message :=
  match t with
  | TReturn value =>
      match value with
      | Some register =>
          if returns_reference function then [] else
          match reg_ty register, ret_ty function with
          | Some found, Some expected =>
              if types_compatible found expected then [] else [ReturnType found expected]
          | _, _ => []
          end
      | None => []
      end
  | TErrorReturn =>
      if negb (raises function) then [UnprotectedRaise]
      else verify_region_terminator t context
  | _ => verify_region_terminator t context
  end.

(** Register bounds and type completeness of one instruction. *)
Definition verify_register (r : Reg) : list Message :=
  if n_regs function <=? reg r then [InvalidRegister r]
  else match reg_ty r with None => [UntypedRegister r] | Some _ => [] end.

Definition verify_registers (instruction : MirInstr) : list Message :=
  (instruction_result_regs op_results instruction ++
   instruction_operand_regs op_operands instruction) ≫= verify_register.

Definition in_block (block_index : nat) (messages : list Message) : list Finding :=
  MkFinding (Some block_index) <$> messages.

(** The walk over a block list, with the check of one instruction (in its
    context, block and position) as an argument. *)
Section walk.
Variable verify_one : RegionContext → list MirInstr → nat → nat → MirInstr → list Finding.

Definition is_assert (instruction : MirInstr) : bool :=
  match instruction with IComptimeAssert _ => true | _ => false end.

Fixpoint verify_instrs (context : RegionContext) (block : list MirInstr)
    (block_index index : nat) (rest : list MirInstr) : list Finding :=
  match rest with
  | [] => []
  | instruction :: rest =>
      let after :=
        if is_assert instruction
        then MkContext (regions context) (protected context) true
        else context in
      verify_one context block block_index index instruction ++
      verify_instrs after block block_index (S index) rest
  end.

Fixpoint verify_blocks_from (context : RegionContext) (block_index : nat)
    (bs : list MirBlock) : list Finding :=
  match bs with
  | [] => []
  | b :: bs =>
      verify_instrs context (instrs b) block_index 0 (instrs b) ++
      in_block block_index (verify_terminator (term b) context) ++
      verify_blocks_from context (S block_index) bs
  end.

Definition verify_region_with (context : RegionContext) (block_index : nat)
    (k : RegionKind) (protected : bool) (bs : list MirBlock) : list Finding :=
  (if negb (length bs =? 1) then in_block block_index [RegionBlocks (length bs)] else []) ++
  verify_blocks_from
    (MkContext (regions context ++ [k]) protected (asserted context)) 0 bs.

End walk.

(** The arguments of the region tried after a condition or a case. *)
Definition next_cond_args (rest : list MirElif) (else_args : list Reg) : list Reg :=
  match rest with [] => else_args | next :: _ => cond_args next end.

Definition next_case_args (rest : list MirCase) (else_args : list Reg) : list Reg :=
  match rest with [] => else_args | next :: _ => case_args next end.

(** The regions of an [if]'s [elif]s and of a [match]'s cases, with the check
    of one region as an argument. *)
Section parts.
Variable region : RegionKind → bool → list MirBlock → list Finding.
Variables (results else_args : list Reg) (protected : bool).

Fixpoint verify_elifs (elifs : list MirElif) : list Finding :=
  match elifs with
  | [] => []
  | elif :: rest =>
      region (KElifCond (then_args elif) (next_cond_args rest else_args)) protected
        (elif_cond elif) ++
      region (KIfArm results) protected (elif_then elif) ++
      verify_elifs rest
  end.

Fixpoint verify_cases (cases : list MirCase) : list Finding :=
  match cases with
  | [] => []
  | case :: rest =>
      region (KMatchCase (next_case_args rest else_args) results) protected
        (case_body case) ++
      verify_cases rest
  end.
End parts.

Definition part_arguments (args : list Reg) (region : bool) (part : string) : list Message :=
  if negb region && negb (length args =? 0) then [PartArguments (length args) part] else [].

Definition tests_has_next (has_next : param) (body : list MirBlock) : bool :=
  match body with
  | [MkBlock (IComptimeIf _ [ConstParam test] _ _ :: _) TUnreachable] =>
      bool_decide (test = has_next)
  | _ => false
  end.

Definition unreachable_else (orelse : list MirBlock) : bool :=
  match orelse with [MkBlock [] TUnreachable] => true | _ => false end.

(** One instruction: its registers, its regions ([verify_regions]) and, for
    an instruction holding none, the other checks and its error contract. *)
Fixpoint verify_instruction (context : RegionContext) (block : list MirInstr)
    (block_index index : nat) (instruction : MirInstr) {struct instruction} :
    list Finding :=
  let region := verify_region_with verify_instruction context block_index in
  let say := in_block block_index in
  say (verify_registers instruction) ++
  match instruction with
  | ITry label results body handler_args handler else_args orelse =>
      say (part_arguments handler_args (bool_decide (is_Some handler)) "handler") ++
      say (part_arguments else_args (bool_decide (is_Some orelse)) "else") ++
      region
        (KTryBody label ((λ _, handler_args) <$> handler)
           (if orelse is Some _ then else_args else results)
           (bool_decide (is_Some orelse)))
        (protected context || bool_decide (is_Some handler)) body ++
      match handler with
      | Some handler => region (KTryPart results) (protected context) handler
      | None => []
      end ++
      match orelse with
      | Some orelse => region (KTryPart results) (protected context) orelse
      | None => []
      end
  | IIf results cond then_ elifs else_args orelse =>
      say (require_bool "if" cond) ++
      say (yielded_values "if" [] (next_cond_args elifs else_args) Arguments) ++
      region (KIfArm results) (protected context) then_ ++
      verify_elifs region results else_args (protected context) elifs ++
      region (KIfArm results) (protected context) orelse
  | ILoop label operands args results body =>
      say (yielded_values "loop" operands args Arguments) ++
      region (KLoopBody label args results) (protected context) body
  | IComptimeIf results values arms orelse =>
      say (if (length values =? 0) || negb (length values =? length arms)
           then [ComptimeArms (length values) (length arms)] else []) ++
      say (values ≫= comptime_test_value "comptime if") ++
      flat_map (region (KComptimeIfArm results) (protected context)) arms ++
      region (KComptimeIfArm results) (protected context) orelse
  | IComptimeFor has_next operands args results body orelse =>
      say (comptime_for_values operands args results) ++
      say (if tests_has_next has_next body then [] else [NoHasNextTest]) ++
      say (if unreachable_else orelse then [] else [ElseNotUnreachable]) ++
      region (KComptimeForBody args results) (protected context) body ++
      region KComptimeForElse (protected context) orelse
  | IMatch results cases else_args orelse =>
      say (match cases with
           | [] => [NoCase]
           | first :: _ => yielded_values "match" [] (case_args first) Arguments
           end) ++
      verify_cases region results else_args (protected context) cases ++
      region (KIfArm results) (protected context) orelse
  | IComptimeAssert value => say (comptime_test_value "comptime assert" value)
  | IOp o =>
      say (op_findings function context block index o) ++
      say (if op_call_error o && negb (raises function) && negb (protected context)
           then [UnprotectedCall] else [])
  end.

Definition verify_blocks (context : RegionContext) (bs : list MirBlock) : list Finding :=
  verify_blocks_from verify_instruction context 0 bs.

Definition verify_region := verify_region_with verify_instruction.

Definition function_context : RegionContext := MkContext [KFunction] false false.

(** The part of [verify_function] that walks the body. *)
Definition verify_function : list Finding :=
  (if negb (length (blocks function) =? 1)
   then [MkFinding None (BodyBlocks (length (blocks function)))] else []) ++
  verify_blocks function_context (blocks function).

(** ** Concrete MIR keeps no compile-time region *)

Definition concrete_terminator (t : MirTerm) : list Message :=
  match t with
  | TComptimeYield _ | TComptimeBreak _ | TComptimeContinue _ =>
      [KeepsTerminator (terminator_mnemonic t)]
  | _ => []
  end.

Section concrete_walk.
Variable concrete_one : nat → MirInstr → list Finding.

Fixpoint concrete_instrs (block_index : nat) (rest : list MirInstr) : list Finding :=
  match rest with
  | [] => []
  | instruction :: rest =>
      concrete_one block_index instruction ++ concrete_instrs block_index rest
  end.

Fixpoint concrete_blocks_from (block_index : nat) (bs : list MirBlock) : list Finding :=
  match bs with
  | [] => []
  | b :: bs =>
      concrete_instrs block_index (instrs b) ++
      in_block block_index (concrete_terminator (term b)) ++
      concrete_blocks_from (S block_index) bs
  end.
End concrete_walk.

Fixpoint concrete_instruction (block_index : nat) (instruction : MirInstr) : list Finding :=
  match instruction with
  | IComptimeIf _ values _ _ => in_block block_index [KeepsComptimeIf values]
  | IComptimeFor _ _ _ _ _ _ => in_block block_index [KeepsComptimeFor]
  | IComptimeAssert _ | IOp _ => in_block block_index (concrete_findings function instruction)
  | ITry _ _ _ _ _ _ _ | IIf _ _ _ _ _ _ | ILoop _ _ _ _ _ | IMatch _ _ _ _ => []
  end ++
  in_regions (concrete_blocks_from concrete_instruction 0) instruction.

Definition concrete_blocks (bs : list MirBlock) : list Finding :=
  concrete_blocks_from concrete_instruction 0 bs.

(** The findings of [verify_concrete_function_in] on the body's structure. *)
Definition verify_concrete_function : list Finding :=
  verify_function ++ concrete_blocks (blocks function).

End structure.
