(* ===== verification/Regions.v ===== *)
(** * Regions: the virtual machine's region cursor

    [mojito-vm/src/backend/vm/regions.rs]: where a frame executes next inside
    the region ops it is in, the entry of each region op and the transfer of
    each region terminator; and the loop of [drive_frames] in [frames.rs] that
    drives one frame with it.  The cursor is the path from the function's
    block list through each region op it is inside, so nesting never grows
    the host stack. *)

From stdpp Require Import pretty.
From S2P Require Import Prelude Mir.

(** Run-time values, and the test a condition applies to one. *)
Class Values := { Value : Type; is_true : Value → bool }.

Inductive RuntimeError `{Values} : Type :=
| UndefinedVariable (name : string)
| TypeError (msg : string)
| NotCallable (name : string)
| ArityMismatch (name : string) (expected got : nat)
| ClosureEscape
| Raised (value : Value)
| Unsupported (what : string)
| Abort_ (msg : string).

Notation vm := (outcome RuntimeError).

(** A region of a region op. *)
Inductive RegionRef : Type :=
| Root
| Then
| ElifCond (index : nat)
| ElifThen (index : nat)
| Else
| Body (label : option LoopLabel)
| Case (index : nat)
| TryBody (label : TryLabel)
| TryHandler
| TryElse.

(** One list's position, and which region of the enclosing op the list is. *)
Record RegionLevel := MkLevel { level_region : RegionRef; block : nat; instruction : nat }.

(** [RegionLevel::entry]. *)
Definition entry (r : RegionRef) : RegionLevel := MkLevel r 0 0.

(** The root list's level first. *)
Record RegionCursor := MkCursor { levels : list RegionLevel }.

(** [RegionCursor::default]. *)
Definition cursor_default : RegionCursor := MkCursor [entry Root].

(** [RegionRef::frame]: the frame a region exit names this region's op by. *)
Definition frame (r : RegionRef) : option RegionFrame :=
  match r with
  | Body label => Some (FLoop label)
  | Case _ => Some FMatchCase
  | Root | Then | ElifCond _ | ElifThen _ | Else | TryBody _ | TryHandler | TryElse => None
  end.

Section regions.
Context `{MirTypes, Values}.

Definition lost_position : RuntimeError :=
  Unsupported "vm: a region transfer named no enclosing region".

(** Where a terminator sent control. *)
Inductive Transfer : Type :=
| Moved
| Return_ (value : option Reg)
| TryRaise (label : TryLabel) (values : list Value)
| ErrorReturn.

(** [regs[r]]: panics out of range. *)
Definition read_reg (regs : list Value) (r : Reg) : vm Value := unwrap (regs !! reg r).

(** The values of [sources], all read before any is bound. *)
Fixpoint read (regs : list Value) (sources : list Reg) : vm (list Value) :=
  match sources with
  | [] => Ok []
  | source :: sources =>
      value ← read_reg regs source;
      values ← read regs sources;
      Ok (value :: values)
  end.

(** Bind each target to its value; the shorter list ends the loop. *)
Fixpoint store (regs : list Value) (targets : list Reg) (values : list Value) :
    vm (list Value) :=
  match targets, values with
  | target :: targets, value :: values =>
      regs ← set_at (reg target) value regs;
      store regs targets values
  | _, _ => Ok regs
  end.

(** The instruction [level] is at. *)
Definition op_at (bs : list MirBlock) (level : RegionLevel) : vm MirInstr :=
  ok_or lost_position (bs !! block level ≫= λ b, instrs b !! instruction level).

(** The region [r] of the op [i]. *)
Definition region (i : MirInstr) (r : RegionRef) : option (list MirBlock) :=
  match i, r with
  | IIf _ _ then_ _ _ _, Then => Some then_
  | IIf _ _ _ elifs _ _, ElifCond index => elif_cond <$> elifs !! index
  | IIf _ _ _ elifs _ _, ElifThen index => elif_then <$> elifs !! index
  | IIf _ _ _ _ _ orelse, Else | IMatch _ _ _ orelse, Else => Some orelse
  | ILoop _ _ _ _ body, Body _ => Some body
  | IMatch _ cases _ _, Case index => case_body <$> cases !! index
  | ITry _ _ body _ _ _ _, TryBody _ => Some body
  | ITry _ _ _ _ handler _ _, TryHandler => handler
  | ITry _ _ _ _ _ _ orelse, TryElse => orelse
  | _, _ => None
  end.

(** The results of the region op [i]. *)
Definition results (i : MirInstr) : vm (list Reg) :=
  match i with
  | IIf results _ _ _ _ _ | ILoop _ _ _ results _ | IMatch results _ _ _
  | ITry _ results _ _ _ _ _ => Ok results
  | _ => Err lost_position
  end.

(** Walk [windows(2)] of the levels from [bs]. *)
Fixpoint list_from (bs : list MirBlock) (ls : list RegionLevel) : vm (list MirBlock) :=
  match ls with
  | outer :: ((inner :: _) as ls) =>
      i ← op_at bs outer;
      bs ← ok_or lost_position (region i (level_region inner));
      list_from bs ls
  | _ => Ok bs
  end.

Implicit Types (c : RegionCursor) (root : list MirBlock) (regs : list Value).

(** [levels[depth]]. *)
Definition level_at c (depth : nat) : vm RegionLevel := unwrap (levels c !! depth).

(** [levels.len() - 1]: an overflow when there is no level. *)
Definition innermost_depth c : vm nat :=
  match length (levels c) with 0 => Panic | S depth => Ok depth end.

(** [RegionCursor::list]: the block list level [depth] is in. *)
Definition list_at c root (depth : nat) : vm (list MirBlock) :=
  if depth <? length (levels c) then list_from root (take (S depth) (levels c)) else Panic.

(** [RegionCursor::op]: the region op level [depth] is a region of. *)
Definition op_of c root (depth : nat) : vm MirInstr :=
  match depth with
  | 0 => Panic
  | S outer =>
      bs ← list_at c root outer;
      level ← level_at c outer;
      op_at bs level
  end.

(** [RegionCursor::block]. *)
Definition cursor_block c root : vm MirBlock :=
  depth ← innermost_depth c;
  bs ← list_at c root depth;
  level ← level_at c depth;
  ok_or lost_position (bs !! block level).

(** [RegionCursor::instruction]. *)
Definition cursor_instruction c : nat :=
  match last (levels c) with Some level => instruction level | None => 0 end.

Definition advance_level (level : RegionLevel) : RegionLevel :=
  MkLevel (level_region level) (block level) (S (instruction level)).

(** [RegionCursor::advance]. *)
Definition advance c : RegionCursor :=
  match last (levels c) with
  | Some level => MkCursor (removelast (levels c) ++ [advance_level level])
  | None => c
  end.

Definition push c (r : RegionRef) : RegionCursor := MkCursor (levels c ++ [entry r]).
Definition pop c : RegionCursor := MkCursor (removelast (levels c)).
Definition truncate c (n : nat) : RegionCursor := MkCursor (take n (levels c)).

(** [levels[depth] = RegionLevel::entry(r)]. *)
Definition replace c (depth : nat) (r : RegionRef) : vm RegionCursor :=
  ls ← set_at depth (entry r) (levels c);
  Ok (MkCursor ls).

(** [RegionCursor::enter]: [None] when [i] is no region op the machine
    runs. *)
Definition enter c (i : MirInstr) regs : vm (option (RegionCursor * list Value)) :=
  match i with
  | IIf _ cond _ elifs _ _ =>
      value ← read_reg regs cond;
      let r :=
        if is_true value then Then
        else match elifs with [] => Else | _ => ElifCond 0 end in
      Ok (Some (push c r, regs))
  | ILoop label operands args _ _ =>
      values ← read regs operands;
      regs ← store regs args values;
      Ok (Some (push c (Body label), regs))
  | IMatch _ cases _ _ =>
      let r := match cases with [] => Else | _ => Case 0 end in
      Ok (Some (push c r, regs))
  | ITry label _ _ _ _ _ _ => Ok (Some (push c (TryBody label), regs))
  | _ => Ok None
  end.

(** [(1..len).rev().find(p)]. *)
Fixpoint rfind (p : nat → bool) (len : nat) : option nat :=
  match len with
  | S ((S _) as depth) => if p depth then Some depth else rfind p depth
  | _ => None
  end.

(** Whether a level's region satisfies [p]; a level out of range does not
    occur below [levels.len()]. *)
Definition region_at c (p : RegionRef → bool) (depth : nat) : bool :=
  match levels c !! depth with Some level => p (level_region level) | None => false end.

Definition is_frame (f : RegionFrame) (r : RegionRef) : bool :=
  match frame r with Some found => names f found | None => false end.

Definition is_try_body (label : TryLabel) (r : RegionRef) : bool :=
  match r with TryBody found => bool_decide (found = label) | _ => false end.

(** Leave the innermost region's op: define its results and step past it. *)
Definition leave c (targets : list Reg) (values : list Value) regs :
    vm (RegionCursor * list Value) :=
  regs ← store regs targets values;
  Ok (advance (pop c), regs).

(** [RegionCursor::resolve_leave]. *)
Definition resolve_leave c root (f : RegionFrame) (resume : bool) (values : list Value)
    regs : vm (RegionCursor * list Value) :=
  depth ← ok_or (Unsupported "vm: a region exit left its function")
            (rfind (region_at c (is_frame f)) (length (levels c)));
  i ← op_of c root depth;
  let c := truncate c (S depth) in
  if negb resume then
    targets ← results i;
    leave c targets values regs
  else
    level ← level_at c depth;
    '(r, args) ←
      match i, level_region level with
      | ILoop _ _ args _ _, Body label => Ok (Body label, args)
      | IMatch _ cases else_args _, Case index =>
          match cases !! S index with
          | Some next => Ok (Case (S index), case_args next)
          | None => Ok (Else, else_args)
          end
      | _, _ => Err lost_position
      end;
    c ← replace c depth r;
    regs ← store regs args values;
    Ok (c, regs).

(** [RegionCursor::try_yield]. *)
Definition try_yield c root (values : list Value) regs : vm (RegionCursor * list Value) :=
  depth ← innermost_depth c;
  i ← op_of c root depth;
  match i with
  | ITry _ results _ _ _ else_args orelse =>
      level ← level_at c depth;
      match level_region level, orelse with
      | TryBody _, Some _ =>
          c ← replace c depth TryElse;
          regs ← store regs else_args values;
          Ok (c, regs)
      | (TryBody _ | TryHandler | TryElse), _ => leave c results values regs
      | _, _ => Err lost_position
      end
  | _ => Err lost_position
  end.

(** [RegionCursor::complete]. *)
Definition complete c root (values : list Value) regs : vm (RegionCursor * list Value) :=
  depth ← innermost_depth c;
  if depth =? 0 then Err lost_position else
  i ← op_of c root depth;
  targets ← results i;
  leave c targets values regs.

(** [RegionCursor::elif]. *)
Definition elif c root (holds : bool) (values : list Value) regs :
    vm (RegionCursor * list Value) :=
  depth ← innermost_depth c;
  level ← level_at c depth;
  match level_region level with
  | ElifCond index =>
      i ← op_of c root depth;
      match i with
      | IIf _ _ _ elifs else_args _ =>
          '(r, args) ←
            (if holds then
               elif ← ok_or lost_position (elifs !! index);
               Ok (ElifThen index, then_args elif)
             else
               match elifs !! S index with
               | Some next => Ok (ElifCond (S index), cond_args next)
               | None => Ok (Else, else_args)
               end);
          c ← replace c depth r;
          regs ← store regs args values;
          Ok (c, regs)
      | _ => Err lost_position
      end
  | _ => Err lost_position
  end.

Definition moved (m : vm (RegionCursor * list Value)) :
    vm (Transfer * RegionCursor * list Value) :=
  '(c, regs) ← m; Ok (Moved, c, regs).

(** The error for a parametric terminator. *)
Definition parametric_instruction (t : MirTerm) : RuntimeError :=
  Unsupported
    ("concrete MIR carries no the region terminator `" +:+ terminator_mnemonic t +:+ "`").

(** [RegionCursor::transfer]. *)
Definition transfer c root (t : MirTerm) regs : vm (Transfer * RegionCursor * list Value) :=
  match t with
  | TYield values =>
      values ← read regs values;
      moved (complete c root values regs)
  | TElifCond cond values =>
      value ← read_reg regs cond;
      values ← read regs values;
      moved (elif c root (is_true value) values regs)
  | TBreak _ values | TContinue _ values | TMatchNext values | TMatchComplete values =>
      '(f, resume) ← ok_or lost_position (region_exit t);
      values ← read regs values;
      moved (resolve_leave c root f resume values regs)
  | TTryYield values =>
      values ← read regs values;
      moved (try_yield c root values regs)
  | TReturn value => Ok (Return_ value, c, regs)
  | TTryRaise label values =>
      values ← read regs values;
      Ok (TryRaise label values, c, regs)
  | TErrorReturn => Ok (ErrorReturn, c, regs)
  | TUnreachable => Err (Unsupported "vm: control reached `hlcf.unreachable`")
  | TComptimeYield _ | TComptimeBreak _ | TComptimeContinue _ =>
      Err (parametric_instruction t)
  end.

Definition raise_encloses_nothing (label : TryLabel) : RuntimeError :=
  Unsupported
    ("vm: a raise named try" +:+ pretty (try_label label) +:+ ", which does not enclose it").

Definition raise_has_no_handler (label : TryLabel) : RuntimeError :=
  Unsupported
    ("vm: a raise named try" +:+ pretty (try_label label) +:+ ", which has no handler").

(** [RegionCursor::catch]. *)
Definition catch c root (label : TryLabel) (values : list Value) regs :
    vm (RegionCursor * list Value) :=
  depth ← ok_or (raise_encloses_nothing label)
            (rfind (region_at c (is_try_body label)) (length (levels c)));
  i ← op_of c root depth;
  match i with
  | ITry _ _ _ handler_args handler _ _ =>
      match handler with
      | None => Err (raise_has_no_handler label)
      | Some _ =>
          c ← replace (truncate c (S depth)) depth TryHandler;
          regs ← store regs handler_args values;
          Ok (c, regs)
      end
  | _ => Err lost_position
  end.

(** ** Driving one frame

    [exec] is what an instruction holding no region does to the registers and
    to the rest of the machine's state, a direct call run to its return
    included; it is the machine's, and a parameter here. *)
Section drive.
Context {Rest : Type}.
Variable exec : MirInstr → list Value → Rest → vm (list Value * Rest).

Record Frame := MkFrame { cursor : RegionCursor; registers : list Value; rest : Rest }.

(** How a frame ends: [return] with the register it names read, or
    [lit.error_return]. *)
Inductive Ending : Type := Returned (value : option Value) | ErrorReturned.

(** One iteration of [drive_frames]: execute the instruction the cursor is
    at, or, past the block's last, transfer its terminator. *)
Definition step root (fr : Frame) : vm (Frame + Ending * list Value * Rest) :=
  b ← cursor_block (cursor fr) root;
  match instrs b !! cursor_instruction (cursor fr) with
  | Some i =>
      entered ← enter (cursor fr) i (registers fr);
      match entered with
      | Some (c, regs) => Ok (inl (MkFrame c regs (rest fr)))
      | None =>
          '(regs, r) ← exec i (registers fr) (rest fr);
          Ok (inl (MkFrame (advance (cursor fr)) regs r))
      end
  | None =>
      '(t, c, regs) ← transfer (cursor fr) root (term b) (registers fr);
      match t with
      | Moved => Ok (inl (MkFrame c regs (rest fr)))
      | Return_ value =>
          match value with
          | Some r =>
              v ← read_reg regs r;
              Ok (inr (Returned (Some v), regs, rest fr))
          | None => Ok (inr (Returned None, regs, rest fr))
          end
      | TryRaise label values =>
          '(c, regs) ← catch c root label values regs;
          Ok (inl (MkFrame c regs (rest fr)))
      | ErrorReturn => Ok (inr (ErrorReturned, regs, rest fr))
      end
  end.

(** [drive_frames] on one frame, with [fuel] iterations. *)
Fixpoint drive (fuel : nat) root (fr : Frame) : vm (Ending * list Value * Rest) :=
  match fuel with
  | 0 => Diverge
  | S fuel =>
      next ← step root fr;
      match next with
      | inl fr => drive fuel root fr
      | inr ending => Ok ending
      end
  end.

End drive.
End regions.
Arguments Frame {_} Rest.
Arguments MkFrame {_ _} cursor registers rest.
Arguments cursor {_ _} f.
Arguments registers {_ _} f.
Arguments rest {_ _} f.
