(* ===== verification/RegionSemantics.v ===== *)
(** * RegionSemantics: a structured reference semantics of region ops

    The meaning the MIR documentation gives the region ops, by recursion on
    their nesting: a region runs to the exit its terminator makes, the op
    holding it takes the exits that name it and passes the others outwards.
    There is no path, no search for an enclosing frame and no truncation
    here; that the region cursor computes the same is [drive_structured]. *)

From S2P Require Import Prelude Mir Regions.

(** How a region ends, its values read. *)
Inductive Exit `{Values} : Type :=
| XYield (values : list Value)
| XElif (holds : bool) (values : list Value)
| XLeave (f : RegionFrame) (resume : bool) (values : list Value)
| XTryYield (values : list Value)
| XRaise (label : TryLabel) (values : list Value)
| XReturn (value : option Value)
| XErrorReturn.

(** What an op does with the exit of one of its regions. *)
Inductive Route `{Values} : Type :=
| Enter (r : RegionRef) (args : list Reg) (values : list Value)
| Leave (targets : list Reg) (values : list Value)
| Pass
| Fail_ (e : RuntimeError).

Section semantics.
Context `{MirTypes, Values}.
Context {Rest : Type}.
Variable exec : MirInstr → list Value → Rest → vm (list Value * Rest).

Definition exit_of (t : MirTerm) (regs : list Value) : vm Exit :=
  match t with
  | TYield values => XYield <$> read regs values
  | TElifCond cond values =>
      value ← read_reg regs cond;
      XElif (is_true value) <$> read regs values
  | TBreak label values => XLeave (FLoop label) false <$> read regs values
  | TContinue label values => XLeave (FLoop label) true <$> read regs values
  | TMatchNext values => XLeave FMatchCase true <$> read regs values
  | TMatchComplete values => XLeave FMatchCase false <$> read regs values
  | TTryYield values => XTryYield <$> read regs values
  | TTryRaise label values => XRaise label <$> read regs values
  | TReturn None => Ok (XReturn None)
  | TReturn (Some r) => value ← read_reg regs r; Ok (XReturn (Some value))
  | TErrorReturn => Ok XErrorReturn
  | TUnreachable => Err (Unsupported "vm: control reached `hlcf.unreachable`")
  | TComptimeYield _ | TComptimeBreak _ | TComptimeContinue _ =>
      Err (parametric_instruction t)
  end.

(** The region an op runs first, its arguments bound. *)
Definition entered (i : MirInstr) (regs : list Value) :
    vm (option (RegionRef * list Value)) :=
  match i with
  | IIf _ cond _ elifs _ _ =>
      value ← read_reg regs cond;
      Ok (Some (if is_true value then Then
                else match elifs with [] => Else | _ => ElifCond 0 end, regs))
  | ILoop label operands args _ _ =>
      values ← read regs operands;
      regs ← store regs args values;
      Ok (Some (Body label, regs))
  | IMatch _ cases _ _ =>
      Ok (Some (match cases with [] => Else | _ => Case 0 end, regs))
  | ITry label _ _ _ _ _ _ => Ok (Some (TryBody label, regs))
  | _ => Ok None
  end.

(** An [if]'s arms yield its results; an [elif] condition selects its arm or
    the next condition; a [match] tries its cases in order; a [loop] repeats
    its body; a [try]'s handler takes the raises of its body. *)
Definition route (i : MirInstr) (r : RegionRef) (e : Exit) : Route :=
  match e with
  | XYield values =>
      match results i with Ok targets => Leave targets values | _ => Fail_ lost_position end
  | XElif holds values =>
      match r, i with
      | ElifCond index, IIf _ _ _ elifs else_args _ =>
          if holds then
            match elifs !! index with
            | Some elif => Enter (ElifThen index) (then_args elif) values
            | None => Fail_ lost_position
            end
          else
            match elifs !! S index with
            | Some next => Enter (ElifCond (S index)) (cond_args next) values
            | None => Enter Else else_args values
            end
      | _, _ => Fail_ lost_position
      end
  | XTryYield values =>
      match i, r with
      | ITry _ results _ _ _ else_args orelse, _ =>
          match r, orelse with
          | TryBody _, Some _ => Enter TryElse else_args values
          | (TryBody _ | TryHandler | TryElse), _ => Leave results values
          | _, _ => Fail_ lost_position
          end
      | _, _ => Fail_ lost_position
      end
  | XLeave f resume values =>
      if negb (is_frame f r) then Pass else
      match i, r with
      | ILoop _ _ args results _, Body label =>
          if resume then Enter (Body label) args values else Leave results values
      | IMatch results cases else_args _, Case index =>
          if resume then
            match cases !! S index with
            | Some next => Enter (Case (S index)) (case_args next) values
            | None => Enter Else else_args values
            end
          else Leave results values
      | _, _ => Fail_ lost_position
      end
  | XRaise label values =>
      if negb (is_try_body label r) then Pass else
      match i with
      | ITry _ _ _ handler_args (Some _) _ _ => Enter TryHandler handler_args values
      | ITry _ _ _ _ None _ _ => Fail_ (raise_has_no_handler label)
      | _ => Fail_ lost_position
      end
  | XReturn _ | XErrorReturn => Pass
  end.

(** [run_instrs] runs the rest of a block to its exit; [run_op] runs an op
    from its region [r] to its completion ([None]) or to the exit it passes
    on. *)
Fixpoint run_instrs (fuel : nat) (is_ : list MirInstr) (t : MirTerm)
    (regs : list Value) (s : Rest) : vm (Exit * list Value * Rest) :=
  match fuel with
  | 0 => Diverge
  | S fuel =>
      match is_ with
      | [] => e ← exit_of t regs; Ok (e, regs, s)
      | i :: is_ =>
          first ← entered i regs;
          match first with
          | None =>
              '(regs, s) ← exec i regs s;
              run_instrs fuel is_ t regs s
          | Some (r, regs) =>
              '(o, regs, s) ← run_op fuel i r regs s;
              match o with
              | None => run_instrs fuel is_ t regs s
              | Some e => Ok (e, regs, s)
              end
          end
      end
  end
with run_op (fuel : nat) (i : MirInstr) (r : RegionRef) (regs : list Value) (s : Rest) :
    vm (option Exit * list Value * Rest) :=
  match fuel with
  | 0 => Diverge
  | S fuel =>
      match region i r with
      | Some (b :: _) =>
          '(e, regs, s) ← run_instrs fuel (instrs b) (term b) regs s;
          match route i r e with
          | Enter r args values =>
              regs ← store regs args values;
              run_op fuel i r regs s
          | Leave targets values =>
              regs ← store regs targets values;
              Ok (None, regs, s)
          | Pass => Ok (Some e, regs, s)
          | Fail_ err => Err err
          end
      | _ => Err lost_position
      end
  end.

(** An exit no op of the function took. *)
Definition finish (e : Exit) (regs : list Value) (s : Rest) :
    vm (Ending * list Value * Rest) :=
  match e with
  | XReturn value => Ok (Returned value, regs, s)
  | XErrorReturn => Ok (ErrorReturned, regs, s)
  | XYield _ | XElif _ _ => Err lost_position
  | XLeave _ _ _ => Err (Unsupported "vm: a region exit left its function")
  | XTryYield _ => Panic
  | XRaise label _ => Err (raise_encloses_nothing label)
  end.

(** The meaning of a function's body. *)
Definition run_function (fuel : nat) (root : list MirBlock) (regs : list Value) (s : Rest) :
    vm (Ending * list Value * Rest) :=
  match root with
  | b :: _ =>
      '(e, regs, s) ← run_instrs fuel (instrs b) (term b) regs s;
      finish e regs s
  | [] => Err lost_position
  end.

(** ** The cursor's transfers, by the exit they carry *)

Definition resolved (m : vm (RegionCursor * list Value)) (s : Rest) :
    vm (Frame Rest + Ending * list Value * Rest) :=
  '(c, regs) ← m; Ok (inl (MkFrame c regs s)).

(** What the driver does once a terminator's values are read. *)
Definition resolve_exit (root : list MirBlock) (c : RegionCursor) (e : Exit)
    (regs : list Value) (s : Rest) : vm (Frame Rest + Ending * list Value * Rest) :=
  match e with
  | XYield values => resolved (complete c root values regs) s
  | XElif holds values => resolved (elif c root holds values regs) s
  | XLeave f resume values => resolved (resolve_leave c root f resume values regs) s
  | XTryYield values => resolved (try_yield c root values regs) s
  | XRaise label values => resolved (catch c root label values regs) s
  | XReturn value => Ok (inr (Returned value, regs, s))
  | XErrorReturn => Ok (inr (ErrorReturned, regs, s))
  end.

Lemma step_terminator root c regs s b :
  cursor_block c root = Ok b → instrs b !! cursor_instruction c = None →
  step exec root (MkFrame c regs s) =
    exit_of (term b) regs ≫= λ e, resolve_exit root c e regs s.
Proof.
  intros Hb Hi. unfold step. simpl. rewrite Hb. simpl. rewrite Hi.
  destruct (term b) as [[r|]| | | | | | | | | | | | |] eqn:Ht; simpl; try done.
  all: try (destruct (read_reg regs _) eqn:Hr; simpl; try done).
  all: destruct (read regs _) eqn:Hv; simpl; try done.
  all: try match goal with |- context [moved ?m] => destruct m as [[??]| | |] end; done.
Qed.

(** ** Paths *)

Lemma list_from_snoc bs P l l' i bs1 :
  list_from bs (P ++ [l]) = Ok bs1 → op_at bs1 l = Ok i →
  list_from bs (P ++ [l; l']) = ok_or lost_position (region i (level_region l')).
Proof.
  revert bs. induction P as [|p P IH]; intros bs; simpl.
  { intros [= ->] ->. simpl. by destruct (region _ _). }
  intros H1 H2. destruct P as [|q P]; simpl in *.
  - bind_inv H1. bind_inv H1. simplify_eq. rewrite Hm. simpl. rewrite Hm0. simpl.
    rewrite H2. simpl. by destruct (region i _).
  - bind_inv H1. bind_inv H1. rewrite Hm. simpl. rewrite Hm0. simpl. by apply IH.
Qed.

Lemma list_from_same bs P l l' :
  level_region l = level_region l' → list_from bs (P ++ [l]) = list_from bs (P ++ [l']).
Proof.
  intros Hl. revert bs. induction P as [|p P IH]; intros bs; simpl; [done|].
  destruct P as [|q P]; simpl in *.
  - by rewrite Hl.
  - destruct (op_at bs p); simpl; try done.
    destruct (region _ _); simpl; [|done]. apply IH.
Qed.

(** Only the levels up to [depth] matter to [op_of] at [depth]. *)
Lemma list_at_take root ls ext depth :
  depth < length ls → list_at (MkCursor (ls ++ ext)) root depth = list_from root (take (S depth) ls).
Proof.
  intros Hd. unfold list_at. simpl. rewrite length_app.
  destruct (Nat.ltb_spec depth (length ls + length ext)); [|lia].
  by rewrite take_app_le by lia.
Qed.

Lemma op_of_prefix root ls ext depth :
  depth < length ls → op_of (MkCursor (ls ++ ext)) root depth = op_of (MkCursor ls) root depth.
Proof.
  intros Hd. destruct depth as [|d]; [done|]. unfold op_of, level_at. simpl.
  rewrite list_at_take, lookup_app_l by lia. unfold list_at. simpl.
  by destruct (Nat.ltb_spec d (length ls)); [|lia].
Qed.

Lemma op_of_inner root P l lr bs i :
  list_from root (P ++ [l]) = Ok bs → op_at bs l = Ok i →
  op_of (MkCursor (P ++ [l; lr])) root (S (length P)) = Ok i.
Proof.
  intros Hl Hi. unfold op_of, level_at. simpl.
  change (P ++ [l; lr]) with (P ++ [l] ++ [lr]). rewrite app_assoc.
  rewrite list_at_take by (rewrite length_app; simpl; lia).
  rewrite take_ge by (rewrite length_app; simpl; lia).
  rewrite Hl. simpl. rewrite lookup_app_l by (rewrite length_app; simpl; lia).
  rewrite list_lookup_middle by done. done.
Qed.

Lemma rfind_ext p q len : (∀ d, d < len → p d = q d) → rfind p len = rfind q len.
Proof.
  induction len as [|[|len] IH]; intros Hpq; simpl; [done..|].
  rewrite (Hpq (S len)) by lia. destruct (q (S len)); [done|].
  apply IH. intros d Hd. apply Hpq. lia.
Qed.

Lemma rfind_lt p len d : rfind p len = Some d → 1 ≤ d < len ∧ p d = true.
Proof.
  induction len as [|[|len] IH]; simpl; [done..|].
  destruct (p (S len)) eqn:Hp.
  - intros [= <-]. split; [lia|done].
  - intros Hd. apply IH in Hd as [? ?]. split; [lia|done].
Qed.

Lemma region_at_prefix p ls ext d :
  d < length ls → region_at (MkCursor (ls ++ ext)) p d = region_at (MkCursor ls) p d.
Proof. intros Hd. unfold region_at. simpl. by rewrite lookup_app_l by lia. Qed.

Lemma rfind_S p n : 0 < n → rfind p (S n) = if p n then Some n else rfind p n.
Proof. by destruct n; [lia|]. Qed.

(** The search from a path with one more region: it stops there, or goes on
    outside. *)
Lemma rfind_snoc p P l lr :
  rfind (region_at (MkCursor (P ++ [l; lr])) p) (length (P ++ [l; lr])) =
    if p (level_region lr) then Some (S (length P))
    else rfind (region_at (MkCursor (P ++ [l])) p) (length (P ++ [l])).
Proof.
  assert (length (P ++ [l; lr]) = S (length (P ++ [l]))) as ->
    by (rewrite !length_app; simpl; lia).
  rewrite rfind_S by (rewrite length_app; simpl; lia).
  assert (length (P ++ [l]) = S (length P)) as Hlen by (rewrite length_app; simpl; lia).
  unfold region_at at 1. simpl.
  change (P ++ [l; lr]) with (P ++ [l] ++ [lr]). rewrite app_assoc, list_lookup_middle by done.
  rewrite Hlen. destruct (p _); [done|]. apply rfind_ext. intros d Hd.
  apply region_at_prefix. lia.
Qed.

(** ** Where the cursor is inside an op *)

#[local] Arguments op_of : simpl never.
#[local] Arguments level_at : simpl never.
#[local] Arguments replace : simpl never.
#[local] Arguments leave : simpl never.
#[local] Arguments innermost_depth : simpl never.

Section inside.
Variables (root : list MirBlock) (P : list RegionLevel) (l lr : RegionLevel).
Variables (bs : list MirBlock) (i : MirInstr).
Hypothesis Hlist : list_from root (P ++ [l]) = Ok bs.
Hypothesis Hop : op_at bs l = Ok i.
Hypothesis Hregion : is_Some (region i (level_region lr)).
#[local] Set Default Proof Using "Hlist Hop Hregion".

(** The cursor inside a region of the op at [l], and at that op. *)
Definition deep : RegionCursor := MkCursor (P ++ [l; lr]).
Definition outer : RegionCursor := MkCursor (P ++ [l]).
#[local] Arguments deep : simpl never.
#[local] Arguments outer : simpl never.

Lemma inside_levels : levels deep = (P ++ [l]) ++ [lr].
Proof using. unfold deep. simpl. by rewrite <- app_assoc. Qed.

Lemma inside_search p :
  rfind (region_at deep p) (length (levels deep)) =
    if p (level_region lr) then Some (S (length P))
    else rfind (region_at outer p) (length (levels outer)).
Proof using. apply rfind_snoc. Qed.

Lemma inside_depth : innermost_depth deep = Ok (S (length P)).
Proof using.
  unfold innermost_depth. rewrite inside_levels, !length_app. simpl.
  by rewrite Nat.add_1_r, Nat.add_1_r.
Qed.

Lemma inside_level : level_at deep (S (length P)) = Ok lr.
Proof using.
  unfold level_at. rewrite inside_levels, list_lookup_middle; [done|].
  rewrite length_app. simpl. lia.
Qed.

Lemma inside_op : op_of deep root (S (length P)) = Ok i.
Proof using Hlist Hop. by eapply op_of_inner. Qed.

Lemma inside_truncate : truncate deep (S (S (length P))) = deep.
Proof using.
  unfold truncate, deep. simpl. f_equal. apply take_ge. rewrite length_app. simpl. lia.
Qed.

Lemma inside_replace r : replace deep (S (length P)) r = Ok (MkCursor (P ++ [l; entry r])).
Proof using.
  unfold replace. rewrite inside_levels, set_at_lt by (rewrite !length_app; simpl; lia).
  simpl. rewrite insert_app_r_alt by (rewrite length_app; simpl; lia).
  rewrite length_app. simpl. rewrite Nat.add_1_r, Nat.sub_diag. simpl.
  by rewrite <- app_assoc.
Qed.

Lemma inside_leave targets values regs :
  leave deep targets values regs =
    store regs targets values ≫= λ regs, Ok (MkCursor (P ++ [advance_level l]), regs).
Proof using.
  unfold leave, advance, pop. rewrite inside_levels, removelast_last. simpl.
  by rewrite last_snoc, removelast_last.
Qed.

(** A frame named outside the innermost region resolves as from its op. *)
Lemma inside_resolve_outside f resume values regs :
  is_frame f (level_region lr) = false →
  resolve_leave deep root f resume values regs = resolve_leave outer root f resume values regs.
Proof using.
  intros Hf. unfold resolve_leave. unfold deep, outer. simpl.
  rewrite rfind_snoc, Hf.
  destruct (rfind _ _) as [d|] eqn:Hd; simpl; [|done]. apply rfind_lt in Hd as [Hd _].
  change (P ++ [l; lr]) with (P ++ [l] ++ [lr]). rewrite app_assoc.
  rewrite op_of_prefix by lia. unfold truncate. simpl. by rewrite take_app_le by lia.
Qed.

Lemma inside_catch_outside label values regs :
  is_try_body label (level_region lr) = false →
  catch deep root label values regs = catch outer root label values regs.
Proof using.
  intros Hf. unfold catch. unfold deep, outer. simpl.
  rewrite rfind_snoc, Hf.
  destruct (rfind _ _) as [d|] eqn:Hd; simpl; [|done]. apply rfind_lt in Hd as [Hd _].
  change (P ++ [l; lr]) with (P ++ [l] ++ [lr]). rewrite app_assoc.
  rewrite op_of_prefix by lia. unfold truncate. simpl. by rewrite take_app_le by lia.
Qed.

(** What the route of the innermost op makes of an exit. *)
Definition routed (ro : Route) (e : Exit) (regs : list Value) (s : Rest) :
    vm (Frame Rest + Ending * list Value * Rest) :=
  match ro with
  | Enter r args values =>
      regs ← store regs args values;
      Ok (inl (MkFrame (MkCursor (P ++ [l; entry r])) regs s))
  | Leave targets values =>
      regs ← store regs targets values;
      Ok (inl (MkFrame (MkCursor (P ++ [advance_level l])) regs s))
  | Pass => resolve_exit root outer e regs s
  | Fail_ err => Err err
  end.

Lemma resolve_leave_routed f resume values regs s :
  resolved (resolve_leave deep root f resume values regs) s =
    routed (route i (level_region lr) (XLeave f resume values))
      (XLeave f resume values) regs s.
Proof.
  simpl. destruct (is_frame f (level_region lr)) eqn:Hf; simpl.
  2: { by rewrite inside_resolve_outside. }
  unfold resolve_leave. rewrite inside_search, Hf. cbn [mbind outcome_bind ok_or].
  rewrite inside_op. cbn [mbind outcome_bind]. rewrite inside_truncate.
  destruct Hregion as [bs' Hb].
  destruct i as [| |? ? ? rs| | | |rs cs| ], (level_region lr) eqn:Hr; simpl in *;
    try discriminate; destruct resume; simpl; rewrite ?inside_leave, ?inside_level; simpl;
    rewrite ?Hr; simpl; try (destruct (store _ _ _); done).
  - rewrite inside_replace. simpl. by destruct (store _ _ _).
  - destruct (cs !! S index) as [next|]; simpl; rewrite inside_replace; simpl;
      by destruct (store _ _ _).
Qed.

Lemma catch_routed label values regs s :
  resolved (catch deep root label values regs) s =
    routed (route i (level_region lr) (XRaise label values)) (XRaise label values) regs s.
Proof.
  simpl. destruct (is_try_body label (level_region lr)) eqn:Hf; simpl.
  2: { by rewrite inside_catch_outside. }
  unfold catch. rewrite inside_search, Hf. cbn [mbind outcome_bind ok_or].
  rewrite inside_op. cbn [mbind outcome_bind]. rewrite inside_truncate.
  destruct i as [? ? ? ? [h|]| | | | | | |]; simpl; try done.
  rewrite inside_replace. simpl. by destruct (store _ _ _).
Qed.

Lemma try_yield_routed values regs s :
  resolved (try_yield deep root values regs) s =
    routed (route i (level_region lr) (XTryYield values)) (XTryYield values) regs s.
Proof.
  unfold try_yield. rewrite inside_depth. simpl. rewrite inside_op. simpl.
  destruct i as [? ? ? ? ? ? o| | | | | | |]; simpl; try done.
  rewrite inside_level. simpl.
  destruct (level_region lr); simpl; try done; destruct o; simpl;
    rewrite ?inside_replace, ?inside_leave; simpl; by destruct (store _ _ _).
Qed.

Lemma complete_routed values regs s :
  resolved (complete deep root values regs) s =
    routed (route i (level_region lr) (XYield values)) (XYield values) regs s.
Proof.
  unfold complete. rewrite inside_depth. simpl. rewrite inside_op. simpl.
  destruct i; simpl; rewrite ?inside_leave; simpl; try done; by destruct (store _ _ _).
Qed.

Lemma elif_routed holds values regs s :
  resolved (elif deep root holds values regs) s =
    routed (route i (level_region lr) (XElif holds values)) (XElif holds values) regs s.
Proof.
  unfold elif. rewrite inside_depth. simpl. rewrite inside_level. simpl.
  destruct (level_region lr); simpl; try done.
  rewrite inside_op. simpl. destruct i as [|? ? ? es| | | | | |]; simpl; try done.
  destruct holds; [destruct (es !! index)|destruct (es !! S index)]; simpl; try done;
    rewrite inside_replace; simpl; by destruct (store _ _ _).
Qed.

Lemma resolve_exit_routed e regs s :
  resolve_exit root deep e regs s = routed (route i (level_region lr) e) e regs s.
Proof.
  destruct e; simpl.
  - apply complete_routed.
  - apply elif_routed.
  - apply resolve_leave_routed.
  - apply try_yield_routed.
  - apply catch_routed.
  - done.
  - done.
Qed.

End inside.

(** At the function's own level every exit ends the frame or the run. *)
Lemma resolve_exit_root root l e regs s :
  level_region l = Root →
  resolve_exit root (MkCursor [l]) e regs s = inr <$> finish e regs s.
Proof.
  intros Hl. destruct e; simpl; try done.
  - unfold elif. simpl. by rewrite Hl.
Qed.

(** ** Simulation *)

Lemma drive_mono root fr n m :
  drive exec n root fr ≠ Diverge → drive exec (n + m) root fr = drive exec n root fr.
Proof.
  revert fr. induction n as [|n IH]; intros fr; simpl; [done|].
  destruct (step exec root fr) as [[fr'|?]| | |]; simpl; try done. apply IH.
Qed.

Lemma drive_le root fr n m :
  n ≤ m → drive exec m root fr = Diverge → drive exec n root fr = Diverge.
Proof.
  intros Hle Hm. destruct (drive exec n root fr) eqn:Hn; [| | |done];
    exfalso; pose proof (drive_mono root fr n (m - n)) as Hmono;
    rewrite Hn in Hmono; specialize (Hmono ltac:(done));
    replace (n + (m - n)) with m in Hmono by lia; congruence.
Qed.

Lemma drive_deterministic root fr n m :
  drive exec n root fr ≠ Diverge → drive exec m root fr ≠ Diverge →
  drive exec n root fr = drive exec m root fr.
Proof.
  intros Hn Hm. rewrite <- (drive_mono _ _ n m Hn), <- (drive_mono _ _ m n Hm).
  by rewrite Nat.add_comm.
Qed.

Section simulation.
Variable root : list MirBlock.
#[local] Set Default Proof Using "Type".

(** Go on from what a step made of a frame. *)
Definition continue (m : nat) (act : vm (Frame Rest + Ending * list Value * Rest)) :
    vm (Ending * list Value * Rest) :=
  next ← act;
  match next with inl fr => drive exec m root fr | inr ending => Ok ending end.

Lemma drive_S m fr : drive exec (S m) root fr = continue m (step exec root fr).
Proof. done. Qed.

Definition reaches (fr fr' : Frame Rest) : Prop :=
  ∃ k, ∀ m, drive exec (S k + m) root fr = drive exec m root fr'.

Definition acts (fr : Frame Rest) (act : vm (Frame Rest + Ending * list Value * Rest)) :
    Prop :=
  ∃ k, ∀ m, drive exec (k + S m) root fr = continue m act.

(** The frame stops as [r] does when [r] is no value, and outlasts every
    [n] in [bound] when [r] ran out of fuel. *)
Definition leads {A} (bound : nat → Prop) (fr : Frame Rest) (r : vm A) (K : A → Prop) : Prop :=
  match r with
  | Ok a => K a
  | Err x => ∃ k, ∀ m, drive exec (k + m) root fr = Err x
  | Panic => ∃ k, ∀ m, drive exec (k + m) root fr = Panic
  | Diverge => ∀ n, bound n → drive exec n root fr = Diverge
  end.

Lemma acts_step fr act : step exec root fr = act → acts fr act.
Proof. intros <-. by exists 0. Qed.

Lemma reaches_step fr fr' : step exec root fr = Ok (inl fr') → reaches fr fr'.
Proof. intros Hs. exists 0. intros m. simpl. by rewrite Hs. Qed.

Lemma reaches_acts fr fr' act : reaches fr fr' → acts fr' act → acts fr act.
Proof.
  intros [k Hk] [k' Hk']. exists (S k + k'). intros m.
  by rewrite <- Nat.add_assoc, Hk, Hk'.
Qed.

Lemma reaches_trans fr1 fr2 fr3 : reaches fr1 fr2 → reaches fr2 fr3 → reaches fr1 fr3.
Proof.
  intros [k Hk] [k' Hk']. exists (k + S k'). intros m.
  change (S (k + S k')) with (S k + S k'). by rewrite <- Nat.add_assoc, Hk, Hk'.
Qed.

Lemma acts_reaches fr fr' : acts fr (Ok (inl fr')) → reaches fr fr'.
Proof.
  intros [k Hk]. exists k. intros m. replace (S k + m) with (k + S m) by lia. apply Hk.
Qed.

Lemma leads_bind {A B} bound fr (r : vm A) (f : A → vm B) K K' :
  leads bound fr r K' → (∀ a, K' a → leads bound fr (f a) K) →
  leads bound fr (r ≫= f) K.
Proof. destruct r; simpl; auto. Qed.

Lemma leads_reaches {A} (bound bound' : nat → Prop) fr fr' (r : vm A) (K K' : A → Prop) :
  reaches fr fr' → leads bound' fr' r K' →
  (∀ n, bound (S n) → bound' n) → (∀ a, K' a → K a) →
  leads bound fr r K.
Proof.
  intros [k Hk] Hl Hb HK. destruct r; simpl in Hl |- *; auto.
  - destruct Hl as [k' Hk']. exists (S k + k'). intros m.
    rewrite <- Nat.add_assoc, Hk. apply Hk'.
  - destruct Hl as [k' Hk']. exists (S k + k'). intros m.
    rewrite <- Nat.add_assoc, Hk. apply Hk'.
  - intros [|n] Hn; [done|]. apply (drive_le _ _ _ (S k + n)); [lia|].
    rewrite Hk. auto.
Qed.

(** Whatever a step makes of a frame that is no frame, the frame leads
    there. *)
Lemma acts_leads {A B} bound fr (r : vm A)
    (g : A → vm (Frame Rest + Ending * list Value * Rest)) (f : A → vm B) K' :
  acts fr (r ≫= g) → r ≠ Diverge →
  (∀ a, r = Ok a → leads bound fr (f a) K') →
  leads bound fr (r ≫= f) K'.
Proof.
  intros [k Hk] Hr Hf. destruct r; simpl in *; auto; [| |done];
    exists (k + 1); intros m; rewrite <- Nat.add_assoc; apply Hk.
Qed.

Lemma step_leads {A B} bound fr (r : vm A)
    (g : A → vm (Frame Rest + Ending * list Value * Rest)) (f : A → vm B) K :
  step exec root fr = r ≫= g →
  (∀ a, r = Ok a → leads bound fr (f a) K) →
  leads bound fr (r ≫= f) K.
Proof.
  intros Hs Hf. destruct r; simpl in *; auto.
  - exists 1. intros m. simpl. by rewrite Hs.
  - exists 1. intros m. simpl. by rewrite Hs.
  - intros [|n] _; [done|]. simpl. by rewrite Hs.
Qed.

(** The cursor is at the instruction after [done] of the block [b]. *)
Definition located (P : list RegionLevel) (l : RegionLevel) (b : MirBlock)
    (done_ is_ : list MirInstr) : Prop :=
  ∃ bs, list_from root (P ++ [l]) = Ok bs ∧ bs !! block l = Some b ∧
    instrs b = done_ ++ is_ ∧ instruction l = length done_.

Lemma located_block P l b d is_ :
  located P l b d is_ → cursor_block (MkCursor (P ++ [l])) root = Ok b.
Proof.
  intros (bs & Hl & Hb & _). unfold cursor_block, innermost_depth, level_at. simpl.
  rewrite length_app. simpl. rewrite Nat.add_1_r. simpl.
  unfold list_at. simpl. rewrite length_app. simpl.
  destruct (Nat.ltb_spec (length P) (length P + 1)); [|lia].
  rewrite take_ge by (rewrite length_app; simpl; lia). rewrite Hl. simpl.
  rewrite list_lookup_middle by done. simpl. by rewrite Hb.
Qed.

Lemma located_instruction P l b d is_ :
  located P l b d is_ →
  instrs b !! cursor_instruction (MkCursor (P ++ [l])) = head is_.
Proof.
  intros (bs & _ & _ & Hi & Hn). unfold cursor_instruction. simpl.
  rewrite last_snoc, Hi, Hn, lookup_app_r by lia. rewrite Nat.sub_diag. by destruct is_.
Qed.

Lemma located_op P l b d i is_ :
  located P l b d (i :: is_) →
  ∃ bs, list_from root (P ++ [l]) = Ok bs ∧ op_at bs l = Ok i.
Proof.
  intros (bs & Hl & Hb & Hi & Hn). exists bs. split; [done|].
  unfold op_at. rewrite Hb. simpl. rewrite Hi, Hn, list_lookup_middle; done.
Qed.

Lemma located_advance P l b d i is_ :
  located P l b d (i :: is_) → located P (advance_level l) b (d ++ [i]) is_.
Proof.
  intros (bs & Hl & Hb & Hi & Hn). exists bs. split_and!; simpl; [|done| |].
  - by rewrite <- Hl; apply list_from_same.
  - by rewrite Hi, <- app_assoc.
  - rewrite length_app. simpl. lia.
Qed.

Lemma advance_snoc P l : advance (MkCursor (P ++ [l])) = MkCursor (P ++ [advance_level l]).
Proof. unfold advance. simpl. by rewrite last_snoc, removelast_last. Qed.

(** Entering an op is choosing its first region. *)
Lemma enter_entered c i regs :
  enter c i regs =
    first ← entered i regs;
    Ok (match first with Some (r, regs) => Some (push c r, regs) | None => None end).
Proof.
  destruct i; simpl; try done.
  - by destruct (read_reg regs _).
  - destruct (read regs _); simpl; try done. by destruct (store _ _ _).
Qed.

Lemma step_instruction P l b d i is_ regs s :
  located P l b d (i :: is_) →
  step exec root (MkFrame (MkCursor (P ++ [l])) regs s) =
    entered i regs ≫= λ first,
      match first with
      | Some (r, regs) => Ok (inl (MkFrame (MkCursor (P ++ [l; entry r])) regs s))
      | None =>
          '(regs, s) ← exec i regs s;
          Ok (inl (MkFrame (MkCursor (P ++ [advance_level l])) regs s))
      end.
Proof.
  intros Hl. unfold step. simpl.
  rewrite (located_block _ _ _ _ _ Hl). simpl. rewrite (located_instruction _ _ _ _ _ Hl).
  simpl. rewrite enter_entered. destruct (entered i regs) as [[[r regs']|]| | |]; simpl; try done.
  - unfold push. simpl. by rewrite <- app_assoc.
  - rewrite advance_snoc. done.
Qed.

Lemma step_exit P l b d regs s :
  located P l b d [] →
  step exec root (MkFrame (MkCursor (P ++ [l])) regs s) =
    exit_of (term b) regs ≫= λ e, resolve_exit root (MkCursor (P ++ [l])) e regs s.
Proof.
  intros Hl. apply step_terminator; [by eapply located_block|].
  by rewrite (located_instruction _ _ _ _ _ Hl).
Qed.

Lemma store_no_diverge (regs : list Value) targets values :
  store regs targets values ≠ Diverge.
Proof.
  revert regs values. induction targets as [|t ts IH]; intros regs [|v vs]; simpl; try done.
  unfold set_at. case_match; simpl; [apply IH|done].
Qed.

Lemma leads_bound {A} (bound bound' : nat → Prop) fr (r : vm A) K :
  leads bound' fr r K → (∀ n, bound n → bound' n) → leads bound fr r K.
Proof. destruct r; simpl; auto. Qed.

(** What [run_instrs] makes of the rest of a block, the cursor does. *)
Definition simulates_instrs (fuel : nat) : Prop :=
  ∀ P l b d is_ regs s, located P l b d is_ →
  let fr := MkFrame (MkCursor (P ++ [l])) regs s in
  leads (λ n, 2 * n ≤ fuel) fr (run_instrs fuel is_ (term b) regs s)
    (λ x, ∃ l', level_region l' = level_region l ∧
            acts fr (resolve_exit root (MkCursor (P ++ [l'])) x.1.1 x.1.2 x.2)).

Definition op_result (P : list RegionLevel) (l : RegionLevel) (fr : Frame Rest)
    (x : option Exit * list Value * Rest) : Prop :=
  match x.1.1 with
  | None => reaches fr (MkFrame (MkCursor (P ++ [advance_level l])) x.1.2 x.2)
  | Some e => acts fr (resolve_exit root (MkCursor (P ++ [l])) e x.1.2 x.2)
  end.

Definition simulates_op (fuel : nat) : Prop :=
  ∀ P l b d i is_ r regs s, located P l b d (i :: is_) →
  let fr := MkFrame (MkCursor (P ++ [l; entry r])) regs s in
  leads (λ n, 2 * n + 1 ≤ fuel) fr (run_op fuel i r regs s) (op_result P l fr).

Lemma op_result_reaches P l fr fr' x :
  reaches fr fr' → op_result P l fr' x → op_result P l fr x.
Proof.
  destruct x as [[[e|] regs'] s']; unfold op_result; simpl.
  - apply reaches_acts.
  - apply reaches_trans.
Qed.

Lemma simulates_instrs_S fuel :
  simulates_instrs fuel → simulates_op fuel → simulates_instrs (S fuel).
Proof.
  intros IHi IHo P l b d is_ regs s Hl fr. destruct is_ as [|i is_]; simpl.
  { eapply step_leads; [by apply (step_exit _ _ _ _ regs s Hl)|].
    intros e He. simpl. exists l. split; [done|]. apply acts_step.
    unfold fr. by rewrite (step_exit _ _ _ _ regs s Hl), He. }
  pose proof (step_instruction _ _ _ _ _ _ regs s Hl) as Hstep. fold fr in Hstep.
  eapply step_leads; [exact Hstep|]. intros [[r regs1]|] Hent; rewrite Hent in Hstep;
    cbn [mbind outcome_bind] in Hstep.
  - apply reaches_step in Hstep.
    eapply leads_bind.
    { eapply leads_reaches; [exact Hstep|exact (IHo _ _ _ _ _ _ r regs1 s Hl)|simpl; lia|].
      intros x. by apply op_result_reaches. }
    intros [[[e|] regs2] s2]; unfold op_result; simpl.
    + intros Ha. by exists l.
    + intros Hr.
      eapply leads_reaches; [exact Hr|exact (IHi _ _ _ _ _ _ _ (located_advance _ _ _ _ _ _ Hl))
        |simpl; lia|].
      intros x (l' & Hl' & Ha). exists l'. split; [done|]. by eapply reaches_acts.
  - eapply step_leads; [exact Hstep|]. intros [regs1 s1] Hex. rewrite Hex in Hstep.
    cbn [mbind outcome_bind] in Hstep. apply reaches_step in Hstep.
    eapply leads_reaches; [exact Hstep|exact (IHi _ _ _ _ _ _ _ (located_advance _ _ _ _ _ _ Hl))
      |simpl; lia|].
    intros x (l' & Hl' & Ha). exists l'. split; [done|]. by eapply reaches_acts.
Qed.

Lemma located_region P l b d i is_ r b' rest_ :
  located P l b d (i :: is_) → region i r = Some (b' :: rest_) →
  located (P ++ [l]) (entry r) b' [] (instrs b').
Proof.
  intros Hl Hr. apply located_op in Hl as (bs & Hl & Hop). exists (b' :: rest_).
  split_and!; [|done..]. rewrite <- app_assoc. simpl.
  by rewrite (list_from_snoc _ _ _ _ _ _ Hl Hop); simpl; rewrite Hr.
Qed.

Lemma lost_region P l b d i is_ r regs s :
  located P l b d (i :: is_) → (region i r = None ∨ region i r = Some []) →
  step exec root (MkFrame (MkCursor (P ++ [l; entry r])) regs s) = Err lost_position.
Proof.
  intros Hl Hr. apply located_op in Hl as (bs & Hl & Hop).
  unfold step, cursor_block, innermost_depth, level_at. simpl.
  change (P ++ [l; entry r]) with (P ++ [l] ++ [entry r]). rewrite app_assoc.
  rewrite !length_app. simpl. rewrite !Nat.add_1_r. simpl.
  unfold list_at. simpl. rewrite !length_app. simpl.
  destruct (Nat.ltb_spec (S (length P)) (length P + 1 + 1)); [|lia].
  rewrite take_ge by (rewrite !length_app; simpl; lia).
  rewrite <- app_assoc. simpl. rewrite (list_from_snoc _ _ _ _ _ _ Hl Hop). simpl.
  destruct Hr as [-> | ->]; simpl; [done|].
  change (P ++ [l; entry r]) with (P ++ [l] ++ [entry r]). rewrite app_assoc.
  rewrite list_lookup_middle by (rewrite length_app; simpl; lia). done.
Qed.

Lemma acts_fail {A} bound fr err (K : A → Prop) :
  acts fr (Err err) → leads bound fr (Err err) K.
Proof. intros [k Hk]. exists (k + 1). intros m. rewrite <- Nat.add_assoc. apply Hk. Qed.

Lemma simulates_op_S fuel :
  simulates_instrs fuel → simulates_op fuel → simulates_op (S fuel).
Proof.
  intros IHi IHo P l b d i is_ r regs s Hl fr. simpl.
  destruct (region i r) as [[|b' rest_]|] eqn:Hr.
  1,3: exists 1; intros m; simpl; unfold fr; rewrite (lost_region _ _ _ _ _ _ _ _ _ Hl); auto.
  pose proof (IHi _ _ _ _ _ regs s (located_region _ _ _ _ _ _ _ _ _ Hl Hr)) as IH.
  rewrite <- app_assoc in IH. fold fr in IH.
  eapply leads_bind; [eapply leads_bound; [exact IH|simpl; lia]|].
  intros [[e regs1] s1] (l' & Hreg & Ha). simpl in Hreg, Ha. rewrite <- app_assoc in Ha.
  simpl in Ha. apply located_op in Hl as Hop. destruct Hop as (bs & Hlist & Hop).
  change (MkCursor (P ++ [l; l'])) with (deep P l l') in Ha.
  rewrite (resolve_exit_routed _ _ _ _ _ _ Hlist Hop) in Ha by (rewrite Hreg; eauto).
  rewrite Hreg in Ha. destruct (route i r e) as [r' args values|targets values| |err];
    simpl in Ha.
  - eapply acts_leads; [exact Ha|apply store_no_diverge|]. intros regs2 Hs.
    rewrite Hs in Ha. apply acts_reaches in Ha.
    eapply leads_reaches; [exact Ha|by eapply IHo|simpl; lia|].
    intros x. by apply op_result_reaches.
  - eapply acts_leads; [exact Ha|apply store_no_diverge|]. intros regs2 Hs.
    rewrite Hs in Ha. by apply acts_reaches in Ha.
  - done.
  - by apply acts_fail.
Qed.

Lemma simulates fuel : simulates_instrs fuel ∧ simulates_op fuel.
Proof.
  induction fuel as [|fuel [IHi IHo]].
  - split.
    + intros P l b d is_ regs s Hl fr n Hn. by assert (n = 0) as -> by lia.
    + intros P l b d i is_ r regs s Hl fr n Hn. lia.
  - split; [by apply simulates_instrs_S|by apply simulates_op_S].
Qed.

Lemma diverges_dec {E A} (r : outcome E A) : {r = Diverge} + {r ≠ Diverge}.
Proof. destruct r; auto. Qed.

Lemma leads_function fuel regs s :
  let fr := MkFrame cursor_default regs s in
  leads (λ n, 2 * n ≤ fuel) fr (run_function fuel root regs s)
    (λ x, ∃ k, ∀ m, drive exec (k + S m) root fr = Ok x).
Proof.
  intros fr.
  assert (root = [] ∨ ∃ b bs, root = b :: bs) as [Hroot|(b & bs & Hroot)]
    by (destruct root; eauto).
  { assert (step exec root fr = Err lost_position) as Hs by (by rewrite Hroot).
    assert (run_function fuel root regs s = Err lost_position) as -> by (by rewrite Hroot).
    exists 1. intros m. by rewrite drive_S, Hs. }
  assert (located [] (entry Root) b [] (instrs b)) as Hl.
  { exists root. by rewrite Hroot. }
  assert (run_function fuel root regs s =
          run_instrs fuel (instrs b) (term b) regs s ≫= λ x, finish x.1.1 x.1.2 x.2) as ->.
  { rewrite Hroot. simpl. by destruct (run_instrs _ _ _ _ _) as [[[??]?]| | |]. }
  destruct (simulates fuel) as [Hsim _]. specialize (Hsim _ _ _ _ _ regs s Hl).
  eapply leads_bind; [exact Hsim|]. intros [[e regs1] s1] (l' & Hl' & Ha). simpl in Ha.
  rewrite (resolve_exit_root root) in Ha by done. destruct Ha as [k Hk]. unfold continue in Hk.
  cbn [fst snd].
  destruct (finish e regs1 s1) eqn:Hf; simpl in Hk |- *.
  - by exists k.
  - exists (k + 1). intros m. by rewrite <- Nat.add_assoc.
  - exists (k + 1). intros m. by rewrite <- Nat.add_assoc.
  - intros n _. apply (drive_le _ _ _ (k + S n)); [lia|]. apply Hk.
Qed.

Lemma run_drive fuel regs s :
  run_function fuel root regs s ≠ Diverge →
  ∃ n, drive exec n root (MkFrame cursor_default regs s) = run_function fuel root regs s.
Proof.
  intros Hr. pose proof (leads_function fuel regs s) as Hl. simpl in Hl.
  destruct (run_function fuel root regs s) as [x|x| |]; simpl in Hl; [| | |done].
  - destruct Hl as [k Hk]. exists (k + 1). apply Hk.
  - destruct Hl as [k Hk]. exists (k + 0). apply Hk.
  - destruct Hl as [k Hk]. exists (k + 0). apply Hk.
Qed.

Lemma drive_run n regs s :
  drive exec n root (MkFrame cursor_default regs s) ≠ Diverge →
  run_function (2 * n) root regs s = drive exec n root (MkFrame cursor_default regs s).
Proof.
  intros Hd. destruct (diverges_dec (run_function (2 * n) root regs s)) as [Hr|Hr].
  - exfalso. pose proof (leads_function (2 * n) regs s) as Hl. simpl in Hl.
    simpl in Hr. rewrite Hr in Hl. apply Hd, Hl. lia.
  - destruct (run_drive (2 * n) regs s Hr) as [m Hm]. rewrite <- Hm.
    apply drive_deterministic; [congruence|done].
Qed.

End simulation.

(** C1: the region cursor implements the structured meaning of the region
    ops.  Driving a frame from the start of a function's body ends in a
    result (a return, an error return, an error or a panic) exactly when the
    recursive semantics of its [if]s, loops, matches and [try]s does, and the
    results (the registers and the rest of the machine's state included) are
    the same; so one does not terminate exactly when the other does not. *)
Theorem drive_structured root regs s r :
  r ≠ Diverge →
  (∃ n, drive exec n root (MkFrame cursor_default regs s) = r) ↔
  (∃ n, run_function n root regs s = r).
Proof.
  intros Hr. split; intros [n Hn].
  - exists (2 * n). rewrite drive_run; congruence.
  - rewrite <- Hn. apply run_drive. congruence.
Qed.

End semantics.
