(* ===== verification/RegionSafety.v ===== *)
(** * RegionSafety: a verified function never loses its cursor

    What the structural verifier's findings protect: in a concrete function
    without one, every region exit reaches the op it names, the region it
    enters exists and takes exactly the values carried, and the driver
    returns, returns an error, or fails as one of its own instructions does,
    never with one of the cursor's errors and never with a panic. *)

From stdpp Require Import gmap.
From S2P Require Import Prelude Mir Structure Regions RegionSemantics.

(** What a region is to the op that holds it, by the machine's name for the
    region. *)
Definition region_kind `{MirTypes} (i : MirInstr) (r : RegionRef) : option RegionKind :=
  match i, r with
  | IIf results _ _ _ _ _, Then | IIf results _ _ _ _ _, ElifThen _
  | IIf results _ _ _ _ _, Else | IMatch results _ _ _, Else => Some (KIfArm results)
  | IIf _ _ _ elifs else_args _, ElifCond index =>
      elif ← elifs !! index;
      Some (KElifCond (then_args elif) (next_cond_args (drop (S index) elifs) else_args))
  | ILoop label _ args results _, Body found =>
      if decide (found = label) then Some (KLoopBody label args results) else None
  | IMatch results cases else_args _, Case index =>
      Some (KMatchCase (next_case_args (drop (S index) cases) else_args) results)
  | ITry label results _ handler_args handler else_args orelse, TryBody found =>
      if decide (found = label) then
        Some (KTryBody label ((λ _, handler_args) <$> handler)
                (if orelse is Some _ then else_args else results)
                (bool_decide (is_Some orelse)))
      else None
  | ITry _ results _ _ _ _ _, TryHandler | ITry _ results _ _ _ _ _, TryElse =>
      Some (KTryPart results)
  | _, _ => None
  end.

(** An exit that sits in the regions [ks], outermost first, and carries as
    many values as the edge it takes defines. *)
Definition acceptable `{Values} (ks : list RegionKind) (e : Exit) : Prop :=
  let context := MkContext ks false false in
  match e with
  | XYield values =>
      ∃ results, kind context = KIfArm results ∧ length values = length results
  | XElif _ values =>
      ∃ then_args next_args, kind context = KElifCond then_args next_args ∧
        length values = length then_args ∧ length values = length next_args
  | XTryYield values =>
      (∃ label handled completes into_else,
          kind context = KTryBody label handled completes into_else ∧
          length values = length completes) ∨
      (∃ results, kind context = KTryPart results ∧ length values = length results)
  | XLeave (FLoop label) resume values =>
      ∃ args results, enclosing_loop context label = Some (args, results) ∧
        length values = length (if resume then args else results)
  | XLeave FMatchCase resume values =>
      ∃ next_args results, enclosing_case context = Some (next_args, results) ∧
        length values = length (if resume then next_args else results)
  | XLeave _ _ _ => False
  | XRaise label values =>
      ∃ args, raise_target context label = Some (Some args) ∧ length values = length args
  | XReturn _ | XErrorReturn => True
  end.

Section safety.
Context `{OpChecks, Values}.
Variable function : MirFunction.

(** ** Register files *)

Definition in_range (n : nat) (rs : list Reg) : Prop := Forall (λ r, reg r < n) rs.

Lemma read_in_range regs rs :
  in_range (length regs) rs → ∃ vs, read regs rs = Ok vs ∧ length vs = length rs.
Proof.
  induction 1 as [|r rs Hr _ (vs & IH & Hlen)]; simpl; [eauto|].
  apply lookup_lt_is_Some in Hr as [v Hv]. unfold read_reg. rewrite Hv. simpl.
  rewrite IH. simpl. eexists. split; [done|]. simpl. by f_equal.
Qed.

Lemma read_reg_in_range regs r : reg r < length regs → ∃ v, read_reg regs r = Ok v.
Proof.
  intros [v Hv]%lookup_lt_is_Some. exists v. unfold read_reg. by rewrite Hv.
Qed.

Lemma store_in_range regs rs vs :
  in_range (length regs) rs →
  ∃ regs', store regs rs vs = Ok regs' ∧ length regs' = length regs.
Proof.
  intros Hrs. revert regs vs Hrs. induction rs as [|r rs IH]; intros regs vs Hrs; simpl.
  { eauto. }
  destruct vs as [|v vs]; [eauto|]. apply Forall_cons in Hrs as [Hr Hrs].
  rewrite set_at_lt by done. simpl.
  destruct (IH (<[reg r:=v]> regs) vs) as (regs' & Hs & Hlen).
  { by rewrite length_insert. }
  exists regs'. split; [done|]. by rewrite Hlen, length_insert.
Qed.

(** ** Reading the findings *)

Lemma in_block_nil n ms : in_block n ms = [] ↔ ms = [].
Proof. unfold in_block. by destruct ms. Qed.

Lemma yielded_length mnemonic values targets target :
  yielded_values function mnemonic values targets target = [] →
  length values = length targets.
Proof. unfold yielded_values. destruct (Nat.eqb_spec (length values) (length targets)); done. Qed.

Lemma kind_snoc ks k p a : kind (MkContext (ks ++ [k]) p a) = k.
Proof. unfold kind. simpl. by rewrite last_snoc. Qed.

Lemma innermost_snoc {B} (f : RegionKind → option B) ks k p a p' a' :
  innermost f (MkContext (ks ++ [k]) p a) =
    match f k with Some y => Some y | None => innermost f (MkContext ks p' a') end.
Proof. unfold innermost. simpl. by rewrite reverse_snoc. Qed.

(** ** Exits the verifier accepts *)

Lemma read_exit ks f values regs :
  in_range (length regs) values →
  (∀ vs, length vs = length values → acceptable ks (f vs)) →
  ∃ e : Exit, f <$> read regs values = Ok e ∧ acceptable ks e.
Proof.
  intros Hvs Ha. destruct (read_in_range regs values Hvs) as (vs & -> & Hlen).
  simpl. eauto.
Qed.

(** The exit of a terminator whose values were checked against the region
    around it, or against the frame [found] it names. *)
Ltac carried cx Hv :=
  unfold verify_region_terminator in Hv; apply read_exit; [done|]; intros ws Hws; simpl;
  repeat match goal with
  | |- context [?f (MkContext (regions cx) false false)] =>
      change (f (MkContext (regions cx) false false)) with (f cx)
  | |- context [?f (MkContext (regions cx) false false) ?x] =>
      change (f (MkContext (regions cx) false false) x) with (f cx x)
  end;
  repeat case_match; simplify_eq/=;
  repeat match goal with H : yielded_values _ _ _ _ _ = [] |- _ => apply yielded_length in H end;
  try done;
  first
    [ eexists; split; [done|lia]
    | do 2 eexists; split; [done|lia]
    | left; do 4 eexists; split; [done|lia]
    | right; eexists; split; [done|lia] ].

(** A terminator without findings, run on enough registers, either makes an
    exit that sits where it is or is [unreachable]. *)
Lemma verified_exit t cx regs :
  verify_terminator function t cx = [] → concrete_terminator t = [] →
  in_range (length regs) (terminator_regs t) →
  (∃ e, exit_of t regs = Ok e ∧ acceptable (regions cx) e) ∨ t = TUnreachable.
Proof.
  intros Hv Hc Hr.
  destruct t as [[r|]|vs|vs|cond vs|label vs|label vs|vs|vs|vs|vs|vs|label vs| |]; simpl in *;
    try done; [..|by right]; left.
  - inversion Hr as [|?? Hr']. destruct (read_reg_in_range regs r Hr') as [v ->].
    by exists (XReturn (Some v)).
  - by exists (XReturn None).
  - carried cx Hv.
  - carried cx Hv.
  - apply Forall_cons in Hr as [Hr Hrs].
    destruct (read_reg_in_range regs cond Hr) as [v ->]. simpl.
    unfold verify_region_terminator in Hv. apply read_exit; [done|]. intros ws Hws. simpl.
    change (kind (MkContext (regions cx) false false)) with (kind cx).
    destruct (kind cx) as [| | | |ta na| | | | |]; try done.
    apply app_nil in Hv as [_ Hv].
    destruct (yielded_values _ _ _ ta _) eqn:Hta; [|done].
    apply yielded_length in Hv. apply yielded_length in Hta.
    do 2 eexists. split; [done|]. lia.
  - carried cx Hv.
  - carried cx Hv.
  - carried cx Hv.
  - carried cx Hv.
  - carried cx Hv.
  - by exists XErrorReturn.
Qed.

(** ** What an op makes of an acceptable exit *)

Lemma next_cond_args_drop es n d :
  next_cond_args (drop n es) d = match es !! n with Some e => cond_args e | None => d end.
Proof. revert n. induction es as [|e es IH]; intros [|n]; simpl; try done. Qed.

Lemma next_case_args_drop cs n d :
  next_case_args (drop n cs) d = match cs !! n with Some c => case_args c | None => d end.
Proof. revert n. induction cs as [|c cs IH]; intros [|n]; simpl; try done. Qed.

(** A frame the region is not, an enclosing one is. *)
Lemma enclosing_loop_snoc ks k p a label :
  enclosing_loop (MkContext (ks ++ [k]) p a) label =
    match loop_named label k with
    | Some y => Some y
    | None => enclosing_loop (MkContext ks p a) label
    end.
Proof. apply innermost_snoc. Qed.

Lemma enclosing_case_snoc ks k p a :
  enclosing_case (MkContext (ks ++ [k]) p a) =
    match case_registers k with
    | Some y => Some y
    | None => enclosing_case (MkContext ks p a)
    end.
Proof. apply innermost_snoc. Qed.

Lemma raise_target_snoc ks k p a label :
  raise_target (MkContext (ks ++ [k]) p a) label =
    match try_body_handled label k with
    | Some y => Some y
    | None => raise_target (MkContext ks p a) label
    end.
Proof. apply innermost_snoc. Qed.

(** The region an exit enters exists and takes as many values as the exit
    carries; an exit leaving the op carries one value per result; the others
    sit in the regions around the op. *)
Definition route_fits (ks : list RegionKind) (i : MirInstr) (e : Exit) (ro : Route) : Prop :=
  match ro with
  | Enter r args values =>
      length values = length args ∧ is_Some (region i r) ∧ is_Some (region_kind i r)
  | Leave targets values => results i = Ok targets ∧ length values = length targets
  | Pass => acceptable ks e
  | Fail_ _ => False
  end.

Lemma leave_loop_fits ks i r k label resume values :
  region_kind i r = Some k → is_Some (region i r) →
  acceptable (ks ++ [k]) (XLeave (FLoop label) resume values) →
  route_fits ks i (XLeave (FLoop label) resume values)
    (route i r (XLeave (FLoop label) resume values)).
Proof.
  intros Hk Hr (args & results & He & Hlen). rewrite enclosing_loop_snoc in He.
  destruct i, r; simpl in *; simplify_option_eq;
    try (by destruct Hr); try (by exists args, results).
  - destruct label as [label|]; simplify_eq/=;
      unfold is_frame; simpl; rewrite ?bool_decide_eq_true_2 by done; simpl;
      destruct resume; simpl; try done;
      (split_and!; [done..|by rewrite decide_True]).
  - destruct label as [label|]; simplify_eq/=; unfold is_frame; simpl.
    + rewrite bool_decide_eq_false_2 by done. simpl. by exists args, results.
    + destruct resume; simpl; [|done]. split_and!; [done..|by rewrite decide_True].
Qed.

Lemma leave_case_fits ks i r k resume values :
  region_kind i r = Some k → is_Some (region i r) →
  acceptable (ks ++ [k]) (XLeave FMatchCase resume values) →
  route_fits ks i (XLeave FMatchCase resume values)
    (route i r (XLeave FMatchCase resume values)).
Proof.
  intros Hk Hr (args & results & He & Hlen). rewrite enclosing_case_snoc in He.
  destruct i as [| | | | | |rs cs ea| ], r as [| | | | | |index| | |];
    simpl in *; simplify_option_eq; try (by destruct Hr); try (by exists args, results).
  unfold is_frame. simpl. rewrite next_case_args_drop in Hlen.
  destruct resume; simpl; [|eauto].
  destruct (cs !! S index) as [c|] eqn:Hc; simpl; rewrite ?Hc; eauto.
Qed.

Lemma raise_fits ks i r k label values :
  region_kind i r = Some k → is_Some (region i r) →
  acceptable (ks ++ [k]) (XRaise label values) →
  route_fits ks i (XRaise label values) (route i r (XRaise label values)).
Proof.
  intros Hk Hr (args & He & Hlen). rewrite raise_target_snoc in He.
  destruct i as [tl ? ? ? h ? o| | | | | | | ], r; simpl in *; simplify_option_eq;
    try (by destruct Hr); try (by exists args).
Qed.

Lemma route_acceptable ks i r k e :
  region_kind i r = Some k → is_Some (region i r) →
  acceptable (ks ++ [k]) e → route_fits ks i e (route i r e).
Proof.
  intros Hk Hr. destruct e as [vs|holds vs|[label| | |label] resume vs|vs|label vs|v|].
  - intros (rs & Hkind & Hlen). rewrite kind_snoc in Hkind. subst k.
    destruct i, r; simpl in *; simplify_option_eq; eauto.
  - intros (ta & na & Hkind & Hta & Hna). rewrite kind_snoc in Hkind. subst k.
    destruct i as [|? ? ? es| | | | | |], r as [| |index| | | | | | |]; simpl in *;
      simplify_option_eq.
    rewrite next_cond_args_drop in Hna. destruct holds; simpl.
    + split_and!; [done|by apply fmap_is_Some|done].
    + destruct (es !! S index) as [next|] eqn:Hn; simpl; rewrite ?Hn; eauto.
  - by apply leave_loop_fits.
  - done.
  - by apply leave_case_fits.
  - done.
  - intros [(l & h & cs & into & Hkind & Hlen)|(rs & Hkind & Hlen)];
      rewrite kind_snoc in Hkind; subst k.
    + destruct i as [? ? ? ? ? ? [o|]| | | | | | |], r; simpl in *; simplify_option_eq; eauto.
    + destruct i as [? ? ? ? ? ? [o|]| | | | | | |], r; simpl in *; simplify_option_eq; eauto.
  - by apply raise_fits.
  - done.
  - done.
Qed.

(** ** Verified regions *)

(** Every terminator of [bs], those of nested regions included. *)
Fixpoint instruction_terminators (i : MirInstr) : list MirTerm :=
  in_regions (flat_map (λ b, flat_map instruction_terminators (instrs b) ++ [term b])) i.

Definition nested_terminators (bs : list MirBlock) : list MirTerm :=
  flat_map (λ b, flat_map instruction_terminators (instrs b) ++ [term b]) bs.

Definition verify_one := verify_instruction function.
Definition concrete_one := concrete_instruction function.

Definition terminators_in_range (ts : list MirTerm) : Prop :=
  Forall (λ t, in_range (n_regs function) (terminator_regs t)) ts.

(** The rest of a block in the regions [ks], without findings. *)
Definition sound_instrs (ks : list RegionKind) (is_ : list MirInstr) : Prop :=
  (∃ cx block bi index, regions cx = ks ∧
     verify_instrs verify_one cx block bi index is_ = []) ∧
  (∃ bi, concrete_instrs concrete_one bi is_ = []) ∧
  terminators_in_range (flat_map instruction_terminators is_).

Definition sound_instr (ks : list RegionKind) (i : MirInstr) : Prop :=
  (∃ cx block bi index, regions cx = ks ∧ verify_one cx block bi index i = []) ∧
  (∃ bi, concrete_one bi i = []) ∧
  terminators_in_range (instruction_terminators i).

(** A region's one block in the regions [ks], without findings. *)
Definition sound_list (ks : list RegionKind) (bs : list MirBlock) : Prop :=
  (∃ cx, regions cx = ks ∧ length bs = 1 ∧ verify_blocks function cx bs = []) ∧
  concrete_blocks function bs = [] ∧
  terminators_in_range (nested_terminators bs).

Lemma sound_instrs_cons ks i is_ :
  sound_instrs ks (i :: is_) → sound_instr ks i ∧ sound_instrs ks is_.
Proof.
  intros ((cx & block & bi & index & Hks & Hv) & (bi' & Hc) & Ht). simpl in *.
  apply app_nil in Hv as [Hv1 Hv2]. apply app_nil in Hc as [Hc1 Hc2].
  apply Forall_app in Ht as [Ht1 Ht2].
  split; split_and!; eauto 10.
  do 4 eexists. split; [|exact Hv2]. by destruct (is_assert i).
Qed.

(** The one block of a sound region list. *)
Lemma sound_list_block ks bs :
  sound_list ks bs →
  ∃ b cx, bs = [b] ∧ regions cx = ks ∧ sound_instrs ks (instrs b) ∧
    verify_terminator function (term b) cx = [] ∧ concrete_terminator (term b) = [] ∧
    in_range (n_regs function) (terminator_regs (term b)).
Proof.
  intros ((cx & Hks & Hlen & Hv) & Hc & Ht). destruct bs as [|b [|]]; try done.
  unfold verify_blocks, concrete_blocks, nested_terminators in *. simpl in *.
  rewrite app_nil_r in *.
  apply app_nil in Hv as [Hv1 Hv2]. apply app_nil in Hc as [Hc1 Hc2].
  apply Forall_app in Ht as [Ht1 Ht2].
  apply in_block_nil in Hv2, Hc2. inversion Ht2.
  exists b, cx. split_and!; try done; split_and!; eauto 10.
Qed.

Lemma verify_region_nil cx bi k p bs :
  verify_region_with function verify_one cx bi k p bs = [] →
  length bs = 1 ∧
  verify_blocks function (MkContext (regions cx ++ [k]) p (asserted cx)) bs = [].
Proof.
  intros [Hl Hv]%app_nil. split; [|done].
  destruct (Nat.eqb_spec (length bs) 1); done.
Qed.

Lemma verify_elifs_nil region results else_args p es :
  verify_elifs region results else_args p es = [] →
  ∀ n e, es !! n = Some e →
  region (KElifCond (then_args e) (next_cond_args (drop (S n) es) else_args)) p
    (elif_cond e) = [] ∧
  region (KIfArm results) p (elif_then e) = [].
Proof.
  induction es as [|e es IH]; intros Hv n e' Hn; simpl in *; [done|].
  apply app_nil in Hv as [Hv1 [Hv2 Hv3]%app_nil]. destruct n as [|n]; simplify_eq/=; [done|].
  by apply IH.
Qed.

Lemma verify_cases_nil region results else_args p cs :
  verify_cases region results else_args p cs = [] →
  ∀ n c, cs !! n = Some c →
  region (KMatchCase (next_case_args (drop (S n) cs) else_args) results) p
    (case_body c) = [].
Proof.
  induction cs as [|c cs IH]; intros Hv n c' Hn; simpl in *; [done|].
  apply app_nil in Hv as [Hv1 Hv2]. destruct n as [|n]; simplify_eq/=; [done|].
  by apply IH.
Qed.

(** Each region of a verified op was verified as what it is to the op. *)
Lemma region_verified cx block bi index i r k bs :
  verify_one cx block bi index i = [] → region i r = Some bs → region_kind i r = Some k →
  ∃ p, verify_region_with function verify_one cx bi k p bs = [].
Proof.
  intros Hv Hr Hk.
  destruct i as [label rs body hargs [h|] eargs [o|]|rs cond th es ea oe|label ops args rs body
    | | | |rs cs ea oe| ], r; simpl in *; simplify_option_eq;
    repeat match goal with H : _ ++ _ = [] |- _ => apply app_nil in H as [? ?] end;
    eauto.
  all: try (apply fmap_Some in Hr as (x & Hx & ->)).
  all: try match goal with
    | He : verify_elifs _ _ _ _ _ = [], Hx : _ !! _ = Some _ |- _ =>
        destruct (verify_elifs_nil _ _ _ _ _ He _ _ Hx); simplify_option_eq; eauto
    | He : verify_cases _ _ _ _ _ = [], Hx : _ !! _ = Some _ |- _ =>
        pose proof (verify_cases_nil _ _ _ _ _ He _ _ Hx); simplify_option_eq; eauto
    end.
Qed.

Lemma region_in i r bs : region i r = Some bs → bs ∈ instruction_regions i.
Proof.
  intros Hr.
  destruct i as [? ? ? ? [h|] ? [o|]|? ? ? es| | | | |? cs|], r; simplify_eq/=;
    rewrite ?elem_of_cons, ?elem_of_app, ?elem_of_cons; eauto.
  all: apply fmap_Some in Hr as (x & Hx%list_elem_of_lookup_2 & ->).
  - right. left. apply list_elem_of_bind. exists x.
    split; [rewrite !elem_of_cons; auto|done].
  - right. left. apply list_elem_of_bind. exists x.
    split; [rewrite !elem_of_cons; auto|done].
  - left. by apply list_elem_of_fmap_2.
Qed.

Lemma in_regions_nil {A} (f : list MirBlock → list A) i r bs :
  in_regions f i = [] → region i r = Some bs → f bs = [].
Proof.
  rewrite in_regions_eq. intros Hf Hr%region_in.
  induction (instruction_regions i) as [|bs' l IH]; [by apply not_elem_of_nil in Hr|].
  rewrite bind_cons in Hf. apply app_nil in Hf as [Hf1 Hf2].
  apply elem_of_cons in Hr as [->|Hr]; auto.
Qed.

Lemma in_regions_forall {A} (P : A → Prop) (f : list MirBlock → list A) i r bs :
  Forall P (in_regions f i) → region i r = Some bs → Forall P (f bs).
Proof.
  rewrite in_regions_eq, !Forall_forall. intros Hf Hr%region_in x Hx.
  apply Hf, list_elem_of_bind. eauto.
Qed.

(** A region of a sound op is sound in the regions around it and itself. *)
Lemma sound_region ks i r k bs :
  sound_instr ks i → region i r = Some bs → region_kind i r = Some k →
  sound_list (ks ++ [k]) bs.
Proof.
  intros ((cx & block & bi & index & <- & Hv) & (bi' & Hc) & Ht) Hr Hk. split_and!.
  - destruct (region_verified _ _ _ _ _ _ _ _ Hv Hr Hk) as [p Hp].
    apply verify_region_nil in Hp as [Hlen Hp].
    by exists (MkContext (regions cx ++ [k]) p (asserted cx)).
  - assert (in_regions (concrete_blocks_from concrete_one 0) i = [])
      as Hcr by (destruct i; apply app_nil in Hc as [_ Hc]; exact Hc).
    by eapply in_regions_nil in Hcr.
  - assert (terminators_in_range (in_regions nested_terminators i)) as Htr
      by (destruct i; exact Ht).
    by eapply in_regions_forall in Htr.
Qed.

(** ** The registers of an op *)

Lemma sound_registers ks i :
  sound_instr ks i →
  in_range (n_regs function) (instruction_result_regs op_results i) ∧
  in_range (n_regs function) (instruction_operand_regs op_operands i).
Proof.
  intros ((cx & block & bi & index & Hks & Hv) & _).
  assert (verify_registers function i = []) as Hregs.
  { destruct i; apply app_nil in Hv as [Hv _]; by apply in_block_nil in Hv. }
  apply Forall_app, Forall_forall. intros r Hr.
  destruct (decide (reg r < n_regs function)) as [|Hge]; [done|].
  assert (InvalidRegister r ∈ verify_registers function i) as Hin.
  { apply list_elem_of_bind. exists r. split; [|done]. unfold verify_register.
    destruct (Nat.leb_spec (n_regs function) (reg r)); [|lia]. by apply list_elem_of_singleton. }
  rewrite Hregs in Hin. by apply not_elem_of_nil in Hin.
Qed.

Definition result_regs (i : MirInstr) : list Reg := instruction_result_regs op_results i.

Lemma results_in i targets r : results i = Ok targets → r ∈ targets → r ∈ result_regs i.
Proof.
  destruct i; simpl; intros [= <-] Hr; unfold result_regs; simpl;
    rewrite ?elem_of_app; auto.
Qed.

Lemma elem_of_bind_lookup {A B} (f : A → list B) l n x y :
  l !! n = Some x → y ∈ f x → y ∈ l ≫= f.
Proof. intros Hx%list_elem_of_lookup_2 Hy. apply list_elem_of_bind. eauto. Qed.

(** What a route binds is an argument of the op. *)
Lemma route_args_in i r e r' args values x :
  route i r e = Enter r' args values → x ∈ args → x ∈ result_regs i.
Proof.
  unfold result_regs. intros Hro Hx. destruct e; simpl in Hro.
  all: repeat case_match; simplify_eq/=; rewrite ?elem_of_app; auto.
  all: try (left; right; eapply elem_of_bind_lookup; [done|]; by auto).
  all: right; left; eapply elem_of_bind_lookup; [done|]; rewrite ?elem_of_app; auto.
Qed.

(** ** Running a verified function *)

Section run.
Context {Rest : Type}.
Variable exec : MirInstr → list Value → Rest → vm (list Value * Rest).

(** The errors the machine's own instructions may end a run with. *)
Variable raised : RuntimeError → Prop.

Definition unreachable_reached : RuntimeError :=
  Unsupported "vm: control reached `hlcf.unreachable`".

(** A run that returns a value in [Q], fails as an instruction may or at an
    [unreachable], or goes on. *)
Definition safe {A} (r : vm A) (Q : A → Prop) : Prop :=
  match r with
  | Ok a => Q a
  | Err x => raised x ∨ x = unreachable_reached
  | Panic => False
  | Diverge => True
  end.

Lemma safe_bind {A B} (r : vm A) (f : A → vm B) Q Q' :
  safe r Q' → (∀ a, Q' a → safe (f a) Q) → safe (r ≫= f) Q.
Proof. destruct r; simpl; auto. Qed.

(** An instruction holding no region keeps the register file's length and
    fails only as instructions may. *)
Hypothesis exec_safe : ∀ i regs s,
  instruction_regions i = [] → length regs = n_regs function →
  safe (exec i regs s) (λ x, length x.1 = n_regs function).

#[local] Set Default Proof Using "exec_safe".

(** The region a sound op runs first. *)
Lemma entered_sound ks i regs :
  sound_instr ks i → length regs = n_regs function →
  (entered i regs = Ok None ∧ instruction_regions i = []) ∨
  ∃ r k regs', entered i regs = Ok (Some (r, regs')) ∧ length regs' = n_regs function ∧
    region_kind i r = Some k ∧ is_Some (region i r).
Proof using Type.
  intros Hs Hlen. pose proof (sound_registers _ _ Hs) as [Hres Hops].
  destruct Hs as (_ & (bi & Hc) & _). rewrite <- Hlen in Hres, Hops.
  destruct i as [label rs body hargs h eargs o|rs cond th es ea oe|label ops args rs body
    | | | |rs cs ea oe| ]; simpl in *; try done; try (by left).
  - right. do 3 eexists. split_and!; [done..| |]; simpl; [by rewrite decide_True|done].
  - right. inversion Hops as [|?? Hcond]. destruct (read_reg_in_range _ _ Hcond) as [v ->].
    simpl. destruct (is_true v); [|destruct es]; do 3 eexists; split_and!; simpl; eauto.
  - right. destruct (read_in_range _ _ Hops) as (vs & -> & _). simpl.
    apply Forall_app in Hres as [_ Hargs].
    destruct (store_in_range _ _ vs Hargs) as (regs' & -> & Hlen'). simpl.
    do 3 eexists. split_and!; [done|congruence| |]; simpl; [by rewrite decide_True|done].
  - right. destruct cs as [|c cs]; do 3 eexists; split_and!; simpl; eauto.
Qed.

Lemma store_sound {A} regs targets values (f : list Value → vm A) Q :
  length regs = n_regs function → in_range (n_regs function) targets →
  (∀ regs', length regs' = n_regs function → safe (f regs') Q) →
  safe (store regs targets values ≫= f) Q.
Proof using Type.
  intros Hlen Ht Hf. rewrite <- Hlen in Ht.
  destruct (store_in_range regs targets values Ht) as (regs' & -> & Hlen'). simpl.
  apply Hf. congruence.
Qed.

Definition safe_instrs (fuel : nat) : Prop := ∀ ks is_ t cx regs s,
  sound_instrs ks is_ → regions cx = ks →
  verify_terminator function t cx = [] → concrete_terminator t = [] →
  in_range (n_regs function) (terminator_regs t) → length regs = n_regs function →
  safe (run_instrs exec fuel is_ t regs s)
    (λ x, acceptable ks x.1.1 ∧ length x.1.2 = n_regs function).

Definition safe_op (fuel : nat) : Prop := ∀ ks i r k regs s,
  sound_instr ks i → region_kind i r = Some k → is_Some (region i r) →
  length regs = n_regs function →
  safe (run_op exec fuel i r regs s)
    (λ x, from_option (acceptable ks) True x.1.1 ∧ length x.1.2 = n_regs function).

Lemma safe_instrs_S fuel : safe_instrs fuel → safe_op fuel → safe_instrs (S fuel).
Proof.
  intros IHi IHo ks is_ t cx regs s His Hks Ht Hct Hrt Hlen.
  destruct is_ as [|i is_]; simpl.
  { rewrite <- Hlen in Hrt. destruct (verified_exit t cx regs Ht Hct Hrt) as [(e & -> & He)| ->];
      simpl; [by rewrite <- Hks|by right]. }
  apply sound_instrs_cons in His as [Hi His].
  destruct (entered_sound ks i regs Hi Hlen)
    as [(-> & Hno)|(r & k & regs' & -> & Hlen' & Hk & Hr)]; simpl.
  - eapply safe_bind; [by apply exec_safe|]. intros [regs' s'] Hlen'. by eapply IHi.
  - eapply safe_bind; [by eapply IHo|]. intros [[[e|] regs2] s2] [He Hlen2]; simpl in *.
    + done.
    + by eapply IHi.
Qed.

Lemma safe_op_S fuel : safe_instrs fuel → safe_op fuel → safe_op (S fuel).
Proof.
  intros IHi IHo ks i r k regs s Hi Hk [bs Hr] Hlen. simpl.
  destruct (sound_list_block _ _ (sound_region _ _ _ _ _ Hi Hr Hk))
    as (b & cx & -> & Hks & Hb & Ht & Hct & Hrt). rewrite Hr.
  eapply safe_bind; [by eapply IHi|]. intros [[e regs1] s1] [He Hlen1]; simpl in *.
  pose proof (route_acceptable ks i r k e Hk ltac:(eauto) He) as Hfit.
  destruct (sound_registers _ _ Hi) as [Hres _].
  destruct (route i r e) as [r' args values|targets values| |err] eqn:Hro; simpl in Hfit.
  - destruct Hfit as (_ & Hr' & [k' Hk']). apply store_sound; [done| |].
    { apply Forall_forall. intros x Hx. eapply Forall_forall in Hres; [done|].
      by eapply route_args_in. }
    intros regs2 Hlen2. by eapply IHo.
  - destruct Hfit as [Hrs _]. apply store_sound; [done| |].
    { apply Forall_forall. intros x Hx. eapply Forall_forall in Hres; [done|].
      by eapply results_in. }
    intros regs2 Hlen2. simpl. done.
  - done.
  - done.
Qed.

Lemma safe_run fuel : safe_instrs fuel ∧ safe_op fuel.
Proof.
  induction fuel as [|fuel [IHi IHo]]; [done|].
  split; [by apply safe_instrs_S|by apply safe_op_S].
Qed.

(** The body of a verified function, in range of its registers. *)
Definition verified : Prop :=
  verify_concrete_function function = [] ∧
  terminators_in_range (nested_terminators (blocks function)).

Lemma verified_body : verified → sound_list [KFunction] (blocks function).
Proof using Type.
  intros [[[Hl Hv]%app_nil Hc]%app_nil Ht]. split_and!; [|done..].
  exists function_context. split_and!; [done| |done].
  destruct (Nat.eqb_spec (length (blocks function)) 1); done.
Qed.

Lemma safe_function fuel regs s :
  verified → length regs = n_regs function →
  safe (run_function exec fuel (blocks function) regs s)
    (λ x, length x.1.2 = n_regs function).
Proof.
  intros Hv Hlen.
  destruct (sound_list_block _ _ (verified_body Hv))
    as (b & cx & -> & Hks & Hb & Ht & Hct & Hrt). simpl.
  eapply safe_bind; [by eapply (proj1 (safe_run fuel))|].
  intros [[e regs1] s1] [He Hlen1]; simpl in *. unfold acceptable in He.
  destruct e as [| |[]| | | | ]; simpl in *; naive_solver.
Qed.

End run.

(** C2: a verified function is safe to drive.  Take a concrete function
    without findings, whose terminators name registers it has (the verifier
    does not look), and instructions that keep the number of registers and fail
    only as [raised] allows.  Then the driver never loses its position, never leaves the function or names a [try] that
    does not enclose it, and never panics: it returns with the register file
    it started with, fails as one of its own instructions may, or reaches an
    [unreachable]. *)
Theorem verified_function_safe {Rest} (exec : MirInstr → list Value → Rest → vm (list Value * Rest))
    raised fuel regs s :
  (∀ i regs s, instruction_regions i = [] → length regs = n_regs function →
     safe raised (exec i regs s) (λ x, length x.1 = n_regs function)) →
  verify_concrete_function function = [] →
  terminators_in_range (nested_terminators (blocks function)) →
  length regs = n_regs function →
  safe raised (drive exec fuel (blocks function) (MkFrame cursor_default regs s))
    (λ x, length x.1.2 = n_regs function).
Proof.
  intros Hexec Hv Ht Hlen.
  destruct (diverges_dec (drive exec fuel (blocks function) (MkFrame cursor_default regs s)))
    as [->|Hd]; [done|].
  rewrite <- drive_run by done. by apply safe_function.
Qed.

(** C13: each edge the verifier accepts fits its target.  A region terminator
    without findings, run inside the region [r] of an op, enters a region the
    op has with one value per argument, leaves the op with one value per
    result, or makes an exit that again sits where the op is; the op never
    refuses it. *)
Theorem verified_edge_fits ks i r k t cx regs e :
  region_kind i r = Some k → is_Some (region i r) → regions cx = ks ++ [k] →
  verify_terminator function t cx = [] → concrete_terminator t = [] →
  in_range (length regs) (terminator_regs t) → exit_of t regs = Ok e →
  route_fits ks i e (route i r e).
Proof.
  intros Hk Hr Hks Hv Hc Hrange He. eapply route_acceptable; [done..|].
  destruct (verified_exit t cx regs Hv Hc Hrange) as [(e' & He' & Ha)| ->]; [|done].
  rewrite <- Hks. congruence.
Qed.

End safety.
