(* ===== verification/RegionExamples.v ===== *)
(** * RegionExamples: the region machine on a concrete program

    A small instruction set, a program that counts down in a labelled loop
    and leaves it by raising to the [try] around it, and the witnesses of the
    region theorems on it. *)

From stdpp Require Import gmap.
From S2P Require Import Prelude Mir Structure Regions RegionSemantics RegionSafety.

(** [dst := a + b] and [dst := a - b] on naturals. *)
Inductive demo_op := Add (dst a b : nat) | Sub (dst a b : nat).

#[export] Instance demo_types : MirTypes :=
  { op := demo_op; param := nat; constant := unit }.

#[export] Instance demo_tys : TyOps :=
  { Ty := unit; types_compatible _ _ := true; is_condition _ := true;
    param_is_bool _ := true }.

#[export] Instance demo_checks : OpChecks := {
  op_results o := match o with Add d _ _ | Sub d _ _ => [MkReg d] end;
  op_operands o := match o with Add _ a b | Sub _ a b => [MkReg a; MkReg b] end;
  op_call_error _ := false;
  op_findings _ _ _ _ _ := [];
  concrete_findings _ i :=
    match i with IComptimeAssert _ => [OtherMessage "assert"] | _ => [] end;
}.

#[export] Instance demo_values : Values := { Value := nat; is_true v := negb (v =? 0) }.

Definition reg_value (regs : list Value) (n : nat) : nat := default 0 (regs !! n).

Definition demo_exec (i : MirInstr) (regs : list Value) (s : unit) : vm (list Value * unit) :=
  match i with
  | IOp (Add d a b) =>
      Ok (<[d := (reg_value regs a + reg_value regs b : Value)]> regs, s)
  | IOp (Sub d a b) =>
      Ok (<[d := (reg_value regs a - reg_value regs b : Value)]> regs, s)
  | _ => Err (Unsupported "assert")
  end.

Notation r n := (MkReg n).

Definition countdown_label : LoopLabel := MkLoopLabel 0.
Definition countdown_try : TryLabel := MkTryLabel 0.

(** [r3, r4] count down and accumulate; at zero the sum is raised. *)
Definition countdown_body : list MirBlock :=
  [MkBlock
     [IIf [] (r 3)
        [MkBlock [IOp (Add 6 4 3); IOp (Sub 7 3 2)]
           (TContinue (Some countdown_label) [r 7; r 6])]
        [] []
        [MkBlock [] (TTryRaise countdown_try [r 4])]]
     TUnreachable].

Definition countdown : MirFunction := {|
  blocks :=
    [MkBlock
       [ITry countdown_try [r 9]
          [MkBlock
             [ILoop (Some countdown_label) [r 0; r 1] [r 3; r 4] [] countdown_body]
             (TTryYield [r 1])]
          [r 8] (Some [MkBlock [] (TTryYield [r 8])]) [] None]
       (TReturn (Some (r 9)))];
  n_regs := 10;
  reg_types := list_to_map ((λ n, (n, ())) <$> seq 0 10);
  returns_reference := false;
  ret_ty := Some ();
  raises := false;
|}.

Definition countdown_regs : list Value := [3; 0; 1; 0; 0; 0; 0; 0; 0; 0].

Definition value (n : nat) : Value := n.

Definition countdown_end : list Value := [3; 0; 1; 0; 6; 0; 6; 0; 6; 6].

Example countdown_verifies : verify_concrete_function countdown = [].
Proof. by vm_compute. Qed.

Example countdown_runs :
  drive demo_exec 30 (blocks countdown) (MkFrame cursor_default countdown_regs ()) =
    Ok (Returned (Some (value 6)), countdown_end, ()).
Proof. by vm_compute. Qed.

(** The structured semantics of the countdown ends, so the cursor does. *)
Lemma drive_structured_witness :
  ∃ n, drive demo_exec n (blocks countdown) (MkFrame cursor_default countdown_regs ()) =
    Ok (Returned (Some (value 6)), countdown_end, ()).
Proof.
  apply (proj2 (drive_structured demo_exec (blocks countdown) countdown_regs ()
    (Ok (Returned (Some (value 6)), countdown_end, ())) ltac:(discriminate))).
  exists 20. vm_compute. reflexivity.
Defined.

Lemma demo_exec_safe i regs s :
  instruction_regions i = [] → length regs = n_regs countdown →
  safe (λ e, e = Unsupported "assert") (demo_exec i regs s)
    (λ x, length x.1 = n_regs countdown).
Proof.
  intros Hi Hlen. destruct i as [| | | | | | |[d a b|d a b]]; simpl; auto;
    by rewrite length_insert.
Qed.

Lemma verified_function_safe_witness :
  safe (λ e, e = Unsupported "assert")
    (drive demo_exec 30 (blocks countdown) (MkFrame cursor_default countdown_regs ()))
    (λ x, length x.1.2 = 10).
Proof.
  apply (verified_function_safe countdown demo_exec (λ e, e = Unsupported "assert") 30
           countdown_regs ()); [exact demo_exec_safe|by vm_compute| |done].
  vm_compute. repeat constructor.
Defined.

(** The [continue] of the countdown, in the [then] arm of its [if] in its
    loop, passes the arm; from the loop's body it enters the body again. *)
Definition countdown_kinds : list RegionKind :=
  [KFunction; KTryBody countdown_try (Some [r 8]) [r 9] false;
   KLoopBody (Some countdown_label) [r 3; r 4] []].

Definition edge_values : list Value := [1; 2].
Definition edge_regs : list Value := [0; 0; 0; 0; 0; 0; 2; 1].

Lemma verified_edge_fits_witness :
  route_fits (take 2 countdown_kinds)
    (ILoop (Some countdown_label) [r 0; r 1] [r 3; r 4] [] countdown_body)
    (XLeave (FLoop (Some countdown_label)) true edge_values)
    (Enter (Body (Some countdown_label)) [r 3; r 4] edge_values).
Proof.
  apply (verified_edge_fits countdown (take 2 countdown_kinds)
    (ILoop (Some countdown_label) [r 0; r 1] [r 3; r 4] [] countdown_body)
    (Body (Some countdown_label)) (KLoopBody (Some countdown_label) [r 3; r 4] [])
    (TContinue (Some countdown_label) [r 7; r 6])
    (MkContext countdown_kinds false false)
    edge_regs
    (XLeave (FLoop (Some countdown_label)) true edge_values)).
  - by vm_compute.
  - eexists. reflexivity.
  - reflexivity.
  - by vm_compute.
  - reflexivity.
  - repeat constructor.
  - reflexivity.
Defined.

(** ** Terminators name unchecked registers *)

(** A function of one register that returns its hundredth. *)
Definition stray : MirFunction := {|
  blocks := [MkBlock [] (TReturn (Some (r 99)))];
  n_regs := 1;
  reg_types := {[ 0 := () ]};
  returns_reference := false;
  ret_ty := Some ();
  raises := false;
|}.

(** The verifier bounds the registers of instructions, not those of
    terminators.  A concrete function returning a register it does not have
    verifies without a finding, and the machine panics on it. *)
Theorem terminator_registers_unchecked :
  verify_concrete_function stray = [] ∧
  drive demo_exec 1 (blocks stray) (MkFrame cursor_default [value 0] ()) = Panic.
Proof. split; by vm_compute. Qed.
