(* ===== verification/RegionExits.v ===== *)
(** * RegionExits: the visitors of the exits that leave one op

    [loop_breaks_mut], [loop_continues_mut], [match_nexts_mut],
    [match_completes_mut] and [try_raises_mut] of [ir.rs], by which the
    passes that change an op's results or arguments rewrite the values its
    exits carry.  A visitor's effect on the values is a function; a closure's
    own state is not modelled.  The theorems say that a visitor rewrites
    exactly the exits that resolve to the op, as the region machine and the
    verifier resolve them, and leaves every other terminator alone. *)

From S2P Require Import Prelude Mir.

Section exits.
Context `{MirTypes}.

(** ** Regions and the frames that hold them *)

(** What [f] makes of each region, given the frame an exit names the region's
    op by from inside it. *)
Definition in_framed {A} (f : option RegionFrame → list MirBlock → list A) (i : MirInstr) :
    list A :=
  match i with
  | IIf _ _ then_ elifs _ orelse =>
      f None then_ ++
      flat_map (λ elif, f None (elif_cond elif) ++ f None (elif_then elif)) elifs ++
      f None orelse
  | ILoop label _ _ _ body => f (Some (FLoop label)) body
  | IComptimeIf _ _ arms orelse => flat_map (f None) arms ++ f None orelse
  | IComptimeFor _ _ _ _ body orelse => f (Some FComptimeFor) body ++ f None orelse
  | IMatch _ cases _ orelse =>
      flat_map (λ case, f (Some FMatchCase) (case_body case)) cases ++ f None orelse
  | ITry label _ body _ handler _ orelse =>
      f (Some (FTry label)) body ++ from_option (f None) [] handler ++
      from_option (f None) [] orelse
  | IComptimeAssert _ | IOp _ => []
  end.

(** Rewrite each region of an op. *)
Definition map_framed (g : option RegionFrame → list MirBlock → list MirBlock)
    (i : MirInstr) : MirInstr :=
  match i with
  | IIf results cond then_ elifs else_args orelse =>
      IIf results cond (g None then_)
        (map (λ e, MkElif (cond_args e) (g None (elif_cond e)) (then_args e)
                     (g None (elif_then e))) elifs)
        else_args (g None orelse)
  | ILoop label operands args results body =>
      ILoop label operands args results (g (Some (FLoop label)) body)
  | IComptimeIf results values arms orelse =>
      IComptimeIf results values (map (g None) arms) (g None orelse)
  | IComptimeFor has_next operands args results body orelse =>
      IComptimeFor has_next operands args results (g (Some FComptimeFor) body)
        (g None orelse)
  | IMatch results cases else_args orelse =>
      IMatch results
        (map (λ c, MkCase (case_args c) (g (Some FMatchCase) (case_body c))) cases)
        else_args (g None orelse)
  | ITry label results body handler_args handler else_args orelse =>
      ITry label results (g (Some (FTry label)) body) handler_args
        (option_map (g None) handler) else_args (option_map (g None) orelse)
  | IComptimeAssert _ | IOp _ => i
  end.

(** [for region in instruction_regions_mut(i)]. *)
Definition map_regions (g : list MirBlock → list MirBlock) : MirInstr → MirInstr :=
  map_framed (λ _, g).

Definition is_try (i : MirInstr) : bool :=
  match i with ITry _ _ _ _ _ _ _ => true | _ => false end.

(** What lies between a region op and an exit of it. *)
Record BreakSite := MkSite { in_try_part : bool }.

(** The site of [i]'s regions. *)
Definition site_in (site : BreakSite) (i : MirInstr) : BreakSite :=
  MkSite (in_try_part site || is_try i).

(** ** The visitors *)

Section visitors.
Variable visit : list Reg → BreakSite → list Reg.

(** Whether a [break] or [continue] of [named] below the loops [nested] is
    one of the loop labelled [label]. *)
Definition leaves_loop (label : option LoopLabel) (nested : list (option LoopLabel))
    (named : option LoopLabel) : bool :=
  match named with
  | None => match nested with [] => true | _ => false end
  | Some _ => negb (bool_decide (named ∈ nested)) && bool_decide (named = label)
  end.

Definition visit_loop_exit (label : option LoopLabel) (resume : bool)
    (nested : list (option LoopLabel)) (site : BreakSite) (t : MirTerm) : MirTerm :=
  match t with
  | TBreak named values =>
      if negb resume && leaves_loop label nested named
      then TBreak named (visit values site) else t
  | TContinue named values =>
      if resume && leaves_loop label nested named
      then TContinue named (visit values site) else t
  | _ => t
  end.

(** [exits_in], the innermost of [nested] last. *)
Fixpoint exits_instr (label : option LoopLabel) (resume : bool)
    (nested : list (option LoopLabel)) (site : BreakSite) (i : MirInstr) : MirInstr :=
  let nested := match i with ILoop inner _ _ _ _ => nested ++ [inner] | _ => nested end in
  let site := site_in site i in
  map_regions
    (map (λ b, MkBlock (map (exits_instr label resume nested site) (instrs b))
                 (visit_loop_exit label resume nested site (term b)))) i.

Definition exits_in (label : option LoopLabel) (resume : bool)
    (nested : list (option LoopLabel)) (site : BreakSite) (bs : list MirBlock) :
    list MirBlock :=
  map (λ b, MkBlock (map (exits_instr label resume nested site) (instrs b))
              (visit_loop_exit label resume nested site (term b))) bs.

Definition loop_breaks_mut (body : list MirBlock) (label : option LoopLabel) :
    list MirBlock :=
  exits_in label false [] (MkSite false) body.

Definition loop_continues_mut (body : list MirBlock) (label : option LoopLabel) :
    list MirBlock :=
  exits_in label true [] (MkSite false) body.

Definition visit_case_exit (resume : bool) (site : BreakSite) (t : MirTerm) : MirTerm :=
  match t with
  | TMatchNext values => if resume then TMatchNext (visit values site) else t
  | TMatchComplete values => if negb resume then TMatchComplete (visit values site) else t
  | _ => t
  end.

(** [case_exits_in]: a nested match keeps its cases' exits. *)
Fixpoint case_exits_instr (resume : bool) (site : BreakSite) (i : MirInstr) : MirInstr :=
  let site := site_in site i in
  let go := map (λ b, MkBlock (map (case_exits_instr resume site) (instrs b))
                        (visit_case_exit resume site (term b))) in
  match i with
  | IMatch results cases else_args orelse => IMatch results cases else_args (go orelse)
  | _ => map_regions go i
  end.

Definition case_exits_in (resume : bool) (site : BreakSite) (bs : list MirBlock) :
    list MirBlock :=
  map (λ b, MkBlock (map (case_exits_instr resume site) (instrs b))
              (visit_case_exit resume site (term b))) bs.

Definition match_nexts_mut (case : list MirBlock) : list MirBlock :=
  case_exits_in true (MkSite false) case.

Definition match_completes_mut (case : list MirBlock) : list MirBlock :=
  case_exits_in false (MkSite false) case.

End visitors.

(** [try_raises_mut]'s visitor takes the values alone. *)
Section raises.
Variable visit : list Reg → list Reg.

Definition visit_raise (label : TryLabel) (t : MirTerm) : MirTerm :=
  match t with
  | TTryRaise found values =>
      if bool_decide (found = label) then TTryRaise found (visit values) else t
  | _ => t
  end.

(** A nested [try] carrying the label keeps its body's raises. *)
Fixpoint try_raises_instr (label : TryLabel) (i : MirInstr) : MirInstr :=
  let go := map (λ b, MkBlock (map (try_raises_instr label) (instrs b))
                        (visit_raise label (term b))) in
  match i with
  | ITry inner results body handler_args handler else_args orelse =>
      if bool_decide (inner = label) then
        ITry inner results body handler_args (option_map go handler) else_args
          (option_map go orelse)
      else map_regions go i
  | _ => map_regions go i
  end.

Definition try_raises_mut (body : list MirBlock) (label : TryLabel) : list MirBlock :=
  map (λ b, MkBlock (map (try_raises_instr label) (instrs b))
              (visit_raise label (term b))) body.

End raises.

(** ** Every terminator, with the frames around it *)

(** A terminator below a region: the frames between them, innermost first,
    and whether one of the ops between them is a [try]. *)
Record Placed := MkPlaced { frames : list RegionFrame; site : BreakSite; placed_term : MirTerm }.

Fixpoint placed_instr (fs : list RegionFrame) (s : BreakSite) (i : MirInstr) : list Placed :=
  in_framed
    (λ f, flat_map (λ b,
       flat_map (placed_instr (option_list f ++ fs) (site_in s i)) (instrs b) ++
       [MkPlaced (option_list f ++ fs) (site_in s i) (term b)])) i.

Definition placed_blocks (fs : list RegionFrame) (s : BreakSite) (bs : list MirBlock) :
    list Placed :=
  flat_map (λ b, flat_map (placed_instr fs s) (instrs b) ++ [MkPlaced fs s (term b)]) bs.

(** The terminators of a region's blocks, at any depth. *)
Definition terminators (bs : list MirBlock) : list Placed :=
  placed_blocks [] (MkSite false) bs.

(** The frame an exit names, and whether it resumes it; a raise leaves the
    body of the [try] it names. *)
Definition exit_target (t : MirTerm) : option (RegionFrame * bool) :=
  match t with
  | TTryRaise label _ => Some (FTry label, false)
  | _ => region_exit t
  end.

(** The exit resolves to the frame [f] around all of its frames: it names
    [f] and none of them. *)
Definition resolves_to (f : RegionFrame) (resume : bool) (p : Placed) : bool :=
  match exit_target (placed_term p) with
  | Some (named, resumes) =>
      Bool.eqb resumes resume && names named f && negb (existsb (names named) (frames p))
  | None => false
  end.

(** Rewrite the values a terminator carries. *)
Definition map_values (g : list Reg → list Reg) (t : MirTerm) : MirTerm :=
  match t with
  | TReturn _ | TErrorReturn | TUnreachable => t
  | TTryYield values => TTryYield (g values)
  | TYield values => TYield (g values)
  | TElifCond cond values => TElifCond cond (g values)
  | TBreak label values => TBreak label (g values)
  | TContinue label values => TContinue label (g values)
  | TComptimeYield values => TComptimeYield (g values)
  | TComptimeBreak values => TComptimeBreak (g values)
  | TComptimeContinue values => TComptimeContinue (g values)
  | TMatchNext values => TMatchNext (g values)
  | TMatchComplete values => TMatchComplete (g values)
  | TTryRaise label values => TTryRaise label (g values)
  end.

(** Visit the values of the exits that resolve to [f]. *)
Definition visit_resolved (visit : list Reg → BreakSite → list Reg) (f : RegionFrame)
    (resume : bool) (p : Placed) : Placed :=
  if resolves_to f resume p then
    MkPlaced (frames p) (site p) (map_values (λ values, visit values (site p)) (placed_term p))
  else p.

(** ** Regions, one at a time *)

Definition framed_regions (i : MirInstr) : list (option RegionFrame * list MirBlock) :=
  in_framed (λ f bs, [(f, bs)]) i.

Lemma in_framed_eq {A} (f : option RegionFrame → list MirBlock → list A) i :
  in_framed f i = flat_map (λ r, f r.1 r.2) (framed_regions i).
Proof.
  unfold framed_regions.
  destruct i as [? ? ? ? [?|] ? [?|]|? ? ? es| |? ? arms| | |? cs|]; simpl;
    rewrite ?flat_map_app; simpl; rewrite ?app_nil_r; try done.
  - f_equal. f_equal. induction es as [|e es IH]; simpl; [done|].
    by rewrite IH, <- app_assoc.
  - f_equal. induction arms as [|a arms IH]; simpl; [done|]. by rewrite IH.
  - f_equal. induction cs as [|c cs IH]; simpl; [done|]. by rewrite IH.
Qed.

Lemma in_framed_ext {A} (f g : option RegionFrame → list MirBlock → list A) i :
  (∀ fr bs, (fr, bs) ∈ framed_regions i → f fr bs = g fr bs) → in_framed f i = in_framed g i.
Proof.
  intros Hfg. rewrite !in_framed_eq. induction (framed_regions i) as [|[fr bs] l IH]; [done|].
  simpl. rewrite Hfg by (by left). f_equal. apply IH. intros. apply Hfg. by right.
Qed.

Lemma in_framed_fmap {A B} (h : A → B) (f : option RegionFrame → list MirBlock → list A) i :
  in_framed (λ fr bs, h <$> f fr bs) i = h <$> in_framed f i.
Proof.
  rewrite !in_framed_eq. induction (framed_regions i) as [|[fr bs] l IH]; [done|].
  simpl. by rewrite IH, fmap_app.
Qed.

Lemma in_framed_map {A} (f : option RegionFrame → list MirBlock → list A) g i :
  in_framed f (map_framed g i) = in_framed (λ fr bs, f fr (g fr bs)) i.
Proof.
  destruct i as [? ? ? ? [?|] ? [?|]|? ? ? es| |? ? arms| | |? cs|]; simpl; try done.
  - f_equal. f_equal. induction es as [|e es IH]; simpl; [done|]. by rewrite IH.
  - f_equal. induction arms as [|a arms IH]; simpl; [done|]. by rewrite IH.
  - f_equal. induction cs as [|c cs IH]; simpl; [done|]. by rewrite IH.
Qed.

Lemma framed_region_in i fr bs : (fr, bs) ∈ framed_regions i → bs ∈ instruction_regions i.
Proof.
  intros Hin. assert (bs ∈ (instruction_regions i ≫= λ bs, [bs])) as Hbs.
  2: { apply list_elem_of_bind in Hbs as (bs' & Hbs%list_elem_of_singleton & ?). congruence. }
  rewrite <- in_regions_eq. apply (list_elem_of_fmap_2 snd) in Hin. simpl in Hin.
  unfold framed_regions in Hin. rewrite <- in_framed_fmap in Hin. simpl in Hin.
  by destruct i.
Qed.

(** The labels of the loops among the frames, innermost first. *)
Definition loop_labels (fs : list RegionFrame) : list (option LoopLabel) :=
  omap (λ f, match f with FLoop label => Some label | _ => None end) fs.

Definition own_label (i : MirInstr) : list (option LoopLabel) :=
  match i with ILoop inner _ _ _ _ => [inner] | _ => [] end.

Lemma framed_labels i fr bs :
  (fr, bs) ∈ framed_regions i → loop_labels (option_list fr) = own_label i.
Proof.
  intros Hin%list_elem_of_In. unfold framed_regions in Hin.
  destruct i as [? ? ? ? [?|] ? [?|]|? ? ? es| |? ? arms| | |? cs|]; simpl in *;
    repeat (rewrite ?in_app_iff, ?in_flat_map in Hin; simpl in Hin); naive_solver.
Qed.

Lemma site_in_map site g i : site_in site (map_framed g i) = site_in site i.
Proof. by destruct i. Qed.

Lemma placed_instr_eq fs s i :
  placed_instr fs s i =
    in_framed (λ f, placed_blocks (option_list f ++ fs) (site_in s i)) i.
Proof. by destruct i. Qed.

Lemma placed_instr_map fs s g i :
  placed_instr fs s (map_framed g i) =
    in_framed (λ f bs, placed_blocks (option_list f ++ fs) (site_in s i) (g f bs)) i.
Proof. by rewrite placed_instr_eq, in_framed_map, site_in_map. Qed.

(** Rewriting each instruction and terminator of a block list. *)
Lemma placed_blocks_map (V : MirInstr → MirInstr) (vt : MirTerm → MirTerm)
    (upd : Placed → Placed) fs s bs :
  (∀ b j, b ∈ bs → j ∈ instrs b → placed_instr fs s (V j) = upd <$> placed_instr fs s j) →
  (∀ t, MkPlaced fs s (vt t) = upd (MkPlaced fs s t)) →
  placed_blocks fs s (map (λ b, MkBlock (map V (instrs b)) (vt (term b))) bs) =
    upd <$> placed_blocks fs s bs.
Proof.
  intros HV Ht. induction bs as [|b bs IH]; [done|].
  unfold placed_blocks. simpl. fold (placed_blocks fs s). rewrite !fmap_app. simpl.
  rewrite Ht. f_equal; [f_equal|].
  - assert (∀ j, j ∈ instrs b → placed_instr fs s (V j) = upd <$> placed_instr fs s j) as HVb
      by (intros j; apply HV; by left).
    clear IH HV. induction (instrs b) as [|j js IH]; [done|]. simpl.
    rewrite fmap_app, HVb by (by left). f_equal. apply IH. intros. apply HVb. by right.
  - apply IH. intros b' j Hb'. apply HV. by right.
Qed.

(** ** Frames only grow inwards *)

Lemma placed_frames fs s i p :
  p ∈ placed_instr fs s i → ∃ pre, frames p = pre ++ fs.
Proof.
  revert fs s p. induction i as [i IH] using MirInstr_nested_ind. intros fs s p.
  rewrite placed_instr_eq, in_framed_eq. intros Hp.
  apply list_elem_of_In, in_flat_map in Hp as ([fr bs] & Hin & Hp). simpl in Hp.
  apply list_elem_of_In, framed_region_in in Hin.
  apply in_flat_map in Hp as (b & Hb & Hp). apply in_app_or in Hp as [Hp|[<-|[]]].
  - apply in_flat_map in Hp as (j & Hj & Hp).
    destruct (IH bs b j) with (fs := option_list fr ++ fs) (s := site_in s i) (p := p)
      as [pre Hpre]; [done|by apply list_elem_of_In..|].
    rewrite Hpre, app_assoc. eauto.
  - simpl. eauto.
Qed.

Lemma placed_blocks_frames fs s bs p :
  p ∈ placed_blocks fs s bs → ∃ pre, frames p = pre ++ fs.
Proof.
  intros Hp. apply list_elem_of_In, in_flat_map in Hp as (b & _ & Hp).
  apply in_app_or in Hp as [Hp|[<-|[]]]; [|by exists []].
  apply in_flat_map in Hp as (j & _ & Hp). by eapply placed_frames, list_elem_of_In.
Qed.

(** An exit below a frame equal to the target resolves there. *)
Lemma captured f resume p : f ∈ frames p → resolves_to f resume p = false.
Proof.
  intros Hf. unfold resolves_to. destruct (exit_target _) as [[named r]|]; [|done].
  destruct (names named f) eqn:Hn; [|by rewrite andb_false_r].
  apply andb_false_iff. right. apply negb_false_iff, existsb_exists.
  exists f. split; [by apply list_elem_of_In|done].
Qed.

Lemma visit_captured visit f resume fs s bs :
  f ∈ fs → visit_resolved visit f resume <$> placed_blocks fs s bs = placed_blocks fs s bs.
Proof.
  intros Hf. rewrite <- (list_fmap_id (placed_blocks fs s bs)) at 2.
  apply list_fmap_ext. intros n p Hp%list_elem_of_lookup_2.
  apply placed_blocks_frames in Hp as [pre Hpre].
  unfold visit_resolved. rewrite captured; [done|]. rewrite Hpre, elem_of_app. auto.
Qed.

(** ** Loops *)

Lemma existsb_loops_none fs :
  existsb (names (FLoop None)) fs = negb (match loop_labels fs with [] => true | _ => false end).
Proof. induction fs as [|[| | |] fs IH]; simpl; done. Qed.

Lemma existsb_loops_some l fs :
  existsb (names (FLoop (Some l))) fs = bool_decide (Some l ∈ loop_labels fs).
Proof.
  induction fs as [|[found| | |] fs IH]; simpl; [done| |done..].
  rewrite IH. apply eq_bool_prop_intro. rewrite orb_True, !bool_decide_spec, elem_of_cons.
  naive_solver.
Qed.

Lemma leaves_loop_names label named fs :
  leaves_loop label (reverse (loop_labels fs)) named =
    names (FLoop named) (FLoop label) && negb (existsb (names (FLoop named)) fs).
Proof.
  destruct named as [l|]; simpl.
  - rewrite existsb_loops_some, andb_comm. f_equal.
    + apply bool_decide_ext. split; congruence.
    + f_equal. apply bool_decide_ext. by rewrite elem_of_reverse.
  - rewrite existsb_loops_none, negb_involutive.
    destruct (loop_labels fs) as [|x ls]; [done|]. rewrite reverse_cons.
    by destruct (reverse ls).
Qed.

Lemma visit_loop_exit_resolved visit label resume fs s t :
  MkPlaced fs s (visit_loop_exit visit label resume (reverse (loop_labels fs)) s t) =
    visit_resolved visit (FLoop label) resume (MkPlaced fs s t).
Proof.
  unfold visit_resolved, resolves_to, visit_loop_exit.
  destruct t as [| | | |named values|named values| | | | | | | |]; simpl;
    rewrite ?andb_false_r; try done.
  - rewrite leaves_loop_names. simpl.
    destruct resume; simpl; try done; by destruct (_ && _).
  - rewrite leaves_loop_names. simpl.
    destruct resume; simpl; try done; by destruct (_ && _).
Qed.

Lemma exits_instr_resolved visit label resume i fs s :
  placed_instr fs s (exits_instr visit label resume (reverse (loop_labels fs)) s i) =
    visit_resolved visit (FLoop label) resume <$> placed_instr fs s i.
Proof.
  revert fs s. induction i as [i IH] using MirInstr_nested_ind. intros fs s.
  set (nested := match i with ILoop inner _ _ _ _ => reverse (loop_labels fs) ++ [inner]
                 | _ => reverse (loop_labels fs) end).
  transitivity (placed_instr fs s (map_framed (λ _,
    map (λ b, MkBlock (map (exits_instr visit label resume nested (site_in s i)) (instrs b))
                (visit_loop_exit visit label resume nested (site_in s i) (term b)))) i)).
  { by destruct i. }
  rewrite placed_instr_map, placed_instr_eq, <- in_framed_fmap.
  apply in_framed_ext. intros fr bs Hin.
  assert (nested = reverse (loop_labels (option_list fr ++ fs))) as ->.
  { unfold loop_labels. rewrite omap_app. fold (loop_labels (option_list fr)).
    rewrite (framed_labels _ _ _ Hin), reverse_app. unfold nested.
    destruct i; simpl; rewrite ?reverse_nil, ?app_nil_r; done. }
  apply placed_blocks_map.
  - intros b j Hb Hj. eapply IH; [by eapply framed_region_in|done..].
  - intros t. apply visit_loop_exit_resolved.
Qed.

(** ** Match cases *)

Lemma visit_case_exit_resolved visit resume fs s t :
  FMatchCase ∉ fs →
  MkPlaced fs s (visit_case_exit visit resume s t) =
    visit_resolved visit FMatchCase resume (MkPlaced fs s t).
Proof.
  intros Hfs. assert (existsb (names FMatchCase) fs = false) as Hno.
  { apply not_true_is_false. intros (f & Hf & Hn)%existsb_exists.
    apply Hfs, list_elem_of_In. by destruct f. }
  unfold visit_resolved, resolves_to, visit_case_exit.
  destruct t; simpl; rewrite ?andb_false_r; try done; rewrite Hno; by destruct resume.
Qed.

(** The visitor as one rewriting of the regions: the cases of a nested match
    are captured. *)
Lemma case_exits_instr_framed visit resume s i :
  case_exits_instr visit resume s i =
    map_framed (λ f bs,
      if bool_decide (f = Some FMatchCase) then bs
      else map (λ b, MkBlock (map (case_exits_instr visit resume (site_in s i)) (instrs b))
                       (visit_case_exit visit resume (site_in s i) (term b))) bs) i.
Proof.
  destruct i as [| | | | | |rs cs ea oe|]; try done. simpl. f_equal.
  induction cs as [|[args body] cs IH]; [done|]. simpl. by rewrite <- IH.
Qed.

Lemma case_exits_instr_resolved visit resume i fs s :
  FMatchCase ∉ fs →
  placed_instr fs s (case_exits_instr visit resume s i) =
    visit_resolved visit FMatchCase resume <$> placed_instr fs s i.
Proof.
  revert fs s. induction i as [i IH] using MirInstr_nested_ind. intros fs s Hfs.
  rewrite case_exits_instr_framed, placed_instr_map, placed_instr_eq, <- in_framed_fmap.
  apply in_framed_ext. intros fr bs Hin. case_bool_decide as Hfr.
  { subst fr. symmetry. apply visit_captured. by left. }
  assert (FMatchCase ∉ option_list fr ++ fs) as Hfs'.
  { rewrite elem_of_app. intros [Hx|Hx]; [|done]. destruct fr as [f|]; simpl in Hx.
    - apply list_elem_of_singleton in Hx. congruence.
    - by apply not_elem_of_nil in Hx. }
  apply placed_blocks_map.
  - intros b j Hb Hj. by eapply IH; [eapply framed_region_in|..].
  - intros t. by apply visit_case_exit_resolved.
Qed.

(** ** Raises *)

Lemma visit_raise_resolved visit label fs s t :
  FTry label ∉ fs →
  MkPlaced fs s (visit_raise visit label t) =
    visit_resolved (λ values _, visit values) (FTry label) false (MkPlaced fs s t).
Proof.
  intros Hfs. unfold visit_resolved, resolves_to, visit_raise.
  destruct t as [| | | | | | | | | | |found values| |]; simpl; rewrite ?andb_false_r; try done.
  case_bool_decide as Hl; [|done]. subst found. simpl.
  assert (existsb (names (FTry label)) fs = false) as ->; [|done].
  apply not_true_is_false. intros (f & Hf & Hn)%existsb_exists.
  apply Hfs, list_elem_of_In. destruct f; try done. simpl in Hn.
  apply bool_decide_eq_true in Hn. by subst.
Qed.

Lemma try_raises_instr_framed visit label i :
  try_raises_instr visit label i =
    map_framed (λ f bs,
      if bool_decide (f = Some (FTry label)) then bs
      else map (λ b, MkBlock (map (try_raises_instr visit label) (instrs b))
                       (visit_raise visit label (term b))) bs) i.
Proof.
  destruct i as [inner ? ? ? ? ? ?| | | | | | |]; try done. simpl.
  destruct (bool_decide_reflect (inner = label)) as [->|Hne].
  - by rewrite bool_decide_eq_true_2.
  - rewrite bool_decide_eq_false_2 by congruence. done.
Qed.

Lemma try_raises_instr_resolved visit label i fs s :
  FTry label ∉ fs →
  placed_instr fs s (try_raises_instr visit label i) =
    visit_resolved (λ values _, visit values) (FTry label) false <$> placed_instr fs s i.
Proof.
  revert fs s. induction i as [i IH] using MirInstr_nested_ind. intros fs s Hfs.
  rewrite try_raises_instr_framed, placed_instr_map, placed_instr_eq, <- in_framed_fmap.
  apply in_framed_ext. intros fr bs Hin. case_bool_decide as Hfr.
  { subst fr. symmetry. apply visit_captured. by left. }
  assert (FTry label ∉ option_list fr ++ fs) as Hfs'.
  { rewrite elem_of_app. intros [Hx|Hx]; [|done]. destruct fr as [f|]; simpl in Hx.
    - apply list_elem_of_singleton in Hx. congruence.
    - by apply not_elem_of_nil in Hx. }
  apply placed_blocks_map.
  - intros b j Hb Hj. by eapply IH; [eapply framed_region_in|..].
  - intros t. by apply visit_raise_resolved.
Qed.

(** ** What the visitors visit *)

(** C35: a loop's visitors rewrite exactly its own exits.  After
    [loop_breaks_mut] (or [loop_continues_mut]) over a loop's body, each
    [break] (or [continue]) that names this loop and no loop nested between
    them carries the visited values, with the site telling whether a [try]
    lies between; every other terminator, and the nesting, is unchanged. *)
Theorem loop_exits_visited visit label body (resume : bool) :
  terminators
    (if resume then loop_continues_mut visit body label else loop_breaks_mut visit body label) =
    visit_resolved visit (FLoop label) resume <$> terminators body.
Proof.
  unfold terminators, loop_continues_mut, loop_breaks_mut, exits_in.
  destruct resume; apply placed_blocks_map; intros.
  all: apply (exits_instr_resolved visit label _ _ []) ||
       apply (visit_loop_exit_resolved visit label _ []).
Qed.

(** A match case's visitors rewrite exactly the [match.next]s (or
    [match.complete]s) that leave that case: a nested match's cases keep
    theirs, its else region does not. *)
Theorem case_exits_visited visit body (resume : bool) :
  terminators (if resume then match_nexts_mut visit body else match_completes_mut visit body) =
    visit_resolved visit FMatchCase resume <$> terminators body.
Proof.
  unfold terminators, match_nexts_mut, match_completes_mut, case_exits_in.
  destruct resume; apply placed_blocks_map; intros;
    by (apply case_exits_instr_resolved, not_elem_of_nil) ||
       (apply visit_case_exit_resolved, not_elem_of_nil).
Qed.

(** The raises visitor rewrites exactly the raises that enter the
    handler of the [try] labelled [label] whose body it is given: a nested
    [try] with the same label keeps those of its body, not those of its
    handler and [else]. *)
Theorem try_raises_visited visit body label :
  terminators (try_raises_mut visit body label) =
    visit_resolved (λ values _, visit values) (FTry label) false <$> terminators body.
Proof.
  unfold terminators, try_raises_mut. apply placed_blocks_map; intros.
  - apply try_raises_instr_resolved, not_elem_of_nil.
  - apply visit_raise_resolved, not_elem_of_nil.
Qed.

End exits.
