(* ===== verification/ForwardWalk.v ===== *)
(** * ForwardWalk: the forward walk of the ownership checks

    The forward half of [mojito-analysis/src/analysis/region_walk.rs], which
    every forward ownership check instantiates: a scan gives the facts of a
    program point, how two meet and what an instruction does to them; the
    walk carries them through the region ops, a loop until its continue set
    is stable, and hands an observer each instruction with the facts reaching
    it.  The enclosing ops a region exit may name are frames, the innermost
    first, each collecting the states its exits carry. *)

From S2P Require Import Prelude Mir.

(** [ForwardScan], over its state type; a transfer that panics has no
    state. *)
Class ForwardScan `{MirTypes} (State : Type) := {
  join : State → State → State;
  transfer : State → MirInstr → option State;
  raise_seed : State → State;
  scan_enters : MirInstr → bool;
  #[global] state_eq_dec :: EqDecision State;
}.

(** [ForwardObserver]: a state the reports change; an instruction's may
    refuse. *)
Class ForwardObserver `{MirTypes} (State Error Observer : Type) := {
  observe_instr : Observer → State → MirInstr → outcome Error Observer;
  observe_op : Observer → State → MirInstr → Observer;
  observe_block : Observer → State → option State → MirBlock → Observer;
}.

(** A region's states per exit channel. *)
Record Flow (State : Type) := MkFlow {
  normal : option State;
  raises : option State;
  exits : option State;
}.
Arguments MkFlow {State} normal raises exits.
Arguments normal {State} f.
Arguments raises {State} f.
Arguments exits {State} f.

(** An op a region terminator leaves to, and the states joined at its two
    exits. *)
Record ScanFrame (State : Type) := MkScanFrame {
  frame_kind : RegionFrame;
  leave_set : option State;
  resume_set : option State;
}.
Arguments MkScanFrame {State} frame_kind leave_set resume_set.
Arguments frame_kind {State} s.
Arguments leave_set {State} s.
Arguments resume_set {State} s.

(** [Flow::unreachable], [Flow::falls_off] and [Frame::new]. *)
Definition unreachable {State} : Flow State := MkFlow None None None.
Definition falls_off {State} (state : State) : Flow State := MkFlow (Some state) None None.
Definition new_frame {State} (kind : RegionFrame) : ScanFrame State := MkScanFrame kind None None.

(** [region_op]. *)
Definition region_op `{MirTypes} (i : MirInstr) : bool :=
  match i with
  | ITry _ _ _ _ _ _ _ | IIf _ _ _ _ _ _ | ILoop _ _ _ _ _ | IComptimeIf _ _ _ _
  | IComptimeFor _ _ _ _ _ _ | IMatch _ _ _ _ => true
  | IComptimeAssert _ | IOp _ => false
  end.

Section forward.
Context `{MirTypes} {State Error Observer : Type}.
Context `{!ForwardScan State, !ForwardObserver State Error Observer}.

(** A walk runs on the observer, when one is given, and the frames. *)
Definition Walk (A : Type) : Type :=
  option Observer * list (ScanFrame State) →
  outcome Error (A * (option Observer * list (ScanFrame State))).

#[export] Instance walk_ret : MRet Walk := λ A a st, Ok (a, st).
#[export] Instance walk_bind : MBind Walk := λ A B f m st, '(a, st) ← m st; f a st.

(** [None::<&mut O>]: the walk observed by no one. *)
Definition dry {A} (m : Walk A) : Walk A := λ '(o, frames),
  '(a, (_, frames)) ← m (None, frames); Ok (a, (o, frames)).

Definition observed : Walk bool := λ st, Ok (bool_decide (is_Some st.1), st).

Definition report_instr (state : State) (i : MirInstr) : Walk () := λ '(o, frames),
  match o with
  | Some o => o ← observe_instr o state i; Ok ((), (Some o, frames))
  | None => Ok ((), (None, frames))
  end.

Definition report_op (state : State) (i : MirInstr) : Walk () := λ '(o, frames),
  Ok ((), ((λ o, observe_op o state i) <$> o, frames)).

Definition report_block (entry : State) (stop : option State) (b : MirBlock) : Walk () :=
  λ '(o, frames), Ok ((), ((λ o, observe_block o entry stop b) <$> o, frames)).

Definition effect (state : State) (i : MirInstr) : Walk State := λ st,
  state ← unwrap (transfer state i); Ok (state, st).

Definition push_frame (kind : RegionFrame) : Walk () := λ '(o, frames),
  Ok ((), (o, new_frame kind :: frames)).

Definition pop_frame : Walk (ScanFrame State) := λ '(o, frames),
  match frames with frame :: frames => Ok (frame, (o, frames)) | [] => Panic end.

(** [add_state]: an unreachable channel contributes nothing. *)
Definition add_state (target source : option State) : option State :=
  match target, source with
  | _, None => target
  | None, Some source => Some source
  | Some target, Some source => Some (join target source)
  end.

Definition absorb_abnormal (flow other : Flow State) : Flow State :=
  MkFlow (normal flow) (add_state (raises flow) (raises other))
    (add_state (exits flow) (exits other)).

Definition absorb (flow other : Flow State) : Flow State :=
  absorb_abnormal
    (MkFlow (add_state (normal flow) (normal other)) (raises flow) (exits flow)) other.

(** [iter_mut().rev().find(p)] and the change of what it finds. *)
Fixpoint change_first {A} (p : A → bool) (f : A → A) (l : list A) : list A :=
  match l with
  | [] => []
  | x :: l => if p x then f x :: l else x :: change_first p f l
  end.

Definition collect_exit (resume : bool) (state : State) (frame : ScanFrame State) :
    ScanFrame State :=
  if resume then
    MkScanFrame (frame_kind frame) (leave_set frame) (add_state (resume_set frame) (Some state))
  else
    MkScanFrame (frame_kind frame) (add_state (leave_set frame) (Some state)) (resume_set frame).

Definition leave_to (target : RegionFrame) (resume : bool) (state : State) : Walk () :=
  λ '(o, frames),
    Ok ((), (o, change_first (λ frame, names target (frame_kind frame))
                  (collect_exit resume state) frames)).

Definition enters (i : MirInstr) : bool := region_op i && scan_enters i.

(** The terminator of a region, reached with [state]. *)
Definition terminate (state : State) (flow : Flow State) (t : MirTerm) : Walk (Flow State) :=
  match t with
  | TTryYield _ | TYield _ | TComptimeYield _ | TElifCond _ _ =>
      mret (MkFlow (add_state (normal flow) (Some state)) (raises flow) (exits flow))
  | TReturn _ =>
      mret (MkFlow (normal flow) (raises flow) (add_state (exits flow) (Some state)))
  | TErrorReturn =>
      mret (MkFlow (normal flow) (add_state (raises flow) (Some (raise_seed state))) (exits flow))
  | TTryRaise label _ =>
      leave_to (FTry label) false (raise_seed state);; mret flow
  | TBreak _ _ | TContinue _ _ | TComptimeBreak _ | TComptimeContinue _ | TMatchComplete _
  | TMatchNext _ =>
      match region_exit t with
      | Some (target, resume) => leave_to target resume state;; mret flow
      | None => mret flow
      end
  | TUnreachable => mret flow
  end.

(** The walk of an op, with the walk of a region as an argument. *)
Section op.
Variable walk_region : option State → list MirBlock → Walk (Flow State).

Definition walk_framed (entry : State) (kind : RegionFrame) (bs : list MirBlock) :
    Walk (Flow State * ScanFrame State) :=
  push_frame kind;;
  flow ← walk_region (Some entry) bs;
  frame ← pop_frame;
  mret (flow, frame).

Fixpoint walk_elifs (rest : option State) (flow : Flow State) (elifs : list MirElif) :
    Walk (option State * Flow State) :=
  match elifs with
  | [] => mret (rest, flow)
  | elif :: elifs =>
      cond ← walk_region rest (elif_cond elif);
      arm ← walk_region (normal cond) (elif_then elif);
      walk_elifs (normal cond) (absorb (absorb_abnormal flow cond) arm) elifs
  end.

Definition walk_if (entry : State) (then_ : list MirBlock) (elifs : list MirElif)
    (orelse : list MirBlock) : Walk (Flow State) :=
  flow ← walk_region (Some entry) then_;
  '(rest, flow) ← walk_elifs (Some entry) flow elifs;
  arm ← walk_region rest orelse;
  mret (absorb flow arm).

Fixpoint walk_arms (entry : State) (flow : Flow State) (regions : list (list MirBlock)) :
    Walk (Flow State) :=
  match regions with
  | [] => mret flow
  | region :: regions =>
      arm ← walk_region (Some entry) region;
      walk_arms entry (absorb flow arm) regions
  end.

(** The dry walks of a loop's body until its continue set is stable; the
    last one's set, flow and frame. *)
Fixpoint converge (fuel : nat) (resume : State) (kind : RegionFrame) (body : list MirBlock) :
    Walk (State * Flow State * ScanFrame State) :=
  match fuel with
  | O => λ _, Diverge
  | S fuel =>
      '(flow, frame) ← dry (walk_framed resume kind body);
      match add_state (Some resume) (resume_set frame) with
      | Some next =>
          if decide (next ≠ resume) then converge fuel next kind body
          else mret (resume, flow, frame)
      | None => mret (resume, flow, frame)
      end
  end.

Definition walk_loop (fuel : nat) (entry : State) (kind : RegionFrame)
    (body : list MirBlock) : Walk (Flow State) :=
  '(resume, flow, frame) ← converge fuel entry kind body;
  watched ← observed;
  '(flow, frame) ←
    (if watched : bool then walk_framed resume kind body else mret (flow, frame));
  mret (MkFlow (leave_set frame) (raises flow) (exits flow)).

Fixpoint walk_cases (next : option State) (flow : Flow State) (cases : list MirCase) :
    Walk (option State * Flow State) :=
  match cases with
  | [] => mret (next, flow)
  | case :: cases =>
      match next with
      | None => mret (None, flow)
      | Some entry =>
          '(case_flow, frame) ← walk_framed entry FMatchCase (case_body case);
          let flow := absorb_abnormal flow case_flow in
          walk_cases (resume_set frame)
            (MkFlow (add_state (normal flow) (leave_set frame)) (raises flow) (exits flow)) cases
      end
  end.

Definition walk_match (entry : State) (cases : list MirCase) (orelse : list MirBlock) :
    Walk (Flow State) :=
  '(next, flow) ← walk_cases (Some entry) unreachable cases;
  else_flow ← walk_region next orelse;
  mret (absorb flow else_flow).

Definition walk_try (entry : State) (label : TryLabel) (body : list MirBlock)
    (handler orelse : option (list MirBlock)) : Walk (Flow State) :=
  '(body_flow, caught) ← walk_framed entry (FTry label) body;
  let flow := MkFlow None (raises body_flow) (exits body_flow) in
  flow ←
    match orelse with
    | Some orelse =>
        else_flow ← walk_region (normal body_flow) orelse;
        mret (absorb flow else_flow)
    | None => mret (MkFlow (add_state (normal flow) (normal body_flow)) (raises flow) (exits flow))
    end;
  match handler with
  | Some handler =>
      handler_flow ← walk_region (leave_set caught) handler;
      mret (absorb flow handler_flow)
  | None => mret flow
  end.

Definition walk_op (fuel : nat) (entry : State) (i : MirInstr) : Walk (Flow State) :=
  match i with
  | ITry label _ body _ handler _ orelse => walk_try entry label body handler orelse
  | IIf _ _ then_ elifs _ orelse => walk_if entry then_ elifs orelse
  | IComptimeIf _ _ arms orelse => walk_arms entry unreachable (arms ++ [orelse])
  | ILoop label _ _ _ body => walk_loop fuel entry (FLoop label) body
  | IComptimeFor _ _ _ _ body _ => walk_loop fuel entry FComptimeFor body
  | IMatch _ cases _ orelse => walk_match entry cases orelse
  | IComptimeAssert _ | IOp _ => mret (falls_off entry)
  end.

(** The instructions of a block: the state at its terminator, when it is
    reachable, and [flow] with what left on the way. *)
Fixpoint walk_instrs (fuel : nat) (current : option State) (flow : Flow State)
    (is_ : list MirInstr) : Walk (option State * Flow State) :=
  match is_ with
  | [] => mret (current, flow)
  | i :: is_ =>
      match current with
      | None => mret (None, flow)
      | Some state =>
          if enters i then
            report_op state i;;
            nested ← walk_op fuel state i;
            walk_instrs fuel (normal nested) (absorb_abnormal flow nested) is_
          else
            report_instr state i;;
            state ← effect state i;
            walk_instrs fuel (Some state) flow is_
      end
  end.

Definition walk_block (fuel : nat) (state : State) (flow : Flow State) (b : MirBlock) :
    Walk (option State * Flow State) :=
  '(current, flow) ← walk_instrs fuel (Some state) flow (instrs b);
  report_block state current b;;
  mret (current, flow).

Definition region_step (fuel : nat) (entry : option State) (bs : list MirBlock) :
    Walk (Flow State) :=
  match entry, bs with
  | None, _ => mret unreachable
  | Some entry, [] => mret (falls_off entry)
  | Some entry, b :: _ =>
      '(current, flow) ← walk_block fuel entry unreachable b;
      match current with
      | None => mret flow
      | Some state => terminate state flow (term b)
      end
  end.
End op.

(** [walk_region]; the fuel bounds the nesting of regions and the walks of
    each loop. *)
Fixpoint walk_region (fuel : nat) (entry : option State) (bs : list MirBlock) :
    Walk (Flow State) :=
  match fuel with
  | O => λ _, Diverge
  | S fuel => region_step (walk_region fuel) fuel entry bs
  end.

(** [walk_forward]: the observer as it ends, beside the flow. *)
Definition walk_forward (fuel : nat) (entry : State) (bs : list MirBlock) (o : Observer) :
    outcome Error (Flow State * option Observer) :=
  '(flow, (o, _)) ← walk_region fuel (Some entry) bs (Some o, []);
  Ok (flow, o).
End forward.
Arguments Walk : clear implicits.
Arguments Walk State Error Observer A : rename.
