(* ===== verification/ForwardSound.v ===== *)
(** * ForwardSound: what the forward walk says of a run

    A scan whose states describe the machine's, through [gamma], covers every
    run of a verified function: the state at each exit channel describes the
    machine where the run leaves by it, and an instruction the observer let
    pass does not fail in the way the observer rules out
    ([walk_forward_sound]). *)

From S2P Require Import Prelude Mir Structure Regions RegionSemantics RegionSafety ForwardWalk.

(** What a scan and its observer promise of the machine.  [gamma a c]: the
    facts [a] hold of the machine [c]; [bad]: the failures the observer rules
    out, none of them the machine's own refusals. *)
Class SoundScan `{MirTypes, Values} {Rest State Error Observer : Type}
    `{!ForwardScan State, !ForwardObserver State Error Observer}
    (exec : MirInstr → list Value → Rest → vm (list Value * Rest))
    (gamma : State → list Value * Rest → Prop) (bad : RuntimeError → Prop) : Prop := {
  gamma_join_l a b c : gamma a c → gamma (join a b) c;
  gamma_join_r a b c : gamma b c → gamma (join a b) c;
  (** the facts are not of the registers the region structure binds *)
  gamma_store a regs s targets values regs' :
    gamma a (regs, s) → store regs targets values = Ok regs' → gamma a (regs', s);
  gamma_raise a c : gamma a c → gamma (raise_seed a) c;
  gamma_transfer a a' i regs s c :
    instruction_regions i = [] → gamma a (regs, s) → exec i regs s = Ok c →
    transfer a i = Some a' → gamma a' c;
  scan_enters_all i :
    match i with IComptimeIf _ _ _ _ | IComptimeFor _ _ _ _ _ _ => True | _ =>
      region_op i = true → scan_enters i = true end;
  observed_safe o a i o' regs s e :
    instruction_regions i = [] → gamma a (regs, s) →
    observe_instr o a i = Ok o' → exec i regs s = Err e → ¬ bad e;
  bad_not_refusal w : ¬ bad (Unsupported w);
}.

Section sound.
Context `{OpChecks, Values} {Rest State Error Observer : Type}.
Context `{!ForwardScan State, !ForwardObserver State Error Observer}.
Variable exec : MirInstr → list Value → Rest → vm (list Value * Rest).
Variable gamma : State → list Value * Rest → Prop.
Variable bad : RuntimeError → Prop.
Context `{!SoundScan exec gamma bad}.
Variable function : MirFunction.
Notation Walk := (Walk State Error Observer).
Notation frames := (list (ScanFrame State)).
Notation sound_list := (sound_list function).
Notation sound_instr := (sound_instr function).
Notation sound_instrs := (sound_instrs function).
#[local] Set Default Proof Using "Type*".

(** Binding registers panics or binds them. *)
Lemma store_no_err (regs : list Value) targets values e : store regs targets values ≠ Err e.
Proof.
  revert regs values. induction targets as [|r targets IH]; intros regs [|v values]; simpl; try done.
  unfold set_at. case_match; simpl; [apply IH|done].
Qed.

Lemma read_no_err (regs : list Value) sources e : read regs sources ≠ Err e.
Proof.
  induction sources as [|r sources IH]; simpl; [done|]. unfold read_reg.
  destruct (regs !! reg r); simpl; [|done]. by destruct (read regs sources).
Qed.

(** ** Channels *)

Definition covers (o : option State) (c : list Value * Rest) : Prop :=
  match o with Some a => gamma a c | None => False end.

Lemma covers_add_l target source c : covers target c → covers (add_state target source) c.
Proof. destruct target, source; simpl; try done. apply gamma_join_l. Qed.

Lemma covers_add_r target source c : covers source c → covers (add_state target source) c.
Proof. destruct target, source; simpl; try done. apply gamma_join_r. Qed.

Lemma covers_store o regs s targets values regs' :
  covers o (regs, s) → store regs targets values = Ok regs' → covers o (regs', s).
Proof. destruct o; simpl; [|done]. apply gamma_store. Qed.

(** The channels of [o'] cover what those of [o] do. *)
Definition wider (o o' : option State) : Prop := ∀ c, covers o c → covers o' c.

Definition frame_le (f f' : ScanFrame State) : Prop :=
  frame_kind f = frame_kind f' ∧ wider (leave_set f) (leave_set f') ∧
  wider (resume_set f) (resume_set f').

Definition frames_le (fr fr' : frames) : Prop := Forall2 frame_le fr fr'.

Definition abnormal_le (f f' : Flow State) : Prop :=
  wider (raises f) (raises f') ∧ wider (exits f) (exits f').

Definition flow_le (f f' : Flow State) : Prop :=
  wider (normal f) (normal f') ∧ abnormal_le f f'.

#[local] Instance wider_preorder : PreOrder wider.
Proof. split; [by intros o c|]. intros o1 o2 o3 H12 H23 c Hc. by apply H23, H12. Qed.

#[local] Instance frame_le_preorder : PreOrder frame_le.
Proof.
  split; [by intros f|]. intros f1 f2 f3 (? & ? & ?) (? & ? & ?).
  split_and!; [congruence|by etrans..].
Qed.

#[local] Instance abnormal_le_preorder : PreOrder abnormal_le.
Proof. split; [by intros f|]. intros f1 f2 f3 [] []. split; by etrans. Qed.

#[local] Instance flow_le_preorder : PreOrder flow_le.
Proof. split; [by intros f|]. intros f1 f2 f3 [] []. split; by etrans. Qed.

Lemma wider_add_l target source : wider target (add_state target source).
Proof. intros c. apply covers_add_l. Qed.
Lemma wider_add_r target source : wider source (add_state target source).
Proof. intros c. apply covers_add_r. Qed.
Lemma wider_none o : wider None o.
Proof. by intros c []. Qed.
#[local] Hint Resolve wider_add_l wider_add_r wider_none : core.
#[local] Hint Extern 0 (wider ?o ?o) => reflexivity : core.

Lemma absorb_abnormal_l f g : flow_le f (absorb_abnormal f g).
Proof. unfold flow_le, abnormal_le. simpl. split_and!; auto. Qed.
Lemma absorb_abnormal_r f g : abnormal_le g (absorb_abnormal f g).
Proof. unfold abnormal_le. simpl. auto. Qed.
Lemma absorb_l f g : flow_le f (absorb f g).
Proof. unfold flow_le, abnormal_le. simpl. split_and!; auto. Qed.
Lemma absorb_r f g : flow_le g (absorb f g).
Proof. unfold flow_le, abnormal_le. simpl. split_and!; auto. Qed.

(** ** Exits *)

(** The channel an exit named [target] goes to; an exit no frame takes
    leaves the function, which the machine refuses. *)
Fixpoint named (fr : frames) (target : RegionFrame) (resume : bool) (c : list Value * Rest) : Prop :=
  match fr with
  | [] => True
  | f :: fr =>
      if names target (frame_kind f) then
        covers (if resume then resume_set f else leave_set f) c
      else named fr target resume c
  end.

Definition exit_covered (flow : Flow State) (fr : frames) (e : Exit) (c : list Value * Rest) : Prop :=
  match e with
  | XYield _ | XElif _ _ | XTryYield _ => covers (normal flow) c
  | XReturn _ => covers (exits flow) c
  | XErrorReturn => covers (raises flow) c
  | XLeave f resume _ => named fr f resume c
  | XRaise label _ => named fr (FTry label) false c
  end.

(** The frames a run's [break], [continue] or match exit names. *)
Definition exitable (f : RegionFrame) : Prop :=
  match f with FLoop _ | FMatchCase => True | _ => False end.

(** An exit that leaves its op for the regions around it. *)
Definition abnormal (e : Exit) : Prop :=
  match e with
  | XYield _ | XElif _ _ | XTryYield _ => False
  | XLeave f _ _ => exitable f
  | XRaise _ _ | XReturn _ | XErrorReturn => True
  end.

#[local] Instance abnormal_dec e : Decision (abnormal e).
Proof. destruct e as [| |[]| | | | ]; simpl; apply _. Defined.

Lemma named_le fr fr' target resume c :
  frames_le fr fr' → named fr target resume c → named fr' target resume c.
Proof.
  induction 1 as [|f f' fr fr' (Hk & Hl & Hr) _ IH]; simpl; [done|].
  rewrite <- Hk. destruct (names target (frame_kind f)); [|done]. destruct resume; auto.
Qed.

Lemma exit_covered_le flow flow' fr fr' e c :
  flow_le flow flow' → frames_le fr fr' → exit_covered flow fr e c → exit_covered flow' fr' e c.
Proof.
  intros (Hn & Hr & He) Hf. destruct e; simpl; try apply Hn; try apply Hr; try apply He;
    by apply named_le.
Qed.

Lemma abnormal_covered_le flow flow' fr fr' e c :
  abnormal_le flow flow' → frames_le fr fr' → abnormal e →
  exit_covered flow fr e c → exit_covered flow' fr' e c.
Proof.
  intros (Hr & He) Hf Ha. destruct e; simpl; try done; try apply Hr; try apply He;
    by apply named_le.
Qed.

Lemma frames_le_refl fr : frames_le fr fr.
Proof. induction fr; constructor; [reflexivity|done]. Qed.

(** [leave_to] only adds, and adds to the frame the exit names. *)
Lemma leave_to_le target resume state fr :
  frames_le fr (change_first (λ f, names target (frame_kind f)) (collect_exit resume state) fr).
Proof.
  induction fr as [|f fr IH]; simpl; [constructor|].
  destruct (names target (frame_kind f)); constructor; try done.
  destruct resume; unfold frame_le; simpl; split_and!; auto.
Qed.

Lemma leave_to_named target resume state c fr :
  gamma state c →
  named (change_first (λ f, names target (frame_kind f)) (collect_exit resume state) fr)
    target resume c.
Proof.
  intros Hc. induction fr as [|f fr IH]; simpl; [done|].
  destruct (names target (frame_kind f)) eqn:Hn; simpl.
  - destruct resume; simpl; rewrite Hn; by apply covers_add_r.
  - by rewrite Hn.
Qed.

(** ** Walks *)

(** [m] only adds to the frames, and [Q] holds of its result, of whether it
    is observed, and of the frames it leaves. *)
Definition walks {A} (m : Walk A) (Q : A → bool → frames → Prop) : Prop :=
  ∀ o fr a o' fr', m (o, fr) = Ok (a, (o', fr')) →
    frames_le fr fr' ∧ (is_Some o ↔ is_Some o') ∧ Q a (bool_decide (is_Some o)) fr'.

Definition stable {A} (Q : A → bool → frames → Prop) : Prop :=
  ∀ a l fr fr', frames_le fr fr' → Q a l fr → Q a l fr'.

Lemma frames_le_trans fr1 fr2 fr3 : frames_le fr1 fr2 → frames_le fr2 fr3 → frames_le fr1 fr3.
Proof. unfold frames_le. intros H12 H23. by etrans. Qed.

Lemma walks_ret {A} (a : A) (Q : A → bool → frames → Prop) :
  (∀ l fr, Q a l fr) → walks (mret a) Q.
Proof. intros HQ o fr a' o' fr' [= <- <- <-]. split_and!; [apply frames_le_refl|done|apply HQ]. Qed.

Lemma walks_bind {A B} (m : Walk A) (k : A → Walk B) Q R :
  walks m Q → stable Q → (∀ a, walks (k a) (λ b l fr, Q a l fr → R b l fr)) →
  walks (m ≫= k) R.
Proof.
  intros Hm HQ Hk o fr b o' fr' Hrun. unfold mbind, walk_bind in Hrun. bind_inv Hrun.
  destruct a as [a [o1 fr1]].
  destruct (Hm _ _ _ _ _ Hm0) as (Hle & Ho & Ha).
  destruct (Hk a _ _ _ _ _ Hrun) as (Hle' & Ho' & Hb).
  rewrite (bool_decide_ext (is_Some o1) (is_Some o)) in Hb by by rewrite Ho.
  split_and!; [by eapply frames_le_trans|by rewrite Ho|]. by apply Hb, (HQ _ _ fr1).
Qed.

Lemma walks_mono {A} (m : Walk A) Q R :
  walks m Q → (∀ a l fr, Q a l fr → R a l fr) → walks m R.
Proof.
  intros Hm HQR o fr a o' fr' Hrun. destruct (Hm _ _ _ _ _ Hrun) as (? & ? & ?).
  split_and!; auto.
Qed.

Lemma walks_dry {A} (m : Walk A) Q :
  walks m Q → walks (dry m) (λ a l fr, Q a false fr).
Proof.
  intros Hm o fr a o' fr' Hrun. unfold dry in Hrun. bind_inv Hrun.
  destruct a0 as [a0 [o1 fr1]]. simplify_eq/=.
  destruct (Hm _ _ _ _ _ Hm0) as (? & ? & ?). by split_and!.
Qed.

Lemma walks_diverge {A} Q : walks ((λ _, Diverge) : Walk A) Q.
Proof. done. Qed.

Lemma walks_report_op state i : walks (report_op state i) (λ _ _ _, True).
Proof.
  intros o fr a o' fr' [= <- <- <-]. split_and!; [apply frames_le_refl|by rewrite fmap_is_Some|done].
Qed.

Lemma walks_report_block entry stop b : walks (report_block entry stop b) (λ _ _ _, True).
Proof.
  intros o fr a o' fr' [= <- <- <-]. split_and!; [apply frames_le_refl|by rewrite fmap_is_Some|done].
Qed.

(** An observed instruction was let pass. *)
Lemma walks_report_instr state i :
  walks (report_instr state i) (λ _ l _, l = true → ∃ o o' : Observer, observe_instr o state i = Ok o').
Proof.
  intros o fr a o' fr' Hrun. destruct o as [o|]; simpl in Hrun.
  - bind_inv Hrun. simplify_eq. split_and!; [apply frames_le_refl|done|eauto].
  - simplify_eq. split_and!; [apply frames_le_refl|done|]. by rewrite bool_decide_eq_false_2.
Qed.

Lemma walks_effect state i :
  walks (effect state i) (λ state' _ _, transfer state i = Some state').
Proof.
  intros o fr a o' fr' Hrun. unfold effect in Hrun. destruct (transfer state i); simplify_eq/=.
  split_and!; [apply frames_le_refl|done..].
Qed.

Lemma walks_leave_to target resume state :
  walks (leave_to target resume state)
    (λ _ _ fr, ∀ c, gamma state c → named fr target resume c).
Proof.
  intros o fr a o' fr' [= <- <- <-]. split_and!; [apply leave_to_le|done|].
  intros c. apply leave_to_named.
Qed.

(** ** What a walk says of a region and of an op *)

(** The run of a region list, its one block. *)
Definition run_list (n : nat) (bs : list MirBlock) (regs : list Value) (s : Rest) :
    vm (Exit * list Value * Rest) :=
  match bs with
  | b :: _ => run_instrs exec n (instrs b) (term b) regs s
  | [] => Err lost_position
  end.

(** The exits that end a region for its op sit in the regions [ks] that take
    them. *)
Definition sits (ks : list RegionKind) (e : Exit) : Prop :=
  match e with
  | XYield _ => ∃ results, last ks = Some (KIfArm results)
  | XElif _ _ => ∃ then_args next_args, last ks = Some (KElifCond then_args next_args)
  | XTryYield _ =>
      (∃ label handled completes into_else,
         last ks = Some (KTryBody label handled completes into_else)) ∨
      (∃ results, last ks = Some (KTryPart results))
  | XLeave _ _ _ | XRaise _ _ | XReturn _ | XErrorReturn => abnormal e
  end.

Definition region_run (l : bool) (ks : list RegionKind) (flow : Flow State) (fr : frames)
    (r : vm (Exit * list Value * Rest)) : Prop :=
  match r with
  | Ok (e, regs, s) => sits ks e ∧ exit_covered flow fr e (regs, s)
  | Err err => l = true → ¬ bad err
  | _ => True
  end.

Definition region_covers (l : bool) (bs : list MirBlock) (entry : option State)
    (flow : Flow State) (fr : frames) : Prop :=
  ∀ ks n regs s, sound_list ks bs → covers entry (regs, s) →
    region_run l ks flow fr (run_list n bs regs s).

Definition op_run (l : bool) (flow : Flow State) (fr : frames)
    (r : vm (option Exit * list Value * Rest)) : Prop :=
  match r with
  | Ok (None, regs, s) => covers (normal flow) (regs, s)
  | Ok (Some e, regs, s) => abnormal e ∧ exit_covered flow fr e (regs, s)
  | Err err => l = true → ¬ bad err
  | _ => True
  end.

Definition op_covers (l : bool) (i : MirInstr) (entry : State) (flow : Flow State)
    (fr : frames) : Prop :=
  ∀ ks n r regs regs' s, sound_instr ks i → gamma entry (regs, s) →
    entered i regs = Ok (Some (r, regs')) → op_run l flow fr (run_op exec n i r regs' s).

Lemma region_covers_le l bs entry flow fr fr' :
  frames_le fr fr' → region_covers l bs entry flow fr → region_covers l bs entry flow fr'.
Proof.
  intros Hle Hc ks n regs s Hks Hentry. specialize (Hc ks n regs s Hks Hentry).
  destruct (run_list n bs regs s) as [[[e regs'] s']| | |]; simpl in *; try done.
  destruct Hc as [? Hc]. split; [done|]. by eapply exit_covered_le.
Qed.

Lemma region_covers_framed_le l bs entry flow frame fr fr' :
  frames_le fr fr' → region_covers l bs entry flow (frame :: fr) →
  region_covers l bs entry flow (frame :: fr').
Proof. intros Hle. apply region_covers_le. by constructor. Qed.

Lemma op_covers_le l i entry flow fr fr' :
  frames_le fr fr' → op_covers l i entry flow fr → op_covers l i entry flow fr'.
Proof.
  intros Hle Hc ks n r regs regs' s Hi Hentry He. specialize (Hc _ n _ _ _ _ Hi Hentry He).
  destruct (run_op exec n i r regs' s) as [[[[e|] regs2] s2]| | |]; simpl in *; try done.
  destruct Hc as [? Hc]. split; [done|]. by eapply exit_covered_le.
Qed.

(** ** Ops, region by region *)

(** What the op makes of the exit of its region [r], against the states [inv]
    its regions are entered with. *)
Definition routed (l : bool) (i : MirInstr) (r : RegionRef) (inv : RegionRef → option State)
    (flow : Flow State) (fr : frames) (run : vm (Exit * list Value * Rest)) : Prop :=
  match run with
  | Ok (e, regs, s) =>
      match route i r e with
      | Enter r' _ _ => covers (inv r') (regs, s)
      | Leave _ _ => covers (normal flow) (regs, s)
      | Pass => abnormal e ∧ exit_covered flow fr e (regs, s)
      | Fail_ err => ¬ bad err
      end
  | Err err => l = true → ¬ bad err
  | _ => True
  end.

Lemma op_runs l i flow fr inv :
  (∀ r bs n regs s, region i r = Some bs → covers (inv r) (regs, s) →
     routed l i r inv flow fr (run_list n bs regs s)) →
  ∀ n r regs s, covers (inv r) (regs, s) → op_run l flow fr (run_op exec n i r regs s).
Proof.
  intros Hr n. induction n as [|n IH]; intros r regs s Hc; simpl; [done|].
  destruct (region i r) as [[|b bs]|] eqn:Hreg; [by intros _; apply bad_not_refusal| |
    by intros _; apply bad_not_refusal].
  specialize (Hr r _ n regs s Hreg Hc). simpl in Hr.
  destruct (run_instrs exec n (instrs b) (term b) regs s) as [[[e regs1] s1]|err| |]; simpl in *;
    try done.
  destruct (route i r e) as [r' args values|targets values| |err]; simpl.
  - destruct (store regs1 args values) as [regs2|err| |] eqn:Hs; simpl; try done.
    + apply IH. by eapply covers_store.
    + by destruct (store_no_err _ _ _ _ Hs).
  - destruct (store regs1 targets values) as [regs2|err| |] eqn:Hs; simpl; try done.
    + by eapply covers_store.
    + by destruct (store_no_err _ _ _ _ Hs).
  - done.
  - done.
Qed.

(** ** Terminators *)

Lemma exit_of_err t regs e : exit_of t regs = Err e → ¬ bad e.
Proof.
  intros He.
  assert (∃ w, e = Unsupported w) as [w ->]; [|apply bad_not_refusal].
  destruct t as [[r|]| | | | | | | | | | | | |]; simpl in He; simplify_eq; eauto;
    try (by destruct (read_reg regs r) eqn:Hr; unfold read_reg in *; destruct (regs !! reg r));
    try (destruct (read regs _) eqn:Hr; simplify_eq/=; by apply read_no_err in Hr).
  unfold read_reg in He. destruct (regs !! reg cond); simplify_eq/=.
  destruct (read regs _) eqn:Hr; simplify_eq/=; by apply read_no_err in Hr.
Qed.

Lemma verified_sits t cx regs e :
  verify_terminator function t cx = [] → exit_of t regs = Ok e → sits (regions cx) e.
Proof.
  intros Hv He.
  assert (∀ k, kind cx = k → k ≠ KFunction → last (regions cx) = Some k) as Hkind.
  { intros k Hk Hne. unfold kind in Hk. destruct (last (regions cx)); simpl in Hk; congruence. }
  destruct t as [[r|]| | | | | | | | | | | | |]; simpl in He, Hv; simplify_eq;
    try (destruct (read_reg regs _); simplify_eq/=);
    try (destruct (read regs _); simplify_eq/=); simplify_eq; simpl; try done;
    unfold verify_region_terminator in Hv; destruct (kind cx) eqn:Hk; try done; eauto 8.
Qed.

(** An exit that reads values carries them. *)
Lemma read_exit_inv values (f : list Value → Exit) regs e :
  f <$> read regs values = Ok e → ∃ vs, e = f vs.
Proof. intros He. destruct (read regs values); simplify_eq/=. eauto. Qed.

Lemma walks_leave target resume st flow :
  walks (leave_to target resume st;; mret flow)
    (λ flow' _ fr, flow_le flow flow' ∧ ∀ c, gamma st c → named fr target resume c).
Proof.
  eapply walks_bind; [apply walks_leave_to| |].
  - intros a l fr fr' Hle HQ c Hc. by eapply named_le, HQ.
  - intros a. apply walks_ret. intros l fr HQ. by split; [reflexivity|].
Qed.

Lemma flow_le_channels (n r x n' r' x' : option State) :
  wider n n' → wider r r' → wider x x' → flow_le (MkFlow n r x) (MkFlow n' r' x').
Proof. by intros. Qed.

(** A terminator's state covers the exits it makes. *)
Lemma walks_terminate state flow t :
  walks (terminate state flow t) (λ flow' _ fr, flow_le flow flow' ∧
    ∀ e regs s, gamma state (regs, s) → exit_of t regs = Ok e →
      exit_covered flow' fr e (regs, s)).
Proof.
  destruct flow as [n r x].
  destruct t as [value|values|values|cond values|label values|label values|values|values|values
    |values|values|label values| |]; simpl;
    try (eapply walks_mono; [apply walks_leave|]; intros flow' l fr [Hle HQ]; split; [done|];
         intros e regs s Hg He; try done; apply read_exit_inv in He as [vs ->]; apply HQ;
         try apply gamma_raise; done);
    apply walks_ret; intros l fr; (split; [apply flow_le_channels; auto|]);
    intros e regs s Hg He; simplify_eq; try (apply read_exit_inv in He as [vs ->]);
    try by apply covers_add_r.
  - destruct value as [r0|]; simpl in He; [|simplify_eq/=; by apply covers_add_r].
    destruct (read_reg regs r0); simplify_eq/=. by apply covers_add_r.
  - destruct (read_reg regs cond) as [v| | |]; try done. simpl in He.
    apply read_exit_inv in He as [vs ->]. by apply covers_add_r.
  - by apply covers_add_r, gamma_raise.
Qed.

(** ** Routing the exits of a region *)

(** An exit that leaves a region no exit names passes on. *)
Lemma route_pass i r e :
  frame r = None → (∀ label, is_try_body label r = false) → abnormal e → route i r e = Pass.
Proof.
  intros Hf Ht Ha. destruct e; simpl; try done.
  - unfold is_frame. by rewrite Hf.
  - by rewrite Ht.
Qed.

(** A region that ends in an [if]'s or a [try]'s result is no frame. *)
Lemma arm_passes i r k e :
  region_kind i r = Some k → (∃ rs, k = KIfArm rs ∨ k = KTryPart rs) → abnormal e →
  route i r e = Pass.
Proof.
  intros Hk [rs Hrs] Ha. apply route_pass; [..|done]; [|intros label];
    destruct i, r; simpl in Hk |- *; try done; repeat case_match; destruct Hrs; simplify_eq.
Qed.

(** An arm of an [if] or a [match]'s else yields the results of the op. *)
Lemma arm_routed l ks i r rs inv flow flow0 fr run :
  region_kind i r = Some (KIfArm rs) → flow_le flow0 flow →
  region_run l (ks ++ [KIfArm rs]) flow0 fr run → routed l i r inv flow fr run.
Proof.
  intros Hk Hle Hrun. destruct run as [[[e regs] s]| | |]; simpl in *; try done.
  destruct Hrun as [Hs He]. destruct (decide (abnormal e)) as [Ha|Ha].
  - rewrite (arm_passes _ _ _ _ Hk) by eauto.
    split; [done|]. eapply exit_covered_le; [done|apply frames_le_refl|done].
  - destruct e as [vs|holds vs|f resume vs|vs|label vs|v|]; simpl in Hs; try (by destruct Ha);
      rewrite ?last_snoc in Hs.
    + assert (∃ targets, results i = Ok targets) as [targets Ht]
        by (destruct i, r; simplify_option_eq; eauto).
      simpl. rewrite Ht. apply Hle, He.
    + by destruct Hs as (? & ? & ?).
    + by destruct Hs as [(? & ? & ? & ? & ?)|(? & ?)].
Qed.

(** The handler or the [else] of a [try] completes the op. *)
Lemma part_routed l ks i r rs inv flow flow0 fr run :
  region_kind i r = Some (KTryPart rs) → flow_le flow0 flow →
  region_run l (ks ++ [KTryPart rs]) flow0 fr run → routed l i r inv flow fr run.
Proof.
  intros Hk Hle Hrun. destruct run as [[[e regs] s]| | |]; simpl in *; try done.
  destruct Hrun as [Hs He]. destruct (decide (abnormal e)) as [Ha|Ha].
  - rewrite (arm_passes _ _ _ _ Hk) by eauto.
    split; [done|]. eapply exit_covered_le; [done|apply frames_le_refl|done].
  - destruct e as [vs|holds vs|f resume vs|vs|label vs|v|]; simpl in Hs; try (by destruct Ha);
      rewrite ?last_snoc in Hs.
    + by destruct Hs as (? & ?).
    + by destruct Hs as (? & ? & ?).
    + assert (∃ targets, route i r (XTryYield vs) = Leave targets vs) as [targets ->]
        by (destruct i, r; simplify_option_eq; simpl; eauto).
      apply Hle, He.
Qed.

(** An [elif]'s condition enters its arm or what is tried next. *)
Lemma cond_routed l ks rs cond th es ea oe j k inv flow flow0 fr run :
  let i := IIf rs cond th es ea oe in
  region_kind i (ElifCond j) = Some k → abnormal_le flow0 flow →
  wider (normal flow0) (inv (ElifThen j)) → wider (normal flow0) (inv (ElifCond (S j))) →
  (es !! S j = None → wider (normal flow0) (inv Else)) →
  region_run l (ks ++ [k]) flow0 fr run → routed l i (ElifCond j) inv flow fr run.
Proof.
  intros i Hk Hle Hthen Hcond Helse Hrun.
  destruct run as [[[e regs] s]| | |]; simpl in *; try done.
  destruct Hrun as [Hs He]. destruct (decide (abnormal e)) as [Ha|Ha].
  - rewrite route_pass; [|done..]. split; [done|].
    eapply abnormal_covered_le; [done|apply frames_le_refl|done..].
  - destruct (es !! j) as [elif|] eqn:Hj; simplify_option_eq.
    destruct e as [vs|holds vs|f resume vs|vs|label vs|v|]; simpl in Hs; try (by destruct Ha);
      rewrite ?last_snoc in Hs.
    + by destruct Hs as (? & ?).
    + simpl. rewrite Hj. destruct holds; [by apply Hthen|].
      destruct (es !! S j) eqn:Hsj; [by apply Hcond|by apply Helse].
    + by destruct Hs as [(? & ? & ? & ? & ?)|(? & ?)].
Qed.

(** A case is left by [match.complete] for the op, by [match.next] for the
    next case. *)
Lemma case_routed l ks rs cs ea oe j k inv flow flow0 f fr run :
  let i := IMatch rs cs ea oe in
  region_kind i (Case j) = Some k → abnormal_le flow0 flow → frame_kind f = FMatchCase →
  wider (leave_set f) (normal flow) → wider (resume_set f) (inv (Case (S j))) →
  (cs !! S j = None → wider (resume_set f) (inv Else)) →
  region_run l (ks ++ [k]) flow0 (f :: fr) run → routed l i (Case j) inv flow fr run.
Proof.
  intros i Hk Hle Hf Hleave Hnext Helse Hrun.
  destruct run as [[[e regs] s]| | |]; simpl in *; try done. simplify_eq.
  destruct Hrun as [Hs He].
  destruct e as [vs|holds vs|target resume vs|vs|label vs|v|]; simpl in Hs, He;
    rewrite ?last_snoc in Hs; rewrite ?Hf in He; simpl.
  - by destruct Hs as (? & ?).
  - by destruct Hs as (? & ? & ?).
  - unfold is_frame. simpl. destruct (names target FMatchCase); simpl; [|done].
    destruct resume; [|by apply Hleave].
    destruct (cs !! S j) eqn:Hsj; [by apply Hnext|by apply Helse].
  - by destruct Hs as [(? & ? & ? & ? & ?)|(? & ?)].
  - done.
  - split; [done|]. by apply Hle.
  - split; [done|]. by apply Hle.
Qed.

(** A [try]'s body goes on to its [else] or completes the op, and raises to
    the handler. *)
Lemma body_routed l ks tl rs body ha h ea o found k inv flow flow0 f fr run :
  let i := ITry tl rs body ha h ea o in
  region_kind i (TryBody found) = Some k → abnormal_le flow0 flow → frame_kind f = FTry tl →
  (is_Some o → wider (normal flow0) (inv TryElse)) →
  (o = None → wider (normal flow0) (normal flow)) →
  wider (leave_set f) (inv TryHandler) →
  region_run l (ks ++ [k]) flow0 (f :: fr) run → routed l i (TryBody found) inv flow fr run.
Proof.
  intros i Hk Hle Hf Helse Hnone Hhandler Hrun.
  destruct run as [[[e regs] s]| | |]; simpl in *; try done.
  destruct Hrun as [Hs He]. simplify_option_eq.
  destruct e as [vs|holds vs|target resume vs|vs|label vs|v|]; simpl in Hs, He;
    rewrite ?last_snoc in Hs; rewrite ?Hf in He; simpl.
  - by destruct Hs as (? & ?).
  - by destruct Hs as (? & ? & ?).
  - split; [done|]. simpl. by destruct target.
  - destruct o; [apply Helse|apply Hnone]; eauto.
  - rewrite (bool_decide_ext (label = tl) (tl = label)) in He by done.
    case_bool_decide; simpl; [|done].
    destruct h; simpl; [by apply Hhandler|apply bad_not_refusal].
  - split; [done|]. by apply Hle.
  - split; [done|]. by apply Hle.
Qed.
(** A loop's body goes on with the states its dry walk resumed with, and
    leaves with those of the last. *)
Lemma loop_routed l ks label ops args rs body found k inv flow1 f1 flow2 f2 fr run :
  let i := ILoop label ops args rs body in
  region_kind i (Body found) = Some k →
  frame_kind f1 = FLoop label → frame_kind f2 = FLoop label →
  wider (resume_set f1) (inv (Body label)) →
  region_run false (ks ++ [k]) flow1 (f1 :: fr) run →
  region_run l (ks ++ [k]) flow2 (f2 :: fr) run →
  routed l i (Body found) inv (MkFlow (leave_set f2) (raises flow2) (exits flow2)) fr run.
Proof.
  intros i Hk Hf1 Hf2 Hresume Hrun1 Hrun2.
  destruct run as [[[e regs] s]| | |]; simpl in *; try done. simplify_option_eq.
  destruct Hrun1 as [_ He1], Hrun2 as [Hs He2].
  destruct e as [vs|holds vs|target resume vs|vs|tl vs|v|]; simpl in Hs, He1, He2;
    rewrite ?last_snoc in Hs; rewrite ?Hf1 in He1; rewrite ?Hf2 in He2; simpl.
  - by destruct Hs as (? & ?).
  - by destruct Hs as (? & ? & ?).
  - unfold is_frame. simpl. destruct (names target (FLoop label)); simpl; [|done].
    destruct resume; [by apply Hresume|done].
  - by destruct Hs as [(? & ? & ? & ? & ?)|(? & ?)].
  - done.
  - done.
  - done.
Qed.

(** ** Ops *)

(** The states [inv] cover a run of the op when the region it starts in is
    entered with one and each region is left as [routed]. *)
Lemma op_covers_routed l i entry flow fr inv :
  (∀ regs r regs' s, gamma entry (regs, s) → entered i regs = Ok (Some (r, regs')) →
     covers (inv r) (regs', s)) →
  (∀ ks r k bs n regs s, sound_list (ks ++ [k]) bs → region i r = Some bs →
     region_kind i r = Some k → covers (inv r) (regs, s) →
     routed l i r inv flow fr (run_list n bs regs s)) →
  (∀ r, is_Some (inv r) → is_Some (region i r) → is_Some (region_kind i r)) →
  op_covers l i entry flow fr.
Proof.
  intros Hentry Hr Hk ks n r regs regs' s Hi Hg He.
  apply (op_runs l i flow fr inv); [|by eapply Hentry].
  intros r' bs n' regs1 s1 Hreg Hc.
  destruct (Hk r') as [k Hk']; [by destruct (inv r'); [|done]|by rewrite Hreg|].
  eapply Hr; [by eapply sound_region|done..].
Qed.

Section op.
Variable walk : option State → list MirBlock → Walk (Flow State).
Hypothesis Hwalk : ∀ entry bs,
  walks (walk entry bs) (λ flow l fr, region_covers l bs entry flow fr).

Lemma region_covers_stable bs entry :
  stable (λ flow l fr, region_covers l bs entry flow fr).
Proof. intros flow l fr fr' Hle. by apply region_covers_le. Qed.

(** A walked region starts from a frame no exit reached, and only adds. *)
Lemma walks_framed entry kind bs :
  walks (walk_framed walk entry kind bs)
    (λ x l fr, frame_kind x.2 = kind ∧ region_covers l bs (Some entry) x.1 (x.2 :: fr)).
Proof.
  intros o fr [flow f] o' fr' Hrun. unfold walk_framed in Hrun.
  unfold mbind, walk_bind in Hrun. simpl in Hrun. bind_inv Hrun.
  destruct a as [flow1 [o1 fr1]].
  destruct (Hwalk _ _ _ _ _ _ _ Hm) as (Hle & Ho & Hc).
  inversion Hle as [|? f1 ? fr2 (Hkind & _) Hle' Hnil Heq]. subst fr1. simpl in Hrun. injection Hrun as <- <- <- <-. by split_and!.
Qed.

Lemma framed_stable bs entry kind :
  stable (λ (x : Flow State * ScanFrame State) l fr,
    frame_kind x.2 = kind ∧ region_covers l bs entry x.1 (x.2 :: fr)).
Proof.
  intros x l fr fr' Hle [? Hc]. split; [done|]. by eapply region_covers_framed_le.
Qed.

(** The conditions of an [if]'s [elif]s: [c j] enters the [j]th, and what
    its last one leaves enters the [else]. *)
Definition elifs_covered (l : bool) (flow : Flow State) (fr : frames) (es : list MirElif)
    (c : nat → option State) : Prop :=
  ∀ j e, es !! j = Some e → ∃ cond arm,
    region_covers l (elif_cond e) (c j) cond fr ∧ wider (normal cond) (c (S j)) ∧
    abnormal_le cond flow ∧
    region_covers l (elif_then e) (c (S j)) arm fr ∧ flow_le arm flow.

Lemma elifs_covered_le l flow flow' fr fr' es c :
  flow_le flow flow' → frames_le fr fr' →
  elifs_covered l flow fr es c → elifs_covered l flow' fr' es c.
Proof.
  intros [Hn Ha] Hfr Hes j e He. destruct (Hes j e He) as (cond & arm & H1' & H2' & H3' & H4' & H5').
  exists cond, arm. split_and!; [by eapply region_covers_le|done|by etrans| |by etrans; [|split]].
  by eapply region_covers_le.
Qed.

Lemma walks_elifs es : ∀ rest flow,
  walks (walk_elifs walk rest flow es) (λ x l fr, flow_le flow x.2 ∧
    ∃ c, c 0 = rest ∧ c (length es) = x.1 ∧ elifs_covered l x.2 fr es c).
Proof.
  induction es as [|e es IH]; intros rest flow; simpl.
  { apply walks_ret. intros l fr. split; [reflexivity|]. by exists (λ _, rest). }
  eapply walks_bind; [apply Hwalk|apply region_covers_stable|]. intros cond.
  eapply walks_bind; [apply Hwalk|apply region_covers_stable|]. intros arm.
  eapply walks_mono; [apply IH|]. intros [rest' flow'] l fr (Hle & c & H0' & Hc & Hes) Harm Hcond.
  simpl in *. split.
  { etrans; [|done]. etrans; [apply absorb_abnormal_l|apply absorb_l]. }
  exists (λ j, match j with 0 => rest | S j => c j end). split_and!; [done..|].
  intros [|j] e' Hj; simplify_eq/=; [|by apply Hes].
  exists cond, arm. rewrite H0'. split_and!; [done..| |done|].
  - etrans; [apply absorb_abnormal_r|]. etrans; [apply absorb_l|apply Hle].
  - by etrans; [apply absorb_r|].
Qed.

Lemma walks_if entry rs cond th es ea oe :
  walks (walk_if walk entry th es oe)
    (λ flow l fr, op_covers l (IIf rs cond th es ea oe) entry flow fr).
Proof.
  unfold walk_if. eapply walks_bind; [apply Hwalk|apply region_covers_stable|]. intros flow0.
  eapply walks_bind; [apply walks_elifs| |].
  { intros [rest flow] l fr fr' Hle (Hf & c & ? & ? & Hes). split; [done|].
    exists c. split_and!; [done..|]. by eapply elifs_covered_le; [reflexivity| |]. }
  intros [rest flow]. simpl.
  eapply walks_bind; [apply Hwalk|apply region_covers_stable|]. intros arm.
  apply walks_ret. intros l fr Harm (Hle & c & H0' & Hc & Hes) Hthen.
  assert (flow_le flow (absorb flow arm)) as Habs by apply absorb_l.
  apply op_covers_routed with (inv := λ r, match r with
    | Then => Some entry | ElifCond j => c j | ElifThen j => c (S j) | Else => c (length es)
    | _ => None end).
  - intros regs r regs' s Hg He. simpl in He. destruct (read_reg regs cond); simplify_eq/=.
    destruct (is_true _); [done|]. destruct es; simpl in *; by rewrite H0' || by rewrite Hc, H0'.
  - intros ks r k bs n regs s Hsl Hreg Hk Hcov.
    destruct r as [| |j|j| |found|j|found| |]; simplify_option_eq.
    + eapply (arm_routed _ ks) with (flow0 := flow0); [done|by etrans|]. by apply Hthen.
    + destruct (Hes j _ ltac:(done)) as (cf & af & Hcond & Hn & Ha & _).
      eapply (cond_routed _ ks) with (flow0 := cf); [|by etrans; [|apply Habs]|done..| |].
      * simpl. by simplify_option_eq.
      * intros Hj. assert (length es = S j) as -> by (by apply lookup_ge_None in Hj; apply lookup_lt_Some in Heqo; lia). done.
      * by apply Hcond.
    + destruct (Hes j _ ltac:(done)) as (cf & af & _ & _ & _ & Hthen' & Hle').
      eapply (arm_routed _ ks) with (flow0 := af); [done|by etrans|]. by apply Hthen'.
    + eapply (arm_routed _ ks) with (flow0 := arm); [done|apply absorb_r|]. by apply Harm.
  - intros r Hinv Hreg. destruct r as [| |j|j| |found|j|found| |]; simpl in *; eauto; try (by destruct Hinv).
    destruct (es !! j); simpl in *; [eauto|by destruct Hreg].
Qed.

(** The cases of a [match]: [c j] enters the [j]th, and what the last one
    goes on to enters the [else]. *)
Definition cases_covered (l : bool) (flow : Flow State) (fr : frames) (cs : list MirCase)
    (c : nat → option State) : Prop :=
  ∀ j case, cs !! j = Some case → ∃ cf f,
    frame_kind f = FMatchCase ∧ region_covers l (case_body case) (c j) cf (f :: fr) ∧
    abnormal_le cf flow ∧ wider (leave_set f) (normal flow) ∧ wider (resume_set f) (c (S j)).

Lemma cases_covered_le l flow flow' fr fr' cs c :
  flow_le flow flow' → frames_le fr fr' →
  cases_covered l flow fr cs c → cases_covered l flow' fr' cs c.
Proof.
  intros [Hn Ha] Hfr Hcs j case Hj. destruct (Hcs j case Hj) as (cf & f & Hk & Hb & Hcf & Hl & Hr).
  exists cf, f. split_and!; [done| |by etrans|by etrans|done].
  by eapply region_covers_framed_le.
Qed.

Lemma region_covers_none l bs flow fr : region_covers l bs None flow fr.
Proof. by intros ks n regs s _ Hno. Qed.

Lemma walks_cases cs : ∀ next flow,
  walks (walk_cases walk next flow cs) (λ x l fr, flow_le flow x.2 ∧
    ∃ c, c 0 = next ∧ c (length cs) = x.1 ∧ cases_covered l x.2 fr cs c).
Proof.
  induction cs as [|case cs IH]; intros next flow; simpl.
  { apply walks_ret. intros l fr. split; [reflexivity|]. by exists (λ _, next). }
  destruct next as [entry|].
  2:{ apply walks_ret. intros l fr. split; [reflexivity|]. exists (λ _, None).
      split_and!; [done..|]. intros j case' _. exists unreachable, (new_frame FMatchCase).
      split_and!; [done|apply region_covers_none|split; by intros ? []|by intros ? []..]. }
  eapply walks_bind; [apply walks_framed|apply framed_stable|]. intros [cf f]. simpl.
  eapply walks_mono; [apply IH|]. intros [next' flow'] l fr (Hle & c & H0' & Hc & Hcs) [Hk Hb].
  simpl in *. split.
  { etrans; [apply (absorb_abnormal_l _ cf)|]. etrans; [|exact Hle]. unfold absorb_abnormal. apply flow_le_channels; auto. }
  exists (λ j, match j with 0 => Some entry | S j => c j end). split_and!; [done..|].
  intros [|j] case' Hj; simplify_eq/=; [|by apply Hcs].
  destruct Hle as [Hn Ha]. exists cf, f. rewrite H0'. split_and!; [done..| | |done].
  - etrans; [apply (absorb_abnormal_r flow)|]. apply Ha.
  - etrans; [|apply Hn]. simpl. auto.
Qed.

Lemma walks_match entry rs cs ea oe :
  walks (walk_match walk entry cs oe) (λ flow l fr, op_covers l (IMatch rs cs ea oe) entry flow fr).
Proof.
  unfold walk_match. eapply walks_bind; [apply walks_cases| |].
  { intros [next flow] l fr fr' Hle (Hf & c & ? & ? & Hes). split; [done|].
    exists c. split_and!; [done..|]. by eapply cases_covered_le; [reflexivity| |]. }
  intros [next flow]. simpl.
  eapply walks_bind; [apply Hwalk|apply region_covers_stable|]. intros arm.
  apply walks_ret. intros l fr Harm (_ & c & H0' & Hc & Hcs).
  assert (flow_le flow (absorb flow arm)) as [Hn Habs] by apply absorb_l.
  apply op_covers_routed with (inv := λ r, match r with
    | Case j => c j | Else => c (length cs) | _ => None end).
  - intros regs r regs' s Hg He. simpl in He. simplify_eq/=.
    destruct cs; simpl in *; by rewrite H0' || by rewrite Hc, H0'.
  - intros ks r k bs n regs s Hsl Hreg Hk Hcov.
    destruct r as [| |j|j| |found|j|found| |]; simplify_option_eq.
    + eapply (arm_routed _ ks) with (flow0 := arm); [done|apply absorb_r|]. by apply Harm.
    + match goal with Hx : cs !! j = Some _ |- _ => rename Hx into Hj end.
      destruct (Hcs j _ Hj) as (cf & f & Hf & Hb & Ha & Hl & Hr).
      eapply (case_routed _ ks) with (flow0 := cf) (f := f);
        [simpl; by rewrite ?Hj|by etrans|done|by etrans|done| |by apply Hb].
      intros Hsj. assert (length cs = S j) as ->; [|done].
      apply lookup_ge_None in Hsj. apply lookup_lt_Some in Hj. lia.
  - intros r Hinv Hreg. destruct r as [| |j|j| |found|j|found| |]; simpl in *; eauto;
      by destruct Hinv.
Qed.

Lemma walks_arms entry regions : ∀ flow,
  walks (walk_arms walk entry flow regions) (λ _ _ _, True).
Proof.
  induction regions as [|region regions IH]; intros flow; simpl; [by apply walks_ret|].
  eapply walks_bind; [apply Hwalk|apply region_covers_stable|]. intros arm.
  by eapply walks_mono; [apply IH|].
Qed.

(** An op's optional region, absorbed where there is one. *)
Definition part_covered (l : bool) (part : option (list MirBlock)) (entry : option State)
    (flow : Flow State) (fr : frames) : Prop :=
  ∀ bs, part = Some bs → ∃ flow0, region_covers l bs entry flow0 fr ∧ flow_le flow0 flow.

Lemma part_covered_le l part entry flow flow' fr fr' :
  flow_le flow flow' → frames_le fr fr' →
  part_covered l part entry flow fr → part_covered l part entry flow' fr'.
Proof.
  intros Hf Hfr Hp bs Hbs. destruct (Hp bs Hbs) as (flow0 & Hc & Hle). exists flow0.
  split; [by eapply region_covers_le|by etrans].
Qed.

Lemma walks_part (part : option (list MirBlock)) entry flow (last : Walk (Flow State)) :
  (part = None → walks last (λ flow' _ _, flow_le flow flow')) →
  walks (match part with
    | Some bs => part_flow ← walk entry bs; mret (absorb flow part_flow)
    | None => last end)
    (λ flow' l fr, flow_le flow flow' ∧ part_covered l part entry flow' fr).
Proof.
  intros Hlast. destruct part as [bs|].
  - eapply walks_bind; [apply Hwalk|apply region_covers_stable|]. intros part_flow.
    apply walks_ret. intros l fr Hc. split; [apply absorb_l|]. intros bs' [= <-].
    exists part_flow. split; [done|apply absorb_r].
  - eapply walks_mono; [by apply Hlast|]. by intros flow' l fr Hle.
Qed.

Lemma walks_try entry tl rs body ha h ea o :
  walks (walk_try walk entry tl body h o)
    (λ flow l fr, op_covers l (ITry tl rs body ha h ea o) entry flow fr).
Proof.
  unfold walk_try. eapply walks_bind; [apply walks_framed|apply framed_stable|].
  intros [bf f]. cbn [fst snd].
  set (flow1 := MkFlow None (raises bf) (exits bf)).
  apply walks_bind with (Q := λ flow l fr, (flow_le flow1 flow ∧
      (o = None → wider (normal bf) (normal flow))) ∧ part_covered l o (normal bf) flow fr).
  { destruct o as [orelse|].
    - eapply walks_mono; [by apply (walks_part (Some orelse) _ flow1 (mret flow1))|].
      by intros flow l fr [].
    - apply walks_ret. intros l fr. split_and!; [|by intros _ c Hc; apply covers_add_r|done].
      by apply flow_le_channels; simpl; auto. }
  { intros flow l fr fr' Hle [Hf Hp]. split; [done|]. by eapply part_covered_le; [reflexivity| |]. }
  intros flow2. eapply walks_mono.
  { apply (walks_part h (leave_set f) flow2 (mret flow2)). intros _. by apply walks_ret. }
  intros flow l fr [Hle Hh] [[Hle1 Hnone] Ho] [Hk Hb]. simpl in *.
  assert (abnormal_le bf flow) as Ha by (etrans; [|apply Hle]; etrans; [|apply Hle1]; by split).
  apply op_covers_routed with (inv := λ r, match r with
    | TryBody found => if decide (found = tl) then Some entry else None
    | TryElse => normal bf | TryHandler => leave_set f | _ => None end).
  - intros regs r regs' s Hg He. simpl in He. simplify_eq/=. by rewrite decide_True.
  - intros ks r k bs n regs s Hsl Hreg Hk' Hcov.
    destruct r as [| |j|j| |found|j|found| |]; simpl in Hreg; try done.
    + assert (found = tl) as -> by (simpl in Hk'; by simplify_option_eq).
      simplify_eq. eapply (body_routed _ ks) with (flow0 := bf) (f := f); try done.
      * intros Hn. etrans; [by apply Hnone|apply Hle].
      * apply Hb; [done|]. by simplify_option_eq.
    + destruct (Hh bs Hreg) as (hf & Hc & Hhf). simpl in Hk'. simplify_eq.
      eapply (part_routed _ ks) with (flow0 := hf); [done..|]. by apply Hc.
    + destruct (Ho bs Hreg) as (ef & Hc & Hef). simpl in Hk'. simplify_eq.
      eapply (part_routed _ ks) with (flow0 := ef); [done|by etrans|]. by apply Hc.
  - intros r Hinv Hreg. destruct r as [| |j|j| |found|j|found| |]; simpl in *; eauto;
      try (by destruct Hinv). case_decide; [eauto|by destruct Hinv].
Qed.

(** The dry walks end with a state its own continue set adds nothing to. *)
Lemma walks_converge fuel kind body : ∀ resume,
  walks (converge walk fuel resume kind body) (λ x l fr,
    wider (Some resume) (Some x.1.1) ∧ frame_kind x.2 = kind ∧
    region_covers false body (Some x.1.1) x.1.2 (x.2 :: fr) ∧
    wider (resume_set x.2) (Some x.1.1)).
Proof.
  induction fuel as [|fuel IH]; intros resume; cbn [converge]; [done|].
  eapply walks_bind; [apply walks_dry, walks_framed| |].
  { intros x l fr fr' Hle [? Hc]. split; [done|]. by eapply region_covers_framed_le. }
  intros [flow f]. cbn [fst snd].
  destruct (add_state (Some resume) (resume_set f)) as [next|] eqn:Hnext; [|by destruct (resume_set f)].
  assert (wider (Some resume) (Some next)) as Hl by (rewrite <- Hnext; auto).
  assert (wider (resume_set f) (Some next)) as Hr by (rewrite <- Hnext; auto).
  case_decide as Hd.
  - eapply walks_mono; [apply IH|]. intros x l fr (? & ? & ? & ?) _. split_and!; try done.
    by etrans.
  - subst next. apply walks_ret. by intros l fr [].
Qed.

Lemma walks_loop fuel entry kind body :
  walks (walk_loop walk fuel entry kind body) (λ flow l fr, ∃ resume flow1 f1 flow2 f2,
    wider (Some entry) (Some resume) ∧
    (frame_kind f1 = kind ∧ wider (resume_set f1) (Some resume)) ∧
    region_covers false body (Some resume) flow1 (f1 :: fr) ∧
    frame_kind f2 = kind ∧ region_covers l body (Some resume) flow2 (f2 :: fr) ∧
    flow = MkFlow (leave_set f2) (raises flow2) (exits flow2)).
Proof.
  unfold walk_loop. eapply walks_bind; [apply walks_converge| |].
  { intros x l fr fr' Hle (? & ? & Hc & ?). split_and!; try done.
    by eapply region_covers_framed_le. }
  intros [[resume flow1] f1]. cbn [fst snd].
  apply walks_bind with (Q := λ watched l _, watched = l).
  { intros o fr a o' fr' [= <- <- <-]. split_and!; [apply frames_le_refl|done..]. }
  { by intros ?. }
  intros watched. apply walks_bind with (Q := λ x l fr,
    (l = true → watched = true → frame_kind x.2 = kind ∧
       region_covers l body (Some resume) x.1 (x.2 :: fr)) ∧
    (watched = false → x = (flow1, f1))).
  - destruct watched; [eapply walks_mono; [apply walks_framed|]; by intros x l fr ?|].
    by apply walks_ret.
  - intros x l fr fr' Hle [Hw Hd]. split; [|done]. intros -> ->. destruct (Hw eq_refl eq_refl).
    split; [done|]. by eapply region_covers_framed_le.
  - intros [flow2 f2]. apply walks_ret. intros l fr [Hw Hd] -> (Hle & Hk & Hc & Hr).
    simpl in *. exists resume, flow1, f1, flow2, f2.
    destruct l; [destruct (Hw eq_refl eq_refl)|specialize (Hd eq_refl); simplify_eq]; by split_and!.
Qed.

Lemma walks_op fuel entry i :
  walks (walk_op walk fuel entry i) (λ flow l fr, op_covers l i entry flow fr).
Proof.
  destruct i as [tl rs body ha h ea o|rs cond th es ea oe|label ops args rs body
    |arms oe| | |rs cs ea oe| ]; cbn [walk_op].
  - apply walks_try.
  - apply walks_if.
  - eapply walks_mono; [apply walks_loop|].
    intros flow l fr (resume & flow1 & f1 & flow2 & f2 & Hle & (Hk1 & Hr) & Hc1 & Hk2 & Hc2 & ->).
    apply op_covers_routed with (inv := λ r, match r with
      | Body found => if decide (found = label) then Some resume else None | _ => None end).
    + intros regs r regs' s Hg He. simpl in He. bind_inv He. bind_inv He. simplify_eq.
      rewrite decide_True by done. apply Hle. by eapply covers_store.
    + intros ks r k bs n regs s Hsl Hreg Hk Hcov.
      destruct r as [| |j|j| |found|j|found| |]; simpl in Hreg; try done. simplify_eq.
      assert (found = label) as -> by (simpl in Hk; by simplify_option_eq).
      rewrite decide_True in Hcov by done.
      apply (loop_routed l ks label ops args rs bs label k _ flow1 f1 flow2 f2); try done.
      * by rewrite decide_True.
      * by apply Hc1.
      * by apply Hc2.
    + intros r Hinv Hreg. destruct r as [| |j|j| |found|j|found| |]; simpl in *;
        try (by destruct Hinv). case_decide; [eauto|by destruct Hinv].
  - eapply walks_mono; [apply walks_arms|]. by intros flow l fr _ ks n r regs regs' s.
  - eapply walks_mono; [apply walks_loop|]. by intros flow l fr _ ks n r regs regs' s.
  - apply walks_ret. by intros l fr ks n r regs regs' s.
  - apply walks_match.
  - apply walks_ret. by intros l fr ks n r regs regs' s.
Qed.

(** ** Blocks *)

Lemma entered_no_err i regs e : entered i regs ≠ Err e.
Proof.
  destruct i as [| |label ops args rs body| | | | | ]; simpl; try done.
  - unfold read_reg. by destruct (regs !! _).
  - destruct (read regs ops) as [vs|err| |] eqn:Hr; simpl; try done.
    + destruct (store regs args vs) eqn:Hs; simpl; try done. by apply store_no_err in Hs.
    + by apply read_no_err in Hr.
Qed.

(** In a concrete function the machine enters the ops the walk does. *)
Lemma entered_enters ks i regs :
  sound_instr ks i →
  match entered i regs with
  | Ok None => enters i = false ∧ instruction_regions i = []
  | Ok (Some _) => enters i = true
  | _ => True
  end.
Proof.
  intros (_ & (bi & Hc) & _). pose proof (scan_enters_all i) as Hs. unfold enters.
  destruct i; simpl in *; try done; try (by rewrite Hs).
  - destruct (read_reg _ _); simpl; [|done..]. by rewrite Hs.
  - destruct (read _ _) as [vs| | |]; simpl; [|done..].
    destruct (store _ _ _); simpl; [|done..]. by rewrite Hs.
Qed.

(** What a walk says of the rest of a block: the run leaves it by an exit the
    flow covers, or reaches its terminator in the state the walk does. *)
Definition rest_run (l : bool) (flow : Flow State) (fr : frames) (current : option State)
    (t : MirTerm) (r : vm (Exit * list Value * Rest)) : Prop :=
  match r with
  | Ok (e, regs, s) =>
      abnormal e ∧ exit_covered flow fr e (regs, s) ∨
      covers current (regs, s) ∧ exit_of t regs = Ok e
  | Err err => l = true → ¬ bad err
  | _ => True
  end.

Definition rest_covers (l : bool) (is_ : list MirInstr) (entry current : option State)
    (flow : Flow State) (fr : frames) : Prop :=
  ∀ ks n t regs s, sound_instrs ks is_ → covers entry (regs, s) →
    rest_run l flow fr current t (run_instrs exec n is_ t regs s).

Lemma rest_covers_le l is_ entry current flow fr fr' :
  frames_le fr fr' → rest_covers l is_ entry current flow fr →
  rest_covers l is_ entry current flow fr'.
Proof.
  intros Hle Hc ks n t regs s His He. specialize (Hc ks n t regs s His He).
  destruct (run_instrs _ _ _ _ _ _) as [[[e regs1] s1]| | |]; simpl in *; try done.
  destruct Hc as [[Ha Hc]|Hc]; [left|by right]. split; [done|].
  by eapply exit_covered_le; [reflexivity| |].
Qed.

Lemma rest_covers_stable is_ entry :
  stable (λ x l fr, rest_covers l is_ entry x.1 x.2 fr).
Proof. intros x l fr fr' Hle. by apply rest_covers_le. Qed.

(** What covers the rest of a block goes on covering it as the flow grows. *)
Lemma rest_run_le l flow flow' fr current t r :
  abnormal_le flow flow' → rest_run l flow fr current t r → rest_run l flow' fr current t r.
Proof.
  intros Hle. destruct r as [[[e regs] s]| | |]; simpl; try done.
  intros [[Ha Hc]|Hc]; [left|by right]. split; [done|].
  by eapply abnormal_covered_le; [|apply frames_le_refl|..].
Qed.

Lemma walks_instrs fuel is_ : ∀ current flow,
  walks (walk_instrs walk fuel current flow is_)
    (λ x l fr, flow_le flow x.2 ∧ rest_covers l is_ current x.1 x.2 fr).
Proof.
  induction is_ as [|i is_ IH]; intros current flow; cbn [walk_instrs].
  { apply walks_ret. intros l fr. split; [done|]. intros ks n t regs s _ Hc.
    destruct n as [|n]; simpl; [done|].
    destruct (exit_of t regs) eqn:He; simpl; try done; [by right|].
    intros _. by eapply exit_of_err. }
  destruct current as [state|].
  2:{ apply walks_ret. intros l fr. split; [done|]. by intros ks n t regs s _ Hno. }
  destruct (enters i) eqn:Hen.
  - eapply walks_bind; [apply walks_report_op|done|]. intros [].
    eapply walks_bind; [apply walks_op|intros f l fr fr' Hle; by apply op_covers_le|].
    intros nested. eapply walks_mono; [apply IH|]. intros [current flow'] l fr [Hle Hrest] Hop _.
    cbn [fst snd] in *. split; [etrans; [apply absorb_abnormal_l|done]|].
    intros ks n t regs s [Hi His]%sound_instrs_cons Hc. destruct n as [|n]; simpl; [done|].
    pose proof (entered_enters ks i regs Hi) as Hent.
    destruct (entered i regs) as [[[r regs']|]|err| |] eqn:He; simpl; try done.
    + specialize (Hop _ n _ _ _ _ Hi Hc He).
      destruct (run_op exec n i r regs' s) as [[[[e|] regs2] s2]|err| |]; simpl in Hop |- *;
        try done.
      * left. destruct Hop as [Ha Hcov]. split; [done|].
        eapply abnormal_covered_le; [|apply frames_le_refl|done|done].
        etrans; [apply (absorb_abnormal_r flow)|apply Hle].
      * by apply (Hrest ks).
    + destruct Hent. congruence.
    + by destruct (entered_no_err _ _ _ He).
  - eapply walks_bind; [apply walks_report_instr|by intros ?????|]. intros [].
    eapply walks_bind; [apply walks_effect|by intros ?????|]. intros state'.
    eapply walks_mono; [apply IH|]. intros [current flow'] l fr [Hle Hrest] Htr Hobs.
    cbn [fst snd] in *. split; [done|].
    intros ks n t regs s [Hi His]%sound_instrs_cons Hc. destruct n as [|n]; simpl; [done|].
    pose proof (entered_enters ks i regs Hi) as Hent.
    destruct (entered i regs) as [[[r regs']|]|err| |] eqn:He; simpl; try done.
    + congruence.
    + destruct Hent as [_ Hno].
      destruct (exec i regs s) as [[regs2 s2]|err| |] eqn:Hex; simpl; try done.
      * apply (Hrest ks); [done|]. simpl in *; by eapply (gamma_transfer state).
      * intros [o' [o'' Ho]]%Hobs. by eapply observed_safe.
    + by destruct (entered_no_err _ _ _ He).
Qed.

(** One region: its block, then the terminator its run reaches. *)
Lemma walks_region_step fuel entry bs :
  walks (region_step walk fuel entry bs) (λ flow l fr, region_covers l bs entry flow fr).
Proof.
  destruct entry as [entry|]; [|apply walks_ret; intros; apply region_covers_none].
  destruct bs as [|b bs]; simpl.
  { apply walks_ret. intros l fr ks n regs s Hs. exfalso.
    by apply sound_list_block in Hs as (? & ? & ? & _). }
  apply walks_bind with (Q := λ x l fr, rest_covers l (instrs b) (Some entry) x.1 x.2 fr);
    [|apply rest_covers_stable|].
  { unfold walk_block. eapply walks_bind; [apply walks_instrs| |].
    { intros x l fr fr' Hle [? Hc]. split; [done|]. by eapply rest_covers_stable. }
    intros [current flow]. eapply walks_bind; [apply walks_report_block|done|]. intros [].
    apply walks_ret. by intros l fr _ []. }
  intros [current flow]. cbn [fst snd].
  assert (∀ flow' l fr,
    (flow_le flow flow' ∧ ∀ e regs s, covers current (regs, s) → exit_of (term b) regs = Ok e →
      exit_covered flow' fr e (regs, s)) →
    rest_covers l (instrs b) (Some entry) current flow fr →
    region_covers l (b :: bs) (Some entry) flow' fr) as Hreg.
  { intros flow' l fr [Hle Ht] Hrest ks n regs s Hs Hc.
    destruct (sound_list_block _ _ _ Hs) as (b' & cx & Hb & <- & His & Hv & _). simplify_eq.
    specialize (Hrest _ n (term b') regs s His Hc). simpl.
    destruct (run_instrs exec n (instrs b') (term b') regs s) as [[[e regs1] s1]|err| |];
      simpl in *; try done.
    destruct Hrest as [[Ha He]|[Hcov He]].
    - split; [by destruct e|]. by eapply exit_covered_le; [|apply frames_le_refl|].
    - split; [by eapply verified_sits|by apply Ht]. }
  destruct current as [state|].
  - eapply walks_mono; [apply walks_terminate|]. intros flow' l fr Ht Hrest. by apply (Hreg _ _ _ Ht).
  - apply walks_ret. intros l fr Hrest. by apply (Hreg flow).
Qed.
End op.

Lemma walks_region fuel : ∀ entry bs,
  walks (walk_region fuel entry bs) (λ flow l fr, region_covers l bs entry flow fr).
Proof.
  induction fuel as [|fuel IH]; intros entry bs; cbn [walk_region]; [done|].
  by apply walks_region_step.
Qed.

(** What [walk_forward] says of a run of the whole function. *)
Definition forward_run (flow : Flow State) (r : vm (Ending * list Value * Rest)) : Prop :=
  match r with
  | Ok (Returned _, regs, s) => covers (exits flow) (regs, s)
  | Ok (ErrorReturned, regs, s) => covers (raises flow) (regs, s)
  | Err err => ¬ bad err
  | Panic | Diverge => True
  end.

(** An exit no op took ends the function as the flow's channels say. *)
Lemma finish_run flow e regs s :
  exit_covered flow [] e (regs, s) → forward_run flow (finish e regs s).
Proof.
  destruct e; simpl; try done; intros _; try apply bad_not_refusal.
Qed.

(** C6: the forward ownership walk is sound.  Where a scan's states describe
    the machine's as [SoundScan] asks, the flow [walk_forward] computes for a
    verified concrete function covers every run of the region cursor from a
    state the entry facts describe: where the run returns, the machine is as
    the facts at the function's [exits] say, where it raises as those at its
    [raises] do, and it never fails in the way the observer let every
    instruction pass as free of; however often its loops go round, and
    whichever op its breaks, continues, match exits and raises name. *)
Theorem walk_forward_sound fuel entry o flow o' :
  verify_concrete_function function = [] →
  terminators_in_range function (nested_terminators (blocks function)) →
  walk_forward fuel entry (blocks function) o = Ok (flow, o') →
  ∀ n regs s, gamma entry (regs, s) →
    forward_run flow (drive exec n (blocks function) (MkFrame cursor_default regs s)).
Proof.
  intros Hv Ht Hwalk n regs s Hg. unfold walk_forward in Hwalk. bind_inv Hwalk.
  destruct a as [flow1 [o1 fr1]]. simplify_eq.
  destruct (walks_region _ _ _ _ _ _ _ _ Hm) as (Hfr & _ & Hc). inversion Hfr; subst fr1.
  rewrite bool_decide_eq_true_2 in Hc by eauto.
  destruct (diverges_dec (drive exec n (blocks function) (MkFrame cursor_default regs s)))
    as [->|Hd]; [done|]. rewrite <- drive_run by done.
  pose proof (verified_body function (conj Hv Ht)) as Hb.
  specialize (Hc _ (2 * n) regs s Hb Hg).
  destruct (sound_list_block _ _ _ Hb) as (b & cx & Hbs & _). rewrite Hbs in Hc |- *. simpl in *.
  destruct (run_instrs exec _ (instrs b) (term b) regs s) as [[[e regs1] s1]|err| |];
    simpl in *; try done.
  - apply finish_run, Hc.
  - by apply Hc.
Qed.
End sound.
