(* ===== verification/ForwardEnds.v ===== *)
(** * ForwardEnds: the forward walk reaches its fixpoint

    The dry walks of a loop go on while its continue set changes the state
    they start from.  Where no state can be joined to for ever, each loop
    settles, and with its loops the walk: some fuel is enough, and more
    changes nothing ([walk_forward_ends]). *)

From S2P Require Import Prelude Mir ForwardWalk.

Section ends.
Context `{MirTypes} {State Error Observer : Type}.
Context `{!ForwardScan State, !ForwardObserver State Error Observer}.
Notation Walk := (Walk State Error Observer).

(** The states a walk may meet, and the instructions it may: those of the
    body, whose effects stay among these states. *)
Variable inside : State → Prop.
Variable known : MirInstr → Prop.

(** [next] is another state, joined from [resume]. *)
Definition widens (next resume : State) : Prop :=
  inside next ∧ inside resume ∧ next ≠ resume ∧ ∃ other, inside other ∧ next = join resume other.

(** Every instruction of [i]'s tree is known. *)
Inductive deep_known : MirInstr → Prop :=
| DeepKnown i :
    known i →
    (∀ bs b j, bs ∈ instruction_regions i → b ∈ bs → j ∈ instrs b → deep_known j) →
    deep_known i.

Definition body_known (bs : list MirBlock) : Prop :=
  ∀ b i, b ∈ bs → i ∈ instrs b → deep_known i.

Lemma deep_known_known i : deep_known i → known i.
Proof. by destruct 1. Qed.

Lemma all_known : (∀ i, known i) → ∀ bs, body_known bs.
Proof.
  intros Hall bs b i _ _. induction i as [i IH] using MirInstr_nested_ind. by constructor.
Qed.

Hypothesis widens_wf : well_founded widens.
Hypothesis inside_join : ∀ a b, inside a → inside b → inside (join a b).
Hypothesis inside_raise : ∀ a, inside a → inside (raise_seed a).
Hypothesis inside_transfer : ∀ a i a',
  known i → inside a → transfer a i = Some a' → inside a'.
Hypothesis observe_ends : ∀ (o : Observer) a i, observe_instr (Error := Error) o a i ≠ Diverge.
#[local] Set Default Proof Using "Type*".

Definition all_in (o : option State) : Prop := ∀ a, o = Some a → inside a.
Definition flow_in (f : Flow State) : Prop :=
  all_in (normal f) ∧ all_in (raises f) ∧ all_in (exits f).
Definition frame_in (f : ScanFrame State) : Prop :=
  all_in (leave_set f) ∧ all_in (resume_set f).
Definition frames_in (st : option Observer * list (ScanFrame State)) : Prop :=
  Forall frame_in st.2.

Lemma all_in_none : all_in None.
Proof. by intros a. Qed.
Lemma all_in_some a : inside a → all_in (Some a).
Proof. by intros Ha b [= <-]. Qed.
Lemma all_in_add o o' : all_in o → all_in o' → all_in (add_state o o').
Proof.
  destruct o as [a|], o' as [b|]; simpl; try done.
  intros Ha Hb. apply all_in_some, inside_join; [by apply Ha|by apply Hb].
Qed.
#[local] Hint Resolve all_in_none all_in_some all_in_add : core.

Lemma absorb_in f g : flow_in f → flow_in g → flow_in (absorb f g).
Proof. intros (? & ? & ?) (? & ? & ?). split_and!; simpl; auto. Qed.
Lemma absorb_abnormal_in f g : flow_in f → flow_in g → flow_in (absorb_abnormal f g).
Proof. intros (? & ? & ?) (? & ? & ?). split_and!; simpl; auto. Qed.
Lemma channels_in n r x : all_in n → all_in r → all_in x → flow_in (MkFlow n r x).
Proof. by intros. Qed.
#[local] Hint Resolve absorb_in absorb_abnormal_in channels_in : core.

Lemma collect_in resume a f : inside a → frame_in f → frame_in (collect_exit resume a f).
Proof. intros Ha [? ?]. destruct resume; split; simpl; auto. Qed.

Lemma change_first_in p f (fr : list (ScanFrame State)) :
  (∀ x, frame_in x → frame_in (f x)) → Forall frame_in fr → Forall frame_in (change_first p f fr).
Proof.
  intros Hf. induction 1 as [|x fr Hx Hfr IH]; simpl; [done|].
  destruct (p x); constructor; auto.
Qed.

(** Enough fuel gives a result, and more fuel the same; a result, of whatever
    fuel, is among the states. *)
Definition settles {A} (m : nat → Walk A) (Q : A → Prop) : Prop :=
  ∀ st, frames_in st →
    (∃ N r, r ≠ Diverge ∧ ∀ fuel, N ≤ fuel → m fuel st = r) ∧
    ∀ fuel a st', m fuel st = Ok (a, st') → Q a ∧ frames_in st'.

Lemma settles_const {A} (m : Walk A) (Q : A → Prop) :
  (∀ st, frames_in st → m st ≠ Diverge ∧ ∀ a st', m st = Ok (a, st') → Q a ∧ frames_in st') →
  settles (λ _, m) Q.
Proof. intros Hm st Hst. destruct (Hm st Hst). split; [by exists 0, (m st)|by intros _]. Qed.

Lemma settles_ret {A} (a : A) (Q : A → Prop) : Q a → settles (λ _, mret a) Q.
Proof. intros Ha. apply settles_const. intros st Hst. split; [done|]. by intros ? ? [= <- <-]. Qed.

Lemma settles_bind {A B} (m : nat → Walk A) (k : nat → A → Walk B) P Q :
  settles m P → (∀ a, P a → settles (λ fuel, k fuel a) Q) →
  settles (λ fuel, m fuel ≫= k fuel) Q.
Proof.
  intros Hm Hk st Hst. destruct (Hm st Hst) as [(N & r & Hr & Hf) HP]. split.
  - destruct r as [[a st']|e| |]; [| | |done].
    + destruct (HP N a st' (Hf N (le_n N))) as [Ha Hst'].
      destruct (Hk a Ha st' Hst') as [(N' & r' & Hr' & Hk') _].
      exists (N `max` N'), r'. split; [done|].
      intros fuel Hle. unfold mbind, walk_bind. rewrite Hf by lia. simpl. apply Hk'. lia.
    + exists N, (Err e). split; [done|].
      intros fuel Hle. unfold mbind, walk_bind. by rewrite Hf.
    + exists N, Panic. split; [done|].
      intros fuel Hle. unfold mbind, walk_bind. by rewrite Hf.
  - intros fuel b st' Hb. unfold mbind, walk_bind in Hb. bind_inv Hb. destruct a as [a st1].
    destruct (HP _ _ _ Hm0) as [Ha Hst1]. by eapply (Hk a Ha st1 Hst1).
Qed.

Ltac settle_bind P := apply (settles_bind (λ _, _) (λ _ _, _) P).

Lemma settles_dry {A} (m : nat → Walk A) Q : settles m Q → settles (λ fuel, dry (m fuel)) Q.
Proof.
  intros Hm [o fr] Hst. destruct (Hm (None, fr) Hst) as [(N & r & Hr & Hf) HQ]. split.
  - exists N, ('(a, (_, fr)) ← r; Ok (a, (o, fr))). split; [by destruct r as [[? []]| | |]|].
    intros fuel Hle. unfold dry. by rewrite Hf.
  - intros fuel a st' Ha. unfold dry in Ha. bind_inv Ha. destruct a0 as [a' [o' fr']].
    simplify_eq/=. by apply (HQ fuel a (o', fr')).
Qed.

(** A loop or a region that takes a step of fuel before what settles. *)
Lemma settles_after {A} d (m m' : nat → Walk A) Q :
  (∀ fuel, d < fuel → m' fuel = m fuel) → (∀ fuel st, fuel ≤ d → m' fuel st = Diverge) →
  settles m Q → settles m' Q.
Proof.
  intros Hm' Hd Hm st Hst. destruct (Hm st Hst) as [(N & r & Hr & Hf) HQ]. split.
  - exists (N + S d), r. split; [done|]. intros fuel Hle. rewrite Hm' by lia. apply Hf. lia.
  - intros fuel a st' Ha. destruct (le_lt_dec fuel d) as [Hle|Hlt]; [by rewrite Hd in Ha|].
    rewrite Hm' in Ha by done. by eapply HQ.
Qed.

Lemma settles_S {A} (m m' : nat → Walk A) Q :
  (∀ fuel, m' (S fuel) = m fuel) → (∀ st, m' 0 st = Diverge) → settles m Q → settles m' Q.
Proof.
  intros Hm' Hz Hm st Hst. destruct (Hm st Hst) as [(N & r & Hr & Hf) HQ]. split.
  - exists (S N), r. split; [done|]. intros [|fuel] Hle; [lia|]. rewrite Hm'. apply Hf. lia.
  - intros [|fuel] a st' Ha; [by rewrite Hz in Ha|]. rewrite Hm' in Ha. by eapply HQ.
Qed.

Lemma settles_ext {A} (m m' : nat → Walk A) Q :
  (∀ fuel, m' fuel = m fuel) → settles m Q → settles m' Q.
Proof.
  intros Hm' Hm st Hst. destruct (Hm st Hst) as [(N & r & Hr & Hf) HQ]. split.
  - exists N, r. split; [done|]. intros fuel Hle. rewrite Hm'. by apply Hf.
  - intros fuel a st' Ha. rewrite Hm' in Ha. by eapply HQ.
Qed.

Lemma settles_report_instr (state : State) i : settles (λ _, report_instr state i) (λ _, True).
Proof.
  apply settles_const. intros [[o|] fr] Hst; simpl; [|split; [done|]; by intros ? ? [= <- <-]].
  pose proof (observe_ends o state i). destruct (observe_instr o state i); simpl; try done.
  split; [done|]. by intros ? ? [= <- <-].
Qed.

Lemma settles_report_op (state : State) i : settles (λ _, report_op state i) (λ _, True).
Proof. apply settles_const. intros [o fr] Hst. split; [done|]. by intros ? ? [= <- <-]. Qed.

Lemma settles_report_block (state : State) stop b :
  settles (λ _, report_block state stop b) (λ _, True).
Proof. apply settles_const. intros [o fr] Hst. split; [done|]. by intros ? ? [= <- <-]. Qed.

Lemma settles_effect (state : State) i :
  known i → inside state → settles (λ _, effect state i) inside.
Proof.
  intros Hi Hs. apply settles_const. intros st Hst. unfold effect.
  destruct (transfer state i) eqn:Ht; simpl; [|done].
  split; [done|]. intros ? ? [= <- <-]. split; [by eapply inside_transfer|done].
Qed.

Lemma settles_leave_to target resume (state : State) :
  inside state → settles (λ _, leave_to target resume state) (λ _, True).
Proof.
  intros Hs. apply settles_const. intros [o fr] Hst. split; [done|]. intros ? ? [= <- <-].
  split; [done|]. apply change_first_in; [|done]. intros. by apply collect_in.
Qed.

Lemma settles_push kind : settles (λ _, push_frame kind : Walk ()) (λ _, True).
Proof.
  apply settles_const. intros [o fr] Hst. split; [done|]. intros ? ? [= <- <-].
  split; [done|]. by constructor.
Qed.

Lemma settles_pop : settles (λ _, pop_frame : Walk (ScanFrame State)) frame_in.
Proof.
  apply settles_const. intros [o [|f fr]] Hst; [done|]. split; [done|]. intros ? ? [= <- <-].
  by inversion Hst.
Qed.

Lemma settles_terminate (state : State) flow t :
  inside state → flow_in flow → settles (λ _, terminate state flow t) flow_in.
Proof.
  intros Hs (? & ? & ?). destruct flow as [n r x].
  destruct t; simpl; try (apply settles_ret; auto 10);
    (settle_bind (λ _ : (), True); [by apply settles_leave_to; auto|intros; apply settles_ret; auto]).
Qed.

(** ** Ops, over regions whose walks settle *)

Section op.
Variable walk : nat → option State → list MirBlock → Walk (Flow State).

(** The walks of [bs] from any of the states settle. *)
Definition settled (bs : list MirBlock) : Prop :=
  ∀ entry, all_in entry → settles (λ fuel, walk fuel entry bs) flow_in.

Definition framed_in (x : Flow State * ScanFrame State) : Prop := flow_in x.1 ∧ frame_in x.2.

Lemma settles_framed bs entry kind :
  settled bs → inside entry → settles (λ fuel, walk_framed (walk fuel) entry kind bs) framed_in.
Proof.
  intros Hw Hentry. unfold walk_framed.
  settle_bind (λ _ : (), True); [apply settles_push|]. intros [] _.
  settle_bind flow_in; [by apply Hw; auto|]. intros flow Hflow.
  settle_bind frame_in; [apply settles_pop|]. intros f Hf. by apply settles_ret.
Qed.

Lemma settles_converge body kind :
  settled body → ∀ resume d, inside resume →
  settles (λ fuel, converge (walk fuel) (fuel - d) resume kind body)
    (λ x, inside x.1.1 ∧ flow_in x.1.2 ∧ frame_in x.2).
Proof.
  intros Hw resume. induction (widens_wf resume) as [resume _ IH]. intros d Hin.
  eapply (settles_after d).
  { intros fuel Hd. assert (fuel - d = S (fuel - S d)) as -> by lia. cbn [converge]. reflexivity. }
  { intros fuel st Hle. by assert (fuel - d = 0) as -> by lia. }
  settle_bind framed_in; [by apply settles_dry, settles_framed|]. intros [flow f] [Hflow [Hl Hr]].
  cbn [fst snd] in *.
  assert (all_in (add_state (Some resume) (resume_set f))) as Hadd by auto.
  destruct (add_state (Some resume) (resume_set f)) as [next|] eqn:Hnext; [|by apply settles_ret].
  case_decide; [|by apply settles_ret]. specialize (Hadd _ eq_refl).
  apply IH; [|done]. split_and!; [done..|].
  destruct (resume_set f) as [other|]; simplify_eq/=. exists other. split; [by apply Hr|done].
Qed.

Lemma settles_loop body kind entry :
  settled body → inside entry →
  settles (λ fuel, walk_loop (walk fuel) fuel entry kind body) flow_in.
Proof.
  intros Hw Hin. unfold walk_loop.
  settle_bind (λ x : State * Flow State * ScanFrame State,
    inside x.1.1 ∧ flow_in x.1.2 ∧ frame_in x.2).
  { apply (settles_ext (λ fuel, converge (walk fuel) (fuel - 0) entry kind body)).
    - intros fuel. by rewrite Nat.sub_0_r.
    - by apply settles_converge. }
  intros [[resume flow] f] (Hres & Hflow & Hf). cbn [fst snd] in *.
  settle_bind (λ _ : bool, True).
  { apply settles_const. intros st Hst. split; [done|]. by intros ? ? [= <- <-]. }
  intros watched _. settle_bind framed_in.
  { destruct watched; [by apply settles_framed|by apply settles_ret]. }
  intros [flow' f'] [(? & ? & ?) [? ?]]. by apply settles_ret; auto.
Qed.

Definition pair_in (x : option State * Flow State) : Prop := all_in x.1 ∧ flow_in x.2.

Lemma settles_elifs es :
  (∀ e, e ∈ es → settled (elif_cond e) ∧ settled (elif_then e)) →
  ∀ rest flow, all_in rest → flow_in flow →
  settles (λ fuel, walk_elifs (walk fuel) rest flow es) pair_in.
Proof.
  induction es as [|e es IH]; intros Hes rest flow Hrest Hflow; cbn [walk_elifs];
    [by apply settles_ret|].
  destruct (Hes e) as [Hc Ht]; [by left|].
  settle_bind flow_in; [by apply Hc|]. intros cond Hcond.
  settle_bind flow_in; [by apply Ht, Hcond|]. intros arm Harm.
  apply IH; [|by apply Hcond|by auto]. intros. apply Hes. by right.
Qed.

Lemma settles_arms entry regions :
  inside entry → (∀ bs, bs ∈ regions → settled bs) →
  ∀ flow, flow_in flow → settles (λ fuel, walk_arms (walk fuel) entry flow regions) flow_in.
Proof.
  intros Hin. induction regions as [|bs regions IH]; intros Hbs flow Hflow; cbn [walk_arms];
    [by apply settles_ret|].
  settle_bind flow_in; [by apply Hbs; [left|auto]|]. intros arm Harm.
  apply IH; [|by auto]. intros. apply Hbs. by right.
Qed.

Lemma settles_cases cs :
  (∀ case, case ∈ cs → settled (case_body case)) →
  ∀ next flow, all_in next → flow_in flow →
  settles (λ fuel, walk_cases (walk fuel) next flow cs) pair_in.
Proof.
  induction cs as [|case cs IH]; intros Hcs next flow Hnext Hflow; cbn [walk_cases];
    [by apply settles_ret|].
  destruct next as [entry|]; [|by apply settles_ret].
  settle_bind framed_in; [by apply settles_framed; [apply Hcs; left|apply Hnext]|].
  intros [cf f] [Hcf [Hl Hr]]. cbn [fst snd] in *.
  destruct (absorb_abnormal_in flow cf Hflow Hcf) as (? & ? & ?).
  apply IH; [|done|by apply channels_in; auto]. intros. apply Hcs. by right.
Qed.

(** A region absorbed where there is one. *)
Lemma settles_part bs entry flow :
  settled bs → all_in entry → flow_in flow →
  settles (λ fuel, part ← walk fuel entry bs; mret (absorb flow part)) flow_in.
Proof.
  intros Hw Hin Hflow. settle_bind flow_in; [by apply Hw|]. intros part Hpart.
  apply settles_ret. auto.
Qed.

(** An op settles when the walks of its regions do. *)
Lemma settles_op i :
  (∀ bs, bs ∈ instruction_regions i → settled bs) →
  ∀ entry, inside entry → settles (λ fuel, walk_op (walk fuel) fuel entry i) flow_in.
Proof.
  intros Hw entry Hin.
  destruct i as [tl rs body ha h ea o|rs cond th es ea oe|label ops args rs body
    |rs vs arms oe|hn ops args rs body oe| |rs cs ea oe| ]; cbn [walk_op instruction_regions] in *;
    try (apply settles_ret, channels_in; by auto).
  - unfold walk_try. settle_bind framed_in; [by apply settles_framed; [apply Hw; left|]|].
    intros [bf f] [(? & ? & ?) [? ?]]. cbn [fst snd] in *.
    settle_bind flow_in.
    + destruct o as [orelse|]; cbv iota; [|apply settles_ret, channels_in; by auto].
      apply settles_part; [|done|by apply channels_in].
      apply Hw. right. apply elem_of_app. right. by left.
    + intros flow Hflow. destruct h as [handler|]; [|by apply settles_ret].
      apply settles_part; [|done..]. apply Hw. right. by left.
  - unfold walk_if. settle_bind flow_in; [by apply Hw; [left|auto]|]. intros flow Hflow.
    settle_bind pair_in.
    + apply settles_elifs; [|by auto..]. intros e He. split; apply Hw; right; apply elem_of_app; left;
        apply list_elem_of_bind; exists e; (split; [|done]); [by left|by right; left].
    + intros [rest flow'] [? ?]. apply settles_part; [|done..].
      apply Hw. right. apply elem_of_app. right. by left.
  - by apply settles_loop; [apply Hw; left|].
  - by apply settles_arms; [..|apply channels_in].
  - by apply settles_loop; [apply Hw; left|].
  - unfold walk_match. settle_bind pair_in.
    + apply settles_cases; [|by auto|by apply channels_in].
      intros case Hc. apply Hw, elem_of_app. left. by apply list_elem_of_fmap_2.
    + intros [next flow] [? ?]. apply settles_part; [|done..].
      apply Hw, elem_of_app. right. by left.
Qed.

Lemma settles_instrs is_ :
  (∀ i, i ∈ is_ → known i ∧
     ∀ entry, inside entry → settles (λ fuel, walk_op (walk fuel) fuel entry i) flow_in) →
  ∀ current flow, all_in current → flow_in flow →
  settles (λ fuel, walk_instrs (walk fuel) fuel current flow is_) pair_in.
Proof.
  induction is_ as [|i is_ IH]; intros Hi current flow Hcur Hflow; cbn [walk_instrs];
    [by apply settles_ret|].
  destruct current as [state|]; [|by apply settles_ret]. specialize (Hcur _ eq_refl).
  destruct (Hi i) as [Hk Hop]; [by left|].
  assert (∀ i', i' ∈ is_ → known i' ∧ ∀ entry, inside entry →
    settles (λ fuel, walk_op (walk fuel) fuel entry i') flow_in) as Hrest
    by (intros; apply Hi; by right).
  destruct (enters i).
  - settle_bind (λ _ : (), True); [apply settles_report_op|]. intros [] _.
    settle_bind flow_in; [by apply Hop|]. intros nested Hnested.
    apply IH; [done|by apply Hnested|by auto].
  - settle_bind (λ _ : (), True); [apply settles_report_instr|]. intros [] _.
    settle_bind inside; [by apply settles_effect|]. intros state' Hs'. by apply IH; auto.
Qed.

Lemma settles_region bs :
  (∀ b i, b ∈ bs → i ∈ instrs b → known i ∧
     ∀ entry, inside entry → settles (λ fuel, walk_op (walk fuel) fuel entry i) flow_in) →
  ∀ entry, all_in entry → settles (λ fuel, region_step (walk fuel) fuel entry bs) flow_in.
Proof.
  intros Hbs entry Hentry. destruct entry as [entry|]; [|by apply settles_ret].
  destruct bs as [|b bs]; cbn [region_step]; [by apply settles_ret, channels_in|].
  settle_bind pair_in.
  - unfold walk_block. settle_bind pair_in.
    { apply settles_instrs; [|done|done]. intros i Hi. eapply Hbs; [by left|done]. }
    intros [current flow] Hp. settle_bind (λ _ : (), True); [apply settles_report_block|].
    intros [] _. by apply settles_ret.
  - intros [[state|] flow] [Hs Hflow]; [|by apply settles_ret].
    apply settles_terminate; [by apply Hs|done].
Qed.
End op.

Lemma settles_walk_op i :
  deep_known i → ∀ entry, inside entry →
  settles (λ fuel, walk_op (walk_region fuel) fuel entry i) flow_in.
Proof.
  induction 1 as [i _ Hdeep IH]. apply (settles_op walk_region). intros bs Hbs entry Hentry.
  apply (settles_S (λ fuel, region_step (walk_region fuel) fuel entry bs)); [done..|].
  apply (settles_region walk_region); [|done]. intros b j Hb Hj.
  split; [|by eapply IH]. by eapply deep_known_known, Hdeep.
Qed.

Lemma settles_body (entry : State) bs :
  inside entry → body_known bs → settles (λ fuel, walk_region fuel (Some entry) bs) flow_in.
Proof.
  intros Hentry Hbs.
  apply (settles_S (λ fuel, region_step (walk_region fuel) fuel (Some entry) bs)); [done..|].
  apply (settles_region walk_region); [|by auto]. intros b i Hb Hi.
  pose proof (Hbs _ _ Hb Hi) as Hdeep. split; [by apply deep_known_known|].
  by apply settles_walk_op.
Qed.

Lemma walk_forward_in fuel entry bs (o : Observer) flow o' :
  inside entry → body_known bs →
  walk_forward (Error := Error) fuel entry bs o = Ok (flow, o') → flow_in flow.
Proof.
  intros Hentry Hbs Hw. unfold walk_forward in Hw. bind_inv Hw. destruct a as [flow1 [o1 fr1]].
  simplify_eq.
  destruct (settles_body entry bs Hentry Hbs (Some o, [])) as [_ HQ]; [constructor|].
  by eapply HQ.
Qed.

(** C30: the forward walk ends.  Where the states its body's instructions
    lead to are closed under joins and none of them widens for ever, there is
    a fuel from which on [walk_forward] gives one result, however deep the
    regions nest and however often each loop's dry walk is repeated. *)
Theorem walk_forward_ends (entry : State) bs (o : Observer) :
  inside entry → body_known bs →
  ∃ N r, r ≠ Diverge ∧ ∀ fuel, N ≤ fuel → walk_forward (Error := Error) fuel entry bs o = r.
Proof.
  intros Hentry Hbs.
  destruct (settles_body entry bs Hentry Hbs (Some o, [])) as [(N & r & Hr & Hf) _]; [constructor|].
  exists N, ('(flow, (o, _)) ← r; Ok (flow, o)). split; [by destruct r as [[? []]| | |]|].
  intros fuel Hle. unfold walk_forward. by rewrite Hf.
Qed.
End ends.
