(* ===== verification/MovePlaces.v ===== *)
(** * MovePlaces: the move lattice and its place trees

    The first half of [mojito-analysis/src/analysis/moves.rs]: the state of a
    place ([Own]), the projections that name a part of one ([Key]), and the
    tree that keeps the state of a slot and of the parts of it moved apart
    ([Node]), with its reads, moves, definitions and joins.  [blamed] says
    which parts a tree holds to be moved; each operation's meaning is stated
    by it. *)

From Stdlib Require Import Sorting.Sorted Structures.OrdersEx.
From stdpp Require Import pretty sets.
From S2P Require Import Prelude.

(** A place's move state. *)
Inductive Own : Type := Owned | Moved | MaybeMoved.

#[export] Instance Own_eq_dec : EqDecision Own.
Proof. solve_decision. Defined.

Definition join (a b : Own) : Own :=
  match a, b with
  | Owned, Owned => Owned
  | Moved, Moved => Moved
  | _, _ => MaybeMoved
  end.

Definition severity (o : Own) : nat :=
  match o with Owned => 0 | MaybeMoved => 1 | Moved => 2 end.

(** One projection step of a place path. *)
Inductive Key : Type :=
| Field (name : string)
| Index
| ConstIndex (index : nat)
| Variant (alternative : option nat)
| UninitPayload
| FieldAt.

#[export] Instance Key_eq_dec : EqDecision Key.
Proof. solve_decision. Defined.

(** [Key]'s derived order. *)
Definition key_rank (k : Key) : nat :=
  match k with
  | Field _ => 0 | Index => 1 | ConstIndex _ => 2 | Variant _ => 3
  | UninitPayload => 4 | FieldAt => 5
  end.

Definition option_compare (a b : option nat) : comparison :=
  match a, b with
  | None, None => Eq
  | None, Some _ => Lt
  | Some _, None => Gt
  | Some a, Some b => Nat.compare a b
  end.

Definition key_compare (a b : Key) : comparison :=
  match a, b with
  | Field a, Field b => String.compare a b
  | ConstIndex a, ConstIndex b => Nat.compare a b
  | Variant a, Variant b => option_compare a b
  | _, _ => Nat.compare (key_rank a) (key_rank b)
  end.

Definition keys_overlap (left right : Key) : bool :=
  bool_decide (left = right) ||
  match left, right with
  | Index, ConstIndex _ | ConstIndex _, Index
  | Variant None, Variant _ | Variant _, Variant None
  | FieldAt, Field _ | Field _, FieldAt => true
  | _, _ => false
  end.

(** [place_display]. *)
Definition key_display (k : Key) : string :=
  match k with
  | Field f => "." +:+ f
  | Index => "[…]"
  | ConstIndex index => "[" +:+ pretty index +:+ "]"
  | Variant index =>
      "[alternative#" +:+ match index with Some n => pretty n | None => "?" end +:+ "]"
  | UninitPayload => "[payload]"
  | FieldAt => ".<field#?>"
  end.

Definition place_display (root : string) (path : list Key) : string :=
  fold_left (λ s k, s +:+ key_display k) path root.

(** The state of a place and of everything under it; [children], a [BTreeMap]
    of the source, in the order of their keys. *)
Inductive Node : Type := MkNode (base : Own) (children : list (Key * Node)).

#[export] Instance Node_eq_dec : EqDecision Node.
Proof.
  refine (fix go n1 n2 := let _ : EqDecision Node := @go in
    match n1, n2 with
    | MkNode o1 ch1, MkNode o2 ch2 => cast_if_and (decide (o1 = o2)) (decide (ch1 = ch2))
    end); abstract congruence.
Defined.

Definition base (n : Node) : Own := match n with MkNode base _ => base end.
Definition children (n : Node) : list (Key * Node) := match n with MkNode _ children => children end.

(** [Node::owned], [Node::moved] and [Node::with_uninitialized_fields]; the
    fields are a map's, in order and without repetition. *)
Definition owned : Node := MkNode Owned [].
Definition moved : Node := MkNode Moved [].
Definition with_uninitialized_fields (fields : list string) : Node :=
  MkNode Owned ((λ f, (Field f, moved)) <$> fields).

(** [BTreeMap::get]. *)
Fixpoint get {A} (k : Key) (m : list (Key * A)) : option A :=
  match m with
  | [] => None
  | (k', x) :: m => if decide (k = k') then Some x else get k m
  end.

(** [BTreeMap::insert] of a new key, at its place in the order. *)
Fixpoint insert {A} (k : Key) (x : A) (m : list (Key * A)) : list (Key * A) :=
  match m with
  | [] => [(k, x)]
  | (k', x') :: m =>
      match key_compare k k' with
      | Lt => (k, x) :: (k', x') :: m
      | Eq | Gt => (k', x') :: insert k x m
      end
  end.

Fixpoint update {A} (k : Key) (f : A → A) (m : list (Key * A)) : list (Key * A) :=
  match m with
  | [] => []
  | (k', x') :: m => if decide (k = k') then (k', f x') :: m else (k', x') :: update k f m
  end.

(** [entry(k).or_insert(x)] changed by [f]. *)
Definition entry {A} (k : Key) (x : A) (f : A → A) (m : list (Key * A)) : list (Key * A) :=
  match get k m with Some _ => update k f m | None => insert k (f x) m end.

Section find_map.
Context {A B : Type} (f : A → option B).
Fixpoint find_map (l : list A) : option B :=
  match l with
  | [] => None
  | x :: l => match f x with Some y => Some y | None => find_map l end
  end.
End find_map.

(** What the loops over children keep: the worse of the two states, the
    earlier of equals. *)
Definition worse (worst : Own * list Key) (k : Key) (found : Own * list Key) : Own * list Key :=
  if severity worst.1 <? severity found.1 then (found.1, k :: found.2) else worst.

Fixpoint whole (self : Node) : Own * list Key :=
  match self with
  | MkNode base children =>
      fold_left (λ worst '(k, c), worse worst k (whole c)) children (base, [])
  end.

Fixpoint read (path : list Key) (self : Node) : Own * list Key :=
  match path with
  | [] => whole self
  | key :: rest =>
      if decide (base self ≠ Owned) then (base self, [])
      else
        fold_left (λ worst '(candidate, child), worse worst candidate (read rest child))
          (filter (λ x, keys_overlap key x.1 = true) (children self)) (Owned, [])
  end.

Fixpoint base_at (path : list Key) (self : Node) : Own * list Key :=
  match path with
  | [] => (base self, [])
  | key :: rest =>
      if decide (base self ≠ Owned) then (base self, [])
      else
        fold_left (λ worst '(candidate, child), worse worst candidate (base_at rest child))
          (filter (λ x, keys_overlap key x.1 = true) (children self)) (Owned, [])
  end.

(** The first field child, not overlapping [skip], moved beyond [base], or
    such a hole deeper. *)
Fixpoint moved_below (base : Own) (skip : option Key) (self : Node) : option (list Key) :=
  match self with
  | MkNode _ children =>
      find_map (λ '(key, child),
        match key with
        | Field _ =>
            if from_option (keys_overlap key) false skip then None
            else
              match child with
              | MkNode child_base _ =>
                  if severity base <? severity child_base then Some [key]
                  else cons key <$> moved_below child_base None child
              end
        | _ => None
        end) children
  end.

Definition field_hole (self : Node) : option (list Key) := moved_below (base self) None self.

Fixpoint disjoint_moved (path : list Key) (skip_root : bool) (self : Node) :
    option (list Key) :=
  match path with
  | [] => None
  | next :: rest =>
      match (if skip_root then None else moved_below (base self) (Some next) self) with
      | Some hole => Some hole
      | None =>
          child ← get next (children self);
          cons next <$> disjoint_moved rest false child
      end
  end.

Fixpoint do_move (path : list Key) (self : Node) : Node :=
  match path with
  | [] => MkNode Moved []
  | k :: rest =>
      MkNode (base self) (entry k (MkNode (base self) []) (do_move rest) (children self))
  end.

Fixpoint do_def (path : list Key) (self : Node) : Node :=
  match path with
  | [] => owned
  | k :: rest =>
      if decide (base self = Moved) then self
      else MkNode (base self) (entry k (MkNode (base self) []) (do_def rest) (children self))
  end.

(** Sorted, without repetition. *)
Fixpoint insert_key (k : Key) (ks : list Key) : list Key :=
  match ks with
  | [] => [k]
  | k' :: ks' =>
      match key_compare k k' with
      | Lt => k :: ks
      | Eq => ks
      | Gt => k' :: insert_key k ks'
      end
  end.

Definition sort_dedup (ks : list Key) : list Key := foldr insert_key [] ks.

Definition keys (n : Node) : list Key := (children n).*1.

(** The depth of a tree: each call of [join_node] is on shallower ones. *)
Fixpoint depth (n : Node) : nat :=
  match n with MkNode _ children => foldr (λ '(_, c) d, S (depth c) `max` d) 0 children end.

Definition leaf (o : Own) : Node := MkNode o [].

Fixpoint join_within (fuel : nat) (a b : Node) : Node :=
  match fuel with
  | O => a
  | S fuel =>
      MkNode (join (base a) (base b))
        ((λ k, (k, join_within fuel (default (leaf (base a)) (get k (children a)))
                     (default (leaf (base b)) (get k (children b)))))
          <$> sort_dedup (keys a ++ keys b))
  end.

Definition join_node (a b : Node) : Node := join_within (S (depth a `max` depth b)) a b.

(** [join_states]: the shorter state ends the loop. *)
Definition join_states (a b : list Node) : list Node := zip_with join_node a b.

(** ** The order of keys *)

Definition key_lt (a b : Key) : Prop := key_compare a b = Lt.

Lemma option_compare_spec a b : CompareSpec (a = b) (option_compare a b = Lt) (option_compare b a = Lt)
  (option_compare a b).
Proof.
  destruct a as [a|], b as [b|]; simpl; try (by constructor).
  destruct (Nat.compare_spec a b); constructor;
    first [congruence|by apply Nat.compare_lt_iff].
Qed.

Lemma key_compare_spec a b : CompareSpec (a = b) (key_lt a b) (key_lt b a) (key_compare a b).
Proof.
  unfold key_lt. destruct a, b; simpl; try (by constructor).
  - destruct (String.compare name name0) eqn:Hc; constructor.
    + f_equal. by apply String.compare_eq_iff.
    + done.
    + by rewrite String.compare_antisym, Hc.
  - destruct (Nat.compare_spec index index0); constructor;
      first [congruence|by apply Nat.compare_lt_iff].
  - destruct (option_compare_spec alternative alternative0); constructor; congruence.
Qed.

Lemma key_compare_refl a : key_compare a a = Eq.
Proof.
  destruct a; simpl; try done; try apply Nat.compare_refl.
  - pose proof (String.compare_antisym name name). by destruct (String.compare name name).
  - destruct alternative; simpl; [apply Nat.compare_refl|done].
Qed.

Lemma key_lt_irrefl a : ¬ key_lt a a.
Proof. unfold key_lt. by rewrite key_compare_refl. Qed.

Lemma key_lt_trans a b c : key_lt a b → key_lt b c → key_lt a c.
Proof.
  unfold key_lt. destruct a, b, c; simpl; try done; rewrite ?Nat.compare_lt_iff; try lia.
  - destruct OrdersEx.String_as_OT.lt_strorder as [_ Htrans]. apply Htrans.
  - destruct alternative as [x|], alternative0 as [y|], alternative1 as [z|]; simpl; try done;
      rewrite ?Nat.compare_lt_iff; lia.
Qed.

#[local] Instance key_lt_transitive : Transitive key_lt := key_lt_trans.

(** ** Maps by key *)

Section maps.
Context {A : Type}.
Implicit Types (m : list (Key * A)).

Notation sorted := (StronglySorted key_lt).

Lemma sorted_cons_inv k ks : sorted (k :: ks) → sorted ks ∧ k ∉ ks ∧ ∀ k', k' ∈ ks → key_lt k k'.
Proof.
  intros [Hs Hk]%StronglySorted_inv. rewrite Forall_forall in Hk. split_and!; [done| |done].
  intros Hin. by apply (key_lt_irrefl k), Hk.
Qed.

Lemma elem_of_insert_key k k' ks : k' ∈ insert_key k ks ↔ k' = k ∨ k' ∈ ks.
Proof.
  induction ks as [|k0 ks IH]; simpl; [set_solver|].
  destruct (key_compare_spec k k0); set_solver.
Qed.

Lemma insert_key_sorted k ks : sorted ks → sorted (insert_key k ks).
Proof.
  induction ks as [|k0 ks IH]; simpl; intros Hs; [by repeat constructor|].
  pose proof (sorted_cons_inv _ _ Hs) as (Hks & _ & Hlt).
  destruct (key_compare_spec k k0) as [->|Hk|Hk]; [done| |].
  - constructor; [done|]. apply Forall_forall. intros k' [->|Hk']%elem_of_cons; [done|].
    etrans; [done|]. by apply Hlt.
  - constructor; [by apply IH|]. apply Forall_forall.
    intros k' [->|Hk']%elem_of_insert_key; [done|]. by apply Hlt.
Qed.

Lemma insert_key_in k ks : sorted ks → k ∈ ks → insert_key k ks = ks.
Proof.
  induction ks as [|k0 ks IH]; simpl; intros Hs Hin; [set_solver|].
  pose proof (sorted_cons_inv _ _ Hs) as (Hks & _ & Hlt).
  destruct (key_compare_spec k k0) as [->|Hk|Hk]; [done| |].
  - apply elem_of_cons in Hin as [->|Hin]; [by apply key_lt_irrefl in Hk|].
    destruct (key_lt_irrefl k). etrans; [done|]. by apply Hlt.
  - f_equal. apply IH; [done|]. apply elem_of_cons in Hin as [->|]; [|done].
    by apply key_lt_irrefl in Hk.
Qed.

Lemma sort_dedup_sorted ks : sorted (sort_dedup ks).
Proof. induction ks; simpl; [constructor|]. by apply insert_key_sorted. Qed.

Lemma elem_of_sort_dedup k ks : k ∈ sort_dedup ks ↔ k ∈ ks.
Proof. induction ks as [|k' ks IH]; simpl; [done|]. rewrite elem_of_insert_key, IH. set_solver. Qed.

Lemma get_None k m : get k m = None ↔ k ∉ m.*1.
Proof.
  induction m as [|[k' x] m IH]; simpl; [set_solver|]. case_decide; [set_solver|].
  rewrite IH. set_solver.
Qed.

Lemma get_Some k x m : get k m = Some x → (k, x) ∈ m.
Proof.
  induction m as [|[k' y] m IH]; simpl; [done|]. case_decide; intros; simplify_eq; set_solver.
Qed.

Lemma get_elem_of k x m : sorted m.*1 → (k, x) ∈ m → get k m = Some x.
Proof.
  induction m as [|[k' y] m IH]; simpl; intros Hs Hin; [set_solver|].
  apply sorted_cons_inv in Hs as (Hs & Hk & _).
  apply elem_of_cons in Hin as [Heq|Hin]; [simplify_eq; by rewrite decide_True|].
  rewrite decide_False; [by apply IH|]. intros ->. apply Hk. apply list_elem_of_fmap.
  by exists (k', x).
Qed.

Lemma keys_update k f m : (update k f m).*1 = m.*1.
Proof.
  induction m as [|[k' y] m IH]; cbn [update]; [done|]. case_decide; [done|].
  by rewrite !fmap_cons, IH.
Qed.

Lemma keys_insert k x m : k ∉ m.*1 → (insert k x m).*1 = insert_key k m.*1.
Proof.
  induction m as [|[k' y] m IH]; simpl; intros Hk; [done|].
  apply not_elem_of_cons in Hk as [Hne Hk].
  destruct (key_compare_spec k k') as [->| |]; simpl; [done..|]. f_equal. by apply IH.
Qed.

Lemma keys_entry k x f m : StronglySorted key_lt m.*1 → (entry k x f m).*1 = insert_key k m.*1.
Proof.
  intros Hs. unfold entry. destruct (get k m) as [y|] eqn:Hk.
  - rewrite keys_update, insert_key_in; [done..|]. apply list_elem_of_fmap.
    exists (k, y). split; [done|]. by apply get_Some.
  - by apply keys_insert, get_None.
Qed.

Lemma get_update k k' f m :
  get k' (update k f m) = if decide (k' = k) then f <$> get k m else get k' m.
Proof.
  induction m as [|[k0 y] m IH]; simpl; [by case_decide|].
  destruct (decide (k = k0)) as [->|]; simpl.
  - by case_decide.
  - rewrite IH. repeat case_decide; by simplify_eq.
Qed.

Lemma get_insert k k' x m :
  get k m = None → get k' (insert k x m) = if decide (k' = k) then Some x else get k' m.
Proof.
  induction m as [|[k0 y] m IH]; simpl; [done|]. destruct (decide (k = k0)) as [|Hk]; [done|]. intros Hm.
  destruct (key_compare k k0); simpl; rewrite ?IH by done; repeat case_decide; by simplify_eq.
Qed.

Lemma get_entry k k' x f m :
  get k' (entry k x f m) = if decide (k' = k) then Some (f (default x (get k m))) else get k' m.
Proof.
  unfold entry. destruct (get k m) as [y|] eqn:Hk.
  - rewrite get_update, Hk. done.
  - by apply get_insert.
Qed.

Lemma elem_of_insert p k x m : p ∈ insert k x m ↔ p = (k, x) ∨ p ∈ m.
Proof.
  induction m as [|[k0 y0] m IH]; simpl; [set_solver|].
  destruct (key_compare k k0); rewrite !elem_of_cons, ?IH; tauto.
Qed.

Lemma elem_of_entry k k' x y f m :
  (k', y) ∈ entry k x f m → (k', y) ∈ m ∨ y = f x ∨ ∃ y', (k, y') ∈ m ∧ y = f y'.
Proof.
  unfold entry. destruct (get k m) as [z|] eqn:Hk.
  - clear Hk. induction m as [|[k0 y0] m IH]; simpl; [auto|].
    case_decide as Hk; rewrite !elem_of_cons; intros [Heq|Hin].
    + simplify_eq. right. right. exists y0. split; [by left|done].
    + auto.
    + auto.
    + destruct (IH Hin) as [|[|(y' & ? & ?)]]; eauto 10.
      right. right. exists y'. rewrite elem_of_cons. auto.
  - intros [Heq|]%elem_of_insert; [simplify_eq|]; auto.
Qed.

Lemma get_fmap_keys k (g : Key → A) ks :
  get k ((λ k, (k, g k)) <$> ks) = if decide (k ∈ ks) then Some (g k) else None.
Proof.
  induction ks as [|k' ks IH]; [done|]. rewrite fmap_cons. cbn [get]. rewrite IH.
  repeat case_decide; simplify_eq; try done; set_solver.
Qed.

Lemma keys_fmap (g : Key → A) ks : ((λ k, (k, g k)) <$> ks).*1 = ks.
Proof. induction ks; simpl; [done|]. by f_equal. Qed.
End maps.

(** ** Trees *)

(** Induction on a tree: a property of every child gives it of the node. *)
Fixpoint Node_nested_ind (P : Node → Prop)
    (step : ∀ o ch, (∀ k c, (k, c) ∈ ch → P c) → P (MkNode o ch)) (n : Node) : P n.
Proof.
  destruct n as [o ch]. apply step. induction ch as [|[k0 c0] ch IH]; intros k c Hin.
  - by apply not_elem_of_nil in Hin.
  - apply elem_of_cons in Hin as [Heq|Hin]; [|by eapply IH].
    injection Heq as -> ->. apply Node_nested_ind. exact step.
Defined.

(** A map's keys are in order, without repetition, at every level. *)
Inductive wf : Node → Prop :=
| Wf o ch : StronglySorted key_lt ch.*1 → (∀ k c, (k, c) ∈ ch → wf c) → wf (MkNode o ch).

Lemma wf_sorted n : wf n → StronglySorted key_lt (children n).*1.
Proof. by destruct 1. Qed.

Lemma wf_get n k c : wf n → get k (children n) = Some c → wf c.
Proof. intros [o ch _ Hc] Hget. by eapply Hc, get_Some. Qed.

Lemma wf_leaf o : wf (MkNode o []).
Proof. constructor; [constructor|]. by intros k c ?%not_elem_of_nil. Qed.

Lemma wf_default n k : wf n → wf (default (leaf (base n)) (get k (children n))).
Proof.
  intros Hn. destruct (get k (children n)) eqn:Hk; simpl; [by eapply wf_get|apply wf_leaf].
Qed.

(** The tree holds the part at [q] to be moved, or maybe moved, out. *)
Fixpoint blamed (q : list Key) (n : Node) : Prop :=
  base n ≠ Owned ∨
  match q with
  | [] => False
  | k :: q => match get k (children n) with Some c => blamed q c | None => False end
  end.

Lemma blamed_base q n : base n ≠ Owned → blamed q n.
Proof. destruct q; simpl; auto. Qed.

Lemma blamed_cons k q n :
  blamed (k :: q) n ↔ blamed q (default (leaf (base n)) (get k (children n))) ∨ base n ≠ Owned.
Proof.
  simpl. destruct (get k (children n)) as [c|]; simpl; [tauto|].
  split; [tauto|]. intros [Hq|]; [|by left]. left. destruct q; simpl in Hq; tauto.
Qed.

Lemma blamed_leaf q o : blamed q (leaf o) ↔ o ≠ Owned.
Proof. destruct q; simpl; tauto. Qed.

Lemma blamed_app q ext n : blamed q n → blamed (q ++ ext) n.
Proof.
  revert n. induction q as [|k q IH]; intros n; simpl.
  - intros [Hb|[]]. by apply blamed_base.
  - intros [|Hc]; [by left|right]. destruct (get k (children n)); [by apply IH|done].
Qed.

(** ** Reads *)

Lemma keys_overlap_refl k : keys_overlap k k = true.
Proof. unfold keys_overlap. by rewrite bool_decide_true. Qed.

(** The places a path may name. *)
Definition overlaps (p q : list Key) : Prop := Forall2 (λ k k', keys_overlap k k' = true) p q.

Lemma overlaps_refl p : overlaps p p.
Proof. induction p; constructor; [apply keys_overlap_refl|done]. Qed.

Lemma worst_owned (g : Node → Own * list Key) l start :
  (fold_left (λ worst '(k, c), worse worst k (g c)) l start).1 = Owned ↔
  start.1 = Owned ∧ ∀ k c, (k, c) ∈ l → (g c).1 = Owned.
Proof.
  revert start. induction l as [|[k c] l IH]; intros start; simpl.
  { split; [|tauto]. intros ->. split; [done|]. by intros k c ?%not_elem_of_nil. }
  rewrite IH. unfold worse.
  assert ((if severity start.1 <? severity (g c).1 then ((g c).1, k :: (g c).2) else start).1 = Owned ↔
    start.1 = Owned ∧ (g c).1 = Owned) as ->.
  { destruct (Nat.ltb_spec (severity start.1) (severity (g c).1)) as [Hlt|Hge]; simpl.
    - split; [|tauto]. intros Hg. rewrite Hg in Hlt. simpl in Hlt. lia.
    - split; [|tauto]. intros Hs. split; [done|]. rewrite Hs in Hge. by destruct (g c).1 eqn:?; simpl in Hge; try lia. }
  split.
  - intros [[Hs Hg] Hl]. split; [done|]. intros k' c' [Heq|Hin]%elem_of_cons; [by simplify_eq|by eapply Hl].
  - intros [Hs Hl]. split; [split; [done|]; eapply Hl; by left|]. intros k' c' Hin. eapply Hl. by right.
Qed.

(** A read that finds nothing moved misses nothing. *)
Lemma whole_unblamed n : (whole n).1 = Owned → ∀ q, ¬ blamed q n.
Proof.
  induction n as [o ch IH] using Node_nested_ind. cbn [whole]. rewrite worst_owned. simpl.
  intros [-> Hl] [|k q]; simpl; [naive_solver|]. intros [|Hq]; [done|].
  destruct (get k ch) as [c|] eqn:Hk; [|done]. apply get_Some in Hk as Hin.
  by eapply IH, Hq; [|eapply Hl].
Qed.

Lemma whole_owned n : wf n → ((whole n).1 = Owned ↔ ∀ q, ¬ blamed q n).
Proof.
  intros Hwf. split; [apply whole_unblamed|]. revert Hwf.
  induction n as [o ch IH] using Node_nested_ind. intros Hwf Hq. inversion Hwf as [? ? Hs Hc]; subst.
  cbn [whole]. rewrite worst_owned. simpl. split.
  - destruct (decide (o = Owned)); [done|]. destruct (Hq []). by left.
  - intros k c Hin. apply (IH _ _ Hin (Hc _ _ Hin)). intros q Hb. apply (Hq (k :: q)). right.
    simpl. by rewrite (get_elem_of k c).
Qed.

(** Reading down a path, with what [final] reads at its end. *)
Section along.
Variable final : Node → Own * list Key.
Variable good : list Key → Prop.
Hypothesis good_nil : good [].
Hypothesis final_unblamed : ∀ n, (final n).1 = Owned → ∀ ext, good ext → ¬ blamed ext n.
Hypothesis final_owned : ∀ n, wf n → (∀ ext, good ext → ¬ blamed ext n) → (final n).1 = Owned.

Fixpoint along (path : list Key) (self : Node) : Own * list Key :=
  match path with
  | [] => final self
  | key :: rest =>
      if decide (base self ≠ Owned) then (base self, [])
      else
        fold_left (λ worst '(candidate, child), worse worst candidate (along rest child))
          (filter (λ x, keys_overlap key x.1 = true) (children self)) (Owned, [])
  end.

Lemma along_unblamed p : ∀ n,
  (along p n).1 = Owned → ∀ q ext, overlaps p q → good ext → ¬ blamed (q ++ ext) n.
Proof using final_unblamed.
  induction p as [|key p IH]; intros n; cbn [along].
  { intros Hf q ext Hq. inversion Hq. by apply final_unblamed. }
  case_decide as Hb; simpl; [done|].
  rewrite worst_owned. simpl.
  intros [_ Hl] q ext Hq Hext. inversion Hq as [|? k ? q' Hk Hq' Heq1 Heq2]; subst. simpl.
  intros [|Hbl]; [done|]. destruct (get k (children n)) as [c|] eqn:Hget; [|done].
  apply (IH c) with (q := q') (ext := ext); [|done..].
  eapply Hl. apply list_elem_of_filter. split; [done|]. by apply get_Some.
Qed.

Lemma along_owned p : ∀ n, wf n →
  (∀ q ext, overlaps p q → good ext → ¬ blamed (q ++ ext) n) → (along p n).1 = Owned.
Proof using good_nil final_owned.
  induction p as [|key p IH]; intros n Hwf Hf; cbn [along].
  { apply final_owned; [done|]. intros ext Hext. apply (Hf [] ext); [constructor|done]. }
  case_decide as Hb; simpl.
  { destruct (Hf (key :: p) []); [apply overlaps_refl|done|by apply blamed_base]. }
  rewrite worst_owned. simpl. split; [done|]. intros k c [Hk Hin]%list_elem_of_filter.
  pose proof (get_elem_of k c _ (wf_sorted _ Hwf) Hin) as Hget.
  apply IH; [by eapply wf_get|]. intros q ext Hq Hext Hbl.
  apply (Hf (k :: q) ext); [by constructor|done|]. simpl. rewrite Hget. by right.
Qed.
End along.

Lemma read_unblamed p n :
  (read p n).1 = Owned → ∀ q ext, overlaps p q → ¬ blamed (q ++ ext) n.
Proof.
  change (read p n) with (along whole p n). intros Hr q ext Hq.
  apply (along_unblamed whole (λ _, True) (λ n Hn ext _, whole_unblamed n Hn ext) p n Hr q ext Hq I).
Qed.

Lemma read_owned p n : wf n →
  ((read p n).1 = Owned ↔ ∀ q ext, overlaps p q → ¬ blamed (q ++ ext) n).
Proof.
  intros Hn. split; [apply read_unblamed|]. change (read p n) with (along whole p n). intros Hf.
  apply (along_owned whole (λ _, True)); [done| |done|by auto].
  intros n' Hn' Hb. apply whole_owned; auto.
Qed.

Lemma base_at_unblamed p n : (base_at p n).1 = Owned → ∀ q, overlaps p q → ¬ blamed q n.
Proof.
  change (base_at p n) with (along (λ n, (base n, [])) p n). intros Hr q Hq.
  rewrite <- (app_nil_r q). eapply (along_unblamed _ (λ ext, ext = [])); [|done..].
  intros n' Hb ext ->. simpl in *. tauto.
Qed.

Lemma base_at_owned p n : wf n →
  ((base_at p n).1 = Owned ↔ ∀ q, overlaps p q → ¬ blamed q n).
Proof.
  intros Hn. split; [apply base_at_unblamed|].
  change (base_at p n) with (along (λ n, (base n, [])) p n). intros Hf.
  apply (along_owned _ (λ ext, ext = [])); [done| |done|].
  - intros n' _ Hb. specialize (Hb [] eq_refl). simpl in Hb |- *.
    destruct (decide (base n' = Owned)); [done|tauto].
  - intros q ext Hq ->. rewrite app_nil_r. by apply Hf.
Qed.

(** ** Moves and definitions *)

Lemma wf_entry n k f :
  wf n → (∀ c, wf c → wf (f c)) →
  wf (MkNode (base n) (entry k (MkNode (base n) []) f (children n))).
Proof.
  intros [o ch Hs Hc] Hf. constructor; simpl.
  - rewrite keys_entry by done. by apply insert_key_sorted.
  - intros k' c [Hin|[->|(c' & Hin & ->)]]%elem_of_entry; [by eapply Hc|..].
    + apply Hf, wf_leaf.
    + apply Hf. by eapply Hc.
Qed.

Lemma do_move_wf p : ∀ n, wf n → wf (do_move p n).
Proof. induction p as [|k p IH]; intros n Hn; simpl; [apply wf_leaf|]. by apply wf_entry. Qed.

Lemma do_def_wf p : ∀ n, wf n → wf (do_def p n).
Proof.
  induction p as [|k p IH]; intros n Hn; simpl; [apply wf_leaf|]. case_decide; [done|].
  by apply wf_entry.
Qed.

(** An entry changed: its part of the tree is blamed as [f] leaves it. *)
Lemma blamed_entry n k f k' q :
  blamed (k' :: q) (MkNode (base n) (entry k (MkNode (base n) []) f (children n))) ↔
  base n ≠ Owned ∨
  if decide (k' = k) then blamed q (f (default (leaf (base n)) (get k (children n))))
  else blamed (k' :: q) n.
Proof.
  simpl. rewrite get_entry. case_decide; [done|]. simpl. tauto.
Qed.

Lemma prefix_cons_iff (k : Key) p q : k :: p `prefix_of` k :: q ↔ p `prefix_of` q.
Proof. split; [apply prefix_cons_inv_2|apply prefix_cons]. Qed.

Lemma do_move_blamed p : ∀ n q,
  blamed q (do_move p n) ↔ blamed q n ∨ p `prefix_of` q.
Proof.
  induction p as [|k p IH]; intros n q; cbn [do_move].
  { split; [intros _; right; by exists q|]. intros _. by apply blamed_base. }
  destruct q as [|k' q].
  { simpl. split; [tauto|]. intros [|[? ?]]; [tauto|done]. }
  rewrite blamed_entry. case_decide as Hk.
  - subst k'. rewrite IH, blamed_cons, prefix_cons_iff. tauto.
  - split; [intros [|]; [left; by apply blamed_base|tauto]|].
    intros [|Hp]; [by right|]. by apply prefix_cons_inv_1 in Hp.
Qed.

(** A definition takes the blame from its own part and no other, and takes
    it where the value it is a part of is there. *)
Lemma do_def_keeps p : ∀ n q, blamed q n → ¬ p `prefix_of` q → blamed q (do_def p n).
Proof.
  induction p as [|k p IH]; intros n q Hq Hp; cbn [do_def]; [by destruct Hp; exists q|].
  case_decide; [done|]. destruct q as [|k' q]; [done|].
  rewrite blamed_entry. case_decide as Hk; [|by right].
  subst k'. apply blamed_cons in Hq as [Hq|]; [|by left]. right.
  apply IH; [done|]. intros Hpre. apply Hp. by apply prefix_cons.
Qed.

Lemma do_def_blamed p : ∀ n q,
  (∀ p', p' `prefix_of` p → p' ≠ p → ¬ blamed p' n) →
  blamed q (do_def p n) ↔ blamed q n ∧ ¬ p `prefix_of` q.
Proof.
  intros n q Hpar. split; [|intros []; by apply do_def_keeps].
  revert n q Hpar. induction p as [|k p IH]; intros n q Hpar; cbn [do_def].
  { intros Hb. by apply (blamed_leaf q Owned) in Hb. }
  assert (base n = Owned) as Hb.
  { destruct (decide (base n = Owned)); [done|]. destruct (Hpar []); [apply prefix_nil|done|by left]. }
  rewrite decide_False by (by rewrite Hb). destruct q as [|k' q].
  { simpl. rewrite Hb. tauto. }
  rewrite blamed_entry. case_decide as Hk; intros [|Hq]; [done| |done|].
  - subst k'. destruct (IH (default (leaf (base n)) (get k (children n))) q) as [Hc Hp]; [|done|].
    + intros p' Hp' Hne Hbl. apply (Hpar (k :: p')); [by apply prefix_cons|congruence|].
      apply blamed_cons. by left.
    + split; [apply blamed_cons; by left|]. by intros ?%prefix_cons_inv_2.
  - split; [done|]. intros Hp. by apply prefix_cons_inv_1 in Hp.
Qed.

(** ** Joins *)

Lemma depth_get k c n : get k (children n) = Some c → depth c < depth n.
Proof.
  destruct n as [o ch]. simpl. intros Hin%get_Some.
  induction ch as [|[k0 c0] ch IH]; simpl; [by apply not_elem_of_nil in Hin|].
  apply elem_of_cons in Hin as [Heq|Hin]; [simplify_eq; lia|]. specialize (IH Hin). lia.
Qed.

Lemma depth_default n o k : depth (default (leaf o) (get k (children n))) ≤ pred (depth n).
Proof.
  destruct (get k (children n)) as [c|] eqn:Hk; simpl; [|lia]. apply depth_get in Hk. lia.
Qed.

(** A join's children are joins of shallower trees. *)
Lemma depth_join k a b :
  k ∈ sort_dedup (keys a ++ keys b) →
  depth (default (leaf (base a)) (get k (children a))) `max`
    depth (default (leaf (base b)) (get k (children b))) < depth a `max` depth b.
Proof.
  intros Hk. pose proof (depth_default a (base a) k). pose proof (depth_default b (base b) k).
  apply elem_of_sort_dedup, elem_of_app in Hk as [Hk|Hk].
  - destruct (get k (children a)) eqn:Ha; [apply depth_get in Ha; lia|by apply get_None in Ha].
  - destruct (get k (children b)) eqn:Hb; [apply depth_get in Hb; lia|by apply get_None in Hb].
Qed.

(** Enough fuel is the depth of the deeper tree. *)
Lemma join_within_fuel fuel : ∀ fuel' a b,
  depth a `max` depth b < fuel → depth a `max` depth b < fuel' →
  join_within fuel a b = join_within fuel' a b.
Proof.
  induction fuel as [|fuel IH]; intros [|fuel'] a b Hf Hf'; try lia. simpl. f_equal.
  apply list_fmap_ext. intros i k Hk%list_elem_of_lookup_2%depth_join. f_equal.
  apply IH; lia.
Qed.

(** [join_node], as the source writes it. *)
Lemma join_node_eq a b :
  join_node a b =
    MkNode (join (base a) (base b))
      ((λ k, (k, join_node (default (leaf (base a)) (get k (children a)))
                   (default (leaf (base b)) (get k (children b)))))
        <$> sort_dedup (keys a ++ keys b)).
Proof.
  unfold join_node at 1. cbn [join_within]. f_equal.
  apply list_fmap_ext. intros i k Hk%list_elem_of_lookup_2%depth_join. f_equal.
  unfold join_node. apply join_within_fuel; lia.
Qed.
#[local] Arguments join_node : simpl never.

Lemma get_join k a b :
  get k (children (join_node a b)) =
    if decide (k ∈ keys a ++ keys b) then
      Some (join_node (default (leaf (base a)) (get k (children a)))
              (default (leaf (base b)) (get k (children b))))
    else None.
Proof.
  rewrite join_node_eq. cbn [children]. rewrite (get_fmap_keys k (λ k, join_node _ _)).
  repeat case_decide; try done; by rewrite elem_of_sort_dedup in *.
Qed.

Lemma base_join a b : base (join_node a b) = join (base a) (base b).
Proof. by rewrite join_node_eq. Qed.

Lemma keys_join a b : keys (join_node a b) = sort_dedup (keys a ++ keys b).
Proof. rewrite join_node_eq. apply keys_fmap. Qed.

Lemma join_owned a b : join a b ≠ Owned ↔ a ≠ Owned ∨ b ≠ Owned.
Proof. destruct a, b; simpl; naive_solver. Qed.

Lemma join_node_wf a b : wf a → wf b → wf (join_node a b).
Proof.
  assert (∀ n a b, depth a `max` depth b < n → wf a → wf b → wf (join_node a b)) as Hn;
    [|by apply (Hn (S (depth a `max` depth b))); lia].
  clear a b. induction n as [|n IH]; intros a b Hlt Ha Hb; [lia|].
  rewrite join_node_eq. constructor; [rewrite keys_fmap; apply sort_dedup_sorted|].
  intros k c Hin. apply list_elem_of_fmap in Hin as (k' & Heq & Hk). simplify_eq.
  apply depth_join in Hk. apply IH; [lia|by apply wf_default..].
Qed.

Lemma join_node_blamed q : ∀ a b, blamed q (join_node a b) ↔ blamed q a ∨ blamed q b.
Proof.
  induction q as [|k q IH]; intros a b.
  { cbn [blamed]. rewrite base_join, join_owned. tauto. }
  rewrite (blamed_cons k q a), (blamed_cons k q b). cbn [blamed].
  rewrite base_join, join_owned, get_join. case_decide as Hk.
  - rewrite IH. tauto.
  - apply not_elem_of_app in Hk as [Ha%get_None Hb%get_None]. rewrite Ha, Hb. simpl.
    rewrite !blamed_leaf. tauto.
Qed.

(** ** No tree over finitely many places widens for ever *)

Lemma sorted_get_eq {A} (m m' : list (Key * A)) :
  StronglySorted key_lt m.*1 → StronglySorted key_lt m'.*1 →
  (∀ k, get k m = get k m') → m = m'.
Proof.
  revert m'. induction m as [|[k x] m IH]; intros [|[k' x'] m'] Hm Hm' Heq.
  - done.
  - specialize (Heq k'). simpl in Heq. by rewrite decide_True in Heq.
  - specialize (Heq k). simpl in Heq. by rewrite decide_True in Heq.
  - simpl in Hm, Hm'. apply sorted_cons_inv in Hm as (Hm & Hk & Hlt).
    apply sorted_cons_inv in Hm' as (Hm' & Hk' & Hlt').
    assert (k = k') as <-.
    { pose proof (Heq k) as H1. pose proof (Heq k') as H2. simpl in H1, H2.
      rewrite decide_True in H1 by done. rewrite (decide_True (P := k' = k')) in H2 by done.
      repeat case_decide; try done. symmetry in H1. apply get_Some in H1, H2.
      assert (key_lt k' k) by (apply Hlt', list_elem_of_fmap; by exists (k, x)).
      assert (key_lt k k') by (apply Hlt, list_elem_of_fmap; by exists (k', x')).
      destruct (key_lt_irrefl k). by etrans. }
    pose proof (Heq k) as Hx. simpl in Hx. rewrite !decide_True in Hx by done. simplify_eq.
    f_equal. apply IH; [done..|]. intros k0. specialize (Heq k0). simpl in Heq.
    case_decide; [|done]. subst k0. apply get_None in Hk as ->. by apply get_None in Hk' as ->.
Qed.

Section finite.
Variable universe : list Key.

(** A tree of depth [d] over the keys of [universe]. *)
Fixpoint within (d : nat) (n : Node) : Prop :=
  ∀ k c, get k (children n) = Some c →
    k ∈ universe ∧ match d with O => False | S d => within d c end.

Lemma within_leaf d o : within d (leaf o).
Proof. by destruct d. Qed.

Lemma within_default d o n k :
  within (S d) n → within d (default (leaf o) (get k (children n))).
Proof.
  intros Hn. destruct (get k (children n)) as [c|] eqn:Hk; [|apply within_leaf].
  by apply (Hn k c).
Qed.

Lemma join_within_universe d : ∀ a b, within d a → within d b → within d (join_node a b).
Proof.
  induction d as [|d IH]; intros a b Ha Hb k c Hk.
  - rewrite get_join in Hk. case_decide as Hin; [|done].
    apply elem_of_app in Hin as [Hin|Hin].
    + destruct (get k (children a)) eqn:Hg; [by destruct (Ha k _ Hg)|by apply get_None in Hg].
    + destruct (get k (children b)) eqn:Hg; [by destruct (Hb k _ Hg)|by apply get_None in Hg].
  - rewrite get_join in Hk. case_decide as Hin; [|done]. simplify_eq.
    split; [|by apply IH; apply within_default].
    apply elem_of_app in Hin as [Hin|Hin].
    + destruct (get k (children a)) eqn:Hg; [by destruct (Ha k _ Hg)|by apply get_None in Hg].
    + destruct (get k (children b)) eqn:Hg; [by destruct (Hb k _ Hg)|by apply get_None in Hg].
Qed.

Lemma within_entry d n k f :
  k ∈ universe → within (S d) n →
  within d (f (default (leaf (base n)) (get k (children n)))) →
  within (S d) (MkNode (base n) (entry k (MkNode (base n) []) f (children n))).
Proof.
  intros Hk Hn Hf k' c. simpl. rewrite get_entry.
  case_decide; [intros [= <-]; by subst|]. apply Hn.
Qed.

Lemma do_move_within p : ∀ d n,
  length p ≤ d → p ⊆ universe → within d n → within d (do_move p n).
Proof.
  induction p as [|k p IH]; intros d n Hp Hk Hn; cbn [do_move]; [by apply (within_leaf d Moved)|].
  destruct d as [|d]; simpl in Hp; [lia|]. apply within_entry; [set_solver|done|].
  apply IH; [lia|set_solver|by apply within_default].
Qed.

Lemma do_def_within p : ∀ d n,
  length p ≤ d → p ⊆ universe → within d n → within d (do_def p n).
Proof.
  induction p as [|k p IH]; intros d n Hp Hk Hn; cbn [do_def]; [by apply (within_leaf d Owned)|].
  case_decide; [done|].
  destruct d as [|d]; simpl in Hp; [lia|]. apply within_entry; [set_solver|done|].
  apply IH; [lia|set_solver|by apply within_default].
Qed.

(** What is left to widen: a part not split off counts more than any split
    one, and a state the join may still change more than [MaybeMoved]. *)
Fixpoint room_cap (d : nat) : nat :=
  match d with O => 2 | S d => 2 + length universe * room_cap d end.

Fixpoint room (d : nat) (n : Node) : nat :=
  (if decide (base n = MaybeMoved) then 0 else 1) +
  match d with
  | O => 0
  | S d =>
      sum_list_with (λ k, match get k (children n) with
                          | Some c => room d c | None => room_cap d end) universe
  end.

Lemma room_lt_cap d : ∀ n, room d n < room_cap d.
Proof.
  induction d as [|d IH]; intros n; simpl; [case_decide; lia|].
  assert (∀ ks, sum_list_with (λ k, match get k (children n) with
    | Some c => room d c | None => room_cap d end) ks ≤ length ks * room_cap d) as Hs.
  { induction ks as [|k ks IHks]; simpl; [lia|].
    destruct (get k (children n)) as [c|]; [specialize (IH c)|]; lia. }
  specialize (Hs universe). case_decide; lia.
Qed.

Lemma sum_list_with_le {A} (f g : A → nat) l :
  (∀ x, x ∈ l → f x ≤ g x) → sum_list_with f l ≤ sum_list_with g l.
Proof.
  induction l as [|x l IH]; intros Hfg; simpl; [lia|].
  pose proof (Hfg x ltac:(left)). assert (sum_list_with f l ≤ sum_list_with g l); [|lia].
  apply IH. intros. apply Hfg. by right.
Qed.

Lemma sum_list_with_eq {A} (f g : A → nat) l :
  (∀ x, x ∈ l → f x ≤ g x) → sum_list_with f l = sum_list_with g l → ∀ x, x ∈ l → f x = g x.
Proof.
  induction l as [|y l IH]; intros Hfg Heq x Hx; [by apply not_elem_of_nil in Hx|]. simpl in Heq.
  pose proof (Hfg y ltac:(left)).
  assert (∀ x, x ∈ l → f x ≤ g x) as Hl by (intros; apply Hfg; by right).
  pose proof (sum_list_with_le f g l Hl).
  apply elem_of_cons in Hx as [->|Hx]; [lia|]. apply IH; [done|lia|done].
Qed.

Lemma node_eq n n' :
  wf n → wf n' → base n = base n' → (∀ k, get k (children n) = get k (children n')) → n = n'.
Proof.
  intros [o ch Hs _] [o' ch' Hs' _] Hb Hg. simpl in *. f_equal; [done|].
  by apply sorted_get_eq.
Qed.

Lemma within_outside d n k : within d n → k ∉ universe → get k (children n) = None.
Proof.
  intros Hn Hk. destruct (get k (children n)) as [c|] eqn:Hg; [|done].
  destruct d; by destruct (Hn k c Hg).
Qed.

Lemma join_base_room a b :
  (if decide (join a b = MaybeMoved) then 0 else 1) ≤ (if decide (a = MaybeMoved) then 0 else 1) ∧
  ((if decide (join a b = MaybeMoved) then 0 else 1) = (if decide (a = MaybeMoved) then 0 else 1) →
    join a b = a).
Proof. destruct a, b; simpl; repeat case_decide; naive_solver lia. Qed.

(** A join leaves no more room, and as much only when it changes nothing. *)
Lemma join_room d : ∀ a b, wf a → wf b → within d a → within d b →
  room d (join_node a b) ≤ room d a ∧
  (room d (join_node a b) = room d a → join_node a b = a).
Proof.
  induction d as [|d IH]; intros a b Hwa Hwb Ha Hb;
    pose proof (join_node_wf _ _ Hwa Hwb) as Hwj;
    pose proof (join_within_universe _ _ _ Ha Hb) as Hj;
    destruct (join_base_room (base a) (base b)) as [Hble Hbeq]; rewrite <- base_join in Hble, Hbeq.
  { cbn [room]. split; [lia|]. intros Heq. apply node_eq; [done..|apply Hbeq; lia|]. intros k.
    destruct (get k (children (join_node a b))) eqn:Hg; [by destruct (Hj _ _ Hg)|].
    destruct (get k (children a)) eqn:Hg'; [by destruct (Ha _ _ Hg')|done]. }
  set (part := λ n k, match get k (children n) with Some c => room d c | None => room_cap d end).
  assert (∀ k, part (join_node a b) k ≤ part a k ∧
    (part (join_node a b) k = part a k → get k (children (join_node a b)) = get k (children a)))
    as Hpart.
  { intros k. unfold part. rewrite get_join.
    destruct (get k (children a)) as [c|] eqn:Hg; simpl.
    - assert (k ∈ keys a) as Hk.
      { apply list_elem_of_fmap. exists (k, c). split; [done|]. by apply get_Some. }
      rewrite decide_True by (apply elem_of_app; by left).
      destruct (IH c (default (leaf (base b)) (get k (children b)))) as [Hle Heq];
        [by apply (wf_get a k)|by apply wf_default|by apply (proj2 (Ha k c Hg))|by apply within_default|].
      split; [done|]. intros. f_equal. by apply Heq.
    - destruct (decide (k ∈ keys a ++ keys b)); [|split; [lia|done]]. pose proof (room_lt_cap d (join_node (leaf (base a))
        (default (leaf (base b)) (get k (children b))))). split; lia. }
  assert (∀ n, room (S d) n = (if decide (base n = MaybeMoved) then 0 else 1) +
    sum_list_with (part n) universe) as Hroom by done.
  rewrite !Hroom. clear Hroom.
  assert (sum_list_with (part (join_node a b)) universe ≤ sum_list_with (part a) universe) as Hsum
    by (apply sum_list_with_le; intros; apply Hpart).
  split; [lia|]. intros Heq. apply node_eq; [done..|apply Hbeq; lia|]. intros k.
  destruct (decide (k ∈ universe)) as [Hk|Hk].
  - apply Hpart. apply (sum_list_with_eq _ _ universe); [intros; apply Hpart|lia|done].
  - by rewrite (within_outside (S d) (join_node a b)), (within_outside (S d) a).
Qed.

(** The states of the slots of a function. *)
Definition states_within (d : nat) (l : list Node) : Prop := Forall (λ n, wf n ∧ within d n) l.

Lemma join_states_within d l l' :
  states_within d l → states_within d l' → states_within d (join_states l l').
Proof.
  intros Hl. revert l'. induction Hl as [|n l [Hw Hi] Hl IH]; intros l' Hl'; [constructor|].
  destruct Hl' as [|n' l' [Hw' Hi'] Hl']; [constructor|]. constructor; [|by apply IH].
  split; [by apply join_node_wf|by apply join_within_universe].
Qed.

Definition states_room (d : nat) (l : list Node) : nat := sum_list_with (λ n, S (room d n)) l.

Lemma join_states_room d l : ∀ l',
  states_within d l → states_within d l' →
  states_room d (join_states l l') ≤ states_room d l ∧
  (states_room d (join_states l l') = states_room d l → join_states l l' = l).
Proof.
  unfold states_room.
  induction l as [|n l IH]; intros [|n' l'] Hl Hl'; simpl; [split; [lia|done]..|split; [lia|intros; lia]|].
  apply Forall_cons in Hl as [[Hw Hi] Hl], Hl' as [[Hw' Hi'] Hl'].
  destruct (IH l' Hl Hl') as [Hle Heq]. destruct (join_room d n n') as [Hle' Heq']; [done..|].
  split; [lia|]. intros. rewrite Heq' by lia. f_equal. apply Heq. lia.
Qed.

(** No join widens for ever: the states over finitely many places, of
    bounded depth, have no infinite chain of joins each changing the one
    before. *)
Lemma join_states_wf d :
  well_founded (λ next resume : list Node, states_within d next ∧ states_within d resume ∧
    next ≠ resume ∧ ∃ other, states_within d other ∧ next = join_states resume other).
Proof.
  apply (well_founded_lt_compat _ (states_room d)).
  intros next resume (_ & Hr & Hne & other & Ho & ->).
  destruct (join_states_room d resume other Hr Ho) as [Hle Heq].
  destruct (decide (states_room d (join_states resume other) = states_room d resume));
    [by destruct Hne; apply Heq|lia].
Qed.
End finite.

(** C26: a place tree says exactly which parts were moved out.  A move adds
    the parts under its place and no others; a definition, where the value it
    is a part of is there, takes away exactly those under its place; a join
    holds moved what either side does; a place reads as owned exactly when
    no place it may name, and no part of one, is moved out, and its base
    exactly when no place it may name is. *)
Theorem place_tree_exact n p q :
  wf n →
  (blamed q (do_move p n) ↔ blamed q n ∨ p `prefix_of` q) ∧
  ((∀ p', p' `prefix_of` p → p' ≠ p → ¬ blamed p' n) →
   blamed q (do_def p n) ↔ blamed q n ∧ ¬ p `prefix_of` q) ∧
  (∀ m, blamed q (join_node n m) ↔ blamed q n ∨ blamed q m) ∧
  ((read p n).1 = Owned ↔ ∀ r ext, overlaps p r → ¬ blamed (r ++ ext) n) ∧
  ((base_at p n).1 = Owned ↔ ∀ r, overlaps p r → ¬ blamed r n).
Proof.
  intros Hn. split_and!; [apply do_move_blamed|apply do_def_blamed|intros; apply join_node_blamed
    |by apply read_owned|by apply base_at_owned].
Qed.

(** [p.a^] on one path, [p.b^] on the other: [p.c] is still there. *)
Lemma place_tree_exact_witness :
  let n := join_node (do_move [Field "a"] owned) (do_move [Field "b"] owned) in
  wf n ∧ (read [Field "a"] n).1 = MaybeMoved ∧ (read [Field "c"] n).1 = Owned ∧
  (blamed [Field "a"; Index] (do_move [Field "a"] n) ↔
   blamed [Field "a"; Index] n ∨ [Field "a"] `prefix_of` [Field "a"; Index]).
Proof.
  assert (wf (join_node (do_move [Field "a"] owned) (do_move [Field "b"] owned))) as Hn
    by (apply join_node_wf; apply do_move_wf, wf_leaf).
  split_and!; [exact Hn|by vm_compute..|].
  exact (proj1 (place_tree_exact _ [Field "a"] [Field "a"; Index] Hn)).
Defined.
