(* ===== verification/Moves.v ===== *)
(** * Moves: the lifetime scan's move checks

    The second half of [mojito-analysis/src/analysis/moves.rs]: the places an
    instruction reads or writes ([place_uses]) and what it does to the move
    state ([apply_effects]), the scan they make over the forward walk, the
    checks of a use and of the function's exits, and [analyze_lifetimes]; for
    a body that establishes no interior reference, whose generations the same
    walk would carry beside the moves. *)

From stdpp Require Import gmap sets.
From S2P Require Import Prelude Mir Structure MovePlaces ForwardWalk.

Notation VarId := nat.

(** [Proj]; a symbolic field index ([FieldAt]) is not computed with. *)
Inductive Proj : Type :=
| ProjField (name : string)
| ProjIndex (index : Reg)
| ProjConstIndex (index : nat)
| ProjVariant (alternative : option nat)
| ProjUninitPayload
| ProjRebind
| ProjFieldAt.

(** [MirPlace], its types left out. *)
Record MirPlace := MkPlace { root : VarId; proj : list Proj; through : option VarId }.

Inductive UseMode : Type := Copy | Move | BorrowShared | BorrowMut | Forward.

(** [UseMode::moves]. *)
Definition moves (mode : UseMode) : bool :=
  match mode with Move | Forward => true | Copy | BorrowShared | BorrowMut => false end.

Inductive ArgConvention : Type := Imm | Mut | Var | Out | Ref | Deinit.

Record MirLoan := MkLoan { loan_place : MirPlace; setup : bool }.

(** The instructions holding no region, with the fields the move checks
    read; the others are [Other]. *)
Inductive MoveOp : Type :=
| EstablishLoans (reference : VarId) (loans : list MirLoan) (marker : Reg)
| MakeRef (dest : Reg) (place : MirPlace)
| ReadRef (dest reference : Reg)
| WriteRef (reference value : Reg)
| MakeClosure (dest : Reg) (captures : list MirPlace)
| UseVar (dest : Reg) (var : VarId) (mode : UseMode)
| MovePlace (dest : Reg) (place : MirPlace)
| DefVar (var : VarId) (src : Reg)
| Call (dest : Reg) (args : list Reg) (kwargs : list (string * Reg))
| MethodCall (dest recv : Reg) (args : list Reg) (recv_place : option MirPlace)
    (receiver_convention : option ArgConvention)
| MultiSet (receiver_place : option MirPlace) (value : Reg)
| Store (place : MirPlace) (src : Reg)
| StoreRef (place : MirPlace) (reference : Reg)
| LoadPlace (dest : Reg) (place : MirPlace)
| VariantSet (dest : Reg) (place : MirPlace) (value : Reg)
| VariantReplace (dest : Reg) (place : MirPlace) (value : Reg)
| ConsumeVar (var : VarId)
| MarkInitialized (place : MirPlace)
| MarkDestroyed (place : MirPlace)
| DropPlace (place : MirPlace)
| HasNext (dest : Reg) (iter : VarId)
| Next (dest : Reg) (iter : VarId)
| Other (results operands : list Reg).

(** The MIR over these instructions. *)
Class MoveTypes := {
  move_param : Type;
  move_constant : Type;
  #[global] move_param_eq_dec :: EqDecision move_param;
}.

#[export] Instance move_types `{MoveTypes} : MirTypes :=
  { op := MoveOp; param := move_param; constant := move_constant }.

(** [OwnershipError], without the source spans: the errors of this scan. *)
Inductive OwnershipError : Type :=
| UseAfterMove (var : string)
| ConditionallyMoved (var : string)
| ConsumedFieldUsedLater (field var : string)
| FieldDestroyedOutOfTheMiddle (field : string)
| ReferenceParameterLeftUninitialized (var : string).

Notation check := (outcome OwnershipError).

(** [MirPlace::steps] and [MirPlace::is_whole_root]. *)
Definition is_rebind (p : Proj) : bool := match p with ProjRebind => true | _ => false end.

Definition steps (place : MirPlace) : list Proj := filter (λ p, is_rebind p = false) (proj place).

Definition is_whole_root (place : MirPlace) : bool := forallb is_rebind (proj place).

Definition place_path (place : MirPlace) : list Key :=
  omap (λ p, match p with
    | ProjField f => Some (Field f)
    | ProjIndex _ => Some Index
    | ProjConstIndex index => Some (ConstIndex index)
    | ProjVariant index => Some (Variant index)
    | ProjUninitPayload => Some UninitPayload
    | ProjFieldAt => Some FieldAt
    | ProjRebind => None
    end) (proj place).

(** [MirInstr::consumed_receiver]. *)
Definition consumed_receiver (o : MoveOp) : option MirPlace :=
  match o with
  | MethodCall _ _ _ (Some place) (Some Deinit) => Some place
  | _ => None
  end.

(** How an instruction touches a place. *)
Inductive Touch : Type := Read | Write (parent : list Key).

Record MoveContext := MkContext {
  refills : gmap nat VarId;
  setup_owners : gmap VarId (list MirPlace);
  caller_aliases : gset VarId;
  call_operands : gset nat;
}.

(** A place's last step names a part the analysis follows on its own. *)
Definition ends_in_part (place : MirPlace) : bool :=
  match last (steps place) with Some (ProjField _ | ProjConstIndex _) => true | _ => false end.

Definition ends_in_field (place : MirPlace) : bool :=
  match last (steps place) with Some (ProjField _) => true | _ => false end.

(** [parent.pop()]. *)
Definition pop (path : list Key) : list Key := take (pred (length path)) path.

Definition written (place : MirPlace) (pops : bool) : VarId * list Key * Touch :=
  let path := place_path place in
  (root place, path, Write (if pops then pop path else path)).

Definition read_use (place : MirPlace) : VarId * list Key * Touch :=
  (root place, place_path place, Read).

(** The register whose span a use reports is left out. *)
Definition place_uses (context : MoveContext) (o : MoveOp) : list (VarId * list Key * Touch) :=
  match o with
  | ReadRef _ reference =>
      match refills context !! reg reference with
      | Some var => [(var, [], Read)]
      | None => []
      end
  | EstablishLoans _ loans _ => (λ loan, read_use (loan_place loan)) <$> loans
  | UseVar _ var _ => [(var, [], Read)]
  | LoadPlace _ place | MovePlace _ place =>
      read_use place ::
      (read_use <$>
        match through place with
        | Some through => default [] (setup_owners context !! through)
        | None => []
        end)
  | MethodCall _ _ _ _ _ =>
      match consumed_receiver o with
      | Some place => if is_whole_root place then [] else [read_use place]
      | None => []
      end
  | DropPlace place | MarkDestroyed place => [read_use place]
  | MakeRef dest place =>
      if decide (reg dest ∈ call_operands context) then [read_use place] else []
  | MakeClosure _ captures => read_use <$> captures
  | Store place _ | StoreRef place _ | MarkInitialized place =>
      [written place (ends_in_part place)]
  | MultiSet receiver_place _ => read_use <$> option_list receiver_place
  | VariantSet _ place _ | VariantReplace _ place _ => [written place (ends_in_field place)]
  | HasNext _ iter | Next _ iter => [(iter, [], Read)]
  | WriteRef _ _ | DefVar _ _ | Call _ _ _ | ConsumeVar _ | Other _ _ => []
  end.

(** [state[var]] changed by [f]: a panic where the slot is not one of the
    function's. *)
Definition at_var (state : list Node) (var : VarId) (f : Node → Node) : option (list Node) :=
  node ← state !! var; Some (<[var := f node]> state).

Definition apply_effects (context : MoveContext) (state : list Node) (o : MoveOp) :
    option (list Node) :=
  match o with
  | WriteRef reference _ =>
      match refills context !! reg reference with
      | Some var => at_var state var (do_def [])
      | None => Some state
      end
  | DefVar var _ => at_var state var (do_def [])
  | UseVar _ var mode => if moves mode then at_var state var (do_move []) else Some state
  | MovePlace _ place => at_var state (root place) (do_move (place_path place))
  | ConsumeVar var => at_var state var (do_move [])
  | MethodCall _ _ _ _ _ =>
      match consumed_receiver o with
      | Some place => at_var state (root place) (do_move (place_path place))
      | None => Some state
      end
  | DropPlace place | MarkDestroyed place =>
      at_var state (root place) (do_move (place_path place))
  | Store place _ | StoreRef place _ | VariantSet _ place _ | VariantReplace _ place _ =>
      if ends_in_part place then at_var state (root place) (do_def (place_path place))
      else Some state
  | MarkInitialized place => at_var state (root place) (do_def (place_path place))
  | EstablishLoans _ _ _ | MakeRef _ _ | ReadRef _ _ | MakeClosure _ _ | Call _ _ _
  | MultiSet _ _ | LoadPlace _ _ | HasNext _ _ | Next _ _ | Other _ _ => Some state
  end.

(** A function and what the move checks read of its slots. *)
Record MoveFunction `{TyOps} := MkMoveFunction {
  mir : MirFunction;
  n_vars : nat;
  n_params : nat;
  owned_params : list bool;
  deinit_params : list bool;
  ref_params : list bool;
  var_names : list string;
}.

Section lifetimes.
Context `{MoveTypes} `{!TyOps}.

(** [for_each_instr_deep]: the instructions of a body, an op before those of
    its regions. *)
Fixpoint instr_deep (i : MirInstr) : list MirInstr :=
  i :: in_regions (flat_map (λ b, flat_map instr_deep (instrs b))) i.

Definition instrs_deep (bs : list MirBlock) : list MirInstr :=
  flat_map (λ b, flat_map instr_deep (instrs b)) bs.

Section function.
Variable f : MoveFunction.

Definition flag (flags : list bool) (var : VarId) : bool := default false (flags !! var).

Definition is_reference_parameter (var : VarId) : bool :=
  (var <? n_params f) && flag (ref_params f) var.

Definition is_deinit_root (var : VarId) : bool :=
  (var <? n_params f) && flag (deinit_params f) var.

(** One instruction's share of [move_context], with the handles of borrowed
    parameters' places found so far. *)
Definition move_context_step (found : MoveContext * gset nat) (o : MoveOp) :
    MoveContext * gset nat :=
  let '(context, parameter_references) := found in
  let 'MkContext refills setup_owners caller_aliases call_operands := context in
  match o with
  | Call _ args kwargs =>
      (MkContext refills setup_owners caller_aliases
         (list_to_set (reg <$> args ++ kwargs.*2) ∪ call_operands), parameter_references)
  | MakeRef dest place =>
      if bool_decide (through place = None) && (root place <? n_params f)
         && negb (flag (owned_params f) (root place)) then
        (context, {[ reg dest ]} ∪ parameter_references)
      else if is_whole_root place && bool_decide (through place = Some (root place))
              && is_reference_parameter (root place) then
        (MkContext (<[ reg dest := root place ]> refills) setup_owners caller_aliases call_operands,
         parameter_references)
      else (context, parameter_references)
  | DefVar var src =>
      if (n_params f <=? var) && bool_decide (reg src ∈ parameter_references) then
        (MkContext refills setup_owners ({[ var ]} ∪ caller_aliases) call_operands,
         parameter_references)
      else (context, parameter_references)
  | EstablishLoans reference loans _ =>
      let owners := loan_place <$> filter (λ loan, setup loan = true) loans in
      (MkContext refills
         (<[ reference := default [] (setup_owners !! reference) ++ owners ]> setup_owners)
         caller_aliases call_operands, parameter_references)
  | _ => (context, parameter_references)
  end.

(** The owners without a place are dropped, as they add nothing to read. *)
Definition move_context : MoveContext :=
  let '(MkContext refills setup_owners caller_aliases call_operands, _) :=
    fold_left (λ found i, match i with IOp o => move_context_step found o | _ => found end)
      (instrs_deep (blocks (mir f))) (MkContext ∅ ∅ ∅ ∅, ∅) in
  MkContext refills (filter (λ x, x.2 ≠ []) setup_owners) caller_aliases call_operands.

(** [f.var_names[var]]. *)
Definition var_name (var : VarId) : check string := unwrap (var_names f !! var).

Definition widens_hole (o : MoveOp) : bool :=
  match o with
  | MovePlace _ _ | DropPlace _ | MarkDestroyed _ => true
  | _ => match consumed_receiver o with Some place => negb (is_whole_root place) | None => false end
  end.

Definition check_use (state : list Node) (widens : bool) (use : VarId * list Key * Touch) :
    check () :=
  let '(root, path, touch) := use in
  node ← unwrap (state !! root);
  let '(sev, blame) :=
    match touch with Read => read path node | Write parent => base_at parent node end in
  match sev with
  | Owned =>
      if widens : bool then Ok ()
      else
        match disjoint_moved path (is_deinit_root root) node with
        | Some hole =>
            name ← var_name root;
            Err (ConsumedFieldUsedLater (place_display name hole) name)
        | None => Ok ()
        end
  | Moved => name ← var_name root; Err (UseAfterMove (place_display name blame))
  | MaybeMoved => name ← var_name root; Err (ConditionallyMoved (place_display name blame))
  end.

Fixpoint check_uses (state : list Node) (widens : bool) (uses : list (VarId * list Key * Touch)) :
    check () :=
  match uses with
  | [] => Ok ()
  | use :: uses => check_use state widens use;; check_uses state widens uses
  end.

Definition check_instruction_uses (context : MoveContext) (state : list Node) (i : MirInstr) :
    check () :=
  match i with
  | IOp o => check_uses state (widens_hole o) (place_uses context o)
  | _ => Ok ()
  end.

Definition check_reference_parameter_refilled (node : Node) (var : VarId) (raising : bool)
    (caller_storage : bool) : check () :=
  if negb caller_storage then Ok ()
  else
    let '(own, path) := whole node in
    match own with
    | Owned => Ok ()
    | _ =>
        name ← var_name var;
        Err (if raising then UseAfterMove (place_display name path)
             else ReferenceParameterLeftUninitialized (place_display name path))
    end.

Definition check_whole_destruction (node : Node) (var : VarId) : check () :=
  let hole :=
    if is_deinit_root var then
      find_map (λ '(key, child), cons key <$> field_hole child) (children node)
    else field_hole node in
  match hole with
  | None => Ok ()
  | Some path => name ← var_name var; Err (FieldDestroyedOutOfTheMiddle (place_display name path))
  end.

(** The loops over the slots of a state, from slot [var]. *)
Fixpoint check_slots (one : Node → VarId → check ()) (var : VarId) (state : list Node) : check () :=
  match state with
  | [] => Ok ()
  | node :: state => one node var;; check_slots one (S var) state
  end.

Definition caller_storage (context : MoveContext) (var : VarId) : bool :=
  is_reference_parameter var || bool_decide (var ∈ caller_aliases context).

Definition check_channel (one : Node → VarId → check ()) (channel : option (list Node)) : check () :=
  match channel with Some state => check_slots one 0 state | None => Ok () end.

Definition check_exits (context : MoveContext) (flow : Flow (list Node)) : check () :=
  let refilled raising node var :=
    check_reference_parameter_refilled node var raising (caller_storage context var) in
  check_channel (refilled false) (normal flow);;
  check_channel (refilled false) (exits flow);;
  check_channel (refilled true) (ForwardWalk.raises flow);;
  check_channel check_whole_destruction (normal flow);;
  check_channel check_whole_destruction (exits flow);;
  check_channel check_whole_destruction (ForwardWalk.raises flow).

(** The closure [analyze_lifetimes] observes each instruction with. *)
Definition check_instr (context : MoveContext) (state : list Node) (i : MirInstr) : check () :=
  check_instruction_uses context state i;;
  match i with
  | IOp (DefVar var _) =>
      node ← unwrap (state !! var);
      check_whole_destruction node var
  | _ => Ok ()
  end.

(** [impl ForwardScan for LifetimeScan]. *)
#[export] Instance LifetimeScan : ForwardScan (list Node) := {
  join := join_states;
  transfer state i :=
    match i with IOp o => apply_effects move_context state o | _ => Some state end;
  raise_seed state := state;
  scan_enters _ := true;
}.

#[export] Instance check_observer : ForwardObserver (list Node) OwnershipError () := {
  observe_instr _ state i := check_instr move_context state i;
  observe_op o _ _ := o;
  observe_block o _ _ _ := o;
}.

(** [analyze_lifetimes]; the fuel is the walk's. *)
Definition analyze_lifetimes (fuel : nat) : check () :=
  '(flow, _) ← walk_forward fuel (replicate (n_vars f) owned) (blocks (mir f)) ();
  check_exits move_context flow.
End function.
End lifetimes.
