(* ===== verification/MoveFacts.v ===== *)
(** * MoveFacts: what a body says of its references

    The facts [move_context] collects in one pass, said of the whole body: the
    registers naming a reference parameter, the operands of direct calls, the
    owners a reference's setup loans name, and the locals that alias a borrowed
    parameter's place.  The contract of the machine is stated with these, so
    that it does not depend on the pass; [collect_spec] relates the two. *)

From stdpp Require Import gmap sets.
From S2P Require Import Prelude Mir Structure MovePlaces ForwardWalk Moves.

Section facts.
Context `{MoveTypes} `{!TyOps}.
Variable f : MoveFunction.

(** The instructions of a body that hold no region, in order. *)
Definition as_op (i : MirInstr) : option MoveOp := match i with IOp o => Some o | _ => None end.
Definition body_ops : list MoveOp := omap as_op (instrs_deep (blocks (mir f))).

(** [place] is in a parameter that borrows. *)
Definition borrows (place : MirPlace) : bool :=
  bool_decide (through place = None) && (root place <? n_params f) && negb (flag (owned_params f) (root place)).

(** [place] is the whole referent of a reference parameter. *)
Definition names_parameter (place : MirPlace) : bool :=
  is_whole_root place && bool_decide (through place = Some (root place)) && is_reference_parameter f (root place).

(** The registers naming a reference parameter, with the parameter. *)
Definition handles (os : list MoveOp) : list (nat * VarId) :=
  omap (λ o, match o with
    | MakeRef dest place => if names_parameter place then Some (reg dest, root place) else None
    | _ => None
    end) os.

(** The parameters a register names. *)
Definition referents (r : nat) : list VarId :=
  omap (λ h, if decide (h.1 = r) then Some h.2 else None) (handles body_ops).

(** A register names one parameter. *)
Definition single_handles : bool :=
  forallb (λ h, forallb (λ h', negb (h.1 =? h'.1) || (h.2 =? h'.2)) (handles body_ops)) (handles body_ops).

(** The registers that direct calls take. *)
Definition operands (os : list MoveOp) : list nat :=
  flat_map (λ o, match o with Call _ args kwargs => reg <$> args ++ kwargs.*2 | _ => [] end) os.

(** The places the setup loans of a reference name. *)
Definition owners (os : list MoveOp) (reference : VarId) : list MirPlace :=
  flat_map (λ o, match o with
    | EstablishLoans r loans _ =>
        if decide (r = reference) then loan_place <$> filter (λ loan, setup loan = true) loans else []
    | _ => []
    end) os.

(** A local is defined from a register made before for a borrowed
    parameter's place. *)
Definition borrowed_before (before : list MoveOp) (r : nat) : Prop :=
  ∃ dest place, MakeRef dest place ∈ before ∧ borrows place = true ∧ reg dest = r.

Definition alias (os : list MoveOp) (var : VarId) : Prop :=
  ∃ before src after, os = before ++ DefVar var src :: after ∧ n_params f ≤ var ∧ borrowed_before before (reg src).

(** The caller's storage: reference parameters and these locals. *)
Definition lent (var : VarId) : Prop := is_reference_parameter f var = true ∨ alias body_ops var.

(** ** The pass *)

Definition collect (os : list MoveOp) : MoveContext * gset nat :=
  fold_left (move_context_step f) os (MkContext ∅ ∅ ∅ ∅, ∅).

Lemma collect_snoc os o : collect (os ++ [o]) = move_context_step f (collect os) o.
Proof. apply fold_left_app. Qed.

Lemma collect_body :
  fold_left (λ found i, match i with IOp o => move_context_step f found o | _ => found end)
    (instrs_deep (blocks (mir f))) (MkContext ∅ ∅ ∅ ∅, ∅) = collect body_ops.
Proof.
  unfold collect, body_ops. generalize (MkContext ∅ ∅ ∅ ∅, ∅ : gset nat).
  induction (instrs_deep (blocks (mir f))) as [|i rest IH]; intros found; [done|]. destruct i; apply IH.
Qed.

Lemma borrowed_before_snoc os o r :
  borrowed_before (os ++ [o]) r ↔
  borrowed_before os r ∨ ∃ dest place, o = MakeRef dest place ∧ borrows place = true ∧ reg dest = r.
Proof.
  unfold borrowed_before. setoid_rewrite elem_of_app. setoid_rewrite list_elem_of_singleton. naive_solver.
Qed.

Lemma alias_snoc os o var :
  alias (os ++ [o]) var ↔
  alias os var ∨ ∃ src, o = DefVar var src ∧ n_params f ≤ var ∧ borrowed_before os (reg src).
Proof.
  split.
  - intros (before & src & after & Heq & ? & ?). destruct after as [|o' after _] using rev_ind.
    + apply app_inj_tail in Heq as [-> ->]. right. by exists src.
    + rewrite app_comm_cons, (assoc_L (++)) in Heq. apply app_inj_tail in Heq as [-> ->].
      left. by exists before, src, after.
  - intros [(before & src & after & -> & ? & ?)|(src & -> & ? & ?)].
    + exists before, src, (after ++ [o]). split; [|done]. by rewrite <- (assoc_L (++)).
    + by exists os, src, [].
Qed.

(** What the pass has collected from [os]. *)
Record collected (os : list MoveOp) (found : MoveContext * gset nat) : Prop := {
  refills_sound r v : refills found.1 !! r = Some v → (r, v) ∈ handles os;
  refills_complete r v : (r, v) ∈ handles os → is_Some (refills found.1 !! r);
  owners_collected t : default [] (setup_owners found.1 !! t) = owners os t;
  operands_collected r : r ∈ call_operands found.1 ↔ r ∈ operands os;
  aliases_collected var : var ∈ caller_aliases found.1 ↔ alias os var;
  borrows_collected r : r ∈ found.2 ↔ borrowed_before os r;
}.

Lemma collected_nil : collected [] (collect []).
Proof.
  split; simpl; intros; try done; try set_solver.
  - split; [set_solver|]. intros (before & src & after & Heq & _). by destruct before.
  - split; [set_solver|]. intros (dest & place & Hin & _). by apply not_elem_of_nil in Hin.
Qed.

Lemma handles_snoc os o : handles (os ++ [o]) = handles os ++ handles [o].
Proof. apply omap_app. Qed.
Lemma owners_snoc os o t : owners (os ++ [o]) t = owners os t ++ owners [o] t.
Proof. apply flat_map_app. Qed.
Lemma operands_snoc os o : operands (os ++ [o]) = operands os ++ operands [o].
Proof. apply flat_map_app. Qed.

(** An instruction the pass ignores. *)
Lemma collected_ignored os o found :
  handles [o] = [] → operands [o] = [] → (∀ t, owners [o] t = []) →
  (∀ dest place, o = MakeRef dest place → borrows place = false) →
  (∀ var src, o = DefVar var src → n_params f ≤ var → ¬ borrowed_before os (reg src)) →
  collected os found → collected (os ++ [o]) found.
Proof.
  intros Hh Hop Ho Hm Hd [Hs Hc Hw Hp Ha Hb].
  split; intros; rewrite ?handles_snoc, ?owners_snoc, ?operands_snoc, ?alias_snoc, ?borrowed_before_snoc,
    ?Hh, ?Hop, ?Ho, ?app_nil_r in *; eauto.
  - rewrite Ha. naive_solver.
  - rewrite Hb. split; [by left|]. intros [|(dest & place & -> & Hbo & _)]; [done|]. by rewrite (Hm dest place) in Hbo.
Qed.

Lemma collected_snoc os o : collected os (collect os) → collected (os ++ [o]) (collect (os ++ [o])).
Proof.
  rewrite collect_snoc. destruct (collect os) as [[refills_ owners_ aliases_ operands_] borrows_]. intros Hcol.
  destruct o as [reference loans ?|dest place| | | | | |var src|? args kwargs| | | | | | | | | | | | | |];
    try (by apply collected_ignored).
  - destruct Hcol as [Hs Hc Ho Hop Ha Hb]. simpl in *.
    split; simpl; intros; rewrite ?handles_snoc, ?owners_snoc, ?operands_snoc, ?alias_snoc, ?borrowed_before_snoc, ?app_nil_r in *; eauto.
    + simpl. rewrite app_nil_r. destruct (decide (reference = t)) as [->|].
      * by rewrite lookup_insert_eq, <- Ho.
      * by rewrite lookup_insert_ne, Ho, app_nil_r.
    + rewrite Ha. naive_solver.
    + rewrite Hb. naive_solver.
  - simpl. fold (borrows place). destruct (borrows place) eqn:Hbor.
    { destruct Hcol as [Hs Hc Ho Hop Ha Hb]. simpl in *.
      assert (Hno : names_parameter place = false).
      { unfold borrows, names_parameter in *. apply andb_true_iff in Hbor as [[->%bool_decide_eq_true _]%andb_true_iff _].
        by rewrite andb_false_r. }
      split; simpl; intros; rewrite ?handles_snoc, ?owners_snoc, ?operands_snoc, ?alias_snoc, ?borrowed_before_snoc in *;
        simpl in *; rewrite ?Hno, ?app_nil_r in *; eauto.
      - rewrite Ha. naive_solver.
      - rewrite elem_of_union, elem_of_singleton, Hb. naive_solver. }
    fold (names_parameter place). destruct (names_parameter place) eqn:Hnames.
    + destruct Hcol as [Hs Hc Ho Hop Ha Hb]. simpl in *.
      split; simpl; intros; rewrite ?handles_snoc, ?owners_snoc, ?operands_snoc, ?alias_snoc, ?borrowed_before_snoc in *;
        simpl in *; rewrite ?Hnames, ?app_nil_r in *; eauto.
      * rewrite elem_of_app, list_elem_of_singleton. destruct (decide (r = reg dest)) as [->|].
        { rewrite lookup_insert_eq in *. naive_solver. }
        rewrite lookup_insert_ne in * by done. left. by apply Hs.
      * destruct (decide (r = reg dest)) as [->|]; [by rewrite lookup_insert_eq|].
        rewrite lookup_insert_ne by done. rewrite elem_of_app, list_elem_of_singleton in *.
        apply (Hc r v). naive_solver.
      * rewrite Ha. naive_solver.
      * rewrite Hb. naive_solver congruence.
    + apply collected_ignored; simpl; rewrite ?Hnames; try done. by intros ? ? [= <- <-].
  - simpl. destruct (_ && _) eqn:Hcond.
    + apply andb_true_iff in Hcond as [Hle%Nat.leb_le Hin%bool_decide_eq_true].
      destruct Hcol as [Hs Hc Ho Hop Ha Hb]. simpl in *.
      split; simpl; intros; rewrite ?handles_snoc, ?owners_snoc, ?operands_snoc, ?alias_snoc, ?borrowed_before_snoc, ?app_nil_r in *; eauto.
      * rewrite elem_of_union, elem_of_singleton, Ha. rewrite Hb in Hin. naive_solver.
      * rewrite Hb. naive_solver.
    + apply collected_ignored; try done. intros ? ? [= <- <-] Hle Hbor.
      apply andb_false_iff in Hcond as [Hc%Nat.leb_gt|Hc%bool_decide_eq_false]; [lia|].
      destruct Hcol. simpl in *. naive_solver.
  - destruct Hcol as [Hs Hc Ho Hop Ha Hb]. simpl in *.
    split; simpl; intros; rewrite ?handles_snoc, ?owners_snoc, ?operands_snoc, ?alias_snoc, ?borrowed_before_snoc in *;
      simpl in *; rewrite ?app_nil_r in *; eauto.
    + rewrite elem_of_union, elem_of_list_to_set, Hop, elem_of_app. tauto.
    + rewrite Ha. naive_solver.
    + rewrite Hb. naive_solver.
Qed.

Lemma collect_spec os : collected os (collect os).
Proof. induction os as [|o os IH] using rev_ind; [apply collected_nil|by apply collected_snoc]. Qed.

(** ** The facts of a body *)

Lemma referents_spec r v : v ∈ referents r ↔ (r, v) ∈ handles body_ops.
Proof.
  unfold referents. rewrite list_elem_of_omap. split.
  - intros ([r' v'] & Hin & Hr). simpl in Hr. by case_decide; simplify_eq.
  - intros Hin. exists (r, v). split; [done|]. simpl. by rewrite decide_True.
Qed.

Lemma refills_referents r v : refills (move_context f) !! r = Some v → v ∈ referents r.
Proof.
  unfold move_context. rewrite collect_body, referents_spec. pose proof (collect_spec body_ops) as Hc.
  destruct (collect body_ops) as [[]]. apply Hc.
Qed.

Lemma referents_refills r v :
  single_handles = true → v ∈ referents r → refills (move_context f) !! r = Some v.
Proof.
  intros Hs Hv. pose proof Hv as Hin%referents_spec. unfold move_context. rewrite collect_body.
  pose proof (collect_spec body_ops) as [Hr Hc _ _ _ _]. destruct (collect body_ops) as [[]]. simpl in *.
  destruct (Hc r v Hin) as [v' Hv']. rewrite Hv'. f_equal. apply Hr in Hv'.
  unfold single_handles in Hs. rewrite forallb_forall in Hs. apply list_elem_of_In, Hs in Hv'.
  rewrite forallb_forall in Hv'. apply list_elem_of_In, Hv' in Hin. simpl in Hin.
  rewrite Nat.eqb_refl in Hin. by apply Nat.eqb_eq in Hin.
Qed.

Lemma setup_owners_owners t : default [] (setup_owners (move_context f) !! t) = owners body_ops t.
Proof.
  unfold move_context. rewrite collect_body. pose proof (collect_spec body_ops) as [_ _ Ho _ _ _].
  destruct (collect body_ops) as [[? owners_]]. simpl in *. rewrite <- Ho.
  rewrite map_lookup_filter. destruct (owners_ !! t) as [l|]; simpl; [|done].
  case_guard as Hl; simpl; [done|]. by destruct l; [|destruct Hl].
Qed.

Lemma call_operands_operands r : r ∈ call_operands (move_context f) ↔ r ∈ operands body_ops.
Proof.
  unfold move_context. rewrite collect_body. pose proof (collect_spec body_ops) as [_ _ _ Ho _ _].
  by destruct (collect body_ops) as [[]].
Qed.

Lemma lent_caller_storage var : lent var ↔ caller_storage f (move_context f) var = true.
Proof.
  unfold lent, caller_storage, move_context. rewrite collect_body. pose proof (collect_spec body_ops) as [_ _ _ _ Ha _].
  destruct (collect body_ops) as [[]]. simpl in *. by rewrite orb_true_iff, bool_decide_eq_true, Ha.
Qed.
End facts.
