(* ===== verification/MoveSafety.v ===== *)
(** * MoveSafety: what the move checks promise of a run

    The contract of a machine that keeps track of which storage holds a value
    ([OwnershipMachine]): what its instructions need, fill, lose and gain.  On
    such a machine a function [analyze_lifetimes] accepts never uses a value
    moved out ([analyze_lifetimes_safe]), and gives its caller's storage back
    whole; and the analysis always gives an answer
    ([analyze_lifetimes_ends]). *)

From Stdlib Require Import Wellfounded.Inclusion.
From stdpp Require Import gmap sets.
From S2P Require Import Prelude Mir Structure Regions RegionSemantics RegionSafety MovePlaces.
From S2P Require Import ForwardWalk ForwardSound ForwardEnds Moves MoveFacts.

(** A key that names one part of a value. *)
Definition precise (k : Key) : bool :=
  match k with
  | Field _ | ConstIndex _ | Variant (Some _) | UninitPayload => true
  | Index | Variant None | FieldAt => false
  end.

Notation precise_path := (Forall (λ k, precise k = true)).

(** ** The contract of the instructions *)

Definition slot (var : VarId) : MirPlace := MkPlace var [] None.

(** The storage an instruction uses the whole value of: through a reference,
    that of the parameter it names; through a reference slot, that of the owners
    its setup loans name; behind a call's operand, that it addresses. *)
Definition needs `{MoveTypes, !TyOps} (f : MoveFunction) (o : MoveOp) : list MirPlace :=
  match o with
  | ReadRef _ reference => slot <$> referents f (reg reference)
  | EstablishLoans _ loans _ => loan_place <$> loans
  | MakeRef dest place => if decide (reg dest ∈ operands (body_ops f)) then [place] else []
  | UseVar _ var _ => [slot var]
  | LoadPlace _ place | MovePlace _ place =>
      place :: match through place with Some reference => owners (body_ops f) reference | None => [] end
  | DropPlace place | MarkDestroyed place => [place]
  | MakeClosure _ captures => captures
  | MultiSet (Some place) _ => [place]
  | MethodCall _ _ _ (Some place) (Some Deinit) => if is_whole_root place then [] else [place]
  | HasNext _ iter | Next _ iter => [slot iter]
  | _ => []
  end.

(** The storage an instruction writes: a part of a value that must be there,
    the part itself apart when the flag says so. *)
Definition fills (o : MoveOp) : list (MirPlace * bool) :=
  match o with
  | Store place _ | StoreRef place _ | MarkInitialized place => [(place, ends_in_part place)]
  | VariantSet _ place _ | VariantReplace _ place _ => [(place, ends_in_field place)]
  | _ => []
  end.

(** The storage an instruction leaves without its value. *)
Definition loses (o : MoveOp) : list MirPlace :=
  match o with
  | UseVar _ var (Move | Forward) | ConsumeVar var => [slot var]
  | MovePlace _ place | DropPlace place | MarkDestroyed place => [place]
  | MethodCall _ _ _ (Some place) (Some Deinit) => [place]
  | _ => []
  end.

(** The storage an instruction puts a value in. *)
Definition gains `{MoveTypes, !TyOps} (f : MoveFunction) (o : MoveOp) : list MirPlace :=
  match o with
  | DefVar var _ => [slot var]
  | Store place _ | StoreRef place _ | VariantSet _ place _ | VariantReplace _ place _
  | MarkInitialized place => [place]
  | WriteRef reference _ => slot <$> referents f (reg reference)
  | _ => []
  end.

(** A machine that tells the storage that holds a value ([live], part by
    part) and where a place is ([at_place]).  An instruction takes values
    only out of the storage it loses, which is known where the function is
    written, and fails on missing values ([bad]) only for those it needs or
    fills. *)
Class OwnershipMachine `{MoveTypes, !TyOps, !Values} {Rest : Type} (f : MoveFunction)
    (exec : MirInstr → list Value → Rest → vm (list Value * Rest))
    (bad : RuntimeError → Prop) := {
  live : Rest → VarId → list Key → Prop;
  at_place : MirPlace → list Value → Rest → list Key;
  at_place_overlaps place regs s : overlaps (place_path place) (at_place place regs s);
  at_place_precise place regs s : precise_path (at_place place regs s);
  machine_keeps o regs s regs' s' v q :
    exec (IOp o) regs s = Ok (regs', s') → precise_path q → live s v q →
    live s' v q ∨ ∃ place, place ∈ loses o ∧ root place = v ∧ at_place place regs s `prefix_of` q;
  machine_gains o regs s regs' s' place q :
    exec (IOp o) regs s = Ok (regs', s') → place ∈ gains f o →
    at_place place regs s `prefix_of` q → precise_path q → live s' (root place) q;
  machine_static o regs s c place :
    exec (IOp o) regs s = Ok c → place ∈ loses o → precise_path (place_path place);
  machine_bad o regs s e :
    exec (IOp o) regs s = Err e → bad e →
    (∃ place q, place ∈ needs f o ∧ at_place place regs s `prefix_of` q ∧ precise_path q ∧
       ¬ live s (root place) q) ∨
    (∃ place part, (place, part) ∈ fills o ∧
       ¬ live s (root place) (if part : bool then pop (at_place place regs s)
                              else at_place place regs s));
  machine_assert value regs s regs' s' v q :
    exec (IComptimeAssert value) regs s = Ok (regs', s') → live s v q → live s' v q;
  machine_assert_bad value regs s e : exec (IComptimeAssert value) regs s = Err e → ¬ bad e;
  machine_refusal w : ¬ bad (Unsupported w);
}.

Lemma overlap_precise k k' :
  precise k = true → precise k' = true → keys_overlap k k' = true → k = k'.
Proof.
  unfold keys_overlap. case_bool_decide; [done|].
  by destruct k as [| | |[]| |], k' as [| | |[]| |].
Qed.

Lemma overlaps_precise p q : precise_path p → precise_path q → overlaps p q → p = q.
Proof.
  intros Hp Hq Ho. revert Hp Hq.
  induction Ho as [|k k' p q Hk _ IH]; [done|]. intros [Hpk Hp]%Forall_cons [Hqk Hq]%Forall_cons.
  f_equal; [by apply overlap_precise|by apply IH].
Qed.

Lemma prefix_precise (p q : list Key) : p `prefix_of` q → precise_path q → precise_path p.
Proof. intros [ext ->] [? _]%Forall_app. done. Qed.

Lemma overlaps_length p q : overlaps p q → length p = length q.
Proof. apply Forall2_length. Qed.

Lemma overlaps_pop p q : overlaps p q → overlaps (pop p) (pop q).
Proof. intros Ho. unfold pop. rewrite (overlaps_length _ _ Ho). by apply Forall2_take. Qed.

Section safety.
Context `{MoveTypes} `{!TyOps, !OpChecks, !Values} {Rest : Type}.
Variable f : MoveFunction.
Variable exec : MirInstr → list Value → Rest → vm (list Value * Rest).
Variable bad : RuntimeError → Prop.
Context `{!OwnershipMachine f exec bad}.
Context (Hsingle : single_handles f = true).
Notation context := (move_context f).
#[local] Set Default Proof Using "Type*".
#[local] Existing Instances LifetimeScan check_observer.

(** The move state describes the machine: what it does not blame is there. *)
Definition node_describes (n : Node) (s : Rest) (v : VarId) : Prop :=
  ∀ q, precise_path q → blamed q n ∨ live s v q.

Definition describes (state : list Node) (c : list Value * Rest) : Prop :=
  ∀ v n, state !! v = Some n → node_describes n c.2 v.

(** A use the checks let pass finds the value there. *)
Lemma read_live n s v p q ext :
  node_describes n s v → (read p n).1 = Owned → overlaps p q → precise_path (q ++ ext) →
  live s v (q ++ ext).
Proof using Type.
  intros Hd Hr Ho Hp. destruct (Hd _ Hp) as [Hb|]; [|done].
  by destruct (read_unblamed p n Hr q ext Ho).
Qed.

Lemma base_at_live n s v p q :
  node_describes n s v → (base_at p n).1 = Owned → overlaps p q → precise_path q → live s v q.
Proof using Type.
  intros Hd Hr Ho Hp. destruct (Hd _ Hp) as [Hb|]; [|done].
  by destruct (base_at_unblamed p n Hr q Ho).
Qed.

(** ** Effects *)

(** The effect of an instruction on one slot. *)
Lemma at_var_lookup state var g state' v n :
  at_var state var g = Some state' → state' !! v = Some n →
  (v = var ∧ ∃ n0, state !! v = Some n0 ∧ n = g n0) ∨ (v ≠ var ∧ state !! v = Some n).
Proof using Type.
  unfold at_var. destruct (state !! var) as [n0|] eqn:Hn; simpl; [|done]. intros [= <-] Hv.
  destruct (decide (v = var)) as [->|].
  - left. split; [done|]. exists n0. split; [done|].
    rewrite list_lookup_insert_eq in Hv by (by eapply lookup_lt_Some). congruence.
  - right. by rewrite list_lookup_insert_ne in Hv.
Qed.

(** A step that loses only [place], moved out of the state. *)
Lemma describes_move o place state state' regs s regs' s' :
  describes state (regs, s) → exec (IOp o) regs s = Ok (regs', s') → loses o = [place] →
  at_var state (root place) (do_move (place_path place)) = Some state' →
  describes state' (regs', s').
Proof.
  intros Hd He Hl Hat v n Hv.
  assert (at_place place regs s = place_path place) as Hplace.
  { symmetry. apply overlaps_precise; [|apply at_place_precise|apply at_place_overlaps].
    eapply machine_static; [done|]. rewrite Hl. by left. }
  destruct (at_var_lookup _ _ _ _ _ _ Hat Hv) as [(-> & n0 & Hn0 & ->)|[Hne Hn0]];
    pose proof (Hd _ _ Hn0) as Hq; simpl in *; intros q Hp.
  - rewrite do_move_blamed.
    destruct (Hq q Hp) as [|Hlive]; [by left; left|].
    destruct (machine_keeps _ _ _ _ _ _ _ He Hp Hlive) as [|(place' & Hin & _ & Hpre)]; [by right|].
    rewrite Hl in Hin. apply list_elem_of_singleton in Hin as ->. left. right. by rewrite <- Hplace.
  - destruct (Hq q Hp) as [|Hlive]; [by left|].
    destruct (machine_keeps _ _ _ _ _ _ _ He Hp Hlive) as [|(place' & Hin & Hroot & Hpre)];
      [by right|].
    rewrite Hl in Hin. by apply list_elem_of_singleton in Hin as ->.
Qed.

(** A step that loses nothing. *)
Lemma describes_kept o state regs s regs' s' :
  describes state (regs, s) → exec (IOp o) regs s = Ok (regs', s') → loses o = [] →
  describes state (regs', s').
Proof.
  intros Hd He Hl v n Hv q Hp.
  destruct (Hd _ _ Hv q Hp) as [|Hlive]; [by left|].
  destruct (machine_keeps _ _ _ _ _ _ _ He Hp Hlive) as [|(place' & Hin & _)]; [by right|].
  rewrite Hl in Hin. by apply not_elem_of_nil in Hin.
Qed.

(** A step that gains [place] and loses nothing, defined in the state: a
    place the state does not follow part by part stays blamed. *)
Lemma describes_def o place state state' regs s regs' s' :
  describes state (regs, s) → exec (IOp o) regs s = Ok (regs', s') → loses o = [] →
  place ∈ gains f o →
  at_var state (root place) (do_def (place_path place)) = Some state' →
  describes state' (regs', s').
Proof.
  intros Hd He Hl Hg Hat v n Hv. pose proof (describes_kept _ _ _ _ _ _ Hd He Hl) as Hk.
  destruct (at_var_lookup _ _ _ _ _ _ Hat Hv) as [(-> & n0 & Hn0 & ->)|[Hne Hn0]]; [|by apply Hk].
  pose proof (Hk _ _ Hn0) as Hq. intros q Hp. simpl in *.
  destruct (decide (place_path place `prefix_of` q)) as [Hpre|Hpre].
  - right. eapply machine_gains; [done..| |done].
    rewrite <- (overlaps_precise (place_path place) (at_place place regs s)); [done| |
      apply at_place_precise|apply at_place_overlaps].
    by eapply prefix_precise.
  - destruct (Hq q Hp) as [Hb|]; [|by right]. left. by apply do_def_keeps.
Qed.

Lemma describes_effects o state state' regs s regs' s' :
  describes state (regs, s) → exec (IOp o) regs s = Ok (regs', s') →
  apply_effects context state o = Some state' → describes state' (regs', s').
Proof.
  intros Hd He Ha.
  assert (∀ state', loses o = [] → Some state = Some state' → describes state' (regs', s')) as Hkept.
  { intros ? Hl [= <-]. by eapply describes_kept. }
  destruct o as [| | |reference ?| |? var []|? place|var ?| |? ? ? [place|] [[]|]| |place ?|place ?|
    |? place ?|? place ?|var|place|place|place| | |]; simpl in Ha;
    try (by apply Hkept).
  - destruct (refills context !! reg reference) as [var|] eqn:Hr; [|by apply Hkept].
    eapply (describes_def _ (slot var)); [done..| |exact Ha]. simpl.
    by apply (list_elem_of_fmap_2 slot), refills_referents.
  - by eapply (describes_move _ (slot var)).
  - by eapply (describes_move _ (slot var)).
  - by eapply describes_move.
  - eapply (describes_def _ (slot var)); [done..| |exact Ha]. by left.
  - by eapply describes_move.
  - destruct (ends_in_part place); [|by apply Hkept].
    eapply describes_def; [done..| |exact Ha]. by left.
  - destruct (ends_in_part place); [|by apply Hkept].
    eapply describes_def; [done..| |exact Ha]. by left.
  - destruct (ends_in_part place); [|by apply Hkept].
    eapply describes_def; [done..| |exact Ha]. by left.
  - destruct (ends_in_part place); [|by apply Hkept].
    eapply describes_def; [done..| |exact Ha]. by left.
  - by eapply (describes_move _ (slot var)).
  - eapply describes_def; [done..| |exact Ha]. by left.
  - by eapply describes_move.
  - by eapply describes_move.
Qed.

(** ** Checks *)

Lemma check_uses_all state widens uses use :
  check_uses f state widens uses = Ok () → use ∈ uses → check_use f state widens use = Ok ().
Proof using Type.
  induction uses as [|use' uses IH]; simpl; intros Hc Hin; [by apply not_elem_of_nil in Hin|].
  bind_inv Hc. destruct a. apply elem_of_cons in Hin as [->|Hin]; [done|by apply IH].
Qed.

Lemma check_use_read state widens var path :
  check_use f state widens (var, path, Read) = Ok () →
  ∃ n, state !! var = Some n ∧ (read path n).1 = Owned.
Proof using Type.
  simpl. destruct (state !! var) as [n|]; simpl; [|done].
  destruct (read path n) as [[] blame] eqn:Hr; simpl; intros Hc;
    [exists n; by rewrite Hr|by destruct (var_name f var)..].
Qed.

Lemma check_use_write state widens var path parent :
  check_use f state widens (var, path, Write parent) = Ok () →
  ∃ n, state !! var = Some n ∧ (base_at parent n).1 = Owned.
Proof using Type.
  simpl. destruct (state !! var) as [n|]; simpl; [|done].
  destruct (base_at parent n) as [[] blame] eqn:Hr; simpl; intros Hc;
    [exists n; by rewrite Hr|by destruct (var_name f var)..].
Qed.

(** A place read through a reference slot, with the owners behind it. *)
Lemma owned_place_used place place' :
  place ∈ place' :: match through place' with Some reference => owners (body_ops f) reference | None => [] end →
  (root place, place_path place, Read) ∈
  read_use place' ::
    (read_use <$> match through place' with Some through => default [] (setup_owners context !! through) | None => [] end).
Proof using Type.
  intros Hin. apply (list_elem_of_fmap_2 read_use) in Hin. rewrite fmap_cons in Hin.
  destruct (through place'); [|done]. by rewrite setup_owners_owners.
Qed.

(** What an instruction needs or fills is among the places it is checked to
    use. *)
Lemma needs_used o place :
  place ∈ needs f o → (root place, place_path place, Read) ∈ place_uses context o.
Proof using Hsingle.
  destruct o as [? loans|dest place'|? reference| |? captures| |? place'| | |? ? ? [place'|] [[]|]|[place'|]| | |? place'| | | | | | | | |];
    simpl; try (by intros ?%not_elem_of_nil); try (intros ->%list_elem_of_singleton; by left).
  - intros (loan & -> & Hin)%list_elem_of_fmap. by apply (list_elem_of_fmap_2 (λ loan, read_use (loan_place loan))).
  - destruct (decide (reg dest ∈ operands (body_ops f))) as [Hop|]; [|by intros ?%not_elem_of_nil].
    intros ->%list_elem_of_singleton. rewrite decide_True by (by apply call_operands_operands). by left.
  - intros (var & -> & Hin)%list_elem_of_fmap. rewrite (referents_refills f _ var) by done. by left.
  - intros Hin. by apply (list_elem_of_fmap_2 read_use).
  - by apply owned_place_used.
  - case_match; [by intros ?%not_elem_of_nil|]. intros ->%list_elem_of_singleton. by left.
  - by apply owned_place_used.
Qed.

Lemma fills_used o place part :
  (place, part) ∈ fills o →
  (root place, place_path place, Write (if part : bool then pop (place_path place)
                                        else place_path place)) ∈ place_uses context o.
Proof using Type.
  destruct o; simpl; try (by intros ?%not_elem_of_nil);
    intros Hin%list_elem_of_singleton; simplify_eq; by left.
Qed.

(** An instruction that passed its checks does not fail on a missing value. *)
Lemma checked_not_bad o state regs s e :
  describes state (regs, s) → check_instruction_uses f context state (IOp o) = Ok () →
  exec (IOp o) regs s = Err e → ¬ bad e.
Proof.
  intros Hd Hc He Hbad. simpl in Hc.
  destruct (machine_bad _ _ _ _ He Hbad)
    as [(place & q & Hin & Hpre & Hp & Hno)|(place & part & Hin & Hno)].
  - destruct (check_use_read _ _ _ _ (check_uses_all _ _ _ _ Hc (needs_used _ _ Hin)))
      as (n & Hn & Hr). destruct Hpre as [ext ->]. apply Hno.
    eapply read_live; [by apply (Hd _ _ Hn)|done|apply at_place_overlaps|done].
  - destruct (check_use_write _ _ _ _ _ (check_uses_all _ _ _ _ Hc (fills_used _ _ _ Hin)))
      as (n & Hn & Hr). apply Hno.
    pose proof (at_place_overlaps place regs s) as Ho. pose proof (at_place_precise place regs s) as Hp.
    eapply base_at_live; [by apply (Hd _ _ Hn)|done|destruct part; [by apply overlaps_pop|done]|].
    destruct part; [by apply Forall_take|done].
Qed.

Lemma describes_join_l a b c : describes a c → describes (join_states a b) c.
Proof using Type.
  intros Hd v n (na & nb & -> & Ha & Hb)%lookup_zip_with_Some q Hp. rewrite join_node_blamed.
  destruct (Hd _ _ Ha q Hp); auto.
Qed.

Lemma describes_join_r a b c : describes b c → describes (join_states a b) c.
Proof using Type.
  intros Hd v n (na & nb & -> & Ha & Hb)%lookup_zip_with_Some q Hp. rewrite join_node_blamed.
  destruct (Hd _ _ Hb q Hp); auto.
Qed.

(** The lifetime scan is sound of the machine. *)
#[export] Instance LifetimeScan_sound :
  SoundScan (ForwardScan0 := LifetimeScan f) (ForwardObserver0 := check_observer f)
    exec describes bad.
Proof.
  split.
  - apply describes_join_l.
  - apply describes_join_r.
  - done.
  - done.
  - intros a a' i regs s [regs' s'] Hi Hd He Ht.
    destruct i as [| | | | |value| |o]; simpl in Hi, Ht; try done; try (by apply app_nil in Hi as []).
    + simplify_eq. intros v n Hv q Hp. destruct (Hd v n Hv q Hp) as [|Hlive]; [by left|right].
      by eapply machine_assert.
    + by eapply describes_effects.
  - by intros [].
  - intros [] a i o' regs s e Hi Hd Ho He. simpl in Ho. unfold check_instr in Ho.
    destruct i as [| | | | |value| |o]; simpl in Hi; try done; try (by apply app_nil in Hi as []);
      [by eapply machine_assert_bad|].
    bind_inv Ho. destruct a0. by eapply checked_not_bad.
  - apply machine_refusal.
Qed.

(** ** The exits *)

Lemma check_slots_all one state : ∀ var v n,
  check_slots one var state = Ok () → state !! v = Some n → one n (var + v) = Ok ().
Proof using Type.
  induction state as [|n0 state IH]; intros var v n Hc Hv; simpl in *; [done|].
  bind_inv Hc. destruct a. destruct v as [|v]; simplify_eq/=; [by rewrite Nat.add_0_r|].
  rewrite Nat.add_succ_r. by apply (IH (S var)).
Qed.

Lemma refilled_whole n var raising :
  check_reference_parameter_refilled f n var raising true = Ok () → (whole n).1 = Owned.
Proof using Type.
  unfold check_reference_parameter_refilled. simpl.
  destruct (whole n) as [[] path]; simpl; [done|by destruct (var_name f var)..].
Qed.

(** At a channel whose slots were checked, the caller's storage is whole. *)
Lemma channel_refilled raising channel c var :
  check_channel (λ node var, check_reference_parameter_refilled f node var raising
    (caller_storage f context var)) channel = Ok () →
  caller_storage f context var = true → (∃ state n, channel = Some state ∧ state !! var = Some n) →
  covers describes channel c → ∀ q, precise_path q → live c.2 var q.
Proof.
  intros Hc Hvar (state & n & -> & Hn) Hd q Hp. simpl in Hc, Hd.
  apply (check_slots_all _ _ 0 _ _) with (2 := Hn) in Hc. simpl in Hc. rewrite Hvar in Hc.
  apply refilled_whole in Hc. destruct (Hd _ _ Hn q Hp) as [Hb|]; [|done].
  by destruct (whole_unblamed _ Hc q).
Qed.
End safety.

(** ** The states of a function's walk *)

Section states.
Context `{MoveTypes} `{!TyOps}.
Variable f : MoveFunction.
Notation context := (move_context f).
#[local] Existing Instances LifetimeScan check_observer.

(** The places whose state an instruction changes. *)
Definition effect_places (i : MirInstr) : list MirPlace :=
  match i with IOp o => loses o ++ gains f o | _ => [] end.

Definition body_instrs : list MirInstr := instrs_deep (blocks (mir f)).

(** The keys of those places, and the length of the longest. *)
Definition universe : list Key :=
  body_instrs ≫= λ i, effect_places i ≫= place_path.

Definition bound : nat :=
  max_list (body_instrs ≫= λ i, (λ place, length (place_path place)) <$> effect_places i).

Definition known (i : MirInstr) : Prop :=
  ∀ place, place ∈ effect_places i → length (place_path place) ≤ bound ∧ place_path place ⊆ universe.

Definition inside (state : list Node) : Prop :=
  length state = n_vars f ∧ states_within universe bound state.

Lemma body_instr_known i : i ∈ body_instrs → known i.
Proof.
  intros Hi place Hp. split.
  - apply max_list_elem_of_le, list_elem_of_bind. exists i. split; [|done].
    by apply (list_elem_of_fmap_2 (λ place, length (place_path place))).
  - intros k Hk. apply list_elem_of_bind. exists i. split; [|done].
    apply list_elem_of_bind. eauto.
Qed.

Lemma elem_of_flat_map {A B} (g : A → list B) l x : x ∈ flat_map g l ↔ ∃ y, y ∈ l ∧ x ∈ g y.
Proof.
  induction l as [|y l IH]; simpl; [set_solver|]. rewrite elem_of_app, IH. set_solver.
Qed.

(** The instructions of an op's regions are among those of the op. *)
Lemma instr_deep_nested i bs b j :
  bs ∈ instruction_regions i → b ∈ bs → j ∈ instrs b → instr_deep j ⊆ instr_deep i.
Proof.
  intros Hbs Hb Hj x Hx.
  assert (instr_deep i = i :: in_regions (flat_map (λ b, flat_map instr_deep (instrs b))) i)
    as -> by (by destruct i).
  right. rewrite in_regions_eq. apply list_elem_of_bind. exists bs. split; [|done].
  apply elem_of_flat_map. exists b. split; [done|]. apply elem_of_flat_map. eauto.
Qed.

Lemma instr_deep_self i : i ∈ instr_deep i.
Proof. destruct i; simpl; by left. Qed.

Lemma deep_instr_known i : instr_deep i ⊆ body_instrs → deep_known known i.
Proof.
  induction i as [i IH] using MirInstr_nested_ind. intros Hi. constructor.
  - apply body_instr_known, Hi, instr_deep_self.
  - intros bs b j Hbs Hb Hj. eapply IH; [done..|]. etrans; [|done]. by eapply instr_deep_nested.
Qed.

Lemma body_is_known : body_known known (blocks (mir f)).
Proof.
  intros b i Hb Hi. apply deep_instr_known. intros x Hx. unfold body_instrs, instrs_deep.
  apply elem_of_flat_map. exists b. split; [done|]. apply elem_of_flat_map. eauto.
Qed.

Lemma inside_entry : inside (replicate (n_vars f) owned).
Proof.
  split; [apply length_replicate|]. apply Forall_replicate. split; [apply wf_leaf|].
  apply (within_leaf universe bound Owned).
Qed.

Lemma inside_joined a b : inside a → inside b → inside (join_states a b).
Proof.
  intros [Hla Ha] [Hlb Hb]. split; [|by apply join_states_within].
  unfold join_states. rewrite length_zip_with. lia.
Qed.

Lemma inside_at_var state place g state' :
  inside state → (∀ n, wf n → wf (g n)) →
  (∀ n, within universe bound n → within universe bound (g n)) →
  at_var state (root place) g = Some state' → inside state'.
Proof.
  intros [Hl Hs] Hwf Hin Hat. unfold at_var in Hat.
  destruct (state !! root place) as [n|] eqn:Hn; simplify_eq/=.
  split; [by rewrite length_insert|]. apply Forall_insert; [done|].
  eapply Forall_lookup in Hs as [? ?]; [|done]. auto.
Qed.

Lemma inside_effects o state state' :
  known (IOp o) → inside state → apply_effects context state o = Some state' → inside state'.
Proof.
  intros Hk Hs Ha. unfold known, effect_places in Hk.
  assert (∀ place, place ∈ loses o ++ gains f o →
    at_var state (root place) (do_move (place_path place)) = Some state' → inside state') as Hmove.
  { intros place [Hl Hu]%Hk. apply inside_at_var; [done|apply do_move_wf|].
    intros n. by apply do_move_within. }
  assert (∀ place, place ∈ loses o ++ gains f o →
    at_var state (root place) (do_def (place_path place)) = Some state' → inside state') as Hdef.
  { intros place [Hl Hu]%Hk. apply inside_at_var; [done|apply do_def_wf|].
    intros n. by apply do_def_within. }
  clear Hk.
  destruct o as [| | |reference ?| |? var []|? place|var ?| |? ? ? [place|] [[]|]| |place ?|place ?|
    |? place ?|? place ?|var|place|place|place| | |]; simpl in *;
    try (by simplify_eq);
    try (by apply (Hmove (slot var)); [left|]); try (by apply (Hmove place); [left|]);
    try (by apply (Hdef (slot var)); [left|]); try (by apply (Hdef place); [left|]);
    try (destruct (ends_in_part place); [by apply (Hdef place); [left|]|by simplify_eq]).
  destruct (refills context !! reg reference) as [var|] eqn:Hr; [|by simplify_eq].
  apply (Hdef (slot var)); [|done]. by apply (list_elem_of_fmap_2 slot), refills_referents.
Qed.

Lemma inside_transferred a i a' :
  known i → inside a → transfer (ForwardScan := LifetimeScan f) a i = Some a' → inside a'.
Proof.
  intros Hk Ha Ht. destruct i; simpl in Ht; simplify_eq; try done. by eapply inside_effects.
Qed.

(** ** The checks give an answer *)

Lemma bind_ends {E A B} (r : outcome E A) (k : A → outcome E B) :
  r ≠ Diverge → (∀ a, k a ≠ Diverge) → r ≫= k ≠ Diverge.
Proof. destruct r; simpl; auto. Qed.

Lemma unwrap_ends {E A} (o : option A) : unwrap (E := E) o ≠ Diverge.
Proof. by destruct o. Qed.

Lemma check_use_ends state widens use : check_use f state widens use ≠ Diverge.
Proof.
  destruct use as [[var path] touch]. simpl. apply bind_ends; [apply unwrap_ends|]. intros n.
  destruct (match touch with Read => read path n | Write parent => base_at parent n end)
    as [[] blame]; [|by apply bind_ends; [apply unwrap_ends|]..].
  destruct widens; [done|]. destruct (disjoint_moved _ _ _); [|done].
  by apply bind_ends; [apply unwrap_ends|].
Qed.

Lemma check_uses_ends state widens uses : check_uses f state widens uses ≠ Diverge.
Proof.
  induction uses as [|use uses IH]; simpl; [done|]. apply bind_ends; [apply check_use_ends|done].
Qed.

Lemma refilled_ends n var raising storage :
  check_reference_parameter_refilled f n var raising storage ≠ Diverge.
Proof.
  unfold check_reference_parameter_refilled. destruct storage; simpl; [|done].
  destruct (whole n) as [[] path]; [done|by apply bind_ends; [apply unwrap_ends|]..].
Qed.

Lemma destruction_ends n var : check_whole_destruction f n var ≠ Diverge.
Proof.
  unfold check_whole_destruction. case_match; [|done]. by apply bind_ends; [apply unwrap_ends|].
Qed.

Lemma check_instr_ends state i : check_instr f context state i ≠ Diverge.
Proof.
  unfold check_instr. apply bind_ends; [destruct i; simpl; try done; apply check_uses_ends|].
  intros _. destruct i as [| | | | | | |[]]; try done.
  apply bind_ends; [apply unwrap_ends|]. intros n. apply destruction_ends.
Qed.

Lemma check_channel_ends one channel :
  (∀ n v, one n v ≠ Diverge) → check_channel one channel ≠ Diverge.
Proof.
  intros Hone. destruct channel as [state|]; simpl; [|done]. generalize 0.
  induction state as [|n state IH]; intros v; simpl; [done|]. by apply bind_ends.
Qed.

Lemma check_exits_ends flow : check_exits f context flow ≠ Diverge.
Proof.
  repeat (apply bind_ends; [apply check_channel_ends; intros;
    first [apply refilled_ends|apply destruction_ends]|]; intros _).
  apply check_channel_ends. intros. apply destruction_ends.
Qed.

Lemma widens_inside_wf : well_founded (widens (ForwardScan0 := LifetimeScan f) inside).
Proof.
  eapply Inclusion.wf_incl; [|apply (join_states_wf universe bound)].
  intros next resume ([_ Hn] & [_ Hr] & Hne & other & [_ Ho] & Heq). simpl in Heq. eauto 10.
Qed.

(** From some fuel on, one result. *)
Definition answers {E A} (m : nat → outcome E A) : Prop :=
  ∃ N r, r ≠ Diverge ∧ ∀ fuel, N ≤ fuel → m fuel = r.

(** C29: the lifetime analysis always answers.  From some fuel on it gives one
    result, a verdict or a panic (never a run that does not end): the joins of a loop's states settle, as the
    body names finitely many places. *)
Theorem analyze_lifetimes_ends : answers (analyze_lifetimes f).
Proof.
  destruct (walk_forward_ends (ForwardScan0 := LifetimeScan f)
    (ForwardObserver0 := check_observer f) inside known widens_inside_wf inside_joined (λ a Ha, Ha) inside_transferred
    (λ o, check_instr_ends) (replicate (n_vars f) owned) (blocks (mir f)) () inside_entry
    body_is_known) as (N & r & Hr & Hf).
  exists N, ('(flow, _) ← r; check_exits f context flow). split.
  - apply bind_ends; [done|]. intros [flow o]. apply check_exits_ends.
  - intros fuel Hle. unfold analyze_lifetimes. by rewrite Hf.
Qed.
End states.

(** What an accepted function's run ends in. *)
Definition owned_run `{MoveTypes, !TyOps, !Values} {Rest} (f : MoveFunction)
    (exec : MirInstr → list Value → Rest → vm (list Value * Rest)) (bad : RuntimeError → Prop)
    `{!OwnershipMachine f exec bad} (r : vm (Ending * list Value * Rest)) : Prop :=
  match r with
  | Ok (_, _, s) =>
      ∀ var q, var < n_vars f → lent f var → precise_path q → live s var q
  | Err e => ¬ bad e
  | Panic | Diverge => True
  end.

(** C3: no use after a move.  Let a concrete function pass the verifier, its
    terminators name registers it has, and each register name one reference
    parameter.  When [analyze_lifetimes] accepts it, a run on a machine that
    keeps the ownership contract (which takes values only out of storage known
    where the function is written), from a state in which the slots hold values,
    never fails for a missing value: not that of a variable or place read, not
    that behind a reference parameter's handle, a loan or a call's operand, and
    not that of the owners of a reference's setup loans.  Where the run returns
    or raises, each reference parameter, and each local defined from a reference
    to a borrowed parameter's place, holds a whole value. *)
Theorem analyze_lifetimes_safe `{MoveTypes, !TyOps, !OpChecks, !Values} {Rest} (f : MoveFunction)
    (exec : MirInstr → list Value → Rest → vm (list Value * Rest)) (bad : RuntimeError → Prop)
    `{!OwnershipMachine f exec bad} fuel n regs s :
  verify_concrete_function (mir f) = [] →
  terminators_in_range (mir f) (nested_terminators (blocks (mir f))) →
  single_handles f = true →
  analyze_lifetimes f fuel = Ok () →
  (∀ var q, var < n_vars f → precise_path q → live s var q) →
  owned_run f exec bad (drive exec n (blocks (mir f)) (MkFrame cursor_default regs s)).
Proof.
  intros Hv Ht Hsingle Ha Hs. pose proof (LifetimeScan_sound f exec bad Hsingle) as Hsound. unfold analyze_lifetimes in Ha. bind_inv Ha. destruct a as [flow o].
  destruct (walk_forward_in (ForwardScan0 := LifetimeScan f) (ForwardObserver0 := check_observer f)
    (inside f) (known f) (widens_inside_wf f) (inside_joined f) (λ a Ha, Ha) (inside_transferred f)
    (λ o, check_instr_ends f) _ _ _ _ _ _ (inside_entry f) (body_is_known f) Hm)
    as (_ & Hraises & Hexits).
  pose proof (walk_forward_sound exec (describes f exec bad) bad (mir f) _ _ _ _ _ Hv Ht Hm n regs s)
    as Hrun.
  unfold check_exits in Ha. do 5 bind_inv Ha. destruct a, a0, a1.
  assert (∀ raising channel c var,
    check_channel (λ node var, check_reference_parameter_refilled f node var raising
      (caller_storage f (move_context f) var)) channel = Ok () →
    all_in (inside f) channel → var < n_vars f → caller_storage f (move_context f) var = true →
    covers (describes f exec bad) channel c → ∀ q, precise_path q → live c.2 var q) as Hchannel.
  { intros raising channel c var Hc Hin Hvar Hst Hcov.
    eapply channel_refilled; [done|exact Hc|done| |done].
    destruct channel as [state|]; [|done]. destruct (Hin state eq_refl) as [Hlen _].
    destruct (state !! var) as [node|] eqn:Hn; [by eauto|]. apply lookup_ge_None in Hn. lia. }
  assert (describes f exec bad (replicate (n_vars f) owned) (regs, s)) as Hentry.
  { intros v node [-> Hlt]%lookup_replicate q Hp. right. by apply Hs. }
  specialize (Hrun Hentry).
  destruct (drive exec n (blocks (mir f)) (MkFrame cursor_default regs s))
    as [[[[value|] regs1] s1]|e| |]; simpl in Hrun |- *; try done.
  - intros var q Hvar Hst%lent_caller_storage Hp. by apply (Hchannel false (exits flow) (regs1, s1)).
  - intros var q Hvar Hst%lent_caller_storage Hp. by apply (Hchannel true (ForwardWalk.raises flow) (regs1, s1)).
Qed.
