(* ===== verification/MoveExamples.v ===== *)
(** * MoveExamples: a reference machine for ownership, and a loop on it

    A machine that logs the values taken out of storage and put back, and
    refuses an instruction that misses one; a loop that moves a field out of
    a reference parameter and puts it back on each round, which the lifetime
    analysis accepts; and the same loop without the store, which it
    rejects. *)

From stdpp Require Import gmap sets.
From S2P Require Import Prelude Mir Structure Regions RegionSemantics RegionSafety MovePlaces.
From S2P Require Import ForwardWalk ForwardSound ForwardEnds Moves MoveFacts MoveSafety.

#[export] Instance log_types : MoveTypes := { move_param := unit; move_constant := unit }.

#[export] Instance log_tys : TyOps :=
  { Ty := unit; types_compatible _ _ := true; is_condition _ := true; param_is_bool _ := true }.

#[export] Instance log_checks : OpChecks := {
  op_results o := match o with
    | MovePlace dest _ | UseVar dest _ _ | MakeRef dest _ | ReadRef dest _ => [dest] | Other results _ => results | _ => [] end;
  op_operands o := match o with
    | Store _ src => [src] | ReadRef _ reference => [reference] | WriteRef reference value => [reference; value]
    | Other _ operands => operands | _ => [] end;
  op_call_error _ := false;
  op_findings _ _ _ _ _ := [];
  concrete_findings _ _ := [];
}.

#[export] Instance log_values : Values := { Value := nat; is_true v := negb (v =? 0) }.

(** What happened to the storage, the latest first: a value put in ([true])
    or taken out of a place. *)
Notation Log := (list (VarId * list Key * bool)).

Fixpoint holds (s : Log) (v : VarId) (q : list Key) : bool :=
  match s with
  | [] => true
  | (v', p, there) :: s =>
      if bool_decide (v' = v ∧ p `prefix_of` q) then there else holds s v q
  end.

Definition index_value (regs : list nat) (r : Reg) : nat := default 0 (regs !! reg r).

Definition key_at (regs : list nat) (p : Proj) : option Key :=
  match p with
  | ProjField f => Some (Field f)
  | ProjIndex r => Some (ConstIndex (index_value regs r))
  | ProjConstIndex n => Some (ConstIndex n)
  | ProjVariant n => Some (Variant (Some (default 0 n)))
  | ProjUninitPayload => Some UninitPayload
  | ProjFieldAt => Some (Field "")
  | ProjRebind => None
  end.

Definition place_at (place : MirPlace) (regs : list nat) : list Key := omap (key_at regs) (proj place).

(** Some part of the place misses its value. *)
Definition misses (regs : list nat) (s : Log) (place : MirPlace) : bool :=
  existsb (λ q, bool_decide (place_at place regs `prefix_of` q) && forallb precise q
                && negb (holds s (root place) q))
    (place_at place regs :: ((λ e, e.1.2) <$> s)).

Definition misses_parent (regs : list nat) (s : Log) (fill : MirPlace * bool) : bool :=
  let p := place_at fill.1 regs in
  negb (holds s (root fill.1) (if fill.2 then pop p else p)).

(** The events of taking out of [places], or putting into them. *)
Definition events (there : bool) (regs : list nat) (places : list MirPlace) : Log :=
  (λ place, (root place, place_at place regs, there)) <$> places.

Definition use_of_moved : RuntimeError := UndefinedVariable "moved".

(** [Other] counts down. *)
Definition log_exec (f : MoveFunction) (i : MirInstr) (regs : list Value) (s : Log) :
    vm (list Value * Log) :=
  match i with
  | IOp o =>
      if existsb (misses regs s) (needs f o) || existsb (misses_parent regs s) (fills o) then
        Err use_of_moved
      else if forallb (λ place, forallb precise (place_path place)) (loses o) then
        let regs' :=
          match o with
          | Other [dest] [a] => <[reg dest := pred (index_value regs a)]> regs
          | _ => regs
          end in
        Ok (regs', events true regs (gains f o) ++ events false regs (loses o) ++ s)
      else Err (Unsupported "dynamic move")
  | _ => Ok (regs, s)
  end.

Lemma place_at_overlaps place regs : overlaps (place_path place) (place_at place regs).
Proof.
  unfold place_path, place_at. induction (proj place) as [|p ps IH]; simpl; [constructor|].
  destruct p as [| | |[]| | |]; simpl; try done; constructor; try done; apply keys_overlap_refl.
Qed.

Lemma place_at_precise place regs : precise_path (place_at place regs).
Proof.
  unfold place_at. induction (proj place) as [|p ps IH]; simpl; [constructor|].
  destruct p; simpl; try done; by constructor.
Qed.

Lemma holds_give regs places s v q :
  holds s v q = true ∨ (∃ place, place ∈ places ∧ root place = v ∧ place_at place regs `prefix_of` q) →
  holds (events true regs places ++ s) v q = true.
Proof.
  induction places as [|place places IH]; simpl.
  { intros [|(place & Hin & _)]; [done|]. by apply not_elem_of_nil in Hin. }
  case_bool_decide as Hp; [done|]. intros [|(place' & Hin & Hroot & Hpre)]; apply IH; [by left|].
  right. exists place'. split; [|done]. apply elem_of_cons in Hin as [->|]; [|done].
  by destruct Hp.
Qed.

Lemma holds_take regs places s v q :
  holds s v q = true →
  holds (events false regs places ++ s) v q = true ∨
  ∃ place, place ∈ places ∧ root place = v ∧ place_at place regs `prefix_of` q.
Proof.
  induction places as [|place places IH]; simpl; [by left|].
  case_bool_decide as Hp.
  - intros _. right. exists place. split; [by left|done].
  - intros Hs. destruct (IH Hs) as [|(place' & ? & ?)]; [by left|]. right. exists place'.
    split; [by right|done].
Qed.

Lemma existsb_elem {A} (p : A → bool) l : existsb p l = true → ∃ x, x ∈ l ∧ p x = true.
Proof. intros (x & Hin & Hx)%existsb_exists. exists x. by rewrite list_elem_of_In. Qed.

Lemma log_exec_ok f o regs s regs' s' :
  log_exec f (IOp o) regs s = Ok (regs', s') →
  s' = events true regs (gains f o) ++ events false regs (loses o) ++ s ∧
  ∀ place, place ∈ loses o → precise_path (place_path place).
Proof.
  simpl. destruct (_ || _); [done|]. destruct (forallb _ (loses o)) eqn:Hall; [|done].
  intros [= _ <-]. split; [done|]. intros place Hin.
  rewrite forallb_forall in Hall. apply list_elem_of_In, Hall in Hin.
  rewrite forallb_forall in Hin. apply Forall_forall. intros k Hk%list_elem_of_In. auto.
Qed.

(** The machine keeps the ownership contract. *)
#[export] Instance log_machine (f : MoveFunction) :
  OwnershipMachine f (log_exec f) (λ e, e = use_of_moved).
Proof.
  refine {| live s v q := holds s v q = true; at_place place regs (_ : Log) := place_at place regs |}.
  - intros. apply place_at_overlaps.
  - intros. apply place_at_precise.
  - intros o regs s regs' s' v q He _ Hlive. apply log_exec_ok in He as [-> _].
    destruct (holds_take regs (loses o) s v q Hlive) as [|]; [left|by right].
    apply holds_give. by left.
  - intros o regs s regs' s' place q He Hin Hpre _. apply log_exec_ok in He as [-> _].
    apply holds_give. right. by exists place.
  - intros o regs s [regs' s'] place He. apply log_exec_ok in He as [_ Hp]. apply Hp.
  - intros o regs s e He ->. simpl in He.
    destruct (existsb (misses regs s) (needs f o)) eqn:Hn; simpl in He.
    { left. apply existsb_elem in Hn as (place & Hin & Hm). apply existsb_elem in Hm as (q & _ & Hq).
      apply andb_true_iff in Hq as [[Hpre Hp]%andb_true_iff Hq]. exists place, q.
      split_and!; [done|by apply bool_decide_eq_true in Hpre| |by intros Hh; rewrite Hh in Hq].
      rewrite forallb_forall in Hp. apply Forall_forall. intros k Hk%list_elem_of_In. auto. }
    destruct (existsb (misses_parent regs s) (fills o)) eqn:Hf; simpl in He;
      [|by destruct (forallb _ _)].
    right. apply existsb_elem in Hf as ([place part] & Hin & Hm). exists place, part.
    split; [done|]. intros Hh. unfold misses_parent in Hm. simpl in Hm. by rewrite Hh in Hm.
  - intros value regs s regs' s' v q He. by simplify_eq/=.
  - done.
  - done.
Defined.

(** ** A field moved out and put back, in a loop *)

Definition field_a : MirPlace := MkPlace 0 [ProjField "a"] None.
Definition rounds : LoopLabel := MkLoopLabel 0.

(** The loop takes the field [a] of the parameter, stores it back when
    [restores], and goes on while the count in [r1] is not zero. *)
Definition field_loop (restores : bool) : MoveFunction := {|
  mir := {|
    blocks :=
      [MkBlock
         [ILoop (Some rounds) [MkReg 0] [MkReg 1] []
            [MkBlock
               ([IOp (MovePlace (MkReg 2) field_a)] ++
                (if restores then [IOp (Store field_a (MkReg 2))] else []) ++
                [IOp (Other [MkReg 3] [MkReg 1]);
                 IIf [] (MkReg 3)
                   [MkBlock [] (TContinue (Some rounds) [MkReg 3])] [] []
                   [MkBlock [] (TBreak (Some rounds) [])]])
               TUnreachable]]
         (TReturn None)];
    n_regs := 4;
    reg_types := list_to_map ((λ n, (n, ())) <$> seq 0 4);
    returns_reference := false;
    ret_ty := None;
    Structure.raises := false;
  |};
  n_vars := 1;
  n_params := 1;
  owned_params := [];
  deinit_params := [];
  ref_params := [true];
  var_names := ["p"];
|}.

Definition loop_regs : list Value := [3; 0; 0; 0].

Example field_loop_accepted : analyze_lifetimes (field_loop true) 20 = Ok ().
Proof. by vm_compute. Qed.

(** On the second round the field is gone, on the first it is not. *)
Example field_loop_rejected :
  analyze_lifetimes (field_loop false) 20 = Err (ConditionallyMoved "p.a").
Proof. by vm_compute. Qed.

Example field_loop_fails :
  drive (log_exec (field_loop false)) 40 (blocks (mir (field_loop false)))
    (MkFrame cursor_default loop_regs []) = Err use_of_moved.
Proof. by vm_compute. Qed.

Definition loop_end : vm (Ending * list Value * Log) :=
  drive (log_exec (field_loop true)) 40 (blocks (mir (field_loop true)))
    (MkFrame cursor_default loop_regs []).

(** ** A parameter read through its handle *)

(** The parameter is moved out, and given back through its handle when
    [restores], before it is read through it. *)
Definition handle_read (restores : bool) : MoveFunction := {|
  mir := {|
    blocks :=
      [MkBlock
         ([IOp (MakeRef (MkReg 1) (MkPlace 0 [] (Some 0))); IOp (UseVar (MkReg 0) 0 Move)] ++
          (if restores then [IOp (WriteRef (MkReg 1) (MkReg 0))] else []) ++
          [IOp (ReadRef (MkReg 2) (MkReg 1))])
         (TReturn None)];
    n_regs := 3;
    reg_types := list_to_map ((λ n, (n, ())) <$> seq 0 3);
    returns_reference := false;
    ret_ty := None;
    Structure.raises := false;
  |};
  n_vars := 1;
  n_params := 1;
  owned_params := [];
  deinit_params := [];
  ref_params := [true];
  var_names := ["p"];
|}.

Example handle_read_accepted : analyze_lifetimes (handle_read true) 20 = Ok ().
Proof. by vm_compute. Qed.

Example handle_read_rejected : analyze_lifetimes (handle_read false) 20 = Err (UseAfterMove "p").
Proof. by vm_compute. Qed.

Definition handle_end (restores : bool) : vm (Ending * list Value * Log) :=
  drive (log_exec (handle_read restores)) 40 (blocks (mir (handle_read restores)))
    (MkFrame cursor_default [0; 0; 0] []).

(** The read fails on a machine that keeps the contract. *)
Example handle_read_fails : handle_end false = Err use_of_moved.
Proof. by vm_compute. Qed.

Lemma analyze_lifetimes_safe_witness :
  (∃ value regs s, loop_end = Ok (Returned value, regs, s)) ∧
  owned_run (field_loop true) (log_exec (field_loop true)) (λ e, e = use_of_moved) loop_end ∧
  (∃ value regs s, handle_end true = Ok (Returned value, regs, s)) ∧
  owned_run (handle_read true) (log_exec (handle_read true)) (λ e, e = use_of_moved) (handle_end true).
Proof.
  split_and!; [vm_compute; eauto| |vm_compute; eauto|].
  - refine (analyze_lifetimes_safe (field_loop true) (log_exec (field_loop true))
      (λ e, e = use_of_moved) 20 40 loop_regs [] _ _ _ _ _); [by vm_compute| |by vm_compute..|done].
    vm_compute. repeat constructor.
  - refine (analyze_lifetimes_safe (handle_read true) (log_exec (handle_read true))
      (λ e, e = use_of_moved) 20 40 [0; 0; 0] [] _ _ _ _ _); [by vm_compute| |by vm_compute..|done].
    vm_compute. repeat constructor.
Defined.

Lemma walk_forward_sound_witness :
  ∃ flow, walk_forward (ForwardScan0 := LifetimeScan (field_loop true))
      (ForwardObserver0 := check_observer (field_loop true)) 20
      [owned] (blocks (mir (field_loop true))) () = Ok (flow, Some ()) ∧
    forward_run (describes (field_loop true) (log_exec (field_loop true)) (λ e, e = use_of_moved))
      (λ e, e = use_of_moved) flow loop_end.
Proof.
  eexists. split; [by vm_compute|].
  pose proof (LifetimeScan_sound (field_loop true) (log_exec (field_loop true)) (λ e, e = use_of_moved)
    eq_refl) as Hsound.
  apply (walk_forward_sound (ForwardScan0 := LifetimeScan (field_loop true))
    (ForwardObserver0 := check_observer (field_loop true))
    (log_exec (field_loop true))
    (describes (field_loop true) (log_exec (field_loop true)) (λ e, e = use_of_moved))
    (λ e, e = use_of_moved) (mir (field_loop true)) 20 [owned] () _ (Some ()));
    [by vm_compute|vm_compute; repeat constructor|by vm_compute|].
  intros v n Hn q Hp. by right.
Defined.

Lemma walk_forward_ends_witness :
  ∃ N r, r ≠ Diverge ∧ ∀ fuel, N ≤ fuel →
    walk_forward (ForwardScan0 := LifetimeScan (field_loop false))
      (ForwardObserver0 := check_observer (field_loop false)) fuel
      [owned] (blocks (mir (field_loop false))) () = r.
Proof.
  apply (walk_forward_ends (ForwardScan0 := LifetimeScan (field_loop false))
    (ForwardObserver0 := check_observer (field_loop false))
    (inside (field_loop false)) (known (field_loop false))
    (widens_inside_wf (field_loop false)) (inside_joined (field_loop false)) (λ a Ha, Ha)
    (inside_transferred (field_loop false)) (λ o, check_instr_ends (field_loop false))).
  - apply (inside_entry (field_loop false)).
  - apply (body_is_known (field_loop false)).
Defined.

(** ** A store below a dynamic index *)

(** [xs[i].a^] then [xs[j].a = e]: the store marks the field of every
    element defined, the one moved out of among them. *)
Lemma indexed_store_restores context i j dest src :
  let field r := MkPlace 0 [ProjIndex r; ProjField "a"] None in
  ∃ taken stored,
    apply_effects context [owned] (MovePlace dest (field i)) = Some [taken] ∧
    apply_effects context [taken] (Store (field j) src) = Some [stored] ∧
    (read (place_path (field i)) taken).1 = Moved ∧
    (read (place_path (field i)) stored).1 = Owned.
Proof. simpl. do 2 eexists. split_and!; [done|done|by vm_compute..]. Qed.
