(* ===== verification/Dtypes.v ===== *)
(** * Dtypes: lane types and operators

    [Dtype] and [InfixOp] of [mojito-ast/src/ast.rs]: the lane types of
    [SIMD], their spellings, one-byte codes and predicates, and the binary
    operators with the methods they dispatch to.  The parser, the checker, the
    compile-time fold and the virtual machine read the same tables. *)

From S2P Require Import Prelude.
Local Open Scope Z_scope.

Inductive Dtype : Type :=
| DInt | DUInt
| DInt8 | DInt16 | DInt32 | DInt64
| DUInt8 | DUInt16 | DUInt32 | DUInt64
| DFloat16 | DFloat32 | DFloat64
| DBool.

#[export] Instance Dtype_eq_dec : EqDecision Dtype.
Proof. solve_decision. Defined.

(** A match on a string that returns the first row's value. *)
Fixpoint assoc {A} (key : string) (rows : list (string * A)) : option A :=
  match rows with
  | [] => None
  | (k, v) :: rows => if String.eqb key k then Some v else assoc key rows
  end.

(** [iter().find(p)]. *)
Fixpoint find {A} (p : A → bool) (l : list A) : option A :=
  match l with [] => None | x :: l => if p x then Some x else find p l end.

Module Dtype_.

Definition ALL : list Dtype :=
  [DInt; DUInt; DInt8; DInt16; DInt32; DInt64; DUInt8; DUInt16; DUInt32; DUInt64;
   DFloat16; DFloat32; DFloat64; DBool].

Definition from_name (name : string) : option Dtype :=
  assoc name
    [("int", DInt); ("uint", DUInt); ("int8", DInt8); ("int16", DInt16);
     ("int32", DInt32); ("int64", DInt64); ("uint8", DUInt8); ("uint16", DUInt16);
     ("uint32", DUInt32); ("uint64", DUInt64); ("float16", DFloat16);
     ("float32", DFloat32); ("float64", DFloat64); ("bool", DBool)].

Definition name (d : Dtype) : string :=
  match d with
  | DInt => "int" | DUInt => "uint"
  | DInt8 => "int8" | DInt16 => "int16" | DInt32 => "int32" | DInt64 => "int64"
  | DUInt8 => "uint8" | DUInt16 => "uint16" | DUInt32 => "uint32" | DUInt64 => "uint64"
  | DFloat16 => "float16" | DFloat32 => "float32" | DFloat64 => "float64"
  | DBool => "bool"
  end.

Definition kgen_mnemonic (d : Dtype) : string :=
  match d with
  | DInt => "index" | DUInt => "uindex"
  | DInt8 => "si8" | DInt16 => "si16" | DInt32 => "si32" | DInt64 => "si64"
  | DUInt8 => "ui8" | DUInt16 => "ui16" | DUInt32 => "ui32" | DUInt64 => "ui64"
  | DFloat16 => "f16" | DFloat32 => "f32" | DFloat64 => "f64"
  | DBool => "bool"
  end.

Definition from_kgen_mnemonic (mnemonic : string) : option Dtype :=
  find (λ d, String.eqb (kgen_mnemonic d) mnemonic) ALL.

Definition scalar_alias (d : Dtype) : option string :=
  match d with
  | DInt8 => Some "Int8" | DInt16 => Some "Int16"
  | DInt32 => Some "Int32" | DInt64 => Some "Int64"
  | DUInt8 => Some "UInt8" | DUInt16 => Some "UInt16"
  | DUInt32 => Some "UInt32" | DUInt64 => Some "UInt64"
  | DFloat16 => Some "Float16" | DFloat32 => Some "Float32"
  | DInt | DUInt | DFloat64 | DBool => None
  end.

Definition repr_alias (d : Dtype) : option string :=
  match d with
  | DInt => Some "Int"
  | DUInt => Some "UInt"
  | DFloat64 => Some "Float64"
  | _ => scalar_alias d
  end.

Definition from_scalar_alias (name : string) : option Dtype :=
  if String.eqb name "Byte" then Some DUInt8
  else
    find (λ d, bool_decide (scalar_alias d = Some name))
      [DInt8; DInt16; DInt32; DInt64; DUInt8; DUInt16; DUInt32; DUInt64; DFloat16; DFloat32].

Definition bit_width (d : Dtype) : Z :=
  match d with
  | DBool => 1
  | DInt8 | DUInt8 => 8
  | DInt16 | DUInt16 | DFloat16 => 16
  | DInt32 | DUInt32 | DFloat32 => 32
  | DInt | DUInt | DInt64 | DUInt64 | DFloat64 => 64
  end.

Definition is_float (d : Dtype) : bool :=
  match d with DFloat16 | DFloat32 | DFloat64 => true | _ => false end.

Definition is_narrow_float (d : Dtype) : bool :=
  match d with DFloat16 | DFloat32 => true | _ => false end.

(** Upstream's one-byte code and the masks the predicates test. *)
Definition code (d : Dtype) : Z :=
  match d with
  | DBool => 1
  | DInt => 3
  | DUInt => 4
  | DUInt8 => 134
  | DInt8 => 135
  | DUInt16 => 136
  | DInt16 => 137
  | DUInt32 => 138
  | DInt32 => 139
  | DUInt64 => 140
  | DInt64 => 141
  | DFloat16 => 79
  | DFloat32 => 81
  | DFloat64 => 82
  end.

Definition DTYPE_SIGNED_MASK : Z := 1.
Definition DTYPE_FLOAT_MASK : Z := 64.
Definition DTYPE_INTEGER_MASK : Z := 128.

Definition from_code (c : Z) : option Dtype := find (λ d, code d =? c) ALL.

Definition matches_mask (d : Dtype) (mask : Z) : bool := negb (Z.land (code d) mask =? 0).

Definition is_floating_point (d : Dtype) : bool := matches_mask d DTYPE_FLOAT_MASK.

Definition is_integral (d : Dtype) : bool :=
  match d with DInt | DUInt => true | _ => false end || matches_mask d DTYPE_INTEGER_MASK.

Definition is_signed (d : Dtype) : bool :=
  is_floating_point d || (is_integral d && matches_mask d DTYPE_SIGNED_MASK).

Definition is_unsigned (d : Dtype) : bool :=
  match d with DUInt => true | _ => false end
  || (matches_mask d DTYPE_INTEGER_MASK && negb (matches_mask d DTYPE_SIGNED_MASK)).

Definition is_float8 (d : Dtype) : bool := false.

Definition is_half_float (d : Dtype) : bool := match d with DFloat16 => true | _ => false end.

Definition is_numeric (d : Dtype) : bool := is_integral d || is_floating_point d.

Definition predicate (d : Dtype) (method : string) : option bool :=
  assoc method
    [("is_integral", is_integral d); ("is_floating_point", is_floating_point d);
     ("is_signed", is_signed d); ("is_unsigned", is_unsigned d);
     ("is_numeric", is_numeric d); ("is_float8", is_float8 d);
     ("is_half_float", is_half_float d)].

Definition float_query (d : Dtype) (method : string) : option Z :=
  match
    match d with
    | DFloat16 => Some (16, 5, 16)
    | DFloat32 => Some (32, 8, 128)
    | DFloat64 => Some (64, 11, 1024)
    | _ => None
    end
  with
  | Some (bit_width, exponent_width, max_exponent) =>
      assoc method
        [("mantissa_width", bit_width - exponent_width - 1);
         ("max_exponent", max_exponent); ("exponent_width", exponent_width);
         ("exponent_bias", max_exponent - 1)]
  | None => None
  end.

End Dtype_.

Inductive PrefixOp : Type := PrefixNeg | PrefixPos | PrefixNot | PrefixInvert.

Inductive InfixOp : Type :=
| Add | Sub | Mul | Div | FloorDiv | Mod | MatMul | Shl | Shr | BitAnd | BitOr | BitXor
| Pow | Eq_ | Ne | Lt_ | Gt_ | Le | Ge | And | Or | In_ | NotIn | Is | IsNot.

#[export] Instance InfixOp_eq_dec : EqDecision InfixOp.
Proof. solve_decision. Defined.

Module Infix.

Definition ALL : list InfixOp :=
  [Add; Sub; Mul; Div; FloorDiv; Mod; MatMul; Shl; Shr; BitAnd; BitOr; BitXor; Pow; Eq_;
   Ne; Lt_; Gt_; Le; Ge; And; Or; In_; NotIn; Is; IsNot].

Definition symbol (o : InfixOp) : string :=
  match o with
  | Add => "+" | Sub => "-" | Mul => "*" | Div => "/" | FloorDiv => "//" | Mod => "%"
  | MatMul => "@" | Shl => "<<" | Shr => ">>" | BitAnd => "&" | BitOr => "|"
  | BitXor => "^" | Pow => "**" | Eq_ => "==" | Ne => "!=" | Lt_ => "<" | Gt_ => ">"
  | Le => "<=" | Ge => ">=" | And => "and" | Or => "or" | In_ => "in"
  | NotIn => "not in" | Is => "is" | IsNot => "is not"
  end.

(** The method the left operand answers. *)
Definition dunder (o : InfixOp) : option string :=
  match o with
  | Add => Some "__add__" | Sub => Some "__sub__" | Mul => Some "__mul__"
  | Div => Some "__truediv__" | FloorDiv => Some "__floordiv__" | Mod => Some "__mod__"
  | MatMul => Some "__matmul__" | Shl => Some "__lshift__" | Shr => Some "__rshift__"
  | BitAnd => Some "__and__" | BitOr => Some "__or__" | BitXor => Some "__xor__"
  | Pow => Some "__pow__" | Eq_ => Some "__eq__" | Ne => Some "__ne__"
  | Lt_ => Some "__lt__" | Gt_ => Some "__gt__" | Le => Some "__le__" | Ge => Some "__ge__"
  | Is => Some "__is__" | IsNot => Some "__isnot__"
  | And | Or | In_ | NotIn => None
  end.

(** The method the right operand answers for the left. *)
Definition reflected_dunder (o : InfixOp) : option string :=
  match o with
  | Add => Some "__radd__" | Sub => Some "__rsub__" | Mul => Some "__rmul__"
  | Div => Some "__rtruediv__" | FloorDiv => Some "__rfloordiv__" | Mod => Some "__rmod__"
  | MatMul => Some "__rmatmul__" | Shl => Some "__rlshift__" | Shr => Some "__rrshift__"
  | BitAnd => Some "__rand__" | BitOr => Some "__ror__" | BitXor => Some "__rxor__"
  | Pow => Some "__rpow__"
  | Eq_ | Ne | Lt_ | Gt_ | Le | Ge | Is | IsNot | And | Or | In_ | NotIn => None
  end.

(** The method of an augmented assignment. *)
Definition inplace_dunder (o : InfixOp) : option string :=
  match o with
  | Add => Some "__iadd__" | Sub => Some "__isub__" | Mul => Some "__imul__"
  | Div => Some "__itruediv__" | FloorDiv => Some "__ifloordiv__" | Mod => Some "__imod__"
  | Pow => Some "__ipow__" | BitAnd => Some "__iand__" | BitOr => Some "__ior__"
  | BitXor => Some "__ixor__" | Shl => Some "__ilshift__" | Shr => Some "__irshift__"
  | _ => None
  end.

(** [iter().find_map(f)]. *)
Fixpoint find_dunder (method : string) (ops : list InfixOp) : option (InfixOp * bool) :=
  match ops with
  | [] => None
  | o :: ops =>
      if bool_decide (dunder o = Some method) then Some (o, false)
      else if bool_decide (reflected_dunder o = Some method) then Some (o, true)
      else find_dunder method ops
  end.

Definition of_dunder (method : string) : option (InfixOp * bool) := find_dunder method ALL.

(** [operator_method] of [ir.rs]: membership dispatches on the right
    operand and calls none. *)
Definition operator_method (o : InfixOp) : option string :=
  match dunder o with
  | Some method => match o with In_ | NotIn => None | _ => Some method end
  | None => None
  end.

End Infix.

(** ** The tables invert *)

Lemma find_Some {A} (p : A → bool) l x : find p l = Some x → p x = true ∧ x ∈ l.
Proof.
  induction l as [|y l IH]; simpl; [done|]. destruct (p y) eqn:Hp.
  - intros [= <-]. split; [done|by left].
  - intros Hx. apply IH in Hx as [? ?]. split; [done|by right].
Qed.

Lemma assoc_Some {A} key (rows : list (string * A)) v :
  assoc key rows = Some v → (key, v) ∈ rows.
Proof.
  induction rows as [|[k w] rows IH]; simpl; [done|]. destruct (String.eqb_spec key k).
  - intros [= <-]. subst. by left.
  - intros Hv. right. by apply IH.
Qed.

(** A dtype is its spellings.  Its [DType] name, KGEN mnemonic, one-byte
    code and scalar alias each read back as that dtype alone; the code fits a
    byte; the mask predicates agree with the float test, and make an unsigned
    dtype exactly an integral one that is not signed; the float queries answer
    for the float dtypes alone, and their field widths fill the lane. *)
Theorem dtype_tables d :
  (∀ s, Dtype_.from_name s = Some d ↔ s = Dtype_.name d) ∧
  (∀ s, Dtype_.from_kgen_mnemonic s = Some d ↔ s = Dtype_.kgen_mnemonic d) ∧
  (∀ c, Dtype_.from_code c = Some d ↔ c = Dtype_.code d) ∧
  (∀ s, Dtype_.from_scalar_alias s = Some d ↔
     Dtype_.scalar_alias d = Some s ∨ (d = DUInt8 ∧ s = "Byte")) ∧
  0 <= Dtype_.code d < 256 ∧
  Dtype_.is_floating_point d = Dtype_.is_float d ∧
  Dtype_.is_unsigned d = Dtype_.is_integral d && negb (Dtype_.is_signed d) ∧
  match
    Dtype_.float_query d "mantissa_width", Dtype_.float_query d "exponent_width",
    Dtype_.float_query d "exponent_bias", Dtype_.float_query d "max_exponent"
  with
  | Some m, Some e, Some bias, Some emax =>
      Dtype_.is_float d = true ∧ Dtype_.bit_width d = 1 + e + m ∧
      emax = 2 ^ (e - 1) ∧ bias = emax - 1
  | None, None, None, None => Dtype_.is_float d = false
  | _, _, _, _ => False
  end.
Proof.
  split_and!; try (by destruct d).
  - intros s. split; [|intros ->; by destruct d]. intros Hs%assoc_Some.
    repeat (apply elem_of_cons in Hs as [[= -> ->]|Hs]; [done|]). by apply not_elem_of_nil in Hs.
  - intros s. split; [|intros ->; by destruct d]. intros [Hs%String.eqb_eq _]%find_Some. done.
  - intros c. split; [|intros ->; by destruct d]. intros [Hc%Z.eqb_eq _]%find_Some. done.
  - intros s. unfold Dtype_.from_scalar_alias. destruct (String.eqb_spec s "Byte") as [->|Hne].
    + split; [intros [= <-]; by right|]. intros [H|[-> _]]; [|done]. by destruct d.
    + split; [intros [Hs%bool_decide_eq_true _]%find_Some; by left|].
      intros [Hs|[_ ->]]; [|done]. destruct d; simpl in Hs; simplify_eq; by vm_compute.
Qed.

(** A method names one operator.  [of_dunder] returns an operator with
    the flag unset exactly for the method its left operand answers, and set
    exactly for the reflected one, so an operator and its methods determine
    each other; the short-circuit and membership operators have none.  Nor do
    two operators share an in-place method or a spelling. *)
Theorem operator_dunders o method :
  (Infix.of_dunder method = Some (o, false) ↔ Infix.dunder o = Some method) ∧
  (Infix.of_dunder method = Some (o, true) ↔ Infix.reflected_dunder o = Some method) ∧
  (Infix.operator_method o = Some method ↔ Infix.dunder o = Some method) ∧
  (∀ o', Infix.inplace_dunder o' = Infix.inplace_dunder o →
     o' = o ∨ Infix.inplace_dunder o = None) ∧
  (∀ o', Infix.symbol o' = Infix.symbol o → o' = o).
Proof.
  assert (∀ o m, Infix.dunder o = Some m → Infix.of_dunder m = Some (o, false)) as Hd
    by (intros [] m [= <-]; by vm_compute).
  assert (∀ o m, Infix.reflected_dunder o = Some m → Infix.of_dunder m = Some (o, true)) as Hr
    by (intros [] m [= <-]; by vm_compute).
  assert (∀ ops r, Infix.find_dunder method ops = Some r →
    (if r.2 then Infix.reflected_dunder r.1 else Infix.dunder r.1) = Some method) as Hfind.
  { induction ops as [|x ops IH]; intros r; simpl; [done|].
    case_bool_decide; [by intros [= <-]|]. case_bool_decide; [by intros [= <-]|]. apply IH. }
  split_and!.
  - split; [by intros H%Hfind|auto].
  - split; [by intros H%Hfind|auto].
  - by destruct o.
  - intros o'. destruct o, o'; simpl; auto; done.
  - intros o'. by destruct o, o'.
Qed.
