(* ===== verification/Layout.v ===== *)
(** * Layout: native sizes, alignments and offsets

    [mojito-native-core/src/layout.rs], the one owner of native layout:
    [LayoutCx] and its operations, [lane_layout], [compose] and [align_up],
    with the pointer size of [target.rs] and the recognition of inline uninit
    storage of [types.rs].  Sizes are [u64]: an addition or a multiplication
    that leaves the range panics, as does the alignment assertion.  Struct
    fields are looked up by name, so the recursion of [layout_of] is not
    structural and runs on fuel; [layout_of_total] says when it ends. *)

From stdpp Require Import gmap.
From S2P Require Import Prelude Dtypes.
Local Open Scope Z_scope.

(** ** Types as the layout reads them *)

(** A dtype, width or array-size slot is what its [known] returns: the value
    a concrete use reads, or nothing.  [TSimd] and [TLiteral] are the [SIMD]
    and the literal applications [types.rs] recognizes among the structs;
    [TUnlaid] stands for every kind the layout refuses, by its spelling. *)
Inductive Ty : Type :=
| TNone
| TIndex
| TI1
| TUi8
| TDtype
| TKgenDtype
| TGenerator
| TKgenString
| TError
| TLiteral (name : string)
| TSimd (dtype : option Dtype) (width : option Z)
| TKgenSimd (dtype : option Dtype) (width : option Z)
| TStruct (name : string) (arguments : list TyArg)
| TTuple (elements : list Ty)
| TRuntimePack (elements : list Ty)
| TPopArray (size : option Z) (element : Ty)
| TVariant (alternatives : list Ty)
| TPointer (element : Ty)
| TKgenPointer (element : Ty)
| TLitRef (element : Ty)
| TRef (referent : Ty)
| TLitRefPack (elements : list Ty)
| TFunc
| TUnlaid (spelling : string)
with TyArg : Type :=
| ArgTy (ty : Ty)
| ArgVal
| ArgOrigin.

(** [Ty::bool]. *)
Definition ty_bool : Ty := TStruct "Bool" [].

Definition UNINIT_STORAGE_TYPE_NAME : string := "__UninitStorage".

(** [name.split(pat).next()]: the text before the first [pat]. *)
Fixpoint before (pat s : string) : string :=
  if String.prefix pat s then EmptyString
  else match s with
       | EmptyString => EmptyString
       | String c s => String c (before pat s)
       end.

(** [name.ends_with(suffix)]. *)
Fixpoint ends_with (s suffix : string) : bool :=
  String.eqb s suffix ||
  match s with EmptyString => false | String _ s => ends_with s suffix end.

Definition is_uninit_storage_name (name : string) : bool :=
  let name := before "$mono" name in
  String.eqb name UNINIT_STORAGE_TYPE_NAME ||
  ends_with name ("$" +:+ UNINIT_STORAGE_TYPE_NAME).

Definition uninit_storage_element (ty : Ty) : option Ty :=
  match ty with
  | TStruct name arguments =>
      if is_uninit_storage_name name then
        match arguments with [ArgTy element] => Some element | _ => None end
      else None
  | _ => None
  end.

(** [simd_storage]: a vector lays out as its [!kgen.simd] storage. *)
Definition simd_storage (ty : Ty) : option Ty :=
  match ty with TSimd dtype width => Some (TKgenSimd dtype width) | _ => None end.

(** ** Layouts *)

Record Layout := MkLayout { size : Z; align : Z }.
Record StructLayout := MkStruct { layout : Layout; offsets : list Z }.
Record VariantLayout := MkVariant { variant_whole : Layout; payload_offset : Z }.

Definition ZERO : Layout := MkLayout 0 1.

Inductive LayoutError : Type :=
| UnsupportedStruct (name : string)
| UnsupportedType (ty : Ty)
| Symbolic (ty : Ty).

Notation lay := (outcome LayoutError).

Inductive Triple : Type := X86_64UnknownLinuxGnu.

Definition pointer_size (t : Triple) : Z := match t with X86_64UnknownLinuxGnu => 8 end.
Definition pointer_align (t : Triple) : Z := pointer_size t.

(** [u64] arithmetic, checked. *)
Definition u64 (z : Z) : lay Z := if (0 <=? z) && (z <? 2 ^ 64) then Ok z else Panic.

Definition is_power_of_two (z : Z) : bool := (0 <? z) && (Z.land z (z - 1) =? 0).

Definition div_ceil (a b : Z) : Z := (a + b - 1) / b.

Definition align_up (offset align : Z) : lay Z :=
  assert_or_panic (is_power_of_two align);;
  u64 (div_ceil offset align * align).

(** The loop of [compose]: [offsets] are those of the fields passed. *)
Fixpoint place_fields (offset align_ : Z) (offsets : list Z) (fields : list Layout) :
    lay StructLayout :=
  match fields with
  | [] =>
      size ← align_up offset align_;
      Ok (MkStruct (MkLayout size align_) offsets)
  | field :: fields =>
      offset ← align_up offset (align field);
      next ← u64 (offset + size field);
      place_fields next (Z.max align_ (align field)) (offsets ++ [offset]) fields
  end.

Definition compose (fields : list Layout) : lay StructLayout := place_fields 0 1 [] fields.

Definition lane_layout (dtype : Dtype) : Layout :=
  match dtype with
  | DInt8 | DUInt8 | DBool => MkLayout 1 1
  | DInt16 | DUInt16 | DFloat16 => MkLayout 2 2
  | DInt32 | DUInt32 | DFloat32 => MkLayout 4 4
  | DInt | DUInt | DInt64 | DUInt64 | DFloat64 => MkLayout 8 8
  end.

(** [iter().map(f).collect::<Result<Vec<_>, _>>()]. *)
Fixpoint collect {A B} (f : A → lay B) (l : list A) : lay (list B) :=
  match l with
  | [] => Ok []
  | x :: l => y ← f x; ys ← collect f l; Ok (y :: ys)
  end.

Section layout.
(** Whether a type still names a parameter; only an instantiation closes
    one. *)
Variable is_symbolic : Ty → bool.
Variable triple : Triple.
Variable structs : gmap string (list Ty).

Definition pointer : Layout := MkLayout (pointer_size triple) (pointer_align triple).

Definition mj_string : lay Layout :=
  layout <$> compose [pointer; MkLayout 8 8; MkLayout 8 8].

Definition mj_error : lay Layout :=
  string ← mj_string; layout <$> compose [string].

(** The widest size and alignment of the alternatives. *)
Fixpoint payload_layout (layout_of : Ty → lay Layout) (payload : Layout)
    (alternatives : list Ty) : lay Layout :=
  match alternatives with
  | [] => Ok payload
  | alternative :: alternatives =>
      l ← layout_of alternative;
      payload_layout layout_of
        (MkLayout (Z.max (size payload) (size l)) (Z.max (align payload) (align l)))
        alternatives
  end.

(** A [u32] tag, then the payload overlay. *)
Definition variant_layout (layout_of : Ty → lay Layout) (alternatives : list Ty) :
    lay VariantLayout :=
  payload ← payload_layout layout_of ZERO alternatives;
  let tag := MkLayout 4 4 in
  let align_ := Z.max (align tag) (align payload) in
  payload_offset ← align_up (size tag) (align payload);
  last ← u64 (payload_offset + size payload);
  size ← align_up last align_;
  Ok (MkVariant (MkLayout size align_) payload_offset).

Definition struct_layout (layout_of : Ty → lay Layout) (fields : list Ty) :
    lay StructLayout :=
  laid ← collect layout_of fields;
  compose laid.

Definition kgen_simd_layout (ty : Ty) (dtype : option Dtype) (width : option Z) : lay Layout :=
  match dtype, width with
  | Some dtype, Some width =>
      let lane := lane_layout dtype in
      size ← u64 (size lane * to_unsigned 64 width);
      Ok (MkLayout size (align lane))
  | _, _ => Err (Symbolic ty)
  end.

Fixpoint layout_of (fuel : nat) (ty : Ty) : lay Layout :=
  match fuel with
  | O => Diverge
  | S fuel =>
      if is_symbolic ty then Err (Symbolic ty) else
      match uninit_storage_element ty with
      | Some element => layout <$> struct_layout (layout_of fuel) [ty_bool; element]
      | None =>
      match simd_storage ty with
      | Some storage => layout_of fuel storage
      | None =>
      match ty with
      | TKgenSimd dtype width => kgen_simd_layout ty dtype width
      | TIndex => Ok (MkLayout 8 8)
      | TI1 | TUi8 | TDtype | TKgenDtype => Ok (MkLayout 1 1)
      | TNone | TGenerator => Ok ZERO
      | TLiteral _ => Ok ZERO
      | TKgenString => layout <$> compose [pointer; MkLayout 8 8]
      | TError => mj_error
      | TStruct name _ =>
          match structs !! name with
          | None => Err (UnsupportedStruct name)
          | Some fields => layout <$> struct_layout (layout_of fuel) fields
          end
      | TTuple elements | TRuntimePack elements =>
          layout <$> struct_layout (layout_of fuel) elements
      | TPopArray n element =>
          n ← ok_or (Symbolic ty) n;
          element ← layout_of fuel element;
          size ← u64 (size element * n);
          Ok (MkLayout size (align element))
      | TVariant alternatives => variant_whole <$> variant_layout (layout_of fuel) alternatives
      | TPointer _ | TKgenPointer _ | TLitRef _ | TRef _ => Ok pointer
      | TLitRefPack elements => layout <$> compose (replicate (length elements) pointer)
      | TFunc => layout <$> compose [pointer; pointer]
      | TSimd _ _ | TUnlaid _ => Err (UnsupportedType ty)
      end
      end
      end
  end.

(** A tag, the ok payload and the error of a raising function's outcome. *)
Definition outcome_layout (fuel : nat) (ok : Ty) : lay StructLayout :=
  ok ← layout_of fuel ok;
  error ← mj_error;
  compose [MkLayout 4 4; ok; error].

End layout.

(** ** Powers of two *)

Definition pow2 (z : Z) : Prop := ∃ k, 0 <= k ∧ z = 2 ^ k.

Lemma pow2_positive z : pow2 z → 0 < z.
Proof. intros (k & Hk & ->). by apply Z.pow_pos_nonneg. Qed.

Lemma pow2_is_power_of_two z : pow2 z → is_power_of_two z = true.
Proof.
  intros Hz. unfold is_power_of_two. apply andb_true_iff. split.
  { apply Z.ltb_lt. by apply pow2_positive. }
  destruct Hz as (k & Hk & ->). apply Z.eqb_eq.
  replace (2 ^ k - 1) with (Z.ones k) by (rewrite Z.ones_equiv; lia).
  rewrite Z.land_ones by lia. apply Z_mod_same_full.
Qed.

(** Of two powers of two the larger is a multiple of both. *)
Lemma pow2_divides_max a b : pow2 a → pow2 b → (a | Z.max a b).
Proof.
  intros (k & Hk & ->) (j & Hj & ->). destruct (Z.le_ge_cases (2 ^ k) (2 ^ j)) as [H|H].
  - rewrite Z.max_r by done. exists (2 ^ (j - k)). rewrite <- Z.pow_add_r; [f_equal; lia| |lia].
    apply Z.pow_le_mono_r_iff in H; lia.
  - rewrite Z.max_l by lia. apply Z.divide_refl.
Qed.

Lemma pow2_max a b : pow2 a → pow2 b → pow2 (Z.max a b).
Proof. destruct (Z.max_spec a b) as [[_ ->]|[_ ->]]; done. Qed.

(** ** Rounding up *)

(** The least multiple of [a] that is at least [z]. *)
Definition least_multiple (a z r : Z) : Prop :=
  z <= r ∧ (a | r) ∧ ∀ m, (a | m) → z <= m → r <= m.

Lemma div_ceil_least a z : 0 < a → least_multiple a z (div_ceil z a * a).
Proof.
  intros Ha. unfold div_ceil.
  pose proof (Z.div_mod (z + a - 1) a ltac:(lia)).
  pose proof (Z.mod_pos_bound (z + a - 1) a Ha).
  split_and!; [nia|by exists ((z + a - 1) / a)|].
  intros m [q ->] Hm. assert ((z + a - 1) / a < q + 1) by (apply Z.div_lt_upper_bound; nia). nia.
Qed.

Lemma least_multiple_lt a z r : 0 < a → least_multiple a z r → r < z + a.
Proof.
  intros Ha (Hz & [q ->] & Hmin). destruct (Z.lt_ge_cases (q * a) (z + a)) as [|Hge]; [done|].
  specialize (Hmin ((q - 1) * a) ltac:(by exists (q - 1))). nia.
Qed.

(** [align_up] on a power of two: the least multiple, or a panic when it
    leaves [u64]. *)
Lemma align_up_spec offset a :
  pow2 a → 0 <= offset →
  match align_up offset a with
  | Ok r => least_multiple a offset r ∧ r < 2 ^ 64
  | Panic => ∀ m, (a | m) → offset <= m → 2 ^ 64 <= m
  | _ => False
  end.
Proof.
  intros Ha Ho. unfold align_up. rewrite pow2_is_power_of_two by done. simpl.
  pose proof (div_ceil_least a offset (pow2_positive a Ha)) as Hl. unfold u64.
  destruct (Z.leb_spec 0 (div_ceil offset a * a)), (Z.ltb_spec (div_ceil offset a * a) (2 ^ 64));
    cbn [andb]; destruct Hl as (Hge & Hdiv & Hmin); try lia; [by split_and!|].
  intros m Hm Hom. specialize (Hmin m Hm Hom). lia.
Qed.

(** ** Aggregates *)

(** A usable field layout: its size is a size, its alignment a power of
    two. *)
Definition usable (l : Layout) : Prop := 0 <= size l ∧ pow2 (align l).

(** [offsets] puts [fields] one after another from [start], each aligned,
    the last ending at [stop]. *)
Inductive placed : Z → list Layout → list Z → Z → Prop :=
| placed_nil start : placed start [] [] start
| placed_cons start field fields offset offsets stop :
    start <= offset → (align field | offset) →
    placed (offset + size field) fields offsets stop →
    placed start (field :: fields) (offset :: offsets) stop.

Definition max_align (fields : list Layout) : Z := foldr (λ f a, Z.max (align f) a) 1 fields.

Lemma placed_start start start' fields offsets stop :
  start' <= start → placed start fields offsets stop →
  ∃ stop', placed start' fields offsets stop' ∧ stop' <= stop.
Proof.
  intros Hle. destruct 1 as [start|start f fs o os stop Ho Hd Hp].
  - exists start'. split; [constructor|done].
  - exists stop. split; [|done]. constructor; [lia|done..].
Qed.

Lemma placed_stop start fields offsets stop :
  Forall usable fields → placed start fields offsets stop → start <= stop.
Proof.
  intros Hf Hp. induction Hp as [|start f fs o os stop Ho Hd Hp IH]; [lia|].
  apply Forall_cons in Hf as [[Hs _] Hf]. specialize (IH Hf). lia.
Qed.

(** The offsets after [acc] are the least placement from [start], and the
    size its end rounded up; there is none when [compose] panics. *)
Definition least_struct (start align_ : Z) (acc : list Z) (fields : list Layout)
    (s : StructLayout) : Prop :=
  let a := Z.max align_ (max_align fields) in
  ∃ os stop, offsets s = acc ++ os ∧ placed start fields os stop ∧
    align (layout s) = a ∧ least_multiple a stop (size (layout s)) ∧
    size (layout s) < 2 ^ 64 ∧
    ∀ os' stop', placed start fields os' stop' → Forall2 Z.le os os' ∧ stop <= stop'.

Definition no_struct (start align_ : Z) (fields : list Layout) : Prop :=
  ∀ os stop z, placed start fields os stop →
    (Z.max align_ (max_align fields) | z) → stop <= z → 2 ^ 64 <= z.

Lemma max_align_pow2 fields : Forall usable fields → pow2 (max_align fields).
Proof.
  induction 1 as [|f fs [_ Hf] _ IH]; simpl; [by exists 0|]. by apply pow2_max.
Qed.

(** Against the least offset of the first field, any placement comes
    later. *)
Lemma placed_cons_least start f fs os stop o :
  least_multiple (align f) start o → placed start (f :: fs) os stop →
  ∃ o' os' stop', os = o' :: os' ∧ o <= o' ∧ stop' <= stop ∧
    placed (o + size f) fs os' stop'.
Proof.
  intros (_ & _ & Hmin) Hp. inversion Hp as [|? ? ? o' os' ? Ho Hd Hp']. subst.
  specialize (Hmin o' Hd Ho).
  apply (placed_start _ (o + size f)) in Hp' as (stop' & Hp' & Hle); [|lia].
  exists o', os', stop'. split_and!; done.
Qed.

Lemma u64_spec z : 0 <= z → match u64 z with Ok r => r = z ∧ z < 2 ^ 64 | Panic => 2 ^ 64 <= z | _ => False end.
Proof.
  intros Hz. unfold u64. destruct (Z.leb_spec 0 z); [|lia].
  destruct (Z.ltb_spec z (2 ^ 64)); done.
Qed.

Lemma place_fields_nil start align_ acc :
  0 <= start → pow2 align_ →
  match place_fields start align_ acc [] with
  | Ok s => least_struct start align_ acc [] s
  | Panic => no_struct start align_ []
  | _ => False
  end.
Proof.
  intros Hstart Halign. simpl. pose proof (align_up_spec start align_ Halign Hstart) as Hup.
  assert (Z.max align_ 1 = align_) as Hmax by (apply pow2_positive in Halign; lia).
  destruct (align_up start align_) as [r| | |]; simpl; try done.
  - exists [], start. simpl. rewrite app_nil_r, Hmax. destruct Hup as [Hl Hlt].
    split_and!; [done|constructor|done|done|done|].
    intros os' stop' Hp. inversion Hp. subst. split; [constructor|lia].
  - intros os stop z Hp. simpl. rewrite Hmax. inversion Hp. subst. by apply Hup.
Qed.

Lemma place_fields_spec fields : ∀ start align_ acc,
  0 <= start → pow2 align_ → Forall usable fields →
  match place_fields start align_ acc fields with
  | Ok s => least_struct start align_ acc fields s
  | Panic => no_struct start align_ fields
  | _ => False
  end.
Proof.
  induction fields as [|f fs IH]; intros start align_ acc Hstart Halign Hfs.
  { by apply place_fields_nil. }
  simpl. apply Forall_cons in Hfs as [[Hsize Hf] Hfs].
  pose proof (align_up_spec start (align f) Hf Hstart) as Hup.
  assert (∀ a, Z.max (Z.max align_ (align f)) a = Z.max align_ (Z.max (align f) a)) as Hmax
    by (intros; lia).
  destruct (align_up start (align f)) as [o| | |]; simpl; try done.
  2: { intros os z stop Hp _ Hle. inversion Hp as [|? ? ? o' os' ? Ho Hd Hp']. subst.
       specialize (Hup o' Hd Ho). apply placed_stop in Hp'; [lia|done]. }
  destruct Hup as [Hl Ho]. pose proof Hl as (Hso & Hdiv & _).
  pose proof (u64_spec (o + size f) ltac:(lia)) as Hnext.
  destruct (u64 (o + size f)) as [next| | |]; simpl; try done.
  2: { intros os stop z Hp _ Hle.
       destruct (placed_cons_least _ _ _ _ _ _ Hl Hp) as (o' & os' & stop' & -> & Ho' & Hs & Hp').
       apply placed_stop in Hp'; [lia|done]. }
  destruct Hnext as [-> Hnext].
  specialize (IH (o + size f) (Z.max align_ (align f)) (acc ++ [o]) ltac:(lia)
    ltac:(by apply pow2_max) Hfs).
  destruct (place_fields _ _ _ fs) as [s| | |]; try done.
  - destruct IH as (os & stop & Hos & Hp & Ha & Hls & Hlt & Hleast).
    exists (o :: os), stop. rewrite Hos, <- app_assoc. simpl. rewrite Hmax in Ha, Hls.
    split_and!; [done|by constructor|done|done|done|]. intros os' stop' Hp'.
    destruct (placed_cons_least _ _ _ _ _ _ Hl Hp') as (o' & os2 & stop2 & -> & Ho' & Hs & Hp2).
    destruct (Hleast _ _ Hp2). split; [by constructor|lia].
  - intros os' stop' z Hp' Hz Hle.
    destruct (placed_cons_least _ _ _ _ _ _ Hl Hp') as (o' & os2 & stop2 & -> & Ho' & Hs & Hp2).
    eapply IH; [done|by rewrite Hmax|lia].
Qed.

(** C36: composing fields is the least C layout.  The result places the fields
    in declaration order without overlap, each at an offset aligned for it
    and none earlier possible; the aggregate's alignment is the largest of
    the fields' (at least 1) and its size the least multiple of it that holds
    them.  There is no error, and a panic only when no such layout fits in
    64 bits. *)
Theorem compose_least fields :
  Forall usable fields →
  match compose fields with
  | Ok s => least_struct 0 1 [] fields s
  | Panic => no_struct 0 1 fields
  | _ => False
  end.
Proof. intros Hf. apply place_fields_spec; [done|by exists 0|done]. Qed.

Lemma compose_least_witness :
  least_struct 0 1 [] [MkLayout 1 1; MkLayout 8 8; MkLayout 2 2]
    (MkStruct (MkLayout 24 8) [0; 8; 16]).
Proof.
  apply (compose_least [MkLayout 1 1; MkLayout 8 8; MkLayout 2 2]).
  apply Forall_cons. split; [split; [done|by exists 0]|].
  apply Forall_cons. split; [split; [done|by exists 3]|].
  apply Forall_cons. split; [split; [done|by exists 1]|constructor].
Defined.

(** ** Every layout is well-formed *)

Definition small_align (a : Z) : Prop := a = 1 ∨ a = 2 ∨ a = 4 ∨ a = 8.

(** A size is a multiple of the alignment, so elements tile. *)
Definition well_formed (l : Layout) : Prop :=
  0 <= size l < 2 ^ 64 ∧ small_align (align l) ∧ (align l | size l).

Lemma small_align_pow2 a : small_align a → pow2 a.
Proof. intros [->|[->|[->| ->]]]; [exists 0|exists 1|exists 2|exists 3]; done. Qed.

Lemma small_align_max a b : small_align a → small_align b → small_align (Z.max a b).
Proof. destruct (Z.max_spec a b) as [[_ ->]|[_ ->]]; done. Qed.

Lemma well_formed_usable l : well_formed l → usable l.
Proof. intros (Hs & Ha & _). split; [lia|by apply small_align_pow2]. Qed.

Lemma ZERO_well_formed : well_formed ZERO.
Proof. split_and!; simpl; [lia|lia|by left|by exists 0]. Qed.

Lemma word_well_formed n : small_align n → well_formed (MkLayout n n).
Proof.
  intros Hn. split_and!; simpl; [..|done|apply Z.divide_refl]; destruct Hn as [->|[->|[->| ->]]]; lia.
Qed.

Lemma lane_well_formed d : well_formed (lane_layout d).
Proof. destruct d; apply word_well_formed; unfold small_align; auto. Qed.

Lemma compose_well_formed fields s :
  Forall well_formed fields → compose fields = Ok s → well_formed (layout s).
Proof.
  intros Hf Hs.
  assert (Forall usable fields) as Hu by (eapply Forall_impl; [done|apply well_formed_usable]).
  pose proof (place_fields_spec fields 0 1 [] ltac:(lia) ltac:(by exists 0) Hu) as Hc.
  unfold compose in Hs. rewrite Hs in Hc.
  destruct Hc as (os & stop & _ & Hp & Ha & (Hge & Hdiv & _) & Hlt & _).
  assert (small_align (align (layout s))) as Hsmall.
  { rewrite Ha. apply small_align_max; [by left|]. clear -Hf.
    induction Hf as [|f fs (_ & H & _) _ IH]; simpl; [by left|]. by apply small_align_max. }
  apply placed_stop in Hp; [|done]. split_and!; [lia|done|done|]. by rewrite Ha.
Qed.

Section well_formed.
Context (is_symbolic : Ty → bool) (triple : Triple) (structs : gmap string (list Ty)).

Lemma pointer_well_formed : well_formed (pointer triple).
Proof. destruct triple. apply word_well_formed. unfold small_align. auto. Qed.

Lemma word8_well_formed : well_formed (MkLayout 8 8).
Proof. apply word_well_formed. unfold small_align. auto. Qed.

Lemma fmap_compose_well_formed fields l :
  Forall well_formed fields → layout <$> compose fields = Ok l → well_formed l.
Proof.
  intros Hf. destruct (compose fields) eqn:Hc; simpl; [|done..]. intros [= <-].
  by eapply compose_well_formed.
Qed.

Lemma mj_string_well_formed l : mj_string triple = Ok l → well_formed l.
Proof.
  apply fmap_compose_well_formed.
  repeat (apply Forall_cons; split); auto using pointer_well_formed, word8_well_formed.
Qed.

Lemma mj_error_well_formed l : mj_error triple = Ok l → well_formed l.
Proof.
  unfold mj_error. intros Hl. bind_inv Hl. apply mj_string_well_formed in Hm.
  revert Hl. apply fmap_compose_well_formed. by apply Forall_cons.
Qed.

Lemma collect_forall {A B} (f : A → lay B) (P : B → Prop) l ys :
  (∀ x y, f x = Ok y → P y) → collect f l = Ok ys → Forall P ys.
Proof.
  intros Hf. revert ys. induction l as [|x l IH]; intros ys; simpl; [by intros [= <-]|].
  intros Hys. bind_inv Hys. bind_inv Hys. simplify_eq. constructor; eauto.
Qed.

Section layouts.
Variable lo : Ty → lay Layout.
Hypothesis lo_well_formed : ∀ ty l, lo ty = Ok l → well_formed l.
#[local] Set Default Proof Using "lo_well_formed".

Lemma struct_layout_well_formed fields l :
  layout <$> struct_layout lo fields = Ok l → well_formed l.
Proof.
  unfold struct_layout. destruct (collect lo fields) as [laid| | |] eqn:Hc; simpl; [|done..].
  apply fmap_compose_well_formed. by eapply collect_forall.
Qed.

(** The payload is at least as large and as aligned as each alternative. *)
Definition overlay (payload : Layout) : Prop :=
  0 <= size payload < 2 ^ 64 ∧ small_align (align payload).

Definition holds_payload (payload l : Layout) : Prop :=
  size l <= size payload ∧ align l <= align payload.

Lemma payload_layout_spec alternatives : ∀ payload p,
  overlay payload → payload_layout lo payload alternatives = Ok p →
  overlay p ∧ holds_payload p payload ∧
  ∀ ty, ty ∈ alternatives → ∃ l, lo ty = Ok l ∧ holds_payload p l.
Proof.
  induction alternatives as [|ty tys IH]; intros payload p Hp; simpl.
  { intros [= <-]. split_and!; [done|by split|]. by intros ty ?%not_elem_of_nil. }
  intros H. bind_inv H. pose proof (lo_well_formed _ _ Hm) as (Hs & Ha & _).
  apply IH in H as (Hov & [Hh1 Hh2] & Htys); simpl in *.
  2: { destruct Hp as [? ?]. split; simpl; [lia|by apply small_align_max]. }
  split_and!; [done|split; lia|]. intros ty' [->|Hin]%elem_of_cons.
  - exists a. split; [done|split; lia].
  - by apply Htys.
Qed.

Lemma ZERO_overlay : overlay ZERO.
Proof using Type. split; [simpl; lia|by left]. Qed.

Lemma variant_layout_spec alternatives v :
  variant_layout lo alternatives = Ok v →
  well_formed (variant_whole v) ∧ 4 <= payload_offset v ∧ 4 <= align (variant_whole v) ∧
  ∀ ty, ty ∈ alternatives → ∃ l, lo ty = Ok l ∧
    (align l | payload_offset v) ∧ (align l | align (variant_whole v)) ∧
    payload_offset v + size l <= size (variant_whole v).
Proof.
  unfold variant_layout. intros Hv. bind_inv Hv.
  destruct (payload_layout_spec _ _ _ ZERO_overlay Hm) as ([Hs Ha] & _ & Htys).
  cbv zeta in Hv. cbn [size align] in Hv.
  pose proof (align_up_spec 4 (align a) (small_align_pow2 _ Ha) ltac:(lia)) as Hup.
  bind_inv Hv. rewrite Hm0 in Hup. destruct Hup as [(Hge & Hd & _) Hlt].
  pose proof (u64_spec (a0 + size a) ltac:(lia)) as Hu. bind_inv Hv. rewrite Hm1 in Hu.
  destruct Hu as [-> Hu].
  assert (small_align (Z.max 4 (align a))) as Hmax
    by (apply small_align_max; [unfold small_align; lia|done]).
  pose proof (align_up_spec (a0 + size a) _ (small_align_pow2 _ Hmax) ltac:(lia)) as Hup.
  bind_inv Hv. rewrite Hm2 in Hup. destruct Hup as [(Hge2 & Hd2 & _) Hlt2]. simplify_eq/=.
  split_and!; simpl; [by split_and!; simpl; [lia..|done|done]|lia|lia|].
  intros ty Hty. destruct (Htys ty Hty) as (l & Hl & Hsl & Hal).
  exists l. pose proof (lo_well_formed _ _ Hl) as (_ & Hla & _).
  pose proof (pow2_divides_max (align l) (align a) (small_align_pow2 _ Hla)
    (small_align_pow2 _ Ha)) as Hdiv. rewrite Z.max_r in Hdiv by done.
  split_and!; [done|by etrans| |lia].
  etrans; [exact Hdiv|]. rewrite Z.max_comm.
  apply pow2_divides_max; [by apply small_align_pow2|by exists 2].
Qed.
End layouts.

Lemma kgen_simd_well_formed ty d w l : kgen_simd_layout ty d w = Ok l → well_formed l.
Proof.
  destruct d as [d|], w as [w|]; simpl; try done. intros Hl. bind_inv Hl. simplify_eq.
  pose proof (lane_well_formed d) as (Hs & Ha & Hd).
  pose proof (to_unsigned_range 64 w ltac:(lia)) as Hw. unfold in_unsigned in Hw.
  pose proof (u64_spec (size (lane_layout d) * to_unsigned 64 w) ltac:(nia)) as Hu.
  rewrite Hm in Hu. destruct Hu as [-> Hu].
  split_and!; simpl; [nia|done|done|by apply Z.divide_mul_l].
Qed.

Lemma layout_of_ok fuel : ∀ ty l,
  layout_of is_symbolic triple structs fuel ty = Ok l → well_formed l.
Proof.
  induction fuel as [|fuel IH]; intros ty l; simpl; [done|].
  destruct (is_symbolic ty); [done|].
  destruct (uninit_storage_element ty) as [element|].
  { by apply struct_layout_well_formed. }
  destruct (simd_storage ty) as [storage|]; [by apply IH|].
  destruct ty as [| | | | | | | | | | |d w|name args|tys|tys|n ty|tys| | | | |tys| |]; try done.
  all: try (intros [= <-]; apply word_well_formed; unfold small_align; by auto).
  all: try (intros [= <-]; first [apply ZERO_well_formed|apply pointer_well_formed]).
  all: try (by apply struct_layout_well_formed).
  - apply fmap_compose_well_formed.
    repeat (apply Forall_cons; split); auto using pointer_well_formed, word8_well_formed.
  - apply mj_error_well_formed.
  - apply kgen_simd_well_formed.
  - destruct (structs !! name) as [fields|]; [|done]. by apply struct_layout_well_formed.
  - intros Hl. bind_inv Hl. bind_inv Hl. bind_inv Hl. simplify_eq.
    apply IH in Hm0 as (Hs & Ha & Hd).
    assert (0 <= a1 < 2 ^ 64 ∧ a1 = size a0 * a) as [Hr ->].
    { unfold u64 in Hm1. destruct (Z.leb_spec 0 (size a0 * a)); [|done].
      destruct (Z.ltb_spec (size a0 * a) (2 ^ 64)); simplify_eq/=. lia. }
    split_and!; simpl; [lia|lia|done|by apply Z.divide_mul_l].
  - intros Hl. destruct (variant_layout _ tys) as [v| | |] eqn:Hv; simpl in Hl; [|done..].
    simplify_eq. by eapply variant_layout_spec in Hv as [Hv _].
  - apply fmap_compose_well_formed, Forall_replicate, pointer_well_formed.
  - apply fmap_compose_well_formed.
    repeat (apply Forall_cons; split); auto using pointer_well_formed.
Qed.

(** Every layout is usable.  A type that has a layout has a size that
    fits in 64 bits and is a multiple of its alignment, so that the elements
    of an array tile, and an alignment of 1, 2, 4 or 8. *)
Theorem layout_well_formed fuel ty l :
  layout_of is_symbolic triple structs fuel ty = Ok l → well_formed l.
Proof. apply layout_of_ok. Qed.

(** A variant's payload overlays.  The tag and each alternative lie inside
    the variant, the alternative after the tag at an offset aligned for it. *)
Theorem variant_layout_overlays fuel alternatives v :
  variant_layout (layout_of is_symbolic triple structs fuel) alternatives = Ok v →
  well_formed (variant_whole v) ∧ 4 <= payload_offset v ∧
  ∀ ty, ty ∈ alternatives →
    ∃ l, layout_of is_symbolic triple structs fuel ty = Ok l ∧
      (align l | payload_offset v) ∧ (align l | align (variant_whole v)) ∧
      payload_offset v + size l <= size (variant_whole v).
Proof.
  intros Hv. eapply variant_layout_spec in Hv as (? & ? & _ & ?); [done|apply layout_of_ok].
Qed.
End well_formed.

(** ** Termination *)

(** The names of the structs a layout looks up in [ty]: not through a
    pointer. *)
Fixpoint laid_names (ty : Ty) : list string :=
  match ty with
  | TStruct name arguments =>
      "Bool" :: name :: flat_map (λ a, match a with ArgTy ty => laid_names ty | _ => [] end) arguments
  | TTuple tys | TRuntimePack tys | TVariant tys => flat_map laid_names tys
  | TPopArray _ ty => laid_names ty
  | _ => []
  end.

(** The nesting of [ty] through the types a layout recurses into. *)
Fixpoint laid_depth (ty : Ty) : nat :=
  match ty with
  | TStruct name arguments =>
      S (list_max (map (λ a, match a with ArgTy ty => laid_depth ty | _ => 0%nat end) arguments))
  | TTuple tys | TRuntimePack tys | TVariant tys => S (list_max (map laid_depth tys))
  | TPopArray _ ty => S (laid_depth ty)
  | TSimd _ _ => 1%nat
  | _ => 0%nat
  end.

Section termination.
Context (is_symbolic : Ty → bool) (triple : Triple) (structs : gmap string (list Ty)).

(** No struct holds itself by value: the fields of a struct name only
    structs of a smaller rank. *)
Variable rank : string → nat.
Hypothesis acyclic : ∀ name fields ty n,
  structs !! name = Some fields → ty ∈ fields → n ∈ laid_names ty → (rank n < rank name)%nat.
#[local] Set Default Proof Using "Type".

Notation lo := (layout_of is_symbolic triple structs).

(** From some fuel on, the layout is one result. *)
Definition settles (ty : Ty) : Prop :=
  ∃ N r, r ≠ Diverge ∧ ∀ fuel, (N <= fuel)%nat → lo fuel ty = r.

Lemma settles_collect tys :
  (∀ ty, ty ∈ tys → settles ty) →
  ∃ N r, r ≠ Diverge ∧ ∀ fuel, (N <= fuel)%nat → collect (lo fuel) tys = r.
Proof.
  induction tys as [|ty tys IH]; intros Hs; [by exists 0%nat, (Ok [])|].
  destruct (Hs ty) as (N1 & r1 & Hr1 & H1); [by left|].
  destruct IH as (N2 & r2 & Hr2 & H2); [intros; apply Hs; by right|].
  exists (N1 `max` N2)%nat, (y ← r1; ys ← r2; Ok (y :: ys)). split.
  { by destruct r1, r2. }
  intros fuel Hf. simpl. by rewrite H1, H2 by lia.
Qed.

Lemma settles_payload tys payload :
  (∀ ty, ty ∈ tys → settles ty) →
  ∃ N r, r ≠ Diverge ∧ ∀ fuel, (N <= fuel)%nat → payload_layout (lo fuel) payload tys = r.
Proof.
  revert payload. induction tys as [|ty tys IH]; intros payload Hs; [by exists 0%nat, (Ok payload)|].
  destruct (Hs ty) as (N1 & r1 & Hr1 & H1); [by left|].
  destruct r1 as [l|e| |]; [| | |done].
  2: { exists N1, (Err e). split; [done|]. intros. simpl. by rewrite H1. }
  2: { exists N1, Panic. split; [done|]. intros. simpl. by rewrite H1. }
  destruct (IH (MkLayout (Z.max (size payload) (size l)) (Z.max (align payload) (align l))))
    as (N2 & r2 & Hr2 & H2); [intros; apply Hs; by right|].
  exists (N1 `max` N2)%nat, r2. split; [done|]. intros fuel Hf. simpl.
  rewrite H1 by lia. simpl. apply H2. lia.
Qed.

(** One step of [layout_of] on settled parts settles. *)
Lemma settles_step ty (f : (Ty → lay Layout) → lay Layout) :
  (∀ fuel, lo (S fuel) ty = f (lo fuel)) →
  (∃ N r, r ≠ Diverge ∧ ∀ fuel, (N <= fuel)%nat → f (lo fuel) = r) → settles ty.
Proof.
  intros Hty (N & r & Hr & Hf). exists (S N), r. split; [done|].
  intros [|fuel] Hle; [lia|]. rewrite Hty. apply Hf. lia.
Qed.

Lemma compose_settles fields : compose fields ≠ Diverge.
Proof.
  assert (∀ fs start a acc, place_fields start a acc fs ≠ Diverge) as H; [|apply H].
  assert (∀ o a, align_up o a ≠ Diverge) as Hup.
  { intros o a. unfold align_up, assert_or_panic, u64. destruct (is_power_of_two a); simpl; [|done].
    by case_match. }
  induction fs as [|f fs IH]; intros start a acc; simpl.
  - specialize (Hup start a). by destruct (align_up start a).
  - specialize (Hup start (align f)). destruct (align_up start (align f)); try done. simpl.
    unfold u64. case_match; simpl; [apply IH|done].
Qed.

Lemma settles_struct tys :
  (∀ ty, ty ∈ tys → settles ty) →
  ∃ N r, r ≠ Diverge ∧ ∀ fuel, (N <= fuel)%nat → layout <$> struct_layout (lo fuel) tys = r.
Proof.
  intros Hs. destruct (settles_collect tys Hs) as (N & r & Hr & H).
  exists N, (layout <$> (r ≫= compose)). split.
  - destruct r as [laid| | |]; try done. simpl. pose proof (compose_settles laid).
    by destruct (compose laid).
  - intros fuel Hf. unfold struct_layout. by rewrite H.
Qed.

Lemma settles_variant tys :
  (∀ ty, ty ∈ tys → settles ty) →
  ∃ N r, r ≠ Diverge ∧
    ∀ fuel, (N <= fuel)%nat → variant_whole <$> variant_layout (lo fuel) tys = r.
Proof.
  intros Hs. destruct (settles_payload tys ZERO Hs) as (N & r & Hr & H).
  set (whole := variant_whole <$> (r ≫= λ payload,
    payload_offset ← align_up 4 (align payload);
    last ← u64 (payload_offset + size payload);
    size ← align_up last (Z.max 4 (align payload));
    Ok (MkVariant (MkLayout size (Z.max 4 (align payload))) payload_offset))).
  exists N, whole. split.
  - unfold whole. destruct r as [p| | |]; try done. simpl.
    unfold align_up, assert_or_panic, u64. repeat (case_match; simpl; try done).
  - intros fuel Hf. unfold variant_layout, whole. by rewrite H.
Qed.

Lemma settled_value ty r : r ≠ Diverge → (∀ fuel, lo (S fuel) ty = r) → settles ty.
Proof.
  intros Hr Hlo. exists 1%nat, r. split; [done|].
  intros [|fuel] Hle; [lia|apply Hlo].
Qed.

(** What a rank below [r] settles, the fields of a struct of rank [r] do. *)
Lemma settles_fields r name fields :
  (∀ r' ty, (r' < r)%nat → (∀ n, n ∈ laid_names ty → (rank n < r')%nat) → settles ty) →
  (rank name < r)%nat → structs !! name = Some fields →
  ∀ ty, ty ∈ fields → settles ty.
Proof using acyclic.
  intros IH Hname Hfields ty Hty. apply (IH (rank name)); [done|].
  intros n Hn. by eapply acyclic.
Qed.

Lemma settles_nominal r name args :
  (∀ r' ty, (r' < r)%nat → (∀ n, n ∈ laid_names ty → (rank n < r')%nat) → settles ty) →
  (rank name < r)%nat → uninit_storage_element (TStruct name args) = None →
  settles (TStruct name args).
Proof using acyclic.
  intros IH Hname Hun. destruct (is_symbolic (TStruct name args)) eqn:Hsym.
  { eapply settled_value; [|intros; simpl; by rewrite Hsym]. done. }
  destruct (structs !! name) as [fields|] eqn:Hfields.
  - eapply (settles_step _ (λ lo, layout <$> struct_layout lo fields)).
    + intros fuel. cbn [layout_of]. rewrite Hsym, Hun. simpl. by rewrite Hfields.
    + apply settles_struct. by eapply settles_fields.
  - eapply (settled_value _ (Err (UnsupportedStruct name))); [done|].
    intros fuel. cbn [layout_of]. rewrite Hsym, Hun. simpl. by rewrite Hfields.
Qed.

Lemma uninit_struct ty element :
  uninit_storage_element ty = Some element → ∃ name, ty = TStruct name [ArgTy element].
Proof.
  destruct ty as [| | | | | | | | | | | |name [|[e| |] [|]]| | | | | | | | | | |]; simpl; try done;
    destruct (is_uninit_storage_name name); intros; simplify_eq; eauto.
Qed.

Lemma in_flat_names (tys : list Ty) ty n :
  ty ∈ tys → n ∈ laid_names ty → n ∈ flat_map laid_names tys.
Proof.
  intros Hty Hn. apply list_elem_of_In, in_flat_map. exists ty.
  split; by apply list_elem_of_In.
Qed.

Lemma in_max_depth (tys : list Ty) ty : ty ∈ tys → (laid_depth ty <= list_max (map laid_depth tys))%nat.
Proof. induction 1; simpl; lia. Qed.

(** A type with no part to recurse into. *)
Lemma settles_leaf ty : laid_depth ty = 0%nat → settles ty.
Proof.
  destruct (is_symbolic ty) eqn:Hsym.
  { intros _. eapply settled_value; [|intros; simpl; by rewrite Hsym]. done. }
  destruct ty as [| | | | | | | | |lit|dt w|dt w|name args|tys|tys|sz ty|tys| | | | |tys| |];
    intros Hd; try done; (eapply settled_value; [|intros; simpl; by rewrite Hsym]); simpl; try done.
  - pose proof (compose_settles [pointer triple; MkLayout 8 8]). by destruct (compose _).
  - unfold mj_error, mj_string.
    pose proof (compose_settles [pointer triple; MkLayout 8 8; MkLayout 8 8]).
    destruct (compose _) as [s| | |]; try done. simpl.
    pose proof (compose_settles [layout s]). by destruct (compose _).
  - destruct dt as [dt|], w as [w|]; simpl; try done. unfold u64. by case_match.
  - pose proof (compose_settles (replicate (length tys) (pointer triple))). by destruct (compose _).
  - pose proof (compose_settles [pointer triple; pointer triple]). by destruct (compose _).
Qed.

Lemma settles_array n ty : settles ty → is_symbolic (TPopArray n ty) = false → settles (TPopArray n ty).
Proof.
  intros (N & res & Hr & H) Hsym.
  destruct n as [n|]; [|eapply settled_value; [|intros; simpl; by rewrite Hsym]; done].
  eapply (settles_step _ (λ lo, element ← lo ty; size ← u64 (size element * n);
    Ok (MkLayout size (align element)))).
  { intros fuel. cbn [layout_of]. by rewrite Hsym. }
  exists N, (element ← res; size ← u64 (size element * n); Ok (MkLayout size (align element))).
  split; [|intros fuel Hf; by rewrite H].
  destruct res; try done. simpl. unfold u64. by case_match.
Qed.

(** Below a bound on ranks and on depths. *)
Lemma settles_bounded r : ∀ d ty,
  (∀ n, n ∈ laid_names ty → (rank n < r)%nat) → (laid_depth ty <= d)%nat → settles ty.
Proof using acyclic.
  induction (lt_wf r) as [r _ IHr]. intros d.
  assert (∀ r' ty, (r' < r)%nat → (∀ n, n ∈ laid_names ty → (rank n < r')%nat) → settles ty)
    as IH by (intros r' ty Hr' Hty; by eapply IHr).
  clear IHr. induction (lt_wf d) as [d _ IHd]. intros ty Hnames Hdepth.
  assert (∀ tys ty', (∀ n, n ∈ flat_map laid_names tys → (rank n < r)%nat) →
    (list_max (map laid_depth tys) < d)%nat → ty' ∈ tys → settles ty') as IHtys.
  { intros tys ty' Hn Hd Hin. apply (IHd (laid_depth ty')); [|by intros; eapply Hn, in_flat_names|done].
    apply in_max_depth in Hin. lia. }
  destruct (is_symbolic ty) eqn:Hsym.
  { eapply settled_value; [|intros; simpl; by rewrite Hsym]. done. }
  destruct (uninit_storage_element ty) as [element|] eqn:Hun.
  { destruct (uninit_struct _ _ Hun) as [name ->]. simpl in Hnames, Hdepth.
    eapply (settles_step _ (λ lo, layout <$> struct_layout lo [ty_bool; element])).
    { intros fuel. cbn [layout_of]. by rewrite Hsym, Hun. }
    apply settles_struct. intros ty' [->|Hin]%elem_of_cons.
    - eapply settles_nominal; [done|apply Hnames; by left|done].
    - apply list_elem_of_singleton in Hin as ->. apply (IHd (laid_depth element)); [lia| |done].
      intros n Hn. apply Hnames. do 2 right. by rewrite app_nil_r. }
  destruct ty as [| | | | | | | | |lit|dt w|dt w|name args|tys|tys|sz ty|tys| | | | |tys| |];
    simpl in Hnames, Hdepth; try by apply settles_leaf.
  - eapply (settles_step _ (λ lo, lo (TKgenSimd dt w))).
    { intros fuel. cbn [layout_of]. by rewrite Hsym. }
    by apply settles_leaf.
  - eapply settles_nominal; [done|apply Hnames; right; by left|done].
  - eapply (settles_step _ (λ lo, layout <$> struct_layout lo tys)).
    { intros fuel. cbn [layout_of]. by rewrite Hsym. }
    apply settles_struct. intros ty' Hin. eapply IHtys; [done|lia|done].
  - eapply (settles_step _ (λ lo, layout <$> struct_layout lo tys)).
    { intros fuel. cbn [layout_of]. by rewrite Hsym. }
    apply settles_struct. intros ty' Hin. eapply IHtys; [done|lia|done].
  - apply settles_array; [|done]. apply (IHd (laid_depth ty)); [lia|done|done].
  - eapply (settles_step _ (λ lo, variant_whole <$> variant_layout lo tys)).
    { intros fuel. cbn [layout_of]. by rewrite Hsym. }
    apply settles_variant. intros ty' Hin. eapply IHtys; [done|lia|done].
Qed.

(** The layout of a type ends.  When no struct holds itself by value,
    directly or through others, the recursion of [layout_of] reaches one
    result whatever fuel beyond a bound it is given; a struct may hold
    pointers to itself. *)
Theorem layout_of_total ty :
  ∃ N r, r ≠ Diverge ∧ ∀ fuel, (N <= fuel)%nat → layout_of is_symbolic triple structs fuel ty = r.
Proof using acyclic.
  apply (settles_bounded (S (list_max (map rank (laid_names ty)))) (laid_depth ty)); [|done].
  intros n Hn. apply Nat.lt_succ_r.
  induction Hn; simpl; lia.
Qed.
End termination.

(** ** A program's structs *)

(** A list node that points to the next, holding an optional payload. *)
Definition node_structs : gmap string (list Ty) :=
  {[ "Bool" := [TKgenSimd (Some DBool) (Some 1)];
     "Node" := [ty_bool; TVariant [TNone; TSimd (Some DInt) (Some 1)];
                TPointer (TStruct "Node" [])] ]}.

Definition node_rank (name : string) : nat := if String.eqb name "Node" then 1 else 0.

Example node_layout :
  layout_of (λ _, false) X86_64UnknownLinuxGnu node_structs 8 (TStruct "Node" []) =
    Ok (MkLayout 32 8).
Proof. by vm_compute. Qed.

Lemma layout_well_formed_witness : well_formed (MkLayout 32 8).
Proof.
  apply (layout_well_formed (λ _, false) X86_64UnknownLinuxGnu node_structs 8 (TStruct "Node" [])).
  vm_compute. reflexivity.
Defined.

Lemma variant_layout_overlays_witness :
  ∃ l, layout_of (λ _, false) X86_64UnknownLinuxGnu node_structs 8
         (TSimd (Some DInt) (Some 1)) = Ok l ∧
    (align l | 8) ∧ (align l | 8) ∧ 8 + size l <= 16.
Proof.
  apply (variant_layout_overlays (λ _, false) X86_64UnknownLinuxGnu node_structs 8
    [TNone; TSimd (Some DInt) (Some 1)] (MkVariant (MkLayout 16 8) 8)).
  - vm_compute. reflexivity.
  - right. by left.
Defined.

Lemma layout_of_total_witness :
  ∃ N r, r ≠ Diverge ∧ ∀ fuel, (N <= fuel)%nat →
    layout_of (λ _, false) X86_64UnknownLinuxGnu node_structs fuel (TStruct "Node" []) = r.
Proof.
  apply (layout_of_total (λ _, false) X86_64UnknownLinuxGnu node_structs node_rank).
  intros name fields ty n Hname Hty Hn. unfold node_structs in Hname.
  rewrite insert_union_singleton_l, lookup_union_Some_raw in Hname.
  rewrite !lookup_singleton_Some in Hname.
  destruct Hname as [[<- <-]|[_ [<- <-]]].
  - apply list_elem_of_singleton in Hty as ->. by apply not_elem_of_nil in Hn.
  - repeat (apply elem_of_cons in Hty as [->|Hty]; simpl in Hn);
      [| |by apply not_elem_of_nil in Hn|by apply not_elem_of_nil in Hty].
    + repeat (apply elem_of_cons in Hn as [->|Hn]; [unfold node_rank; simpl; lia|]).
      by apply not_elem_of_nil in Hn.
    + by apply not_elem_of_nil in Hn.
Defined.
