(* ===== verification/Ieee.v ===== *)
(** * Ieee: binary floating point

    The [f64] and [f32] of the language as the sources use them, and the
    interchange formats the [half] crate shares with them: encodings as
    integers, the exact value of an encoding and rounding to nearest, ties to
    even.  An operation of the language returns the exact result rounded once;
    NaN has one encoding here, where the language leaves its payload open. *)

From S2P Require Import Prelude.
From Stdlib Require Import QArith Qabs Qround Qpower Lqa.
Local Open Scope Z_scope.

(** ** Formats and encodings *)

(** [mant] bits of fraction and [expw] bits of exponent below a sign bit. *)
Record format := MkFormat { mant : Z; expw : Z }.

Definition binary64 : format := MkFormat 52 11.
Definition binary32 : format := MkFormat 23 8.
Definition binary16 : format := MkFormat 10 5.

Definition sign_bit (f : format) : Z := 2 ^ (mant f + expw f).
Definition inf_code (f : format) : Z := (2 ^ expw f - 1) * 2 ^ mant f.
Definition nan_bits (f : format) : Z := inf_code f + 2 ^ (mant f - 1).
(** The exponent of the smallest positive value. *)
Definition unit_exp (f : format) : Z := 2 - 2 ^ (expw f - 1) - mant f.

(** The magnitude of a finite encoding without its sign, in units of the
    smallest positive value.  Magnitudes are encoded in increasing order, and
    the formula goes on past the largest finite one as if the exponent were
    unbounded. *)
Definition units (p code : Z) : Z :=
  let e := code / 2 ^ p in
  let m := code mod 2 ^ p in
  if e =? 0 then m else (2 ^ p + m) * 2 ^ (e - 1).

(** The largest encoding of at most [z] units. *)
Definition floor_code (p z : Z) : Z :=
  if z <? 2 ^ p then z
  else let k := Z.log2 z - p in (k + 1) * 2 ^ p + (z / 2 ^ k - 2 ^ p).

(** The encoding nearest to [s] units, the even one of two. *)
Definition nearest_code (p : Z) (s : Q) : Z :=
  let n := floor_code p (Qfloor s) in
  match (2 * s ?= inject_Z (units p n + units p (n + 1)))%Q with
  | Lt => n
  | Gt => n + 1
  | Eq => if Z.even n then n else n + 1
  end.

Definition pow2Q (e : Z) : Q := (2 ^ e)%Q.

(** The value of a finite encoding without its sign. *)
Definition code_value (f : format) (code : Z) : Q :=
  inject_Z (units (mant f) code) * pow2Q (unit_exp f).

(** Round a magnitude, to infinity past the largest finite value. *)
Definition round_magnitude (f : format) (q : Q) : Z :=
  Z.min (inf_code f) (nearest_code (mant f) (q * pow2Q (- unit_exp f))).

(** ** Values *)

(** What a bit pattern denotes: [Finite] keeps the sign, of a zero too. *)
Inductive float : Type :=
| NaN
| Infinite (negative : bool)
| Finite (negative : bool) (code : Z).

Definition decode (f : format) (bits : Z) : float :=
  let negative := sign_bit f <=? bits in
  let code := if negative then bits - sign_bit f else bits in
  if inf_code f <? code then NaN
  else if code =? inf_code f then Infinite negative
  else Finite negative code.

Definition with_sign (f : format) (negative : bool) (code : Z) : Z :=
  if negative then sign_bit f + code else code.

Definition encode (f : format) (x : float) : Z :=
  match x with
  | NaN => nan_bits f
  | Infinite negative => with_sign f negative (inf_code f)
  | Finite negative code => with_sign f negative code
  end.

Definition signed (negative : bool) (q : Q) : Q := if negative then (- q)%Q else q.

(** The exact value of a finite float. *)
Definition float_value (f : format) (x : float) : option Q :=
  match x with
  | Finite negative code => Some (signed negative (code_value f code))
  | _ => None
  end.

(** A magnitude rounded, with a sign. *)
Definition of_magnitude (f : format) (negative : bool) (q : Q) : float :=
  let code := round_magnitude f q in
  if code =? inf_code f then Infinite negative else Finite negative code.

(** A rational rounded; [zero_negative] is the sign of an exact zero. *)
Definition of_rational (f : format) (zero_negative : bool) (q : Q) : float :=
  match (q ?= 0)%Q with
  | Eq => Finite zero_negative 0
  | Lt => of_magnitude f true (- q)
  | Gt => of_magnitude f false q
  end.

(** [n as f64]. *)
Definition of_integer (f : format) (n : Z) : float := of_rational f false (inject_Z n).

(** A conversion between formats: [x as f32], [f64::from(x)]. *)
Definition convert (from to : format) (x : float) : float :=
  match x with
  | NaN => NaN
  | Infinite negative => Infinite negative
  | Finite negative code => of_magnitude to negative (code_value from code)
  end.

(** [x as iN]: truncation toward zero, saturating in [[lo, hi]]; NaN is 0. *)
Definition truncate (f : format) (negative : bool) (code : Z) : Z :=
  let z := Qfloor (code_value f code) in if negative then - z else z.

Definition to_integer (f : format) (lo hi : Z) (x : float) : Z :=
  match x with
  | NaN => 0
  | Infinite negative => if negative then lo else hi
  | Finite negative code => Z.max lo (Z.min hi (truncate f negative code))
  end.

(** ** Encodings are in order *)

Lemma pow2_pos' k : 0 <= k → 0 < 2 ^ k.
Proof. apply pow2_pos. Qed.
#[local] Hint Resolve pow2_pos' : ieee.

Lemma units_small p n : 0 <= n < 2 ^ p → units p n = n.
Proof. intros Hn. unfold units. by rewrite Z.div_small, Z.mod_small. Qed.

(** The encoding of mantissa [2 ^ p + m] at exponent [e]. *)
Lemma units_normal p e m :
  0 <= p → 1 <= e → 0 <= m < 2 ^ p → units p (e * 2 ^ p + m) = (2 ^ p + m) * 2 ^ (e - 1).
Proof.
  intros Hp He Hm. unfold units.
  rewrite Z.add_comm, Z_div_plus, Z_mod_plus, Z.div_small, Z.mod_small by lia.
  by destruct (Z.eqb_spec (0 + e) 0); [lia|].
Qed.

Lemma code_split p n :
  0 <= p → 0 <= n → n < 2 ^ p ∨ ∃ e m, n = e * 2 ^ p + m ∧ 1 <= e ∧ 0 <= m < 2 ^ p.
Proof.
  intros Hp Hn. pose proof (pow2_pos p Hp). destruct (Z.lt_ge_cases n (2 ^ p)); [by left|right].
  exists (n / 2 ^ p), (n mod 2 ^ p). split_and!.
  - rewrite Z.mul_comm. by apply Z.div_mod; lia.
  - apply Z.div_le_lower_bound; lia.
  - by apply Z.mod_pos_bound.
  - by apply Z.mod_pos_bound.
Qed.

(** The step from an encoding to the next. *)
Lemma units_step p n : 0 <= p → 0 <= n → units p n < units p (n + 1).
Proof.
  intros Hp Hn. pose proof (pow2_pos p Hp).
  destruct (code_split p n Hp Hn) as [Hs|(e & m & -> & He & Hm)].
  - rewrite units_small by lia. destruct (Z.eq_dec (n + 1) (2 ^ p)) as [Heq|Hne].
    + replace (n + 1) with (1 * 2 ^ p + 0) by lia. rewrite units_normal by lia. simpl. lia.
    + rewrite units_small by lia. lia.
  - rewrite units_normal by lia. pose proof (pow2_pos (e - 1) ltac:(lia)).
    destruct (Z.eq_dec (m + 1) (2 ^ p)) as [Heq|Hne].
    + replace (e * 2 ^ p + m + 1) with ((e + 1) * 2 ^ p + 0) by lia.
      rewrite units_normal by lia. replace (e + 1 - 1) with (Z.succ (e - 1)) by lia.
      rewrite Z.pow_succ_r by lia. nia.
    + replace (e * 2 ^ p + m + 1) with (e * 2 ^ p + (m + 1)) by lia.
      rewrite units_normal by lia. nia.
Qed.

Lemma units_lt p a b : 0 <= p → 0 <= a < b → units p a < units p b.
Proof.
  intros Hp [Ha Hab]. replace b with (a + 1 + (b - a - 1)) by lia.
  assert (0 <= b - a - 1) as Hk by lia. revert Hk. generalize (b - a - 1) as k.
  apply natlike_ind.
  - rewrite Z.add_0_r. by apply units_step.
  - intros k Hk IH. etrans; [exact IH|].
    replace (a + 1 + Z.succ k) with (a + 1 + k + 1) by lia. apply units_step; lia.
Qed.

Lemma units_le p a b : 0 <= p → 0 <= a <= b → units p a <= units p b.
Proof.
  intros Hp [Ha Hab]. destruct (Z.eq_dec a b) as [->|]; [lia|].
  apply Z.lt_le_incl, units_lt; lia.
Qed.

Lemma units_lt_inv p a b : 0 <= p → 0 <= a → 0 <= b → units p a < units p b → a < b.
Proof.
  intros Hp Ha Hb Hu. destruct (Z.lt_ge_cases a b) as [|H]; [done|].
  pose proof (units_le p b a Hp). lia.
Qed.

Lemma units_nonneg p a : 0 <= p → 0 <= a → 0 <= units p a.
Proof.
  intros Hp Ha. pose proof (pow2_pos p Hp). pose proof (units_le p 0 a Hp).
  rewrite (units_small p 0) in * by lia. lia.
Qed.

(** ** Rounding down *)

Lemma log2_excess p z : 0 <= p → 2 ^ p <= z → 0 <= Z.log2 z - p.
Proof.
  intros Hp Hz. apply Z.le_0_sub. rewrite <- (Z.log2_pow2 p Hp). by apply Z.log2_le_mono.
Qed.

(** The mantissa a normal [z] keeps. *)
Lemma mantissa_range p z :
  0 <= p → 2 ^ p <= z → 2 ^ p <= z / 2 ^ (Z.log2 z - p) < 2 * 2 ^ p.
Proof.
  intros Hp Hz. pose proof (log2_excess p z Hp Hz) as Hk. set (k := Z.log2 z - p) in *.
  pose proof (pow2_pos k Hk) as Hpk. pose proof (pow2_pos p Hp).
  pose proof (Z.log2_spec z ltac:(lia)) as [Hlo Hhi].
  replace (Z.log2 z) with (p + k) in * by lia.
  rewrite Z.pow_succ_r in Hhi by lia. rewrite Z.pow_add_r in * by lia. split.
  - apply Z.div_le_lower_bound; lia.
  - apply Z.div_lt_upper_bound; lia.
Qed.

Lemma floor_code_units p z :
  0 <= p → 2 ^ p <= z →
  let k := Z.log2 z - p in
  0 <= floor_code p z ∧ units p (floor_code p z) = z / 2 ^ k * 2 ^ k ∧
  units p (floor_code p z + 1) = (z / 2 ^ k + 1) * 2 ^ k.
Proof.
  intros Hp Hz k. pose proof (log2_excess p z Hp Hz) as Hk. fold k in Hk.
  pose proof (mantissa_range p z Hp Hz) as Hm. fold k in Hm. pose proof (pow2_pos p Hp).
  unfold floor_code. destruct (Z.ltb_spec z (2 ^ p)); [lia|]. fold k.
  split_and!; [nia| |].
  - rewrite units_normal by lia. f_equal; [lia|]. f_equal. lia.
  - destruct (Z.eq_dec (z / 2 ^ k - 2 ^ p + 1) (2 ^ p)) as [Heq|Hne].
    + replace ((k + 1) * 2 ^ p + (z / 2 ^ k - 2 ^ p) + 1) with ((k + 2) * 2 ^ p + 0) by lia.
      rewrite units_normal by lia. replace (k + 2 - 1) with (Z.succ k) by lia.
      rewrite Z.pow_succ_r by lia. replace (z / 2 ^ k + 1) with (2 * 2 ^ p) by lia. ring.
    + replace ((k + 1) * 2 ^ p + (z / 2 ^ k - 2 ^ p) + 1)
        with ((k + 1) * 2 ^ p + (z / 2 ^ k - 2 ^ p + 1)) by lia.
      rewrite units_normal by lia. f_equal; [lia|]. f_equal. lia.
Qed.

Lemma floor_code_spec p z :
  0 <= p → 0 <= z →
  0 <= floor_code p z ∧ units p (floor_code p z) <= z < units p (floor_code p z + 1).
Proof.
  intros Hp Hz. destruct (Z.lt_ge_cases z (2 ^ p)) as [Hs|Hn].
  - assert (floor_code p z = z) as ->.
    { unfold floor_code. by destruct (Z.ltb_spec z (2 ^ p)); [|lia]. }
    pose proof (units_step p z Hp Hz). rewrite units_small in * by lia. lia.
  - pose proof (floor_code_units p z Hp Hn) as (H0 & Hlo & Hhi).
    rewrite Hlo, Hhi. split; [done|]. set (k := Z.log2 z - p) in *.
    pose proof (pow2_pos k (log2_excess p z Hp Hn)) as Hk.
    pose proof (Z.div_mod z (2 ^ k) ltac:(lia)). pose proof (Z.mod_pos_bound z (2 ^ k) Hk). lia.
Qed.

(** A magnitude of at most [p + 1] significant bits has an encoding. *)
Definition representable (p z : Z) : Prop :=
  ∃ m j, 0 <= m <= 2 ^ (p + 1) ∧ 0 <= j ∧ z = m * 2 ^ j.

Lemma floor_code_exact p z :
  0 <= p → 0 <= z → representable p z → units p (floor_code p z) = z.
Proof.
  intros Hp Hz (m & j & Hm & Hj & Heq). destruct (Z.lt_ge_cases z (2 ^ p)) as [Hs|Hn].
  { unfold floor_code. destruct (Z.ltb_spec z (2 ^ p)); [|lia]. apply units_small. lia. }
  pose proof (floor_code_units p z Hp Hn) as (_ & -> & _).
  pose proof (log2_excess p z Hp Hn) as Hk. remember (Z.log2 z - p) as k eqn:Hdef.
  pose proof (pow2_pos k Hk). pose proof (pow2_pos p Hp). pose proof (pow2_pos j Hj).
  assert ((2 ^ k | z)) as [q Hq]; [|by rewrite Hq, Z.div_mul by lia].
  destruct (Z.le_gt_cases k j) as [Hkj|Hkj].
  { exists (m * 2 ^ (j - k)). rewrite Heq, <- Z.mul_assoc, <- Z.pow_add_r by lia.
    by do 2 f_equal; lia. }
  (* [k > j] only when the mantissa is [2 ^ (p + 1)] itself *)
  pose proof (Z.log2_spec z ltac:(lia)) as [Hlo _].
  replace (Z.log2 z) with (p + (1 + (k - j - 1) + j)) in Hlo by lia.
  rewrite Heq, !Z.pow_add_r in Hlo by lia. change (2 ^ 1) with 2 in Hlo.
  rewrite Z.pow_add_r in Hm by lia. change (2 ^ 1) with 2 in Hm.
  pose proof (pow2_pos (k - j - 1) ltac:(lia)).
  assert (2 ^ p * 2 * 2 ^ (k - j - 1) <= m) as Hmk.
  { apply (Z.mul_le_mono_pos_r _ _ (2 ^ j)); [done|]. lia. }
  assert (2 ^ (k - j - 1) = 1) as Hone by nia.
  assert (m = 2 ^ p * 2) as Hm' by lia.
  assert (k = j + 1) as Hkj'.
  { destruct (Z.eq_dec k (j + 1)) as [|Hne]; [done|].
    assert (1 < 2 ^ (k - j - 1)) by (apply Z.pow_gt_1; lia). lia. }
  exists (2 ^ p). rewrite Heq, Hm', Hkj', Z.pow_add_r by lia. change (2 ^ 1) with 2. ring.
Qed.

(** ** Rounding to nearest *)

(** [n] is the encoding nearest to [s] units: at least as near as any other,
    and even when another is as near. *)
Definition nearest (p : Z) (s : Q) (n : Z) : Prop :=
  0 <= n ∧ ∀ m, 0 <= m →
    (Qabs (s - inject_Z (units p n)) <= Qabs (s - inject_Z (units p m)))%Q ∧
    ((Qabs (s - inject_Z (units p n)) == Qabs (s - inject_Z (units p m)))%Q → m = n ∨ Z.even n = true).

(** [n] is the largest encoding at most [s]. *)
Definition brackets (p : Z) (s : Q) (n : Z) : Prop :=
  0 <= n ∧ (inject_Z (units p n) <= s)%Q ∧ (s < inject_Z (units p (n + 1)))%Q.

Lemma inject_lt a b : a < b → (inject_Z a < inject_Z b)%Q.
Proof. by rewrite <- Zlt_Qlt. Qed.
Lemma inject_le a b : a <= b → (inject_Z a <= inject_Z b)%Q.
Proof. by rewrite <- Zle_Qle. Qed.
Lemma inject_lt_inv a b : (inject_Z a < inject_Z b)%Q → a < b.
Proof. by rewrite <- Zlt_Qlt. Qed.
Lemma inject_le_inv a b : (inject_Z a <= inject_Z b)%Q → a <= b.
Proof. by rewrite <- Zle_Qle. Qed.

Lemma floor_brackets p s : 0 <= p → (0 <= s)%Q → brackets p s (floor_code p (Qfloor s)).
Proof.
  intros Hp Hs. assert (0 <= Qfloor s) as Hz by (apply (Qfloor_resp_le 0) in Hs; done).
  pose proof (floor_code_spec p (Qfloor s) Hp Hz) as (H0 & Hlo & Hhi). split_and!; [done| |].
  - eapply Qle_trans; [apply inject_le, Hlo|apply Qfloor_le].
  - eapply Qlt_le_trans; [apply Qlt_floor|]. by apply inject_le; lia.
Qed.

Lemma brackets_nonneg p s n : 0 <= p → brackets p s n → (0 <= s)%Q.
Proof.
  intros Hp (H0 & Hlo & _). eapply Qle_trans; [|exact Hlo].
  by apply (inject_le 0), units_nonneg.
Qed.

Lemma brackets_le p s s' n n' :
  0 <= p → (s <= s')%Q → brackets p s n → brackets p s' n' → n <= n'.
Proof.
  intros Hp Hs (H0 & Hlo & _) (H0' & _ & Hhi'). apply Z.lt_succ_r, (units_lt_inv p); [done|lia..|].
  apply inject_lt_inv. unfold Z.succ. lra.
Qed.

Lemma brackets_unique p s n n' : 0 <= p → brackets p s n → brackets p s n' → n = n'.
Proof.
  intros Hp Hn Hn'. apply Z.le_antisymm; by eapply brackets_le; eauto using Qle_refl.
Qed.

(** Distances on either side of [s]. *)
Lemma distance_below p s n m :
  0 <= p → brackets p s n → 0 <= m <= n →
  (Qabs (s - inject_Z (units p m)) == s - inject_Z (units p m))%Q ∧
  (inject_Z (units p m) <= inject_Z (units p n))%Q.
Proof.
  intros Hp (H0 & Hlo & _) Hm. pose proof (inject_le _ _ (units_le p m n Hp Hm)).
  split; [|done]. apply Qabs_pos. lra.
Qed.

Lemma distance_above p s n m :
  0 <= p → brackets p s n → n < m →
  (Qabs (s - inject_Z (units p m)) == inject_Z (units p m) - s)%Q ∧
  (inject_Z (units p (n + 1)) <= inject_Z (units p m))%Q.
Proof.
  intros Hp (H0 & _ & Hhi) Hm. pose proof (inject_le _ _ (units_le p (n + 1) m Hp ltac:(lia))).
  split; [|done]. rewrite Qabs_neg by lra. ring.
Qed.

Lemma units_inj p n m :
  0 <= p → 0 <= n → 0 <= m → (inject_Z (units p n) == inject_Z (units p m))%Q → n = m.
Proof.
  intros Hp Hn Hm Heq. rewrite inject_Z_injective in Heq.
  destruct (Z.lt_total n m) as [H|[H|H]]; [|done|].
  - pose proof (units_lt p n m Hp ltac:(lia)). lia.
  - pose proof (units_lt p m n Hp ltac:(lia)). lia.
Qed.

Lemma nearest_brackets p s n :
  0 <= p → brackets p s n →
  nearest p s match (2 * s ?= inject_Z (units p n + units p (n + 1)))%Q with
              | Lt => n | Gt => n + 1 | Eq => if Z.even n then n else n + 1 end.
Proof.
  intros Hp Hn. pose proof Hn as (H0 & Hlo & Hhi).
  destruct (distance_below p s n n Hp Hn ltac:(lia)) as [Dn _].
  destruct (distance_above p s n (n + 1) Hp Hn ltac:(lia)) as [Dn1 _].
  rewrite inject_Z_plus.
  assert (∀ r, 0 <= r → (r = n ∧ (2 * s <= inject_Z (units p n) + inject_Z (units p (n + 1)))%Q ∨
      r = n + 1 ∧ (inject_Z (units p n) + inject_Z (units p (n + 1)) <= 2 * s)%Q) →
    ((2 * s == inject_Z (units p n) + inject_Z (units p (n + 1)))%Q → Z.even r = true) →
    nearest p s r) as Hr.
  { intros r Hr0 Hr Htie. split; [done|]. intros m Hm. destruct (Z.le_gt_cases m n) as [Hmn|Hmn].
    - destruct (distance_below p s n m Hp Hn ltac:(lia)) as [Dm Hle]. rewrite Dm.
      destruct Hr as [[-> Hc]|[-> Hc]]; rewrite ?Dn, ?Dn1.
      + split; [lra|]. intros Heq. left. apply (units_inj p); [done..|]. lra.
      + split; [lra|]. intros Heq. right. apply Htie. lra.
    - destruct (distance_above p s n m Hp Hn ltac:(lia)) as [Dm Hle]. rewrite Dm.
      destruct Hr as [[-> Hc]|[-> Hc]]; rewrite ?Dn, ?Dn1.
      + split; [lra|]. intros Heq. right. apply Htie. lra.
      + split; [lra|]. intros Heq. left. apply (units_inj p); [done..|]. lra. }
  destruct (Qcompare_spec (2 * s) (inject_Z (units p n) + inject_Z (units p (n + 1)))).
  - destruct (Z.even n) eqn:He; apply Hr; try lia.
    + left. split; [done|]. lra.
    + intros _. done.
    + right. split; [done|]. lra.
    + intros _. by rewrite Z.add_1_r, Z.even_succ, <- Z.negb_even, He.
  - apply Hr; [lia|left; split; [done|lra]|lra].
  - apply Hr; [lia|right; split; [done|lra]|lra].
Qed.

#[export] Instance nearest_code_proper p : Proper (Qeq ==> eq) (nearest_code p).
Proof.
  intros s s' Hs. unfold nearest_code.
  rewrite (Qfloor_comp _ _ Hs). set (n := floor_code p (Qfloor s')).
  assert (2 * s == 2 * s')%Q as H2 by (by rewrite Hs).
  by rewrite (Qcompare_comp _ _ H2 _ _ (Qeq_refl _)).
Qed.

Lemma nearest_code_spec p s : 0 <= p → (0 <= s)%Q → nearest p s (nearest_code p s).
Proof. intros Hp Hs. by apply nearest_brackets, floor_brackets. Qed.

(** What is nearest brackets. *)
Lemma nearest_within p s n r :
  0 <= p → brackets p s n → nearest p s r → r = n ∨ r = n + 1.
Proof.
  intros Hp Hn [Hr0 Hr]. pose proof Hn as (H0 & Hlo & Hhi).
  destruct (distance_below p s n n Hp Hn ltac:(lia)) as [Dn _].
  destruct (distance_above p s n (n + 1) Hp Hn ltac:(lia)) as [Dn1 _].
  destruct (Z.lt_total r n) as [H|[H|H]]; [|by left|].
  - exfalso. destruct (distance_below p s n r Hp Hn ltac:(lia)) as [Dr _].
    destruct (Hr n H0) as [Hle _]. rewrite Dn, Dr in Hle.
    pose proof (inject_lt _ _ (units_lt p r n Hp ltac:(lia))). lra.
  - destruct (Z.eq_dec r (n + 1)) as [|Hne]; [by right|exfalso].
    destruct (distance_above p s n r Hp Hn H) as [Dr _].
    destruct (Hr (n + 1) ltac:(lia)) as [Hle _]. rewrite Dn1, Dr in Hle.
    pose proof (inject_lt _ _ (units_lt p (n + 1) r Hp ltac:(lia))). lra.
Qed.

Lemma nearest_unique p s n n' : 0 <= p → (0 <= s)%Q → nearest p s n → nearest p s n' → n = n'.
Proof.
  intros Hp Hs Hn Hn'. pose proof (floor_brackets p s Hp Hs) as Hb.
  pose proof (nearest_within p s _ _ Hp Hb Hn) as Hi.
  pose proof (nearest_within p s _ _ Hp Hb Hn') as Hi'.
  destruct Hn as [H0 Hn], Hn' as [H0' Hn'].
  destruct (Hn n' H0') as [Hle He], (Hn' n H0) as [Hle' He'].
  destruct He as [->|He]; [lra|done|]. destruct He' as [->|He']; [lra|done|].
  destruct Hi as [-> | ->], Hi' as [-> | ->]; try done;
    rewrite Z.add_1_r, Z.even_succ, <- Z.negb_even in *; destruct (Z.even _); done.
Qed.

#[export] Instance nearest_proper p : Proper (Qeq ==> eq ==> iff) (nearest p).
Proof.
  intros s s' Hs n n' ->. unfold nearest.
  by setoid_rewrite Hs.
Qed.

(** An encoding is nearest to its own units. *)
Lemma nearest_exact p n : 0 <= p → 0 <= n → nearest p (inject_Z (units p n)) n.
Proof.
  intros Hp Hn. split; [done|]. intros m Hm.
  assert (Qabs (inject_Z (units p n) - inject_Z (units p n)) == 0)%Q as H0.
  { unfold Qminus. by rewrite Qplus_opp_r. }
  rewrite H0. split; [apply Qabs_nonneg|]. intros Heq. left. apply (units_inj p); [done..|].
  assert (Qabs (inject_Z (units p n) - inject_Z (units p m)) <= 0)%Q as Hle by lra.
  apply Qabs_Qle_condition in Hle. lra.
Qed.

(** Between two neighbours rounding returns one of them. *)
Lemma nearest_code_between p n s :
  0 <= p → 0 <= n →
  (inject_Z (units p n) <= s)%Q → (s <= inject_Z (units p (n + 1)))%Q →
  nearest_code p s = n ∨ nearest_code p s = n + 1.
Proof.
  intros Hp Hn Hlo Hhi.
  assert (0 <= s)%Q as Hs by (eapply Qle_trans; [apply (inject_le 0), (units_nonneg p n)|]; done).
  pose proof (nearest_code_spec p s Hp Hs) as Hr.
  destruct (Qlt_le_dec s (inject_Z (units p (n + 1)))) as [Hlt|Hge].
  - apply (nearest_within p s n); [done| |done]. by split_and!.
  - right. assert (s == inject_Z (units p (n + 1)))%Q as Heq by (by apply Qle_antisym).
    eapply (nearest_unique p s); [done..|]. rewrite Heq. by apply nearest_exact; lia.
Qed.

(** ** Scaling *)

Lemma pow2Q_pos e : (0 < pow2Q e)%Q.
Proof. unfold pow2Q. by apply Qpower_0_lt. Qed.

Lemma pow2Q_add a b : (pow2Q (a + b) == pow2Q a * pow2Q b)%Q.
Proof. unfold pow2Q. by apply Qpower_plus. Qed.

Lemma pow2Q_inject n : 0 <= n → (pow2Q n == inject_Z (2 ^ n))%Q.
Proof. intros Hn. unfold pow2Q. rewrite Zpower_Qpower by done. done. Qed.

Lemma pow2Q_opp e : (pow2Q e * pow2Q (- e) == 1)%Q.
Proof. rewrite <- pow2Q_add. by replace (e + - e) with 0 by lia. Qed.

Lemma scale_le e a q : (a * pow2Q e <= q)%Q ↔ (a <= q * pow2Q (- e))%Q.
Proof.
  pose proof (pow2Q_pos e). pose proof (pow2Q_pos (- e)). pose proof (pow2Q_opp e) as Ho. split; intros H'.
  - apply (Qmult_le_compat_r _ _ (pow2Q (- e))) in H'; [|lra]. rewrite <- Qmult_assoc, Ho in H'. lra.
  - apply (Qmult_le_compat_r _ _ (pow2Q e)) in H'; [|lra].
    rewrite <- Qmult_assoc, (Qmult_comm (pow2Q (- e))), Ho in H'. lra.
Qed.

Lemma scale_ge e a q : (q <= a * pow2Q e)%Q ↔ (q * pow2Q (- e) <= a)%Q.
Proof.
  pose proof (pow2Q_pos e). pose proof (pow2Q_pos (- e)). pose proof (pow2Q_opp e) as Ho. split; intros H'.
  - apply (Qmult_le_compat_r _ _ (pow2Q (- e))) in H'; [|lra]. rewrite <- Qmult_assoc, Ho in H'. lra.
  - apply (Qmult_le_compat_r _ _ (pow2Q e)) in H'; [|lra].
    rewrite <- Qmult_assoc, (Qmult_comm (pow2Q (- e))), Ho in H'. lra.
Qed.

Lemma scale_abs e a q :
  (Qabs (q - a * pow2Q e) == Qabs (q * pow2Q (- e) - a) * pow2Q e)%Q.
Proof.
  pose proof (pow2Q_pos e). rewrite <- (Qabs_pos (pow2Q e)) at 2 by lra. rewrite <- Qabs_Qmult.
  apply Qabs_wd. pose proof (pow2Q_opp e) as Ho.
  transitivity (q * (pow2Q e * pow2Q (- e)) - a * pow2Q e)%Q; [|ring]. rewrite Ho. ring.
Qed.

(** ** Rounding in a format *)

Class Wf (f : format) : Prop := { mant_pos : 0 < mant f; expw_pos : 1 < expw f }.

#[export] Instance binary64_wf : Wf binary64.
Proof. done. Qed.
#[export] Instance binary32_wf : Wf binary32.
Proof. done. Qed.
#[export] Instance binary16_wf : Wf binary16.
Proof. done. Qed.

(** The least magnitude rounded to infinity: halfway from the largest finite
    value to the next. *)
Definition overflow_value (f : format) : Q :=
  ((1 # 2) * (code_value f (inf_code f - 1) + code_value f (inf_code f)))%Q.

(** [code] is the IEEE rounding of the magnitude [q]. *)
Definition rounds_to (f : format) (q : Q) (code : Z) : Prop :=
  (code = inf_code f ∧ (overflow_value f <= q)%Q) ∨
  (0 <= code < inf_code f ∧ (q < overflow_value f)%Q ∧
   ∀ m, 0 <= m < inf_code f →
     (Qabs (q - code_value f code) <= Qabs (q - code_value f m))%Q ∧
     ((Qabs (q - code_value f code) == Qabs (q - code_value f m))%Q → m = code ∨ Z.even code = true)).

Section format.
Context (f : format) `{!Wf f}.
#[local] Set Default Proof Using "Type*".

Lemma mant_nonneg : 0 <= mant f.
Proof. pose proof mant_pos. lia. Qed.
#[local] Hint Resolve mant_nonneg : core.

Lemma inf_code_pos : 1 < inf_code f.
Proof.
  unfold inf_code. pose proof mant_pos. pose proof expw_pos.
  assert (2 ^ 1 <= 2 ^ mant f) by (apply Z.pow_le_mono_r; lia).
  assert (2 ^ 2 <= 2 ^ expw f) by (apply Z.pow_le_mono_r; lia). nia.
Qed.

Lemma inf_code_even : Z.even (inf_code f) = true.
Proof.
  unfold inf_code. rewrite Z.even_mul, Z.even_pow by apply mant_pos. by rewrite orb_true_r.
Qed.

Lemma inf_code_sign : inf_code f < sign_bit f.
Proof.
  unfold inf_code, sign_bit. pose proof mant_pos. pose proof expw_pos.
  rewrite Z.pow_add_r by lia. pose proof (pow2_pos (mant f) ltac:(lia)). nia.
Qed.

Lemma nearest_code_lt s c :
  (0 <= s)%Q → 0 < c → Z.even c = true →
  nearest_code (mant f) s < c ↔
  (2 * s < inject_Z (units (mant f) (c - 1)) + inject_Z (units (mant f) c))%Q.
Proof.
  intros Hs Hc Heven. unfold nearest_code.
  pose proof (floor_brackets (mant f) s mant_nonneg Hs) as (H0 & Hlo & Hhi).
  set (n := floor_code (mant f) (Qfloor s)) in *. rewrite inject_Z_plus.
  set (r := match _ with Eq => _ | _ => _ end).
  assert (r = n ∨ r = n + 1) as Hr by (subst r; repeat case_match; auto).
  pose proof (inject_lt _ _ (units_step (mant f) (c - 1) mant_nonneg ltac:(lia))) as Hstep.
  replace (c - 1 + 1) with c in Hstep by lia.
  destruct (Z.lt_total n (c - 1)) as [Hn|[Hn|Hn]].
  - pose proof (inject_le _ _ (units_le (mant f) (n + 1) (c - 1) mant_nonneg ltac:(lia))).
    split; intros; [lra|lia].
  - subst r. rewrite Hn. replace (c - 1 + 1) with c by lia.
    assert (Z.even (c - 1) = false) as ->.
    { rewrite Z.sub_1_r, Z.even_pred, <- Z.negb_even, Heven. done. }
    destruct (Qcompare_spec (2 * s) (inject_Z (units (mant f) (c - 1)) + inject_Z (units (mant f) c)));
      split; intros; try lra; lia.
  - pose proof (inject_le _ _ (units_le (mant f) c n mant_nonneg ltac:(lia))).
    split; intros; [lia|lra].
Qed.

Lemma code_value_nonneg c : 0 <= c → (0 <= code_value f c)%Q.
Proof.
  intros Hc. unfold code_value. pose proof (pow2Q_pos (unit_exp f)).
  apply Qmult_le_0_compat; [|lra]. by apply (inject_le 0), units_nonneg.
Qed.

Lemma code_value_le a b : 0 <= a → 0 <= b → (code_value f a <= code_value f b)%Q ↔ a <= b.
Proof.
  intros Ha Hb. unfold code_value. pose proof (pow2Q_pos (unit_exp f)).
  rewrite Qmult_le_r by done. rewrite <- Zle_Qle. split.
  - intros H'. destruct (Z.le_gt_cases a b) as [|Hgt]; [done|].
    pose proof (units_lt (mant f) b a mant_nonneg ltac:(lia)). lia.
  - intros H'. by apply units_le.
Qed.

Lemma code_value_inj a b : 0 <= a → 0 <= b → (code_value f a == code_value f b)%Q → a = b.
Proof.
  intros Ha Hb Heq. apply Z.le_antisymm; apply code_value_le; try done; rewrite Heq; apply Qle_refl.
Qed.

Definition in_units (q : Q) : Q := (q * pow2Q (- unit_exp f))%Q.

Lemma in_units_nonneg q : (0 <= q)%Q → (0 <= in_units q)%Q.
Proof.
  intros Hq. unfold in_units. pose proof (pow2Q_pos (- unit_exp f)).
  apply Qmult_le_0_compat; [done|lra].
Qed.

Lemma in_units_le c q : (code_value f c <= q)%Q ↔ (inject_Z (units (mant f) c) <= in_units q)%Q.
Proof. apply scale_le. Qed.

Lemma in_units_ge c q : (q <= code_value f c)%Q ↔ (in_units q <= inject_Z (units (mant f) c))%Q.
Proof. apply scale_ge. Qed.

Lemma in_units_value c q : (q == code_value f c)%Q → (in_units q == inject_Z (units (mant f) c))%Q.
Proof.
  intros Hq. apply Qle_antisym.
  - apply in_units_ge. rewrite Hq. apply Qle_refl.
  - apply in_units_le. rewrite Hq. apply Qle_refl.
Qed.

Lemma in_units_distance c q :
  (Qabs (q - code_value f c) ==
   Qabs (in_units q - inject_Z (units (mant f) c)) * pow2Q (unit_exp f))%Q.
Proof. apply scale_abs. Qed.

Lemma in_units_overflow q :
  (q < overflow_value f)%Q ↔
  (2 * in_units q < inject_Z (units (mant f) (inf_code f - 1)) + inject_Z (units (mant f) (inf_code f)))%Q.
Proof.
  unfold overflow_value, code_value, in_units.
  set (a := inject_Z _). set (b := inject_Z (units _ (inf_code f))).
  pose proof (pow2Q_pos (unit_exp f)) as Hu. pose proof (pow2Q_opp (unit_exp f)) as Ho.
  rewrite <- (Qmult_lt_r (2 * (q * pow2Q (- unit_exp f))) (a + b) (pow2Q (unit_exp f))) by done.
  assert (2 * (q * pow2Q (- unit_exp f)) * pow2Q (unit_exp f) == 2 * q)%Q as ->.
  { transitivity (2 * q * (pow2Q (unit_exp f) * pow2Q (- unit_exp f)))%Q; [ring|].
    rewrite Ho. ring. }
  split; intros H'; lra.
Qed.

(** Distances compare in units as they do in value. *)
Lemma nearest_value q c m :
  (Qabs (q - code_value f c) <= Qabs (q - code_value f m))%Q ↔
  (Qabs (in_units q - inject_Z (units (mant f) c)) <=
   Qabs (in_units q - inject_Z (units (mant f) m)))%Q.
Proof. rewrite !in_units_distance. apply Qmult_le_r, pow2Q_pos. Qed.

Lemma nearest_value_eq q c m :
  (Qabs (q - code_value f c) == Qabs (q - code_value f m))%Q ↔
  (Qabs (in_units q - inject_Z (units (mant f) c)) ==
   Qabs (in_units q - inject_Z (units (mant f) m)))%Q.
Proof.
  rewrite !in_units_distance. pose proof (pow2Q_pos (unit_exp f)).
  split; intros H'; [|by rewrite H']. apply Qmult_inj_r in H'; [done|lra].
Qed.

Lemma round_magnitude_cases q :
  (0 <= q)%Q →
  ((overflow_value f <= q)%Q ∧ round_magnitude f q = inf_code f) ∨
  ((q < overflow_value f)%Q ∧ 0 <= round_magnitude f q < inf_code f ∧
   nearest (mant f) (in_units q) (round_magnitude f q)).
Proof.
  intros Hq. pose proof (in_units_nonneg q Hq) as Hs.
  pose proof (nearest_code_lt (in_units q) (inf_code f) Hs ltac:(pose proof inf_code_pos; lia)
    inf_code_even) as Hlt.
  rewrite <- in_units_overflow in Hlt. unfold round_magnitude. fold (in_units q).
  destruct (Qlt_le_dec q (overflow_value f)) as [Ho|Ho].
  - right. apply Hlt in Ho as Hn. rewrite Z.min_r by lia.
    pose proof (nearest_code_spec _ _ mant_nonneg Hs) as Hnear.
    split_and!; [done|apply Hnear|done|done].
  - left. split; [done|]. apply Z.min_l. destruct (Z.le_gt_cases (inf_code f) (nearest_code (mant f) (in_units q))) as [|Hgt]; [done|].
    apply Hlt in Hgt. lra.
Qed.

Lemma round_magnitude_range q : (0 <= q)%Q → 0 <= round_magnitude f q <= inf_code f.
Proof.
  intros Hq. pose proof inf_code_pos.
  destruct (round_magnitude_cases q Hq) as [[_ ->]|(_ & ? & _)]; lia.
Qed.

Lemma round_magnitude_rounds q : (0 <= q)%Q → rounds_to f q (round_magnitude f q).
Proof.
  intros Hq. destruct (round_magnitude_cases q Hq) as [[Ho ->]|(Ho & Hr & _ & Hn)]; [by left|right].
  split_and!; [lia..|done|]. intros m Hm. destruct (Hn m ltac:(lia)) as [Hle He].
  split; [by apply nearest_value|]. by rewrite nearest_value_eq.
Qed.

Lemma round_magnitude_proper q q' : (q == q')%Q → round_magnitude f q = round_magnitude f q'.
Proof. intros Hq. unfold round_magnitude. by rewrite Hq. Qed.

(** A value of the format rounds to itself. *)
Lemma round_magnitude_exact q c :
  0 <= c < inf_code f → (q == code_value f c)%Q → round_magnitude f q = c.
Proof.
  intros Hc Hq. unfold round_magnitude. fold (in_units q).
  assert (0 <= in_units q)%Q.
  { apply in_units_nonneg. rewrite Hq. apply code_value_nonneg. lia. }
  assert (nearest_code (mant f) (in_units q) = c) as ->; [|lia].
  apply (nearest_unique (mant f) (in_units q)); [done..|by apply nearest_code_spec|].
  rewrite (in_units_value c) by done. apply nearest_exact; [done|lia].
Qed.

(** Between two neighbours rounding returns one of them. *)
Lemma round_magnitude_between q c :
  0 <= c < inf_code f → (code_value f c <= q)%Q → (q <= code_value f (c + 1))%Q →
  round_magnitude f q = c ∨ round_magnitude f q = c + 1.
Proof.
  intros Hc Hlo Hhi. unfold round_magnitude. fold (in_units q).
  destruct (nearest_code_between (mant f) c (in_units q)) as [-> | ->];
    [done|lia|by apply in_units_le|by apply in_units_ge|left|right]; lia.
Qed.

(** Rounding passes over no value of the format. *)
Lemma floor_bounds q m :
  (0 <= q)%Q → 0 <= m < inf_code f →
  ((code_value f m <= q)%Q → m <= round_magnitude f q) ∧
  ((q <= code_value f m)%Q → round_magnitude f q <= m).
Proof.
  intros Hq Hm. destruct (round_magnitude_cases q Hq) as [[Ho ->]|(Ho & Hr & Hn)].
  - split; [lia|]. intros Hle. exfalso. unfold overflow_value in Ho.
    assert (code_value f m <= code_value f (inf_code f - 1))%Q by (apply code_value_le; lia).
    assert (code_value f (inf_code f - 1) < code_value f (inf_code f))%Q as Hlt.
    { apply Qnot_le_lt. rewrite code_value_le by lia. lia. }
    lra.
  - pose proof (floor_brackets (mant f) (in_units q) mant_nonneg (in_units_nonneg q Hq)) as Hb.
    pose proof Hb as (H0 & Hlo & Hhi).
    pose proof (nearest_within _ _ _ _ mant_nonneg Hb Hn) as Hw.
    set (n := floor_code (mant f) (Qfloor (in_units q))) in *. clearbody n. split; intros Hle.
    + apply in_units_le in Hle.
      assert (units (mant f) m < units (mant f) (n + 1)) as Hu by (apply inject_lt_inv; lra).
      apply units_lt_inv in Hu; lia || apply mant_nonneg.
    + apply in_units_ge in Hle. destruct Hw as [-> | Hw]; [|rewrite Hw in *].
      * apply Z.lt_succ_r, (units_lt_inv (mant f)); [done|lia|lia|]. apply inject_lt_inv.
        pose proof (inject_lt _ _ (units_step (mant f) m mant_nonneg ltac:(lia))). unfold Z.succ. lra.
      * destruct (Z.le_gt_cases (n + 1) m) as [|Hgt]; [done|exfalso].
        assert (m = n) as ->.
        { apply Z.le_antisymm; [lia|]. apply Z.lt_succ_r, (units_lt_inv (mant f)); [done|lia|lia|].
          apply inject_lt_inv.
          pose proof (inject_lt _ _ (units_step (mant f) m mant_nonneg ltac:(lia))). unfold Z.succ. lra. }
        assert (in_units q == inject_Z (units (mant f) n))%Q as Heq by (by apply Qle_antisym).
        rewrite Heq in Hn.
        pose proof (inject_le 0 _ (units_nonneg _ n mant_nonneg ltac:(lia))) as Hnn.
        pose proof (nearest_exact _ n mant_nonneg ltac:(lia)) as Hex.
        pose proof (nearest_unique _ _ (n + 1) n mant_nonneg Hnn Hn Hex). lia.
Qed.
End format.

(** ** Narrow and wide formats *)

(** Every finite value of [f], and the next past the largest, is a value of
    [g]. *)
Class Within (f g : format) : Prop := {
  within_mant : mant f <= mant g;
  within_unit : unit_exp g <= unit_exp f;
  within_top :
    units (mant f) (inf_code f) * 2 ^ (unit_exp f - unit_exp g) < units (mant g) (inf_code g);
}.

#[export] Instance binary32_within : Within binary32 binary64.
Proof. by split; vm_compute. Qed.
#[export] Instance binary16_within : Within binary16 binary64.
Proof. by split; vm_compute. Qed.

(** The units of an encoding are a mantissa and a power. *)
Lemma units_parts p n :
  0 <= p → 0 <= n → ∃ m j, 0 <= m <= 2 ^ (p + 1) ∧ 0 <= j ∧ units p n = m * 2 ^ j.
Proof.
  intros Hp Hn. pose proof (pow2_pos p Hp). rewrite Z.pow_add_r by lia. change (2 ^ 1) with 2.
  destruct (code_split p n Hp Hn) as [Hs|(e & m & -> & He & Hm)].
  - exists n, 0. rewrite units_small by lia. split_and!; lia.
  - exists (2 ^ p + m), (e - 1). rewrite units_normal by lia. split_and!; lia.
Qed.

Section widen.
Context (f g : format) `{!Wf f, !Wf g, !Within f g}.
#[local] Set Default Proof Using "Type*".

(** The encoding in [g] of a value of [f]. *)
Definition widen (c : Z) : Z :=
  floor_code (mant g) (units (mant f) c * 2 ^ (unit_exp f - unit_exp g)).

Lemma widen_value c :
  0 <= c <= inf_code f → 0 <= widen c < inf_code g ∧ (code_value g (widen c) == code_value f c)%Q.
Proof.
  intros Hc. pose proof (mant_nonneg f) as Hf. pose proof (mant_nonneg g) as Hg.
  pose proof (within_mant (f:=f) (g:=g)) as Hmant. pose proof (within_unit (f:=f) (g:=g)) as Hunit.
  pose proof (within_top (f:=f) (g:=g)) as Htop.
  pose proof (pow2_pos (unit_exp f - unit_exp g) ltac:(lia)).
  pose proof (units_nonneg (mant f) c Hf ltac:(lia)).
  set (z := units (mant f) c * 2 ^ (unit_exp f - unit_exp g)).
  assert (units (mant g) (widen c) = z) as Hz.
  { apply floor_code_exact; [done|nia|].
    destruct (units_parts (mant f) c Hf ltac:(lia)) as (m & j & Hm & Hj & Heq).
    exists m, (j + (unit_exp f - unit_exp g)). subst z. rewrite Heq, (Z.pow_add_r 2 j) by lia.
    assert (2 ^ (mant f + 1) <= 2 ^ (mant g + 1)) by (apply Z.pow_le_mono_r; lia).
    split_and!; [lia..|ring]. }
  pose proof (floor_code_spec (mant g) z Hg ltac:(nia)) as [Hpos _]. fold (widen c) in Hpos.
  split; [split; [done|]|].
  - apply (units_lt_inv (mant g)); [done|done|pose proof (inf_code_pos g); lia|]. rewrite Hz.
    eapply Z.le_lt_trans; [|exact Htop]. apply Z.mul_le_mono_nonneg_r; [lia|].
    apply units_le; [done|lia].
  - unfold code_value. rewrite Hz. subst z.
    rewrite inject_Z_mult, <- (pow2Q_inject (unit_exp f - unit_exp g)), <- Qmult_assoc by lia.
    rewrite <- pow2Q_add. by replace (unit_exp f - unit_exp g + unit_exp g) with (unit_exp f) by lia.
Qed.

(** A conversion to a wider format is exact. *)
Lemma convert_widen negative c :
  0 <= c < inf_code f → convert f g (Finite negative c) = Finite negative (widen c).
Proof.
  intros Hc. destruct (widen_value c ltac:(lia)) as [Hr Hv]. simpl. unfold of_magnitude.
  rewrite (round_magnitude_exact g _ (widen c)) by done.
  by destruct (Z.eqb_spec (widen c) (inf_code g)); [lia|].
Qed.
End widen.

(** ** Bits *)

Section bits.
Context (f : format) `{!Wf f}.
#[local] Set Default Proof Using "Type*".

Lemma decode_with_sign negative c :
  0 <= c < inf_code f → decode f (with_sign f negative c) = Finite negative c.
Proof.
  intros Hc. pose proof (inf_code_sign f). unfold decode, with_sign. destruct negative.
  - destruct (Z.leb_spec (sign_bit f) (sign_bit f + c)); [|lia].
    replace (sign_bit f + c - sign_bit f) with c by lia.
    destruct (Z.ltb_spec (inf_code f) c); [lia|].
    by destruct (Z.eqb_spec c (inf_code f)); [lia|].
  - destruct (Z.leb_spec (sign_bit f) c); [lia|].
    destruct (Z.ltb_spec (inf_code f) c); [lia|].
    by destruct (Z.eqb_spec c (inf_code f)); [lia|].
Qed.

Lemma with_sign_range negative c :
  0 <= c <= inf_code f → in_unsigned (mant f + expw f + 1) (with_sign f negative c).
Proof.
  intros Hc. pose proof (inf_code_sign f) as Hs. pose proof (mant_pos (f:=f)).
  pose proof (expw_pos (f:=f)). unfold in_unsigned, with_sign, sign_bit in *.
  rewrite Z.add_1_r, Z.pow_succ_r by lia. destruct negative; lia.
Qed.

(** The bits of a finite float are its sign and its encoding. *)
Lemma decode_finite bits negative c :
  0 <= bits → decode f bits = Finite negative c →
  bits = with_sign f negative c ∧ 0 <= c < inf_code f.
Proof.
  intros Hbits. unfold decode, with_sign.
  destruct (Z.leb_spec (sign_bit f) bits); repeat case_match; intros; simplify_eq;
    repeat match goal with
    | H : (_ <? _) = false |- _ => apply Z.ltb_ge in H
    | H : (_ =? _) = false |- _ => apply Z.eqb_neq in H
    end; split; lia.
Qed.

Lemma of_magnitude_code negative q :
  encode f (of_magnitude f negative q) = with_sign f negative (round_magnitude f q).
Proof. unfold of_magnitude. by destruct (Z.eqb_spec (round_magnitude f q) (inf_code f)) as [->|]. Qed.
End bits.
