(* ===== verification/NarrowFloat.v ===== *)
(** * NarrowFloat: literals as machine floats

    The conversions of [FloatLiteral] to and from machine floats
    ([mojito-common/src/literal.rs]): [from_f64], [to_f64] and the neighbour
    search [round_narrow] behind [to_f32] and [to_f16].  A machine float is its
    bits.  The conversions of [num-rational] and of [half] are interfaces, with
    their documented meaning as laws; the [f32] conversions are the
    language's. *)

From stdpp Require Import sets.
From S2P Require Import Prelude Literal Ieee.
From Stdlib Require Import QArith Qabs Qcanon Lqa.
Local Open Scope Z_scope.

(** ** The conversions of the crates *)

(** What else the code uses of [BigRational]. *)
Class RationalFloats (R : Type) : Type := {
  rat_sub : R → R → R;
  rat_to_f64 : R → option Z;
  rat_from_float : Z → option R;
}.

(** A rational that is a double converts to it, and the conversion of a
    positive one passes over no double: the result lies on the same side of
    each as the rational.  A conversion from a finite double is exact. *)
Class RationalFloatsLaws (B R : Type) `{!BigInt B, !BigRational B R, !RationalFloats R} : Prop := {
  rat_val_sub r s : (rat_val (rat_sub r s) == rat_val r - rat_val s)%Q;
  rat_to_f64_exact r negative c :
    0 <= c < inf_code binary64 → (negative = true → c ≠ 0) →
    (rat_val r == signed negative (code_value binary64 c))%Q →
    rat_to_f64 r = Some (with_sign binary64 negative c);
  rat_to_f64_sides r :
    (0 < rat_val r)%Q →
    ∃ code, rat_to_f64 r = Some code ∧ 0 <= code <= inf_code binary64 ∧
      ∀ m, 0 <= m < inf_code binary64 →
        ((code_value binary64 m <= rat_val r)%Q → m <= code) ∧
        ((rat_val r <= code_value binary64 m)%Q → code <= m);
  rat_from_float_exact bits negative c :
    decode binary64 bits = Finite negative c →
    ∃ r, rat_from_float bits = Some r ∧
      (rat_val r == signed negative (code_value binary64 c))%Q;
}.

(** [half::f16], by its bits: [from_f64] and [to_f64]. *)
Class Half : Type := {
  f16_from_f64 : Z → Z;
  f16_to_f64 : Z → Z;
}.

(** [from_f64] rounds to nearest, ties to even; [to_f64] is exact; both keep
    infinities and give a NaN for a NaN. *)
Class HalfLaws `{!Half} : Prop := {
  f16_from_f64_rounds bits negative c :
    decode binary64 bits = Finite negative c →
    f16_from_f64 bits = encode binary16 (convert binary64 binary16 (Finite negative c));
  f16_to_f64_exact bits negative c :
    decode binary16 bits = Finite negative c →
    f16_to_f64 bits = encode binary64 (convert binary16 binary64 (Finite negative c));
  f16_from_f64_special bits :
    (∀ negative c, decode binary64 bits ≠ Finite negative c) →
    decode binary16 (f16_from_f64 bits) = decode binary64 bits;
  f16_to_f64_special bits :
    (∀ negative c, decode binary16 bits ≠ Finite negative c) →
    decode binary64 (f16_to_f64 bits) = decode binary16 bits;
}.

(** ** The code *)

(** [(value as f32).to_bits()] and [f64::from(f32::from_bits(bits))]. *)
Definition f64_as_f32 (bits : Z) : Z :=
  encode binary32 (convert binary64 binary32 (decode binary64 bits)).
Definition f32_to_f64 (bits : Z) : Z :=
  encode binary64 (convert binary32 binary64 (decode binary32 bits)).

Section code.
Context {B R : Type} `{!BigInt B, !BigRational B R, !RationalFloats R, !Half}.

(** [NarrowFloat]; its functions on doubles take and give their bits. *)
Record NarrowFloat : Type := MkNarrow {
  sign : Z;
  infinity : Z;
  max_finite : Z;
  overflow : R;
  from_f64 : Z → Z;
  to_f64 : Z → Z;
}.

Definition BINARY32 : NarrowFloat := {|
  sign := Z.shiftl 1 31;
  infinity := 0x7f800000;
  max_finite := 0x7f7fffff;
  overflow := rat_from_integer (bi_sub (bi_shl (bi_from 1) 128) (bi_shl (bi_from 1) 103));
  from_f64 := f64_as_f32;
  to_f64 bits := f32_to_f64 (to_unsigned 32 bits);
|}.

Definition BINARY16 : NarrowFloat := {|
  sign := Z.shiftl 1 15;
  infinity := 0x7c00;
  max_finite := 0x7bff;
  overflow := rat_from_integer (bi_from 65520);
  from_f64 := f16_from_f64;
  to_f64 bits := f16_to_f64 (to_unsigned 16 bits);
|}.

(** [bits & !sign]. *)
Definition clear_sign (bits sign : Z) : Z := Z.ldiff bits sign.

Definition float_step (bits sign : Z) (up : bool) : Z :=
  if clear_sign bits sign =? 0 then (if up then 1 else Z.lor sign 1)
  else if Bool.eqb (negb (Z.land bits sign =? 0)) up then bits - 1
  else bits + 1.

(** [sort_unstable] on integers: equal ones are the same. *)
Fixpoint insert_sorted (x : Z) (l : list Z) : list Z :=
  match l with
  | [] => [x]
  | y :: l' => if x <=? y then x :: l else y :: insert_sorted x l'
  end.

Definition sort_unstable (l : list Z) : list Z := foldr insert_sorted [] l.

(** [dedup]: a run of equal elements becomes one. *)
Fixpoint dedup (l : list Z) : list Z :=
  match l with
  | [] => []
  | x :: l' => match dedup l' with
               | [] => [x]
               | y :: l'' => if x =? y then y :: l'' else x :: y :: l''
               end
  end.

Definition candidates (format : NarrowFloat) (approximation : Z) : list Z :=
  if approximation =? infinity format then [max_finite format]
  else
    let next := float_step approximation (sign format) true in
    [approximation; float_step approximation (sign format) false] ++
    (if next =? infinity format then [] else [next]).

(** [rational(bits)], whose [expect] panics. *)
Definition rational (format : NarrowFloat) (bits : Z) : outcome unit R :=
  unwrap (rat_from_float (to_f64 format bits)).

Definition nearer (format : NarrowFloat) (magnitude : R) (left right : Z) : outcome unit comparison :=
  l ← rational format left;
  r ← rational format right;
  Ok match rat_compare (rat_abs (rat_sub magnitude l)) (rat_abs (rat_sub magnitude r)) with
     | Eq => Z.land left 1 ?= Z.land right 1
     | c => c
     end.

(** [min_by]: the first of the least. *)
Fixpoint min_by (cmp : Z → Z → outcome unit comparison) (best : Z) (l : list Z) : outcome unit Z :=
  match l with
  | [] => Ok best
  | x :: l => c ← cmp best x; min_by cmp (match c with Gt => x | _ => best end) l
  end.

(** [None] is [Err tt]. *)
Definition round_narrow (x : FloatLiteral R) (format : NarrowFloat) : outcome unit Z :=
  if float_is_zero x then Ok (if negative_zero x then sign format else 0)
  else
    let negative := rat_is_negative (value x) in
    let magnitude := rat_abs (value x) in
    match rat_compare magnitude (overflow format) with
    | Lt =>
        double ← ok_or tt (rat_to_f64 magnitude);
        let approximation := from_f64 format double in
        match dedup (sort_unstable (candidates format approximation)) with
        | [] => Err tt
        | first :: rest =>
            best ← min_by (nearer format magnitude) first rest;
            Ok (if negative then Z.lxor best (sign format) else best)
        end
    | _ => Ok (if negative then Z.lor (sign format) (infinity format) else infinity format)
    end.

(** The bits of the [f32] and of the [f16]. *)
Definition to_f32 (x : FloatLiteral R) : outcome unit Z :=
  to_unsigned 32 <$> round_narrow x BINARY32.
Definition to_f16 (x : FloatLiteral R) : outcome unit Z :=
  to_unsigned 16 <$> round_narrow x BINARY16.

Definition literal_from_f64 (bits : Z) : option (FloatLiteral R) :=
  match decode binary64 bits with
  | Finite negative c =>
      r ← rat_from_float bits;
      Some (mkFloat r ((c =? 0) && negative))
  | _ => None
  end.

Definition literal_to_f64 (x : FloatLiteral R) : option Z :=
  if float_is_zero x && negative_zero x then Some (with_sign binary64 true 0)
  else rat_to_f64 (value x).
End code.

(** ** Lists of candidates *)

Lemma elem_of_insert_sorted x y l : y ∈ insert_sorted x l ↔ y = x ∨ y ∈ l.
Proof.
  induction l as [|z l IH]; simpl; [set_solver|]. destruct (x <=? z); set_solver.
Qed.

Lemma elem_of_sort x l : x ∈ sort_unstable l ↔ x ∈ l.
Proof.
  induction l as [|y l IH]; simpl; [done|].
  rewrite elem_of_insert_sorted, elem_of_cons. naive_solver.
Qed.

Lemma elem_of_dedup x l : x ∈ dedup l ↔ x ∈ l.
Proof.
  induction l as [|y l IH]; simpl; [done|]. destruct (dedup l) as [|z l'].
  - set_solver.
  - destruct (Z.eqb_spec y z); set_solver.
Qed.

(** [min_by] under a comparison that is a total preorder on the list. *)
Lemma min_by_least cmp (le : Z → Z → Prop) (P : Z → Prop) :
  (∀ x, le x x) → (∀ x y z, le x y → le y z → le x z) →
  (∀ x y, P x → P y → ∃ c, cmp x y = Ok c ∧ match c with Gt => le y x | _ => le x y end) →
  ∀ l best, P best → Forall P l →
    ∃ r, min_by cmp best l = Ok r ∧ r ∈ best :: l ∧ ∀ x, x ∈ best :: l → le r x.
Proof.
  intros Hrefl Htrans Hcmp. induction l as [|x l IH]; intros best Hb Hl; simpl.
  { exists best. split_and!; [done|by left|]. by intros x ->%list_elem_of_singleton. }
  apply Forall_cons in Hl as [Hx Hl]. destruct (Hcmp best x Hb Hx) as (c & -> & Hc). simpl.
  set (next := match c with Gt => x | _ => best end).
  assert (next = best ∧ le best x ∨ next = x ∧ le x best) as Hn by (destruct c; auto).
  destruct (IH next) as (r & -> & Hin & Hle); [by destruct Hn as [[-> _]|[-> _]]|done|].
  exists r. split; [done|].
  pose proof (Hle next ltac:(by left)) as Hrn.
  split; [destruct Hn as [[-> _]|[-> _]]; set_solver|].
  intros y [->|[->|Hy]%elem_of_cons]%elem_of_cons.
  - destruct Hn as [[-> _]|[-> ?]]; eauto.
  - destruct Hn as [[-> ?]|[-> _]]; eauto.
  - apply Hle. by right.
Qed.

(** ** Sign bits *)

Lemma ldiff_below c k : 0 <= k → 0 <= c < 2 ^ k → Z.ldiff c (2 ^ k) = c.
Proof.
  intros Hk Hc. apply Z.bits_inj'. intros n Hn. rewrite Z.ldiff_spec.
  rewrite Z.pow2_bits_eqb by done. destruct (Z.eqb_spec k n) as [->|]; [|by rewrite andb_true_r].
  simpl. rewrite andb_false_r. symmetry. destruct (Z.eq_dec c 0) as [->|]; [by apply Z.bits_0|].
  apply Z.bits_above_log2; [lia|]. apply Z.log2_lt_pow2; lia.
Qed.

Lemma land_below c k : 0 <= k → 0 <= c < 2 ^ k → Z.land c (2 ^ k) = 0.
Proof.
  intros Hk Hc. rewrite <- (ldiff_below c k) by done. apply Z.land_ldiff.
Qed.

Lemma lxor_above c k : 0 <= k → 0 <= c < 2 ^ k → Z.lxor c (2 ^ k) = 2 ^ k + c.
Proof.
  intros Hk Hc. rewrite <- Z.add_nocarry_lxor by (by apply land_below). lia.
Qed.

Lemma lor_above c k : 0 <= k → 0 <= c < 2 ^ k → Z.lor (2 ^ k) c = 2 ^ k + c.
Proof.
  intros Hk Hc. rewrite <- Z.lxor_lor by (rewrite Z.land_comm; by apply land_below).
  rewrite <- Z.add_nocarry_lxor by (rewrite Z.land_comm; by apply land_below). lia.
Qed.

Lemma float_step_up c k : 0 <= k → 0 <= c < 2 ^ k → float_step c (2 ^ k) true = c + 1.
Proof.
  intros Hk Hc. unfold float_step, clear_sign. rewrite ldiff_below, land_below by done.
  by destruct (Z.eqb_spec c 0) as [->|].
Qed.

Lemma float_step_down c k :
  0 < k → 0 <= c < 2 ^ k →
  float_step c (2 ^ k) false = if c =? 0 then 2 ^ k + 1 else c - 1.
Proof.
  intros Hk Hc. unfold float_step, clear_sign. rewrite ldiff_below, land_below by lia.
  destruct (Z.eqb_spec c 0); [|done]. apply lor_above; [lia|]. split; [done|].
  by apply Z.pow_gt_1.
Qed.

(** ** The neighbour search is the rounding *)

Section correct.
Context {B R : Type} `{!BigInt B, !BigRational B R, !RationalFloats R, !Half}.
Context `{!BigIntLaws B, !BigRationalLaws B R, !RationalFloatsLaws B R, !HalfLaws}.
#[local] Set Default Proof Using "Type*".

(** The bit patterns and functions of [nf] are those of the format [f]. *)
Record describes (nf : NarrowFloat (R:=R)) (f : format) : Prop := {
  d_sign : sign nf = sign_bit f;
  d_infinity : infinity nf = inf_code f;
  d_max_finite : max_finite nf = inf_code f - 1;
  d_overflow : (rat_val (overflow nf) == overflow_value f)%Q;
  d_from c :
    0 <= c < inf_code binary64 →
    from_f64 nf c = round_magnitude f (code_value binary64 c);
  d_to negative c :
    0 <= c < inf_code f →
    decode binary64 (to_f64 nf (with_sign f negative c)) = Finite negative (widen f binary64 c);
}.

Section search.
Context (nf : NarrowFloat (R:=R)) (f : format).
Context `{!Wf f, !Within f binary64} (Hnf : describes nf f).

Lemma sign_exp : 0 < mant f + expw f.
Proof. pose proof (mant_pos (f:=f)). pose proof (expw_pos (f:=f)). lia. Qed.

Lemma below_sign c : 0 <= c <= inf_code f → 0 <= c < 2 ^ (mant f + expw f).
Proof. pose proof (inf_code_sign f) as Hs. unfold sign_bit in Hs. lia. Qed.

(** A candidate is a finite pattern; only the step below zero is negative. *)
Inductive candidate : Z → bool → Z → Prop :=
| candidate_positive c : 0 <= c < inf_code f → candidate c false c
| candidate_negative : candidate (sign_bit f + 1) true 1.

Lemma candidate_range bits negative c :
  candidate bits negative c → bits = with_sign f negative c ∧ 0 <= c < inf_code f.
Proof. pose proof (inf_code_pos f). destruct 1; simpl; split; try done; lia. Qed.

Definition distance (v : Q) (bits : Z) : Q :=
  match decode f bits with
  | Finite negative c => Qabs (v - signed negative (code_value f c))
  | _ => 0%Q
  end.

Lemma distance_candidate v bits negative c :
  candidate bits negative c → distance v bits = Qabs (v - signed negative (code_value f c)).
Proof.
  intros [-> Hc]%candidate_range. unfold distance. by rewrite decode_with_sign.
Qed.

Lemma rational_candidate bits negative c :
  candidate bits negative c →
  ∃ r, rational nf bits = Ok r ∧ (rat_val r == signed negative (code_value f c))%Q.
Proof using All.
  intros [-> Hc]%candidate_range. pose proof (d_to _ _ Hnf negative c Hc) as Hd.
  destruct (rat_from_float_exact _ _ _ Hd) as (r & Hr & Hv).
  exists r. unfold rational. rewrite Hr. split; [done|].
  rewrite Hv. destruct (widen_value f binary64 c ltac:(lia)) as [_ Hw].
  destruct negative; simpl; by rewrite Hw.
Qed.

(** The order the search minimizes: the distance, then the last bit. *)
Definition closer (v : Q) (x y : Z) : Prop :=
  (distance v x < distance v y)%Q ∨
  (distance v x == distance v y)%Q ∧ Z.land x 1 <= Z.land y 1.

Lemma closer_refl v x : closer v x x.
Proof. right. split; [apply Qeq_refl|lia]. Qed.

Lemma closer_trans v x y z : closer v x y → closer v y z → closer v x z.
Proof.
  unfold closer. intros [H1|[H1 H1']] [H2|[H2 H2']]; [left; lra..|right]. split; [lra|lia].
Qed.

Lemma nearer_closer magnitude x y nx cx ny cy :
  candidate x nx cx → candidate y ny cy →
  ∃ c, nearer nf magnitude x y = Ok c ∧
    match c with Gt => closer (rat_val magnitude) y x | _ => closer (rat_val magnitude) x y end.
Proof using All.
  intros Hx Hy. destruct (rational_candidate _ _ _ Hx) as (rx & Erx & Vx).
  destruct (rational_candidate _ _ _ Hy) as (ry & Ery & Vy).
  unfold nearer. rewrite Erx, Ery. simpl. eexists. split; [done|].
  rewrite rat_compare_val.
  assert (∀ bits n c r, candidate bits n c → (rat_val r == signed n (code_value f c))%Q →
    (rat_val (rat_abs (B:=B) (rat_sub magnitude r)) == distance (rat_val magnitude) bits)%Q) as Hd.
  { intros bits n c r Hc Hr. rewrite rat_val_abs, rat_val_sub, Hr.
    by rewrite (distance_candidate _ _ _ _ Hc). }
  pose proof (Hd _ _ _ _ Hx Vx) as Dx. pose proof (Hd _ _ _ _ Hy Vy) as Dy.
  destruct (Qcompare_spec (rat_val (rat_abs (B:=B) (rat_sub magnitude rx)))
              (rat_val (rat_abs (B:=B) (rat_sub magnitude ry)))) as [E|L|G]; rewrite Dx, Dy in *.
  - destruct (Z.compare_spec (Z.land x 1) (Z.land y 1)).
    + right. split; [done|lia].
    + right. split; [done|lia].
    + right. split; [by symmetry|lia].
  - by left.
  - by left.
Qed.

Lemma candidates_spec approximation :
  0 <= approximation <= inf_code f →
  ∀ x, x ∈ candidates nf approximation ↔
    if approximation =? inf_code f then x = inf_code f - 1
    else x = approximation ∨
         x = (if approximation =? 0 then sign_bit f + 1 else approximation - 1) ∨
         (x = approximation + 1 ∧ approximation + 1 ≠ inf_code f).
Proof using All.
  intros Ha x. unfold candidates. rewrite (d_infinity _ _ Hnf), (d_max_finite _ _ Hnf), (d_sign _ _ Hnf).
  destruct (Z.eqb_spec approximation (inf_code f)); [by rewrite list_elem_of_singleton|].
  pose proof (below_sign approximation Ha) as Hlt. pose proof sign_exp.
  unfold sign_bit. rewrite float_step_up, float_step_down by lia.
  destruct (Z.eqb_spec (approximation + 1) (inf_code f)); simpl; set_solver.
Qed.

Lemma candidates_are approximation x :
  0 <= approximation <= inf_code f → x ∈ candidates nf approximation →
  ∃ negative c, candidate x negative c.
Proof using All.
  intros Ha Hx. apply candidates_spec in Hx; [|done]. pose proof (inf_code_pos f).
  destruct (Z.eqb_spec approximation (inf_code f)) as [He|Hne].
  { subst x. exists false, (inf_code f - 1). constructor. lia. }
  destruct Hx as [->|[->|[-> Hn]]].
  - exists false, approximation. constructor. lia.
  - destruct (Z.eqb_spec approximation 0).
    + exists true, 1. constructor.
    + exists false, (approximation - 1). constructor. lia.
  - exists false, (approximation + 1). constructor. lia.
Qed.

Lemma last_bit c : 0 <= c → Z.land c 1 = if Z.even c then 0 else 1.
Proof.
  intros _. change 1 with (Z.ones 1) at 1. rewrite Z.land_ones, Z.pow_1_r by lia.
  rewrite Zmod_even. done.
Qed.

(** Only the nearest finite pattern is as close as it. *)
Lemma closest v t b negative c :
  (0 < v)%Q → 0 <= t < inf_code f → nearest (mant f) (in_units f v) t →
  candidate b negative c → closer v b t → b = t.
Proof using All.
  intros Hv Ht [_ Hn] Hb Hc. pose proof (candidate_positive t Ht) as Hct.
  assert (∀ m, 0 <= m → (Qabs (v - code_value f t) <= Qabs (v - code_value f m))%Q ∧
    ((Qabs (v - code_value f t) == Qabs (v - code_value f m))%Q → m = t ∨ Z.even t = true)) as Hnv.
  { intros m Hm. rewrite (nearest_value f), (nearest_value_eq f). by apply Hn. }
  unfold closer in Hc. rewrite (distance_candidate _ _ _ _ Hb), (distance_candidate _ _ _ _ Hct) in Hc.
  cbn [signed] in Hc. destruct Hb as [c Hrange|]; cbn [signed] in Hc.
  - destruct (Hnv c ltac:(lia)) as [Hle Heq]. destruct Hc as [Hc|[Hc Hbit]]; [lra|].
    destruct Heq as [->|He]; [by symmetry|done|].
    rewrite !last_bit, He in Hbit by lia. destruct (Z.even c) eqn:Hec; [|lia].
    apply (nearest_unique (mant f) (in_units f v)); [by apply mant_nonneg| | |].
    + apply in_units_nonneg; [done|lra].
    + split; [lia|]. intros m Hm. rewrite <- (nearest_value f), <- (nearest_value_eq f).
      destruct (Hnv m Hm) as [Hlem _]. split; [lra|]. intros _. by right.
    + by split; [lia|].
  - exfalso. destruct (Hnv 0 ltac:(lia)) as [Hzero _].
    assert (code_value f 0 == 0)%Q as Hz.
    { unfold code_value. rewrite units_small; [ring|]. pose proof (pow2_pos (mant f) (mant_nonneg f)). lia. }
    assert (code_value f 0 < code_value f 1)%Q as Hone.
    { apply Qnot_le_lt. intros Hle%code_value_le; [lia|done|lia..]. }
    rewrite Hz in *. rewrite (Qabs_pos (v - 0)) in Hzero by lra.
    rewrite (Qabs_pos (v - - code_value f 1)) in Hc by lra.
    destruct Hc as [Hc|[Hc _]]; lra.
Qed.

(** The double the search starts from leaves the nearest pattern among the
    candidates. *)
Lemma nearest_is_candidate v double t :
  (0 < v)%Q → (v < overflow_value f)%Q → 0 <= double <= inf_code binary64 →
  (∀ m, 0 <= m < inf_code binary64 →
     ((code_value binary64 m <= v)%Q → m <= double) ∧
     ((v <= code_value binary64 m)%Q → double <= m)) →
  0 <= t < inf_code f → nearest (mant f) (in_units f v) t →
  double < inf_code binary64 ∧
  0 <= round_magnitude f (code_value binary64 double) <= inf_code f ∧
  t ∈ candidates nf (round_magnitude f (code_value binary64 double)).
Proof using All.
  intros Hv Ho Hd Hsides Ht Hnear.
  pose proof (floor_brackets (mant f) (in_units f v) (mant_nonneg f)
    ltac:(apply in_units_nonneg; [done|lra])) as Hbr.
  set (n := floor_code _ _) in Hbr. pose proof Hbr as (Hn0 & Hlo & Hhi).
  assert (n < inf_code f) as Hn.
  { apply Z.nle_gt. intros Hge. apply in_units_overflow in Ho; [|done].
    pose proof (inject_le _ _ (units_le (mant f) (inf_code f) n (mant_nonneg f)
      ltac:(pose proof (inf_code_pos f); lia))).
    pose proof (inject_lt _ _ (units_lt (mant f) (inf_code f - 1) (inf_code f) (mant_nonneg f)
      ltac:(pose proof (inf_code_pos f); lia))). lra. }
  destruct (widen_value f binary64 n ltac:(lia)) as [Hwn Vn].
  destruct (widen_value f binary64 (n + 1) ltac:(lia)) as [Hwn1 Vn1].
  assert (code_value f n <= v)%Q as Hnv by (by apply in_units_le).
  assert (v <= code_value f (n + 1))%Q as Hvn by (apply in_units_ge; [done|lra]).
  destruct (Hsides (widen f binary64 n) Hwn) as [Hge _].
  destruct (Hsides (widen f binary64 (n + 1)) Hwn1) as [_ Hle].
  rewrite Vn in Hge. rewrite Vn1 in Hle. specialize (Hge Hnv). specialize (Hle Hvn).
  assert (t = n ∨ t = n + 1) as Htn by (by eapply nearest_within; [apply mant_nonneg|..]).
  destruct (round_magnitude_between f (code_value binary64 double) n ltac:(lia)) as [Hr|Hr].
  1: { rewrite <- Vn. apply code_value_le; [apply binary64_wf|lia..]. }
  1: { rewrite <- Vn1. apply code_value_le; [apply binary64_wf|lia..]. }
  all: rewrite Hr; split; [lia|]; split; [lia|]; apply candidates_spec; [lia|].
  - destruct (Z.eqb_spec n (inf_code f)); [lia|]. destruct Htn as [->| ->]; [by left|].
    right. right. split; [done|lia].
  - destruct (Z.eqb_spec (n + 1) (inf_code f)); [lia|].
    destruct Htn as [->| ->]; [|by left]. right. left.
    destruct (Z.eqb_spec (n + 1) 0); lia.
Qed.

(** The search returns the pattern nearest to the magnitude. *)
Lemma search_finds magnitude t :
  (0 < rat_val magnitude)%Q → (rat_val magnitude < overflow_value f)%Q →
  0 <= t < inf_code f → nearest (mant f) (in_units f (rat_val magnitude)) t →
  ∃ double first rest,
    rat_to_f64 magnitude = Some double ∧
    dedup (sort_unstable (candidates nf (from_f64 nf double))) = first :: rest ∧
    min_by (nearer nf magnitude) first rest = Ok t.
Proof using All.
  intros Hv Ho Ht Hnear. destruct (rat_to_f64_sides magnitude Hv) as (double & Hdouble & Hd & Hsides).
  destruct (nearest_is_candidate _ _ _ Hv Ho Hd Hsides Ht Hnear) as (Hfin & Hrange & Hin).
  rewrite <- (d_from _ _ Hnf) in Hin, Hrange by lia.
  apply elem_of_sort, elem_of_dedup in Hin.
  assert (∀ x, x ∈ dedup (sort_unstable (candidates nf (from_f64 nf double))) →
    ∃ negative c, candidate x negative c) as Hall.
  { intros x Hx. rewrite elem_of_dedup, elem_of_sort in Hx. by eapply candidates_are. }
  exists double. destruct (dedup _) as [|first rest]; [by apply not_elem_of_nil in Hin|].
  exists first, rest. split_and!; [done|done|].
  destruct (min_by_least (nearer nf magnitude) (closer (rat_val magnitude))
    (λ x, ∃ negative c, candidate x negative c)) with (l := rest) (best := first)
    as (r & Hr & Hrin & Hleast).
  - apply closer_refl.
  - apply closer_trans.
  - intros x y (nx & cx & Hx) (ny & cy & Hy). by eapply nearer_closer.
  - apply Hall. by left.
  - apply Forall_forall. intros x Hx. apply Hall. by right.
  - rewrite Hr. f_equal. destruct (Hall r Hrin) as (n & c & Hrc).
    eapply closest; [exact Hv|exact Ht|done|exact Hrc|by apply Hleast].
Qed.

Lemma round_narrow_rounds x :
  round_narrow (B:=B) x nf =
    Ok (with_sign f (sign_negative (B:=B) x) (round_magnitude f (Qabs (fval (B:=B) x)))).
Proof using All.
  unfold round_narrow, sign_negative, float_is_zero. pose proof (inf_code_pos f) as Hinf.
  rewrite rat_is_negative_val, rat_is_zero_val. fold (fval (B:=B) x).
  destruct (Qeq_bool (fval (B:=B) x) 0) eqn:Hz.
  - apply Qeq_bool_iff in Hz.
    assert (Qle_bool 0 (fval (B:=B) x) = true) as -> by (apply Qle_bool_iff; lra).
    rewrite (round_magnitude_exact f _ 0); [|lia|].
    + rewrite (d_sign _ _ Hnf). simpl. destruct (negative_zero x); simpl; f_equal. lia.
    + rewrite Hz. unfold code_value. rewrite units_small; [by vm_compute|].
      pose proof (pow2_pos (mant f) (mant_nonneg f)). lia.
  - apply Qeq_bool_neq in Hz. rewrite rat_compare_val.
    set (magnitude := rat_abs (value x)).
    assert (rat_val magnitude == Qabs (fval (B:=B) x))%Q as Hm by apply rat_val_abs.
    assert (0 < Qabs (fval (B:=B) x))%Q as Hpos.
    { pose proof (Qabs_nonneg (fval (B:=B) x)).
      assert (¬ Qabs (fval (B:=B) x) == 0)%Q; [|lra]. intros Habs. apply Hz.
      assert (Qabs (fval (B:=B) x) <= 0)%Q as Hle by lra. apply Qabs_Qle_condition in Hle. lra. }
    rewrite orb_false_r. set (negative := negb (Qle_bool 0 (fval (B:=B) x))).
    destruct (Qcompare_spec (rat_val magnitude) (rat_val (overflow nf))) as [Hc|Hc|Hc];
      rewrite (d_overflow _ _ Hnf) in Hc; pose proof Hc as Hc'; rewrite Hm in Hc'.
    2: { destruct (round_magnitude_cases f (rat_val magnitude)) as [[Ho _]|(Ho & Hr & Hn)];
           [lra..|].
         destruct (search_finds magnitude _ ltac:(lra) Ho Hr Hn)
           as (double & first & rest & -> & Hl & Hmin). simpl. rewrite Hl, Hmin. simpl.
         assert (round_magnitude f (Qabs (fval (B:=B) x)) = round_magnitude f (rat_val magnitude)) as ->.
         { apply (round_magnitude_proper f). by rewrite Hm. }
         destruct negative; [|done]. rewrite (d_sign _ _ Hnf). f_equal.
         apply lxor_above; [pose proof sign_exp; lia|apply below_sign; lia]. }
    all: assert (round_magnitude f (Qabs (fval (B:=B) x)) = inf_code f) as ->
      by (destruct (round_magnitude_cases f (Qabs (fval (B:=B) x))) as [[_ ?]|(? & _)]; [lra|done|lra]);
      rewrite (d_sign _ _ Hnf), (d_infinity _ _ Hnf); destruct negative; [|done]; simpl; f_equal;
      apply lor_above; [pose proof sign_exp; lia|apply below_sign; lia].
Qed.
End search.

Lemma BINARY32_describes : describes (BINARY32 (B:=B)) binary32.
Proof.
  split; try done.
  - simpl. rewrite rat_val_from_integer. autorewrite with bigint. by vm_compute.
  - intros c Hc. simpl. unfold f64_as_f32. change c with (with_sign binary64 false c) at 1.
    rewrite decode_with_sign by done. simpl. by rewrite of_magnitude_code.
  - intros negative c Hc. cbn [to_f64 BINARY32]. rewrite to_unsigned_small.
    + unfold f32_to_f64. rewrite decode_with_sign, (convert_widen binary32 binary64) by done.
      destruct (widen_value binary32 binary64 c ltac:(lia)) as [Hw _].
      cbn [encode]. by rewrite (decode_with_sign binary64).
    + apply (with_sign_range binary32). lia.
Qed.

Lemma BINARY16_describes : describes (BINARY16 (B:=B)) binary16.
Proof.
  split; try done.
  - simpl. rewrite rat_val_from_integer. autorewrite with bigint. by vm_compute.
  - intros c Hc. simpl. rewrite (f16_from_f64_rounds _ false c).
    + simpl. by rewrite of_magnitude_code.
    + change c with (with_sign binary64 false c) at 1. by rewrite decode_with_sign.
  - intros negative c Hc. cbn [to_f64 BINARY16]. rewrite to_unsigned_small.
    + rewrite (f16_to_f64_exact _ negative c) by (by apply decode_with_sign).
      rewrite (convert_widen binary16 binary64) by done.
      destruct (widen_value binary16 binary64 c ltac:(lia)) as [Hw _].
      cbn [encode]. by rewrite (decode_with_sign binary64).
    + apply (with_sign_range binary16). lia.
Qed.
(** C14: a float literal materializes correctly rounded.  The [f32] and the
    [f16] of a literal are the nearest values of their formats to its exact
    value, ties to even, with its sign (a negative zero's too), or infinity
    from halfway past the largest finite value; the conversion never fails, and
    the exact rational never passes through a rounding to double. *)
Theorem literal_rounding x :
  (∃ code, to_f32 (B:=B) x = Ok (with_sign binary32 (sign_negative (B:=B) x) code) ∧
     rounds_to binary32 (Qabs (fval (B:=B) x)) code) ∧
  (∃ code, to_f16 (B:=B) x = Ok (with_sign binary16 (sign_negative (B:=B) x) code) ∧
     rounds_to binary16 (Qabs (fval (B:=B) x)) code).
Proof.
  split; eexists; split.
  - unfold to_f32. rewrite (round_narrow_rounds _ _ BINARY32_describes). simpl.
    rewrite to_unsigned_small; [done|].
    apply (with_sign_range binary32), (round_magnitude_range binary32), Qabs_nonneg.
  - apply (round_magnitude_rounds binary32), Qabs_nonneg.
  - unfold to_f16. rewrite (round_narrow_rounds _ _ BINARY16_describes). simpl.
    rewrite to_unsigned_small; [done|].
    apply (with_sign_range binary16), (round_magnitude_range binary16), Qabs_nonneg.
  - apply (round_magnitude_rounds binary16), Qabs_nonneg.
Qed.

(** A finite double is a literal of its value and converts back to itself, a
    negative zero too. *)
Lemma literal_f64_roundtrip bits negative c :
  0 <= bits → decode binary64 bits = Finite negative c →
  ∃ x, literal_from_f64 bits = Some x ∧
    (fval (B:=B) x == signed negative (code_value binary64 c))%Q ∧
    literal_to_f64 (B:=B) x = Some bits.
Proof.
  intros Hbits Hd. destruct (decode_finite binary64 bits negative c Hbits Hd) as [-> Hc].
  unfold literal_from_f64. rewrite Hd. destruct (rat_from_float_exact _ _ _ Hd) as (r & -> & Hr).
  simpl. eexists. split; [done|]. split; [exact Hr|].
  unfold literal_to_f64, float_is_zero. cbn [value negative_zero]. rewrite rat_is_zero_val.
  destruct (Z.eqb_spec c 0) as [->|Hne].
  - assert (Qeq_bool (rat_val r) 0 = true) as ->.
    { apply Qeq_bool_iff. rewrite Hr. by destruct negative. }
    destruct negative; simpl; [done|]. by apply (rat_to_f64_exact r false 0).
  - rewrite andb_false_r. apply rat_to_f64_exact; [done|done|exact Hr].
Qed.
End correct.

(** ** An implementation of the crates *)

#[export] Instance Qc_floats : RationalFloats Qc := {|
  rat_sub (r s : Qc) := Q2Qc (r - s);
  rat_to_f64 (r : Qc) := Some (encode binary64 (of_rational binary64 false r));
  rat_from_float bits := Q2Qc <$> float_value binary64 (decode binary64 bits);
|}.

#[export] Instance half_conversions : Half := {|
  f16_from_f64 bits := encode binary16 (convert binary64 binary16 (decode binary64 bits));
  f16_to_f64 bits := encode binary64 (convert binary16 binary64 (decode binary16 bits));
|}.

#[export] Instance Qc_floats_laws : RationalFloatsLaws Z Qc.
Proof.
  assert (∀ r : Qc, (0 < rat_val r)%Q →
    rat_to_f64 r = Some (round_magnitude binary64 (rat_val r))) as Hpos.
  { intros r Hr. simpl. unfold of_rational. simpl in Hr.
    destruct (Qcompare_spec r 0) as [E|E|E]; [lra|lra|].
    by rewrite (of_magnitude_code binary64). }
  split.
  - intros r s. simpl. by rewrite Qred_correct.
  - intros r negative c Hc Hneg Hr. simpl. unfold of_rational.
    pose proof (code_value_nonneg binary64 c ltac:(lia)) as Hnn.
    assert (c = 0 ∨ (0 < code_value binary64 c)%Q) as Hc0.
    { destruct (Z.eq_dec c 0) as [|Hne]; [by left|right].
      apply Qnot_le_lt. intros Hle. apply Hne.
      apply (code_value_inj binary64); [lia|lia|].
      assert (code_value binary64 0 == 0)%Q by (by vm_compute). lra. }
    simpl in Hr. destruct (Qcompare_spec r 0) as [E|E|E].
    + destruct Hc0 as [->|Hc0]; [|destruct negative; simpl in Hr; lra].
      destruct negative; [by destruct Hneg|done].
    + destruct negative; simpl in Hr; [|lra].
      rewrite (of_magnitude_code binary64), (round_magnitude_exact binary64 _ c); [done|done|lra].
    + destruct negative; simpl in Hr; [lra|].
      rewrite (of_magnitude_code binary64), (round_magnitude_exact binary64 _ c); [done|done|lra].
  - intros r Hr. eexists. split; [by apply Hpos|].
    split; [apply (round_magnitude_range binary64); lra|].
    intros m Hm. destruct (floor_bounds binary64 (rat_val r) m) as [Hlo Hhi]; [lra|done|].
    by split.
  - intros bits negative c Hd. simpl. rewrite Hd. simpl. eexists. split; [done|].
    apply Qred_correct.
Qed.

#[export] Instance half_laws : HalfLaws.
Proof.
  split; try (by intros bits negative c Hd; simpl; rewrite Hd); intros bits Hs; simpl.
  - destruct (decode binary64 bits) as [|s|s c]; [by vm_compute|by destruct s; vm_compute|by destruct (Hs s c)].
  - destruct (decode binary16 bits) as [|s|s c]; [by vm_compute|by destruct s; vm_compute|by destruct (Hs s c)].
Qed.

(** A tenth, and a value halfway between two half-precision ones. *)
Example tenth_f32 : to_f32 (B:=Z) (decimal_literal "0.1") = Ok 0x3dcccccd.
Proof. by vm_compute. Qed.
Example half_way_f16 : to_f16 (B:=Z) (decimal_literal "1.00048828125") = Ok 0x3c00.
Proof. by vm_compute. Qed.

Lemma literal_rounding_witness :
  (∃ code, to_f32 (B:=Z) (decimal_literal "0.1") =
       Ok (with_sign binary32 (sign_negative (B:=Z) (decimal_literal "0.1")) code) ∧
     rounds_to binary32 (Qabs (fval (B:=Z) (decimal_literal "0.1"))) code) ∧
  (∃ code, to_f16 (B:=Z) (decimal_literal "0.1") =
       Ok (with_sign binary16 (sign_negative (B:=Z) (decimal_literal "0.1")) code) ∧
     rounds_to binary16 (Qabs (fval (B:=Z) (decimal_literal "0.1"))) code).
Proof. apply (literal_rounding (B:=Z) (decimal_literal "0.1")). Defined.
