(* ===== verification/FloatOps.v ===== *)
(** * FloatOps: the operations of binary floats

    The operators and methods of [f64] and [f32] the sources use, over the
    formats of [Ieee]: each gives the exact result rounded once, with the signs
    of zeros and the special cases IEEE 754 gives it.  An [f64] is its bits;
    the operations on it are those of [binary64] between decoding and
    encoding. *)

From S2P Require Import Prelude Ieee.
From Stdlib Require Import QArith Qabs Qround.
Local Open Scope Z_scope.

(** ** Over a format *)

Section format.
Context (f : format).

Definition negative (x : float) : bool :=
  match x with
  | NaN => false
  | Infinite s => s
  | Finite s _ => s
  end.

(** [-x]. *)
Definition neg (x : float) : float :=
  match x with
  | NaN => NaN
  | Infinite s => Infinite (negb s)
  | Finite s c => Finite (negb s) c
  end.

(** [x.abs()]. *)
Definition abs (x : float) : float :=
  match x with
  | NaN => NaN
  | Infinite _ => Infinite false
  | Finite _ c => Finite false c
  end.

Definition finite_value (s : bool) (c : Z) : Q := signed s (code_value f c).

(** [x + y]; an exact zero is negative when both operands are. *)
Definition add (x y : float) : float :=
  match x, y with
  | NaN, _ | _, NaN => NaN
  | Infinite s, Infinite t => if Bool.eqb s t then Infinite s else NaN
  | Infinite s, _ => Infinite s
  | _, Infinite t => Infinite t
  | Finite s a, Finite t b => of_rational f (s && t) (finite_value s a + finite_value t b)
  end.

Definition sub (x y : float) : float := add x (neg y).

(** [x * y]. *)
Definition mul (x y : float) : float :=
  match x, y with
  | NaN, _ | _, NaN => NaN
  | Infinite s, Infinite t => Infinite (xorb s t)
  | Infinite s, Finite t c | Finite t c, Infinite s =>
      if c =? 0 then NaN else Infinite (xorb s t)
  | Finite s a, Finite t b => of_magnitude f (xorb s t) (code_value f a * code_value f b)
  end.

(** [x / y]. *)
Definition div (x y : float) : float :=
  match x, y with
  | NaN, _ | _, NaN => NaN
  | Infinite _, Infinite _ => NaN
  | Infinite s, Finite t _ => Infinite (xorb s t)
  | Finite s _, Infinite t => Finite (xorb s t) 0
  | Finite s a, Finite t b =>
      if b =? 0 then (if a =? 0 then NaN else Infinite (xorb s t))
      else of_magnitude f (xorb s t) (code_value f a / code_value f b)
  end.

(** [x.mul_add(y, z)]: the product and the sum rounded once. *)
Definition mul_add (x y z : float) : float :=
  match x, y, z with
  | NaN, _, _ | _, NaN, _ | _, _, NaN => NaN
  | Finite s a, Finite t b, Finite u c =>
      of_rational f (xorb s t && u)
        (signed (xorb s t) (code_value f a * code_value f b) + finite_value u c)
  | Finite _ _, Finite _ _, Infinite u => Infinite u
  | _, _, _ => add (mul x y) z
  end.

(** The methods that give a whole number keep the sign of their receiver when
    the number is zero. *)
Definition rounded (whole : Q → Z) (x : float) : float :=
  match x with
  | Finite s c => of_rational f s (inject_Z (whole (finite_value s c)))
  | x => x
  end.

(** The nearest integer, the even one of two. *)
Definition nearest_even (q : Q) : Z :=
  let n := Qfloor q in
  match (2 * q ?= inject_Z (2 * n + 1))%Q with
  | Lt => n
  | Gt => n + 1
  | Eq => if Z.even n then n else n + 1
  end.

Definition toward_zero (q : Q) : Z := if Qle_bool 0 q then Qfloor q else Qceiling q.

(** [x.floor()], [x.ceil()], [x.trunc()], [x.round_ties_even()]. *)
Definition floor : float → float := rounded Qfloor.
Definition ceil : float → float := rounded Qceiling.
Definition trunc : float → float := rounded toward_zero.
Definition round_ties_even : float → float := rounded nearest_even.

(** [x % y], the remainder of truncated division, exact. *)
Definition rem (x y : float) : float :=
  match x, y with
  | NaN, _ | _, NaN => NaN
  | Infinite _, _ => NaN
  | Finite s a, Infinite _ => Finite s a
  | Finite s a, Finite _ b =>
      if b =? 0 then NaN
      else
        let p := code_value f a in let q := code_value f b in
        of_magnitude f s (p - inject_Z (Qfloor (p / q)) * q)
  end.

(** [x.partial_cmp(&y)]. *)
Definition partial_cmp (x y : float) : option comparison :=
  match x, y with
  | NaN, _ | _, NaN => None
  | Infinite s, Infinite t => Some (if Bool.eqb s t then Eq else if s then Lt else Gt)
  | Infinite s, _ => Some (if s then Lt else Gt)
  | _, Infinite t => Some (if t then Gt else Lt)
  | Finite s a, Finite t b => Some (finite_value s a ?= finite_value t b)%Q
  end.

Definition is_nan (x : float) : bool := match x with NaN => true | _ => false end.
Definition is_finite (x : float) : bool := match x with Finite _ _ => true | _ => false end.
End format.

(** ** On the bits of an [f64] *)

Definition f64_unary (op : float → float) (x : Z) : Z := encode binary64 (op (decode binary64 x)).
Definition f64_binary (op : float → float → float) (x y : Z) : Z :=
  encode binary64 (op (decode binary64 x) (decode binary64 y)).

Definition f64_add : Z → Z → Z := f64_binary (add binary64).
Definition f64_sub : Z → Z → Z := f64_binary (sub binary64).
Definition f64_mul : Z → Z → Z := f64_binary (mul binary64).
Definition f64_div : Z → Z → Z := f64_binary (div binary64).
Definition f64_rem : Z → Z → Z := f64_binary (rem binary64).
Definition f64_mul_add (x y z : Z) : Z :=
  encode binary64 (mul_add binary64 (decode binary64 x) (decode binary64 y) (decode binary64 z)).
Definition f64_floor : Z → Z := f64_unary (floor binary64).
Definition f64_ceil : Z → Z := f64_unary (ceil binary64).
Definition f64_trunc : Z → Z := f64_unary (trunc binary64).
Definition f64_round_ties_even : Z → Z := f64_unary (round_ties_even binary64).
Definition f64_partial_cmp (x y : Z) : option comparison :=
  partial_cmp binary64 (decode binary64 x) (decode binary64 y).
Definition f64_is_nan (x : Z) : bool := is_nan (decode binary64 x).
Definition f64_is_finite (x : Z) : bool := is_finite (decode binary64 x).

(** [-x] and [x.abs()] change the sign bit alone, a NaN's too. *)
Definition f64_neg (x : Z) : Z := Z.lxor x (2 ^ 63).
Definition f64_abs (x : Z) : Z := Z.ldiff x (2 ^ 63).

(** [n as f64], and [x as iN] or [x as uN] into the range [[lo, hi]]. *)
Definition f64_of_integer (n : Z) : Z := encode binary64 (of_integer binary64 n).
Definition f64_to_integer (lo hi : Z) (x : Z) : Z := to_integer binary64 lo hi (decode binary64 x).

(** [2f64.powi(n)] for the exponents the sources use, whose power is a
    double. *)
Definition f64_powi2 (n : Z) : Z := f64_of_integer (2 ^ n).
