(* ===== verification/DoubleRounding.v ===== *)
(** * DoubleRounding: narrow arithmetic computed at double precision

    A lane of a narrow float is computed as a double and rounded to the lane.
    The result is rounded twice; for sums, products and quotients of narrow
    values it is still the exact result rounded once, because a double has more
    than twice the digits of the lane: a result the first rounding moves is too
    far from every midpoint of the narrow format for the second to notice. *)

From S2P Require Import Prelude Ieee FloatOps.
From Stdlib Require Import QArith Qabs Qround Qpower Lqa.
Local Open Scope Z_scope.

(** ** Rounding and midpoints *)

Definition midpoint (f : format) (c : Z) : Q :=
  ((1 # 2) * (code_value f c + code_value f (c + 1)))%Q.

(** Rounding goes past [c] beyond the midpoint above it, and on it when [c] is
    odd. *)
Lemma nearest_code_gt p s c :
  0 <= p → (0 <= s)%Q → 0 <= c →
  c < nearest_code p s ↔
  (inject_Z (units p c + units p (c + 1)) < 2 * s)%Q ∨
  (2 * s == inject_Z (units p c + units p (c + 1)))%Q ∧ Z.even c = false.
Proof.
  intros Hp Hs Hc. unfold nearest_code.
  pose proof (floor_brackets p s Hp Hs) as (H0 & Hlo & Hhi).
  set (n := floor_code p (Qfloor s)) in *.
  set (r := match _ with Eq => _ | _ => _ end).
  assert (r = n ∨ r = n + 1) as Hr by (subst r; repeat case_match; auto).
  rewrite inject_Z_plus in *. pose proof (inject_lt _ _ (units_step p c Hp Hc)) as Hstep.
  destruct (Z.lt_total n c) as [Hn|[Hn|Hn]].
  - pose proof (inject_le _ _ (units_le p (n + 1) c Hp ltac:(lia))).
    split; [lia|]. intros [?|[??]]; exfalso; lra.
  - subst r. rewrite Hn.
    destruct (Qcompare_spec (2 * s) (inject_Z (units p c + units p (c + 1)))) as [He|Hl|Hl];
      rewrite inject_Z_plus in *.
    + destruct (Z.even c); (split; [intros Hr'|intros [Hl|[_ Hc']]]); try lia; [lra|by right].
    + split; [lia|]. intros [?|[??]]; lra.
    + split; [by left|lia].
  - pose proof (inject_le _ _ (units_le p (c + 1) n Hp ltac:(lia))).
    split; [left; lra|lia].
Qed.

Section one.
Context (f : format) `{!Wf f}.
#[local] Set Default Proof Using "Type*".

Lemma midpoint_units c :
  (midpoint f c == inject_Z (units (mant f) c + units (mant f) (c + 1)) * pow2Q (unit_exp f - 1))%Q.
Proof.
  unfold midpoint, code_value. rewrite inject_Z_plus.
  replace (unit_exp f - 1) with (-1 + unit_exp f) by lia. rewrite pow2Q_add.
  change (pow2Q (-1)) with (1 # 2)%Q. ring.
Qed.

Lemma midpoint_in_units c q :
  ((inject_Z (units (mant f) c + units (mant f) (c + 1)) < 2 * in_units f q)%Q ↔ (midpoint f c < q)%Q) ∧
  ((2 * in_units f q == inject_Z (units (mant f) c + units (mant f) (c + 1)))%Q ↔ (q == midpoint f c)%Q).
Proof.
  pose proof (pow2Q_pos (unit_exp f)) as Hu. pose proof (pow2Q_opp (unit_exp f)) as Ho.
  set (s := inject_Z _).
  assert (midpoint f c == (1 # 2) * s * pow2Q (unit_exp f))%Q as Hm.
  { unfold s, midpoint, code_value. rewrite inject_Z_plus. ring. }
  assert (q == in_units f q * pow2Q (unit_exp f))%Q as Hq.
  { unfold in_units. rewrite <- Qmult_assoc, (Qmult_comm (pow2Q (- _))), Ho. ring. }
  rewrite Hm. split; split; intros H'.
  - rewrite Hq. apply Qmult_lt_r; [done|lra].
  - rewrite Hq in H'. apply Qmult_lt_r in H'; [lra|done].
  - rewrite Hq. apply Qmult_comp; [lra|done].
  - rewrite Hq in H'. apply Qmult_inj_r in H'; [lra|lra].
Qed.

Lemma round_magnitude_gt c q :
  (0 <= q)%Q → 0 <= c < inf_code f →
  c < round_magnitude f q ↔ (midpoint f c < q)%Q ∨ (q == midpoint f c)%Q ∧ Z.even c = false.
Proof.
  intros Hq Hc. unfold round_magnitude. fold (in_units f q).
  pose proof (mant_nonneg f). pose proof (in_units_nonneg f q Hq).
  rewrite Z.min_glb_lt_iff, nearest_code_gt by (done || lia).
  destruct (midpoint_in_units c q) as [-> ->]. intuition lia.
Qed.

Lemma midpoint_pos c : 0 <= c → (0 < midpoint f c)%Q.
Proof.
  intros Hc. rewrite midpoint_units. pose proof (pow2Q_pos (unit_exp f - 1)).
  apply Qmult_lt_0_compat; [|done]. pose proof (mant_nonneg f).
  apply (inject_lt 0). pose proof (units_step (mant f) c ltac:(done) Hc).
  pose proof (units_nonneg (mant f) c ltac:(done) Hc). lia.
Qed.

(** The step above an encoding, against its size. *)
Lemma units_gap p c :
  0 <= p → 0 <= c →
  ∃ k, 0 <= k ∧ units p (c + 1) = units p c + 2 ^ k ∧
    (2 ^ k | units p c) ∧ units p c < 2 ^ (p + 1) * 2 ^ k ∧ (k ≠ 0 → 2 ^ p * 2 ^ k <= units p c).
Proof.
  intros Hp Hc. pose proof (pow2_pos p Hp). rewrite Z.pow_add_r by lia. change (2 ^ 1) with 2.
  destruct (code_split p c Hp Hc) as [Hs|(e & m & -> & He & Hm)].
  - exists 0. rewrite (units_small p c) by lia. change (2 ^ 0) with 1.
    split_and!; [lia| |apply Z.divide_1_l|lia|lia].
    destruct (Z.eq_dec (c + 1) (2 ^ p)) as [Heq|Hne]; [|rewrite units_small by lia; lia].
    replace (c + 1) with (1 * 2 ^ p + 0) by lia. rewrite units_normal by lia.
    change (2 ^ (1 - 1)) with 1. lia.
  - exists (e - 1). rewrite (units_normal p e m) by lia.
    pose proof (pow2_pos (e - 1) ltac:(lia)). split_and!; [lia| |by exists (2 ^ p + m)|nia|nia].
    destruct (Z.eq_dec (m + 1) (2 ^ p)) as [Heq|Hne].
    + replace (e * 2 ^ p + m + 1) with ((e + 1) * 2 ^ p + 0) by lia.
      rewrite units_normal by lia. replace (e + 1 - 1) with (Z.succ (e - 1)) by lia.
      rewrite Z.pow_succ_r by lia. nia.
    + replace (e * 2 ^ p + m + 1) with (e * 2 ^ p + (m + 1)) by lia.
      rewrite units_normal by lia. nia.
Qed.
End one.

(** ** A format with room to compute another's operations in *)

Class Doubles (f g : format) : Prop := {
  doubles_mant : 2 * mant f + 4 <= mant g;
  doubles_unit : unit_exp g <= 2 * unit_exp f;
  doubles_near : unit_exp g + mant g + 1 <= unit_exp f;
  doubles_sum : 2 * units (mant f) (inf_code f) * 2 ^ (unit_exp f - unit_exp g) < units (mant g) (inf_code g);
  doubles_product :
    units (mant f) (inf_code f) * units (mant f) (inf_code f) * 2 ^ (2 * unit_exp f - unit_exp g)
      < units (mant g) (inf_code g);
  doubles_whole : unit_exp g <= 0 ∧ 2 ^ (mant f + 1) * 2 ^ (- unit_exp g) < units (mant g) (inf_code g);
}.

#[export] Instance binary32_doubles : Doubles binary32 binary64.
Proof. by split; vm_compute. Qed.
#[export] Instance binary16_doubles : Doubles binary16 binary64.
Proof. by split; vm_compute. Qed.

Lemma inject_pow e m k :
  0 <= k → (inject_Z (m * 2 ^ k) * pow2Q e == inject_Z m * pow2Q (k + e))%Q.
Proof. intros Hk. rewrite inject_Z_mult, <- pow2Q_inject, pow2Q_add by done. ring. Qed.

Lemma pow2Q_lt a b : a < b → (pow2Q a < pow2Q b)%Q.
Proof. intros Hlt. by apply (Qpower_lt_compat_l 2 a b). Qed.

Lemma pow2Q_le a b : a <= b → (pow2Q a <= pow2Q b)%Q.
Proof. intros [Hlt | ->]%Z.le_lteq; [by apply Qlt_le_weak, pow2Q_lt|apply Qle_refl]. Qed.

Section two.
Context (f g : format) `{!Wf f, !Wf g, !Doubles f g}.
#[local] Set Default Proof Using "Type*".

Lemma unit_below : unit_exp g < unit_exp f.
Proof. pose proof (doubles_near (f:=f) (g:=g)). pose proof (mant_nonneg g). lia. Qed.

Lemma exact_code m k :
  0 <= m <= 2 ^ (mant g + 1) → unit_exp g <= k →
  m * 2 ^ (k - unit_exp g) < units (mant g) (inf_code g) →
  ∃ c, 0 <= c < inf_code g ∧ (code_value g c == inject_Z m * pow2Q k)%Q.
Proof.
  intros Hm Hk Htop. pose proof (mant_nonneg g) as Hg. set (z := m * 2 ^ (k - unit_exp g)) in *.
  pose proof (pow2_pos (k - unit_exp g) ltac:(lia)).
  assert (units (mant g) (floor_code (mant g) z) = z) as Hz.
  { apply floor_code_exact; [done|nia|]. exists m, (k - unit_exp g). split_and!; lia. }
  pose proof (floor_code_spec (mant g) z Hg ltac:(nia)) as [Hpos _].
  exists (floor_code (mant g) z). split; [split; [done|]|].
  - apply (units_lt_inv (mant g)); [done|done|pose proof (inf_code_pos g); lia|]. by rewrite Hz.
  - unfold code_value. rewrite Hz. subst z. rewrite inject_pow by lia.
    by replace (k - unit_exp g + unit_exp g) with k by lia.
Qed.

(** A midpoint is an odd multiple of half the step above. *)
Lemma midpoint_parts c :
  0 <= c →
  ∃ t k, 0 <= t < 2 ^ (mant f + 2) ∧ 0 <= k ∧ units (mant f) c + units (mant f) (c + 1) = t * 2 ^ k ∧
    units (mant f) (c + 1) = units (mant f) c + 2 ^ k ∧
    (midpoint f c == inject_Z t * pow2Q (k + (unit_exp f - 1)))%Q.
Proof.
  intros Hc. pose proof (mant_nonneg f) as Hf.
  destruct (units_gap (mant f) c Hf Hc) as (k & Hk & Hs & [t Ht] & Hlt & _).
  pose proof (pow2_pos k Hk). pose proof (units_nonneg (mant f) c Hf Hc).
  exists (2 * t + 1), k. split_and!; [nia| |done|lia|done|].
  - replace (mant f + 2) with (mant f + 1 + 1) by lia. rewrite (Z.pow_add_r 2 (mant f + 1) 1) by lia.
    change (2 ^ 1) with 2. rewrite Ht in Hlt. assert (t < 2 ^ (mant f + 1)) by nia. lia.
  - rewrite (midpoint_units f), Hs, Ht. replace (t * 2 ^ k + (t * 2 ^ k + 2 ^ k)) with ((2 * t + 1) * 2 ^ k) by lia.
    by apply inject_pow.
Qed.

Lemma midpoint_code c :
  0 <= c < inf_code f → ∃ k, 0 <= k < inf_code g ∧ (code_value g k == midpoint f c)%Q.
Proof.
  intros Hc. destruct (midpoint_parts c) as (t & k & Ht & Hk & Hsum & Hstep & Hm); [lia|].
  pose proof unit_below. pose proof (doubles_mant (f:=f) (g:=g)). pose proof (mant_nonneg f) as Hf.
  destruct (exact_code t (k + (unit_exp f - 1))) as (n & Hn & Hv); [|lia| |exists n; by rewrite Hv, Hm].
  - assert (2 ^ (mant f + 2) <= 2 ^ (mant g + 1)) by (apply Z.pow_le_mono_r; lia). lia.
  - replace (k + (unit_exp f - 1) - unit_exp g) with (k + (unit_exp f - unit_exp g - 1)) by lia.
    rewrite Z.pow_add_r, Z.mul_assoc, <- Hsum by lia.
    eapply Z.le_lt_trans; [|apply (doubles_sum (f:=f) (g:=g))].
    pose proof (units_le (mant f) c (inf_code f) Hf ltac:(lia)).
    pose proof (units_le (mant f) (c + 1) (inf_code f) Hf ltac:(lia)).
    pose proof (units_nonneg (mant f) c Hf ltac:(lia)).
    apply Z.mul_le_mono_nonneg; [lia|lia|apply Z.pow_nonneg; lia|apply Z.pow_le_mono_r; lia].
Qed.

(** Rounding twice is rounding once when the first rounding reaches no
    midpoint of the narrow format from elsewhere. *)
Lemma double_round q :
  (0 <= q)%Q →
  (∀ c, 0 <= c < inf_code f → round_magnitude g q < inf_code g →
     (code_value g (round_magnitude g q) == midpoint f c)%Q → (q == midpoint f c)%Q) →
  (round_magnitude g q < inf_code g → round_magnitude f (code_value g (round_magnitude g q)) = round_magnitude f q) ∧
  (round_magnitude g q = inf_code g → round_magnitude f q = inf_code f).
Proof.
  intros Hq Hmid. pose proof (inf_code_pos f) as Hf. pose proof (inf_code_pos g).
  pose proof (round_magnitude_range g q Hq) as Hr. set (r := round_magnitude g q) in *.
  pose proof (code_value_nonneg g r ltac:(lia)) as Hv.
  assert (∀ c, 0 <= c < inf_code f → r < inf_code g →
    c < round_magnitude f (code_value g r) ↔ c < round_magnitude f q) as Hiff.
  { intros c Hc Hlt. rewrite !round_magnitude_gt by done.
    destruct (midpoint_code c Hc) as (k & Hk & Hkm). destruct (floor_bounds g q k Hq Hk) as [Hup Hdown].
    rewrite Hkm in Hup, Hdown. fold r in Hup, Hdown. specialize (Hmid c Hc Hlt).
    assert ((midpoint f c <= q)%Q → (midpoint f c <= code_value g r)%Q) as Hup'.
    { intros H'. rewrite <- Hkm. apply (code_value_le g); [lia..|]. by apply Hup. }
    assert ((q <= midpoint f c)%Q → (code_value g r <= midpoint f c)%Q) as Hdown'.
    { intros H'. rewrite <- Hkm. apply (code_value_le g); [lia..|]. by apply Hdown. }
    destruct (Q_dec q (midpoint f c)) as [[Hlt'|Hgt]|Heq].
    - assert (code_value g r < midpoint f c)%Q.
      { destruct (Qle_lt_or_eq _ _ (Hdown' ltac:(lra))) as [?|He]; [done|]. apply Hmid in He. lra. }
      split; intros [?|[??]]; lra.
    - assert (midpoint f c < code_value g r)%Q.
      { destruct (Qle_lt_or_eq _ _ (Hup' ltac:(lra))) as [?|He]; [done|]. symmetry in He. apply Hmid in He. lra. }
      split; intros [?|[??]]; lra.
    - assert (code_value g r == midpoint f c)%Q by (apply Qle_antisym; [apply Hdown'|apply Hup']; lra).
      split; (intros [?|[_ ?]]; [lra|right]); (split; [lra|done]). }
  pose proof (round_magnitude_range f (code_value g r) Hv).
  pose proof (round_magnitude_range f q Hq). split; intros Hlt.
  - apply Z.le_antisymm; apply Z.nlt_ge; intros Hc.
    + apply Hiff in Hc; lia.
    + apply (Hiff (round_magnitude f (code_value g r))) in Hc; lia.
  - destruct (midpoint_code (inf_code f - 1)) as (k & Hk & Hkm); [lia|].
    destruct (floor_bounds g q k Hq Hk) as [_ Hdown]. fold r in Hdown.
    enough (inf_code f - 1 < round_magnitude f q) by lia.
    apply (round_magnitude_gt f); [done|lia|]. left.
    rewrite <- Hkm. apply Qnot_le_lt. intros Hle%Hdown. lia.
Qed.

(** What rounds to a midpoint is close to it. *)
Lemma near_midpoint q c :
  (0 <= q)%Q → 0 <= c → round_magnitude g q < inf_code g →
  (code_value g (round_magnitude g q) == midpoint f c)%Q →
  (Qabs (q - midpoint f c) <= midpoint f c * pow2Q (- mant g))%Q.
Proof.
  intros Hq Hc Hr Hm. pose proof (mant_nonneg g) as Hg. pose proof (midpoint_pos f c Hc) as Hpos.
  pose proof (round_magnitude_range g q Hq) as [Hr0 _]. set (r := round_magnitude g q) in *.
  assert (0 < r) as Hr1.
  { destruct (Z.eq_dec r 0) as [Hz|]; [|lia]. rewrite Hz in Hm. unfold code_value in Hm.
    rewrite units_small in Hm by (pose proof (pow2_pos (mant g) Hg); lia).
    change (inject_Z 0) with 0%Q in Hm. lra. }
  assert (∀ n, 0 <= n <= r →
    (code_value g (n + 1) - code_value g n <= midpoint f c * pow2Q (- mant g) + pow2Q (unit_exp g))%Q) as Hgap.
  { intros n Hn. destruct (units_gap (mant g) n Hg ltac:(lia)) as (k & Hk & Hs & _ & _ & Hbig).
    assert (2 ^ k * 2 ^ mant g <= units (mant g) r + 2 ^ mant g) as Hle.
    { pose proof (units_le (mant g) n r Hg ltac:(lia)). pose proof (units_nonneg (mant g) n Hg ltac:(lia)).
      destruct (Z.eq_dec k 0) as [->|Hk0]; [change (2 ^ 0) with 1; lia|]. specialize (Hbig Hk0).
      pose proof (pow2_pos (mant g) Hg). lia. }
    rewrite <- Hm. unfold code_value. rewrite Hs, inject_Z_plus.
    apply inject_le in Hle. rewrite inject_Z_plus, inject_Z_mult, <- !pow2Q_inject in * by done.
    apply scale_le in Hle. pose proof (pow2Q_opp (mant g)) as Ho. pose proof (pow2Q_pos (unit_exp g)).
    apply (Qmult_le_compat_r _ _ (pow2Q (unit_exp g))) in Hle; [|lra].
    rewrite Qmult_plus_distr_l, Ho in Hle. lra. }
  assert (pow2Q (unit_exp g) <= midpoint f c * pow2Q (- mant g))%Q as Hunit.
  { destruct (midpoint_parts c Hc) as (t & k & Ht & Hk & _ & _ & Hv). rewrite Hv in *.
    assert (1 <= t) as Ht1 by (destruct (Z.eq_dec t 0) as [->|]; [change (inject_Z 0) with 0%Q in *; lra|lia]).
    pose proof (doubles_near (f:=f) (g:=g)). rewrite <- Qmult_assoc, <- pow2Q_add.
    apply Qle_trans with (1 * pow2Q (k + (unit_exp f - 1) + - mant g))%Q.
    - rewrite Qmult_1_l. apply pow2Q_le. lia.
    - apply Qmult_le_compat_r; [by apply (inject_le 1)|apply Qlt_le_weak, pow2Q_pos]. }
  pose proof (Hgap r ltac:(lia)) as Hup. pose proof (Hgap (r - 1) ltac:(lia)) as Hdown.
  replace (r - 1 + 1) with r in Hdown by lia. rewrite Hm in Hup, Hdown.
  assert (¬ r < round_magnitude g q) as Hhi by lia. rewrite (round_magnitude_gt g) in Hhi by (done || lia).
  assert (r - 1 < round_magnitude g q) as Hlo by lia. rewrite (round_magnitude_gt g) in Hlo by (done || lia).
  assert (q <= midpoint g r)%Q as Hhi' by (apply Qnot_lt_le; naive_solver).
  assert (midpoint g (r - 1) <= q)%Q as Hlo' by (destruct Hlo as [?|[? _]]; lra).
  unfold midpoint at 1 in Hhi'. unfold midpoint at 1 in Hlo'. replace (r - 1 + 1) with r in Hlo' by lia.
  rewrite Hm in Hhi', Hlo'. apply Qabs_Qle_condition. split; lra.
Qed.

(** A narrow value is not. *)
Lemma midpoint_grid a c :
  0 <= a → 0 <= c →
  (midpoint f c * pow2Q (- (mant f + 2)) <= Qabs (code_value f a - midpoint f c))%Q.
Proof.
  intros Ha Hc. pose proof (mant_nonneg f) as Hf.
  destruct (midpoint_parts c Hc) as (t & k & Ht & Hk & Hsum & Hstep & Hm).
  set (h := pow2Q (k + (unit_exp f - 1))) in *. pose proof (pow2Q_pos (k + (unit_exp f - 1))) as Hh. fold h in Hh.
  assert (code_value f (c + 1) == code_value f c + 2 * h)%Q as Hcv.
  { unfold code_value, h. rewrite Hstep, inject_Z_plus, <- pow2Q_inject by done.
    replace (k + (unit_exp f - 1)) with (-1 + (k + unit_exp f)) by lia. rewrite !pow2Q_add.
    change (pow2Q (-1)) with (1 # 2)%Q. ring. }
  apply Qle_trans with h.
  - rewrite Hm. assert (inject_Z t <= pow2Q (mant f + 2))%Q as Hle.
    { rewrite pow2Q_inject by lia. apply inject_le. lia. }
    rewrite <- (Qmult_1_l (pow2Q _)) in Hle. apply scale_ge in Hle.
    apply (Qmult_le_compat_r _ _ h) in Hle; lra.
  - assert (midpoint f c == code_value f c + h)%Q as Hmid by (unfold midpoint; rewrite Hcv; ring).
    rewrite Hmid. destruct (Z.le_gt_cases a c) as [Hle|Hgt].
    + apply (code_value_le f) in Hle; [|lia..]. rewrite Qabs_neg by lra. lra.
    + assert (c + 1 <= a) as Hle by lia. apply (code_value_le f) in Hle; [|lia..]. rewrite Qabs_pos by lra. lra.
Qed.

(** [q] is a midpoint of the narrow format if its rounding is. *)
Definition settled (q : Q) : Prop :=
  ∀ c, 0 <= c < inf_code f → round_magnitude g q < inf_code g →
    (code_value g (round_magnitude g q) == midpoint f c)%Q → (q == midpoint f c)%Q.

Lemma settled_exact q k : 0 <= k < inf_code g → (q == code_value g k)%Q → settled q.
Proof.
  intros Hk Hq c Hc Hr Hm. by rewrite (round_magnitude_exact g q k), <- Hq in Hm by done.
Qed.

Lemma settled_product a b :
  0 <= a < inf_code f → 0 <= b < inf_code f → settled (code_value f a * code_value f b).
Proof.
  intros Ha Hb. pose proof (mant_nonneg f) as Hf.
  pose proof (doubles_mant (f:=f) (g:=g)). pose proof (doubles_unit (f:=f) (g:=g)).
  pose proof (units_nonneg (mant f) a Hf ltac:(lia)). pose proof (units_nonneg (mant f) b Hf ltac:(lia)).
  destruct (units_parts (mant f) a Hf ltac:(lia)) as (m & i & Hm & Hi & Hx).
  destruct (units_parts (mant f) b Hf ltac:(lia)) as (n & j & Hn & Hj & Hy).
  destruct (exact_code (m * n) (i + j + 2 * unit_exp f)) as (k & Hk & Hv).
  - assert (2 ^ (mant g + 1) = 2 ^ (mant f + 1) * 2 ^ (mant f + 1) * 2 ^ (mant g - 2 * mant f - 1)) as ->.
    { rewrite <- !Z.pow_add_r by lia. f_equal. lia. }
    pose proof (pow2_pos (mant f + 1) ltac:(lia)). pose proof (pow2_pos (mant g - 2 * mant f - 1) ltac:(lia)). nia.
  - lia.
  - replace (i + j + 2 * unit_exp f - unit_exp g) with (i + j + (2 * unit_exp f - unit_exp g)) by lia.
    rewrite !(Z.pow_add_r 2) by lia.
    eapply Z.le_lt_trans; [|apply (doubles_product (f:=f) (g:=g))].
    pose proof (pow2_pos (2 * unit_exp f - unit_exp g) ltac:(lia)).
    pose proof (units_le (mant f) a (inf_code f) Hf ltac:(lia)).
    pose proof (units_le (mant f) b (inf_code f) Hf ltac:(lia)).
    replace (m * n * (2 ^ i * 2 ^ j * 2 ^ (2 * unit_exp f - unit_exp g)))
      with (units (mant f) a * units (mant f) b * 2 ^ (2 * unit_exp f - unit_exp g)) by (rewrite Hx, Hy; ring).
    apply Z.mul_le_mono_nonneg_r; [lia|]. by apply Z.mul_le_mono_nonneg.
  - apply (settled_exact _ k); [done|]. rewrite Hv. unfold code_value. rewrite Hx, Hy, !inject_Z_mult.
    rewrite <- !pow2Q_inject, !pow2Q_add by done.
    replace (2 * unit_exp f) with (unit_exp f + unit_exp f) by lia. rewrite pow2Q_add. ring.
Qed.

(** A sum or a difference of two magnitudes, the one with the smaller step
    first. *)
Lemma settled_sum_ordered a b z m n i j :
  0 <= a < inf_code f → 0 <= b < inf_code f →
  0 <= m <= 2 ^ (mant f + 1) → 0 <= n → 0 <= i <= j →
  units (mant f) a = m * 2 ^ i → units (mant f) b = n * 2 ^ j → 0 <= z →
  z = units (mant f) a + units (mant f) b ∨ units (mant f) a = z + units (mant f) b
    ∨ units (mant f) b = z + units (mant f) a →
  settled (inject_Z z * pow2Q (unit_exp f)).
Proof.
  intros Ha Hb Hm Hn Hij Hx Hy Hz Hsum.
  pose proof (mant_nonneg f) as Hf. pose proof (doubles_mant (f:=f) (g:=g)) as Hmant. pose proof unit_below.
  pose proof (units_nonneg (mant f) a Hf ltac:(lia)). pose proof (units_nonneg (mant f) b Hf ltac:(lia)).
  pose proof (pow2_pos i ltac:(lia)) as Hpi.
  assert (∃ k, z = k * 2 ^ i) as [k Hk].
  { replace j with ((j - i) + i) in Hy by lia. rewrite Z.pow_add_r in Hy by lia.
    destruct Hsum as [Hs|[Hs|Hs]]; [exists (m + n * 2 ^ (j - i))|exists (m - n * 2 ^ (j - i))|exists (n * 2 ^ (j - i) - m)]; lia. }
  destruct (Z.le_gt_cases k (2 ^ (mant g + 1))) as [Hsmall|Hbig].
  { destruct (exact_code k (i + unit_exp f)) as (c & Hc & Hv); [nia|lia| |].
    - replace (i + unit_exp f - unit_exp g) with (i + (unit_exp f - unit_exp g)) by lia.
      rewrite Z.pow_add_r, Z.mul_assoc, <- Hk by lia.
      eapply Z.le_lt_trans; [|apply (doubles_sum (f:=f) (g:=g))].
      pose proof (units_le (mant f) a (inf_code f) Hf ltac:(lia)).
      pose proof (units_le (mant f) b (inf_code f) Hf ltac:(lia)).
      apply Z.mul_le_mono_nonneg_r; [apply Z.pow_nonneg; lia|lia].
    - apply (settled_exact _ c); [done|]. rewrite Hv, Hk. apply inject_pow. lia. }
  intros c Hc Hr Heq. exfalso.
  assert (0 <= inject_Z z * pow2Q (unit_exp f))%Q as Hq.
  { apply Qmult_le_0_compat; [by apply (inject_le 0)|apply Qlt_le_weak, pow2Q_pos]. }
  pose proof (near_midpoint _ c Hq ltac:(lia) Hr Heq) as Hnear. apply Qabs_Qle_condition in Hnear as [Hlo Hhi].
  pose proof (midpoint_grid b c ltac:(lia) ltac:(lia)) as Hgrid. pose proof (midpoint_pos f c ltac:(lia)) as Hpos.
  set (q := (inject_Z z * pow2Q (unit_exp f))%Q) in *.
  assert (code_value f a * pow2Q (mant g - mant f) <= q)%Q as Hax.
  { unfold code_value, q. rewrite Hx, Hk.
    assert (m * 2 ^ i * 2 ^ (mant g - mant f) <= k * 2 ^ i) as Hle.
    { assert (2 ^ (mant g + 1) = 2 ^ (mant f + 1) * 2 ^ (mant g - mant f)) as Hsplit.
      { rewrite <- Z.pow_add_r by lia. f_equal. lia. }
      pose proof (pow2_pos (mant g - mant f) ltac:(lia)). nia. }
    apply inject_le in Hle. rewrite inject_Z_mult, <- (pow2Q_inject (mant g - mant f)) in Hle by lia.
    apply (Qmult_le_compat_r _ _ (pow2Q (unit_exp f))) in Hle; [lra|apply Qlt_le_weak, pow2Q_pos]. }
  apply scale_le in Hax. replace (- (mant g - mant f)) with (mant f - mant g) in Hax by lia.
  assert (pow2Q (- mant g) <= pow2Q (- (mant f + 4)))%Q as He1 by (apply pow2Q_le; lia).
  assert (pow2Q (mant f - mant g) <= pow2Q (- (mant f + 4)))%Q as He2 by (apply pow2Q_le; lia).
  assert (pow2Q (- (mant f + 2)) == 4 * pow2Q (- (mant f + 4)))%Q as He4.
  { replace (- (mant f + 2)) with (2 + - (mant f + 4)) by lia. by rewrite pow2Q_add. }
  assert (pow2Q (- (mant f + 4)) <= 1 # 16)%Q as He16.
  { change (1 # 16)%Q with (pow2Q (-4)). apply pow2Q_le. lia. }
  pose proof (pow2Q_pos (- (mant f + 4))) as Hep. set (e := pow2Q (- (mant f + 4))) in *.
  set (mid := midpoint f c) in *.
  assert (mid * pow2Q (- mant g) <= mid * e)%Q as Hn1 by (rewrite !(Qmult_comm mid); apply Qmult_le_compat_r; lra).
  assert (mid * e <= mid * (1 # 16))%Q as Hn16 by (rewrite !(Qmult_comm mid); apply Qmult_le_compat_r; lra).
  assert (q * pow2Q (mant f - mant g) <= q * e)%Q as Hn2 by (rewrite !(Qmult_comm q); apply Qmult_le_compat_r; lra).
  assert (q * e <= (17 # 16) * (mid * e))%Q as Hn3.
  { setoid_replace ((17 # 16) * (mid * e))%Q with ((17 # 16) * mid * e)%Q using relation Qeq by ring.
    apply Qmult_le_compat_r; lra. }
  assert (0 < mid * e)%Q by (apply Qmult_lt_0_compat; lra).
  rewrite He4 in Hgrid. pose proof (code_value_nonneg f a ltac:(lia)).
  assert (q == code_value f a + code_value f b ∨ code_value f a == q + code_value f b
    ∨ code_value f b == q + code_value f a)%Q as Hcases.
  { unfold q, code_value. rewrite <- !Qmult_plus_distr_l, <- !inject_Z_plus.
    destruct Hsum as [-> |[-> | ->]]; auto with qarith. }
  pose proof (code_value_nonneg f b ltac:(lia)).
  destruct (Qlt_le_dec (code_value f b) mid) as [Hbm|Hbm];
    [rewrite Qabs_neg in Hgrid by lra|rewrite Qabs_pos in Hgrid by lra];
    destruct Hcases as [Hs|[Hs|Hs]]; lra.
Qed.

Lemma settled_sum a b z :
  0 <= a < inf_code f → 0 <= b < inf_code f → 0 <= z →
  z = units (mant f) a + units (mant f) b ∨ units (mant f) a = z + units (mant f) b
    ∨ units (mant f) b = z + units (mant f) a →
  settled (inject_Z z * pow2Q (unit_exp f)).
Proof.
  intros Ha Hb Hz Hsum. pose proof (mant_nonneg f) as Hf.
  destruct (units_parts (mant f) a Hf ltac:(lia)) as (m & i & Hm & Hi & Hx).
  destruct (units_parts (mant f) b Hf ltac:(lia)) as (n & j & Hn & Hj & Hy).
  destruct (Z.le_ge_cases i j).
  - apply (settled_sum_ordered a b z m n i j); lia.
  - apply (settled_sum_ordered b a z n m j i); lia.
Qed.

(** A quotient near a midpoint: what is left of the numerator is a multiple of
    a step that is not small. *)
Lemma quotient_apart m n t i e :
  0 <= m <= 2 ^ (mant f + 1) → 0 <= n <= 2 ^ (mant f + 1) → 0 <= t < 2 ^ (mant f + 2) →
  let x := (inject_Z m * pow2Q i)%Q in let y := (inject_Z (t * n) * pow2Q e)%Q in
  (Qabs (x - y) <= y * pow2Q (- mant g))%Q → (x == y)%Q.
Proof.
  intros Hm Hn Ht x y Hnear. pose proof (mant_nonneg f) as Hf. pose proof (doubles_mant (f:=f) (g:=g)) as Hmant.
  destruct (Qeq_dec x y) as [|Hne]; [done|exfalso].
  assert (∀ d k, (x - y == inject_Z d * pow2Q k)%Q → (pow2Q k <= Qabs (x - y))%Q) as Hstep.
  { intros d k Hd. rewrite Hd, Qabs_Qmult, (Qabs_pos (pow2Q k)) by apply Qlt_le_weak, pow2Q_pos.
    rewrite <- (Qmult_1_l (pow2Q k)) at 1. apply Qmult_le_compat_r; [|apply Qlt_le_weak, pow2Q_pos].
    destruct (Z.eq_dec d 0) as [->|Hd0].
    - exfalso. apply Hne. change (inject_Z 0) with 0%Q in Hd. lra.
    - change (Qabs (inject_Z d)) with (inject_Z (Z.abs d)). apply (inject_le 1). lia. }
  assert (0 <= y)%Q as Hy.
  { apply Qmult_le_0_compat; [apply (inject_le 0); nia|apply Qlt_le_weak, pow2Q_pos]. }
  destruct (Z.le_gt_cases e i) as [Hei|Hie].
  - assert (pow2Q e <= Qabs (x - y))%Q as Hs.
    { apply (Hstep (m * 2 ^ (i - e) - t * n)). unfold x, y.
      unfold Z.sub at 1. rewrite inject_Z_plus, inject_Z_opp, Qmult_plus_distr_l.
      rewrite inject_pow by lia. replace (i - e + e) with i by lia. ring. }
    assert (inject_Z (t * n) < pow2Q (mant g))%Q as Htn.
    { rewrite pow2Q_inject by apply mant_nonneg, _. apply inject_lt.
      apply Z.lt_le_trans with (2 ^ (mant f + 2) * 2 ^ (mant f + 1) + 1); [nia|].
      rewrite <- Z.pow_add_r by lia.
      assert (2 ^ (mant f + 2 + (mant f + 1)) < 2 ^ mant g) by (apply Z.pow_lt_mono_r; lia). lia. }
    rewrite <- (Qmult_1_l (pow2Q (mant g))) in Htn.
    assert (y * pow2Q (- mant g) < pow2Q e)%Q; [|lra].
    assert (inject_Z (t * n) * pow2Q (- mant g) < 1)%Q as Hlt.
    { apply (Qmult_lt_r _ _ (pow2Q (mant g))); [apply pow2Q_pos|].
      pose proof (pow2Q_opp (mant g)) as Ho. rewrite <- Qmult_assoc, (Qmult_comm (pow2Q (- _))), Ho. lra. }
    apply (Qmult_lt_r _ _ (pow2Q e)) in Hlt; [unfold y; lra|apply pow2Q_pos].
  - assert (pow2Q i <= Qabs (x - y))%Q as Hs.
    { apply (Hstep (m - t * n * 2 ^ (e - i))). unfold x, y.
      unfold Z.sub at 1. rewrite inject_Z_plus, inject_Z_opp, Qmult_plus_distr_l.
      setoid_replace (- inject_Z (t * n * 2 ^ (e - i)) * pow2Q i)%Q
        with (- (inject_Z (t * n * 2 ^ (e - i)) * pow2Q i))%Q using relation Qeq by ring.
      rewrite inject_pow by lia. replace (e - i + i) with e by lia. ring. }
    assert (x <= pow2Q (mant f + 1 + i))%Q as Hx.
    { rewrite pow2Q_add, pow2Q_inject by lia. apply Qmult_le_compat_r; [apply inject_le; lia|].
      apply Qlt_le_weak, pow2Q_pos. }
    assert (pow2Q (- mant g) <= pow2Q (- (mant f + 4)))%Q as He1 by (apply pow2Q_le; lia).
    assert (pow2Q (- (mant f + 4)) <= 1 # 16)%Q as He16.
    { change (1 # 16)%Q with (pow2Q (-4)). apply pow2Q_le. lia. }
    assert (pow2Q (mant f + 1 + i) * pow2Q (- (mant f + 4)) == (1 # 8) * pow2Q i)%Q as Hprod.
    { rewrite <- pow2Q_add. replace (mant f + 1 + i + - (mant f + 4)) with (-3 + i) by lia. by rewrite pow2Q_add. }
    pose proof (pow2Q_pos i). pose proof (pow2Q_pos (- (mant f + 4))).
    assert (y * pow2Q (- mant g) <= y * pow2Q (- (mant f + 4)))%Q as H1.
    { rewrite !(Qmult_comm y). by apply Qmult_le_compat_r. }
    assert (y * pow2Q (- (mant f + 4)) <= y * (1 # 16))%Q as H2.
    { rewrite !(Qmult_comm y). by apply Qmult_le_compat_r. }
    apply Qabs_Qle_condition in Hnear as Hn'. destruct Hn' as [Hlo Hhi].
    assert (y <= 2 * pow2Q (mant f + 1 + i))%Q as Hy2 by lra.
    apply (Qmult_le_compat_r _ _ (pow2Q (- (mant f + 4)))) in Hy2; [|lra].
    rewrite <- Qmult_assoc, Hprod in Hy2. lra.
Qed.

Lemma settled_quotient a b :
  0 <= a < inf_code f → 0 < b < inf_code f → settled (code_value f a / code_value f b).
Proof.
  intros Ha Hb c Hc Hr Heq. pose proof (mant_nonneg f) as Hf.
  pose proof (code_value_nonneg f a ltac:(lia)) as Hxn.
  assert (0 < code_value f b)%Q as Hyp.
  { unfold code_value. apply Qmult_lt_0_compat; [|apply pow2Q_pos]. apply (inject_lt 0).
    pose proof (units_lt (mant f) 0 b Hf ltac:(lia)). pose proof (units_nonneg (mant f) 0 Hf ltac:(lia)). lia. }
  set (q := (code_value f a / code_value f b)%Q) in *.
  assert (code_value f a == q * code_value f b)%Q as Hqb by (unfold q; field; lra).
  assert (0 <= q)%Q as Hq by (apply Qle_shift_div_l; [done|lra]).
  pose proof (near_midpoint q c Hq ltac:(lia) Hr Heq) as Hnear.
  destruct (units_parts (mant f) a Hf ltac:(lia)) as (m & i & Hm & Hi & Hx).
  destruct (units_parts (mant f) b Hf ltac:(lia)) as (n & j & Hn & Hj & Hy).
  destruct (midpoint_parts c ltac:(lia)) as (t & k & Ht & Hk & _ & _ & Hmid).
  assert (code_value f a == inject_Z m * pow2Q (i + unit_exp f))%Q as Hxv.
  { unfold code_value. rewrite Hx. by apply inject_pow. }
  assert (code_value f b * midpoint f c == inject_Z (t * n) * pow2Q (k + (unit_exp f - 1) + (j + unit_exp f)))%Q as Hyv.
  { unfold code_value. rewrite Hy, inject_pow, Hmid, (pow2Q_add (k + _)), inject_Z_mult by done. ring. }
  pose proof (quotient_apart m n t (i + unit_exp f) (k + (unit_exp f - 1) + (j + unit_exp f)) Hm Hn Ht) as Hap.
  cbv zeta in Hap. rewrite <- Hxv, <- Hyv, Hqb in Hap.
  assert (q * code_value f b == code_value f b * midpoint f c)%Q as Hdone.
  { apply Hap. rewrite (Qmult_comm q), <- Qmult_assoc.
    setoid_replace (code_value f b * q - code_value f b * midpoint f c)%Q
      with ((q - midpoint f c) * code_value f b)%Q using relation Qeq by ring.
    rewrite Qabs_Qmult, (Qabs_pos (code_value f b)), (Qmult_comm (code_value f b)) by lra.
    apply Qmult_le_compat_r; lra. }
  rewrite (Qmult_comm q) in Hdone. apply Qmult_inj_l in Hdone; [done|lra].
Qed.

(** ** The operations *)

Lemma of_magnitude_proper h `{!Wf h} s q q' : (q == q')%Q → of_magnitude h s q = of_magnitude h s q'.
Proof. intros Hq. unfold of_magnitude. by rewrite (round_magnitude_proper h q q' Hq). Qed.

Lemma of_rational_proper h `{!Wf h} s q q' : (q == q')%Q → of_rational h s q = of_rational h s q'.
Proof.
  intros Hq. unfold of_rational. assert ((q ?= 0)%Q = (q' ?= 0)%Q) as -> by (by rewrite Hq).
  case_match; [done|..]; (apply of_magnitude_proper; [done|]); [by apply Qopp_comp|done].
Qed.

Lemma code_value_zero h : Wf h → (code_value h 0 == 0)%Q.
Proof.
  intros Hh. unfold code_value. pose proof (mant_nonneg h). pose proof (pow2_pos (mant h) ltac:(lia)).
  rewrite units_small by lia. change (inject_Z 0) with 0%Q. ring.
Qed.

Lemma of_magnitude_zero h s q : Wf h → (q == 0)%Q → of_magnitude h s q = Finite s 0.
Proof.
  intros Hh Hq. pose proof (inf_code_pos h). unfold of_magnitude. rewrite (round_magnitude_exact h q 0) by (lia || by rewrite Hq, code_value_zero).
  by destruct (Z.eqb_spec 0 (inf_code h)); [lia|].
Qed.

Lemma convert_magnitude s q :
  (0 <= q)%Q → settled q → convert g f (of_magnitude g s q) = of_magnitude f s q.
Proof.
  intros Hq Hs. pose proof (double_round q Hq Hs) as [Hlt Hinf]. pose proof (round_magnitude_range g q Hq).
  unfold of_magnitude at 1. destruct (Z.eqb_spec (round_magnitude g q) (inf_code g)) as [He|Hne]; cbn [convert].
  - unfold of_magnitude. rewrite (Hinf He). by destruct (Z.eqb_spec (inf_code f) (inf_code f)).
  - unfold of_magnitude. by rewrite Hlt by lia.
Qed.

Lemma settled_proper q q' : (q == q')%Q → settled q → settled q'.
Proof.
  intros Hq Hs c Hc Hr Hm. rewrite <- Hq.
  apply Hs; [done|by rewrite (round_magnitude_proper g q q' Hq)|].
  rewrite <- Hm. by rewrite (round_magnitude_proper g q q' Hq).
Qed.
Lemma convert_rational s v : settled (Qabs v) → convert g f (of_rational g s v) = of_rational f s v.
Proof.
  intros Hs. unfold of_rational.
  destruct (Qcompare_spec v 0) as [Hz|Hn|Hp]; cbn [convert].
  - apply of_magnitude_zero, code_value_zero; done.
  - apply convert_magnitude; [lra|]. apply (settled_proper (Qabs v)); [apply Qabs_neg; lra|done].
  - apply convert_magnitude; [lra|]. apply (settled_proper (Qabs v)); [apply Qabs_pos; lra|done].
Qed.

End two.

(** A float of the format. *)
Definition valid (f : format) (x : float) : Prop :=
  match x with Finite _ c => 0 <= c < inf_code f | _ => True end.

Section operations.
Context (f g : format) `{!Wf f, !Wf g, !Within f g, !Doubles f g}.
#[local] Set Default Proof Using "Type*".

Lemma settled_signed s t a b :
  0 <= a < inf_code f → 0 <= b < inf_code f →
  settled f g (Qabs (finite_value f s a + finite_value f t b)).
Proof.
  intros Ha Hb. pose proof (mant_nonneg f) as Hf.
  pose proof (units_nonneg (mant f) a Hf ltac:(lia)). pose proof (units_nonneg (mant f) b Hf ltac:(lia)).
  set (z := (if s then - units (mant f) a else units (mant f) a) + (if t then - units (mant f) b else units (mant f) b)).
  apply (settled_proper f g (inject_Z (Z.abs z) * pow2Q (unit_exp f))).
  - change (inject_Z (Z.abs z)) with (Qabs (inject_Z z)).
    rewrite <- (Qabs_pos (pow2Q (unit_exp f))) at 1 by apply Qlt_le_weak, pow2Q_pos. rewrite <- Qabs_Qmult.
    apply Qabs_wd. unfold finite_value, code_value, z. rewrite inject_Z_plus.
    destruct s, t; cbn [signed]; rewrite ?inject_Z_opp; ring.
  - apply (settled_sum f g a b); [done|done|lia|]. unfold z. destruct s, t; lia.
Qed.

(** An operation on narrow values computed at the wide format and rounded is
    the operation of the narrow format. *)
Lemma narrow_add x y :
  valid f x → valid f y → convert g f (add g (convert f g x) (convert f g y)) = add f x y.
Proof.
  destruct x as [|s|s a], y as [|t|t b]; intros Hx Hy; try done;
    rewrite ?(convert_widen f g) by done; cbn [convert add]; try done.
  - by destruct (Bool.eqb s t).
  - destruct (widen_value f g a ltac:(simpl in Hx; lia)) as [_ Ha].
    destruct (widen_value f g b ltac:(simpl in Hy; lia)) as [_ Hb].
    rewrite (of_rational_proper g _ _ (finite_value f s a + finite_value f t b))
      by (unfold finite_value, signed; destruct s, t; by rewrite Ha, Hb).
    apply (convert_rational f g). by apply settled_signed.
Qed.

Lemma neg_convert h k x : convert h k (neg x) = neg (convert h k x).
Proof.
  destruct x as [| |s c]; [done..|]. cbn. unfold of_magnitude. by case_match.
Qed.

Lemma narrow_sub x y :
  valid f x → valid f y → convert g f (sub g (convert f g x) (convert f g y)) = sub f x y.
Proof.
  intros Hx Hy. unfold sub. rewrite <- neg_convert. apply narrow_add; [done|]. by destruct y.
Qed.

Lemma widen_zero c : 0 <= c < inf_code f → (widen f g c =? 0) = (c =? 0).
Proof.
  intros Hc. destruct (widen_value f g c ltac:(lia)) as [Hr Hv]. apply eq_bool_prop_intro.
  rewrite !Is_true_true, !Z.eqb_eq. split; intros He.
  - apply (code_value_inj f); [lia..|]. by rewrite <- Hv, He, !code_value_zero.
  - apply (code_value_inj g); [lia..|]. by rewrite Hv, He, !code_value_zero.
Qed.

Lemma narrow_mul x y :
  valid f x → valid f y → convert g f (mul g (convert f g x) (convert f g y)) = mul f x y.
Proof.
  destruct x as [|s|s a], y as [|t|t b]; intros Hx Hy; try done;
    rewrite ?(convert_widen f g) by done; cbn [convert mul]; try done.
  - rewrite widen_zero by done. by case_match.
  - rewrite widen_zero by done. by case_match.
  - destruct (widen_value f g a ltac:(simpl in Hx; lia)) as [_ Ha].
    destruct (widen_value f g b ltac:(simpl in Hy; lia)) as [_ Hb].
    rewrite (of_magnitude_proper g _ _ (code_value f a * code_value f b)) by (by rewrite Ha, Hb).
    apply (convert_magnitude f g); [|by apply (settled_product f g)].
    apply Qmult_le_0_compat; apply (code_value_nonneg f); simpl in *; (done || lia).
Qed.

Lemma narrow_div x y :
  valid f x → valid f y → convert g f (div g (convert f g x) (convert f g y)) = div f x y.
Proof.
  destruct x as [|s|s a], y as [|t|t b]; intros Hx Hy; try done;
    rewrite ?(convert_widen f g) by done; cbn [convert div]; try done.
  - apply of_magnitude_zero, code_value_zero; done.
  - rewrite !widen_zero by done. destruct (Z.eqb_spec b 0); [by case_match|]. simpl in Hx, Hy.
    destruct (widen_value f g a ltac:(lia)) as [_ Ha]. destruct (widen_value f g b ltac:(lia)) as [_ Hb].
    rewrite (of_magnitude_proper g _ _ (code_value f a / code_value f b)) by (by rewrite Ha, Hb).
    apply (convert_magnitude f g); [|apply (settled_quotient f g); lia].
    pose proof (code_value_nonneg f a ltac:(lia)). pose proof (code_value_nonneg f b ltac:(lia)) as Hb0.
    apply Qmult_le_0_compat; [done|]. by apply Qinv_le_0_compat.
Qed.

(** *** Whole numbers *)

(** One of the two integers around a value, and the value when it is one. *)
Class Whole (whole : Q → Z) : Prop := {
  whole_near q : whole q = Qfloor q ∨ whole q = Qfloor q + 1 ∧ ¬ (q == inject_Z (Qfloor q))%Q;
  whole_proper :: Proper (Qeq ==> eq) whole;
}.

Lemma signed_scaled s c :
  0 <= c → ∃ m k, Z.abs m <= 2 ^ (mant f + 1) ∧ (finite_value f s c == inject_Z m * pow2Q k)%Q.
Proof.
  intros Hc. pose proof (mant_nonneg f) as Hf.
  destruct (units_parts (mant f) c Hf Hc) as (m & i & Hm & Hi & Hx).
  exists (if s then - m else m), (i + unit_exp f). split; [destruct s; lia|].
  assert (code_value f c == inject_Z m * pow2Q (i + unit_exp f))%Q as Hv.
  { unfold code_value. rewrite Hx. by apply inject_pow. }
  unfold finite_value. destruct s; cbn [signed]; rewrite ?inject_Z_opp, Hv; ring.
Qed.

Lemma whole_small whole `{!Whole whole} m k :
  k < 0 → Z.abs m <= 2 ^ (mant f + 1) → Z.abs (whole (inject_Z m * pow2Q k)%Q) <= 2 ^ (mant f + 1).
Proof.
  intros Hk Hm. set (q := (inject_Z m * pow2Q k)%Q).
  assert (pow2Q k <= 1 # 2)%Q as Hp by (change (1 # 2)%Q with (pow2Q (-1)); apply pow2Q_le; lia).
  pose proof (pow2Q_pos k). pose proof (mant_nonneg f). pose proof (pow2_pos (mant f + 1) ltac:(lia)).
  assert (Qabs q <= inject_Z (2 ^ (mant f + 1)) * (1 # 2))%Q as Hq.
  { unfold q. rewrite Qabs_Qmult, (Qabs_pos (pow2Q k)) by lra.
    change (Qabs (inject_Z m)) with (inject_Z (Z.abs m)). apply inject_le in Hm.
    apply Qle_trans with (inject_Z (2 ^ (mant f + 1)) * pow2Q k)%Q; [apply Qmult_le_compat_r; lra|].
    rewrite !(Qmult_comm (inject_Z _)). apply Qmult_le_compat_r; [done|]. apply (inject_le 0). lia. }
  apply Qabs_Qle_condition in Hq as [Hlo Hhi].
  assert (1 <= inject_Z (2 ^ (mant f + 1)))%Q by (apply (inject_le 1); lia).
  pose proof (Qfloor_le q) as Hfl. pose proof (Qlt_floor q) as Hfh.
  assert (Qfloor q < 2 ^ (mant f + 1)) by (apply inject_lt_inv; lra).
  assert (- 2 ^ (mant f + 1) - 1 < Qfloor q) as Hlow.
  { apply inject_lt_inv. unfold Z.sub. rewrite inject_Z_plus, inject_Z_opp.
    rewrite inject_Z_plus in Hfh. change (inject_Z 1) with 1%Q in Hfh. change (inject_Z (- (1))) with (-1)%Q. lra. }
  destruct (whole_near q) as [-> |[-> _]]; lia.
Qed.

Lemma settled_whole whole `{!Whole whole} s c :
  0 <= c < inf_code f → settled f g (Qabs (inject_Z (whole (finite_value f s c)))).
Proof.
  intros Hc. destruct (doubles_whole (f:=f) (g:=g)) as [Hug Htop]. pose proof (doubles_mant (f:=f) (g:=g)).
  pose proof (mant_nonneg f) as Hf. pose proof (unit_below f g).
  destruct (signed_scaled s c) as (m & k & Hm & Hv); [lia|].
  change (Qabs (inject_Z ?n)) with (inject_Z (Z.abs n)).
  destruct (Z.le_gt_cases 0 k) as [Hk|Hk].
  - (* the value is a whole number *)
    assert (finite_value f s c == inject_Z (m * 2 ^ k))%Q as Hw by (rewrite Hv, inject_Z_mult, <- pow2Q_inject; done).
    assert (whole (finite_value f s c) = m * 2 ^ k) as ->.
    { rewrite Hw. destruct (whole_near (inject_Z (m * 2 ^ k))) as [-> |[-> Hne]]; rewrite Qfloor_Z in *; done. }
    destruct (widen_value f g c ltac:(lia)) as [Hr Hwc].
    apply (settled_exact f g _ (widen f g c)); [done|]. rewrite Hwc.
    change (inject_Z (Z.abs ?n)) with (Qabs (inject_Z n)). rewrite <- Hw. unfold finite_value.
    pose proof (code_value_nonneg f c ltac:(lia)). destruct s; cbn [signed]; rewrite ?Qabs_opp; by apply Qabs_pos.
  - rewrite Hv. pose proof (whole_small whole m k Hk Hm) as Hsmall. set (n := Z.abs (whole _)) in *.
    destruct (exact_code f g n 0) as (d & Hd & Hdv); [|done| |].
    + assert (2 ^ (mant f + 1) <= 2 ^ (mant g + 1)) by (apply Z.pow_le_mono_r; lia). lia.
    + eapply Z.le_lt_trans; [|exact Htop]. apply Z.mul_le_mono_nonneg_r; [apply Z.pow_nonneg; lia|done].
    + apply (settled_exact f g _ d); [done|]. rewrite Hdv. change (pow2Q 0) with 1%Q. ring.
Qed.

Lemma narrow_rounded whole `{!Whole whole} x :
  valid f x → convert g f (rounded g whole (convert f g x)) = rounded f whole x.
Proof.
  destruct x as [|s|s c]; intros Hx; [done..|]. rewrite convert_widen by done. cbn [rounded]. simpl in Hx.
  destruct (widen_value f g c ltac:(lia)) as [_ Hc].
  rewrite (of_rational_proper g _ _ (inject_Z (whole (finite_value f s c)))); [by apply (convert_rational f g), settled_whole|].
  assert (finite_value g s (widen f g c) == finite_value f s c)%Q as -> by (unfold finite_value, signed; destruct s; by rewrite Hc).
  done.
Qed.

(** *** Remainders *)

Lemma settled_remainder a b (n : Z) :
  0 <= a < inf_code f → 0 < b < inf_code f → 0 <= n →
  let p := code_value f a in let q := code_value f b in
  (0 <= p - inject_Z n * q < q)%Q → settled f g (p - inject_Z n * q).
Proof.
  intros Ha Hb Hn p q [Hlo Hhi]. pose proof (mant_nonneg f) as Hf. pose proof (unit_below f g).
  pose proof (doubles_mant (f:=f) (g:=g)).
  destruct (units_parts (mant f) a Hf ltac:(lia)) as (m & i & Hm & Hi & Hx).
  destruct (units_parts (mant f) b Hf ltac:(lia)) as (d & j & Hd & Hj & Hy).
  set (z := units (mant f) a - n * units (mant f) b).
  assert (p - inject_Z n * q == inject_Z z * pow2Q (unit_exp f))%Q as Hz.
  { unfold p, q, code_value, z, Z.sub. rewrite inject_Z_plus, inject_Z_opp, inject_Z_mult. ring. }
  pose proof (pow2Q_pos (unit_exp f)) as Hu.
  assert (0 <= z < units (mant f) b) as Hzr.
  { rewrite Hz in Hlo, Hhi. split.
    - apply inject_le_inv. change (inject_Z 0) with 0%Q. rewrite <- (Qmult_0_l (pow2Q (unit_exp f))) in Hlo.
      by apply Qmult_le_r in Hlo.
    - apply inject_lt_inv. by apply (Qmult_lt_r _ _ (pow2Q (unit_exp f))). }
  pose proof (units_nonneg (mant f) b Hf ltac:(lia)). pose proof (units_nonneg (mant f) a Hf ltac:(lia)).
  assert (∃ k h, z = k * 2 ^ h ∧ 0 <= h ∧ 0 <= k <= 2 ^ (mant f + 1)) as (k & h & Hk & Hh & Hkr).
  { destruct (Z.le_ge_cases i j) as [Hij|Hij].
    - exists (m - n * d * 2 ^ (j - i)), i. pose proof (pow2_pos i Hi).
      assert (z = (m - n * d * 2 ^ (j - i)) * 2 ^ i) as Hzk.
      { unfold z. rewrite Hx, Hy. replace j with ((j - i) + i) at 1 by lia. rewrite Z.pow_add_r by lia. ring. }
      split_and!; [done|lia|nia|]. apply Z.le_trans with m; [|lia]. unfold z in *. nia.
    - exists (m * 2 ^ (i - j) - n * d), j. pose proof (pow2_pos j Hj).
      assert (z = (m * 2 ^ (i - j) - n * d) * 2 ^ j) as Hzk.
      { unfold z. rewrite Hx, Hy. replace i with ((i - j) + j) at 1 by lia. rewrite Z.pow_add_r by lia. ring. }
      split_and!; [done|lia|nia|nia]. }
  destruct (exact_code f g k (h + unit_exp f)) as (c & Hc & Hv); [|lia| |].
  - assert (2 ^ (mant f + 1) <= 2 ^ (mant g + 1)) by (apply Z.pow_le_mono_r; lia). lia.
  - replace (h + unit_exp f - unit_exp g) with (h + (unit_exp f - unit_exp g)) by lia.
    rewrite Z.pow_add_r, Z.mul_assoc, <- Hk by lia.
    eapply Z.le_lt_trans; [|apply (doubles_sum (f:=f) (g:=g))].
    pose proof (units_le (mant f) b (inf_code f) Hf ltac:(lia)).
    apply Z.mul_le_mono_nonneg_r; [apply Z.pow_nonneg; lia|lia].
  - apply (settled_exact f g _ c); [done|]. rewrite Hv, Hz, Hk. by apply inject_pow.
Qed.

Lemma narrow_rem x y :
  valid f x → valid f y → convert g f (rem g (convert f g x) (convert f g y)) = rem f x y.
Proof.
  destruct x as [|s|s a], y as [|t|t b]; intros Hx Hy; try done;
    rewrite ?(convert_widen f g) by done; cbn [convert rem]; try done; simpl in Hx, Hy.
  - destruct (widen_value f g a ltac:(lia)) as [_ Ha]. rewrite (of_magnitude_proper f s _ _ Ha).
    unfold of_magnitude. rewrite (round_magnitude_exact f _ a) by done.
    by destruct (Z.eqb_spec a (inf_code f)); [lia|].
  - rewrite widen_zero by done. destruct (Z.eqb_spec b 0); [done|].
    destruct (widen_value f g a ltac:(lia)) as [_ Ha]. destruct (widen_value f g b ltac:(lia)) as [_ Hb].
    set (p := code_value f a) in *. set (q := code_value f b) in *.
    assert (0 < q)%Q as Hq.
    { pose proof (code_value_nonneg f b ltac:(lia)) as Hq0. fold q in Hq0.
      destruct (Qle_lt_or_eq _ _ Hq0) as [|He]; [done|]. symmetry in He. rewrite <- (code_value_zero f) in He by done.
      apply (code_value_inj f) in He; lia. }
    assert (0 <= p)%Q by (apply (code_value_nonneg f); lia).
    assert (Qfloor (code_value g (widen f g a) / code_value g (widen f g b)) = Qfloor (p / q)) as ->
      by (apply Qfloor_comp; by rewrite Ha, Hb).
    pose proof (Qfloor_le (p / q)) as Hfl. pose proof (Qlt_floor (p / q)) as Hfh.
    assert (p == p / q * q)%Q as Hpq by (field; lra).
    rewrite inject_Z_plus in Hfh. change (inject_Z 1) with 1%Q in Hfh.
    apply (Qmult_le_compat_r _ _ q) in Hfl; [|lra]. apply (Qmult_lt_compat_r _ _ q) in Hfh; [|done].
    rewrite <- Hpq in Hfl, Hfh.
    rewrite (of_magnitude_proper g _ _ (p - inject_Z (Qfloor (p / q)) * q)) by (by rewrite Ha, Hb).
    apply (convert_magnitude f g); [lra|]. apply settled_remainder; [done|lia| |fold p q; lra].
    apply inject_le_inv. change (inject_Z 0) with (inject_Z (Qfloor 0)). rewrite <- Zle_Qle.
    apply Qfloor_resp_le. apply Qle_shift_div_l; lra.
Qed.
End operations.

#[export] Instance Qfloor_whole : Whole Qfloor.
Proof. split; [by left|]. intros q q'. apply Qfloor_comp. Qed.

#[export] Instance Qceiling_whole : Whole Qceiling.
Proof.
  split; [|intros q q'; apply Qceiling_comp]. intros q.
  pose proof (Qfloor_le q). pose proof (Qlt_floor q) as Hf. pose proof (Qle_ceiling q). pose proof (Qceiling_lt q) as Hc.
  destruct (Qeq_dec q (inject_Z (Qfloor q))) as [He|Hne].
  - left. by rewrite He, Qceiling_Z, Qfloor_Z.
  - right. split; [|done].
    assert (Qceiling q < Qfloor q + 2) by (apply inject_lt_inv; unfold Z.sub in Hc; rewrite inject_Z_plus in *; change (inject_Z 1) with 1%Q in *; change (inject_Z (- (1))) with (-1)%Q in *; change (inject_Z 2) with 2%Q; lra).
    assert (Qfloor q < Qceiling q); [|lia].
    apply inject_lt_inv. destruct (Qle_lt_or_eq _ _ (Qfloor_le q)) as [|He]; [lra|]. by symmetry in He.
Qed.

#[export] Instance toward_zero_whole : Whole toward_zero.
Proof.
  split.
  - intros q. unfold toward_zero. case_match; apply whole_near.
  - intros q q' Hq. unfold toward_zero. rewrite Hq. by case_match; [apply Qfloor_comp|apply Qceiling_comp].
Qed.

#[export] Instance nearest_even_whole : Whole nearest_even.
Proof.
  split.
  - intros q. unfold nearest_even. rewrite inject_Z_plus, inject_Z_mult.
    change (inject_Z 2) with 2%Q. change (inject_Z 1) with 1%Q.
    destruct (Qcompare_spec (2 * q) (2 * inject_Z (Qfloor q) + 1)); [case_match|..]; auto;
      right; (split; [done|]); lra.
  - intros q q' Hq. unfold nearest_even. rewrite (Qfloor_comp _ _ Hq).
    by assert ((2 * q ?= inject_Z (2 * Qfloor q' + 1)) = (2 * q' ?= inject_Z (2 * Qfloor q' + 1)))%Q as -> by (by rewrite Hq).
Qed.
