(* ===== verification/Lanes.v ===== *)
(** * Lanes: the arithmetic of one SIMD lane

    What one lane of a vector, and so one scalar, computes: wrapping, the
    operators, the [pop] operations and the conversions.  The lane rules of
    [mojito-types/src/ct.rs] and [mojito-types/src/mlir.rs], which the
    compile-time folds and the virtual machine share, with the rounding of
    [mojito-ast/src/ast.rs] and [mojito-common/src/float.rs].

    An integer lane is an [i128], a float lane the bits of an [f64]. A
    function that returns an [Option] in the source gives [Err tt] for
    [None], since arithmetic in it may panic. *)

From S2P Require Import Prelude Literal Ieee NarrowFloat Dtypes FloatOps.
Local Open Scope Z_scope.

(** ** Rounding a double to a float lane *)

Section rounding.
Context `{!Half}.

Definition round_f16 (value : Z) : Z := f16_to_f64 (f16_from_f64 value).
Definition f16_bits (value : Z) : Z := f16_from_f64 value.
Definition f16_from_bits (bits : Z) : Z := f16_to_f64 bits.

Definition round_lane (d : Dtype) (value : Z) : Z :=
  match d with
  | DFloat16 => round_f16 value
  | DFloat32 => f32_to_f64 (f64_as_f32 value)
  | _ => value
  end.
End rounding.

(** ** Integer lanes *)

Definition wrap_lane (d : Dtype) (value : Z) : Z :=
  match d with
  | DInt | DInt64 => to_signed 64 value
  | DInt8 => to_signed 8 value
  | DInt16 => to_signed 16 value
  | DInt32 => to_signed 32 value
  | DUInt8 => to_unsigned 8 value
  | DUInt16 => to_unsigned 16 value
  | DUInt32 => to_unsigned 32 value
  | DUInt | DUInt64 => to_unsigned 64 value
  | DFloat16 | DFloat32 | DFloat64 | DBool => value
  end.

(** An [i128] operation that panics on overflow, and [a % b]. *)
Definition i128_checked (z : Z) : outcome unit Z :=
  if decide (in_signed 128 z) then Ok z else Panic.
Definition i128_rem (a b : Z) : outcome unit Z :=
  if (b =? 0) || (a =? - 2 ^ 127) && (b =? -1) then Panic else Ok (Z.rem a b).

(** [wrapping_add] and the like. *)
Definition i128_wrapping (z : Z) : Z := to_signed 128 z.

Definition shift_amount (d : Dtype) (b : Z) : Z :=
  Z.land (to_unsigned 32 b) (Dtype_.bit_width d - 1).

Definition int_lane_binop (op : InfixOp) (d : Dtype) (a b : Z) : outcome unit Z :=
  lane ← match op with
    | Add => Ok (i128_wrapping (a + b))
    | Sub => Ok (i128_wrapping (a - b))
    | Mul => Ok (i128_wrapping (a * b))
    | Div => if b =? 0 then Err tt else Ok (i128_wrapping (Z.quot a b))
    | FloorDiv =>
        if b =? 0 then Ok 0
        else
          let q := i128_wrapping (Z.quot a b) in
          r ← i128_rem a b;
          if negb (r =? 0) && negb (Bool.eqb (a <? 0) (b <? 0)) then i128_checked (q - 1) else Ok q
    | Mod =>
        if b =? 0 then Ok 0
        else
          let r := i128_wrapping (Z.rem a b) in
          if negb (r =? 0) && negb (Bool.eqb (r <? 0) (b <? 0)) then i128_checked (r + b) else Ok r
    | BitAnd => Ok (Z.land a b)
    | BitOr => Ok (Z.lor a b)
    | BitXor => Ok (Z.lxor a b)
    | Shl => Ok (i128_wrapping (Z.shiftl a (shift_amount d b)))
    | Shr =>
        let amount := shift_amount d b in
        if Dtype_.is_unsigned d then Ok (to_signed 128 (Z.shiftr (to_unsigned 128 a) amount))
        else Ok (Z.shiftr a amount)
    | _ => Err tt
    end;
  Ok (wrap_lane d lane).

(** ** Comparisons, float and [bool] lanes *)

(** [order == Some(c)]. *)
Definition is_order (order : option comparison) (c : comparison) : bool := bool_decide (order = Some c).

Definition lane_compare {T} (partial_cmp : T → T → option comparison) (op : InfixOp) (a b : T) : option bool :=
  let order := partial_cmp a b in
  match op with
  | Eq_ => Some (is_order order Eq)
  | Ne => Some (negb (is_order order Eq))
  | Lt_ => Some (is_order order Lt)
  | Gt_ => Some (is_order order Gt)
  | Le => Some (is_order order Lt || is_order order Eq)
  | Ge => Some (is_order order Gt || is_order order Eq)
  | _ => None
  end.

(** The orders of [i128] and of [bool], [false] first. *)
Definition int_cmp (a b : Z) : option comparison := Some (a ?= b).
Definition bool_cmp (a b : bool) : option comparison := Some (Z.b2z a ?= Z.b2z b).

Definition bool_lane_binop (op : InfixOp) (a b : bool) : option bool :=
  match op with
  | BitAnd => Some (a && b)
  | BitOr => Some (a || b)
  | BitXor => Some (xorb a b)
  | _ => lane_compare bool_cmp op a b
  end.

Section float_lanes.
Context `{!Half}.

Definition float_lane_binop (op : InfixOp) (d : Dtype) (a b : Z) : option Z :=
  lane ← match op with
    | Add => Some (f64_add a b)
    | Sub => Some (f64_sub a b)
    | Mul => Some (f64_mul a b)
    | Div => Some (f64_div a b)
    | FloorDiv => Some (f64_floor (round_lane d (f64_div a b)))
    | _ => None
    end;
  Some (round_lane d lane).
End float_lanes.

(** ** The [pop] operations on a lane *)

Inductive PopOp : Type :=
| PopDiv | PopRem | PopAbs | PopRound | PopFloor | PopCeil | PopTrunc | PopFma | PopMax | PopMin
| PopUlt | PopUle | PopUgt | PopUge | StringSize | StringAddress | DtypeToUi8 | DtypeFromUi8.

Definition arity (op : PopOp) : nat :=
  match op with
  | PopAbs | PopRound | PopFloor | PopCeil | PopTrunc | StringSize | StringAddress
  | DtypeToUi8 | DtypeFromUi8 => 1
  | PopFma => 3
  | _ => 2
  end.

Definition is_compare (op : PopOp) : bool :=
  match op with PopUlt | PopUle | PopUgt | PopUge => true | _ => false end.

(** The lane's bits as an unsigned number. *)
Definition unsigned_lane (d : Dtype) (lane : Z) : Z :=
  Z.land lane (Z.shiftl 1 (Dtype_.bit_width d) - 1).

Definition pop_int_lane (op : PopOp) (d : Dtype) (lanes : list Z) : option Z :=
  let unsigned := unsigned_lane d in
  match op, lanes with
  | (PopDiv | PopRem), [_; 0] => None
  | PopDiv, [a; b] => Some (wrap_lane d (i128_wrapping (Z.quot a b)))
  | PopRem, [a; b] => Some (wrap_lane d (i128_wrapping (Z.rem a b)))
  | PopAbs, [a] => Some (wrap_lane d (i128_wrapping (Z.abs a)))
  | (PopRound | PopFloor | PopCeil | PopTrunc), [a] => Some (wrap_lane d a)
  | PopFma, [a; b; c] => Some (wrap_lane d (i128_wrapping (i128_wrapping (a * b) + c)))
  | PopMax, [a; b] => Some (wrap_lane d (Z.max a b))
  | PopMin, [a; b] => Some (wrap_lane d (Z.min a b))
  | PopUlt, [a; b] => Some (Z.b2z (unsigned a <? unsigned b))
  | PopUle, [a; b] => Some (Z.b2z (unsigned a <=? unsigned b))
  | PopUgt, [a; b] => Some (Z.b2z (unsigned b <? unsigned a))
  | PopUge, [a; b] => Some (Z.b2z (unsigned b <=? unsigned a))
  | _, _ => None
  end.

Definition pop_bool_lane (op : PopOp) (a b : bool) : option bool :=
  match op with
  | PopMax => Some (a || b)
  | PopMin => Some (a && b)
  | _ => None
  end.

Section pop_float.
Context `{!Half}.

Definition f64_lt (a b : Z) : bool := is_order (f64_partial_cmp a b) Lt.

(** [f64::from((a as f32).mul_add(b as f32, c as f32))]. *)
Definition f32_mul_add (a b c : Z) : Z :=
  f32_to_f64 (encode binary32
    (mul_add binary32 (decode binary32 (f64_as_f32 a)) (decode binary32 (f64_as_f32 b)) (decode binary32 (f64_as_f32 c)))).

Definition pop_float_lane (op : PopOp) (d : Dtype) (lanes : list Z) : option Z :=
  lane ← match op, lanes with
    | PopDiv, [a; b] => Some (f64_div a b)
    | PopRem, [a; b] => Some (f64_rem a b)
    | PopAbs, [a] => Some (f64_abs a)
    | PopRound, [a] => Some (f64_round_ties_even a)
    | PopFloor, [a] => Some (f64_floor a)
    | PopCeil, [a] => Some (f64_ceil a)
    | PopTrunc, [a] => Some (f64_trunc a)
    | PopFma, [a; b; c] => Some (match d with DFloat32 => f32_mul_add a b c | _ => f64_mul_add a b c end)
    | PopMax, [a; b] => Some (if f64_is_nan a || f64_lt a b then b else a)
    | PopMin, [a; b] => Some (if f64_is_nan a || f64_lt b a then b else a)
    | _, _ => None
    end;
  Some (round_lane d lane).
End pop_float.

Inductive SimdReduction : Type := ReduceAnd | ReduceOr.

Definition reduce_bools (r : SimdReduction) (lanes : list bool) : bool :=
  match r with ReduceAnd => forallb id lanes | ReduceOr => existsb id lanes end.

Definition reduce_ints (r : SimdReduction) (lanes : list Z) : Z :=
  match r with ReduceAnd => fold_left Z.land lanes (-1) | ReduceOr => fold_left Z.lor lanes 0 end.

(** ** Compile-time lanes and conversions *)

Inductive CtLane : Type := LInt (n : Z) | LFloat (bits : Z) | LBool (b : bool).

(** [x as i128] of a truncated float. *)
Definition f64_to_i128 (x : Z) : Z := f64_to_integer (- 2 ^ 127) (2 ^ 127 - 1) x.

Definition low_bit (n : Z) : bool := negb (Z.land n 1 =? 0).

Section ct_lanes.
Context {T B R : Type} `{!BigInt B, !BigRational B R, !RationalFloats R, !Half}.

Definition cast (lane : CtLane) (d : Dtype) : CtLane :=
  if decide (d = DBool) then
    LBool match lane with
      | LInt n => low_bit n
      | LFloat bits => low_bit (f64_to_i128 (f64_trunc bits))
      | LBool b => b
      end
  else
    match lane, Dtype_.is_float d with
    | LInt n, false => LInt (wrap_lane d n)
    | LInt n, true => LFloat (round_lane d (f64_of_integer n))
    | LFloat bits, false => LInt (wrap_lane d (f64_to_i128 (f64_trunc bits)))
    | LFloat bits, true => LFloat (round_lane d bits)
    | LBool b, false => LInt (Z.b2z b)
    | LBool b, true => LFloat (f64_of_integer (Z.b2z b))
    end.

(** An exact float literal at a lane, as a double. *)
Definition float_literal_lane (d : Dtype) (literal : FloatLiteral R) : outcome unit Z :=
  match d with
  | DFloat16 => f16_to_f64 <$> to_f16 (B:=B) literal
  | DFloat32 => f32_to_f64 <$> to_f32 (B:=B) literal
  | _ => ok_or tt (literal_to_f64 (B:=B) literal)
  end.

Definition of_float_literal (literal : FloatLiteral R) (d : Dtype) : outcome unit CtLane :=
  if Dtype_.is_float d then LFloat <$> float_literal_lane d literal else Err tt.

Definition of_int_literal (literal : IntLiteral B) (d : Dtype) : outcome unit CtLane :=
  if Dtype_.is_float d then of_float_literal (from_int literal) d
  else
    let bits := Dtype_.bit_width d in
    LInt <$> match d with
      | DBool => Err tt
      | _ => ok_or tt (if Dtype_.is_unsigned d then wrapping_unsigned literal bits else wrapping_signed literal bits)
      end.

(** [CtValue]: the values the lane rules and the folder distinguish, over a
    language [T] of types, and the others as one constructor. *)
Record KgenTarget : Type := mkTarget {
  triple : string;
  stdlib_plugin : string;
  arch : string;
  features : string;
  data_layout : string;
  index_bit_width : Z;
  simd_bit_width : Z;
}.

Inductive CtValue : Type :=
| CtInt (n : Z)
| CtUInt (n : Z)
| CtIndex (n : Z)
| CtFloat (bits : Z)
| CtIntLiteral (literal : IntLiteral B)
| CtFloatLiteral (literal : FloatLiteral R)
| CtBool (b : bool)
| CtStr (s : string)
| CtTuple (elements : list CtValue)
| CtList (elements : list CtValue)
| CtDtype (d : Dtype)
| CtSimd (dtype : Dtype) (lanes : list CtLane)
| CtStruct (name : string) (fields : list (string * CtValue))
| CtPointer (memory : option (list (option CtValue))) (offset : Z)
| CtStoreToMem (referent : CtValue)
| CtType (ty : T)
| CtKgenString (s : string)
| CtPopIntLiteral (literal : IntLiteral B)
| CtPopFloatLiteral (literal : FloatLiteral R)
| CtMlirAttr (text : string)
| CtKgenTarget (target : KgenTarget)
| CtOther.

Definition from_value (value : CtValue) (d : Dtype) : outcome unit CtLane :=
  match value with
  | CtIntLiteral literal => of_int_literal literal d
  | CtFloatLiteral literal => of_float_literal literal d
  | CtSimd own [lane] => if decide (own = d) then Ok lane else Err tt
  | CtSimd own _ => Err tt
  | _ =>
      match d with
      | DBool => match value with CtBool b => Ok (LBool b) | _ => Err tt end
      | DFloat16 | DFloat32 | DFloat64 =>
          value ← match value with
            | CtFloat bits => Ok bits
            | CtInt n | CtUInt n => Ok (f64_of_integer n)
            | _ => Err tt
            end;
          Ok (LFloat (round_lane d value))
      | _ =>
          wide ← match value with
            | CtInt n | CtUInt n => Ok n
            | CtBool b => Ok (Z.b2z b)
            | _ => Err tt
            end;
          Ok (LInt (wrap_lane d wide))
      end
  end.

Definition from_element (value : CtValue) (d : Dtype) : outcome unit CtLane :=
  match d, value with
  | _, (CtIntLiteral _ | CtFloatLiteral _ | CtSimd _ _)
  | DBool, CtBool _ | DInt, CtInt _ | DUInt, CtUInt _ | DFloat64, CtFloat _ => from_value value d
  | _, _ => Err tt
  end.

Definition of_scalar (value : CtValue) : option CtLane :=
  match value with
  | CtInt n | CtUInt n => Some (LInt n)
  | CtFloat bits => Some (LFloat bits)
  | CtBool b => Some (LBool b)
  | CtSimd _ [lane] => Some lane
  | _ => None
  end.

Inductive SimdConstructionError : Type := Arity | Lane.

Definition simd_construction_lanes (d : Dtype) (width : nat) (values : list CtValue)
    : outcome SimdConstructionError (list CtLane) :=
  let lane := λ l : outcome unit CtLane,
    match l with Ok l => Ok l | Err _ => Err Lane | Panic => Panic | Diverge => Diverge end in
  match values with
  | [value] => l ← lane (from_value value d); Ok (replicate width l)
  | _ =>
      if length values =? width then
        let fix collect values :=
          match values with
          | [] => Ok []
          | value :: values => l ← lane (from_element value d); ls ← collect values; Ok (l :: ls)
          end in
        collect values
      else Err Arity
  end%nat.

(** The built-in conversions [Int(x)], [UInt(x)], [Float64(x)], [Bool(x)]. *)
Inductive ScalarConversion : Type := ToInt | ToUInt | ToFloat64 | ToBool.

Definition f64_to_i64 (x : Z) : Z := f64_to_integer (- 2 ^ 63) (2 ^ 63 - 1) x.
Definition f64_to_u64 (x : Z) : Z := f64_to_integer 0 (2 ^ 64 - 1) x.

(** [x != 0.0]. *)
Definition f64_nonzero (x : Z) : bool := negb (is_order (f64_partial_cmp x 0) Eq).

Definition convert_lane (lane : CtLane) (target : ScalarConversion) : CtValue :=
  match lane, target with
  | LInt n, ToInt => CtInt (to_signed 64 n)
  | LInt n, ToUInt => CtUInt (to_unsigned 64 n)
  | LInt n, ToFloat64 => CtFloat (f64_of_integer n)
  | LInt n, ToBool => CtBool (negb (n =? 0))
  | LFloat bits, ToInt => CtInt (f64_to_i64 bits)
  | LFloat bits, ToUInt => CtUInt (f64_to_u64 bits)
  | LFloat bits, ToFloat64 => CtFloat bits
  | LFloat bits, ToBool => CtBool (f64_nonzero bits)
  | LBool b, ToInt => CtInt (Z.b2z b)
  | LBool b, ToUInt => CtUInt (Z.b2z b)
  | LBool b, ToFloat64 => CtFloat (f64_of_integer (Z.b2z b))
  | LBool b, ToBool => CtBool b
  end.
End ct_lanes.
Arguments CtValue : clear implicits.
