(* ===== verification/LaneLaws.v ===== *)
(** * LaneLaws: what the lane rules compute

    Integer lanes: every operator gives the exact result wrapped to the lane,
    and no [i128] overflow reaches a panic.  Float lanes: every operator and
    [pop] operation computed at double precision is the operation of the lane's
    own format. *)

From S2P Require Import Prelude Literal Ieee NarrowFloat Dtypes FloatOps DoubleRounding Lanes.
From Stdlib Require Import QArith Qabs Qround Lqa.
Local Open Scope Z_scope.

(** ** Integer lanes *)

Definition lane_in_range (d : Dtype) (z : Z) : Prop :=
  if Dtype_.is_unsigned d then in_unsigned (Dtype_.bit_width d) z else in_signed (Dtype_.bit_width d) z.

#[export] Instance lane_in_range_dec d z : Decision (lane_in_range d z).
Proof. unfold lane_in_range. case_match; apply _. Defined.

(** The result of an operator on integers without a width; a shift takes its
    amount modulo the width. *)
Definition exact_lane (op : InfixOp) (d : Dtype) (a b : Z) : option Z :=
  match op with
  | Add => Some (a + b)
  | Sub => Some (a - b)
  | Mul => Some (a * b)
  | Div => if b =? 0 then None else Some (Z.quot a b)
  | FloorDiv => Some (if b =? 0 then 0 else a / b)
  | Mod => Some (if b =? 0 then 0 else a mod b)
  | BitAnd => Some (Z.land a b)
  | BitOr => Some (Z.lor a b)
  | BitXor => Some (Z.lxor a b)
  | Shl => Some (a * 2 ^ (b mod Dtype_.bit_width d))
  | Shr => Some (a / 2 ^ (b mod Dtype_.bit_width d))
  | _ => None
  end.

Lemma integral_width d :
  Dtype_.is_integral d = true →
  ∃ k, 3 <= k <= 6 ∧ Dtype_.bit_width d = 2 ^ k ∧
    ∀ z, wrap_lane d z = if Dtype_.is_unsigned d then to_unsigned (2 ^ k) z else to_signed (2 ^ k) z.
Proof. destruct d; try done; intros _; [exists 6|exists 6|exists 3|exists 4|exists 5|exists 6|exists 3|exists 4|exists 5|exists 6]; done. Qed.

(** Truncated division, corrected by the signs, is floor division. *)
Lemma floor_correction a b :
  b ≠ 0 →
  a / b = (if negb (Z.rem a b =? 0) && negb (Bool.eqb (a <? 0) (b <? 0)) then Z.quot a b - 1 else Z.quot a b) ∧
  a mod b = (if negb (Z.rem a b =? 0) && negb (Bool.eqb (Z.rem a b <? 0) (b <? 0)) then Z.rem a b + b else Z.rem a b).
Proof.
  intros Hb. pose proof (Z.quot_rem a b Hb) as Hqr. pose proof (Z.rem_bound_abs a b Hb) as Hbound.
  pose proof (Z.rem_sign_nz a b Hb) as Hsign.
  assert (∀ q r, a = b * q + r → (0 <= r < b ∨ b < r <= 0) → a / b = q ∧ a mod b = r) as Huniq.
  { intros q r Heq Hr. split; [symmetry; by apply (Z.div_unique a b q r)|symmetry; by apply (Z.mod_unique a b q r)]. }
  destruct (Z.eqb_spec (Z.rem a b) 0) as [Hr0|Hr0]; cbn [negb andb].
  { apply Huniq; lia. }
  specialize (Hsign Hr0).
  destruct (Z.ltb_spec a 0), (Z.ltb_spec b 0), (Z.ltb_spec (Z.rem a b) 0); cbn [Bool.eqb negb];
    try (exfalso; lia); apply Huniq; lia.
Qed.
(** No intermediate result leaves an [i128]. *)
Lemma i128_ok z : - 2 ^ 127 <= z < 2 ^ 127 → i128_wrapping z = z ∧ i128_checked z = Ok z.
Proof.
  intros Hz. unfold i128_wrapping, i128_checked. split; [by apply to_signed_small|].
  by rewrite decide_True.
Qed.

Lemma i128_rem_ok a b : - 2 ^ 127 < a → b ≠ 0 → i128_rem a b = Ok (Z.rem a b).
Proof.
  intros Ha Hb. unfold i128_rem. destruct (Z.eqb_spec b 0); [done|].
  by destruct (Z.eqb_spec a (- 2 ^ 127)); [lia|].
Qed.

Lemma quot_bounds a b : b ≠ 0 → Z.abs (Z.quot a b) <= Z.abs a.
Proof. intros Hb. rewrite <- Z.quot_abs by done. apply Z.quot_le_upper_bound; nia. Qed.

Section integral.
Context (d : Dtype) (Hd : Dtype_.is_integral d = true).
Let w := Dtype_.bit_width d.

Lemma width_range : 8 <= w <= 64.
Proof using Hd. unfold w. by destruct d. Qed.

Lemma wrap_lane_congr x y : x mod 2 ^ w = y mod 2 ^ w → wrap_lane d x = wrap_lane d y.
Proof using Hd.
  destruct (integral_width d Hd) as (k & _ & Hw & Hwrap). unfold w. rewrite !Hwrap, Hw. intros Hxy.
  by destruct (Dtype_.is_unsigned d); [apply to_unsigned_congr|apply to_signed_congr].
Qed.

Lemma wrap_lane_range z : lane_in_range d (wrap_lane d z).
Proof using Hd.
  destruct (integral_width d Hd) as (k & Hk & Hw & Hwrap). unfold lane_in_range. rewrite Hwrap, Hw.
  pose proof (pow2_pos k ltac:(lia)).
  destruct (Dtype_.is_unsigned d); [apply to_unsigned_range|apply to_signed_range]; lia.
Qed.

Lemma wrap_lane_mod z : wrap_lane d z mod 2 ^ w = z mod 2 ^ w.
Proof using Hd.
  destruct (integral_width d Hd) as (k & _ & Hw & Hwrap). unfold w. rewrite Hwrap, Hw.
  destruct (Dtype_.is_unsigned d); [apply to_unsigned_mod|apply to_signed_mod].
Qed.

Lemma wrap_lane_small z : lane_in_range d z → wrap_lane d z = z.
Proof using Hd.
  destruct (integral_width d Hd) as (k & Hk & Hw & Hwrap). unfold lane_in_range. rewrite Hwrap, Hw.
  pose proof (pow2_pos k ltac:(lia)).
  destruct (Dtype_.is_unsigned d); [apply to_unsigned_small|apply to_signed_small; lia].
Qed.

(** A lane is far inside an [i128]. *)
Lemma lane_bounds z : lane_in_range d z → - 2 ^ 63 <= z < 2 ^ 64.
Proof using Hd.
  pose proof width_range as Hw. unfold lane_in_range. fold w.
  assert (2 ^ w <= 2 ^ 64) by (apply Z.pow_le_mono_r; lia).
  assert (2 ^ (w - 1) <= 2 ^ 63) by (apply Z.pow_le_mono_r; lia).
  unfold in_unsigned, in_signed. case_match; lia.
Qed.

Lemma wrap_lane_i128 z : wrap_lane d (i128_wrapping z) = wrap_lane d z.
Proof using Hd.
  apply wrap_lane_congr. pose proof width_range as Hw. pose proof (to_signed_mod 128 z) as Hm.
  assert ((2 ^ w | 2 ^ 128)) as [q Hq].
  { exists (2 ^ (128 - w)). rewrite <- Z.pow_add_r by lia. f_equal. lia. }
  unfold i128_wrapping. rewrite <- (Z.mod_mod_divide z (2 ^ 128)), <- (Z.mod_mod_divide (to_signed 128 z) (2 ^ 128))
    by (by exists q).
  by rewrite Hm.
Qed.

Lemma shift_amount_mod b : shift_amount d b = b mod w.
Proof using Hd.
  destruct (integral_width d Hd) as (k & Hk & Hw & _). unfold shift_amount, w. rewrite Hw.
  rewrite Z.sub_1_r, <- Z.ones_equiv, Z.land_ones by lia. unfold to_unsigned.
  assert ((2 ^ k | 2 ^ 32)) as Hdiv.
  { exists (2 ^ (32 - k)). rewrite <- Z.pow_add_r by lia. f_equal. lia. }
  by rewrite Z.mod_mod_divide.
Qed.


Lemma int_lane_floor a b :
  lane_in_range d a → lane_in_range d b → b ≠ 0 →
  int_lane_binop FloorDiv d a b = Ok (wrap_lane d (a / b)) ∧
  int_lane_binop Mod d a b = Ok (wrap_lane d (a mod b)).
Proof using Hd.
  intros Ha%lane_bounds Hb%lane_bounds Hb0. destruct (floor_correction a b Hb0) as [-> ->].
  pose proof (quot_bounds a b Hb0). pose proof (Z.rem_bound_abs a b Hb0).
  unfold int_lane_binop. destruct (Z.eqb_spec b 0) as [|_]; [done|].
  rewrite (i128_rem_ok a b) by lia. cbn [mbind outcome_bind].
  destruct (i128_ok (Z.quot a b)) as [-> _]; [lia|]. destruct (i128_ok (Z.rem a b)) as [-> _]; [lia|].
  destruct (i128_ok (Z.quot a b - 1)) as [_ ->]; [lia|]. destruct (i128_ok (Z.rem a b + b)) as [_ ->]; [lia|].
  split; by case_match.
Qed.

Lemma int_lane_shift a b :
  lane_in_range d a →
  int_lane_binop Shl d a b = Ok (wrap_lane d (a * 2 ^ (b mod w))) ∧
  int_lane_binop Shr d a b = Ok (wrap_lane d (a / 2 ^ (b mod w))).
Proof using Hd.
  intros Ha. pose proof (lane_bounds a Ha) as Hbounds. pose proof width_range as Hw.
  pose proof (Z.mod_pos_bound b w ltac:(lia)) as Hm.
  unfold int_lane_binop. rewrite !shift_amount_mod. cbn [mbind outcome_bind].
  rewrite wrap_lane_i128, Z.shiftl_mul_pow2 by lia. split; [done|].
  unfold lane_in_range in Ha. pose proof (pow2_pos (b mod w) ltac:(lia)).
  destruct (Dtype_.is_unsigned d) eqn:Hu; cbn [mbind outcome_bind]; rewrite !Z.shiftr_div_pow2 by lia; [|done].
  assert (0 <= a) as Ha0 by (unfold in_unsigned in Ha; lia).
  rewrite to_unsigned_small by (unfold in_unsigned; lia).
  rewrite to_signed_small; [done|done|]. unfold in_signed.
  pose proof (Z.div_pos a (2 ^ (b mod w)) Ha0 ltac:(lia)). pose proof (Z.div_le_upper_bound a (2 ^ (b mod w)) a ltac:(lia) ltac:(nia)).
  lia.
Qed.
End integral.

Lemma int_lane_exact op d a b :
  Dtype_.is_integral d = true → lane_in_range d a → lane_in_range d b →
  int_lane_binop op d a b =
    match exact_lane op d a b with Some v => Ok (wrap_lane d v) | None => Err tt end.
Proof.
  intros Hd Ha Hb. destruct (int_lane_shift d Hd a b Ha) as [Hl Hr].
  destruct op; try done; cbn [exact_lane]; try (unfold int_lane_binop; cbn [mbind outcome_bind]; by rewrite wrap_lane_i128).
  - unfold int_lane_binop. destruct (b =? 0); [done|]. cbn [mbind outcome_bind]. by rewrite wrap_lane_i128.
  - destruct (Z.eqb_spec b 0) as [->|Hb0]; [done|]. by apply int_lane_floor.
  - destruct (Z.eqb_spec b 0) as [->|Hb0]; [done|]. by apply int_lane_floor.
Qed.

(** C22: integer lane arithmetic is exact up to the lane's width.  On lanes of
    any integer dtype each operator gives the operator's result on the
    integers wrapped to the dtype (a shift by the amount modulo the width, [//]
    and [%] rounding down, and zero for a zero divisor), only [/] by zero and
    the operators lanes do not define give none, and the 128-bit arithmetic it
    is computed in never overflows into a panic.  The wrapped number is the one
    in the dtype's range with the same residue. *)
Theorem int_lane_binop_exact op d a b :
  Dtype_.is_integral d = true → lane_in_range d a → lane_in_range d b →
  int_lane_binop op d a b =
    match exact_lane op d a b with Some v => Ok (wrap_lane d v) | None => Err tt end ∧
  ∀ v, lane_in_range d (wrap_lane d v) ∧
    wrap_lane d v mod 2 ^ Dtype_.bit_width d = v mod 2 ^ Dtype_.bit_width d ∧
    (lane_in_range d v → wrap_lane d v = v).
Proof.
  intros Hd Ha Hb. split; [by apply int_lane_exact|].
  intros v; split_and!; [by apply wrap_lane_range|by apply wrap_lane_mod|by apply wrap_lane_small].
Qed.

Lemma int_lane_binop_exact_witness :
  (int_lane_binop FloorDiv DInt8 (-7) 2 = match exact_lane FloorDiv DInt8 (-7) 2 with Some v => Ok (wrap_lane DInt8 v) | None => Err tt end ∧
   ∀ v, lane_in_range DInt8 (wrap_lane DInt8 v) ∧
     wrap_lane DInt8 v mod 2 ^ Dtype_.bit_width DInt8 = v mod 2 ^ Dtype_.bit_width DInt8 ∧
     (lane_in_range DInt8 v → wrap_lane DInt8 v = v)) ∧
  exact_lane FloorDiv DInt8 (-7) 2 = Some (-4).
Proof. split; [|reflexivity]. apply (int_lane_binop_exact FloorDiv DInt8 (-7) 2); by compute. Defined.

(** ** Float lanes *)

Definition lane_format (d : Dtype) : option format :=
  match d with
  | DFloat16 => Some binary16
  | DFloat32 => Some binary32
  | DFloat64 => Some binary64
  | _ => None
  end.

(** The lane [bits], a double, holds the float [x] of its format. *)
Definition holds_float (f : format) (bits : Z) (x : float) : Prop :=
  valid f x ∧ decode binary64 bits = convert f binary64 x.

Section valid.
Context (f : format) `{!Wf f}.
#[local] Set Default Proof Using "Type*".

Lemma of_magnitude_valid s q : (0 <= q)%Q → valid f (of_magnitude f s q).
Proof.
  intros Hq. unfold of_magnitude. pose proof (round_magnitude_range f q Hq).
  destruct (Z.eqb_spec (round_magnitude f q) (inf_code f)); simpl; lia.
Qed.

Lemma zero_valid s : valid f (Finite s 0).
Proof. pose proof (inf_code_pos f). simpl. lia. Qed.

Lemma of_rational_valid s q : valid f (of_rational f s q).
Proof.
  unfold of_rational. destruct (Qcompare_spec q 0); [apply zero_valid|..]; apply of_magnitude_valid; lra.
Qed.

Lemma decode_encode x : valid f x → decode f (encode f x) = x.
Proof.
  pose proof (inf_code_pos f) as Hinf. pose proof (inf_code_sign f) as Hsign.
  destruct x as [|s|s c]; intros Hx; cbn [encode].
  - assert (inf_code f < nan_bits f < sign_bit f) as Hnan.
    { unfold nan_bits, inf_code, sign_bit in *. pose proof (mant_pos (f:=f)). pose proof (expw_pos (f:=f)).
      rewrite Z.pow_add_r by lia. rewrite (pow2_split (mant f)) by lia.
      pose proof (pow2_pos (mant f - 1) ltac:(lia)). pose proof (pow2_pos (expw f) ltac:(lia)). nia. }
    unfold decode. destruct (Z.leb_spec (sign_bit f) (nan_bits f)); [lia|].
    by destruct (Z.ltb_spec (inf_code f) (nan_bits f)); [|lia].
  - unfold decode, with_sign. destruct s.
    + destruct (Z.leb_spec (sign_bit f) (sign_bit f + inf_code f)); [|lia].
      replace (sign_bit f + inf_code f - sign_bit f) with (inf_code f) by lia.
      by rewrite Z.ltb_irrefl, Z.eqb_refl.
    + destruct (Z.leb_spec (sign_bit f) (inf_code f)); [lia|]. by rewrite Z.ltb_irrefl, Z.eqb_refl.
  - by apply decode_with_sign.
Qed.

Lemma add_valid x y : valid f (add f x y).
Proof.
  destruct x as [|s|s a], y as [|t|t b]; try done; cbn [add]; [by case_match|apply of_rational_valid].
Qed.

Lemma mul_valid x y : valid f x → valid f y → valid f (mul f x y).
Proof.
  destruct x as [|s|s a], y as [|t|t b]; intros Hx Hy; try done; cbn [mul]; try by case_match.
  apply of_magnitude_valid, Qmult_le_0_compat; apply (code_value_nonneg f); simpl in *; lia.
Qed.

Lemma div_valid x y : valid f x → valid f y → valid f (div f x y).
Proof.
  destruct x as [|s|s a], y as [|t|t b]; intros Hx Hy; try done; cbn [div]; [apply zero_valid|].
  destruct (b =? 0); [by case_match|]. simpl in *.
  apply of_magnitude_valid, Qmult_le_0_compat; [|apply Qinv_le_0_compat]; apply (code_value_nonneg f); lia.
Qed.

Lemma rounded_valid whole x : valid f (rounded f whole x).
Proof. destruct x; [done..|]. apply of_rational_valid. Qed.

Lemma remainder_nonneg p q : (0 <= p)%Q → (0 < q)%Q → (0 <= p - inject_Z (Qfloor (p / q)) * q)%Q.
Proof.
  intros Hp Hq. pose proof (Qfloor_le (p / q)) as Hfl.
  assert (p == p / q * q)%Q as Hpq by (field; lra).
  apply (Qmult_le_compat_r _ _ q) in Hfl; lra.
Qed.

Lemma code_value_pos c : 0 < c → (0 < code_value f c)%Q.
Proof.
  intros Hc. pose proof (code_value_nonneg f c ltac:(lia)) as Hn.
  destruct (Qle_lt_or_eq _ _ Hn) as [|He]; [done|]. symmetry in He.
  rewrite <- (code_value_zero f) in He by done. apply (code_value_inj f) in He; lia.
Qed.

Lemma rem_valid x y : valid f x → valid f y → valid f (rem f x y).
Proof.
  destruct x as [|s|s a], y as [|t|t b]; intros Hx Hy; try done; cbn [rem]; simpl in Hx, Hy.
  destruct (Z.eqb_spec b 0); [done|].
  apply of_magnitude_valid, remainder_nonneg; [apply (code_value_nonneg f); lia|apply code_value_pos; lia].
Qed.

Lemma abs_valid x : valid f x → valid f (abs x).
Proof. by destruct x. Qed.
End valid.

Lemma convert_valid f g `{!Wf f, !Wf g} x : valid f x → valid g (convert f g x).
Proof.
  destruct x as [| |s c]; [done..|]. intros Hx. apply of_magnitude_valid; [done|].
  apply (code_value_nonneg f). simpl in Hx. lia.
Qed.

Lemma convert_same f `{!Wf f} x : valid f x → convert f f x = x.
Proof.
  destruct x as [| |s c]; [done..|]. intros Hx. simpl in Hx. cbn [convert]. unfold of_magnitude.
  rewrite (round_magnitude_exact f _ c) by done. by destruct (Z.eqb_spec c (inf_code f)); [lia|].
Qed.

(** A narrow value survives the double it is held in. *)
Lemma convert_back f `{!Wf f, !Within f binary64, !Doubles f binary64} x :
  valid f x → convert binary64 f (convert f binary64 x) = x.
Proof.
  destruct x as [| |s c]; [done..|]. intros Hx. rewrite (convert_widen f binary64) by done. simpl in Hx.
  destruct (widen_value f binary64 c ltac:(lia)) as [Hr Hv]. cbn [convert]. unfold of_magnitude.
  rewrite (round_magnitude_exact f _ c) by done. by destruct (Z.eqb_spec c (inf_code f)); [lia|].
Qed.

(** The formats of the float lanes, and operations on them that a double
    computes. *)
Inductive lane_of : Dtype → format → Prop :=
| lane_16 : lane_of DFloat16 binary16
| lane_32 : lane_of DFloat32 binary32
| lane_64 : lane_of DFloat64 binary64.

Lemma lane_format_of d f : lane_format d = Some f → lane_of d f.
Proof. destruct d; intros [= <-]; constructor. Qed.

Lemma lane_wf d f : lane_of d f → Wf f.
Proof. destruct 1; apply _. Qed.

(** [op], a family over formats, gives valid floats and may be computed at
    double precision. *)
Class Computed1 (op : format → float → float) : Prop := {
  computed1_valid f x : Wf f → valid f x → valid f (op f x);
  computed1_narrow f `{!Wf f, !Within f binary64, !Doubles f binary64} x :
    valid f x → convert binary64 f (op binary64 (convert f binary64 x)) = op f x;
}.

Class Computed2 (op : format → float → float → float) : Prop := {
  computed2_valid f x y : Wf f → valid f x → valid f y → valid f (op f x y);
  computed2_narrow f `{!Wf f, !Within f binary64, !Doubles f binary64} x y :
    valid f x → valid f y →
    convert binary64 f (op binary64 (convert f binary64 x) (convert f binary64 y)) = op f x y;
}.

#[export] Instance add_computed : Computed2 add.
Proof. split; intros; [by apply add_valid|by apply (narrow_add f binary64)]. Qed.
#[export] Instance sub_computed : Computed2 sub.
Proof. split; intros; [by apply add_valid|by apply (narrow_sub f binary64)]. Qed.
#[export] Instance mul_computed : Computed2 mul.
Proof. split; intros; [by apply mul_valid|by apply (narrow_mul f binary64)]. Qed.
#[export] Instance div_computed : Computed2 div.
Proof. split; intros; [by apply div_valid|by apply (narrow_div f binary64)]. Qed.
#[export] Instance rem_computed : Computed2 rem.
Proof. split; intros; [by apply rem_valid|by apply (narrow_rem f binary64)]. Qed.

#[export] Instance rounded_computed whole `{!Whole whole} : Computed1 (λ f, rounded f whole).
Proof. split; intros; [by apply rounded_valid|by apply (narrow_rounded f binary64)]. Qed.

Section float_lanes.
Context `{!Half, !HalfLaws}.

(** Rounding a double to a lane is the conversion to its format. *)
Lemma round_lane_holds d f v :
  lane_of d f → valid binary64 (decode binary64 v) →
  holds_float f (round_lane d v) (convert binary64 f (decode binary64 v)).
Proof using All.
  intros Hd Hv. pose proof (lane_wf d f Hd).
  pose proof (λ H : valid binary64 (decode binary64 v), convert_valid binary64 f (decode binary64 v) H) as Hc.
  destruct Hd; (split; [by apply Hc|]); cbn [round_lane].
  - unfold round_f16. set (x := decode binary64 v) in *.
    assert (decode binary16 (f16_from_f64 v) = convert binary64 binary16 x) as Hfrom.
    { subst x. destruct (decode binary64 v) as [|s|s c] eqn:Hx.
      - rewrite f16_from_f64_special by (rewrite Hx; done). by rewrite Hx.
      - rewrite f16_from_f64_special by (rewrite Hx; done). by rewrite Hx.
      - rewrite (f16_from_f64_rounds _ s c) by done. by apply (decode_encode binary16), (convert_valid binary64 binary16). }
    destruct (convert binary64 binary16 x) as [|s|s c] eqn:Hx.
    + rewrite f16_to_f64_special by (rewrite Hfrom; done). by rewrite Hfrom.
    + rewrite f16_to_f64_special by (rewrite Hfrom; done). by rewrite Hfrom.
    + rewrite (f16_to_f64_exact _ s c) by done. apply (decode_encode binary64), (convert_valid binary16 binary64).
      by apply Hc.
  - unfold f32_to_f64, f64_as_f32.
    rewrite (decode_encode binary32) by (by apply Hc).
    apply (decode_encode binary64), (convert_valid binary32 binary64). by apply Hc.
  - by rewrite !(convert_same binary64) by (rewrite ?(convert_same binary64); done).
Qed.

Lemma holds_valid f bits x : Wf f → holds_float f bits x → valid binary64 (decode binary64 bits).
Proof. intros Hf [Hx ->]. by apply convert_valid. Qed.

Lemma computed2_lane d f op x y :
  lane_of d f → Computed2 op → valid f x → valid f y →
  convert binary64 f (op binary64 (convert f binary64 x) (convert f binary64 y)) = op f x y.
Proof.
  intros Hd Hop Hx Hy. destruct Hd; [by apply computed2_narrow..|].
  rewrite (convert_same binary64 x), (convert_same binary64 y) by done.
  apply (convert_same binary64). by apply computed2_valid.
Qed.

Lemma computed1_lane d f op x :
  lane_of d f → Computed1 op → valid f x →
  convert binary64 f (op binary64 (convert f binary64 x)) = op f x.
Proof.
  intros Hd Hop Hx. destruct Hd; [by apply computed1_narrow..|].
  rewrite (convert_same binary64 x) by done. apply (convert_same binary64). by apply computed1_valid.
Qed.

(** An operation at double precision, rounded to the lane. *)
Lemma round_binary op `{!Computed2 op} d f a b x y :
  lane_of d f → holds_float f a x → holds_float f b y →
  holds_float f (round_lane d (f64_binary (op binary64) a b)) (op f x y).
Proof using All.
  intros Hd [Hx Ha] [Hy Hb]. pose proof (lane_wf d f Hd).
  assert (decode binary64 (f64_binary (op binary64) a b) = op binary64 (convert f binary64 x) (convert f binary64 y)) as Hdec.
  { unfold f64_binary. rewrite Ha, Hb. apply (decode_encode binary64), computed2_valid; [done|by apply convert_valid..]. }
  rewrite <- (computed2_lane d f op x y) by done. rewrite <- Hdec.
  apply round_lane_holds; [done|]. rewrite Hdec. apply computed2_valid; [apply _|by apply convert_valid..].
Qed.

Lemma round_unary op `{!Computed1 op} d f a x :
  lane_of d f → holds_float f a x →
  holds_float f (round_lane d (f64_unary (op binary64) a)) (op f x).
Proof using All.
  intros Hd [Hx Ha]. pose proof (lane_wf d f Hd).
  assert (decode binary64 (f64_unary (op binary64) a) = op binary64 (convert f binary64 x)) as Hdec.
  { unfold f64_unary. rewrite Ha. apply (decode_encode binary64), computed1_valid; [apply _|by apply convert_valid]. }
  rewrite <- (computed1_lane d f op x) by done. rewrite <- Hdec.
  apply round_lane_holds; [done|]. rewrite Hdec. apply computed1_valid; [apply _|by apply convert_valid].
Qed.

(** The operator of a format behind an infix operator, and the whole-number
    operation behind a [pop] operation. *)
Definition float_op (op : InfixOp) (f : format) (x y : float) : option float :=
  match op with
  | Add => Some (add f x y)
  | Sub => Some (sub f x y)
  | Mul => Some (mul f x y)
  | Div => Some (div f x y)
  | FloorDiv => Some (floor f (div f x y))
  | _ => None
  end.

Definition whole_op (op : PopOp) : option (Q → Z) :=
  match op with
  | PopRound => Some nearest_even
  | PopFloor => Some Qfloor
  | PopCeil => Some Qceiling
  | PopTrunc => Some toward_zero
  | _ => None
  end.

(** C17: narrow float lanes compute IEEE arithmetic.  A lane of [float16],
    [float32] or [float64] is computed as a double and rounded to its dtype;
    the result is what the operation of the dtype's own format gives: the
    exact result rounded once, to nearest with ties to even, with the
    format's infinities, signs of zero and NaNs.  So it is for the infix
    operators, floor division being the floor of the rounded quotient, and for
    the division, the remainder and the roundings to whole numbers of [pop]. *)
Theorem float_lane_ieee d f a b x y :
  lane_format d = Some f → holds_float f a x → holds_float f b y →
  (∀ op, match float_op op f x y with
         | Some z => ∃ r, float_lane_binop op d a b = Some r ∧ holds_float f r z
         | None => float_lane_binop op d a b = None
         end) ∧
  (∃ r, pop_float_lane PopDiv d [a; b] = Some r ∧ holds_float f r (div f x y)) ∧
  (∃ r, pop_float_lane PopRem d [a; b] = Some r ∧ holds_float f r (rem f x y)) ∧
  (∀ op whole, whole_op op = Some whole →
     ∃ r, pop_float_lane op d [a] = Some r ∧ holds_float f r (rounded f whole x)).
Proof using All.
  intros Hd%lane_format_of Ha Hb. split_and!.
  - intros op. destruct op; try done; cbn [float_op];
      (eexists; split; [reflexivity|]); [by apply (round_binary add)|by apply (round_binary sub)
      |by apply (round_binary mul)|by apply (round_binary div)|].
    apply (round_unary (λ f, rounded f Qfloor)); [done|by apply (round_binary div)].
  - eexists. split; [reflexivity|]. by apply (round_binary div).
  - eexists. split; [reflexivity|]. by apply (round_binary rem).
  - intros op whole Hw. destruct op; try done; injection Hw as <-; (eexists; split; [reflexivity|]);
      by apply (round_unary (λ f, rounded f _)); try apply _.
Qed.
End float_lanes.

(** One divided by three, as [float32] lanes. *)
Example third : float_lane_binop Div DFloat32 0x3ff0000000000000 0x4008000000000000 = Some 0x3fd5555560000000.
Proof. by vm_compute. Qed.

Lemma float_lane_ieee_witness :
  ∃ r, float_lane_binop Div DFloat32 0x3ff0000000000000 0x4008000000000000 = Some r ∧
    holds_float binary32 r (div binary32 (Finite false 0x3f800000) (Finite false 0x40400000)).
Proof.
  assert (holds_float binary32 0x3ff0000000000000 (Finite false 0x3f800000)) as Ha
    by (split; [split; [by vm_compute|by vm_compute]|by vm_compute]).
  assert (holds_float binary32 0x4008000000000000 (Finite false 0x40400000)) as Hb
    by (split; [split; [by vm_compute|by vm_compute]|by vm_compute]).
  exact (proj1 (float_lane_ieee DFloat32 binary32 _ _ _ _ eq_refl Ha Hb) Div).
Defined.
