(* ===== verification/Values.v ===== *)
(** * Values: the values of the virtual machine and their operations

    [mojito-vm/src/runtime.rs]: the value type, the infix and prefix operators
    on scalars and on vectors, casts, lane reads and writes, bit casts,
    equality, membership and the numeric built-ins.

    A message of an error is a constructor with the operands its text names;
    the text is not modelled.  Semantic types and attributes, which a few
    values carry and nothing here inspects, are parameters. *)

From S2P Require Import Prelude Literal Ieee NarrowFloat Dtypes FloatOps Lanes.
Local Open Scope Z_scope.

Class ValueTypes := {
  Ty : Type;
  Ty_eq_dec :: EqDecision Ty;
  Attribute : Type;
  Attribute_eq_dec :: EqDecision Attribute;
}.

(** ** Data *)

Inductive RefProjection : Type :=
| PField (name : string) | PIndex (n : nat) | PDeref | PVariant (n : nat) | PUninitPayload.

#[export] Instance RefProjection_eq_dec : EqDecision RefProjection.
Proof. solve_decision. Defined.

(** Integer lanes hold the wrapped mathematical value; a float lane is the bits
    of a double. *)
Inductive SimdLanes : Type := IntLanes (v : list Z) | FloatLanes (v : list Z) | BoolLanes (v : list bool).

Definition width (l : SimdLanes) : nat :=
  match l with IntLanes v => length v | FloatLanes v => length v | BoolLanes v => length v end.

Section values.
Context {VT : ValueTypes}.

Inductive Value : Type :=
| VInt (n : Z)
| VUInt (n : Z)
| VFloat64 (bits : Z)
| VBool (b : bool)
| VStr (s : string)
| VNone
| VFunction (symbol : string)
| VClosure (function : string) (captures : list Value)
| VStruct (name : string) (fields : list (string * Value))
| VSimd (dtype : Dtype) (lanes : SimdLanes)
| VDtype (dtype : Dtype)
| VAttribute (a : Attribute)
| VError (message : string)
| VComptimeList (items : list Value)
| VTuple (items : list Value)
| VVariant (alternatives : list Ty) (index : nat) (value : Value)
| VPointer (allocation offset : Z)
| VRef (frame : Z) (slot : nat) (projection : list RefProjection)
| VMoved
| VUninitStorage (payload : option Value).

(** The texts of [TypeError], by the operands they name. *)
Inductive Message : Type :=
| CannotCompare (a b : Value)
| CannotBitcast (v : Value) | BitcastWidths (lanes : nat) (dtype : Dtype) (width : nat) (target : Dtype)
| UnaryPos (v : Value) | CannotNegate (v : Value) | NotNeedsBool (v : Value) | CannotInvert (v : Value)
| CannotNegateMask
| NotDefined (op : InfixOp) (l r : Value)
| IndexMustBeInt (v : Value)
| InNeedsString (v : Value) | InNeedsCollection (v : Value)
| MinMaxNeedNumbers (a b : Value)
| ConvertNeedsNumber (target : ScalarConversion) (v : Value)
| ConvertNotScalar (target : ScalarConversion)
| RoundNeedsInteger (method : string) (v : Value)
| ErrorNeedsString (v : Value)
| IndexOutOfRange (what : string) (idx : Z) (len : nat)
| AbsNeedsNumber (v : Value)
| NeedsSimdOperand
| DivisionByZero
| InvalidInteger (op : InfixOp) | InvalidUnsigned (op : InfixOp) | InvalidFloat (op : InfixOp)
| NotInteger (v : Value) | NotFloat (v : Value) | NotBool (v : Value)
| CannotCast (v : Value)
| CannotShuffle (v : Value) | JoinKinds | ShuffleRange (lane : nat) (width : nat)
| SelectNeedsCondition | SelectNeedsMask | SelectNeedsSimd
| ReduceNeedsLanes (op : SimdReduction)
| PopMismatch (op : PopOp).

Inductive RuntimeError : Type :=
| TypeError (m : Message)
| NotACompileTimeValue (lane : Z) (target : Dtype).

Notation result := (outcome RuntimeError).
Definition type_error {A} (m : Message) : result A := Err (TypeError m).

(** ** Equality *)

(** [a == b] on [f64]. *)
Definition f64_eq (a b : Z) : bool := is_order (f64_partial_cmp a b) Eq.

Fixpoint list_eqb {A} (eqb : A → A → bool) (l r : list A) : bool :=
  match l, r with
  | [], [] => true
  | x :: l, y :: r => eqb x y && list_eqb eqb l r
  | _, _ => false
  end.

Definition lanes_eq (a b : SimdLanes) : bool :=
  match a, b with
  | IntLanes a, IntLanes b => bool_decide (a = b)
  | FloatLanes a, FloatLanes b => list_eqb f64_eq a b
  | BoolLanes a, BoolLanes b => bool_decide (a = b)
  | _, _ => false
  end.

(** [PartialEq] of [Value]. *)
Fixpoint value_eq (a b : Value) : bool :=
  match a, b with
  | VInt a, VInt b | VUInt a, VUInt b => a =? b
  | VFloat64 a, VFloat64 b => f64_eq a b
  | VBool a, VBool b => Bool.eqb a b
  | VDtype a, VDtype b => bool_decide (a = b)
  | VAttribute a, VAttribute b => bool_decide (a = b)
  | VStr a, VStr b => String.eqb a b
  | VPointer aa ao, VPointer ba bo => (aa =? ba) && (ao =? bo)
  | VNone, VNone => true
  | VStruct n1 f1, VStruct n2 f2 =>
      String.eqb n1 n2 &&
      (fix go (f1 f2 : list (string * Value)) : bool :=
         match f1, f2 with
         | [], [] => true
         | (k1, v1) :: f1, (k2, v2) :: f2 => String.eqb k1 k2 && value_eq v1 v2 && go f1 f2
         | _, _ => false
         end) f1 f2
  | VSimd d1 l1, VSimd d2 l2 => bool_decide (d1 = d2) && lanes_eq l1 l2
  | VError a, VError b => String.eqb a b
  | VComptimeList a, VComptimeList b | VTuple a, VTuple b =>
      (fix go (a b : list Value) : bool :=
         match a, b with
         | [], [] => true
         | x :: a, y :: b => value_eq x y && go a b
         | _, _ => false
         end) a b
  | VVariant aa ai av, VVariant ba bi bv => bool_decide (aa = ba) && (ai =? bi)%nat && value_eq av bv
  | VRef af as_ ap, VRef bf bs bp => (af =? bf) && (as_ =? bs)%nat && bool_decide (ap = bp)
  | VUninitStorage a, VUninitStorage b =>
      match a, b with None, None => true | Some a, Some b => value_eq a b | _, _ => false end
  | _, _ => false
  end.

(** *** Numbers *)

Inductive Num : Type := I (n : Z) | U (n : Z) | F (bits : Z).

Definition rank (x : Num) : Z := match x with I _ => 0 | U _ => 1 | F _ => 2 end.
Definition as_i64 (x : Num) : Z := match x with I n => n | U n => to_signed 64 n | F x => f64_to_i64 x end.
Definition as_u64 (x : Num) : Z := match x with I n => to_unsigned 64 n | U n => n | F x => f64_to_u64 x end.
Definition as_f64 (x : Num) : Z := match x with I n | U n => f64_of_integer n | F x => x end.

Definition as_num (v : Value) : option Num :=
  match v with
  | VInt n => Some (I n)
  | VUInt n => Some (U n)
  | VFloat64 x => Some (F x)
  | _ => None
  end.
End values.
Arguments Value : clear implicits.
Arguments Value {_}.
Notation result := (outcome RuntimeError).

Section operations.
Context {VT : ValueTypes} {B R : Type}.
Context `{!BigInt B, !BigRational B R, !RationalFloats R, !Half}.

(** *** Exact numbers *)

Inductive ExactNum : Type := ExactInt (n : IntLiteral B) | ExactFloat (x : FloatLiteral R).

Definition into_float (x : ExactNum) : FloatLiteral R :=
  match x with ExactInt n => from_int n | ExactFloat x => x end.

(** [left.cmp(right)] on literals. *)
Definition compare (x y : ExactNum) : comparison :=
  match x, y with
  | ExactInt a, ExactInt b => bi_compare a.(int_value) b.(int_value)
  | _, _ => numeric_cmp (B:=B) (into_float x) (into_float y)
  end.

Definition compare_by (op : InfixOp) (x y : ExactNum) : option bool :=
  let order := compare x y in
  match op with
  | Lt_ => Some (bool_decide (order = Lt))
  | Le => Some (bool_decide (order ≠ Gt))
  | Gt_ => Some (bool_decide (order = Gt))
  | Ge => Some (bool_decide (order ≠ Lt))
  | Eq_ => Some (bool_decide (order = Eq))
  | Ne => Some (bool_decide (order ≠ Eq))
  | _ => None
  end.

Definition truncated (x : ExactNum) : ExactNum :=
  match x with ExactInt n => ExactInt n | ExactFloat x => ExactInt (trunc_to_int x) end.

Definition is_nonzero (x : ExactNum) : bool :=
  match x with ExactInt n => negb (int_is_zero n) | ExactFloat x => negb (float_is_zero (B:=B) x) end.

Definition as_finite_numeric (v : Value) : option ExactNum :=
  match v with
  | VInt n | VUInt n => Some (ExactInt (mkInt (bi_from n)))
  | VFloat64 x => ExactFloat <$> literal_from_f64 x
  | _ => None
  end.

(** [==] between values: numbers by value, [Err] for values that do not
    compare. *)
Fixpoint values_equal (a b : Value) : result bool :=
  match as_finite_numeric a, as_finite_numeric b with
  | Some x, Some y => Ok (bool_decide (compare x y = Eq))
  | _, _ =>
      match as_num a, as_num b with
      | Some x, Some y =>
          Ok match Z.max (rank x) (rank y) with
             | 2 => f64_eq (as_f64 x) (as_f64 y)
             | 1 => as_u64 x =? as_u64 y
             | _ => as_i64 x =? as_i64 y
             end
      | _, _ =>
          match a, b with
          | VInt x, VInt y | VUInt x, VUInt y => Ok (x =? y)
          | VFloat64 x, VFloat64 y => Ok (f64_eq x y)
          | VBool x, VBool y => Ok (Bool.eqb x y)
          | VDtype x, VDtype y => Ok (bool_decide (x = y))
          | VStr x, VStr y => Ok (String.eqb x y)
          | VNone, VNone => Ok true
          | VVariant aa ai av, VVariant ba bi bv =>
              if decide (aa = ba) then (if (ai =? bi)%nat then values_equal av bv else Ok false)
              else type_error (CannotCompare a b)
          | VTuple xs, VTuple ys | VComptimeList xs, VComptimeList ys =>
              if negb (length xs =? length ys)%nat then Ok false
              else
                (fix go (xs ys : list Value) : result bool :=
                   match xs, ys with
                   | x :: xs, y :: ys =>
                       match values_equal x y with
                       | Ok true => go xs ys
                       | Ok false | Err _ => Ok false
                       | Panic => Panic
                       | Diverge => Diverge
                       end
                   | _, _ => Ok true
                   end) xs ys
          | _, _ => type_error (CannotCompare a b)
          end
      end
  end.

Definition hash_leaf_value (v : Value) : Value :=
  match v with VDtype d => VSimd DUInt8 (IntLanes [Dtype_.code d]) | v => v end.

(** ** Lanes of a value *)

Definition host_scalar_parts (v : Value) : option (Dtype * SimdLanes) :=
  match v with
  | VInt n => Some (DInt, IntLanes [n])
  | VUInt n => Some (DUInt, IntLanes [n])
  | VFloat64 x => Some (DFloat64, FloatLanes [x])
  | VBool b => Some (DBool, BoolLanes [b])
  | _ => None
  end.

Definition simd_parts (v : Value) : option (Dtype * SimdLanes) :=
  match v with VSimd d lanes => Some (d, lanes) | v => host_scalar_parts v end.

(** A width-one [Int], [UInt], [Float64] or [Bool] is its host scalar. *)
Definition simd_value (d : Dtype) (lanes : SimdLanes) : Value :=
  match d, lanes with
  | DFloat64, FloatLanes [x] => VFloat64 x
  | DInt, IntLanes [n] => VInt (to_signed 64 n)
  | DUInt, IntLanes [n] => VUInt (to_unsigned 64 n)
  | DBool, BoolLanes [b] => VBool b
  | _, _ => VSimd d lanes
  end.

Definition simd_shape (v : Value) : option (Dtype * nat) :=
  match v with VSimd d lanes => Some (d, width lanes) | _ => None end.

Definition integer_dtype_bits (d : Dtype) : option (Z * bool) :=
  match d with
  | DInt | DInt64 => Some (64, true)
  | DInt8 => Some (8, true)
  | DInt16 => Some (16, true)
  | DInt32 => Some (32, true)
  | DUInt8 => Some (8, false)
  | DUInt16 => Some (16, false)
  | DUInt32 => Some (32, false)
  | DUInt | DUInt64 => Some (64, false)
  | DFloat16 | DFloat32 | DFloat64 | DBool => None
  end.

Definition value_to_int (v : Value) : result Z :=
  match v with
  | VInt n | VUInt n => Ok n
  | VBool b => Ok (Z.b2z b)
  | VSimd _ (IntLanes [n]) => Ok n
  | v => type_error (NotInteger v)
  end.

Definition value_to_int_lane (v : Value) (d : Dtype) : result Z := wrap_lane d <$> value_to_int v.

Definition value_to_float (v : Value) : result Z :=
  match v with
  | VInt n | VUInt n => Ok (f64_of_integer n)
  | VFloat64 x => Ok x
  | VSimd _ (FloatLanes [x]) => Ok x
  | VSimd _ (IntLanes [n]) => Ok (f64_of_integer n)
  | v => type_error (NotFloat v)
  end.

Definition value_to_float_lane (v : Value) (d : Dtype) : result Z := round_lane d <$> value_to_float v.

Definition value_to_bool_lane (v : Value) : result bool :=
  match v with
  | VBool b => Ok b
  | VSimd _ (BoolLanes [b]) => Ok b
  | v => type_error (NotBool v)
  end.

(** [vec![x?; n]]. *)
Definition splat {A} (n : nat) (x : result A) : result (list A) := replicate n <$> x.

Definition to_int_lanes (v : Value) (d : Dtype) (n : nat) : result (list Z) :=
  match v with
  | VSimd _ (IntLanes l) => if (length l =? n)%nat then Ok l else splat n (value_to_int_lane v d)
  | _ => splat n (value_to_int_lane v d)
  end.

Definition to_float_lanes (v : Value) (d : Dtype) (n : nat) : result (list Z) :=
  match v with
  | VSimd _ (FloatLanes l) => if (length l =? n)%nat then Ok l else splat n (value_to_float_lane v d)
  | _ => splat n (value_to_float_lane v d)
  end.

Definition to_bool_lanes (v : Value) (n : nat) : result (list bool) :=
  match v with
  | VSimd _ (BoolLanes l) => if (length l =? n)%nat then Ok l else splat n (value_to_bool_lane v)
  | _ => splat n (value_to_bool_lane v)
  end.

Definition bounds_check (idx : Z) (len : nat) (what : string) : result nat :=
  if (idx <? 0) || (Z.of_nat len <=? idx) then type_error (IndexOutOfRange what idx len)
  else Ok (Z.to_nat idx).

(** [v[i]], which panics out of range. *)
Definition index {A} (v : list A) (i : nat) : result A := unwrap (v !! i).

Definition read_simd_lane (d : Dtype) (lanes : SimdLanes) (i : Z) : result Value :=
  idx ← bounds_check i (width lanes) "SIMD lane";
  lane ← match lanes with
    | IntLanes v => IntLanes ∘ (λ x, [x]) <$> index v idx
    | FloatLanes v => FloatLanes ∘ (λ x, [x]) <$> index v idx
    | BoolLanes v => BoolLanes ∘ (λ x, [x]) <$> index v idx
    end;
  Ok (simd_value d lane).

Definition set_simd_lane (d : Dtype) (lanes : SimdLanes) (i : Z) (v : Value) : result SimdLanes :=
  idx ← bounds_check i (width lanes) "SIMD lane";
  match lanes with
  | IntLanes l => x ← value_to_int_lane v d; IntLanes <$> set_at idx x l
  | FloatLanes l => x ← value_to_float_lane v d; FloatLanes <$> set_at idx x l
  | BoolLanes l => x ← value_to_bool_lane v; BoolLanes <$> set_at idx x l
  end.

(** [None] when the value is no vector. *)
Definition read_value_lane (v : Value) (i : Z) : option (result Value) :=
  match v with
  | VSimd d lanes => Some (read_simd_lane d lanes i)
  | v => '(d, lanes) ← host_scalar_parts v; Some (read_simd_lane d lanes i)
  end.

Definition set_value_lane (target : Value) (i : Z) (v : Value) : option (result Value) :=
  match target with
  | VSimd d lanes => Some (VSimd d <$> set_simd_lane d lanes i v)
  | _ => '(d, lanes) ← host_scalar_parts target; Some (simd_value d <$> set_simd_lane d lanes i v)
  end.

(** [values[if len == 1 { 0 } else { i }]] for each lane. *)
Fixpoint collect {A B'} (f : A → result B') (l : list A) : result (list B') :=
  match l with
  | [] => Ok []
  | x :: l => y ← f x; ys ← collect f l; Ok (y :: ys)
  end.

Definition pick (values : list Value) (i : nat) : result Value :=
  index values (if (length values =? 1)%nat then 0%nat else i).

Definition simd_from_values (d : Dtype) (n : nat) (values : list Value) : result Value :=
  let each {A} (lane : Value → result A) := collect (λ i, v ← pick values i; lane v) (seq 0 n) in
  lanes ← if decide (d = DBool) then BoolLanes <$> each value_to_bool_lane
          else if Dtype_.is_float d then FloatLanes <$> each (λ v, value_to_float_lane v d)
          else IntLanes <$> each (λ v, value_to_int_lane v d);
  Ok (simd_value d lanes).

(** ** Scalar operators *)

Definition nonzero (y : Z) : result Z := if y =? 0 then type_error DivisionByZero else Ok y.
Definition nonzero_u (y : Z) : result Z := if y =? 0 then type_error DivisionByZero else Ok y.

(** An [i64] operation that wraps, and one that panics on overflow. *)
Definition i64_wrapping (z : Z) : Z := to_signed 64 z.
Definition i64_checked (z : Z) : result Z := if decide (in_signed 64 z) then Ok z else Panic.

Definition floor_div (x y : Z) : result Z :=
  let q := i64_wrapping (Z.quot x y) in
  let r := i64_wrapping (Z.rem x y) in
  if negb (r =? 0) && negb (Bool.eqb (r <? 0) (y <? 0)) then i64_checked (q - 1) else Ok q.

Definition floor_mod (x y : Z) : result Z :=
  let r := i64_wrapping (Z.rem x y) in
  if negb (r =? 0) && negb (Bool.eqb (r <? 0) (y <? 0)) then i64_checked (r + y) else Ok r.

(** [x.wrapping_shl(y as u32)] on 64 bits masks the amount. *)
Definition wrapping_amount (y : Z) : Z := Z.land (to_unsigned 32 y) 63.

Definition int_op (op : InfixOp) (x y : Z) : result Value :=
  match op with
  | Add => Ok (VInt (i64_wrapping (x + y)))
  | Sub => Ok (VInt (i64_wrapping (x - y)))
  | Mul => Ok (VInt (i64_wrapping (x * y)))
  | Div => y ← nonzero y; Ok (VInt (i64_wrapping (Z.quot x y)))
  | FloorDiv => y ← nonzero y; VInt <$> floor_div x y
  | Mod => y ← nonzero y; VInt <$> floor_mod x y
  | Shl => Ok (VInt (i64_wrapping (Z.shiftl x (wrapping_amount y))))
  | Shr => Ok (VInt (Z.shiftr x (wrapping_amount y)))
  | BitAnd => Ok (VInt (Z.land x y))
  | BitOr => Ok (VInt (Z.lor x y))
  | BitXor => Ok (VInt (Z.lxor x y))
  | Lt_ => Ok (VBool (x <? y))
  | Gt_ => Ok (VBool (y <? x))
  | Le => Ok (VBool (x <=? y))
  | Ge => Ok (VBool (y <=? x))
  | Eq_ => Ok (VBool (x =? y))
  | Ne => Ok (VBool (negb (x =? y)))
  | Pow | MatMul | And | Or | In_ | NotIn | Is | IsNot => type_error (InvalidInteger op)
  end.

Definition u64_wrapping (z : Z) : Z := to_unsigned 64 z.

Definition uint_op (op : InfixOp) (x y : Z) : result Value :=
  match op with
  | Add => Ok (VUInt (u64_wrapping (x + y)))
  | Sub => Ok (VUInt (u64_wrapping (x - y)))
  | Mul => Ok (VUInt (u64_wrapping (x * y)))
  | Div | FloorDiv => y ← nonzero_u y; Ok (VUInt (x / y))
  | Mod => y ← nonzero_u y; Ok (VUInt (x mod y))
  | Shl => Ok (VUInt (u64_wrapping (Z.shiftl x (wrapping_amount y))))
  | Shr => Ok (VUInt (Z.shiftr x (wrapping_amount y)))
  | BitAnd => Ok (VUInt (Z.land x y))
  | BitOr => Ok (VUInt (Z.lor x y))
  | BitXor => Ok (VUInt (Z.lxor x y))
  | Lt_ => Ok (VBool (x <? y))
  | Gt_ => Ok (VBool (y <? x))
  | Le => Ok (VBool (x <=? y))
  | Ge => Ok (VBool (y <=? x))
  | Eq_ => Ok (VBool (x =? y))
  | Ne => Ok (VBool (negb (x =? y)))
  | Pow | MatMul | And | Or | In_ | NotIn | Is | IsNot => type_error (InvalidUnsigned op)
  end.

(** Ordered comparisons of [f64]. *)
Definition f64_le (a b : Z) : bool := f64_lt a b || f64_eq a b.

Definition float_op (op : InfixOp) (x y : Z) : result Value :=
  match op with
  | Add => Ok (VFloat64 (f64_add x y))
  | Sub => Ok (VFloat64 (f64_sub x y))
  | Mul => Ok (VFloat64 (f64_mul x y))
  | Div => Ok (VFloat64 (f64_div x y))
  | FloorDiv => Ok (VFloat64 (f64_floor (f64_div x y)))
  | Mod => Ok (VFloat64 (f64_mul_add y (f64_neg (f64_floor (f64_div x y))) x))
  | Lt_ => Ok (VBool (f64_lt x y))
  | Gt_ => Ok (VBool (f64_lt y x))
  | Le => Ok (VBool (f64_le x y))
  | Ge => Ok (VBool (f64_le y x))
  | Eq_ => Ok (VBool (f64_eq x y))
  | Ne => Ok (VBool (negb (f64_eq x y)))
  | Pow | MatMul | Shl | Shr | BitAnd | BitOr | BitXor | And | Or | In_ | NotIn | Is | IsNot =>
      type_error (InvalidFloat op)
  end.

Definition numeric_op (op : InfixOp) (a b : Num) : result Value :=
  match Z.max (rank a) (rank b) with
  | 2 => float_op op (as_f64 a) (as_f64 b)
  | 1 => uint_op op (as_u64 a) (as_u64 b)
  | _ => int_op op (as_i64 a) (as_i64 b)
  end.

(** ** Vector operators *)

Definition is_cmp (op : InfixOp) : bool :=
  match op with Eq_ | Ne | Lt_ | Gt_ | Le | Ge => true | _ => false end.

(** [unwrap_or] of a lane rule. *)
Definition int_lane_or_zero (op : InfixOp) (d : Dtype) (a b : Z) : result Z :=
  match int_lane_binop op d a b with
  | Ok lane => Ok lane
  | Err _ => Ok 0
  | Panic => Panic
  | Diverge => Diverge
  end.

Definition simd_binop (op : InfixOp) (l r : Value) : result Value :=
  '(d, n) ← match simd_shape l, simd_shape r with
    | Some (d, ln), Some (_, rn) => Ok (d, (ln `max` rn)%nat)
    | Some shape, None | None, Some shape => Ok shape
    | None, None => type_error NeedsSimdOperand
    end;
  if decide (d = DBool) then
    xs ← to_bool_lanes l n;
    ys ← to_bool_lanes r n;
    Ok (VSimd DBool (BoolLanes (zip_with (λ a b, default false (bool_lane_binop op a b)) xs ys)))
  else if Dtype_.is_float d then
    xs ← to_float_lanes l d n;
    ys ← to_float_lanes r d n;
    if is_cmp op then
      Ok (VSimd DBool (BoolLanes (zip_with (λ a b, default false (lane_compare f64_partial_cmp op a b)) xs ys)))
    else Ok (VSimd d (FloatLanes (zip_with (λ a b, default 0 (float_lane_binop op d a b)) xs ys)))
  else
    xs ← to_int_lanes l d n;
    ys ← to_int_lanes r d n;
    if is_cmp op then
      Ok (VSimd DBool (BoolLanes (zip_with (λ a b, default false (lane_compare int_cmp op a b)) xs ys)))
    else if bool_decide (op = Div) && contains 0 ys then type_error DivisionByZero
    else out ← collect (λ '(a, b), int_lane_or_zero op d a b) (zip xs ys); Ok (VSimd d (IntLanes out)).

(** [s.contains(sub)]. *)
Fixpoint str_starts (prefix s : string) : bool :=
  match prefix, s with
  | EmptyString, _ => true
  | String c prefix, String d s => Ascii.eqb c d && str_starts prefix s
  | _, _ => false
  end.

Fixpoint str_contains (s sub : string) : bool :=
  str_starts sub s || match s with EmptyString => false | String _ s => str_contains s sub end.

Definition coerce_like (new existing : Value) : Value :=
  match existing, new with
  | VUInt _, VInt n => VUInt (to_unsigned 64 n)
  | VFloat64 _, VInt n | VFloat64 _, VUInt n => VFloat64 (f64_of_integer n)
  | _, new => new
  end.

(** [values_equal(..).unwrap_or(false)] over the items, the first found
    ending the search. *)
Fixpoint any_equal (items : list Value) (target : Value) : result bool :=
  match items with
  | [] => Ok false
  | item :: items =>
      match values_equal item target with
      | Ok true => Ok true
      | Ok false | Err _ => any_equal items target
      | Panic => Panic
      | Diverge => Diverge
      end
  end.

Definition eval_membership (op : InfixOp) (l r : Value) : result Value :=
  found ← match r with
    | VComptimeList items =>
        any_equal items (match items with [] => l | f :: _ => coerce_like l f end)
    | VTuple items => any_equal items l
    | VStr s => match l with VStr sub => Ok (str_contains s sub) | other => type_error (InNeedsString other) end
    | other => type_error (InNeedsCollection other)
    end;
  Ok (VBool (if decide (op = NotIn) then negb found else found)).

(** [matches!(v, Value::Simd { .. })]. *)
Definition is_simd (v : Value) : bool := match v with VSimd _ _ => true | _ => false end.

Definition apply_infix (op : InfixOp) (l r : Value) : result Value :=
  if bool_decide (op = In_) || bool_decide (op = NotIn) then eval_membership op l r
  else if is_simd l || is_simd r then simd_binop op l r
  else
    match op, l, r with
    | Add, VStr a, VStr b => Ok (VStr (a ++ b))
    | _, _, _ =>
        match as_num l, as_num r with
        | Some a, Some b => numeric_op op a b
        | _, _ =>
            match op, l, r with
            | Eq_, _, _ => VBool <$> values_equal l r
            | Ne, _, _ => VBool ∘ negb <$> values_equal l r
            | Lt_, VBool a, VBool b => Ok (VBool (negb a && b))
            | Le, VBool a, VBool b => Ok (VBool (negb a || b))
            | Gt_, VBool a, VBool b => Ok (VBool (a && negb b))
            | Ge, VBool a, VBool b => Ok (VBool (a || negb b))
            | BitAnd, VBool a, VBool b => Ok (VBool (a && b))
            | BitOr, VBool a, VBool b => Ok (VBool (a || b))
            | BitXor, VBool a, VBool b => Ok (VBool (xorb a b))
            | _, _, _ => type_error (NotDefined op l r)
            end
        end
    end.

Definition apply_prefix (op : PrefixOp) (v : Value) : result Value :=
  match op, v with
  | PrefixNeg, VInt n => Ok (VInt (i64_wrapping (- n)))
  | PrefixNeg, VFloat64 x => Ok (VFloat64 (f64_neg x))
  | PrefixNot, VBool b => Ok (VBool (negb b))
  | PrefixNot, VSimd DBool (BoolLanes [b]) => Ok (VBool (negb b))
  | PrefixInvert, VBool b => Ok (VBool (negb b))
  | PrefixInvert, VSimd d (BoolLanes l) => Ok (simd_value d (BoolLanes (negb <$> l)))
  | PrefixNeg, VSimd d (IntLanes l) =>
      Ok (simd_value d (IntLanes ((λ x, wrap_lane d (i128_wrapping (- x))) <$> l)))
  | PrefixNeg, VSimd d (FloatLanes l) => Ok (simd_value d (FloatLanes (f64_neg <$> l)))
  | PrefixNeg, VSimd d (BoolLanes _) => type_error CannotNegateMask
  | PrefixPos, v => type_error (UnaryPos v)
  | PrefixNeg, v => type_error (CannotNegate v)
  | PrefixNot, v => type_error (NotNeedsBool v)
  | PrefixInvert, v => type_error (CannotInvert v)
  end.

(** ** Casts *)

(** [lane.is_finite() && lane.trunc() >= low && lane.trunc() < high]. *)
Definition ctfe_fits (low high lane : Z) : bool :=
  f64_is_finite lane && f64_le low (f64_trunc lane) && f64_lt (f64_trunc lane) high.

Definition ctfe_float_to_int (target : Dtype) (v : Value) : result unit :=
  if negb (Dtype_.is_integral target) then Ok tt
  else
    match simd_parts v with
    | Some (_, FloatLanes lanes) =>
        let bits := Dtype_.bit_width target in
        let '(low, high) :=
          if Dtype_.is_signed target then (f64_neg (f64_powi2 (bits - 1)), f64_powi2 (bits - 1))
          else (0, f64_powi2 bits) in
        match find (λ lane, negb (ctfe_fits low high lane)) lanes with
        | Some lane => Err (NotACompileTimeValue lane target)
        | None => Ok tt
        end
    | _ => Ok tt
    end.

Definition simd_cast (target : Dtype) (v : Value) : result Value :=
  '(_, lanes) ← ok_or (TypeError (CannotCast v)) (simd_parts v);
  if decide (target = DBool) then
    let low_bits := match lanes with
      | IntLanes l => low_bit <$> l
      | FloatLanes l => (λ x, low_bit (f64_to_i128 (f64_trunc x))) <$> l
      | BoolLanes l => l
      end in
    Ok (simd_value target (BoolLanes low_bits))
  else
    let lanes := match lanes, Dtype_.is_float target with
      | IntLanes l, false => IntLanes (wrap_lane target <$> l)
      | IntLanes l, true => FloatLanes ((λ x, round_lane target (f64_of_integer x)) <$> l)
      | FloatLanes l, false => IntLanes ((λ x, wrap_lane target (f64_to_i128 (f64_trunc x))) <$> l)
      | FloatLanes l, true => FloatLanes (round_lane target <$> l)
      | BoolLanes l, false => IntLanes (Z.b2z <$> l)
      | BoolLanes l, true => FloatLanes ((λ x, f64_of_integer (Z.b2z x)) <$> l)
      end in
    Ok (simd_value target lanes).

(** The scalar conversion, by the compile-time lane rule. *)
Definition scalar_lane (v : Value) : option CtLane :=
  match v with
  | VInt n | VUInt n => Some (LInt n)
  | VFloat64 x => Some (LFloat x)
  | VBool b => Some (LBool b)
  | VSimd _ (IntLanes [n]) => Some (LInt n)
  | VSimd _ (FloatLanes [x]) => Some (LFloat x)
  | VSimd _ (BoolLanes [b]) => Some (LBool b)
  | _ => None
  end.

Definition builtin_convert (target : ScalarConversion) (v : Value) : result Value :=
  lane ← ok_or (TypeError (ConvertNeedsNumber target v)) (scalar_lane v);
  match convert_lane (T:=Ty) (B:=B) (R:=R) lane target with
  | CtInt n => Ok (VInt n)
  | CtUInt n => Ok (VUInt n)
  | CtFloat bits => Ok (VFloat64 bits)
  | CtBool b => Ok (VBool b)
  | _ => type_error (ConvertNotScalar target)
  end.

Definition scalar_lane_value (d : Dtype) (lane : CtLane) : Value :=
  simd_value d match lane with
    | LInt n => IntLanes [n]
    | LFloat bits => FloatLanes [bits]
    | LBool b => BoolLanes [b]
    end.

(** ** Bit casts *)

Definition low_bits (bits : Z) : Z := if 64 <=? bits then 2 ^ 64 - 1 else Z.shiftl 1 bits - 1.

(** The bits of each lane as a [u64]. *)
Definition raw_lanes (d : Dtype) (lanes : SimdLanes) : list Z :=
  match lanes with
  | IntLanes l => to_unsigned 64 <$> l
  | FloatLanes l =>
      (λ lane, match d with
               | DFloat16 => f16_bits lane
               | DFloat32 => f64_as_f32 lane
               | _ => lane
               end) <$> l
  | BoolLanes l => Z.b2z <$> l
  end.

(** [words[offset / 64] |= (lane & low_bits(width)) << (offset % 64)]. *)
Definition put_lane (source_bits : Z) (words : list Z) (i : nat) (lane : Z) : result (list Z) :=
  let offset := Z.of_nat i * source_bits in
  let at_ := Z.to_nat (offset / 64) in
  word ← index words at_;
  set_at at_ (Z.lor word (u64_wrapping (Z.shiftl (Z.land lane (low_bits source_bits)) (offset mod 64)))) words.

Fixpoint pack (source_bits : Z) (words : list Z) (i : nat) (raw : list Z) : result (list Z) :=
  match raw with
  | [] => Ok words
  | lane :: raw => words ← put_lane source_bits words i lane; pack source_bits words (S i) raw
  end.

Definition read_bits (target_bits : Z) (words : list Z) (i : nat) : result Z :=
  let offset := Z.of_nat i * target_bits in
  word ← index words (Z.to_nat (offset / 64));
  Ok (Z.land (Z.shiftr word (offset mod 64)) (low_bits target_bits)).

(** [((raw << shift) as i64) >> shift] for a signed lane. *)
Definition sign_extend (target_bits raw : Z) : Z :=
  Z.shiftr (to_signed 64 (u64_wrapping (Z.shiftl raw (64 - target_bits)))) (64 - target_bits).

Definition lanes_of_raw (target : Dtype) (raw : list Z) : SimdLanes :=
  match target with
  | DBool => BoolLanes ((λ bits, negb (bits =? 0)) <$> raw)
  | DFloat16 => FloatLanes ((λ bits, f16_from_bits (to_unsigned 16 bits)) <$> raw)
  | DFloat32 => FloatLanes ((λ bits, f32_to_f64 (to_unsigned 32 bits)) <$> raw)
  | DFloat64 => FloatLanes raw
  | _ =>
      let signed := match integer_dtype_bits target with Some (_, signed) => signed | None => false end in
      IntLanes ((λ bits, if signed then sign_extend (Dtype_.bit_width target) bits else bits) <$> raw)
  end.

Definition simd_bitcast (target : Dtype) (n : nat) (v : Value) : result Value :=
  '(d, lanes) ← match v with
    | VBool b => Ok (DBool, BoolLanes [b])
    | other => ok_or (TypeError (CannotBitcast other)) (simd_parts other)
    end;
  let source_bits := Dtype_.bit_width d in
  let target_bits := Dtype_.bit_width target in
  let raw := raw_lanes d lanes in
  if negb (Z.of_nat (length raw) * source_bits =? Z.of_nat n * target_bits) then
    type_error (BitcastWidths (length raw) d n target)
  else
    words ← pack source_bits (replicate (Z.to_nat ((Z.of_nat n * target_bits + 63) / 64)) 0) 0 raw;
    read ← collect (read_bits target_bits words) (seq 0 n);
    Ok (simd_value target (lanes_of_raw target read)).

(** ** Shuffles, selections and reductions *)

Definition simd_shuffle (v : Value) (other : option Value) (mask : list nat) : result Value :=
  let lanes_of v := ok_or (TypeError (CannotShuffle v)) (simd_parts v) in
  '(d, lanes) ← lanes_of v;
  lanes ← match other with
    | None => Ok lanes
    | Some other =>
        '(_, tail) ← lanes_of other;
        match lanes, tail with
        | IntLanes head, IntLanes tail => Ok (IntLanes (head ++ tail))
        | FloatLanes head, FloatLanes tail => Ok (FloatLanes (head ++ tail))
        | BoolLanes head, BoolLanes tail => Ok (BoolLanes (head ++ tail))
        | _, _ => type_error JoinKinds
        end
    end;
  let n := width lanes in
  match find (λ lane, n <=? lane)%nat mask with
  | Some bad => type_error (ShuffleRange bad n)
  | None =>
      gathered ← match lanes with
        | IntLanes l => IntLanes <$> collect (index l) mask
        | FloatLanes l => FloatLanes <$> collect (index l) mask
        | BoolLanes l => BoolLanes <$> collect (index l) mask
        end;
      Ok (simd_value d gathered)
  end.

Definition select (condition when_true when_false : Value) : result Value :=
  match simd_parts condition with
  | Some (_, BoolLanes [b]) => Ok (if b then when_true else when_false)
  | _ => type_error SelectNeedsCondition
  end.

(** [mask.iter().enumerate().map(|(i, m)| if *m { t[i] } else { f[i] })]. *)
Definition choose {A} (mask : list bool) (t f : list A) : result (list A) :=
  collect (λ '(i, m), index (if (m : bool) then t else f) i) (zip (seq 0 (length mask)) mask).

Definition simd_select (mask when_true when_false : Value) : result Value :=
  match simd_parts mask with
  | Some (_, BoolLanes mask) =>
      let n := length mask in
      '(d, _) ← ok_or (TypeError SelectNeedsSimd) (simd_parts when_true);
      lanes ← if decide (d = DBool) then
          t ← to_bool_lanes when_true n;
          f ← to_bool_lanes when_false n;
          BoolLanes <$> choose mask t f
        else if Dtype_.is_float d then
          t ← to_float_lanes when_true d n;
          f ← to_float_lanes when_false d n;
          FloatLanes <$> choose mask t f
        else
          t ← to_int_lanes when_true d n;
          f ← to_int_lanes when_false d n;
          IntLanes <$> choose mask t f;
      Ok (simd_value d lanes)
  | _ => type_error SelectNeedsMask
  end.

Definition simd_reduce_lanes (op : SimdReduction) (v : Value) : result Value :=
  match simd_parts v with
  | Some (d, BoolLanes lanes) => Ok (simd_value d (BoolLanes [reduce_bools op lanes]))
  | Some (d, IntLanes lanes) => Ok (simd_value d (IntLanes [reduce_ints op lanes]))
  | _ => type_error (ReduceNeedsLanes op)
  end.

(** ** The [pop] operations *)

Definition int_lanes (lanes : SimdLanes) : option (list Z) := match lanes with IntLanes v => Some v | _ => None end.
Definition float_lanes (lanes : SimdLanes) : option (list Z) := match lanes with FloatLanes v => Some v | _ => None end.
Definition bool_lanes (lanes : SimdLanes) : option (list bool) := match lanes with BoolLanes v => Some v | _ => None end.

(** Each lane computed over the operands' lanes at its index. *)
Definition zip_lanes {T} (parts : list (Dtype * SimdLanes)) (n : nat) (pick : SimdLanes → option (list T))
    (mismatch : RuntimeError) (lane : list T → result T) : result (list T) :=
  collect (λ i,
    operands ← ok_or mismatch (mapM (λ part : Dtype * SimdLanes, values ← pick part.2; values !! i) parts);
    lane operands) (seq 0 n).

Definition pop_op (op : PopOp) (operands : list Value) : result Value :=
  let mismatch := TypeError (PopMismatch op) in
  parts ← collect (λ operand, ok_or mismatch (simd_parts operand)) operands;
  '(d, n) ← match parts with
    | (d, lanes) :: _ => Ok (d, width lanes)
    | [] => Err mismatch
    end;
  if Dtype_.is_float d then
    lanes ← zip_lanes parts n float_lanes mismatch (λ lane, ok_or mismatch (pop_float_lane op d lane));
    Ok (simd_value d (FloatLanes lanes))
  else if decide (d = DBool) then
    lanes ← zip_lanes parts n bool_lanes mismatch (λ lane,
      match lane with [a; b] => ok_or mismatch (pop_bool_lane op a b) | _ => Err mismatch end);
    Ok (simd_value d (BoolLanes lanes))
  else if is_compare op then
    lanes ← zip_lanes parts n int_lanes mismatch (λ lane, ok_or mismatch (pop_int_lane op d lane));
    match lanes with [lane] => Ok (VBool (negb (lane =? 0))) | _ => Err mismatch end
  else
    lanes ← zip_lanes parts n int_lanes mismatch (λ lane, ok_or (TypeError DivisionByZero) (pop_int_lane op d lane));
    Ok (simd_value d (IntLanes lanes)).

(** ** Built-ins *)

Definition value_as_index (v : Value) : result Z :=
  match v with VInt n => Ok n | other => type_error (IndexMustBeInt other) end.

Definition builtin_min_max (is_min : bool) (a b : Value) : result Value :=
  match as_num a, as_num b with
  | Some na, Some nb =>
      Ok match Z.max (rank na) (rank nb) with
         | 2 => let x := as_f64 na in let y := as_f64 nb in VFloat64 (if Bool.eqb (f64_le x y) is_min then x else y)
         | 1 => let x := as_u64 na in let y := as_u64 nb in VUInt (if Bool.eqb (x <=? y) is_min then x else y)
         | _ => let x := as_i64 na in let y := as_i64 nb in VInt (if Bool.eqb (x <=? y) is_min then x else y)
         end
  | _, _ => type_error (MinMaxNeedNumbers a b)
  end.

Definition builtin_abs (v : Value) : result Value :=
  match v with
  | VInt n => Ok (VInt (i64_wrapping (Z.abs n)))
  | VFloat64 x => Ok (VFloat64 (f64_abs x))
  | VUInt n => Ok (VUInt n)
  | other => type_error (AbsNeedsNumber other)
  end.

Definition builtin_round_dir (method : string) (v : Value) : result Value :=
  match v with
  | VInt _ | VUInt _ => Ok v
  | other => type_error (RoundNeedsInteger method other)
  end.

Definition builtin_error (v : Value) : result Value :=
  match v with VStr s => Ok (VError s) | other => type_error (ErrorNeedsString other) end.

(** [((allocation as i64) << 32).wrapping_add(offset)], null at allocation
    zero. *)
Definition pointer_address (allocation offset : Z) : Z :=
  if allocation =? 0 then 0
  else i64_wrapping (i64_wrapping (Z.shiftl (to_signed 64 allocation) 32) + offset).
End operations.
Arguments ExactNum : clear implicits.

(** Types and attributes for closed examples. *)
Definition unit_types : ValueTypes := {| Ty := unit; Attribute := unit |}.
