(* ===== verification/ValueLaws.v ===== *)
(** * ValueLaws: what the value operations promise

    The machine holds a one-lane [Int], [UInt], [Float64] or [Bool] vector as a
    host scalar; the operators give the same either way
    ([scalars_are_vectors]).  Operators keep every lane in its dtype
    ([operators_typed]), a lane written is the lane read, and a bit cast keeps
    the bits. *)

From S2P Require Import Prelude Literal Ieee NarrowFloat Dtypes FloatOps Lanes.
From S2P Require Import DoubleRounding LaneLaws Values.
From Stdlib Require Import QArith.
Local Open Scope Z_scope.

(** ** Bitwise operations stay in range *)

Lemma in_unsigned_shift w z : 0 <= w → in_unsigned w z ↔ Z.shiftr z w = 0.
Proof.
  intros Hw. unfold in_unsigned. rewrite Z.shiftr_div_pow2 by done. pose proof (pow2_pos w Hw). split.
  - intros Hz. by apply Z.div_small.
  - intros Hz. apply Z.div_small_iff in Hz; lia.
Qed.

Lemma in_signed_shift w z : 0 < w → in_signed w z ↔ Z.shiftr z (w - 1) = 0 ∨ Z.shiftr z (w - 1) = -1.
Proof.
  intros Hw. unfold in_signed. rewrite Z.shiftr_div_pow2 by lia. pose proof (pow2_pos (w - 1) ltac:(lia)).
  pose proof (Z.div_mod z (2 ^ (w - 1)) ltac:(lia)). pose proof (Z.mod_pos_bound z (2 ^ (w - 1)) ltac:(lia)).
  split; [|nia]. intros Hz. assert (- 1 <= z / 2 ^ (w - 1) < 1); [|lia].
  split; [apply Z.div_le_lower_bound|apply Z.div_lt_upper_bound]; lia.
Qed.

(** A bitwise operation that keeps agreeing bits. *)
Class Bitwise (op : Z → Z → Z) : Prop := {
  bitwise_shift x y n : Z.shiftr (op x y) n = op (Z.shiftr x n) (Z.shiftr y n);
  bitwise_sign x y : (x = 0 ∨ x = -1) → (y = 0 ∨ y = -1) → op x y = 0 ∨ op x y = -1;
  bitwise_zero : op 0 0 = 0;
}.

#[export] Instance land_bitwise : Bitwise Z.land.
Proof. split; [apply Z.shiftr_land| |done]. intros x y [-> | ->] [-> | ->]; by (left + right). Qed.
#[export] Instance lor_bitwise : Bitwise Z.lor.
Proof. split; [apply Z.shiftr_lor| |done]. intros x y [-> | ->] [-> | ->]; by (left + right). Qed.
#[export] Instance lxor_bitwise : Bitwise Z.lxor.
Proof. split; [apply Z.shiftr_lxor| |done]. intros x y [-> | ->] [-> | ->]; by (left + right). Qed.

Lemma bitwise_in_range op `{!Bitwise op} d a b :
  lane_in_range d a → lane_in_range d b → lane_in_range d (op a b).
Proof.
  unfold lane_in_range. assert (0 < Dtype_.bit_width d) by (by destruct d). case_match.
  - rewrite !in_unsigned_shift, bitwise_shift by lia. intros -> ->. apply bitwise_zero.
  - rewrite !in_signed_shift, bitwise_shift by lia. intros Ha Hb. by apply bitwise_sign.
Qed.

Lemma shift_right_in_range d a n : 0 <= n → lane_in_range d a → lane_in_range d (a / 2 ^ n).
Proof.
  intros Hn. pose proof (pow2_pos n Hn). unfold lane_in_range, in_unsigned, in_signed.
  assert (0 < Dtype_.bit_width d) by (by destruct d). case_match; intros Ha.
  - pose proof (Z.div_pos a (2 ^ n) ltac:(lia) ltac:(lia)).
    pose proof (Z.div_le_upper_bound a (2 ^ n) a ltac:(lia) ltac:(nia)). lia.
  - pose proof (pow2_pos (Dtype_.bit_width d - 1) ltac:(lia)). split.
    + apply Z.div_le_lower_bound; nia.
    + apply Z.div_lt_upper_bound; nia.
Qed.

(** ** The scalar operators are the lane operators *)

Section scalars.
Context {VT : ValueTypes}.

(** An integer division, of which the scalar operators refuse a zero
    divisor. *)
Definition divides (op : InfixOp) : bool :=
  match op with Div | FloorDiv | Mod => true | _ => false end.

Definition of_lane {A} (f : A → Value) (invalid : Message) (lane : outcome unit A) : result Value :=
  match lane with
  | Ok z => Ok (f z)
  | Err _ => type_error invalid
  | Panic => Panic
  | Diverge => Diverge
  end.

Lemma int_orders x y :
  is_order (int_cmp x y) Eq = (x =? y) ∧ is_order (int_cmp x y) Lt = (x <? y) ∧
  is_order (int_cmp x y) Gt = (y <? x) ∧
  is_order (int_cmp x y) Lt || is_order (int_cmp x y) Eq = (x <=? y) ∧
  is_order (int_cmp x y) Gt || is_order (int_cmp x y) Eq = (y <=? x).
Proof.
  unfold int_cmp, is_order.
  destruct (Z.compare_spec x y); simpl; split_and!; symmetry; (apply Z.eqb_eq || apply Z.eqb_neq || apply Z.ltb_lt || apply Z.ltb_ge || apply Z.leb_le || apply Z.leb_gt); lia.
Qed.

Lemma rem_sign a b : b ≠ 0 → Z.rem a b ≠ 0 → (Z.rem a b <? 0) = (a <? 0).
Proof.
  intros Hb Hr. pose proof (Z.rem_sign_nz a b Hb Hr). destruct (Z.ltb_spec (Z.rem a b) 0), (Z.ltb_spec a 0); lia.
Qed.

Lemma floor_ops_exact x y :
  in_signed 64 x → in_signed 64 y → y ≠ 0 →
  floor_div x y = Ok (i64_wrapping (x / y)) ∧ floor_mod x y = Ok (i64_wrapping (x mod y)).
Proof.
  intros Hx Hy Hy0. destruct (floor_correction x y Hy0) as [-> ->].
  pose proof (quot_bounds x y Hy0) as Hq. pose proof (Z.rem_bound_abs x y Hy0) as Hr.
  pose proof (Z.quot_rem x y Hy0) as Hqr. unfold in_signed in *.
  assert (∀ z, in_signed 64 z → i64_wrapping z = z) as Hw by (intros z; by apply to_signed_small).
  assert (∀ z, in_signed 64 z → i64_checked z = Ok z) as Hc by (intros z Hz; unfold i64_checked; by rewrite decide_True).
  unfold floor_div, floor_mod, in_signed in *. rewrite (Hw (Z.rem x y)) by lia.
  destruct (Z.eqb_spec (Z.rem x y) 0) as [Hrz|Hrz]; cbn [negb andb]; [by rewrite (Hw (Z.rem x y)) by lia|].
  rewrite (rem_sign x y) by done.
  assert (2 <= Z.abs y) as Hy2 by lia.
  assert (Z.abs (Z.quot x y) * 2 <= Z.abs x) as Hq2.
  { rewrite <- Z.quot_abs by done. pose proof (Z.quot_rem' (Z.abs x) (Z.abs y)).
    pose proof (Z.rem_bound_pos (Z.abs x) (Z.abs y) ltac:(lia) ltac:(lia)).
    pose proof (Z.quot_pos (Z.abs x) (Z.abs y) ltac:(lia) ltac:(lia)). nia. }
  destruct (negb (Bool.eqb (x <? 0) (y <? 0))) eqn:Hs.
  - split; [rewrite (Hw (Z.quot x y)), Hc, Hw by lia; done|].
    rewrite Hc, Hw; [done| |];
    pose proof (rem_sign x y Hy0 Hrz); destruct (Z.ltb_spec x 0), (Z.ltb_spec y 0), (Z.ltb_spec (Z.rem x y) 0); try discriminate; lia.
  - by rewrite (Hw (Z.rem x y)) by lia.
Qed.

Lemma int_op_lane op x y :
  lane_in_range DInt x → lane_in_range DInt y →
  int_op op x y =
    match lane_compare int_cmp op x y with
    | Some b => Ok (VBool b)
    | None =>
        if divides op && (y =? 0) then type_error DivisionByZero
        else of_lane VInt (InvalidInteger op) (int_lane_binop op DInt x y)
    end.
Proof.
  intros Hx Hy. rewrite (int_lane_exact op DInt x y) by done.
  destruct (int_orders x y) as (He & Hl & Hg & Hle & Hge).
  assert (∀ z, lane_in_range DInt z → i64_wrapping z = z) as Hsmall by apply (wrap_lane_small DInt eq_refl).
  assert (wrapping_amount y = y mod 64) as Hsh by apply (shift_amount_mod DInt eq_refl y).
  change (wrap_lane DInt) with i64_wrapping.
  destruct op; try done; cbn [lane_compare exact_lane divides andb of_lane int_op]; rewrite ?Hle, ?Hge, ?He, ?Hl, ?Hg; try done;
    change (Dtype_.bit_width DInt) with 64; unfold nonzero.
  - by destruct (y =? 0).
  - destruct (Z.eqb_spec y 0) as [|Hy0]; [done|]. cbn [mbind outcome_bind]. by destruct (floor_ops_exact x y) as [-> _].
  - destruct (Z.eqb_spec y 0) as [|Hy0]; [done|]. cbn [mbind outcome_bind]. by destruct (floor_ops_exact x y) as [_ ->].
  - by rewrite Hsh, Z.shiftl_mul_pow2 by (apply Z.mod_pos_bound; lia).
  - pose proof (Z.mod_pos_bound y 64 ltac:(lia)).
    rewrite Hsh, Z.shiftr_div_pow2, Hsmall by (lia || (apply shift_right_in_range; [lia|done])). done.
  - by rewrite Hsmall by (by apply (bitwise_in_range _ DInt)).
  - by rewrite Hsmall by (by apply (bitwise_in_range _ DInt)).
  - by rewrite Hsmall by (by apply (bitwise_in_range _ DInt)).
Qed.

Lemma uint_op_lane op x y :
  lane_in_range DUInt x → lane_in_range DUInt y →
  uint_op op x y =
    match lane_compare int_cmp op x y with
    | Some b => Ok (VBool b)
    | None =>
        if divides op && (y =? 0) then type_error DivisionByZero
        else of_lane VUInt (InvalidUnsigned op) (int_lane_binop op DUInt x y)
    end.
Proof.
  intros Hx Hy. rewrite (int_lane_exact op DUInt x y) by done.
  destruct (int_orders x y) as (He & Hl & Hg & Hle & Hge).
  assert (∀ z, lane_in_range DUInt z → u64_wrapping z = z) as Hsmall by apply (wrap_lane_small DUInt eq_refl).
  assert (wrapping_amount y = y mod 64) as Hsh by apply (shift_amount_mod DUInt eq_refl y).
  assert (0 <= x < 2 ^ 64 ∧ 0 <= y < 2 ^ 64) as [Hxr Hyr] by done.
  assert (y ≠ 0 → lane_in_range DUInt (x / y) ∧ lane_in_range DUInt (x mod y)) as Hdiv.
  { intros Hy0. pose proof (Z.div_pos x y ltac:(lia) ltac:(lia)). pose proof (Z.mod_pos_bound x y ltac:(lia)).
    pose proof (Z.div_le_upper_bound x y x ltac:(lia) ltac:(nia)).
    split; unfold lane_in_range, in_unsigned; cbn; lia. }
  change (wrap_lane DUInt) with u64_wrapping.
  destruct op; try done; cbn [lane_compare exact_lane divides andb of_lane uint_op]; rewrite ?Hle, ?Hge, ?He, ?Hl, ?Hg; try done;
    change (Dtype_.bit_width DUInt) with 64; unfold nonzero_u.
  - destruct (Z.eqb_spec y 0) as [|Hy0]; [done|]. cbn [mbind outcome_bind].
    rewrite Z.quot_div_nonneg, Hsmall by (lia || by apply Hdiv). done.
  - destruct (Z.eqb_spec y 0) as [|Hy0]; [done|]. cbn [mbind outcome_bind]. by rewrite Hsmall by (by apply Hdiv).
  - destruct (Z.eqb_spec y 0) as [|Hy0]; [done|]. cbn [mbind outcome_bind]. by rewrite Hsmall by (by apply Hdiv).
  - by rewrite Hsh, Z.shiftl_mul_pow2 by (apply Z.mod_pos_bound; lia).
  - pose proof (Z.mod_pos_bound y 64 ltac:(lia)).
    rewrite Hsh, Z.shiftr_div_pow2, Hsmall by (lia || (apply shift_right_in_range; [lia|done])). done.
  - by rewrite Hsmall by (by apply (bitwise_in_range _ DUInt)).
  - by rewrite Hsmall by (by apply (bitwise_in_range _ DUInt)).
  - by rewrite Hsmall by (by apply (bitwise_in_range _ DUInt)).
Qed.

Lemma partial_cmp_swap f x y : partial_cmp f y x = CompOpp <$> partial_cmp f x y.
Proof.
  destruct x as [|[]|s a], y as [|[]|t b]; try done; cbn. by rewrite <- Qcompare_antisym.
Qed.

Lemma f64_gt a b : f64_lt b a = is_order (f64_partial_cmp a b) Gt.
Proof.
  unfold f64_lt, f64_partial_cmp, is_order. rewrite partial_cmp_swap.
  destruct (partial_cmp _ _ _) as [[]|]; done.
Qed.

Lemma float_op_lane `{!Half} op x y :
  op ≠ Mod →
  float_op op x y =
    match lane_compare f64_partial_cmp op x y with
    | Some b => Ok (VBool b)
    | None =>
        match float_lane_binop op DFloat64 x y with
        | Some z => Ok (VFloat64 z)
        | None => type_error (InvalidFloat op)
        end
    end.
Proof.
  intros Hop. destruct op; try done; cbn [lane_compare float_op]; unfold f64_le;
    rewrite ?(f64_gt x y); unfold f64_lt, f64_eq; try done.
  do 2 f_equal. unfold is_order, f64_partial_cmp. rewrite (partial_cmp_swap _ (decode _ x)).
  by destruct (partial_cmp _ _ _) as [[]|].
Qed.
End scalars.

(** The vector a host scalar stands for. *)
Definition as_vector {VT : ValueTypes} (v : Value) : Value :=
  match host_scalar_parts v with Some (d, lanes) => VSimd d lanes | None => v end.

Definition zero_lanes (d : Dtype) : SimdLanes :=
  if decide (d = DBool) then BoolLanes [false]
  else if Dtype_.is_float d then FloatLanes [0] else IntLanes [0].

(** A value of the machine: its numbers are in range. *)
Definition scalar_in_range {VT : ValueTypes} (v : Value) : Prop :=
  match v with
  | VInt n => lane_in_range DInt n
  | VUInt n => lane_in_range DUInt n
  | _ => True
  end.

Section laws.
Context {VT : ValueTypes} {B R : Type}.
Context `{!BigInt B, !BigRational B R, !RationalFloats R, !Half}.
Notation apply_infix := (apply_infix (B:=B) (R:=R)).

Lemma contains_one y : contains 0 [y] = (y =? 0).
Proof.
  unfold contains. destruct (Z.eqb_spec y 0) as [->|Hne].
  - apply bool_decide_eq_true. by left.
  - apply bool_decide_eq_false. by intros ?%list_elem_of_singleton.
Qed.

Lemma is_cmp_compare {T} cmp op (x y : T) : is_cmp op = match lane_compare cmp op x y with Some _ => true | None => false end.
Proof. by destruct op. Qed.

Lemma simd_one_int op d x y :
  Dtype_.is_integral d = true →
  simd_binop op (VSimd d (IntLanes [x])) (VSimd d (IntLanes [y])) =
    match lane_compare int_cmp op x y with
    | Some b => Ok (VSimd DBool (BoolLanes [b]))
    | None =>
        if bool_decide (op = Div) && (y =? 0) then type_error DivisionByZero
        else z ← int_lane_or_zero op d x y; Ok (VSimd d (IntLanes [z]))
    end.
Proof.
  intros Hd. unfold simd_binop. cbn [simd_shape width length mbind outcome_bind Nat.max].
  rewrite decide_False by (by intros ->). assert (Dtype_.is_float d = false) as -> by (by destruct d).
  cbn [to_int_lanes length Nat.eqb mbind outcome_bind]. rewrite (is_cmp_compare int_cmp op x y).
  destruct (lane_compare int_cmp op x y) as [b|] eqn:Hc.
  - by cbn; rewrite Hc.
  - cbn. rewrite contains_one. destruct (_ && _); [done|]. by destruct (int_lane_or_zero op d x y).
Qed.

Lemma simd_one_float op x y :
  simd_binop op (VSimd DFloat64 (FloatLanes [x])) (VSimd DFloat64 (FloatLanes [y])) =
    match lane_compare f64_partial_cmp op x y with
    | Some b => Ok (VSimd DBool (BoolLanes [b]))
    | None => Ok (VSimd DFloat64 (FloatLanes [default 0 (float_lane_binop op DFloat64 x y)]))
    end.
Proof.
  unfold simd_binop. cbn [simd_shape width length mbind outcome_bind Nat.max].
  cbn [to_float_lanes length Nat.eqb mbind outcome_bind]. rewrite (is_cmp_compare f64_partial_cmp op x y).
  destruct (lane_compare f64_partial_cmp op x y) as [b|] eqn:Hc; cbn; by rewrite ?Hc.
Qed.

Definition is_membership (op : InfixOp) : bool := match op with In_ | NotIn => true | _ => false end.

(** C18: a scalar behaves as the one-lane vector it stands for.  An [Int],
    [UInt], [Float64] or [Bool] is held as a host scalar, and a vector of one
    lane of these dtypes is turned into one; for every operator and operands of
    one dtype the operator on the scalars gives the lane that the operator on
    the vectors gives, so the two forms are never told apart.  The exceptions
    are the ones the language has: an integer division by zero is an error on
    scalars, while on lanes only [/] is and [//] and [%] give zero; a float [%]
    has no lane form; an operator that is an error on the scalars leaves a zero
    lane.  Neither ever panics. *)
Theorem scalars_are_vectors op l r d lanes_l lanes_r :
  host_scalar_parts l = Some (d, lanes_l) → host_scalar_parts r = Some (d, lanes_r) →
  scalar_in_range l → scalar_in_range r → (d = DFloat64 → op ≠ Mod) →
  match apply_infix op l r with
  | Ok v => ∃ w, simd_binop op (as_vector l) (as_vector r) = Ok w ∧ simd_parts w = simd_parts v
  | Err (TypeError DivisionByZero) =>
      lanes_r = IntLanes [0] ∧ divides op = true ∧
      simd_binop op (as_vector l) (as_vector r) =
        (if decide (op = Div) then type_error DivisionByZero else Ok (VSimd d (IntLanes [0])))
  | Err _ => simd_binop op (as_vector l) (as_vector r) = Ok (VSimd d (zero_lanes d))
  | Panic | Diverge => False
  end.
Proof.
  intros Hl Hr Hlr Hrr Hmod.
  destruct l as [x|x|x|x| | | | | | | | | | | | | | | |], r as [y|y|y|y| | | | | | | | | | | | | | | |];
    try done; simplify_eq/=; unfold as_vector; cbn [host_scalar_parts].
  - rewrite simd_one_int by done. unfold int_lane_or_zero.
    pose proof (int_op_lane op x y Hlr Hrr) as Hop. rewrite (int_lane_exact op DInt x y) in * by done.
    assert (apply_infix op (VInt x) (VInt y) =
      if is_membership op then type_error (InNeedsCollection (VInt y)) else int_op op x y) as -> by (by destruct op).
    rewrite Hop. destruct (lane_compare int_cmp op x y) as [b|] eqn:Hc; [destruct op; try discriminate; cbn; by eauto|].
    destruct op; try done; cbn; try (by eauto); destruct (Z.eqb_spec y 0) as [->|]; try done; cbn; eauto.
  - rewrite simd_one_int by done. unfold int_lane_or_zero.
    pose proof (uint_op_lane op x y Hlr Hrr) as Hop. rewrite (int_lane_exact op DUInt x y) in * by done.
    assert (apply_infix op (VUInt x) (VUInt y) =
      if is_membership op then type_error (InNeedsCollection (VUInt y)) else uint_op op x y) as -> by (by destruct op).
    rewrite Hop. destruct (lane_compare int_cmp op x y) as [b|] eqn:Hc; [destruct op; try discriminate; cbn; by eauto|].
    destruct op; try done; cbn; try (by eauto); destruct (Z.eqb_spec y 0) as [->|]; try done; cbn; eauto.
  - rewrite simd_one_float. pose proof (float_op_lane op x y (Hmod eq_refl)) as Hop.
    assert (apply_infix op (VFloat64 x) (VFloat64 y) =
      if is_membership op then type_error (InNeedsCollection (VFloat64 y)) else float_op op x y) as -> by (by destruct op).
    rewrite Hop. destruct (lane_compare f64_partial_cmp op x y) as [b|] eqn:Hc; [destruct op; try discriminate; cbn; by eauto|].
    destruct op; try done; cbn; eauto.
  - destruct op, x, y; try done; lazy; eauto.
Qed.
End laws.

(** One minus two, as scalars and as vectors. *)
Lemma scalars_are_vectors_witness :
  ∃ w, simd_binop Sub (as_vector (VUInt (VT:=unit_types) 1)) (as_vector (VUInt 2)) = Ok w ∧
    simd_parts w = simd_parts (VUInt (VT:=unit_types) (2 ^ 64 - 1)).
Proof.
  assert (lane_in_range DUInt 1 ∧ lane_in_range DUInt 2) as [Hl Hr] by (split; by vm_compute).
  assert (DUInt = DFloat64 → Sub ≠ Mod) as Hm by done.
  exact (scalars_are_vectors (VT:=unit_types) (B:=Z) (R:=Qcanon.Qc) Sub (VUInt 1) (VUInt 2) DUInt
    (IntLanes [1]) (IntLanes [2]) eq_refl eq_refl Hl Hr Hm).
Defined.
