(* ===== verification/ValueTyping.v ===== *)
(** * ValueTyping: operators keep every lane in its dtype

    What the checker promises the machine, and the machine keeps: operands of
    [n] lanes of one dtype, as vectors or as host scalars, give [n] lanes of
    the result's dtype, each in its range or a float of its format, or exactly
    the error [refusal] names ([operators_typed]). *)

From S2P Require Import Prelude Literal Ieee NarrowFloat Dtypes FloatOps Lanes.
From S2P Require Import DoubleRounding LaneLaws Values ValueLaws.
From Stdlib Require Import QArith Qround Lqa.
Local Open Scope Z_scope.

(** ** Typing *)

(** Lanes of a dtype: integers in its range, floats of its format. *)
Definition lanes_ok (d : Dtype) (lanes : SimdLanes) : Prop :=
  match lanes with
  | IntLanes l => Dtype_.is_integral d = true ∧ Forall (lane_in_range d) l
  | FloatLanes l => ∃ f, lane_format d = Some f ∧ Forall (λ x, ∃ y, holds_float f x y) l
  | BoolLanes _ => d = DBool
  end.

(** A value of [n] lanes of a dtype, as a vector or a host scalar. *)
Definition typed {VT : ValueTypes} (d : Dtype) (n : nat) (v : Value) : Prop :=
  ∃ lanes, simd_parts v = Some (d, lanes) ∧ width lanes = n ∧ lanes_ok d lanes.

(** Some lane is zero. *)
Definition holds_zero {VT : ValueTypes} (v : Value) : bool :=
  match simd_parts v with Some (_, IntLanes l) => contains 0 l | _ => false end.

(** The error of an infix operator on operands of one dtype: membership needs a
    collection; comparisons have none; on vectors only an integer [/] by a zero
    lane has one; on host scalars, an integer division by zero and the operators
    the dtype does not have. *)
Definition refusal {VT : ValueTypes} (op : InfixOp) (d : Dtype) (l r : Value) : option Message :=
  if is_membership op then Some (InNeedsCollection r)
  else if is_cmp op then None
  else if is_simd l || is_simd r then
    if bool_decide (op = Div) && holds_zero r then Some DivisionByZero else None
  else
    match d, op with
    | DBool, (BitAnd | BitOr | BitXor) => None
    | DBool, _ => Some (NotDefined op l r)
    | DFloat64, (Add | Sub | Mul | Div | FloorDiv | Mod) => None
    | DFloat64, _ => Some (InvalidFloat op)
    | _, (Add | Sub | Mul | Shl | Shr | BitAnd | BitOr | BitXor) => None
    | _, (Div | FloorDiv | Mod) => if holds_zero r then Some DivisionByZero else None
    | _, _ => Some (if Dtype_.is_unsigned d then InvalidUnsigned op else InvalidInteger op)
    end.

(** The error of a prefix operator. *)
Definition prefix_refusal {VT : ValueTypes} (op : PrefixOp) (v : Value) : option Message :=
  match op, v with
  | PrefixPos, _ => Some (UnaryPos v)
  | PrefixNeg, (VInt _ | VFloat64 _ | VSimd _ (IntLanes _ | FloatLanes _)) => None
  | PrefixNeg, VSimd _ (BoolLanes _) => Some CannotNegateMask
  | PrefixNeg, _ => Some (CannotNegate v)
  | PrefixNot, (VBool _ | VSimd _ (BoolLanes [_])) => None
  | PrefixNot, _ => Some (NotNeedsBool v)
  | PrefixInvert, (VBool _ | VSimd _ (BoolLanes _)) => None
  | PrefixInvert, _ => Some (CannotInvert v)
  end.

(** A result that is the error named, or where none is a value with [Q]. *)
Definition gives {VT : ValueTypes} (r : result Value) (refused : option Message) (Q : Value → Prop) : Prop :=
  match refused with Some m => r = type_error m | None => ∃ w, r = Ok w ∧ Q w end.

Definition result_dtype (op : InfixOp) (d : Dtype) : Dtype := if is_cmp op then DBool else d.

Section typing.
Context {VT : ValueTypes}.

Lemma collect_ok {A B'} (f : A → result B') (l : list A) (P : B' → Prop) :
  Forall (λ x, ∃ y, f x = Ok y ∧ P y) l →
  ∃ ys, collect f l = Ok ys ∧ length ys = length l ∧ Forall P ys.
Proof.
  induction 1 as [|x l (y & Hy & HP) _ (ys & Hys & Hlen & Hall)]; [by exists []|].
  exists (y :: ys). cbn. rewrite Hy. cbn. rewrite Hys. cbn. split_and!; [done|by rewrite Hlen|by constructor].
Qed.

Lemma simd_value_parts d lanes : lanes_ok d lanes → simd_parts (simd_value d lanes) = Some (d, lanes).
Proof.
  intros Hok. unfold simd_value. destruct d; try done; destruct lanes as [[|z [|]]|[|z [|]]|[|z [|]]]; try done;
    destruct Hok as [_ Hr]; rewrite Forall_singleton in Hr; cbn; do 4 f_equal.
  - by apply to_signed_small.
  - by apply to_unsigned_small.
Qed.

Lemma typed_simd_value d n lanes : lanes_ok d lanes → width lanes = n → typed d n (simd_value d lanes).
Proof. intros Hok Hn. exists lanes. by rewrite simd_value_parts. Qed.

Lemma typed_simd d n lanes : lanes_ok d lanes → width lanes = n → typed d n (VSimd d lanes).
Proof. intros Hok Hn. by exists lanes. Qed.

Lemma typed_shape d n v : typed d n v → simd_shape v = Some (d, n) ∨ simd_shape v = None ∧ n = 1%nat.
Proof. intros (lanes & Hp & Hn & _). destruct v; simplify_eq/=; auto. Qed.

Lemma to_int_lanes_typed d n v :
  typed d n v → Dtype_.is_integral d = true →
  ∃ l, to_int_lanes v d n = Ok l ∧ length l = n ∧ Forall (lane_in_range d) l.
Proof.
  intros (lanes & Hp & Hn & Hok) Hd. destruct v; simplify_eq/=.
  - exists [n0]. destruct Hok as [_ Hr]. pose proof (proj1 (Forall_singleton _ _) Hr) as Hr'.
    split_and!; [|done|done]. cbn. by rewrite to_signed_small.
  - exists [n0]. destruct Hok as [_ Hr]. pose proof (proj1 (Forall_singleton _ _) Hr) as Hr'.
    split_and!; [|done|done]. cbn. by rewrite to_unsigned_small.
  - destruct lanes as [l|l|l]; [|by destruct Hok as (f & Hf & _); destruct d|by rewrite Hok in Hd].
    cbn. rewrite Nat.eqb_refl. exists l. by destruct Hok.
Qed.

Lemma to_int_lanes_zero d n v l :
  typed d n v → Dtype_.is_integral d = true → to_int_lanes v d n = Ok l → holds_zero v = contains 0 l.
Proof.
  intros (lanes & Hp & Hn & Hok) Hd. destruct v; simplify_eq/=.
  - destruct Hok as [_ Hr]. rewrite Forall_singleton in Hr. rewrite to_signed_small by done. by intros [= <-].
  - destruct Hok as [_ Hr]. rewrite Forall_singleton in Hr. rewrite to_unsigned_small by done. by intros [= <-].
  - destruct lanes as [lanes|lanes|lanes]; [|by destruct Hok as (f & Hf & _); destruct d|by rewrite Hok in Hd].
    cbn. rewrite Nat.eqb_refl. by intros [= <-].
Qed.

Lemma to_float_lanes_typed `{!Half} d f n v :
  typed d n v → lane_format d = Some f →
  ∃ l, to_float_lanes v d n = Ok l ∧ length l = n ∧ Forall (λ x, ∃ y, holds_float f x y) l.
Proof.
  intros (lanes & Hp & Hn & Hok) Hd. destruct v; simplify_eq/=.
  - exists [bits]. destruct Hok as (? & [= <-] & Hr). split_and!; [done|done|].
    done.
  - destruct lanes as [l|l|l]; [by destruct Hok as [Hi _]; destruct d| |by rewrite Hok in Hd].
    cbn. rewrite Nat.eqb_refl. exists l. destruct Hok as (f' & Hf & Hl). by simplify_eq.
Qed.

Lemma to_bool_lanes_typed n v : typed DBool n v → ∃ l, to_bool_lanes v n = Ok l ∧ length l = n.
Proof.
  intros (lanes & Hp & Hn & Hok). destruct v; simplify_eq/=; [by exists [b]|].
  destruct lanes as [l|l|l]; [by destruct Hok|by destruct Hok as (f & Hf & _)|].
  cbn. rewrite Nat.eqb_refl. by exists l.
Qed.
End typing.

Section operators.
Context {VT : ValueTypes} {B R : Type}.
Context `{!BigInt B, !BigRational B R, !RationalFloats R, !Half, !HalfLaws}.
Notation apply_infix := (apply_infix (B:=B) (R:=R)).

(** *** Floats *)

Lemma holds_double x : valid binary64 (decode binary64 x) → ∃ y, holds_float binary64 x y.
Proof using Type. intros Hx. exists (decode binary64 x). split; [done|]. by rewrite (convert_same binary64). Qed.

Lemma encode_valid y : valid binary64 y → valid binary64 (decode binary64 (encode binary64 y)).
Proof using Type. intros Hy. by rewrite (decode_encode binary64). Qed.

Lemma zero_holds f : Wf f → holds_float f 0 (Finite false 0).
Proof using Type.
  intros Hf. split; [by apply (zero_valid f)|].
  change (decode binary64 0) with (Finite false 0). cbn [convert].
  symmetry. apply of_magnitude_zero; [apply _|by apply code_value_zero].
Qed.

Lemma mul_add_valid x y z : valid binary64 (mul_add binary64 x y z).
Proof using Type.
  destruct x, y, z; try done; apply (of_rational_valid binary64) || apply (add_valid binary64).
Qed.

Lemma decode_negative_bits x : valid binary64 (decode binary64 x) → 0 <= x.
Proof using Type.
  unfold decode. destruct (Z.leb_spec (sign_bit binary64) x) as [Hs|Hs].
  - assert (0 < sign_bit binary64) by done. lia.
  - pose proof (inf_code_pos binary64). destruct (Z.ltb_spec (inf_code binary64) x); [lia|].
    destruct (Z.eqb_spec x (inf_code binary64)); [lia|]. simpl. lia.
Qed.

(** [-x] flips the sign. *)
Lemma decode_neg x :
  valid binary64 (decode binary64 x) → decode binary64 (f64_neg x) = neg (decode binary64 x).
Proof using Type.
  intros Hx%decode_negative_bits. unfold f64_neg. change (2 ^ 63) with (sign_bit binary64).
  assert (sign_bit binary64 = 2 ^ 63) as Hs by done. pose proof (inf_code_sign binary64) as Hinf.
  destruct (Z.lt_ge_cases x (2 ^ 63)) as [Hlt|Hge].
  - rewrite Hs, lxor_above by lia. rewrite <- Hs. unfold decode.
    destruct (Z.leb_spec (sign_bit binary64) x); [lia|].
    destruct (Z.leb_spec (sign_bit binary64) (sign_bit binary64 + x)); [|lia].
    replace (sign_bit binary64 + x - sign_bit binary64) with x by lia.
    by destruct (inf_code binary64 <? x), (x =? inf_code binary64).
  - destruct (Z.lt_ge_cases x (2 ^ 64)) as [Hlt|Hbig].
    + replace x with (2 ^ 63 + (x - 2 ^ 63)) by lia. set (c := x - 2 ^ 63). assert (0 <= c < 2 ^ 63) as Hc by lia.
      rewrite <- (lxor_above c 63) at 1 by lia. rewrite Hs, Z.lxor_assoc, Z.lxor_nilpotent, Z.lxor_0_r.
      unfold decode. rewrite Hs in *. destruct (Z.leb_spec (2 ^ 63) c); [lia|].
      destruct (Z.leb_spec (2 ^ 63) (2 ^ 63 + c)); [|lia]. replace (2 ^ 63 + c - 2 ^ 63) with c by lia.
      by destruct (inf_code binary64 <? c), (c =? inf_code binary64).
    + assert (2 ^ 64 <= Z.lxor x (2 ^ 63)) as Hl.
      { assert (Z.shiftr (Z.lxor x (2 ^ 63)) 64 = Z.shiftr x 64) as Hsh.
        { rewrite Z.shiftr_lxor. change (Z.shiftr (2 ^ 63) 64) with 0. apply Z.lxor_0_r. }
        rewrite !Z.shiftr_div_pow2 in Hsh by lia.
        assert (1 <= x / 2 ^ 64) by (apply Z.div_le_lower_bound; lia).
        pose proof (Z.mul_div_le (Z.lxor x (2 ^ 63)) (2 ^ 64) ltac:(lia)). nia. }
      assert (∀ z, 2 ^ 64 <= z → decode binary64 z = NaN) as Hnan.
      { intros z Hz. unfold decode. destruct (Z.leb_spec (sign_bit binary64) z); [|lia].
        by destruct (Z.ltb_spec (inf_code binary64) (z - sign_bit binary64)); [|lia]. }
      rewrite Hs, (Hnan x), (Hnan (Z.lxor _ _)) by done. done.
Qed.

Lemma neg_holds f x y : Wf f → holds_float f x y → holds_float f (f64_neg x) (neg y).
Proof using Type.
  intros Hf [Hy Hx]. split; [by destruct y|]. rewrite decode_neg, Hx, neg_convert; [done|].
  rewrite Hx. by apply convert_valid.
Qed.

Lemma float_lane_holds op d f a b :
  lane_of d f → (∃ x, holds_float f a x) → (∃ y, holds_float f b y) →
  ∃ z, holds_float f (default 0 (float_lane_binop op d a b)) z.
Proof using All.
  intros Hd [x Hx] [y Hy]. pose proof (lane_wf d f Hd).
  destruct op; try (eexists; by apply zero_holds); cbn [float_lane_binop mbind option_bind default]; eexists;
    [by apply (round_binary add)|by apply (round_binary sub)|by apply (round_binary mul)|by apply (round_binary div)|].
  apply (round_unary (λ f, rounded f Qfloor)); [done|by apply (round_binary div)].
Qed.

Lemma Forall_zip_with {A A' A''} (f : A → A' → A'') (P : A → Prop) (P' : A' → Prop) (Q : A'' → Prop) xs ys :
  Forall P xs → Forall P' ys → (∀ x y, P x → P' y → Q (f x y)) → Forall Q (zip_with f xs ys).
Proof using Type. intros Hx. revert ys. induction Hx; intros [|y ys] Hy Hf; try constructor; inversion Hy; auto. Qed.

(** *** Vectors *)

Lemma simd_binop_typed op d n l r :
  is_simd l || is_simd r = true → typed d n l → typed d n r →
  is_membership op = false → gives (simd_binop op l r) (refusal op d l r) (typed (result_dtype op d) n).
Proof using All.
  intros Hs Hl Hr Hm.
  assert (refusal op d l r = if negb (is_cmp op) && bool_decide (op = Div) && holds_zero r then Some DivisionByZero else None) as ->.
  { unfold refusal. rewrite Hm, Hs. by destruct (is_cmp op). }
  unfold simd_binop.
  assert (match simd_shape l, simd_shape r with
    | Some (d, ln), Some (_, rn) => Ok (d, (ln `max` rn)%nat)
    | Some shape, None | None, Some shape => Ok shape
    | None, None => type_error NeedsSimdOperand
    end = Ok (d, n)) as ->.
  { destruct (typed_shape d n l Hl) as [Hls|[Hls Hln]], (typed_shape d n r Hr) as [Hrs|[Hrs Hrn]]; rewrite Hls, Hrs; try done.
    - by rewrite Nat.max_id.
    - destruct l, r; done. }
  cbn [mbind outcome_bind]. unfold result_dtype. destruct (decide (d = DBool)) as [->|Hb].
  { destruct (to_bool_lanes_typed n l Hl) as (xs & -> & Hxs), (to_bool_lanes_typed n r Hr) as (ys & -> & Hys).
    destruct Hr as (lanes & Hp & _ & Hok). unfold holds_zero. rewrite Hp.
    assert (match lanes with IntLanes l => contains 0 l | _ => false end = false) as -> by (by destruct lanes; [destruct Hok|..]).
    rewrite andb_false_r. assert ((if is_cmp op then DBool else DBool) = DBool) as -> by (by destruct (is_cmp op)).
    eexists. split; [done|]. apply typed_simd; [done|]. cbn. rewrite length_zip_with. lia. }
  destruct (Dtype_.is_float d) eqn:Hf.
  - assert (∃ f, lane_format d = Some f) as [f Hfm] by (destruct d; try done; by eexists).
    destruct (to_float_lanes_typed d f n l Hl Hfm) as (xs & -> & Hxs & Hxo).
    destruct (to_float_lanes_typed d f n r Hr Hfm) as (ys & -> & Hys & Hyo). cbn [mbind outcome_bind].
    destruct Hr as (lanes & Hp & _ & Hok). unfold holds_zero. rewrite Hp.
    assert (match lanes with IntLanes l => contains 0 l | _ => false end = false) as ->
      by (destruct lanes; [by destruct Hok as [Hi _]; destruct d|done..]).
    rewrite andb_false_r.
    destruct (is_cmp op); cbn; (eexists; split; [done|]); apply typed_simd; cbn; try done; try (rewrite length_zip_with; lia).
    exists f. split; [done|]. eapply Forall_zip_with; [done|done|]. intros x y Hx Hy.
    apply float_lane_holds; [by apply lane_format_of|done|done].
  - assert (Dtype_.is_integral d = true) as Hi by (by destruct d).
    destruct (to_int_lanes_typed d n l Hl Hi) as (xs & -> & Hxs & Hxo).
    destruct (to_int_lanes_typed d n r Hr Hi) as (ys & Hread & Hys & Hyo). rewrite Hread. cbn [mbind outcome_bind].
    destruct (is_cmp op); [cbn; eexists; split; [done|]; apply typed_simd; [done|]; cbn; rewrite length_zip_with; lia|].
    assert (holds_zero r = contains 0 ys) as -> by (by apply (to_int_lanes_zero d n)).
    cbn [negb andb]. destruct (bool_decide (op = Div) && contains 0 ys); [done|].
    destruct (collect_ok (λ '(a, b), int_lane_or_zero op d a b) (zip xs ys) (lane_in_range d)) as (out & -> & Hlen & Hout).
    { eapply Forall_zip_with; [done|done|]. intros x y Hx Hy. cbn. unfold int_lane_or_zero.
      rewrite int_lane_exact by done. destruct (exact_lane op d x y) as [v|].
      - eexists. split; [done|]. by apply wrap_lane_range.
      - exists 0. split; [done|]. by destruct d. }
    cbn. eexists. split; [done|]. apply typed_simd; [done|]. cbn. rewrite Hlen, length_zip_with. lia.
Qed.

(** *** Host scalars *)

Lemma typed_int x : lane_in_range DInt x → typed DInt 1 (VInt x).
Proof using Type. intros Hx. exists (IntLanes [x]). do 3 (split; [done|]). by apply Forall_singleton. Qed.
Lemma typed_uint x : lane_in_range DUInt x → typed DUInt 1 (VUInt x).
Proof using Type. intros Hx. exists (IntLanes [x]). do 3 (split; [done|]). by apply Forall_singleton. Qed.
Lemma typed_bool b : typed DBool 1 (VBool b).
Proof using Type. by exists (BoolLanes [b]). Qed.
Lemma typed_float x : valid binary64 (decode binary64 x) → typed DFloat64 1 (VFloat64 x).
Proof using Type.
  intros Hx. exists (FloatLanes [x]). split_and!; [done|done|]. exists binary64. split; [done|].
  constructor; [by apply holds_double|done].
Qed.

Lemma typed_host d n v :
  typed d n v → is_simd v = false →
  (∃ x, v = VInt x ∧ d = DInt ∧ n = 1%nat ∧ lane_in_range DInt x) ∨
  (∃ x, v = VUInt x ∧ d = DUInt ∧ n = 1%nat ∧ lane_in_range DUInt x) ∨
  (∃ x, v = VFloat64 x ∧ d = DFloat64 ∧ n = 1%nat ∧ valid binary64 (decode binary64 x)) ∨
  (∃ b, v = VBool b ∧ d = DBool ∧ n = 1%nat).
Proof using Type.
  intros (lanes & Hp & Hn & Hok) Hs. destruct v; simplify_eq/=.
  - left. eexists. split_and!; [done..|]. by destruct Hok as [_ Hr%Forall_inv].
  - right. left. eexists. split_and!; [done..|]. by destruct Hok as [_ Hr%Forall_inv].
  - right. right. left. eexists. split_and!; [done..|]. destruct Hok as (f & [= <-] & Hr). inversion_clear Hr as [|?? [y Hy] _].
    by apply (holds_valid binary64 _ y).
  - right. right. right. by eexists.
Qed.

(** A host integer's operator, by its lane. *)
Lemma scalar_lane_typed (op : InfixOp) (mk : Z → Value) d x y :
  d = DInt ∨ d = DUInt → lane_in_range d x → lane_in_range d y → is_membership op = false →
  (∀ z, is_simd (mk z) = false) → simd_parts (mk y) = Some (d, IntLanes [y]) →
  (∀ z, lane_in_range d z → typed d 1 (mk z)) →
  gives match lane_compare int_cmp op x y with
        | Some b => Ok (VBool b)
        | None =>
            if divides op && (y =? 0) then type_error DivisionByZero
            else of_lane mk (if Dtype_.is_unsigned d then InvalidUnsigned op else InvalidInteger op) (int_lane_binop op d x y)
        end (refusal op d (mk x) (mk y)) (typed (result_dtype op d) 1).
Proof using Type.
  intros Hd Hx Hy Hm Hs Hp Hmk.
  assert (holds_zero (mk y) = (y =? 0)) as Hz by (unfold holds_zero; by rewrite Hp, contains_one).
  unfold result_dtype, refusal. rewrite Hm, !Hs, Hz. cbn [orb]. rewrite (is_cmp_compare int_cmp op x y).
  destruct (lane_compare int_cmp op x y) as [b|] eqn:Hc; [eexists; split; [done|apply typed_bool]|].
  rewrite int_lane_exact by (by destruct Hd as [-> | ->]).
  assert (∀ v, exact_lane op d x y = Some v →
    ∃ w, of_lane mk (if Dtype_.is_unsigned d then InvalidUnsigned op else InvalidInteger op)
      (match exact_lane op d x y with Some v => Ok (wrap_lane d v) | None => Err () end) = Ok w ∧ typed d 1 w) as Hlane.
  { intros v ->. eexists. split; [done|]. apply Hmk, wrap_lane_range. by destruct Hd as [-> | ->]. }
  destruct Hd as [-> | ->]; destruct op; try done; cbn [divides andb gives];
    try (by eapply Hlane); cbn in *; destruct (y =? 0); try done; by eapply Hlane.
Qed.

(** A double result: its decoding is a float. *)
Ltac valid_double :=
  apply typed_float, encode_valid;
  first [by apply (add_valid binary64) | by apply (mul_valid binary64) | by apply (div_valid binary64)
        | by apply (rounded_valid binary64) | by apply mul_add_valid].

Lemma float_op_typed op x y :
  valid binary64 (decode binary64 x) → valid binary64 (decode binary64 y) →
  is_membership op = false →
  gives (float_op op x y) (refusal op DFloat64 (VFloat64 x) (VFloat64 y)) (typed (result_dtype op DFloat64) 1).
Proof using Type.
  intros Hx Hy Hm. destruct op; try done; (eexists; split; [done|]); unfold result_dtype; cbn [is_cmp];
    try apply typed_bool; valid_double.
Qed.

Lemma infix_host op d n l r :
  typed d n l → typed d n r → is_simd l || is_simd r = false →
  is_membership op = false → gives (apply_infix op l r) (refusal op d l r) (typed (result_dtype op d) n).
Proof using Type.
  intros Hl Hr [Hsl Hsr]%orb_false_elim Hm.
  destruct (typed_host d n l Hl Hsl) as [(x & -> & -> & -> & Hx)|[(x & -> & -> & -> & Hx)|[(x & -> & -> & -> & Hx)|(x & -> & -> & ->)]]];
    destruct (typed_host _ _ r Hr Hsr) as [(y & -> & Hd & _ & Hy)|[(y & -> & Hd & _ & Hy)|[(y & -> & Hd & _ & Hy)|(y & -> & Hd & _)]]]; try done.
  - assert (apply_infix op (VInt x) (VInt y) = int_op op x y) as -> by (by destruct op).
    rewrite int_op_lane by done. apply (scalar_lane_typed op VInt DInt); try done; [by left|apply typed_int].
  - assert (apply_infix op (VUInt x) (VUInt y) = uint_op op x y) as -> by (by destruct op).
    rewrite uint_op_lane by done. apply (scalar_lane_typed op VUInt DUInt); try done; [by right|apply typed_uint].
  - assert (apply_infix op (VFloat64 x) (VFloat64 y) = float_op op x y) as -> by (by destruct op).
    by apply float_op_typed.
  - destruct op; try done; (eexists; split; [done|apply typed_bool]).
Qed.

(** *** Negation, inversion and casts *)

Definition prefix_dtype (op : PrefixOp) (d : Dtype) : Dtype := match op with PrefixNot => DBool | _ => d end.

Lemma neg_lanes_ok d lanes :
  lanes_ok d lanes →
  match lanes with
  | IntLanes l => lanes_ok d (IntLanes ((λ x, wrap_lane d (i128_wrapping (- x))) <$> l))
  | FloatLanes l => lanes_ok d (FloatLanes (f64_neg <$> l))
  | BoolLanes _ => True
  end.
Proof using Type.
  destruct lanes as [l|l|l]; cbn; [|intros (f & Hf & Hl)|done].
  - intros [Hd _]. split; [done|]. apply Forall_fmap, Forall_true. intros x. by apply wrap_lane_range.
  - exists f. split; [done|]. apply Forall_fmap. eapply Forall_impl; [exact Hl|]. intros x [y Hy]. exists (neg y).
    apply neg_holds; [|done]. apply lane_format_of in Hf. by apply (lane_wf d).
Qed.

Lemma prefix_typed op d n v :
  typed d n v → gives (apply_prefix op v) (prefix_refusal op v) (typed (prefix_dtype op d) n).
Proof using Type.
  intros Hv. destruct (is_simd v) eqn:Hs.
  - destruct Hv as (lanes & Hp & Hn & Hok). destruct v; simplify_eq/=. pose proof (neg_lanes_ok d lanes Hok) as Hneg.
    destruct op, lanes as [l|l|l]; cbn [apply_prefix prefix_refusal gives]; try done.
    + eexists. split; [done|]. by apply typed_simd_value; [|cbn; rewrite length_fmap].
    + eexists. split; [done|]. by apply typed_simd_value; [|cbn; rewrite length_fmap].
    + by destruct d.
    + by destruct d.
    + rewrite Hok. destruct l as [|b [|? ?]]; try done. eexists. split; [done|]. apply typed_bool.
    + eexists. split; [done|]. by apply typed_simd_value; [|cbn; rewrite length_fmap].
  - destruct (typed_host d n v Hv Hs) as [(x & -> & -> & -> & Hx)|[(x & -> & -> & -> & Hx)|[(x & -> & -> & -> & Hx)|(x & -> & -> & ->)]]];
      destruct op; try done; (eexists; split; [done|]); cbn [prefix_dtype]; try apply typed_bool.
    + apply typed_int. by apply (wrap_lane_range DInt).
    + apply typed_float. rewrite decode_neg by done. by destruct (decode binary64 x).
Qed.

Lemma of_integer_lane d f n : lane_of d f → ∃ y, holds_float f (round_lane d (f64_of_integer n)) y.
Proof using All.
  intros Hd. eexists. apply round_lane_holds; [done|]. apply encode_valid, (of_rational_valid binary64).
Qed.

Lemma small_integer d f b : lane_of d f → ∃ y, holds_float f (f64_of_integer (Z.b2z b)) y.
Proof using Type.
  intros Hd. pose proof (lane_wf d f Hd). destruct b; [|eexists; by apply zero_holds].
  destruct Hd; [exists (Finite false 0x3c00)|exists (Finite false 0x3f800000)|exists (Finite false 0x3ff0000000000000)];
    split; by vm_compute.
Qed.

Lemma cast_typed target d n v :
  typed d n v → ∃ w, simd_cast target v = Ok w ∧ typed target n w.
Proof using All.
  intros (lanes & Hp & Hn & Hok). unfold simd_cast. rewrite Hp. cbn [ok_or mbind outcome_bind].
  destruct (decide (target = DBool)) as [->|Hb].
  { eexists. split; [done|]. destruct lanes as [l|l|l]; apply typed_simd_value; try done; cbn; by rewrite ?length_fmap. }
  eexists. split; [done|].
  destruct (Dtype_.is_float target) eqn:Hf.
  - assert (∃ f, lane_format target = Some f) as [f Hfm] by (destruct target; try done; by eexists).
    pose proof (lane_format_of _ _ Hfm) as Hlane.
    destruct lanes as [l|l|l]; apply typed_simd_value; try (cbn in *; by rewrite ?length_fmap);
      exists f; (split; [done|]); apply Forall_fmap; cbn.
    + apply Forall_true. intros x. by apply of_integer_lane.
    + destruct Hok as (g & Hg & Hl). eapply Forall_impl; [exact Hl|]. intros x [y Hy]. eexists.
      apply round_lane_holds; [done|]. apply lane_format_of in Hg. apply (holds_valid g x y); [by apply (lane_wf d)|done].
    + apply Forall_true. intros x. by apply (small_integer target).
  - assert (Dtype_.is_integral target = true) as Hi by (by destruct target).
    destruct lanes as [l|l|l]; apply typed_simd_value; try (cbn in *; by rewrite ?length_fmap);
      (split; [done|]); apply Forall_fmap, Forall_true; intros x; cbn.
    + by apply wrap_lane_range.
    + by apply wrap_lane_range.
    + destruct target, x; done.
Qed.

(** C15: operators keep every lane in its dtype.  On operands of [n] lanes of
    one dtype, each lane in the dtype's range or a float of its format, every
    infix and prefix operator gives [n] lanes of the result's dtype (a mask for a
    comparison), except where [refusal] or [prefix_refusal] names an error, and
    there it reports exactly that error: membership in a value that is no
    collection, an integer [/] by a zero lane of a vector, an integer division by
    zero and the operators a host scalar does not have, unary [+], [-] and [not]
    on the operands they do not take, [~] on anything but truth values.  A cast
    always gives [n] lanes of its target.  Nothing panics. *)
Theorem operators_typed d n l r :
  typed d n l → typed d n r →
  (∀ op, gives (apply_infix op l r) (refusal op d l r) (typed (result_dtype op d) n)) ∧
  (∀ op, gives (apply_prefix op l) (prefix_refusal op l) (typed (prefix_dtype op d) n)) ∧
  (∀ target, ∃ w, simd_cast target l = Ok w ∧ typed target n w).
Proof using All.
  intros Hl Hr. split_and!; intros op; [|by apply prefix_typed|by eapply cast_typed].
  destruct (is_membership op) eqn:Hm.
  - assert (apply_infix op l r = eval_membership (B:=B) (R:=R) op l r) as -> by (by destruct op).
    unfold refusal. rewrite Hm. destruct Hr as (lanes & Hp & _). by destruct r.
  - destruct (is_simd l || is_simd r) eqn:Hs; [|by apply infix_host].
    assert (apply_infix op l r = simd_binop op l r) as ->; [|by apply simd_binop_typed].
    unfold Values.apply_infix. rewrite Hs. by destruct op.
Qed.
End operators.

Lemma operators_typed_witness :
  ∃ w, simd_cast (VT:=unit_types) DFloat32 (VSimd DUInt8 (IntLanes [255; 0])) = Ok w ∧ typed DFloat32 2 w.
Proof.
  assert (typed (VT:=unit_types) DUInt8 2 (VSimd DUInt8 (IntLanes [255; 0]))) as Hv.
  { exists (IntLanes [255; 0]). do 3 (split; [done|]). repeat constructor; by vm_compute. }
  exact (proj2 (proj2 (operators_typed (B:=Z) (R:=Qcanon.Qc) DUInt8 2 _ _ Hv Hv)) DFloat32).
Defined.
