(* ===== verification/Bitcast.v ===== *)
(** * Bitcast: a bit cast keeps the bits

    [simd_bitcast] of [runtime.rs] packs the lanes of a vector into 64-bit words,
    lane 0 lowest, and reads lanes of another dtype out of them.  The number
    the lanes spell, in base two to the width, is the same on both sides
    ([simd_bitcast_keeps_bits]). *)

From S2P Require Import Prelude Literal Ieee NarrowFloat Dtypes FloatOps Lanes.
From S2P Require Import DoubleRounding LaneLaws Values ValueLaws ValueTyping.
Local Open Scope Z_scope.

(** ** Digits *)

(** The number of the digits, the lowest first, in base [2 ^ w]. *)
Fixpoint spell (w : Z) (digits : list Z) : Z :=
  match digits with
  | [] => 0
  | x :: digits => x + 2 ^ w * spell w digits
  end.

(** Digit [i] of a number in base [2 ^ w]. *)
Definition digit (w N : Z) (i : nat) : Z := (N / 2 ^ (Z.of_nat i * w)) mod 2 ^ w.

Section digits.
Context (w : Z) (Hw : 0 <= w).

Lemma base_pos : 0 < 2 ^ w.
Proof using Hw. by apply pow2_pos. Qed.

Lemma spell_range l : Forall (in_unsigned w) l → 0 <= spell w l < 2 ^ (Z.of_nat (length l) * w).
Proof using Hw.
  pose proof base_pos. induction 1 as [|x l Hx _ IH]; [done|]. unfold in_unsigned in Hx.
  cbn [spell length]. rewrite Nat2Z.inj_succ, Z.mul_succ_l, Z.add_comm, Z.pow_add_r by lia. nia.
Qed.

Lemma digit_0 N : digit w N 0 = N mod 2 ^ w.
Proof using Type. unfold digit. by rewrite Z.div_1_r. Qed.

Lemma digit_S N i : digit w N (S i) = digit w (N / 2 ^ w) i.
Proof using Hw.
  unfold digit. pose proof base_pos. pose proof (pow2_pos (Z.of_nat i * w) ltac:(lia)).
  rewrite Z.div_div by lia. do 2 f_equal. rewrite <- Z.pow_add_r by lia. f_equal. lia.
Qed.

Lemma spell_cons_div x l : in_unsigned w x → spell w (x :: l) / 2 ^ w = spell w l ∧ spell w (x :: l) mod 2 ^ w = x.
Proof using Hw.
  intros Hx. pose proof base_pos. unfold in_unsigned in Hx. cbn [spell]. rewrite (Z.mul_comm (2 ^ w)).
  rewrite Z.div_add, Z.div_small, Z_mod_plus_full, Z.mod_small by lia. done.
Qed.

Lemma spell_lookup l i x : Forall (in_unsigned w) l → l !! i = Some x → digit w (spell w l) i = x.
Proof using Hw.
  intros Hl. revert i. induction Hl as [|y l Hy _ IH]; intros [|i] Hi; simplify_eq/=.
  - rewrite digit_0. by apply spell_cons_div.
  - change (y + 2 ^ w * spell w l) with (spell w (y :: l)). rewrite digit_S.
    destruct (spell_cons_div y l Hy) as [-> _]. by apply IH.
Qed.

Lemma digits_spell N n : 0 <= N < 2 ^ (Z.of_nat n * w) → spell w (digit w N <$> seq 0 n) = N.
Proof using Hw.
  revert N. induction n as [|n IH]; intros N HN; [change (2 ^ (Z.of_nat 0 * w)) with 1 in HN; cbn; lia|].
  pose proof base_pos. rewrite Nat2Z.inj_succ, Z.mul_succ_l, Z.pow_add_r in HN by lia.
  cbn [seq fmap list_fmap spell].
  rewrite digit_0. rewrite <- seq_shift, <- list_fmap_compose.
  rewrite (list_fmap_ext (digit w N ∘ S) (digit w (N / 2 ^ w))) by (intros ? ? _; apply digit_S).
  rewrite IH; [rewrite Z.add_comm; symmetry; by apply Z.div_mod; lia|].
  split; [apply Z.div_pos; lia|apply Z.div_lt_upper_bound; lia].
Qed.

Lemma spell_digits l : Forall (in_unsigned w) l → digit w (spell w l) <$> seq 0 (length l) = l.
Proof using Hw.
  intros Hl. apply list_eq. intros i. rewrite list_lookup_fmap.
  destruct (decide (i < length l)%nat) as [Hi|Hi].
  - rewrite lookup_seq_lt by done. destruct (lookup_lt_is_Some_2 l i Hi) as [x Hx]. rewrite Hx. cbn.
    f_equal. by apply spell_lookup.
  - rewrite lookup_seq_ge, lookup_ge_None_2 by lia. done.
Qed.

Lemma digit_range N i : in_unsigned w (digit w N i).
Proof using Hw. apply Z.mod_pos_bound, base_pos. Qed.

Lemma spell_insert l i x y :
  l !! i = Some x → spell w (<[i := y]> l) = spell w l + (y - x) * 2 ^ (Z.of_nat i * w).
Proof using Hw.
  revert i. induction l as [|z l IH]; intros i Hi; [done|]. destruct i as [|i].
  { simplify_eq/=. change (2 ^ (Z.of_nat 0 * w)) with 1. lia. }
  change (l !! i = Some x) in Hi.
  change (<[S i:=y]> (z :: l)) with (z :: <[i:=y]> l). cbn [spell]. rewrite (IH i) by done. replace (Z.of_nat (S i) * w) with (w + Z.of_nat i * w) by lia.
  rewrite Z.pow_add_r by lia. ring.
Qed.

Lemma spell_app l l' : spell w (l ++ l') = spell w l + 2 ^ (Z.of_nat (length l) * w) * spell w l'.
Proof using Hw.
  induction l as [|x l IH]; cbn [app spell length]; [by rewrite Z.mul_1_l|].
  rewrite IH. replace (Z.of_nat (S (length l)) * w) with (w + Z.of_nat (length l) * w) by lia.
  rewrite Z.pow_add_r by lia. ring.
Qed.

Lemma spell_zeros n : spell w (replicate n 0) = 0.
Proof using Type. induction n as [|n IH]; cbn [replicate spell]; [done|]. by rewrite IH, Z.mul_0_r. Qed.
End digits.

(** A digit inside a digit of a wider base. *)
Lemma digit_inside a s t W :
  0 <= s → 0 <= t → s + t <= W → ((a mod 2 ^ W) / 2 ^ s) mod 2 ^ t = (a / 2 ^ s) mod 2 ^ t.
Proof.
  intros Hs Ht HW. rewrite <- !Z.shiftr_div_pow2, <- !Z.land_ones by lia.
  apply Z.bits_inj'. intros n Hn. rewrite !Z.land_spec, !Z.shiftr_spec, Z.land_spec by lia.
  destruct (Z.lt_ge_cases n t) as [Hlt|Hge].
  - by rewrite (Z.ones_spec_low W) by lia; rewrite andb_true_r.
  - by rewrite (Z.ones_spec_high t) by lia; rewrite !andb_false_r.
Qed.

(** ** Packing and reading *)

Lemma lor_disjoint a b s : 0 <= s → 0 <= a < 2 ^ s → Z.lor a (b * 2 ^ s) = a + b * 2 ^ s.
Proof.
  intros Hs Ha. rewrite <- Z.shiftl_mul_pow2 by done.
  assert (Z.land a (Z.shiftl b s) = 0) as Hz.
  { apply Z.bits_inj'. intros n Hn. rewrite Z.land_spec, Z.bits_0.
    destruct (Z.lt_ge_cases n s) as [Hlt|Hge].
    - rewrite (Z.shiftl_spec_low b) by done. apply andb_false_r.
    - rewrite <- (Z.mod_small a (2 ^ s)), <- Z.land_ones, Z.land_spec, (Z.ones_spec_high s) by lia.
      by rewrite andb_false_r. }
  pose proof (Z.add_lor_land a (Z.shiftl b s)) as Hl. rewrite Hz in Hl. lia.
Qed.

(** The widths of lanes divide a word. *)
Definition lane_width (w : Z) : Prop := ∃ k, 0 <= k <= 6 ∧ w = 2 ^ k.

Lemma dtype_lane_width d : lane_width (Dtype_.bit_width d).
Proof.
  destruct d; [exists 6|exists 6|exists 3|exists 4|exists 5|exists 6|exists 3|exists 4|exists 5|exists 6|exists 4
    |exists 5|exists 6|exists 0]; done.
Qed.

Section width.
Context (w : Z) (Hw : lane_width w).

Lemma lane_width_range : 1 <= w <= 64.
Proof using Hw.
  destruct Hw as (k & Hk & ->). pose proof (pow2_pos k ltac:(lia)).
  assert (2 ^ k <= 2 ^ 6) by (apply Z.pow_le_mono_r; lia). lia.
Qed.

(** A lane lies within one word. *)
Lemma offset_fits i : 0 <= i → 0 <= (i * w) mod 64 ∧ (i * w) mod 64 + w <= 64.
Proof using Hw.
  intros Hi. pose proof lane_width_range. destruct Hw as (k & Hk & Heq).
  assert (64 = 2 ^ (6 - k) * w) as H64 by (rewrite Heq, <- Z.pow_add_r by lia; by replace (6 - k + k) with 6 by lia).
  pose proof (pow2_pos (6 - k) ltac:(lia)). set (q := 2 ^ (6 - k)) in *.
  rewrite H64, Z.mul_mod_distr_r by lia. pose proof (Z.mod_pos_bound i q ltac:(lia)). nia.
Qed.

Lemma low_bits_ones : low_bits w = Z.ones w.
Proof using Hw.
  pose proof lane_width_range. unfold low_bits. destruct (Z.leb_spec 64 w).
  - by replace w with 64 by lia.
  - rewrite Z.ones_equiv, Z.shiftl_1_l by lia. lia.
Qed.

Lemma land_low_bits z : Z.land z (low_bits w) = z mod 2 ^ w.
Proof using Hw. pose proof lane_width_range. by rewrite low_bits_ones, Z.land_ones by lia. Qed.

Lemma offset_split i : 0 <= i → i * w = i * w / 64 * 64 + (i * w) mod 64.
Proof using Type. intros Hi. pose proof (Z.div_mod (i * w) 64 ltac:(lia)). lia. Qed.

Context `{!ValueTypes}.

(** One lane goes above the lanes before it. *)
Lemma put_lane_spec words i lane :
  Forall (in_unsigned 64) words → spell 64 words < 2 ^ (Z.of_nat i * w) →
  Z.of_nat (S i) * w <= Z.of_nat (length words) * 64 →
  ∃ words', put_lane w words i lane = Ok words' ∧ Forall (in_unsigned 64) words' ∧
    length words' = length words ∧
    spell 64 words' = spell 64 words + 2 ^ (Z.of_nat i * w) * (lane mod 2 ^ w).
Proof using Hw.
  intros Hwords HN Hlen. pose proof lane_width_range as Hwr.
  pose proof (offset_fits (Z.of_nat i) ltac:(lia)) as [Hs Hfit].
  pose proof (offset_split (Z.of_nat i) ltac:(lia)) as Hoff.
  unfold put_lane. set (offset := Z.of_nat i * w) in *. set (s := offset mod 64) in *. set (k := offset / 64) in *.
  assert (0 <= k) as Hk by (apply Z.div_pos; nia).
  assert (k < Z.of_nat (length words)) as Hkl by (apply Z.div_lt_upper_bound; lia).
  destruct (lookup_lt_is_Some_2 words (Z.to_nat k)) as [x Hx]; [lia|].
  pose proof (spell_lookup 64 ltac:(lia) words _ _ Hwords Hx) as Hdigit.
  pose proof (spell_range 64 ltac:(lia) words Hwords) as [HN0 _].
  unfold digit in Hdigit. rewrite Z2Nat.id in Hdigit by done.
  pose proof (pow2_pos s Hs). pose proof (pow2_pos (k * 64) ltac:(lia)).
  assert (0 <= x < 2 ^ s) as Hxs.
  { rewrite Hoff, Z.pow_add_r in HN by lia.
    assert (0 <= spell 64 words / 2 ^ (k * 64) < 2 ^ s) as Hd.
    { split; [apply Z.div_pos; lia|apply Z.div_lt_upper_bound; lia]. }
    assert (2 ^ s <= 2 ^ 64) by (apply Z.pow_le_mono_r; lia).
    rewrite Z.mod_small in Hdigit by lia. lia. }
  set (c := lane mod 2 ^ w). pose proof (Z.mod_pos_bound lane (2 ^ w) (pow2_pos w ltac:(lia))) as Hc. fold c in Hc.
  assert (c * 2 ^ s + 2 ^ s <= 2 ^ 64) as Htop.
  { assert (2 ^ w * 2 ^ s <= 2 ^ 64) by (rewrite <- Z.pow_add_r by lia; apply Z.pow_le_mono_r; lia). nia. }
  unfold index. rewrite Hx. cbn [unwrap mbind outcome_bind]. rewrite land_low_bits, Z.shiftl_mul_pow2 by done. fold c.
  assert (u64_wrapping (c * 2 ^ s) = c * 2 ^ s) as -> by (apply to_unsigned_small; unfold in_unsigned; nia).
  rewrite lor_disjoint by done. eexists. rewrite set_at_lt by lia. split_and!; [done| |by rewrite length_insert|].
  - apply Forall_insert; [done|]. unfold in_unsigned. nia.
  - rewrite (spell_insert 64 ltac:(lia) words _ x) by done. rewrite Z2Nat.id by done.
    replace (x + c * 2 ^ s - x) with (c * 2 ^ s) by lia.
    rewrite Hoff, Z.pow_add_r by lia. ring.
Qed.

Lemma pack_spec raw words i :
  Forall (in_unsigned 64) words → spell 64 words < 2 ^ (Z.of_nat i * w) →
  Z.of_nat (i + length raw) * w <= Z.of_nat (length words) * 64 →
  ∃ words', pack w words i raw = Ok words' ∧ Forall (in_unsigned 64) words' ∧ length words' = length words ∧
    spell 64 words' = spell 64 words + 2 ^ (Z.of_nat i * w) * spell w ((λ lane, lane mod 2 ^ w) <$> raw).
Proof using Hw.
  pose proof lane_width_range as Hwr.
  revert words i. induction raw as [|lane raw IH]; intros words i Hwords HN Hlen.
  { exists words. split_and!; [done..|]. cbn. lia. }
  cbn [length] in Hlen. destruct (put_lane_spec words i lane) as (words1 & Hput & Hw1 & Hl1 & Hs1); [done|done|nia|].
  pose proof (pow2_pos (Z.of_nat i * w) ltac:(lia)).
  pose proof (Z.mod_pos_bound lane (2 ^ w) (pow2_pos w ltac:(lia))).
  assert (2 ^ (Z.of_nat (S i) * w) = 2 ^ (Z.of_nat i * w) * 2 ^ w) as Hpow.
  { rewrite <- Z.pow_add_r by lia. f_equal. lia. }
  destruct (IH words1 (S i)) as (words2 & Hpack & Hw2 & Hl2 & Hs2); [done|rewrite Hs1, Hpow; nia|lia|].
  exists words2. cbn [pack]. rewrite Hput. cbn [mbind outcome_bind]. split_and!; [done|done|lia|].
  rewrite Hs2, Hs1, Hpow. cbn [fmap list_fmap spell]. ring.
Qed.

Lemma read_bits_spec words i :
  Forall (in_unsigned 64) words → Z.of_nat (S i) * w <= Z.of_nat (length words) * 64 →
  read_bits w words i = Ok (digit w (spell 64 words) i).
Proof using Hw.
  intros Hwords Hlen. pose proof lane_width_range as Hwr.
  pose proof (offset_fits (Z.of_nat i) ltac:(lia)) as [Hs Hfit].
  pose proof (offset_split (Z.of_nat i) ltac:(lia)) as Hoff.
  unfold read_bits, digit. set (offset := Z.of_nat i * w) in *. set (s := offset mod 64) in *. set (k := offset / 64) in *.
  assert (0 <= k) as Hk by (apply Z.div_pos; nia).
  assert (k < Z.of_nat (length words)) as Hkl by (apply Z.div_lt_upper_bound; lia).
  destruct (lookup_lt_is_Some_2 words (Z.to_nat k)) as [x Hx]; [lia|].
  pose proof (spell_lookup 64 ltac:(lia) words _ _ Hwords Hx) as Hdigit.
  unfold digit in Hdigit. rewrite Z2Nat.id in Hdigit by done.
  unfold index. rewrite Hx. cbn [unwrap mbind outcome_bind]. f_equal.
  rewrite land_low_bits, Z.shiftr_div_pow2 by done. rewrite <- Hdigit, digit_inside by lia.
  pose proof (pow2_pos s Hs). pose proof (pow2_pos (k * 64) ltac:(lia)).
  rewrite Z.div_div by lia. rewrite <- Z.pow_add_r by lia. by rewrite <- Hoff.
Qed.
End width.

(** ** The bits of lanes *)

(** The lanes of a vector as digits of their width. *)
Definition cells `{!Half} (d : Dtype) (lanes : SimdLanes) : list Z :=
  (λ lane, lane mod 2 ^ Dtype_.bit_width d) <$> raw_lanes d lanes.

(** The dtypes whose lanes are their bits; a narrow float lane is held as a
    double, which does not keep the payload of a NaN. *)
Definition keeps_bits (d : Dtype) : Prop := Dtype_.is_narrow_float d = false.

(** Lanes as the machine holds them. *)
Definition machine_lanes (d : Dtype) (lanes : SimdLanes) : Prop :=
  lanes_ok d lanes ∧ match lanes with FloatLanes l => Forall (in_unsigned 64) l | _ => True end.

Section bitcast.
Context {VT : ValueTypes} `{!Half}.

Lemma sign_extend_spec t x : 0 < t <= 64 → in_unsigned t x → sign_extend t x = to_signed t x.
Proof using Type.
  intros Ht Hx. unfold in_unsigned in Hx. unfold sign_extend, u64_wrapping.
  rewrite Z.shiftl_mul_pow2 by lia. set (h := 64 - t).
  pose proof (pow2_pos t ltac:(lia)). pose proof (pow2_pos h ltac:(lia)). pose proof (pow2_pos (t - 1) ltac:(lia)).
  assert (2 ^ 64 = 2 ^ t * 2 ^ h) as H64 by (rewrite <- Z.pow_add_r by lia; f_equal; lia).
  assert (2 ^ t = 2 * 2 ^ (t - 1)) as Ht2 by (apply pow2_split; lia).
  assert (2 ^ 63 = 2 ^ (t - 1) * 2 ^ h) as H63 by (rewrite <- Z.pow_add_r by lia; f_equal; lia).
  rewrite to_unsigned_small by (unfold in_unsigned; nia).
  assert (to_signed t x = if x <? 2 ^ (t - 1) then x else x - 2 ^ t) as Hts.
  { destruct (Z.ltb_spec x (2 ^ (t - 1))).
    - apply to_signed_small; [lia|]. unfold in_signed. lia.
    - rewrite (to_signed_congr t x (x - 2 ^ t)); [apply to_signed_small; [lia|unfold in_signed; lia]|].
      replace x with (x - 2 ^ t + 1 * 2 ^ t) at 1 by lia. apply Z_mod_plus_full. }
  assert (to_signed 64 (x * 2 ^ h) = to_signed t x * 2 ^ h) as ->.
  { rewrite Hts. destruct (Z.ltb_spec x (2 ^ (t - 1))).
    - apply to_signed_small; [lia|]. unfold in_signed. change (64 - 1) with 63. rewrite H63. nia.
    - rewrite (to_signed_congr 64 (x * 2 ^ h) ((x - 2 ^ t) * 2 ^ h)).
      + apply to_signed_small; [lia|]. unfold in_signed. change (64 - 1) with 63. rewrite H63. nia.
      + replace (x * 2 ^ h) with ((x - 2 ^ t) * 2 ^ h + 1 * 2 ^ 64) by (rewrite H64; ring). apply Z_mod_plus_full. }
  rewrite Z.shiftr_div_pow2 by lia. apply Z.div_mul. lia.
Qed.

Lemma sized_lane d : keeps_bits d → d ≠ DBool → d ≠ DFloat64 →
  Dtype_.is_integral d = true ∧
  ∀ raw, lanes_of_raw d raw =
    IntLanes ((λ bits, if Dtype_.is_unsigned d then bits else sign_extend (Dtype_.bit_width d) bits) <$> raw).
Proof using Type. by destruct d. Qed.

Lemma width_lanes_of_raw d raw : width (lanes_of_raw d raw) = length raw.
Proof using Type. destruct d; cbn; by rewrite ?length_fmap. Qed.

Lemma mod_64 d z : to_unsigned 64 z mod 2 ^ Dtype_.bit_width d = z mod 2 ^ Dtype_.bit_width d.
Proof using Type.
  unfold to_unsigned. apply Z.mod_mod_divide. pose proof (lane_width_range _ (dtype_lane_width d)).
  exists (2 ^ (64 - Dtype_.bit_width d)). rewrite <- Z.pow_add_r by lia. f_equal. lia.
Qed.

(** Lanes read from digits spell them. *)
Lemma cells_of_raw d raw :
  keeps_bits d → Forall (in_unsigned (Dtype_.bit_width d)) raw → cells d (lanes_of_raw d raw) = raw.
Proof using Type.
  intros Hd Hraw. unfold cells.
  assert (∀ f, (∀ x, in_unsigned (Dtype_.bit_width d) x → f x = x) → f <$> raw = raw) as Hid.
  { intros f Hf. clear Hd. induction Hraw as [|x raw Hx _ IH]; [done|]. cbn. by rewrite Hf, IH. }
  destruct (decide (d = DBool)) as [->|Hb]; [|destruct (decide (d = DFloat64)) as [->|Hf]].
  - cbn [lanes_of_raw raw_lanes]. rewrite <- !list_fmap_compose. apply Hid. intros x Hx. unfold in_unsigned in Hx. cbn in *.
    assert (x = 0 ∨ x = 1) as [-> | ->] by lia; done.
  - cbn [lanes_of_raw raw_lanes]. rewrite <- list_fmap_compose. apply Hid. intros x Hx. by apply Z.mod_small.
  - destruct (sized_lane d Hd Hb Hf) as [Hi ->]. cbn [raw_lanes]. rewrite <- !list_fmap_compose. apply Hid. intros x Hx. cbn.
    rewrite mod_64. pose proof (lane_width_range _ (dtype_lane_width d)).
    destruct (Dtype_.is_unsigned d); [by apply Z.mod_small|].
    rewrite sign_extend_spec, to_signed_mod by (done || lia). by apply Z.mod_small.
Qed.

(** And digits of lanes read as them. *)
Lemma raw_of_cells d lanes : keeps_bits d → machine_lanes d lanes → lanes_of_raw d (cells d lanes) = lanes.
Proof using Type.
  intros Hd [Hok Hfloat]. unfold cells. destruct lanes as [l|l|l]; cbn [raw_lanes] in *.
  - destruct Hok as [Hi Hl].
    assert (d ≠ DBool ∧ d ≠ DFloat64) as [Hb Hf] by (split; by intros ->).
    destruct (sized_lane d Hd Hb Hf) as [_ ->]. f_equal. rewrite <- !list_fmap_compose.
    clear Hfloat. induction Hl as [|x l Hx _ IH]; [done|]. cbn. f_equal; [|done].
    rewrite mod_64. pose proof (lane_width_range _ (dtype_lane_width d)).
    unfold lane_in_range in Hx. destruct (Dtype_.is_unsigned d); [by apply Z.mod_small|].
    rewrite sign_extend_spec by (lia || apply to_unsigned_range; lia).
    change (x mod 2 ^ Dtype_.bit_width d) with (to_unsigned (Dtype_.bit_width d) x).
    rewrite to_signed_of_unsigned. apply to_signed_small; [lia|done].
  - destruct Hok as (f & Hf & _). destruct d; try done. cbn. f_equal. rewrite <- list_fmap_compose.
    clear Hf. induction Hfloat as [|x l Hx _ IH]; [done|]. cbn [fmap list_fmap]. f_equal; [by apply Z.mod_small|done].
  - cbn [lanes_ok] in Hok. subst d. cbn [lanes_of_raw]. f_equal. rewrite <- !list_fmap_compose. clear Hd Hfloat.
    induction l as [|b l IH]; [done|]. cbn [fmap list_fmap]. f_equal; [by destruct b|exact IH].
Qed.

Lemma cells_range d lanes : Forall (in_unsigned (Dtype_.bit_width d)) (cells d lanes).
Proof using Type.
  pose proof (lane_width_range _ (dtype_lane_width d)).
  apply Forall_fmap, Forall_true. intros x. apply to_unsigned_range. lia.
Qed.

Lemma length_cells d lanes : length (cells d lanes) = width lanes.
Proof using Type. unfold cells. destruct lanes; cbn; by rewrite !length_fmap. Qed.

Lemma collect_map {A B'} (f : A → result B') g (l : list A) :
  Forall (λ x, f x = Ok (g x)) l → collect f l = Ok (g <$> l).
Proof using Type. induction 1 as [|x l Hx _ IH]; [done|]. cbn. rewrite Hx. cbn. by rewrite IH. Qed.

Lemma bitcast_lanes d n target m v lanes :
  simd_parts v = Some (d, lanes) → width lanes = n →
  simd_bitcast target m v =
    if Z.of_nat n * Dtype_.bit_width d =? Z.of_nat m * Dtype_.bit_width target then
      Ok (simd_value target (lanes_of_raw target
        (digit (Dtype_.bit_width target) (spell (Dtype_.bit_width d) (cells d lanes)) <$> seq 0 m)))
    else type_error (BitcastWidths n d m target).
Proof using Type.
  intros Hp Hn. unfold simd_bitcast.
  assert (match v with VBool b => Ok (DBool, BoolLanes [b]) | other => ok_or (TypeError (CannotBitcast other)) (simd_parts other) end
    = Ok (d, lanes)) as -> by (destruct v; simplify_eq/=; done).
  cbn [mbind outcome_bind].
  assert (length (raw_lanes d lanes) = n) as -> by (rewrite <- (length_cells d lanes) in Hn; unfold cells in Hn; by rewrite length_fmap in Hn).
  destruct (Z.eqb_spec (Z.of_nat n * Dtype_.bit_width d) (Z.of_nat m * Dtype_.bit_width target)) as [Heq|]; [|done].
  cbn [negb]. set (w := Dtype_.bit_width d) in *. set (t := Dtype_.bit_width target) in *.
  pose proof (dtype_lane_width d : lane_width w) as Hlw. pose proof (dtype_lane_width target : lane_width t) as Hlt.
  pose proof (lane_width_range w Hlw). pose proof (lane_width_range t Hlt).
  set (size := (Z.of_nat m * t + 63) / 64).
  assert (Z.of_nat m * t <= size * 64) as Hsize.
  { pose proof (Z.div_mod (Z.of_nat m * t + 63) 64 ltac:(lia)). pose proof (Z.mod_pos_bound (Z.of_nat m * t + 63) 64 ltac:(lia)).
    unfold size. lia. }
  assert (length (raw_lanes d lanes) = n) as Hlen by (rewrite <- (length_cells d lanes) in Hn; unfold cells in Hn; by rewrite length_fmap in Hn).
  destruct (pack_spec w Hlw (raw_lanes d lanes) (replicate (Z.to_nat size) 0) 0) as (words & -> & Hwords & Hwlen & Hspell).
  - apply Forall_replicate. done.
  - rewrite spell_zeros. done.
  - rewrite length_replicate. cbn [Nat.add]. rewrite Hlen. nia.
  - rewrite spell_zeros, Z.add_0_l in Hspell. change (2 ^ (Z.of_nat 0 * w)) with 1 in Hspell. rewrite Z.mul_1_l in Hspell.
    change ((λ lane, lane mod 2 ^ w) <$> raw_lanes d lanes) with (cells d lanes) in Hspell.
    cbn [mbind outcome_bind]. rewrite (collect_map _ (digit t (spell w (cells d lanes)))); [done|].
    apply Forall_forall. intros i Hi. apply elem_of_seq in Hi. rewrite <- Hspell.
    apply read_bits_spec; [done|done|]. rewrite Hwlen, length_replicate. nia.
Qed.

(** C24: a bit cast between integer, [Bool] and [Float64] lanes keeps the bits.
    Reinterpreting [n] lanes of one such dtype as [m] of another of the same
    total width gives the lanes whose digits spell the number the source's lanes
    spell, lane 0 lowest; casting back gives the lanes there were; and any other
    width is an error.  It holds with the lanes packed into 64-bit words and read
    from them, at every pair of lane widths, with no index out of range.
    [float16] and [float32] lanes are left out ([keeps_bits]): they are held as
    doubles, and a NaN's payload is not kept; of a cast to them the theorem says
    only that it gives [m] lanes. *)
Theorem simd_bitcast_keeps_bits d n target m v lanes :
  simd_parts v = Some (d, lanes) → width lanes = n → keeps_bits d → machine_lanes d lanes →
  if decide (Z.of_nat n * Dtype_.bit_width d = Z.of_nat m * Dtype_.bit_width target) then
    ∃ out, simd_bitcast target m v = Ok (simd_value target out) ∧ width out = m ∧
      (keeps_bits target →
        spell (Dtype_.bit_width target) (cells target out) = spell (Dtype_.bit_width d) (cells d lanes) ∧
        simd_bitcast d n (VSimd target out) = Ok (simd_value d lanes))
  else simd_bitcast target m v = type_error (BitcastWidths n d m target).
Proof using Type.
  intros Hp Hn Hd Hok. rewrite (bitcast_lanes d n target m v lanes) by done.
  set (w := Dtype_.bit_width d) in *. set (t := Dtype_.bit_width target) in *.
  pose proof (lane_width_range w (dtype_lane_width d)). pose proof (lane_width_range t (dtype_lane_width target)).
  case_decide as Heq; [rewrite (proj2 (Z.eqb_eq _ _) Heq)|by rewrite (proj2 (Z.eqb_neq _ _) Heq)].
  set (N := spell w (cells d lanes)). set (digits := digit t N <$> seq 0 m).
  assert (Forall (in_unsigned t) digits) as Hdigits.
  { apply Forall_fmap, Forall_true. intros i. apply digit_range. lia. }
  assert (0 <= N < 2 ^ (Z.of_nat m * t)) as HN.
  { rewrite <- Heq, <- Hn, <- (length_cells d lanes). apply spell_range; [lia|]. apply cells_range. }
  exists (lanes_of_raw target digits). split; [done|].
  assert (width (lanes_of_raw target digits) = m) as Hm.
  { unfold digits. by rewrite width_lanes_of_raw, length_fmap, length_seq. }
  split; [done|]. intros Ht.
  assert (spell t (cells target (lanes_of_raw target digits)) = N) as Hspell.
  { rewrite cells_of_raw by done. apply digits_spell; [lia|done]. }
  split; [done|].
  rewrite (bitcast_lanes target m d n _ (lanes_of_raw target digits)) by done.
  fold w t. rewrite (proj2 (Z.eqb_eq _ _)) by (symmetry; exact Heq). fold t in Hspell. rewrite Hspell.
  assert (digit w N <$> seq 0 n = cells d lanes) as ->.
  { rewrite <- Hn, <- (length_cells d lanes). apply spell_digits; [lia|]. apply cells_range. }
  by rewrite raw_of_cells.
Qed.
End bitcast.

(** Two [int16] lanes as an [int32], and back. *)
Lemma simd_bitcast_keeps_bits_witness :
  ∃ out, simd_bitcast (VT:=unit_types) DInt32 1 (VSimd DInt16 (IntLanes [-2; 3])) = Ok (simd_value DInt32 out) ∧
    width out = 1%nat ∧
    (keeps_bits DInt32 →
      spell (Dtype_.bit_width DInt32) (cells DInt32 out) = spell (Dtype_.bit_width DInt16) (cells DInt16 (IntLanes [-2; 3])) ∧
      simd_bitcast (VT:=unit_types) DInt16 2 (VSimd DInt32 out) = Ok (simd_value DInt16 (IntLanes [-2; 3]))).
Proof.
  assert (machine_lanes DInt16 (IntLanes [-2; 3])) as Hok by (repeat constructor; by vm_compute).
  exact (simd_bitcast_keeps_bits (VT:=unit_types) DInt16 2 DInt32 1 (VSimd DInt16 (IntLanes [-2; 3])) _ eq_refl eq_refl eq_refl Hok).
Defined.
