(* ===== verification/Fold.v ===== *)
(** * Fold: the compile-time folder

    [mojito-types/src/param_expr/fold.rs]: the value of an operator over two
    concrete compile-time values, which the checker, the elaborator,
    monomorphization and the parameter expressions share, and the primitive
    operators of parameter expressions ([ParamOp] and [fold_primitive] of
    [mojito-types/src/param_expr.rs]).

    The text of an error is its constructor's string; where it names a value
    the constructor holds the value.  Three questions about types are the
    class [TypeLanguage]. *)

From Stdlib Require Import Ascii String.
From S2P Require Import Prelude Text Literal Ieee NarrowFloat Dtypes FloatOps Lanes.
Local Open Scope Z_scope.

(** [same_type], the shape [simd_shape(storage_value_ty(ty))] of a storage
    type's vector, and [CtValue::materialize_as] at that vector's type. *)
Class TypeLanguage (T V : Type) : Type := {
  same_type : T → T → bool;
  lane_shape : T → option (Dtype * Z);
  materialize_as : V → T → option V;
}.

(** [BigInt::to_f64]: the nearest double, ties to even. *)
Class IntegerFloats (B : Type) `{!BigInt B} : Type := {
  bi_to_f64 : B → option Z;
}.

(** ** Primitive operators *)

Module Param.
Inductive Op : Type :=
| Add | Mul | Neg | Sub | Div | FloorDiv | Mod | Pow | Shl | Shr | BitAnd | BitOr | BitXor
| Eq | Lt | Le | BoolAnd | BoolOr | BoolXor | Cond
| CastToBuiltin | CastFromBuiltin | DataToStr | StringConcat | StringSize | StringAddress
| SimdSplat | Cast | TargetGetField | TargetHasFeature | DtypeToUi8 | StoreToMem
| IntLiteralConvert | FloatLiteralConvert | IntToFloatLiteral | FloatToIntLiteral
| FloatLiteralIsNan | FloatLiteralIsNegZero | FloatLiteralIsNormal.

#[export] Instance Op_eq_dec : EqDecision Op.
Proof. solve_decision. Defined.

Definition name (o : Op) : string :=
  match o with
  | Add => "add" | Mul => "mul" | Neg => "neg" | Sub => "sub" | Div => "div"
  | FloorDiv => "floordiv" | Mod => "mod" | Pow => "pow" | Shl => "shl" | Shr => "shr"
  | BitAnd => "and" | BitOr => "or" | BitXor => "xor" | Eq => "eq" | Lt => "lt" | Le => "le"
  | BoolAnd => "bool_and" | BoolOr => "bool_or" | BoolXor => "bool_xor" | Cond => "cond"
  | CastToBuiltin => "cast_to_builtin" | CastFromBuiltin => "cast_from_builtin"
  | DataToStr => "data_to_str" | StringConcat => "string_concat" | StringSize => "string_size"
  | StringAddress => "string_address" | SimdSplat => "simd_splat" | Cast => "cast"
  | TargetGetField => "target_get_field" | TargetHasFeature => "target_has_feature"
  | DtypeToUi8 => "dtype_to_ui8" | StoreToMem => "store_to_mem"
  | IntLiteralConvert => "int_literal_convert" | FloatLiteralConvert => "float_literal_convert"
  | IntToFloatLiteral => "int_to_float_literal" | FloatToIntLiteral => "float_to_int_literal"
  | FloatLiteralIsNan => "float_literal_isa_nan" | FloatLiteralIsNegZero => "float_literal_isa_neg_zero"
  | FloatLiteralIsNormal => "float_literal_isa_normal"
  end.

Definition ALL : list Op :=
  [Add; Mul; Neg; Sub; Div; FloorDiv; Mod; Pow; Shl; Shr; BitAnd; BitOr; BitXor; Eq; Lt; Le;
   BoolAnd; BoolOr; BoolXor; Cond; CastToBuiltin; CastFromBuiltin; DataToStr; StringConcat;
   StringSize; StringAddress; SimdSplat; Cast; TargetGetField; TargetHasFeature; DtypeToUi8;
   StoreToMem; IntLiteralConvert; FloatLiteralConvert; IntToFloatLiteral; FloatToIntLiteral;
   FloatLiteralIsNan; FloatLiteralIsNegZero; FloatLiteralIsNormal].

Definition from_name (n : string) : option Op := find (λ o, bool_decide (name o = n)) ALL.

Definition is_atom (o : Op) : bool :=
  match o with
  | Neg | Sub | Div | FloorDiv | Mod | Pow | Shl | Shr | BitAnd | BitOr | BitXor => true
  | _ => false
  end.

Definition is_unfolded_call (o : Op) : bool :=
  match o with FloorDiv | Mod | Pow => true | _ => false end.

Definition is_partial (o : Op) : bool :=
  match o with Div | FloorDiv | Mod | Pow | Shl | Shr => true | _ => false end.

Definition accepts_arity (o : Op) (arity : nat) : bool :=
  match o with
  | Neg | CastToBuiltin | CastFromBuiltin | StringSize | StringAddress | DtypeToUi8 | StoreToMem
  | IntToFloatLiteral | FloatToIntLiteral | FloatLiteralIsNan | FloatLiteralIsNegZero
  | FloatLiteralIsNormal => arity =? 1
  | Cond => arity =? 3
  | Add | Mul | BoolAnd | BoolOr | BoolXor => 2 <=? arity
  | _ => arity =? 2
  end%nat.

Definition infix (o : Op) : option InfixOp :=
  match o with
  | Add => Some Dtypes.Add | Mul => Some Dtypes.Mul | Sub => Some Dtypes.Sub | Div => Some Dtypes.Div
  | FloorDiv => Some Dtypes.FloorDiv | Mod => Some Dtypes.Mod | Pow => Some Dtypes.Pow
  | Shl => Some Dtypes.Shl | Shr => Some Dtypes.Shr | BitAnd => Some Dtypes.BitAnd
  | BitOr => Some Dtypes.BitOr | BitXor | BoolXor => Some Dtypes.BitXor
  | Eq => Some Eq_ | Lt => Some Lt_ | Le => Some Dtypes.Le
  | BoolAnd => Some And | BoolOr => Some Or
  | _ => None
  end.
End Param.
Notation ParamOp := Param.Op.

(** ** Errors *)

Inductive ParamError (V : Type) : Type :=
| Arithmetic (message : string)
| ZeroDivisor (a b : Z)
| Unsupported (message : string)
| UnsupportedOf (message : string) (v : V)
| NoCode (lane : Z)
| ArityMismatch (op : ParamOp) (found : nat)
| TypeMismatch (operation expected found : string)
| NotConstant (what : string)
| Budget (limit : nat).
Arguments Arithmetic {_} _.
Arguments ZeroDivisor {_} _ _.
Arguments Unsupported {_} _.
Arguments UnsupportedOf {_} _ _.
Arguments NoCode {_} _.
Arguments ArityMismatch {_} _ _.
Arguments TypeMismatch {_} _ _ _.
Arguments NotConstant {_} _.
Arguments Budget {_} _.

Definition KGEN_STRING_TYPE_SPELLING : string := "__mlir_type.`!kgen.string`".
Definition KGEN_DEFERRED_TYPE_SPELLING : string := "__mlir_type.`!kgen.deferred`".
Definition MLIR_INDEX_TYPE_SPELLING : string := "__mlir_type.index".

Definition no_method (ty : string) (op : InfixOp) : string :=
  "'" +:+ ty +:+ "' does not implement the '" +:+ default "operator" (Infix.dunder op) +:+ "' method".

(** ** Machine arithmetic *)

Definition wrapping_i64 (z : Z) : Z := to_signed 64 z.
Definition wrapping_u64 (z : Z) : Z := to_unsigned 64 z.

Section machine.
Context {V : Type}.

Definition shift_amount (amount : Z) : outcome (ParamError V) Z :=
  if (0 <=? amount) && (amount <? 64) then Ok amount
  else Err (Arithmetic "invalid or resource-limited compile-time shift").

Definition fold_int (op : InfixOp) (a b : Z) : outcome (ParamError V) Z :=
  match op with
  | Add => Ok (wrapping_i64 (a + b))
  | Sub => Ok (wrapping_i64 (a - b))
  | Mul => Ok (wrapping_i64 (a * b))
  | Div => if b =? 0 then Err (ZeroDivisor a b) else Ok (wrapping_i64 (Z.quot a b))
  | FloorDiv =>
      if b =? 0 then Ok 0
      else
        let quotient := wrapping_i64 (Z.quot a b) in
        if negb (Z.rem a b =? 0) && xorb (a <? 0) (b <? 0) then Ok (wrapping_i64 (quotient - 1))
        else Ok quotient
  | Mod =>
      if b =? 0 then Ok 0
      else
        let remainder := Z.rem a b in
        if negb (remainder =? 0) && xorb (remainder <? 0) (b <? 0) then Ok (wrapping_i64 (remainder + b))
        else Ok remainder
  | Pow =>
      let exponent := to_signed 32 b in
      if exponent <? 0 then
        if a =? 1 then Ok 1
        else if (a =? -1) && (Z.rem exponent 2 =? 0) then Ok 1
        else if a =? -1 then Ok (-1)
        else Ok 0
      else Ok (wrapping_i64 (a ^ exponent))
  | Shl => amount ← shift_amount b; Ok (wrapping_i64 (Z.shiftl a amount))
  | Shr => amount ← shift_amount b; Ok (Z.shiftr a amount)
  | BitAnd => Ok (Z.land a b)
  | BitOr => Ok (Z.lor a b)
  | BitXor => Ok (Z.lxor a b)
  | _ => Err (Unsupported "unsupported compile-time operator")
  end.

(** [i64::try_from(b).unwrap_or(-1)]. *)
Definition u64_shift_amount (b : Z) : outcome (ParamError V) Z :=
  shift_amount (if b <=? i64_max then b else -1).

Definition fold_uint (op : InfixOp) (a b : Z) : outcome (ParamError V) Z :=
  match op with
  | Add => Ok (wrapping_u64 (a + b))
  | Sub => Ok (wrapping_u64 (a - b))
  | Mul => Ok (wrapping_u64 (a * b))
  | Div => if b =? 0 then Err (ZeroDivisor a b) else Ok (a / b)
  | FloorDiv => if b =? 0 then Ok 0 else Ok (a / b)
  | Mod => if b =? 0 then Ok 0 else Ok (a mod b)
  | Pow =>
      let exponent := to_signed 32 b in
      if exponent <? 0 then
        if a =? 1 then Ok 1
        else if (a =? u64_max) && (Z.rem exponent 2 =? 0) then Ok 1
        else if a =? u64_max then Ok u64_max
        else Ok 0
      else Ok (wrapping_u64 (a ^ exponent))
  | Shl => amount ← u64_shift_amount b; Ok (wrapping_u64 (Z.shiftl a amount))
  | Shr => amount ← u64_shift_amount b; Ok (Z.shiftr a amount)
  | BitAnd => Ok (Z.land a b)
  | BitOr => Ok (Z.lor a b)
  | BitXor => Ok (Z.lxor a b)
  | _ => Err (Unsupported "unsupported compile-time operator")
  end.
End machine.

(** ** Targets *)

(** [s.split(c)]. *)
Fixpoint split_on (c : Ascii.ascii) (s : string) : list string :=
  match s with
  | EmptyString => [EmptyString]
  | String x s =>
      if Ascii.eqb x c then EmptyString :: split_on c s
      else match split_on c s with
           | part :: parts => String x part :: parts
           | [] => [String x EmptyString]
           end
  end.

Definition canonical_triple_arch (arch : string) : string :=
  if bool_decide (arch = "arm64") then "aarch64"
  else if bool_decide (arch = "arm64_32") then "aarch64_32"
  else if bool_decide (arch = "amd64") then "x86_64"
  else if bool_decide (arch ∈ ["i486"; "i586"; "i686"; "i786"; "i886"; "i986"]) then "i386"
  else if bool_decide (arch = "amdgcn") then "amdgpu"
  else arch.

Definition component (target : KgenTarget) (at_ : nat) : string :=
  match split_on "-"%char target.(triple) !! at_ with
  | None | Some EmptyString => "unknown"
  | Some part => part
  end.

Definition has_feature (target : KgenTarget) (name : string) : bool :=
  existsb (λ feature, bool_decide (feature = String "+"%char name)) (split_on ","%char target.(features)).

Definition reads_field (name : string) : bool :=
  bool_decide (name ∈ ["triple"; "stdlib_plugin"; "arch"; "triple_arch"; "os"; "index_bit_width"; "simd_bit_width"]).

Definition is_index_field (name : string) : bool := bool_decide (name ∈ ["index_bit_width"; "simd_bit_width"]).

(** ** Strings *)

Definition string_bytes (s : string) : list Z := (λ a, Z.of_nat (Ascii.nat_of_ascii a)) <$> String.list_ascii_of_string s.
Definition bytes_string (l : list Z) : string :=
  String.string_of_list_ascii ((λ b, Ascii.ascii_of_nat (Z.to_nat b)) <$> l).

(** [str::from_utf8]: whether the bytes are well-formed UTF-8. *)
Definition continuation (b : Z) : bool := (0x80 <=? b) && (b <=? 0xbf).
Fixpoint utf8_valid (l : list Z) : bool :=
  match l with
  | [] => true
  | a :: l =>
      if a <? 0x80 then utf8_valid l
      else if (0xc2 <=? a) && (a <=? 0xdf) then
        match l with b :: l => continuation b && utf8_valid l | _ => false end
      else if (0xe0 <=? a) && (a <=? 0xef) then
        match l with
        | b :: c :: l =>
            (if a =? 0xe0 then 0xa0 <=? b else true) && (if a =? 0xed then b <=? 0x9f else true) &&
            continuation b && continuation c && utf8_valid l
        | _ => false
        end
      else if (0xf0 <=? a) && (a <=? 0xf4) then
        match l with
        | b :: c :: d :: l =>
            (if a =? 0xf0 then 0x90 <=? b else true) && (if a =? 0xf4 then b <=? 0x8f else true) &&
            continuation b && continuation c && continuation d && utf8_valid l
        | _ => false
        end
      else false
  end.

(** ** Values *)

Section fold.
Context {T B R : Type} `{!BigInt B, !BigRational B R, !RationalFloats R, !Half, !IntegerFloats B}.
Notation CtValue := (CtValue T B R).
Context `{!TypeLanguage T CtValue}.
Notation result := (outcome (ParamError CtValue)).
Implicit Types v : CtValue.

Definition literal_value (v : CtValue) : option CtValue :=
  match v with
  | CtStr text => Some (CtKgenString text)
  | CtIntLiteral value => Some (CtPopIntLiteral value)
  | CtFloatLiteral value => Some (CtPopFloatLiteral value)
  | _ => None
  end.

(** [KgenTarget::field]. *)
Definition field (target : KgenTarget) (name : string) : option CtValue :=
  if bool_decide (name = "triple") then Some (CtKgenString target.(triple))
  else if bool_decide (name = "stdlib_plugin") then Some (CtKgenString target.(stdlib_plugin))
  else if bool_decide (name = "arch") then Some (CtKgenString target.(arch))
  else if bool_decide (name = "triple_arch") then Some (CtKgenString (canonical_triple_arch (component target 0)))
  else if bool_decide (name = "os") then Some (CtKgenString (component target 2))
  else if bool_decide (name = "index_bit_width") then Some (CtIndex target.(index_bit_width))
  else if bool_decide (name = "simd_bit_width") then Some (CtIndex target.(simd_bit_width))
  else None.

Definition integer_value v : option (IntLiteral B) :=
  match v with
  | CtInt n | CtIndex n | CtUInt n => Some (mkInt (bi_from n))
  | CtIntLiteral value => Some value
  | _ => None
  end.

Definition exact v : option (FloatLiteral R) :=
  match v with
  | CtFloat bits => literal_from_f64 bits
  | CtFloatLiteral value => Some value
  | integer => from_int <$> integer_value integer
  end.

Definition overflow {A} (o : option A) : result A := ok_or (Arithmetic "compile-time integer overflow") o.
Definition machine_int (value : IntLiteral B) : result Z := overflow (wrapping_signed value 64).
Definition machine_uint (value : IntLiteral B) : result Z := overflow (wrapping_unsigned value 64).

Definition invalid_exact : ParamError CtValue := Arithmetic "invalid exact compile-time arithmetic".
Definition machine_float v : result Z :=
  ok_or invalid_exact match v with
    | CtIntLiteral value => bi_to_f64 value.(int_value)
    | CtFloatLiteral value => literal_to_f64 (B:=B) value
    | _ => None
    end.

(** *** Comparisons *)

Definition compare (op : InfixOp) (left right : CtValue) : result bool :=
  match left, right with
  | CtDtype a, CtDtype b =>
      match op with
      | Eq_ => Ok (bool_decide (a = b))
      | Ne => Ok (bool_decide (a ≠ b))
      | _ => Err (Unsupported "'DType' supports only '==' and '!=' comparisons")
      end
  | _, _ =>
      match exact left, exact right with
      | Some a, Some b =>
          let ordering := numeric_cmp (B:=B) a b in
          match op with
          | Eq_ => Ok (bool_decide (ordering = Eq))
          | Ne => Ok (bool_decide (ordering ≠ Eq))
          | Lt_ => Ok (bool_decide (ordering = Lt))
          | Gt_ => Ok (bool_decide (ordering = Gt))
          | Le => Ok (bool_decide (ordering ≠ Gt))
          | Ge => Ok (bool_decide (ordering ≠ Lt))
          | _ => Err (Unsupported "unsupported compile-time comparison")
          end
      | _, _ =>
          let float v := match v with
            | CtFloat bits => Some bits
            | _ => match machine_float v with Ok bits => Some bits | _ => None end
            end in
          ok_or (Unsupported "numeric comparison expects numeric operands")
            (a ← float left; b ← float right; lane_compare f64_partial_cmp op a b)
      end
  end.

(** *** Literals and doubles *)

Definition fold_int_literal (op : InfixOp) (a b : IntLiteral B) : result CtValue :=
  match op with
  | Add => Ok (CtIntLiteral (int_add a b))
  | Sub => Ok (CtIntLiteral (int_sub a b))
  | Mul => Ok (CtIntLiteral (int_mul a b))
  | Div => ok_or invalid_exact (CtFloatLiteral <$> float_div (B:=B) (from_int a) (from_int b))
  | FloorDiv => ok_or invalid_exact (CtIntLiteral <$> int_floor_div a b)
  | Mod => ok_or invalid_exact (CtIntLiteral <$> int_floor_mod a b)
  | Pow => ok_or invalid_exact (CtIntLiteral <$> int_pow a b)
  | Shl => ok_or invalid_exact (CtIntLiteral <$> int_shl a b)
  | Shr => ok_or invalid_exact (CtIntLiteral <$> int_shr a b)
  | BitAnd => Ok (CtIntLiteral (int_bitand a b))
  | BitOr => Ok (CtIntLiteral (int_bitor a b))
  | BitXor => Ok (CtIntLiteral (int_bitxor a b))
  | _ => Err (Unsupported "unsupported exact compile-time operator")
  end.

Definition fold_float_literal (op : InfixOp) (a b : FloatLiteral R) : result (FloatLiteral R) :=
  match op with
  | Add => Ok (float_add (B:=B) a b)
  | Sub => Ok (float_sub (B:=B) a b)
  | Mul => Ok (float_mul (B:=B) a b)
  | Div => ok_or invalid_exact (float_div (B:=B) a b)
  | FloorDiv => ok_or invalid_exact (float_floor_div (B:=B) a b)
  | Mod => ok_or invalid_exact (float_floor_mod (B:=B) a b)
  | _ => Err (Unsupported "unsupported exact compile-time float operator")
  end.

Definition unsupported_operands : ParamError CtValue := Unsupported "unsupported compile-time operands".

Definition fold_float (op : InfixOp) (a b : Z) : result CtValue :=
  match op with
  | Add => Ok (CtFloat (f64_add a b))
  | Sub => Ok (CtFloat (f64_sub a b))
  | Mul => Ok (CtFloat (f64_mul a b))
  | Div => Ok (CtFloat (f64_div a b))
  | _ => Err unsupported_operands
  end.

(** *** Lanes *)

Definition compares (op : InfixOp) : bool :=
  match op with Eq_ | Ne | Lt_ | Gt_ | Le | Ge => true | _ => false end.

Definition shifts (op : InfixOp) : bool := match op with Shl | Shr => true | _ => false end.

(** [None], a value the function has none for, is [Err tt]. *)
Definition splat_lanes (v : CtValue) (d : Dtype) (width : Z) : outcome unit (list CtLane) :=
  let splat (lane : outcome unit CtLane) := replicate (Z.to_nat width) <$> lane in
  match v with
  | CtSimd own lanes =>
      if bool_decide (own = d) && (Z.of_nat (length lanes) =? width) then Ok lanes
      else if bool_decide (own = d) && (length lanes =? 1)%nat then splat (unwrap (lanes !! 0%nat))
      else Err tt
  | CtIntLiteral literal => splat (of_int_literal literal d)
  | CtFloatLiteral literal => splat (of_float_literal (B:=B) literal d)
  | CtBool value => if bool_decide (d = DBool) then splat (Ok (LBool value)) else Err tt
  | _ => Err tt
  end.

(** [a.zip(b)] on options, both computed. *)
Definition zip_option {A A'} (a : outcome unit A) (b : outcome unit A') : outcome unit (A * A') :=
  match a, b with
  | Ok x, Ok y => Ok (x, y)
  | Panic, _ | Ok _, Panic | Err _, Panic => Panic
  | Diverge, _ | Ok _, Diverge | Err _, Diverge => Diverge
  | _, _ => Err tt
  end.

(** [collect::<Option<Vec<_>>>]. *)
Fixpoint collect_lanes {A A'} (f : A → outcome unit A') (l : list A) : outcome unit (list A') :=
  match l with
  | [] => Ok []
  | x :: l => y ← f x; ys ← collect_lanes f l; Ok (y :: ys)
  end.

Definition fold_lane (op : InfixOp) (d : Dtype) (pair : CtLane * CtLane) : outcome unit CtLane :=
  match pair with
  | (LInt a, LInt b) =>
      if compares op then LBool <$> ok_or tt (lane_compare int_cmp op a b)
      else if shifts op && negb ((0 <=? b) && (b <? Dtype_.bit_width d)) then Err tt
      else LInt <$> int_lane_binop op d a b
  | (LFloat a, LFloat b) =>
      if compares op then LBool <$> ok_or tt (lane_compare f64_partial_cmp op a b)
      else LFloat <$> ok_or tt (float_lane_binop op d a b)
  | (LBool a, LBool b) => LBool <$> ok_or tt (bool_lane_binop op a b)
  | _ => Err tt
  end.

(** [ok_or_else(|| unsupported(message))]. *)
Definition or_unsupported {A} (message : string) (o : outcome unit A) : result A :=
  match o with
  | Ok x => Ok x
  | Err _ => Err (Unsupported message)
  | Panic => Panic
  | Diverge => Diverge
  end.

Definition ct_shape (v : CtValue) : option (Dtype * Z) :=
  match v with CtSimd d lanes => Some (d, Z.of_nat (length lanes)) | _ => None end.

Definition fold_lanes (op : InfixOp) (left right : CtValue) : result CtValue :=
  '(d, width) ← match ct_shape left, ct_shape right with
    | Some (d, a), Some (_, b) => Ok (d, Z.max a b)
    | Some shape, None | None, Some shape => Ok shape
    | None, None => Err (Unsupported "SIMD folding expects a SIMD operand")
    end;
  or_unsupported "unsupported compile-time SIMD operator"
    ('(xs, ys) ← zip_option (splat_lanes left d width) (splat_lanes right d width);
     lanes ← collect_lanes (fold_lane op d) (zip xs ys);
     Ok (CtSimd (if compares op then DBool else d) lanes)).

Definition map_lanes (d : Dtype) (lanes : list CtLane) (lane : CtLane → outcome unit CtLane) : outcome unit CtValue :=
  CtSimd d <$> collect_lanes lane lanes.

Definition fold_neg (v : CtValue) : result CtValue :=
  match v with
  | CtInt n => Ok (CtInt (wrapping_i64 (- n)))
  | CtIntLiteral value => Ok (CtIntLiteral (int_neg value))
  | CtFloatLiteral value => Ok (CtFloatLiteral (float_neg (B:=B) value))
  | CtFloat bits => Ok (CtFloat (f64_neg bits))
  | CtSimd d lanes =>
      or_unsupported "unary '-' expects numeric SIMD lanes"
        (map_lanes d lanes (λ lane, match lane with
          | LInt x => Ok (LInt (wrap_lane d (i128_wrapping (- x))))
          | LFloat bits => Ok (LFloat (f64_neg bits))
          | LBool _ => Err tt
          end))
  | _ => Err (Unsupported "unary '-' expects a comptime numeric value")
  end.

Definition fold_invert (v : CtValue) : result CtValue :=
  match v with
  | CtInt n => Ok (CtInt (Z.lnot n))
  | CtUInt n => Ok (CtUInt (u64_max - n))
  | CtIndex n => Ok (CtIndex (Z.lnot n))
  | CtIntLiteral value => Ok (CtIntLiteral (int_sub (int_neg value) (mkInt (bi_from 1))))
  | CtBool b => Ok (CtBool (negb b))
  | CtSimd d lanes =>
      or_unsupported "unary '~' expects integer or bool SIMD lanes"
        (map_lanes d lanes (λ lane, match lane with
          | LInt x => Ok (LInt (wrap_lane d (Z.lnot x)))
          | LBool b => Ok (LBool (negb b))
          | LFloat _ => Err tt
          end))
  | _ => Err (Unsupported "unary '~' expects a comptime integer value")
  end.

(** *** The infix operators *)

(** [fold_infix] on operands no special rule takes. *)
Definition fold_numbers (op : InfixOp) (left right : CtValue) : result CtValue :=
  if compares op then CtBool <$> compare op left right
  else
    match left, right with
    | CtInt a, CtInt b => CtInt <$> fold_int op a b
    | CtUInt a, CtUInt b => CtUInt <$> fold_uint op a b
    | CtIndex a, CtIndex b => CtIndex <$> fold_int op a b
    | CtIntLiteral a, CtIntLiteral b => fold_int_literal op a b
    | CtFloatLiteral a, CtFloatLiteral b => CtFloatLiteral <$> fold_float_literal op a b
    | CtFloat a, CtFloat b => fold_float op a b
    | CtInt a, CtIntLiteral b => b ← machine_int b; CtInt <$> fold_int op a b
    | CtIntLiteral a, CtInt b => a ← machine_int a; CtInt <$> fold_int op a b
    | CtUInt a, CtIntLiteral b => b ← machine_uint b; CtUInt <$> fold_uint op a b
    | CtIntLiteral a, CtUInt b => a ← machine_uint a; CtUInt <$> fold_uint op a b
    | CtIndex a, CtIntLiteral b => b ← machine_int b; CtIndex <$> fold_int op a b
    | CtIntLiteral a, CtIndex b => a ← machine_int a; CtIndex <$> fold_int op a b
    | CtIntLiteral a, CtFloatLiteral b => CtFloatLiteral <$> fold_float_literal op (from_int a) b
    | CtFloatLiteral a, CtIntLiteral b => CtFloatLiteral <$> fold_float_literal op a (from_int b)
    | CtFloat a, (CtIntLiteral _ | CtFloatLiteral _) => b ← machine_float right; fold_float op a b
    | (CtIntLiteral _ | CtFloatLiteral _), CtFloat b => a ← machine_float left; fold_float op a b
    | _, _ => Err unsupported_operands
    end.

(** A literal result as its attribute. *)
Definition as_attribute (v : CtValue) : CtValue := default v (literal_value v).

Definition fold_infix (op : InfixOp) (left right : CtValue) : result CtValue :=
  match left, right with
  | CtKgenString _, _ | _, CtKgenString _ => Err (Unsupported (no_method KGEN_STRING_TYPE_SPELLING op))
  | CtMlirAttr _, _ | _, CtMlirAttr _ => Err (Unsupported (no_method KGEN_DEFERRED_TYPE_SPELLING op))
  | CtType a, CtType b =>
      match op with
      | Eq_ => Ok (CtBool (same_type a b))
      | Ne => Ok (CtBool (negb (same_type a b)))
      | _ => Err (Unsupported "only == and != are defined for compile-time types")
      end
  | CtStr a, CtStr b =>
      match op with
      | Add => Ok (CtStr (a +:+ b))
      | Eq_ => Ok (CtBool (String.eqb a b))
      | Ne => Ok (CtBool (negb (String.eqb a b)))
      | _ => Err (Unsupported "unsupported compile-time String operator")
      end
  | CtBool a, CtBool b =>
      match op with
      | Eq_ => Ok (CtBool (Bool.eqb a b))
      | Ne | BitXor => Ok (CtBool (negb (Bool.eqb a b)))
      | And | BitAnd => Ok (CtBool (a && b))
      | Or | BitOr => Ok (CtBool (a || b))
      | _ => Err (Unsupported "unsupported compile-time Bool operator")
      end
  | CtSimd _ _, _ | _, CtSimd _ _ => fold_lanes op left right
  | CtPopIntLiteral a, CtPopIntLiteral b =>
      if (bool_decide (op = FloorDiv) || bool_decide (op = Mod)) && int_is_zero b then
        Ok (CtPopIntLiteral (mkInt (bi_from 0)))
      else as_attribute <$> fold_numbers op (CtIntLiteral a) (CtIntLiteral b)
  | CtPopFloatLiteral a, CtPopFloatLiteral b =>
      as_attribute <$> fold_numbers op (CtFloatLiteral a) (CtFloatLiteral b)
  | _, _ => fold_numbers op left right
  end.

(** [fold_comparison(op, ..)] for any [op] but [!=]. *)
Definition fold_mask (op : InfixOp) (left right : CtValue) : result CtValue :=
  let simd := bool_decide (is_Some (ct_shape left)) || bool_decide (is_Some (ct_shape right)) in
  if negb simd || negb (compares op && negb (bool_decide (op = Ne))) then fold_infix op left right
  else
    mask ← fold_infix op left right;
    match mask with
    | CtSimd _ lanes =>
        let read lane := match lane with
          | LBool value => Ok value
          | _ => Err (Unsupported "a SIMD comparison expects a bool mask")
          end in
        let fix fold (join : bool → bool → bool) (acc : bool) lanes : result bool :=
          match lanes with
          | [] => Ok acc
          | lane :: lanes => b ← read lane; fold join (join acc b) lanes
          end in
        CtBool <$> (if bool_decide (op = Eq_) then fold andb true lanes else fold orb false lanes)
    | _ => Err (Unsupported "a SIMD comparison expects a mask")
    end.

Definition fold_comparison (op : InfixOp) (left right : CtValue) : result CtValue :=
  if bool_decide (op = Ne) then
    equal ← fold_mask Eq_ left right;
    match equal with CtBool equal => Ok (CtBool (negb equal)) | _ => fold_mask op left right end
  else fold_mask op left right.

Definition comparison_holds (op : InfixOp) (left right : CtValue) : outcome unit bool :=
  match fold_comparison op left right with
  | Ok (CtBool value) => Ok value
  | Ok _ | Err _ => Err tt
  | Panic => Panic
  | Diverge => Diverge
  end.

(** *** Casts and reads *)

Definition fold_cast_to_builtin v : result CtValue :=
  match v with
  | CtInt value => Ok (CtIndex value)
  | CtIntLiteral value => CtIndex <$> machine_int value
  | _ => Err (Unsupported "'__mlir_index__' expects a compile-time 'Int'")
  end.

Definition fold_cast_from_builtin v : result CtValue :=
  match v with
  | CtIndex value => Ok (CtInt value)
  | _ => Err (Unsupported ("'Int(mlir_value=)' expects a compile-time '" +:+ MLIR_INDEX_TYPE_SPELLING +:+ "'"))
  end.

Fixpoint flatten_fields v : list CtValue :=
  match v with
  | CtStruct _ fields =>
      (fix go (fields : list (string * CtValue)) : list CtValue :=
         match fields with [] => [] | (_, field) :: fields => flatten_fields field ++ go fields end) fields
  | v => [v]
  end.

Definition view_bytes (view : CtValue) : result (list Z) :=
  let malformed := UnsupportedOf "'data_to_str' expects a string view, found " view in
  match flatten_fields view with
  | [CtPointer (Some memory) offset; CtInt length_] =>
      if (offset <? 0) || (length_ <? 0) then Err malformed
      else
        let start := Z.to_nat offset in
        let n := Z.to_nat length_ in
        if (length memory <? start + n)%nat then Err malformed
        else
          (fix read (slots : list (option CtValue)) : result (list Z) :=
             match slots with
             | [] => Ok []
             | Some (CtSimd DUInt8 [LInt byte]) :: slots =>
                 if (0 <=? byte) && (byte <? 256) then bytes ← read slots; Ok (byte :: bytes) else Err malformed
             | _ :: _ => Err malformed
             end) (take n (drop start memory))
  | _ => Err malformed
  end.

Definition fold_data_to_str (s rest : CtValue) : result CtValue :=
  match rest with
  | CtTuple rest | CtList rest =>
      bytes ← view_bytes s;
      bytes ← (fix extend (bytes : list Z) (rest : list CtValue) : result (list Z) :=
        match rest with
        | [] => Ok bytes
        | view :: rest => more ← view_bytes view; extend (bytes ++ more) rest
        end) bytes rest;
      if utf8_valid bytes then Ok (CtKgenString (bytes_string bytes))
      else Err (Unsupported "'data_to_str' reads bytes that are not UTF-8")
  | _ => Err (Unsupported "'data_to_str' expects a list of string views")
  end.

Definition fold_string_concat (left right : CtValue) : result CtValue :=
  match left, right with
  | CtKgenString a, CtKgenString b => Ok (CtKgenString (a +:+ b))
  | _, _ => Err (Unsupported "'#pop.string_concat' expects two '!kgen.string' values")
  end.

Definition target_operands (operation : string) (target name : CtValue) : result (KgenTarget * string) :=
  match target, name with
  | CtKgenTarget target, CtKgenString name => Ok (target, name)
  | _, _ => Err (Unsupported ("'" +:+ operation +:+ "' expects a '!kgen.target' and a '!kgen.string' name"))
  end.

Definition fold_target_get_field (target name : CtValue) : result CtValue :=
  '(target, name) ← target_operands "target_get_field" target name;
  ok_or (Unsupported ("'target_get_field' reads no field '" +:+ name +:+ "'")) (field target name).

Definition fold_target_has_feature (target name : CtValue) : result CtValue :=
  '(target, name) ← target_operands "target_has_feature" target name;
  Ok (CtBool (has_feature target name)).

Definition fold_dtype_from_ui8 (code : CtValue) : result CtValue :=
  lane ← ok_or (Unsupported "'pop.dtype.from_ui8' expects a compile-time 'ui8'")
    match code with
    | CtSimd DUInt8 [LInt lane] => if (0 <=? lane) && (lane <? 256) then Some lane else None
    | _ => None
    end;
  ok_or (NoCode lane) (CtDtype <$> Dtype_.from_code lane).

Definition fold_dtype_to_ui8 (d : CtValue) : result CtValue :=
  match d with
  | CtDtype d => Ok (CtSimd DUInt8 [LInt (Dtype_.code d)])
  | _ => Err (Unsupported "'pop.dtype.to_ui8' expects a compile-time 'DType'")
  end.

Definition no_value (op : ParamOp) v : ParamError CtValue := UnsupportedOf (Param.name op) v.

(** The lane in every lane of the vector [ty] stores. *)
Definition spread (op : ParamOp) (ty : T) v (lane : Dtype → outcome unit CtLane) : result CtValue :=
  '(d, width) ← ok_or (no_value op v) (lane_shape (V:=CtValue) ty);
  lane ← match lane d with Ok lane => Ok lane | Err _ => Err (no_value op v) | Panic => Panic | Diverge => Diverge end;
  if width <? 0 then Err (no_value op v)
  else
    let vector := CtSimd d (replicate (Z.to_nat width) lane) in
    Ok (default vector (materialize_as vector ty)).

Definition fold_literal_convert (op : ParamOp) (ty : T) (literal : CtValue) : result CtValue :=
  spread op ty literal (λ d, match op, literal with
    | Param.IntLiteralConvert, CtPopIntLiteral value =>
        if bool_decide (d = DBool) then Ok (LBool (negb (int_is_zero value))) else of_int_literal value d
    | Param.FloatLiteralConvert, CtPopFloatLiteral value => of_float_literal (B:=B) value d
    | _, _ => Err tt
    end).

Definition fold_lane_op (op : ParamOp) (ty : T) (value : CtValue) : result CtValue :=
  spread op ty value (λ d, match value with
    | CtIntLiteral _ | CtFloatLiteral _ => from_value value d
    | scalar => ok_or tt ((λ lane, cast lane d) <$> of_scalar scalar)
    end).

Definition fold_literal_attribute (op : ParamOp) (literal : CtValue) : result CtValue :=
  match op, literal with
  | Param.IntToFloatLiteral, CtPopIntLiteral value => Ok (CtPopFloatLiteral (from_int value))
  | Param.FloatToIntLiteral, CtPopFloatLiteral value => Ok (CtPopIntLiteral (trunc_to_int value))
  | Param.FloatLiteralIsNan, CtPopFloatLiteral _ => Ok (CtBool false)
  | Param.FloatLiteralIsNegZero, CtPopFloatLiteral value => Ok (CtBool value.(negative_zero))
  | Param.FloatLiteralIsNormal, CtPopFloatLiteral value => Ok (CtBool (negb value.(negative_zero)))
  | _, _ => Err (UnsupportedOf (Param.name op) literal)
  end.

Definition fold_string_size (s : CtValue) : result CtValue :=
  match s with
  | CtKgenString text =>
      let size := Z.of_nat (String.length text) in
      if size <=? i64_max then Ok (CtIndex size)
      else Err (Unsupported "'pop.string.size' reads a string too long for an 'index'")
  | _ => Err (Unsupported ("'pop.string.size' expects a compile-time '" +:+ KGEN_STRING_TYPE_SPELLING +:+ "'"))
  end.

Definition fold_string_address (s : CtValue) : result CtValue :=
  match s with
  | CtKgenString text =>
      Ok (CtPointer (Some ((λ byte, Some (CtSimd DUInt8 [LInt byte])) <$> (string_bytes text ++ [0]))) 0)
  | _ => Err (Unsupported ("'pop.string.address' expects a compile-time '" +:+ KGEN_STRING_TYPE_SPELLING +:+ "'"))
  end.

(** *** Primitive operators *)

(** [iter.try_fold(init, f)]. *)
Fixpoint try_fold {A A' E} (f : A → A' → outcome E A) (init : A) (l : list A') : outcome E A :=
  match l with
  | [] => Ok init
  | x :: l => init ← f init x; try_fold f init l
  end.

Definition fold_step (op : ParamOp) (infix : InfixOp) (left operand : CtValue) : result CtValue :=
  match op with
  | Param.Eq | Param.Lt | Param.Le => fold_comparison infix left operand
  | _ => fold_infix infix left operand
  end.

Definition fold_primitive (op : ParamOp) (operands : list CtValue) : result CtValue :=
  let arity := ArityMismatch op (length operands) in
  let infix :=
    match operands with
    | first :: ((_ :: _) as rest) => infix ← ok_or arity (Param.infix op); try_fold (fold_step op infix) first rest
    | _ => Err arity
    end in
  match op, operands with
  | Param.Neg, [operand] => fold_neg operand
  | Param.CastToBuiltin, [operand] => fold_cast_to_builtin operand
  | Param.CastFromBuiltin, [operand] => fold_cast_from_builtin operand
  | Param.DataToStr, [s; rest] => fold_data_to_str s rest
  | Param.StringConcat, [a; b] => fold_string_concat a b
  | Param.StringSize, [s] => fold_string_size s
  | Param.StringAddress, [s] => fold_string_address s
  | Param.TargetGetField, [target; name] => fold_target_get_field target name
  | Param.TargetHasFeature, [target; name] => fold_target_has_feature target name
  | Param.DtypeToUi8, [d] => fold_dtype_to_ui8 d
  | Param.StoreToMem, [referent] => Ok (CtStoreToMem referent)
  | (Param.IntLiteralConvert | Param.FloatLiteralConvert), [CtType ty; literal] => fold_literal_convert op ty literal
  | (Param.IntToFloatLiteral | Param.FloatToIntLiteral | Param.FloatLiteralIsNan
    | Param.FloatLiteralIsNegZero | Param.FloatLiteralIsNormal), [literal] => fold_literal_attribute op literal
  | (Param.SimdSplat | Param.Cast), [CtType ty; value] => fold_lane_op op ty value
  | Param.Cond, [condition; then_value; else_value] =>
      match condition with
      | CtBool true => Ok then_value
      | CtBool false => Ok else_value
      | _ => Err (Unsupported "a conditional parameter expression needs a Bool condition")
      end
  | _, _ => infix
  end.
End fold.
