(* ===== verification/FoldLaws.v ===== *)
(** * FoldLaws: the compile-time folder computes what the machine computes

    Folding over machine integers is exact modulo the width
    ([fold_machine_exact]), and a value the folder gives for an infix operator
    is the value the virtual machine gives for it ([fold_infix_runs]): the two
    implementations of the operators, one over compile-time values and one
    over run-time values, agree. *)

From S2P Require Import Prelude Text Literal Ieee NarrowFloat Dtypes FloatOps Lanes.
From S2P Require Import DoubleRounding LaneLaws Values ValueLaws ValueTyping Fold.
From Stdlib Require Import QArith.
Local Open Scope Z_scope.

(** ** Machine integers *)

(** [a ** e]: the power, or its reciprocal truncated. *)
Definition exact_power (a e : Z) : Z := if e <? 0 then Z.quot 1 (a ^ (- e)) else a ^ e.

(** The result on integers without a width.  [**] takes its exponent as an
    [Int32], and for a negative one reads its base signed. *)
Definition exact_fold (op : InfixOp) (d : Dtype) (a b : Z) : option Z :=
  match op with
  | Pow =>
      let e := to_signed 32 b in
      Some (exact_power (if e <? 0 then to_signed 64 a else a) e)
  | _ => exact_lane op d a b
  end.

Definition expected_fold {V} (d : Dtype) (op : InfixOp) (a b : Z) : outcome (ParamError V) Z :=
  if match op with Div => b =? 0 | _ => false end then Err (ZeroDivisor a b)
  else if shifts op && negb ((0 <=? b) && (b <? 64)) then
    Err (Arithmetic "invalid or resource-limited compile-time shift")
  else match exact_fold op d a b with
       | Some v => Ok (wrap_lane d v)
       | None => Err (Unsupported "unsupported compile-time operator")
       end.

(** The reciprocals that are not zero. *)
Lemma exact_power_negative a e :
  e < 0 → exact_power a e = if a =? 1 then 1 else if a =? -1 then (if Z.rem e 2 =? 0 then 1 else -1) else 0.
Proof.
  intros He. unfold exact_power. destruct (Z.ltb_spec e 0); [|lia].
  destruct (Z.eqb_spec a 1) as [->|H1]; [by rewrite Z.pow_1_l by lia|].
  destruct (Z.eqb_spec a (-1)) as [->|Hm1].
  - assert (Z.rem e 2 = 0 ↔ Z.Even (- e)) as Hev.
    { rewrite Z.rem_divide by lia. split; intros [k Hk]; exists (- k); lia. }
    destruct (Z.eqb_spec (Z.rem e 2) 0) as [Hr|Hr].
    + apply Hev in Hr as [k Hk]. by rewrite Hk, Z.pow_mul_r, Z.pow_1_l by lia.
    + destruct (Z.Even_or_Odd (- e)) as [Ho|[k Hk]]; [by apply Hev in Ho|].
      rewrite Hk, Z.pow_add_r, Z.pow_mul_r, Z.pow_1_l by lia. done.
  - destruct (Z.eq_dec a 0) as [->|H0]; [by rewrite Z.pow_0_l by lia|].
    apply Z.quot_small_iff; [apply Z.pow_nonzero; lia|]. rewrite Z.abs_pow.
    pose proof (Z.pow_gt_1 (Z.abs a) (- e)). lia.
Qed.

Lemma to_signed_small_iff a z : in_unsigned 64 a → -1 <= z <= 1 → to_signed 64 a = z ↔ a = to_unsigned 64 z.
Proof.
  unfold in_unsigned, to_signed, to_unsigned. intros Ha Hz. change (64 - 1) with 63.
  assert (z mod 2 ^ 64 = if z <? 0 then 2 ^ 64 - 1 else z) as ->.
  { assert (z = -1 ∨ z = 0 ∨ z = 1) as [-> | [-> | ->]] by lia; done. }
  destruct (Z.ltb_spec z 0); destruct (Z.lt_ge_cases a (2 ^ 63));
    first [rewrite Z.mod_small by lia | rewrite <- (Z_mod_plus_full _ (-1)), Z.mod_small by lia]; lia.
Qed.

Lemma to_signed_eqb a z :
  in_unsigned 64 a → -1 <= z <= 1 → (to_signed 64 a =? z) = (a =? to_unsigned 64 z).
Proof.
  intros Ha Hz. destruct (to_signed_small_iff a z Ha Hz) as [H1 H2].
  destruct (Z.eqb_spec (to_signed 64 a) z), (Z.eqb_spec a (to_unsigned 64 z)); naive_solver.
Qed.

Lemma xorb_neq x y : xorb x y = negb (Bool.eqb x y).
Proof. by destruct x, y. Qed.

(** A shift whose amount is in the width. *)
Lemma shift_amount_spec {V} b :
  shift_amount (V:=V) b =
    if negb ((0 <=? b) && (b <? 64)) then Err (Arithmetic "invalid or resource-limited compile-time shift")
    else Ok b.
Proof. unfold shift_amount. by destruct (_ && _). Qed.

Lemma u64_shift_amount_spec {V} b :
  in_unsigned 64 b → u64_shift_amount (V:=V) b = shift_amount b.
Proof.
  unfold u64_shift_amount, in_unsigned, i64_max, shift_amount. intros Hb.
  destruct (Z.leb_spec b (2 ^ 63 - 1)); [done|].
  destruct (Z.leb_spec 0 b), (Z.ltb_spec b 64); try done; lia.
Qed.

Lemma fold_int_spec {V} op a b :
  lane_in_range DInt a → lane_in_range DInt b → fold_int (V:=V) op a b = expected_fold DInt op a b.
Proof.
  intros Ha Hb. unfold expected_fold. change (wrap_lane DInt) with wrapping_i64.
  assert (∀ z, lane_in_range DInt z → wrapping_i64 z = z) as Hsmall by apply (wrap_lane_small DInt eq_refl).
  destruct op; try done; cbn [shifts andb exact_fold exact_lane fold_int];
    rewrite ?Hsmall by (by apply (bitwise_in_range _ DInt)); try done.
  - by destruct (b =? 0).
  - destruct (Z.eqb_spec b 0) as [->|Hb0]; [done|]. destruct (floor_correction a b Hb0) as [-> _].
    rewrite xorb_neq. destruct (_ && _); [|done]. f_equal. apply (to_signed_congr 64).
    rewrite <- Zminus_mod_idemp_l. unfold wrapping_i64. by rewrite to_signed_mod, Zminus_mod_idemp_l.
  - destruct (Z.eqb_spec b 0) as [->|Hb0]; [done|]. destruct (floor_correction a b Hb0) as [_ Hm].
    rewrite xorb_neq, Hm. destruct (_ && _); [done|]. f_equal. symmetry. apply Hsmall.
    pose proof (Z.rem_bound_abs a b Hb0) as Hr.
    assert (- 2 ^ 63 <= b < 2 ^ 63) as Hbr by exact Hb. enough (- 2 ^ 63 <= Z.rem a b < 2 ^ 63) by done. lia.
  - rewrite shift_amount_spec. destruct (Z.leb_spec 0 b), (Z.ltb_spec b 64); try done. cbn.
    by rewrite Z.shiftl_mul_pow2, Z.mod_small by lia.
  - rewrite shift_amount_spec. destruct (Z.leb_spec 0 b), (Z.ltb_spec b 64); try done. cbn.
    rewrite Z.shiftr_div_pow2, Z.mod_small by lia. by rewrite Hsmall by (by apply shift_right_in_range).
  - destruct (Z.ltb_spec (to_signed 32 b) 0) as [He|He].
    + rewrite exact_power_negative, (to_signed_small 64 a) by done.
      destruct (a =? 1), (a =? -1), (Z.rem (to_signed 32 b) 2 =? 0); done.
    + unfold exact_power. by rewrite (proj2 (Z.ltb_ge _ _) He).
Qed.

Lemma fold_uint_spec {V} op a b :
  lane_in_range DUInt a → lane_in_range DUInt b → fold_uint (V:=V) op a b = expected_fold DUInt op a b.
Proof.
  intros Ha Hb. unfold expected_fold. change (wrap_lane DUInt) with wrapping_u64.
  assert (0 <= a < 2 ^ 64 ∧ 0 <= b < 2 ^ 64) as [Har Hbr] by done.
  assert (∀ z, lane_in_range DUInt z → wrapping_u64 z = z) as Hsmall by apply (wrap_lane_small DUInt eq_refl).
  assert (∀ z, 0 <= z < 2 ^ 64 → wrapping_u64 z = z) as Hsmall' by apply Hsmall.
  destruct op; try done; cbn [shifts andb exact_fold exact_lane fold_uint];
    rewrite ?Hsmall by (by apply (bitwise_in_range _ DUInt)); try done.
  - destruct (Z.eqb_spec b 0); [done|]. rewrite Z.quot_div_nonneg by lia. rewrite Hsmall'; [done|].
    pose proof (Z.div_pos a b ltac:(lia) ltac:(lia)). pose proof (Z.div_le_upper_bound a b a ltac:(lia) ltac:(nia)). lia.
  - destruct (Z.eqb_spec b 0); [done|]. rewrite Hsmall'; [done|].
    pose proof (Z.div_pos a b ltac:(lia) ltac:(lia)). pose proof (Z.div_le_upper_bound a b a ltac:(lia) ltac:(nia)). lia.
  - destruct (Z.eqb_spec b 0); [done|]. rewrite Hsmall'; [done|]. pose proof (Z.mod_pos_bound a b). lia.
  - rewrite u64_shift_amount_spec, shift_amount_spec by done. destruct (Z.leb_spec 0 b), (Z.ltb_spec b 64); try done. cbn.
    by rewrite Z.shiftl_mul_pow2, Z.mod_small by lia.
  - rewrite u64_shift_amount_spec, shift_amount_spec by done. destruct (Z.leb_spec 0 b), (Z.ltb_spec b 64); try done. cbn.
    rewrite Z.shiftr_div_pow2, Z.mod_small by lia. by rewrite Hsmall by (by apply shift_right_in_range).
  - destruct (Z.ltb_spec (to_signed 32 b) 0) as [He|He].
    + rewrite exact_power_negative by done.
      rewrite (to_signed_eqb a 1), (to_signed_eqb a (-1)) by (done || lia).
      change (to_unsigned 64 1) with 1. change (to_unsigned 64 (-1)) with u64_max.
      destruct (a =? 1), (a =? u64_max), (Z.rem (to_signed 32 b) 2 =? 0); done.
    + unfold exact_power. by rewrite (proj2 (Z.ltb_ge _ _) He).
Qed.

Definition integer_fold {V} (d : Dtype) : InfixOp → Z → Z → outcome (ParamError V) Z :=
  if Dtype_.is_unsigned d then fold_uint else fold_int.

(** C25: compile-time arithmetic on machine integers is exact up to 64 bits.
    Over [Int] (and [index]) and over [UInt] each operator folds to the result
    on the integers wrapped to the type: [//] and [%] round down and are zero
    for a zero divisor, [**] reads its exponent as an [Int32] and for a
    negative one is the reciprocal truncated.  It is refused only for [/] by
    zero, for a shift outside the width, and for the operators integers do not
    define. *)
Theorem fold_machine_exact {V} d op a b :
  (d = DInt ∨ d = DUInt) → lane_in_range d a → lane_in_range d b →
  integer_fold (V:=V) d op a b = expected_fold d op a b.
Proof. intros [-> | ->]; [apply fold_int_spec|apply fold_uint_spec]. Qed.

Lemma fold_machine_exact_witness :
  integer_fold (V:=unit) DUInt Pow u64_max u64_max = expected_fold DUInt Pow u64_max u64_max.
Proof.
  assert (lane_in_range DUInt u64_max) as H by (by vm_compute).
  exact (fold_machine_exact DUInt Pow u64_max u64_max (or_intror eq_refl) H H).
Defined.

(** ** Comparing numbers *)

Section numbers.
Context {T B R : Type}.
Context `{!BigInt B, !BigIntLaws B, !BigRational B R, Rl : !BigRationalLaws B R}.
Context `{!RationalFloats R, Hh : !Half, !IntegerFloats B}.
Notation CtValue := (CtValue T B R).
Context `{!TypeLanguage T CtValue}.
Notation compare := (Fold.compare (T:=T) (B:=B) (R:=R)).
Notation exact := (exact (T:=T) (B:=B) (R:=R)).

Lemma numeric_cmp_spec (x y : FloatLiteral R) : numeric_cmp (B:=B) x y = (fval (B:=B) x ?= fval (B:=B) y)%Q.
Proof using Rl. apply rat_compare_val. Qed.

(** A comparison by an order known to be [Some c]. *)
Definition by_order (c : comparison) (op : InfixOp) : option bool := lane_compare (λ _ _ : unit, Some c) op tt tt.

Lemma lane_compare_order {A} cmp op (x y : A) c : cmp x y = Some c → lane_compare cmp op x y = by_order c op.
Proof using Type. intros Hc. unfold by_order, lane_compare. by rewrite Hc. Qed.

Lemma compare_exact op (a b : CtValue) x y c :
  exact a = Some x → exact b = Some y → (fval (B:=B) x ?= fval (B:=B) y)%Q = c →
  compares op = true → ∃ r, by_order c op = Some r ∧ compare op a b = Ok r.
Proof using Rl.
  intros Hx Hy Hc Hop.
  assert (compare op a b =
    let ordering := numeric_cmp (B:=B) x y in
    match op with
    | Eq_ => Ok (bool_decide (ordering = Eq))
    | Ne => Ok (bool_decide (ordering ≠ Eq))
    | Lt_ => Ok (bool_decide (ordering = Lt))
    | Gt_ => Ok (bool_decide (ordering = Gt))
    | Le => Ok (bool_decide (ordering ≠ Gt))
    | Ge => Ok (bool_decide (ordering ≠ Lt))
    | _ => Err (Unsupported "unsupported compile-time comparison")
    end) as ->.
  { unfold Fold.compare. rewrite Hx, Hy. destruct a; try done. }
  cbn zeta. rewrite numeric_cmp_spec, Hc. destruct op, c; try done; eexists; split; reflexivity.
Qed.

Lemma fval_integer (n : IntLiteral B) : (fval (B:=B) (R:=R) (from_int n) == inject_Z (ival n))%Q.
Proof using Rl. apply rat_val_from_integer. Qed.

Lemma compare_integers op (a b : CtValue) x y :
  integer_value a = Some x → integer_value b = Some y → compares op = true →
  ∃ r, lane_compare int_cmp op (ival x) (ival y) = Some r ∧ compare op a b = Ok r.
Proof using Rl.
  intros Hx Hy Hop. rewrite (lane_compare_order int_cmp op _ _ (ival x ?= ival y)) by done.
  apply (compare_exact op a b (from_int x) (from_int y)); [..|done].
  - destruct a; simplify_eq/=; done.
  - destruct b; simplify_eq/=; done.
  - rewrite (Qcompare_comp _ _ (fval_integer x) _ _ (fval_integer y)). unfold Qcompare. cbn. by rewrite !Z.mul_1_r.
Qed.

End numbers.

(** ** The machine's values *)

Section runs.
Context {VT : ValueTypes} {B R : Type}.
Context `{!BigInt B, !BigIntLaws B, !BigRational B R, !BigRationalLaws B R}.
Context `{!RationalFloats R, !RationalFloatsLaws B R, Hh : !Half, Hhl : !HalfLaws, !IntegerFloats B}.
Notation CtValue := (CtValue Ty B R).
Context `{!TypeLanguage Ty CtValue}.
Notation apply_infix := (apply_infix (B:=B) (R:=R)).
Notation compare := (Fold.compare (T:=Ty) (B:=B) (R:=R)).
Notation exact := (exact (T:=Ty) (B:=B) (R:=R)).
Notation fold_infix := (fold_infix (T:=Ty) (B:=B) (R:=R)).

Definition ct_lanes (lanes : SimdLanes) : list CtLane :=
  match lanes with IntLanes l => LInt <$> l | FloatLanes l => LFloat <$> l | BoolLanes l => LBool <$> l end.

(** A compile-time value and the machine's value for it, each lane of its
    dtype.  A vector is a vector on the machine ([scalars_are_vectors] says a
    one-lane one is never told from the host scalar). *)
Inductive runtime : CtValue → Value → Prop :=
| runtime_int n : lane_in_range DInt n → runtime (CtInt n) (VInt n)
| runtime_uint n : lane_in_range DUInt n → runtime (CtUInt n) (VUInt n)
| runtime_float x : valid binary64 (decode binary64 x) → runtime (CtFloat x) (VFloat64 x)
| runtime_bool b : runtime (CtBool b) (VBool b)
| runtime_str s : runtime (CtStr s) (VStr s)
| runtime_dtype d : runtime (CtDtype d) (VDtype d)
| runtime_simd d lanes : lanes_ok d lanes → runtime (CtSimd d (ct_lanes lanes)) (VSimd d lanes).

(** Operands the folder's rule for one kind of value takes. *)
Definition same_kind (a b : CtValue) : bool :=
  match a, b with
  | CtInt _, CtInt _ | CtUInt _, CtUInt _ | CtFloat _, CtFloat _ | CtBool _, CtBool _
  | CtStr _, CtStr _ | CtDtype _, CtDtype _ | CtSimd _ _, _ | _, CtSimd _ _ => true
  | _, _ => false
  end.

(** The operators compiled to one instruction: [**] is a library call, [and]
    and [or] are control flow, and membership does not fold. *)
Definition executed (op : InfixOp) : bool :=
  match op with Pow | And | Or | In_ | NotIn => false | _ => true end.

(** [//] and [%] of host integers by zero fold to zero. *)
Definition zero_divisor (op : InfixOp) (b : CtValue) : bool :=
  match b with CtInt n | CtUInt n => divides op && (n =? 0) | _ => false end.

(** Doubles compare as [pop.cmp] does: by value, and not at all with a NaN. *)
Lemma compare_floats op x y :
  valid binary64 (decode binary64 x) → valid binary64 (decode binary64 y) → compares op = true →
  ∃ r, lane_compare f64_partial_cmp op x y = Some r ∧ compare op (CtFloat x) (CtFloat y) = Ok r.
Proof using BigIntLaws0 BigRationalLaws0 RationalFloatsLaws0.
  intros Hx Hy Hop.
  assert (∀ z, valid binary64 (decode binary64 z) →
    match decode binary64 z with
    | Finite s c => ∃ v, literal_from_f64 (R:=R) z = Some v ∧ (fval (B:=B) v == finite_value binary64 s c)%Q
    | _ => literal_from_f64 (R:=R) z = None
    end) as Hfrom.
  { intros z Hz. destruct (decode binary64 z) as [|s|s c] eqn:Hd; [unfold literal_from_f64; by rewrite Hd..|].
    destruct (literal_f64_roundtrip (B:=B) (R:=R) z s c) as (v & Hv & Hval & _); [|done|by exists v].
    apply decode_negative_bits. by rewrite Hd. }
  pose proof (Hfrom x Hx) as Hfx. pose proof (Hfrom y Hy) as Hfy.
  assert (literal_from_f64 (R:=R) x = None ∨ literal_from_f64 (R:=R) y = None →
    ∃ r, lane_compare f64_partial_cmp op x y = Some r ∧
      compare op (CtFloat x) (CtFloat y) = Ok r) as Hnone.
  { intros Hn. unfold Fold.compare, Fold.exact. destruct (lane_compare f64_partial_cmp op x y) as [r|] eqn:Hr;
      [|by destruct op]. exists r. split; [done|].
    destruct (literal_from_f64 x), (literal_from_f64 y); destruct Hn; try done; cbn; by rewrite Hr. }
  destruct (decode binary64 x) as [| |s c] eqn:Hdx; [by apply Hnone; left..|].
  destruct (decode binary64 y) as [| |t e] eqn:Hdy; [by apply Hnone; right..|].
  destruct Hfx as (u & Hu & Hvu), Hfy as (v & Hv & Hvv).
  rewrite (lane_compare_order f64_partial_cmp op x y (finite_value binary64 s c ?= finite_value binary64 t e)%Q)
    by (unfold f64_partial_cmp; by rewrite Hdx, Hdy).
  apply (compare_exact op _ _ u v); [done..| |done]. by apply Qcompare_comp.
Qed.

(** *** Lanes *)

(** The lanes of an operand spread to a shape, as the machine reads them;
    float lanes may come with another spelling of the same float. *)
Definition reads (w : Value) (d : Dtype) (n : nat) (lanes : SimdLanes) : Prop :=
  match lanes with
  | IntLanes l => to_int_lanes w d n = Ok l
  | FloatLanes l => ∃ l', to_float_lanes w d n = Ok l' ∧ Forall2 (λ x y, decode binary64 x = decode binary64 y) l l'
  | BoolLanes l => to_bool_lanes w n = Ok l
  end.

Lemma round_lane_decode d f x y :
  lane_format d = Some f → holds_float f x y → decode binary64 (round_lane d x) = decode binary64 x.
Proof using Hhl.
  intros Hd Hx. pose proof (lane_format_of d f Hd) as Hl. pose proof (lane_wf d f Hl) as Hf.
  destruct (round_lane_holds d f x Hl) as [_ ->]; [by eapply holds_valid|].
  destruct Hx as [Hy ->]. f_equal. destruct Hl; [by apply convert_back..|]. by rewrite !(convert_same binary64 y) by done.
Qed.

Lemma length_ct_lanes lanes : length (ct_lanes lanes) = width lanes.
Proof using Type. destruct lanes; apply length_fmap. Qed.

Lemma splat_reads v w d n xs :
  runtime v w → splat_lanes (B:=B) v d (Z.of_nat n) = Ok xs →
  ∃ lanes, xs = ct_lanes lanes ∧ width lanes = n ∧ lanes_ok d lanes ∧ reads w d n lanes.
Proof using Hhl.
  intros Hv. destruct Hv as [| | |b| | |own lanes Hok]; cbn [splat_lanes]; try done.
  - destruct (bool_decide_reflect (d = DBool)) as [->|]; [|done]. intros [= <-]. rewrite Nat2Z.id.
    exists (BoolLanes (replicate n b)). cbn. rewrite fmap_replicate, length_replicate. done.
  - destruct (bool_decide_reflect (own = d)) as [->|]; [|done]. rewrite length_ct_lanes. cbn [andb].
    destruct (Z.eqb_spec (Z.of_nat (width lanes)) (Z.of_nat n)) as [Hn|Hn].
    + apply Nat2Z.inj in Hn as <-. intros [= <-]. exists lanes. split_and!; [done..|].
      destruct lanes as [l|l|l]; cbn; rewrite Nat.eqb_refl; [done| |done]. exists l. split; [done|].
      clear. by induction l; constructor.
    + destruct (Nat.eqb_spec (width lanes) 1) as [Hone|]; [|done].
      destruct lanes as [[|x []]|[|x []]|[|x []]]; try discriminate; intros [= <-]; rewrite Nat2Z.id; cbn in Hn.
      * exists (IntLanes (replicate n x)). destruct Hok as [Hd Hx]. rewrite Forall_singleton in Hx.
        cbn [ct_lanes width reads to_int_lanes length value_to_int_lane value_to_int].
        rewrite fmap_replicate, length_replicate. split_and!; [done..|split; [done|by apply Forall_replicate]|].
        rewrite (proj2 (Nat.eqb_neq 1 n)) by lia. cbn. by rewrite wrap_lane_small.
      * exists (FloatLanes (replicate n x)). destruct Hok as (f & Hf & Hx). rewrite Forall_singleton in Hx.
        cbn [ct_lanes width reads to_float_lanes length value_to_float_lane value_to_float].
        rewrite fmap_replicate, length_replicate. split_and!; [done..|exists f; split; [done|by apply Forall_replicate]|].
        rewrite (proj2 (Nat.eqb_neq 1 n)) by lia. exists (replicate n (round_lane d x)). split; [done|].
        destruct Hx as [y Hy]. apply Forall2_replicate. symmetry. by eapply round_lane_decode.
      * exists (BoolLanes (replicate n x)).
        cbn [ct_lanes width reads to_bool_lanes length value_to_bool_lane].
        rewrite fmap_replicate, length_replicate. split_and!; [done..|].
        by rewrite (proj2 (Nat.eqb_neq 1 n)) by lia.
Qed.

Lemma float_lane_decode op d a b a' b' :
  decode binary64 a = decode binary64 a' → decode binary64 b = decode binary64 b' →
  float_lane_binop op d a b = float_lane_binop op d a' b' ∧
  lane_compare f64_partial_cmp op a b = lane_compare f64_partial_cmp op a' b'.
Proof using Type.
  intros Ha Hb. split.
  - destruct op; try done; cbn [float_lane_binop mbind option_bind];
      unfold f64_add, f64_sub, f64_mul, f64_div, f64_binary; by rewrite Ha, Hb.
  - unfold lane_compare, f64_partial_cmp. by rewrite Ha, Hb.
Qed.

(** What [collect_lanes] gives when every lane has a value. *)
Lemma collect_lanes_ok {A A'} (f : A → outcome unit A') l ys :
  collect_lanes f l = Ok ys ↔ Forall2 (λ x y, f x = Ok y) l ys.
Proof using Type.
  revert ys. induction l as [|x l IH]; intros ys; cbn.
  - split; [by intros [= <-]|by inversion 1].
  - split.
    + destruct (f x) eqn:Hx; try done. cbn. destruct (collect_lanes f l) eqn:Hl; try done. cbn. intros [= <-].
      constructor; [done|]. by apply IH.
    + inversion 1 as [|? y ? ys' Hy Hys]; subst. rewrite Hy. cbn. apply IH in Hys. by rewrite Hys.
Qed.

(** The folded lanes are those of the machine's operator. *)
Lemma fold_lanes_int op d n xs ys zs :
  Dtype_.is_integral d = true → length xs = n → length ys = n →
  Forall (lane_in_range d) xs → Forall (lane_in_range d) ys →
  collect_lanes (fold_lane op d) (zip (LInt <$> xs) (LInt <$> ys)) = Ok zs →
  ∃ lanes, zs = ct_lanes lanes ∧ lanes_ok (if compares op then DBool else d) lanes ∧
    (if is_cmp op then
      Ok (VSimd DBool (BoolLanes (zip_with (λ a b, default false (lane_compare int_cmp op a b)) xs ys)))
    else if bool_decide (op = Div) && contains 0 ys then type_error DivisionByZero
    else out ← collect (λ '(a, b), int_lane_or_zero op d a b) (zip xs ys); Ok (VSimd d (IntLanes out)))
    = Ok (VSimd (if compares op then DBool else d) lanes).
Proof using Type.
  intros Hd <- Hlen Hx Hy Hz. rewrite collect_lanes_ok in Hz. change (is_cmp op) with (compares op).
  destruct (compares op) eqn:Hc.
  - exists (BoolLanes (zip_with (λ a b, default false (lane_compare int_cmp op a b)) xs ys)).
    split_and!; [|done|done]. cbn. clear Hx Hy. revert ys zs Hlen Hz.
    induction xs as [|x xs IH]; intros [|y ys] zs Hlen Hz; try discriminate; inversion Hz as [|? z ? zs' Hz1 Hzs]; subst; [done|].
    cbn in Hz1. rewrite Hc in Hz1. cbn. f_equal; [|apply IH; [by injection Hlen|done]].
    destruct (lane_compare int_cmp op x y); by simplify_eq/=.
  - assert (∃ out, zs = LInt <$> out ∧ collect (λ '(a, b), int_lane_or_zero op d a b) (zip xs ys) = Ok out ∧
      Forall (lane_in_range d) out ∧ (op = Div → 0 ∉ ys)) as (out & -> & Hout & Hrange & Hdiv).
    { revert ys zs Hlen Hy Hz. induction Hx as [|x xs Hx1 Hx IH]; intros [|y ys] zs Hlen Hy Hz; try discriminate;
        inversion Hz as [|? z ? zs' Hz1 Hzs]; subst.
      - exists []. split_and!; [done..|]. intros _. apply not_elem_of_nil.
      - inversion Hy as [|? ? Hy1 Hys]; subst.
        destruct (IH ys zs') as (out & -> & Hout & Hrange & Hdiv); [by injection Hlen|done..|].
        cbn in Hz1. rewrite Hc, int_lane_exact in Hz1 by done.
        destruct (shifts op && _); [done|]. destruct (exact_lane op d x y) as [v|] eqn:Hv; [|done].
        injection Hz1 as <-. exists (wrap_lane d v :: out). split_and!; [done| |constructor; [by apply wrap_lane_range|done]|].
        + assert (int_lane_or_zero op d x y = Ok (wrap_lane d v)) as Hxy
            by (unfold int_lane_or_zero; by rewrite int_lane_exact, Hv by done).
          cbn [zip zip_with collect]. rewrite Hxy. cbn [mbind outcome_bind]. by rewrite Hout.
        + intros ->. apply not_elem_of_cons. split; [|by apply Hdiv].
          intros <-. done. }
    exists (IntLanes out). split_and!; [done|done|].
    destruct (bool_decide_reflect (op = Div)) as [Hop|]; cbn [andb];
      [unfold contains; rewrite bool_decide_false by (by apply Hdiv)|]; by rewrite Hout.
Qed.

Notation same_float := (λ x y, decode binary64 x = decode binary64 y).

Lemma fold_lanes_float op d f xs ys xs' ys' zs :
  lane_format d = Some f → length ys = length xs →
  Forall (λ x, ∃ y, holds_float f x y) xs → Forall (λ x, ∃ y, holds_float f x y) ys →
  Forall2 same_float xs xs' → Forall2 same_float ys ys' →
  collect_lanes (fold_lane op d) (zip (LFloat <$> xs) (LFloat <$> ys)) = Ok zs →
  ∃ lanes, zs = ct_lanes lanes ∧ lanes_ok (if compares op then DBool else d) lanes ∧
    (if is_cmp op then
      Ok (VSimd DBool (BoolLanes (zip_with (λ a b, default false (lane_compare f64_partial_cmp op a b)) xs' ys')))
    else Ok (VSimd d (FloatLanes (zip_with (λ a b, default 0 (float_lane_binop op d a b)) xs' ys'))))
    =@{result Value} Ok (VSimd (if compares op then DBool else d) lanes).
Proof using All.
  intros Hd Hlen Hx Hy Hxs Hys Hz. rewrite collect_lanes_ok in Hz. change (is_cmp op) with (compares op).
  destruct (compares op) eqn:Hc.
  - eexists (BoolLanes _). split_and!; [|done|done]. clear Hx Hy. revert ys ys' zs Hlen Hys Hz.
    induction Hxs as [|x x' xs xs' Hxx Hxs IH]; intros [|y ys] ys' zs Hlen Hys Hz; try discriminate;
      inversion Hz as [|? z ? zs' Hz1 Hzs]; inversion Hys as [|? y' ? ys1 Hyy Hys1]; subst; [done|].
    cbn in Hz1. rewrite Hc in Hz1. destruct (float_lane_decode op d x y x' y' Hxx Hyy) as [_ Hcmp].
    cbn [zip_with ct_lanes fmap list_fmap]. rewrite Hcmp in Hz1.
    f_equal; [|apply (IH ys); [by injection Hlen|done..]].
    destruct (lane_compare f64_partial_cmp op x' y'); by simplify_eq/=.
  - eexists (FloatLanes _). split; [|split; [|reflexivity]].
    + clear Hx Hy. revert ys ys' zs Hlen Hys Hz.
      induction Hxs as [|x x' xs xs' Hxx Hxs IH]; intros [|y ys] ys' zs Hlen Hys Hz; try discriminate;
        inversion Hz as [|? z ? zs' Hz1 Hzs]; inversion Hys as [|? y' ? ys1 Hyy Hys1]; subst; [done|].
      cbn in Hz1. rewrite Hc in Hz1. destruct (float_lane_decode op d x y x' y' Hxx Hyy) as [Hop _].
      cbn [zip_with ct_lanes fmap list_fmap]. rewrite Hop in Hz1.
      f_equal; [|apply (IH ys); [by injection Hlen|done..]].
      destruct (float_lane_binop op d x' y'); by simplify_eq/=.
    + exists f. split; [done|].
      assert (∀ l l', Forall (λ x, ∃ y, holds_float f x y) l → Forall2 same_float l l' →
        Forall (λ x, ∃ y, holds_float f x y) l') as Hsame.
      { intros l l' Hl. revert l'. induction Hl as [|x l [y [Hv Hdec]] _ IH]; inversion 1; subst; constructor; [|by apply IH].
        exists y. split; [done|]. congruence. }
      apply (Forall_zip_with _ (λ x, ∃ y, holds_float f x y) (λ x, ∃ y, holds_float f x y)); [by apply (Hsame xs)|by apply (Hsame ys)|].
      intros x y Hx' Hy'. apply float_lane_holds; [by apply lane_format_of|done..].
Qed.

Lemma fold_lanes_bool op xs ys zs :
  length ys = length xs →
  collect_lanes (fold_lane op DBool) (zip (LBool <$> xs) (LBool <$> ys)) = Ok zs →
  zs = LBool <$> zip_with (λ a b, default false (bool_lane_binop op a b)) xs ys.
Proof using Type.
  intros Hlen Hz. rewrite collect_lanes_ok in Hz. revert ys zs Hlen Hz.
  induction xs as [|x xs IH]; intros [|y ys] zs Hlen Hz; try discriminate;
    inversion Hz as [|? z ? zs' Hz1 Hzs]; subst; [done|].
  cbn. f_equal; [|apply IH; [by injection Hlen|done]].
  cbn in Hz1. destruct (bool_lane_binop op x y); by simplify_eq/=.
Qed.

(** A dtype has one kind of lanes. *)
Lemma lanes_ok_kind d l r :
  lanes_ok d l → lanes_ok d r →
  match l, r with
  | IntLanes _, IntLanes _ | FloatLanes _, FloatLanes _ | BoolLanes _, BoolLanes _ => True
  | _, _ => False
  end.
Proof using Type.
  destruct l, r; try done; cbn.
  - intros [Hd _] (f & Hf & _). by destruct d.
  - intros [Hd _] ->. done.
  - intros (f & Hf & _) [Hd _]. by destruct d.
  - intros (f & Hf & _) ->. done.
  - intros -> [Hd _]. done.
  - intros -> (f & Hf & _). done.
Qed.

(** A vector operator. *)
Lemma fold_lanes_runs op a b va vb c :
  runtime a va → runtime b vb → fold_lanes (B:=B) op a b = Ok c →
  ∃ vc, runtime c vc ∧ simd_binop op va vb = Ok vc.
Proof using All.
  intros Ha Hb. unfold fold_lanes.
  assert (∀ v w, runtime v w →
    ct_shape v = (λ '(d, n), (d, Z.of_nat n)) <$> simd_shape w) as Hshape.
  { intros v w Hv. destruct Hv; cbn; by rewrite ?length_ct_lanes. }
  unfold simd_binop. rewrite (Hshape a va Ha), (Hshape b vb Hb).
  set (shape := match simd_shape va, simd_shape vb with
    | Some (d, ln), Some (_, rn) => Some (d, (ln `max` rn)%nat)
    | Some shape, None | None, Some shape => Some shape
    | None, None => None
    end).
  destruct shape as [[d n]|] eqn:Hs; [|by destruct (simd_shape va) as [[]|], (simd_shape vb) as [[]|]].
  assert (match (λ '(d, n), (d, Z.of_nat n)) <$> simd_shape va, (λ '(d, n), (d, Z.of_nat n)) <$> simd_shape vb with
    | Some (d, a), Some (_, b) => Ok (d, Z.max a b)
    | Some shape, None | None, Some shape => Ok shape
    | None, None => Err (Unsupported (V:=CtValue) "SIMD folding expects a SIMD operand")
    end = Ok (d, Z.of_nat n)) as ->.
  { subst shape. destruct (simd_shape va) as [[]|], (simd_shape vb) as [[]|]; simplify_eq/=; try done. by rewrite Nat2Z.inj_max. }
  assert (match simd_shape va, simd_shape vb with
    | Some (d, ln), Some (_, rn) => Ok (d, (ln `max` rn)%nat)
    | Some shape, None | None, Some shape => Ok shape
    | None, None => type_error NeedsSimdOperand
    end = Ok (d, n)) as ->.
  { subst shape. destruct (simd_shape va) as [[]|], (simd_shape vb) as [[]|]; by simplify_eq/=. }
  cbn [mbind outcome_bind].
  destruct (splat_lanes a d (Z.of_nat n)) as [xs| | |] eqn:Hxs;
    destruct (splat_lanes b d (Z.of_nat n)) as [ys| | |] eqn:Hys; try done.
  cbn [zip_option mbind outcome_bind].
  destruct (collect_lanes (fold_lane op d) (zip xs ys)) as [zs| | |] eqn:Hz; try done. cbn. intros [= <-].
  destruct (splat_reads a va d n xs Ha Hxs) as (l & -> & Hl & Hlok & Hlr).
  destruct (splat_reads b vb d n ys Hb Hys) as (r & -> & Hr & Hrok & Hrr).
  pose proof (lanes_ok_kind d l r Hlok Hrok).
  destruct l as [l|l|l], r as [r|r|r]; try done;
    cbn [ct_lanes width reads lanes_ok] in *.
  - destruct Hlok as [Hd Hlr']. rewrite decide_False by (by intros ->).
    assert (Dtype_.is_float d = false) as -> by (by destruct d).
    destruct (fold_lanes_int op d n l r zs) as (lanes & -> & Hok & Hvm); try done; [by destruct Hrok|].
    eexists. split; [by constructor|]. rewrite Hlr, Hrr. exact Hvm.
  - destruct Hlok as (f & Hf & Hlx), Hrok as (f' & Hf' & Hrx). rewrite Hf in Hf'. injection Hf' as <-.
    rewrite decide_False by (by intros ->). assert (Dtype_.is_float d = true) as -> by (by destruct d).
    destruct Hlr as (l' & Hlr & Hll), Hrr as (r' & Hrr & Hrl).
    destruct (fold_lanes_float op d f l r l' r' zs) as (lanes & -> & Hok & Hvm); try done; [congruence|].
    eexists. split; [by constructor|]. rewrite Hlr, Hrr. exact Hvm.
  - cbn in Hlok. subst d. rewrite decide_True by done. rewrite Hlr, Hrr.
    apply fold_lanes_bool in Hz; [|congruence]. subst zs.
    eexists. split; [|reflexivity]. destruct (compares op); by apply (runtime_simd DBool (BoolLanes _)).
Qed.

(** *** Operators *)

Lemma infix_int op x y : executed op = true → apply_infix op (VInt x) (VInt y) = int_op op x y.
Proof using Type. by destruct op. Qed.
Lemma infix_uint op x y : executed op = true → apply_infix op (VUInt x) (VUInt y) = uint_op op x y.
Proof using Type. by destruct op. Qed.
Lemma infix_float op x y : executed op = true → apply_infix op (VFloat64 x) (VFloat64 y) = float_op op x y.
Proof using Type. by destruct op. Qed.

(** What the fold gives, against what the machine does. *)
Definition agrees (op : InfixOp) (b : CtValue) (va vb : Value) (folded : outcome (ParamError CtValue) CtValue) : Prop :=
  match folded with
  | Ok c =>
      if zero_divisor op b then apply_infix op va vb = type_error DivisionByZero
      else ∃ vc, runtime c vc ∧ apply_infix op va vb = Ok vc
  | Err _ => True
  | Panic | Diverge => False
  end.

(** [Int] or [UInt] operands: [ct] and [vm] are its values and [fold] and [run]
    its operators at compile time and on the machine. *)
Lemma fold_machine_agrees op d (ct : Z → CtValue) (vm : Z → Value) fold invalid x y :
  (d = DInt ∨ d = DUInt) → executed op = true → lane_in_range d x → lane_in_range d y →
  (∀ z, integer_value (ct z) = Some (mkInt (bi_from z))) →
  (∀ z, lane_in_range d z → runtime (ct z) (vm z)) →
  (∀ z, zero_divisor op (ct z) = divides op && (z =? 0)) →
  fold_infix op (ct x) (ct y) = (if compares op then CtBool <$> compare op (ct x) (ct y) else ct <$> fold) →
  fold = expected_fold d op x y →
  apply_infix op (vm x) (vm y) =
    match lane_compare int_cmp op x y with
    | Some b => Ok (VBool b)
    | None =>
        if divides op && (y =? 0) then type_error DivisionByZero
        else of_lane vm invalid (int_lane_binop op d x y)
    end →
  agrees op (ct y) (vm x) (vm y) (fold_infix op (ct x) (ct y)).
Proof using All.
  intros Hd Hop Hx Hy Hval Hrun Hzero -> -> Hvm. unfold agrees. rewrite Hvm, Hzero.
  assert (Dtype_.is_integral d = true) as Hint by (by destruct Hd; subst d).
  destruct (compares op) eqn:Hc.
  - destruct (compare_integers op (ct x) (ct y) (mkInt (bi_from x)) (mkInt (bi_from y))) as (r & Hr & ->); try done.
    unfold ival in Hr. cbn in Hr. rewrite !bi_val_from in Hr. rewrite Hr. cbn.
    assert (divides op = false) as -> by (by destruct op). exists (VBool r). split; [constructor|done].
  - assert (lane_compare int_cmp op x y = None) as -> by (by destruct op).
    rewrite int_lane_exact by done. unfold expected_fold.
    destruct (divides op && (y =? 0)) eqn:Hdiv.
    { destruct op; try done; cbn in Hdiv |- *; by rewrite Hdiv. }
    assert (match op with Div => y =? 0 | _ => false end = false) as -> by (by destruct op).
    destruct (shifts op && _); [done|].
    assert (exact_fold op d x y = exact_lane op d x y) as -> by (by destruct op).
    destruct (exact_lane op d x y) as [v|]; [|done]. cbn.
    exists (vm (wrap_lane d v)). split; [|done]. by apply Hrun, wrap_lane_range.
Qed.

Lemma fold_floats_agree op x y :
  executed op = true → valid binary64 (decode binary64 x) → valid binary64 (decode binary64 y) →
  agrees op (CtFloat y) (VFloat64 x) (VFloat64 y) (fold_infix op (CtFloat x) (CtFloat y)).
Proof using All.
  intros Hop Hx Hy. cbn [fold_infix]. unfold fold_numbers, agrees. rewrite infix_float by done. cbn [zero_divisor].
  destruct (compares op) eqn:Hc.
  - destruct (compare_floats op x y) as (r & Hr & ->); try done. cbn. exists (VBool r). split; [constructor|].
    rewrite float_op_lane by (by intros ->). by rewrite Hr.
  - assert (∀ z, valid binary64 z → valid binary64 (decode binary64 (encode binary64 z))) as Henc by apply encode_valid.
    destruct op; try done; cbn [fold_float float_op]; eexists; (split; [constructor|done]); apply Henc.
    + by apply add_valid.
    + by apply add_valid.
    + by apply mul_valid.
    + by apply div_valid.
Qed.

(** Folding vectors never panics. *)
Lemma collect_lanes_safe {A A'} (f : A → outcome unit A') l :
  Forall (λ x, post (f x) (λ _, True) (λ _, True)) l → post (collect_lanes f l) (λ _, True) (λ _, True).
Proof using Type.
  induction 1 as [|x l Hx _ IH]; [done|]. cbn. destruct (f x); try done. cbn. by destruct (collect_lanes f l).
Qed.

Lemma fold_lane_safe op d l r :
  lanes_ok d l → lanes_ok d r →
  Forall (λ p, post (fold_lane op d p) (λ _, True) (λ _, True)) (zip (ct_lanes l) (ct_lanes r)).
Proof using All.
  intros Hl Hr. apply Forall_forall. intros [a b] Hab. 
  apply elem_of_zip_l in Hab as Ha. apply elem_of_zip_r in Hab as Hb.
  destruct l as [l|l|l], r as [r|r|r]; cbn in Ha, Hb;
    apply list_elem_of_fmap in Ha as (x & -> & Ha); apply list_elem_of_fmap in Hb as (y & -> & Hb); try done.
  - destruct Hl as [Hd Hl], Hr as [_ Hr]. rewrite Forall_forall in Hl, Hr. cbn.
    destruct (compares op); [by destruct (lane_compare int_cmp op x y)|]. destruct (shifts op && _); [done|].
    rewrite int_lane_exact by auto. by destruct (exact_lane op d x y).
  - cbn. destruct (compares op); [by destruct (lane_compare f64_partial_cmp op x y)|]. by destruct (float_lane_binop op d x y).
  - cbn. by destruct (bool_lane_binop op x y).
Qed.

Lemma splat_safe v w d n :
  runtime v w → post (splat_lanes (B:=B) v d n) (λ _, True) (λ _, True).
Proof using All.
  destruct 1 as [| | | | | |own lanes]; cbn [splat_lanes]; try done; [by case_match|].
  destruct (_ && _); [done|]. destruct (bool_decide (own = d)); [|done].
  destruct (Nat.eqb_spec (length (ct_lanes lanes)) 1) as [Hl|]; [|done].
  by destruct (ct_lanes lanes) as [|lane []].
Qed.

Lemma fold_lanes_safe op a b va vb :
  runtime a va → runtime b vb → post (fold_lanes (B:=B) op a b) (λ _, True) (λ _, True).
Proof using All.
  intros Ha Hb. unfold fold_lanes. apply post_bind.
  assert (post match ct_shape a, ct_shape b with
    | Some (d, a), Some (_, b) => Ok (d, Z.max a b)
    | Some shape, None | None, Some shape => Ok shape
    | None, None => Err (Unsupported (V:=CtValue) "SIMD folding expects a SIMD operand")
    end (λ '(d, n), 0 <= n) (λ _, True)) as Hs.
  { destruct Ha, Hb; cbn; try done; lia. }
  eapply post_mono; [exact Hs| |done]. intros [d n] Hn. rewrite <- (Z2Nat.id n) by done.
  pose proof (splat_safe a va d (Z.of_nat (Z.to_nat n)) Ha) as Hsa.
  pose proof (splat_safe b vb d (Z.of_nat (Z.to_nat n)) Hb) as Hsb.
  destruct (splat_lanes a d _) as [xs| | |] eqn:Hxs, (splat_lanes b d _) as [ys| | |] eqn:Hys; try done.
  destruct (splat_reads a va d _ xs Ha Hxs) as (l & -> & _ & Hl & _).
  destruct (splat_reads b vb d _ ys Hb Hys) as (r & -> & _ & Hr & _).
  cbn [zip_option mbind outcome_bind].
  pose proof (collect_lanes_safe _ _ (fold_lane_safe op d l r Hl Hr)) as Hz.
  by destruct (collect_lanes _ _).
Qed.

(** C16: a value the folder gives for an operator is the value the virtual
    machine gives for it.  Take an operator that is one instruction on the
    machine (not [**], [and], [or], [in] or [not in], which are compiled
    otherwise) and operands of one kind: integers, doubles, [Bool]s, strings,
    dtypes, or vectors, a one-lane vector or a [Bool] spread to the other's
    width.  Folding never panics, and where it gives a value the machine
    executing the operator on the same operands gives that value, lane by lane
    and bit by bit.  The one difference is a host integer's [//] or [%] by
    zero, which folds to zero and is an error on the machine. *)
Theorem fold_infix_runs op a b va vb :
  runtime a va → runtime b vb → same_kind a b = true → executed op = true →
  agrees op b va vb (fold_infix op a b).
Proof using All.
  intros Ha Hb Hkind Hop.
  assert (∀ d lanes, a = CtSimd d (ct_lanes lanes) ∨ b = CtSimd d (ct_lanes lanes) →
    is_simd va || is_simd vb = true → agrees op b va vb (fold_infix op a b)) as Hvector.
  { intros d lanes Hab Hsimd.
    assert (fold_infix op a b = fold_lanes op a b) as -> by (destruct Hab as [-> | ->]; [by destruct Hb|by destruct Ha]).
    pose proof (fold_lanes_safe op a b va vb Ha Hb) as Hsafe. unfold agrees.
    destruct (fold_lanes op a b) as [c| | |] eqn:Hc; try done.
    assert (zero_divisor op b = false) as ->.
    { destruct b; try done; exfalso; unfold fold_lanes in Hc; destruct (ct_shape a) as [[]|]; try done;
        cbn in Hc; by destruct (splat_lanes a _ _). }
    destruct (fold_lanes_runs op a b va vb c Ha Hb Hc) as (vc & Hvc & Hrun). exists vc. split; [done|].
    rewrite <- Hrun. unfold Values.apply_infix. rewrite Hsimd. by destruct op. }
  destruct Ha as [x Hx|x Hx|x Hx|x|x|x|d lanes Hok]; [..|eapply Hvector; [by left|done]];
    (destruct Hb as [y Hy|y Hy|y Hy|y|y|y|d lanes Hok]; [..|eapply Hvector; [by right|by rewrite orb_true_r]]);
    try done; clear Hvector.
  - eapply (fold_machine_agrees op DInt CtInt VInt (fold_int op x y)); try done; [by left|by constructor|by apply fold_int_spec|].
    rewrite infix_int by done. by apply int_op_lane.
  - eapply (fold_machine_agrees op DUInt CtUInt VUInt (fold_uint op x y)); try done; [by right|by constructor|by apply fold_uint_spec|].
    rewrite infix_uint by done. by apply uint_op_lane.
  - by apply fold_floats_agree.
  - destruct op; try done; cbn; (eexists (VBool _); split; [apply runtime_bool|]); destruct x, y; done.
  - destruct op; try done; cbn; [exists (VStr (x +:+ y))|eexists (VBool _)..]; (split; [constructor|done]).
  - destruct op; try done; cbn [fold_infix fold_numbers compares agrees zero_divisor fmap outcome_fmap Fold.compare];
      (eexists (VBool _); split; [apply runtime_bool|try done]).
    change (Ok (VBool (negb (bool_decide (x = y)))) =@{result Value} Ok (VBool (bool_decide (x ≠ y)))).
    by rewrite bool_decide_not.
Qed.
End runs.

(** ** An instance *)

Definition no_types {V} : TypeLanguage unit V :=
  {| same_type _ _ := true; lane_shape _ := None; materialize_as _ _ := None |}.
Definition Z_floats : IntegerFloats Z := {| bi_to_f64 n := Some (f64_of_integer n) |}.

(** Adding 100 to two bytes, one of which overflows. *)
Lemma fold_infix_runs_witness :
  agrees (VT:=unit_types) (B:=Z) (R:=Qcanon.Qc) Add (CtSimd DInt8 [LInt 100]) (VSimd DInt8 (IntLanes [100; 3]))
    (VSimd DInt8 (IntLanes [100])) (Ok (CtSimd DInt8 [LInt (-56); LInt 103])).
Proof.
  assert (runtime (VT:=unit_types) (B:=Z) (R:=Qcanon.Qc) (CtSimd DInt8 [LInt 100; LInt 3]) (VSimd DInt8 (IntLanes [100; 3]))) as Ha.
  { apply (runtime_simd DInt8 (IntLanes [100; 3])). split; [done|]. repeat constructor; by vm_compute. }
  assert (runtime (VT:=unit_types) (B:=Z) (R:=Qcanon.Qc) (CtSimd DInt8 [LInt 100]) (VSimd DInt8 (IntLanes [100]))) as Hb.
  { apply (runtime_simd DInt8 (IntLanes [100])). split; [done|]. repeat constructor; by vm_compute. }
  exact (fold_infix_runs (VT:=unit_types) (IntegerFloats0:=Z_floats) (TypeLanguage0:=no_types) Add _ _ _ _ Ha Hb eq_refl eq_refl).
Defined.
