(* ===== verification/ParamNode.v ===== *)
(** * ParamNode: parameter expressions

    [mojito-types/src/param_expr.rs]: the typed nodes a parameter expression
    is made of, their equality, their canonical order and whether their
    evaluation is total.

    A node is its meta-type, its kind and the expressions directly below it:
    a [Kind.t] holds what a [ParamKind] holds besides its expressions, and the
    list holds those in the order of [ParamExpr::operands] (a [StructValue]'s
    fields, then its spelling; the bound arguments of a [BindParams], whose
    kind says which slots are bound).

    The types of the language are a parameter: a meta-type is a value of [M],
    and what the builders ask of one is the class [MetaTypes].  A node's text
    and its hash, which the order falls back to, are the class [Rendering]. *)

From Stdlib Require Import Ascii String.
From S2P Require Import Prelude Text Literal Ieee NarrowFloat Dtypes FloatOps Lanes Fold.
Local Open Scope Z_scope.

(** ** Data *)

#[export] Instance IntLiteral_eq_dec {B} `{!EqDecision B} : EqDecision (IntLiteral B).
Proof. solve_decision. Defined.
#[export] Instance FloatLiteral_eq_dec {R} `{!EqDecision R} : EqDecision (FloatLiteral R).
Proof. solve_decision. Defined.
#[export] Instance CtLane_eq_dec : EqDecision CtLane.
Proof. solve_decision. Defined.
#[export] Instance KgenTarget_eq_dec : EqDecision KgenTarget.
Proof. solve_decision. Defined.

#[export] Instance CtValue_eq_dec {T B R} `{!EqDecision T, !EqDecision B, !EqDecision R} : EqDecision (CtValue T B R).
Proof.
  unfold EqDecision, Decision. fix go 1. intros v w.
  pose (list_dec := @list_eq_dec _ go).
  pose (fields_dec := @list_eq_dec _ (@prod_eq_dec _ (λ x y : string, decide (x = y)) _ go)).
  pose (memory_dec := @option_eq_dec _ (@list_eq_dec _ (@option_eq_dec _ go))).
  destruct v, w; try (right; discriminate).
  all: try match goal with
    | |- {CtTuple ?a = CtTuple ?b} + {_} => destruct (list_dec a b)
    | |- {CtList ?a = CtList ?b} + {_} => destruct (list_dec a b)
    | |- {CtStruct ?n ?a = CtStruct ?m ?b} + {_} => destruct (decide (n = m)), (fields_dec a b)
    | |- {CtPointer ?a ?n = CtPointer ?b ?m} + {_} => destruct (memory_dec a b), (decide (n = m))
    | |- {CtStoreToMem ?a = CtStoreToMem ?b} + {_} => destruct (go a b)
    | |- {CtSimd ?a ?n = CtSimd ?b ?m} + {_} => destruct (decide (a = b)), (decide (n = m))
    | |- {?f ?a = ?f ?b} + {_} => destruct (decide (a = b))
    end.
  all: first [left; congruence|right; congruence].
Defined.

#[export] Existing Instance Param.Op_eq_dec.

Record ParamId : Type := mkId { owner : string; slot : nat }.
Record ParamRef : Type := mkRef { id : ParamId; ref_name : string }.

#[export] Instance ParamId_eq_dec : EqDecision ParamId.
Proof. solve_decision. Defined.

Inductive TrivialLifecycle : Type := Movable | Copyable | Deinitable.
Inductive PackPredicateRef : Type := PredicateTrivial (lifecycle : TrivialLifecycle) | PredicateAlias (name : string).
Inductive PackQuery : Type :=
| QueryLength | QueryConforms (trait_name : string)
| QueryPredicate (predicate : PackPredicateRef) (all : bool) | QueryContains | QueryIndexOf.
Inductive TypeNameForm : Type := FormName (qualified_builtins : bool) | FormBase | FormUnqualified.
Inductive ReflectQuery : Type :=
| IsStruct | FieldCount | FieldNames | FieldTypes
| FieldIndex (field : string) | FieldNamed (field : string) | TypeName (form : TypeNameForm).
Inductive HoleKind : Type := Unknown | Unbound.

#[export] Instance TrivialLifecycle_eq_dec : EqDecision TrivialLifecycle.
Proof. solve_decision. Defined.
#[export] Instance PackPredicateRef_eq_dec : EqDecision PackPredicateRef.
Proof. solve_decision. Defined.
#[export] Instance PackQuery_eq_dec : EqDecision PackQuery.
Proof. solve_decision. Defined.
#[export] Instance TypeNameForm_eq_dec : EqDecision TypeNameForm.
Proof. solve_decision. Defined.
#[export] Instance ReflectQuery_eq_dec : EqDecision ReflectQuery.
Proof. solve_decision. Defined.
#[export] Instance HoleKind_eq_dec : EqDecision HoleKind.
Proof. solve_decision. Defined.

Module Kind.
Inductive t {V T : Type} : Type :=
| Constant (value : V)
| DeclRef (reference : ParamRef)
| IndexRef (depth index : Z)
| Op (op : ParamOp)
| Identical
| Conforms (trait_name : string)
| Trivial (lifecycle : TrivialLifecycle)
| TypeShape (ty : T)
| Select (elements : list T)
| ListGet
| Field (name : string)
| Reflect (query : ReflectQuery)
| TypeMember (name : string)
| PackQuery (query : PackQuery)
| Apply (function : string)
| ListTabulate
| ListConcat
| BindParams (bound : list bool)
| StructValue (fields : list string)
| Hole (kind : HoleKind) (token : Z).
Arguments t : clear implicits.

Definition rank {V T} (k : t V T) : Z :=
  match k with
  | Constant _ => 0 | DeclRef _ => 1 | IndexRef _ _ => 2 | Op _ => 3 | Identical => 4
  | Conforms _ => 5 | Trivial _ => 6 | TypeShape _ => 7 | Select _ => 8 | ListGet => 9
  | Reflect _ => 10 | PackQuery _ => 11 | Apply _ => 12 | Hole _ _ => 13 | Field _ => 14
  | ListTabulate => 15 | ListConcat => 16 | TypeMember _ => 17 | BindParams _ => 18
  | StructValue _ => 19
  end.

(** The derived equality of kinds, their expressions aside. *)
Definition same {V T} `{!EqDecision V, !EqDecision T} (a b : t V T) : bool :=
  match a, b with
  | Constant v, Constant w => bool_decide (v = w)
  | DeclRef r, DeclRef s => bool_decide (r.(id) = s.(id))
  | IndexRef d i, IndexRef d' i' => (d =? d') && (i =? i')
  | Op o, Op p => bool_decide (o = p)
  | Conforms n, Conforms n' | Field n, Field n' | TypeMember n, TypeMember n' | Apply n, Apply n' =>
      bool_decide (n = n')
  | Trivial l, Trivial l' => bool_decide (l = l')
  | TypeShape ty, TypeShape ty' => bool_decide (ty = ty')
  | Select l, Select l' => bool_decide (l = l')
  | Reflect q, Reflect q' => bool_decide (q = q')
  | PackQuery q, PackQuery q' => bool_decide (q = q')
  | BindParams l, BindParams l' => bool_decide (l = l')
  | StructValue l, StructValue l' => bool_decide (l = l')
  | Hole k n, Hole k' n' => bool_decide (k = k') && (n =? n')
  | Identical, Identical | ListGet, ListGet | ListTabulate, ListTabulate | ListConcat, ListConcat => true
  | _, _ => false
  end.
End Kind.

Inductive ParamExpr {M V T : Type} : Type := Node (meta : M) (kind : Kind.t V T) (operands : list ParamExpr).
Arguments ParamExpr : clear implicits.

(** Induction that reaches every expression below a node. *)
Lemma ParamExpr_nested_ind {M V T} (P : ParamExpr M V T → Prop) :
  (∀ m k l, Forall P l → P (Node m k l)) → ∀ e, P e.
Proof. intros HP. fix IH 1. intros [m k l]. apply HP. induction l; constructor; auto. Qed.

#[export] Instance ParamRef_eq_dec : EqDecision ParamRef.
Proof. solve_decision. Defined.

#[export] Instance Kind_eq_dec {V T} `{!EqDecision V, !EqDecision T} : EqDecision (Kind.t V T).
Proof. solve_decision. Defined.

#[export] Instance ParamExpr_eq_dec {M V T} `{!EqDecision M, !EqDecision V, !EqDecision T} :
  EqDecision (ParamExpr M V T).
Proof.
  unfold EqDecision, Decision. fix go 1. intros [m k l] [m' k' l'].
  destruct (decide (m = m')), (decide (k = k')), (@list_eq_dec _ go l l').
  all: first [left; congruence|right; congruence].
Defined.

(** ** Reading a node *)

Section reading.
Context {M T B R : Type}.
Notation CtValue := (CtValue T B R).
Notation ParamExpr := (ParamExpr M CtValue T).
Implicit Types e : ParamExpr.

Definition meta e : M := let 'Node m _ _ := e in m.
Definition kind e : Kind.t CtValue T := let 'Node _ k _ := e in k.
Definition operands e : list ParamExpr := let 'Node _ _ l := e in l.

Definition as_constant e : option CtValue := match kind e with Kind.Constant v => Some v | _ => None end.
Definition as_bool e : option bool := match as_constant e with Some (CtBool b) => Some b | _ => None end.
Definition as_decl_ref e : option ParamRef := match kind e with Kind.DeclRef r => Some r | _ => None end.
Definition as_hole e : option HoleKind := match kind e with Kind.Hole k _ => Some k | _ => None end.

(** [visit], as the nodes it shows the visitor in order. *)
Fixpoint visit e : list ParamExpr := let 'Node _ _ l := e in e :: flat_map visit l.

Definition is_total e : bool :=
  forallb (λ node, negb match kind node with Kind.Op op => Param.is_partial op | _ => false end) (visit e).

Definition is_closed e : bool :=
  forallb (λ node, negb match kind node with
    | Kind.DeclRef _ | Kind.IndexRef _ _ | Kind.Hole _ _ | Kind.TypeShape _ | Kind.PackQuery _ => true
    | _ => false end) (visit e).

Definition embedded_types e : list T :=
  match kind e with
  | Kind.TypeShape ty => [ty]
  | Kind.Select elements => elements
  | Kind.Constant (CtType ty) => [ty]
  | _ => []
  end.

(** [free_parameters]: each declared parameter once, in the order found. *)
Definition free_parameters e : list ParamRef :=
  foldl (λ found node,
    match kind node with
    | Kind.DeclRef r => if existsb (λ s, bool_decide (s.(id) = r.(id))) found then found else found ++ [r]
    | _ => found
    end) [] (visit e).

Lemma is_total_node m k l :
  is_total (Node m k l) =
    negb match k with Kind.Op op => Param.is_partial op | _ => false end && forallb is_total l.
Proof.
  unfold is_total. cbn [visit forallb kind]. f_equal. induction l as [|e l IH]; [done|].
  cbn [flat_map forallb]. by rewrite forallb_app, IH.
Qed.
End reading.

(** ** Equality and order *)

Definition then_with (a b : comparison) : comparison := match a with Eq => b | _ => a end.

(** [Ord for Vec]. *)
Definition list_cmp {A} (cmp : A → A → comparison) : list A → list A → comparison :=
  fix go a b :=
    match a, b with
    | [], [] => Eq
    | [], _ => Lt
    | _, [] => Gt
    | x :: a, y :: b => then_with (cmp x y) (go a b)
    end.

(** [Ord] for the fields of a struct value: pairs of a name and a value. *)
Definition fields_cmp {A} (cmp : A → A → comparison) : list string → list A → list string → list A → comparison :=
  fix go names a names' b {struct a} :=
    match a, names, names', b with
    | x :: a, n :: names, n' :: names', y :: b =>
        then_with (String.compare n n') (then_with (cmp x y) (go names a names' b))
    | _, [], [], _ => Eq
    | _, [], _, _ => Lt
    | _, _, _, _ => Gt
    end.

Definition op_cmp (a b : ParamOp) : comparison :=
  let index o := position (λ p, bool_decide (p = o)) Param.ALL in
  match index a, index b with Some i, Some j => Nat.compare i j | _, _ => Eq end.

Definition id_cmp (a b : ParamId) : comparison :=
  then_with (String.compare a.(owner) b.(owner)) (Nat.compare a.(slot) b.(slot)).

Definition bool_cmp (a b : bool) : comparison := Nat.compare (Nat.b2n a) (Nat.b2n b).

(** The texts of a meta-type and of a node, and a node's hash. *)
Class Rendering (M N : Type) : Type := {
  meta_string : M → string;
  node_string : N → string;
  fingerprint : N → Z;
}.

Section order.
Context {M T B R : Type} `{!BigInt B, !BigRational B R, !EqDecision M, !EqDecision T, !EqDecision (CtValue T B R)}.
Notation CtValue := (CtValue T B R).
Notation ParamExpr := (ParamExpr M CtValue T).
Context `{!Rendering M ParamExpr}.
Implicit Types a b e : ParamExpr.

(** [PartialEq]: equal structure; a reference's name and a struct value's
    spelling take no part. *)
Definition lists_eq (eq : ParamExpr → ParamExpr → bool) : list ParamExpr → list ParamExpr → bool :=
  fix go xs ys :=
    match xs, ys with
    | [], [] => true
    | x :: xs, y :: ys => eq x y && go xs ys
    | _, _ => false
    end.

Definition fields_eq (eq : ParamExpr → ParamExpr → bool) : list string → list ParamExpr → list ParamExpr → bool :=
  fix go names xs ys {struct xs} :=
    match xs, names, ys with
    | _, [], _ => true
    | x :: xs, _ :: names, y :: ys => eq x y && go names xs ys
    | [], _, [] => true
    | _, _, _ => false
    end.

Fixpoint node_eq a b : bool :=
  match a, b with
  | Node m k l, Node m' k' l' =>
      bool_decide (m = m') && Kind.same k k' &&
      match k with
      | Kind.StructValue fields => fields_eq node_eq fields l l'
      | _ => lists_eq node_eq l l'
      end
  end.

Lemma lists_eq_Forall2 (l l' : list ParamExpr) :
  lists_eq node_eq l l' = true ↔ Forall2 (λ x y, node_eq x y = true) l l'.
Proof.
  revert l'. induction l as [|x l IH]; intros [|y l']; cbn.
  - split; [constructor|done].
  - split; [done|inversion 1].
  - split; [done|inversion 1].
  - rewrite andb_true_iff, IH. split; [intros []; by constructor|by inversion_clear 1].
Qed.

Lemma kind_same_refl (k : Kind.t CtValue T) : Kind.same k k = true.
Proof. destruct k; cbn; rewrite ?Z.eqb_refl, ?bool_decide_eq_true_2 by done; done. Qed.

Lemma node_eq_refl a : node_eq a a = true.
Proof.
  induction a as [m k l IH] using ParamExpr_nested_ind. cbn [node_eq].
  rewrite bool_decide_eq_true_2, kind_same_refl by done. cbn [andb].
  assert (Hl : lists_eq node_eq l l = true) by (apply lists_eq_Forall2; induction IH; by constructor).
  assert (Hf : ∀ names, fields_eq node_eq names l l = true).
  { clear Hl. induction IH as [|x l Hx _ IH]; intros [|f names]; cbn; try done. by rewrite Hx, IH. }
  by destruct k.
Qed.

(** Integers order by value, and two constants of different kinds not at
    all. *)
Definition constant_order (v w : CtValue) : comparison :=
  match integer_value v, integer_value w with
  | Some x, Some y => bi_compare x.(int_value) y.(int_value)
  | _, _ =>
      match v, w with
      | CtFloat x, CtFloat y => x ?= y
      | CtFloatLiteral x, CtFloatLiteral y => numeric_cmp (B:=B) x y
      | CtBool x, CtBool y => bool_cmp x y
      | CtStr x, CtStr y => String.compare x y
      | _, _ => Eq
      end
  end.

Fixpoint cmp a b : comparison :=
  if node_eq a b then Eq else
  match a, b with
  | Node m k l, Node m' k' l' =>
      then_with (Kind.rank k ?= Kind.rank k')
     (then_with
        match k, k' with
        | Kind.Constant v, Kind.Constant w => constant_order v w
        | Kind.DeclRef r, Kind.DeclRef s => id_cmp r.(id) s.(id)
        | Kind.IndexRef d i, Kind.IndexRef d' i' => then_with (d ?= d') (i ?= i')
        | Kind.Op o, Kind.Op o' => then_with (op_cmp o o') (list_cmp cmp l l')
        | Kind.Apply f, Kind.Apply g => then_with (String.compare f g) (list_cmp cmp l l')
        | Kind.StructValue names, Kind.StructValue names' => fields_cmp cmp names l names' l'
        | _, _ => Eq
        end
     (then_with (String.compare (meta_string m) (meta_string m'))
     (then_with (String.compare (node_string a) (node_string b))
        (fingerprint a ?= fingerprint b))))
  end.

(** [ordered]. *)
Definition ordered a b : ParamExpr * ParamExpr := match cmp b a with Lt => (b, a) | _ => (a, b) end.

(** [sort]: stable, by [cmp]. *)
Fixpoint sort_insert e (l : list ParamExpr) : list ParamExpr :=
  match l with
  | [] => [e]
  | x :: l => match cmp e x with Gt => x :: sort_insert e l | _ => e :: x :: l end
  end.

Definition sort (l : list ParamExpr) : list ParamExpr := foldr sort_insert [] l.
End order.
