(* ===== verification/OrderedMap.v ===== *)
(** * OrderedMap: sorting and ordered maps

    What the code uses of Rust's [sort] and [BTreeMap], over an order that is
    total on the keys in hand: a map is the list of its entries in order. *)

From stdpp Require Import sorting.
From S2P Require Import Prelude Literal Lanes ParamNode.
Local Open Scope Z_scope.
#[local] Set Default Proof Using "All".

(** [cmp] is a total order on the values [P] holds of. *)
Class Ordered {K : Type} (cmp : K → K → comparison) (P : K → Prop) : Prop := {
  ord_eq a b : P a → P b → cmp a b = Eq ↔ a = b;
  ord_flip a b : P a → P b → cmp b a = CompOpp (cmp a b);
  ord_trans a b c : P a → P b → P c → cmp a b = Lt → cmp b c = Lt → cmp a c = Lt;
}.

Lemma ord_refl {K} (cmp : K → K → comparison) P `{!Ordered cmp P} a : P a → cmp a a = Eq.
Proof. intros Ha. by apply ord_eq. Qed.

Lemma then_with_lt a b : then_with a b = Lt ↔ a = Lt ∨ a = Eq ∧ b = Lt.
Proof. destruct a; simpl; naive_solver. Qed.

Lemma then_with_eq a b : then_with a b = Eq ↔ a = Eq ∧ b = Eq.
Proof. destruct a; simpl; naive_solver. Qed.

Lemma then_with_flip a b : CompOpp (then_with a b) = then_with (CompOpp a) (CompOpp b).
Proof. by destruct a. Qed.

Section lists.
Context {K : Type} (cmp : K → K → comparison) (P : K → Prop) `{Hord : !Ordered cmp P}.

Lemma list_cmp_eq a b : Forall P a → Forall P b → list_cmp cmp a b = Eq ↔ a = b.
Proof.
  revert b. induction a as [|x a IH]; intros [|y b] Ha Hb; try done.
  inversion_clear Ha; inversion_clear Hb.
  change (list_cmp cmp (x :: a) (y :: b)) with (then_with (cmp x y) (list_cmp cmp a b)).
  rewrite then_with_eq, IH, ord_eq by done. naive_solver.
Qed.

Lemma list_cmp_flip a b : Forall P a → Forall P b → list_cmp cmp b a = CompOpp (list_cmp cmp a b).
Proof.
  revert b. induction a as [|x a IH]; intros [|y b] Ha Hb; try done.
  inversion_clear Ha; inversion_clear Hb.
  change (list_cmp cmp (x :: a) (y :: b)) with (then_with (cmp x y) (list_cmp cmp a b)).
  change (list_cmp cmp (y :: b) (x :: a)) with (then_with (cmp y x) (list_cmp cmp b a)).
  by rewrite then_with_flip, IH, (ord_flip x y).
Qed.

Lemma list_cmp_trans a b c :
  Forall P a → Forall P b → Forall P c → list_cmp cmp a b = Lt → list_cmp cmp b c = Lt → list_cmp cmp a c = Lt.
Proof.
  revert b c. induction a as [|x a IH]; intros [|y b] [|z c] Ha Hb Hc Hab Hbc; try done.
  inversion_clear Ha; inversion_clear Hb; inversion_clear Hc.
  change (then_with (cmp x y) (list_cmp cmp a b) = Lt) in Hab.
  change (then_with (cmp y z) (list_cmp cmp b c) = Lt) in Hbc.
  change (then_with (cmp x z) (list_cmp cmp a c) = Lt).
  rewrite then_with_lt in *.
  destruct Hab as [Hxy|[Hxy Hab]], Hbc as [Hyz|[Hyz Hbc]].
  - left. by apply ord_trans with y.
  - apply ord_eq in Hyz; [subst; by left|done..].
  - apply ord_eq in Hxy; [subst; by left|done..].
  - apply ord_eq in Hxy, Hyz; [|done..]. subst. right. split; [by apply ord_eq|by apply (IH b)].
Qed.

#[export] Instance list_ordered : Ordered (list_cmp cmp) (Forall P).
Proof. split; [apply list_cmp_eq|apply list_cmp_flip|apply list_cmp_trans]. Qed.

Definition below (a b : K) : Prop := cmp a b ≠ Gt.

Lemma below_total a b : P a → P b → cmp a b = Gt → below b a.
Proof. intros Ha Hb H. unfold below. by rewrite (ord_flip a b), H. Qed.

Lemma below_antisym a b : P a → P b → below a b → below b a → a = b.
Proof.
  unfold below. intros Ha Hb H1 H2. rewrite (ord_flip a b) in H2 by done. apply (ord_eq a b); [done..|].
  by destruct (cmp a b).
Qed.

Lemma below_trans a b c : P a → P b → P c → below a b → below b c → below a c.
Proof.
  unfold below. intros Ha Hb Hc Hab Hbc.
  destruct (cmp a b) eqn:E1; [apply ord_eq in E1; [by subst|done..]| |done].
  destruct (cmp b c) eqn:E2; [apply ord_eq in E2; [subst; by rewrite E1|done..]| |done].
  by rewrite (ord_trans a b c).
Qed.
End lists.

(** ** Maps *)

Section maps.
Context {K A : Type} (cmp : K → K → comparison).
Implicit Types (l : list (K * A)) (k : K).

(** [BTreeMap::get]. *)
Fixpoint map_get k l : option A :=
  match l with
  | [] => None
  | (k', v) :: l => match cmp k k' with Lt => None | Eq => Some v | Gt => map_get k l end
  end.

(** [BTreeMap::insert]. *)
Fixpoint map_insert k v l : list (K * A) :=
  match l with
  | [] => [(k, v)]
  | (k', v') :: l =>
      match cmp k k' with
      | Lt => (k, v) :: (k', v') :: l
      | Eq => (k', v) :: l
      | Gt => (k', v') :: map_insert k v l
      end
  end.

(** [BTreeMap::remove]. *)
Fixpoint map_remove k l : list (K * A) :=
  match l with
  | [] => []
  | (k', v') :: l => match cmp k k' with Lt => (k', v') :: l | Eq => l | Gt => (k', v') :: map_remove k l end
  end.

Definition map_sorted l : Prop := StronglySorted (λ x y, cmp x.1 y.1 = Lt) l.

Lemma length_map_insert k v l : (length (map_insert k v l) <= S (length l))%nat.
Proof. induction l as [|[k' v'] l IH]; [done|]. simpl. destruct (cmp k k'); simpl; lia. Qed.

Lemma length_map_remove k l : (length (map_remove k l) <= length l)%nat.
Proof. induction l as [|[k' v'] l IH]; [done|]. simpl. destruct (cmp k k'); simpl; lia. Qed.

Lemma map_insert_keys k v l (Q : K → Prop) :
  Q k → Forall (λ e, Q e.1) l → Forall (λ e : K * A, Q e.1) (map_insert k v l).
Proof.
  intros Hk. induction l as [|[k' v'] l IH]; intros Hl; simpl; [by constructor|].
  inversion_clear Hl. destruct (cmp k k'); repeat constructor; auto.
Qed.

Lemma map_remove_keys k l (Q : K * A → Prop) : Forall Q l → Forall Q (map_remove k l).
Proof. induction l as [|[k' v'] l IH]; intros Hl; simpl; [done|]. inversion_clear Hl. destruct (cmp k k'); auto. Qed.

Context (P : K → Prop) `{Hord : !Ordered cmp P}.
Notation keyed := (Forall (λ e : K * A, P e.1)).

(** ** Sorted maps *)

Lemma map_sorted_insert k v l : P k → keyed l → map_sorted l → map_sorted (map_insert k v l).
Proof.
  intros Hk. induction l as [|[k' v'] l IH]; intros Hl Hs; simpl; [by repeat constructor|].
  inversion_clear Hl. inversion Hs as [|? ? Hs' Hall]; subst. simpl in *.
  destruct (cmp k k') eqn:E.
  - apply (ord_eq k k') in E; [subst|done..]. by constructor.
  - constructor; [done|]. constructor; [done|]. rewrite Forall_forall in Hall |- *.
    intros e He. apply (ord_trans k k'); auto. by eapply Forall_forall in He; [|eassumption].
  - constructor; [by apply IH|]. apply (map_insert_keys k v l (λ y, cmp k' y = Lt)); [|done].
    by rewrite (ord_flip k k'), E.
Qed.

Lemma map_sorted_remove k l : map_sorted l → map_sorted (map_remove k l).
Proof.
  induction l as [|[k' v'] l IH]; intros Hs; simpl; [done|].
  inversion Hs as [|? ? Hs' Hall]; subst. destruct (cmp k k'); [done..|].
  constructor; [by apply IH|]. by apply map_remove_keys.
Qed.

(** An entry is found exactly where it is. *)
Lemma map_get_elem k v l : P k → keyed l → map_sorted l → map_get k l = Some v ↔ (k, v) ∈ l.
Proof.
  intros Hk. induction l as [|[k' v'] l IH]; intros Hl Hs; [simpl; split; [done|by intros ?%elem_of_nil]|].
  inversion_clear Hl. inversion Hs as [|? ? Hs' Hall]; subst. simpl in *. rewrite elem_of_cons.
  assert (Hlt : ∀ v'', (k, v'') ∈ l → cmp k' k = Lt).
  { intros v'' Hin. by eapply Forall_forall in Hin; [|exact Hall]. }
  destruct (cmp k k') eqn:E.
  - apply (ord_eq k k') in E; [subst|done..]. split; [intros [= ->]; by left|].
    intros [[= ->]|Hin]; [done|]. apply Hlt in Hin. exfalso.
    by rewrite (ord_refl cmp P k') in Hin.
  - split; [done|]. intros [[= <- <-]|Hin].
    + exfalso. by rewrite (ord_refl cmp P k) in E.
    + apply Hlt in Hin. by rewrite (ord_flip k k'), E in Hin.
  - rewrite IH by done. split; [by right|]. intros [[= <- <-]|]; [|done].
    exfalso. by rewrite (ord_refl cmp P k) in E.
Qed.

(** Sorted maps with the same entries are one map. *)
Lemma map_ext l l' :
  keyed l → keyed l' → map_sorted l → map_sorted l' → (∀ k, P k → map_get k l = map_get k l') → l = l'.
Proof.
  intros Hk Hk' Hs Hs' Hget.
  assert (Hin : ∀ e, e ∈ l ↔ e ∈ l').
  { intros [k v]. split; intros Hin.
    - assert (Hp : P k) by (by eapply Forall_forall in Hin; [|exact Hk]).
      apply map_get_elem; [done..|]. rewrite <- Hget by done. by apply map_get_elem.
    - assert (Hp : P k) by (by eapply Forall_forall in Hin; [|exact Hk']).
      apply map_get_elem; [done..|]. rewrite Hget by done. by apply map_get_elem. }
  assert (Hnd : ∀ m, keyed m → map_sorted m → NoDup m).
  { clear -Hord. intros m Hm. induction 1 as [|[k v] m Hs IH Hall]; constructor.
    - intros Hin. inversion_clear Hm. eapply Forall_forall in Hall; [|exact Hin]. simpl in Hall.
      by rewrite (ord_refl cmp P k) in Hall.
    - apply IH. by inversion_clear Hm. }
  apply (StronglySorted_unique_strong (λ x y, cmp x.1 y.1 = Lt)); [|done|done|by apply NoDup_Permutation; auto].
  intros [k v] [k' v'] Hx Hy H1 H2. simpl in *.
  assert (P k) by (by eapply Forall_forall in Hx; [|exact Hk]).
  assert (P k') by (by eapply Forall_forall in Hy; [|exact Hk']).
  by rewrite (ord_flip k k'), H1 in H2.
Qed.

End maps.

(** ** Sorting nodes *)

Section sorting.
Context {M T B R : Type} `{!BigInt B, !BigRational B R, !EqDecision M, !EqDecision T, !EqDecision (CtValue T B R)}.
Notation ParamExpr := (ParamExpr M (CtValue T B R) T).
Context `{!Rendering M ParamExpr}.
Implicit Types l : list ParamExpr.

Lemma sort_insert_perm e l : sort_insert e l ≡ₚ e :: l.
Proof. induction l as [|x l IH]; [done|]. simpl. destruct (cmp e x); try done. rewrite IH. apply Permutation_swap. Qed.

Lemma sort_perm l : sort l ≡ₚ l.
Proof. induction l as [|x l IH]; [done|]. simpl. by rewrite sort_insert_perm, IH. Qed.

Lemma sort_keeps (Q : ParamExpr → Prop) l : Forall Q l → Forall Q (sort l).
Proof. by rewrite sort_perm. Qed.
Context (P : ParamExpr → Prop) `{Hord : !Ordered cmp P}.

Lemma sort_insert_sorted e l :
  P e → Forall P l → StronglySorted (below cmp) l → StronglySorted (below cmp) (sort_insert e l).
Proof.
  intros He. induction l as [|x l IH]; intros Hl Hs; simpl; [by repeat constructor|].
  inversion_clear Hl. inversion Hs as [|? ? Hs' Hall]; subst.
  assert (Hle : below cmp e x → StronglySorted (below cmp) (e :: x :: l)).
  { intros Hex. constructor; [done|]. constructor; [done|]. rewrite Forall_forall in *. intros y Hy.
    apply (below_trans cmp P) with x; auto. }
  destruct (cmp e x) eqn:E; [apply Hle; unfold below; by rewrite E..|].
  constructor; [by apply IH|]. rewrite sort_insert_perm. constructor; [by apply (below_total cmp P)|done].
Qed.

Lemma sort_sorted l : Forall P l → StronglySorted (below cmp) (sort l).
Proof.
  induction l as [|x l IH]; intros Hl; [constructor|]. inversion_clear Hl. simpl.
  apply sort_insert_sorted; [done| |auto]. by rewrite sort_perm.
Qed.

(** One sorted list per bag. *)
Lemma sorted_unique l l' :
  Forall P l → StronglySorted (below cmp) l → StronglySorted (below cmp) l' → l ≡ₚ l' → l = l'.
Proof.
  intros Hl Hs Hs' Hperm. apply (StronglySorted_unique_strong (below cmp)); [|done..].
  intros a b Ha Hb Hab Hba. apply (below_antisym cmp P); [| |done..].
  - by eapply Forall_forall in Ha; [|exact Hl].
  - rewrite <- Hperm in Hb. by eapply Forall_forall in Hb; [|exact Hl].
Qed.

Lemma sort_unique l l' : Forall P l → l ≡ₚ l' → sort l = sort l'.
Proof.
  intros Hl Hperm. assert (Forall P l') by by rewrite <- Hperm.
  apply sorted_unique; [by rewrite sort_perm|by apply sort_sorted..|by rewrite !sort_perm].
Qed.

Lemma sort_id l : Forall P l → StronglySorted (below cmp) l → sort l = l.
Proof. intros Hl Hs. apply sorted_unique; [by rewrite sort_perm|by apply sort_sorted|done|apply sort_perm]. Qed.

End sorting.
