(* ===== verification/ParamBuild.v ===== *)
(** * ParamBuild: the canonicalizing constructors

    [mojito-types/src/param_expr.rs]: [ParamContext]'s constructors of
    operator nodes.  Typed integer [+], [-] and [*] build the node of a sum of
    products ([Polynomial]), a shift by a constant is a product, [and], [or]
    and exclusive-or are flattened and sorted, and every other operator folds
    its constants or stays a node.

    A node made is the node returned: the interner, which shares equal nodes,
    is the identity here.  What the constructors ask of types is the class
    [MetaTypes]; the operators that read one kind of attribute each
    ([build_cast], the string, target and literal conversions) and the meta-type
    of a literal polynomial node, whose definitions walk types, are the class
    [Attributes]. *)

From Stdlib Require Import Ascii String.
From S2P Require Import Prelude Text Literal Ieee NarrowFloat Dtypes FloatOps Lanes Fold ParamNode OrderedMap.
Local Open Scope Z_scope.

(** ** Integer domains *)

Module Domain.
Inductive t : Type := Int | UInt | IntStorage | UIntStorage | Index | Literal.

#[export] Instance t_eq_dec : EqDecision t.
Proof. solve_decision. Defined.

Definition storage (d : t) : option t :=
  match d with Int => Some IntStorage | UInt => Some UIntStorage | _ => None end.
End Domain.
Notation IntDomain := Domain.t.
#[export] Existing Instance Domain.t_eq_dec.

(** What the constructors read of a meta-type: [IntDomain::of] and its inverse
    [IntDomain::meta], [MetaTy::of_value], [bool], [Type], [is_literal],
    [is_scalar_domain] of its type, and which [!pop] literal type it is
    ([Some true]: the float one). *)
Class MetaTypes (M V : Type) : Type := {
  domain_of : M → option IntDomain;
  domain_meta : IntDomain → M;
  domain_name : IntDomain → string;
  meta_of_value : V → M;
  meta_bool : M;
  meta_type : M;
  is_literal : M → bool;
  is_scalar_domain : M → bool;
  pop_literal : M → option bool;
}.

Inductive ZeroTerms : Type := Drop | Keep.

#[export] Instance ZeroTerms_eq_dec : EqDecision ZeroTerms.
Proof. solve_decision. Defined.

Definition MAX_MONOMIALS : nat := 64 * 64.

Class Attributes (M V N : Type) : Type := {
  literal_node_meta : ParamOp → list N → M;
  literal_at_value : N → M → N;
  ct_value_is_symbolic : V → bool;
  value_string : V → string;
  build_attribute : ParamOp → list N → outcome (ParamError V) N;
}.

Section build.
Context {M T B R : Type} `{!BigInt B, !BigRational B R, !RationalFloats R, !Half, !IntegerFloats B}.
Context `{!EqDecision M, !EqDecision T, !EqDecision (CtValue T B R)}.
Notation CtValue := (CtValue T B R).
Notation ParamExpr := (ParamExpr M CtValue T).
Context `{!TypeLanguage T CtValue, !MetaTypes M CtValue, !Rendering M ParamExpr, !Attributes M CtValue ParamExpr}.
Notation result := (outcome (ParamError CtValue)).
Implicit Types (d : IntDomain) (e : ParamExpr) (value : IntLiteral B).

(** [IntDomain::reduce]: machine domains wrap at 64 bits. *)
Definition reduce d value : IntLiteral B :=
  match d with
  | Domain.Int | Domain.IntStorage | Domain.Index =>
      match wrapping_signed value 64 with Some z => mkInt (bi_from z) | None => value end
  | Domain.UInt | Domain.UIntStorage =>
      match wrapping_unsigned value 64 with Some z => mkInt (bi_from z) | None => value end
  | Domain.Literal => value
  end.

(** [IntDomain::constant]. *)
Definition domain_constant d value : CtValue :=
  match d with
  | Domain.Int | Domain.IntStorage => CtInt (default 0 (wrapping_signed value 64))
  | Domain.UInt | Domain.UIntStorage => CtUInt (default 0 (wrapping_unsigned value 64))
  | Domain.Index => CtIndex (default 0 (wrapping_signed value 64))
  | Domain.Literal => CtIntLiteral value
  end.

Definition int_is_zero value : bool := bi_is_zero value.(int_value).
Definition int_from (z : Z) : IntLiteral B := mkInt (bi_from z).
Definition int_eqb (a b : IntLiteral B) : bool := match bi_compare a.(int_value) b.(int_value) with Eq => true | _ => false end.

(** ** Polynomials *)

(** A monomial is the sorted list of its atoms, with repetition; the empty one
    is the constant term. *)
Definition Terms : Type := list (list ParamExpr * IntLiteral B).
Implicit Types p q : Terms.

Notation key_cmp := (list_cmp cmp).

(** [Polynomial::insert]. *)
Definition poly_insert d p (monomial : list ParamExpr) value : Terms :=
  let total := forallb is_total monomial in
  let updated :=
    reduce d match map_get key_cmp monomial p with Some existing => int_add existing value | None => value end in
  if int_is_zero updated && total then map_remove key_cmp monomial p
  else map_insert key_cmp monomial updated p.

Definition poly_constant d value : Terms := poly_insert d [] [] value.

Definition poly_add d p q : Terms := foldl (λ sum t, poly_insert d sum t.1 t.2) p q.

Definition product_monomial (l r : list ParamExpr) : list ParamExpr := sort (l ++ r).

(** [Polynomial::mul]: the budget is checked after each term. *)
Definition mul_term d (left : list ParamExpr * IntLiteral B) (product : Terms)
    (right : list ParamExpr * IntLiteral B) : result Terms :=
  let product := poly_insert d product (product_monomial left.1 right.1) (int_mul left.2 right.2) in
  if (MAX_MONOMIALS <? length product)%nat then Err (Budget MAX_MONOMIALS) else Ok product.

Definition poly_mul d p q : result Terms :=
  try_fold (λ product left, try_fold (mul_term d left) product q) [] p.

Definition poly_negated d p : Terms := foldl (λ negated t, poly_insert d negated t.1 (int_neg t.2)) [] p.

Definition poly_as_atom p : option ParamExpr :=
  match p with
  | [([atom], coefficient)] => if int_eqb coefficient (int_from 1) then Some atom else None
  | _ => None
  end.

Definition poly_as_constant p : option (IntLiteral B) :=
  match p with
  | [] => Some (int_from 0)
  | [_] => map_get key_cmp [] p
  | _ => None
  end.

(** [Polynomial::product], over the decomposition of a factor. *)
Definition product_of (decompose : ParamExpr → result Terms) d (zeros : ZeroTerms) (factors : list ParamExpr) : result Terms :=
  '(product, scale) ← try_fold (λ '(product, scale) factor,
    factor ← decompose factor;
    match (if decide (zeros = Keep) then poly_as_constant factor else None) with
    | Some value => Ok (product, int_mul scale value)
    | None => product ← poly_mul d product factor; Ok (product, scale)
    end) (poly_constant d (int_from 1), int_from 1) factors;
  Ok (foldl (λ scaled t, poly_insert d scaled t.1 (int_mul t.2 scale)) [] product).

Definition sum_of (decompose : ParamExpr → result Terms) d (operands : list ParamExpr) : result Terms :=
  try_fold (λ sum operand, term ← decompose operand; Ok (poly_add d sum term)) [] operands.

(** [Polynomial::of_with]. *)
Fixpoint of_with d (zeros : ZeroTerms) e : result Terms :=
  let 'Node m k l := e in
  match as_constant e ≫= integer_value with
  | Some value => Ok (poly_constant d value)
  | None =>
      match k, domain_of m with
      | Kind.Op Param.Add, Some _ => sum_of (of_with d zeros) d l
      | Kind.Op Param.Mul, Some _ => product_of (of_with d zeros) d zeros l
      | _, _ => Ok (poly_insert d [] [e] (int_from 1))
      end
  end.

Definition product d (factors : list ParamExpr) (zeros : ZeroTerms) : result Terms :=
  product_of (of_with d zeros) d zeros factors.

(** ** Nodes *)

Definition boolean (b : bool) : ParamExpr := Node meta_bool (Kind.Constant (CtBool b)) [].

Definition integer_literal d value : ParamExpr :=
  let v := domain_constant d value in
  let m := match d with
    | Domain.IntStorage | Domain.UIntStorage => domain_meta d
    | _ => meta_of_value v
    end in
  Node m (Kind.Constant v) [].

Definition integer d (z : Z) : ParamExpr := integer_literal d (int_from z).

Definition constant (v : CtValue) : result ParamExpr :=
  if ct_value_is_symbolic v then Err (NotConstant (value_string v))
  else Ok (Node (meta_of_value v) (Kind.Constant v) []).

Definition node_meta d (op : ParamOp) (operands : list ParamExpr) : M :=
  match d with Domain.Literal => literal_node_meta op operands | _ => domain_meta d end.

(** The node of one term that has an atom. *)
Definition term_node d (t : list ParamExpr * IntLiteral B) : ParamExpr :=
  let '(monomial, coefficient) := t in
  let factors := (if int_eqb coefficient (int_from 1) then [] else [integer_literal d coefficient]) ++ monomial in
  match factors with
  | [factor] => factor
  | _ => Node (node_meta d Param.Mul factors) (Kind.Op Param.Mul) factors
  end.

(** [polynomial_node]. *)
Definition polynomial_node d p : ParamExpr :=
  let terms := flat_map (λ t, if bool_decide (t.1 = []) then [] else [term_node d t]) p in
  let constant := flat_map (λ t, if bool_decide (t.1 = []) then [integer_literal d t.2] else []) p in
  let terms := terms ++ match last constant with Some c => [c] | None => [] end in
  match terms with
  | [] => integer d 0
  | [term] => term
  | _ => Node (node_meta d Param.Add terms) (Kind.Op Param.Add) terms
  end.

(** [arithmetic_domain]. *)
Definition arithmetic_domain (op : ParamOp) (operands : list ParamExpr) : result (option IntDomain) :=
  match mapM (λ e, domain_of (meta e)) operands with
  | None => Ok None
  | Some domains =>
      match find (λ d, bool_decide (d ≠ Domain.Literal)) domains with
      | None => Ok (Some Domain.Literal)
      | Some machine =>
          try_fold (λ found '(operand, d),
            let converts := bool_decide (d = Domain.Literal) && bool_decide (is_Some (as_constant operand)) in
            if bool_decide (d ≠ machine) && negb converts
            then Err (TypeMismatch (Param.name op) (domain_name machine) (domain_name d))
            else Ok found) (Some machine) (zip operands domains)
      end
  end.

(** [ParamOp::result_meta]. *)
Definition result_meta (op : ParamOp) (operands : list ParamExpr) : result M :=
  match operands with
  | [] => Panic
  | first :: _ =>
      let first := meta first in
      if negb (is_scalar_domain first)
      then Err (TypeMismatch (Param.name op) "a scalar compile-time value" (meta_string first))
      else
        let machine := default first (find (λ m, negb (is_literal m)) (meta <$> operands)) in
        try_fold (λ found operand,
          if bool_decide (meta operand ≠ machine) &&
             negb (is_literal (meta operand) && bool_decide (is_Some (as_constant operand)))
          then Err (TypeMismatch (Param.name op) (meta_string first) (meta_string (meta operand)))
          else Ok found) machine operands
  end.

(** [build_opaque]. *)
Definition build_opaque (op : ParamOp) (operands : list ParamExpr) : result ParamExpr :=
  meta ← result_meta op operands;
  match mapM as_constant operands with
  | Some constants =>
      match fold_primitive op constants with
      | Ok value => constant value
      | Err _ => Ok (Node meta (Kind.Op op) operands)
      | Panic => Panic
      | Diverge => Diverge
      end
  | None => Ok (Node meta (Kind.Op op) operands)
  end.

(** [build_ring_with]. *)
Definition build_ring_with (op : ParamOp) (operands : list ParamExpr) (zeros : ZeroTerms) : result ParamExpr :=
  domain ← arithmetic_domain op operands;
  match domain with
  | None => build_opaque op operands
  | Some d =>
      p ← (if decide (op = Param.Add) then sum_of (of_with d zeros) d operands else product d operands zeros);
      Ok (polynomial_node d p)
  end.

Definition build_ring op operands := build_ring_with op operands Drop.

(** A constant shift amount below 63. *)
Definition constant_shift e : option Z :=
  value ← as_constant e; literal ← integer_value value; amount ← to_i64 literal;
  if (0 <=? amount) && (amount <? 63) then Some amount else None.

(** [build_shift]: [op(Mul, …)] is the ring constructor, as the left operand is
    no [!pop] literal: [op] took those before. *)
Definition build_shift (operands : list ParamExpr) : result ParamExpr :=
  match operands with
  | [lhs; rhs] =>
      match domain_of (meta lhs), constant_shift rhs, as_constant lhs with
      | Some d, Some amount, None =>
          factor ← unwrap (int_shl (int_from 1) (int_from amount));
          build_ring Param.Mul [lhs; integer_literal d factor]
      | _, _, _ => build_opaque Param.Shl operands
      end
  | _ => Panic
  end.

(** [build_pop_literal]. *)
Definition build_pop_literal (op : ParamOp) (operands : list ParamExpr) : result ParamExpr :=
  match operands with
  | [] => Panic
  | first :: _ =>
      let literal := meta first in
      match find (λ e, bool_decide (meta e ≠ literal)) operands with
      | Some other => Err (TypeMismatch (Param.name op) (meta_string literal) (meta_string (meta other)))
      | None =>
          let is_float := bool_decide (pop_literal literal = Some true) in
          let accepted :=
            match op with
            | Param.Add | Param.Sub | Param.Mul | Param.FloorDiv | Param.Eq | Param.Lt | Param.Le => true
            | Param.Div => is_float
            | Param.Mod | Param.Pow | Param.Shl | Param.Shr | Param.BitAnd | Param.BitXor | Param.BitOr =>
                negb is_float
            | _ => false
            end in
          let result := match op with Param.Eq | Param.Lt | Param.Le => meta_bool | _ => literal end in
          match operands with
          | [lhs; rhs] =>
              if negb accepted then
                Err (Unsupported ("'" +:+ Param.name op +:+ "' is not an operator of '" +:+ meta_string literal +:+ "'"))
              else
                let node := Node result (Kind.Op op) operands in
                match as_constant lhs, as_constant rhs with
                | Some a, Some b =>
                    match fold_primitive op [a; b] with
                    | Ok value => if bool_decide (meta_of_value value = result) then constant value else Ok node
                    | Err _ => Ok node
                    | Panic => Panic
                    | Diverge => Diverge
                    end
                | _, _ => Ok node
                end
          | _ => Err (Unsupported ("'" +:+ Param.name op +:+ "' is not an operator of '" +:+ meta_string literal +:+ "'"))
          end
      end
  end.

(** *** Propositions *)

Definition require_bool (op : ParamOp) e : result unit :=
  if bool_decide (meta e = meta_bool) then Ok tt
  else Err (TypeMismatch (Param.name op) "Bool" (meta_string (meta e))).

Definition is_op (op : ParamOp) e : bool := match kind e with Kind.Op inner => bool_decide (inner = op) | _ => false end.

(** [Vec::dedup]: an element equal to the last one kept is dropped. *)
Fixpoint dedup_after e (l : list ParamExpr) : list ParamExpr :=
  match l with
  | [] => []
  | x :: l => if node_eq x e then dedup_after e l else x :: dedup_after x l
  end.
Definition dedup (l : list ParamExpr) : list ParamExpr :=
  match l with [] => [] | x :: l => x :: dedup_after x l end.

(** [build_connective]. *)
Definition build_connective (op : ParamOp) (operands_ : list ParamExpr) : result ParamExpr :=
  let dominating := bool_decide (op = Param.BoolOr) in
  flat ← try_fold (λ flat operand,
    _ ← require_bool op operand;
    Ok (flat ++ if is_op op operand then operands operand else [operand])) [] operands_;
  if existsb (λ e, bool_decide (as_bool e = Some dominating)) flat then Ok (boolean dominating)
  else
    let flat := List.filter (λ e, bool_decide (as_bool e = None)) flat in
    let flat := dedup (sort flat) in
    Ok match flat with
       | [] => boolean (negb dominating)
       | [e] => e
       | _ => Node meta_bool (Kind.Op op) flat
       end.

(** [build_xor]'s loop takes operands off the end of [pending]. *)
Fixpoint xor_loop (fuel : nat) (parity : bool) (flat pending : list ParamExpr) : result (bool * list ParamExpr) :=
  match fuel, last pending with
  | _, None => Ok (parity, flat)
  | O, _ => Diverge
  | S fuel, Some operand =>
      let pending := removelast pending in
      _ ← require_bool Param.BoolXor operand;
      match as_bool operand with
      | Some value => xor_loop fuel (xorb parity value) flat pending
      | None =>
          if is_op Param.BoolXor operand then xor_loop fuel parity flat (pending ++ operands operand)
          else
            match position (λ existing, node_eq existing operand) flat with
            | Some i => xor_loop fuel parity (delete i flat) pending
            | None => xor_loop fuel parity (flat ++ [operand]) pending
            end
      end
  end.

(** The nodes below some expressions, which bounds the loop. *)
Definition node_count (l : list ParamExpr) : nat := length (flat_map visit l).

Definition build_xor (operands : list ParamExpr) : result ParamExpr :=
  '(parity, flat) ← xor_loop (node_count operands) false [] operands;
  let flat := sort flat in
  if bool_decide (flat = []) then Ok (boolean parity)
  else
    let flat := if parity : bool then flat ++ [boolean true] else flat in
    Ok match flat with
       | [e] => e
       | _ => Node meta_bool (Kind.Op Param.BoolXor) flat
       end.

(** [literal_at]: beside an integer, a literal is left for
    [arithmetic_domain]. *)
Definition literal_at e (other : M) : ParamExpr :=
  match domain_of other with Some _ => e | None => literal_at_value e other end.

(** [build_comparison] past its two early exits: the operands are not both
    constants. *)
Definition compare_terms (op : ParamOp) (lhs rhs : ParamExpr) : result ParamExpr :=
  let '(l, r) := (literal_at lhs (meta rhs), literal_at rhs (meta lhs)) in
  domain ← arithmetic_domain op [l; r];
  if bool_decide (domain = None) && bool_decide (meta l ≠ meta r)
  then Err (TypeMismatch (Param.name op) (meta_string (meta l)) (meta_string (meta r)))
  else
    '(l, r) ← match domain with
      | Some d =>
          p ← of_with d Drop l; q ← of_with d Drop r;
          Ok (polynomial_node d p, polynomial_node d q)
      | None => Ok (l, r)
      end;
    if node_eq l r && is_total l then Ok (boolean (bool_decide (op ≠ Param.Lt)))
    else
      let residual :=
        let '(l, r) := if decide (op = Param.Eq) then ordered l r else (l, r) in
        Node meta_bool (Kind.Op op) [l; r] in
      match op, domain with
      | Param.Eq, Some d =>
          p ← of_with d Drop l; q ← of_with d Drop r;
          Ok match poly_as_constant (poly_add d p (poly_negated d q)) with
             | Some c => boolean (int_is_zero c)
             | None => residual
             end
      | _, _ => Ok residual
      end.

(** [build_comparison]. *)
Definition build_comparison (op : ParamOp) (lhs rhs : ParamExpr) : result ParamExpr :=
  if bool_decide (op ≠ Param.Eq) && existsb (λ o, bool_decide (meta o = meta_type)) [lhs; rhs]
  then Err (Unsupported "only == and != are defined for compile-time types")
  else
    match as_constant lhs, as_constant rhs with
    | Some a, Some b => fold_primitive op [a; b] ≫= constant
    | _, _ => compare_terms op lhs rhs
    end.

(** [build_cond]. *)
Definition build_cond (operands : list ParamExpr) : result ParamExpr :=
  match operands with
  | [condition; then_; else_] =>
      _ ← require_bool Param.Cond condition;
      if bool_decide (meta then_ ≠ meta else_)
      then Err (TypeMismatch (Param.name Param.Cond) (meta_string (meta then_)) (meta_string (meta else_)))
      else
        Ok match as_bool condition with
           | Some true => then_
           | Some false => else_
           | None => Node (meta then_) (Kind.Op Param.Cond) operands
           end
  | _ => Panic
  end.

(** ** The constructors *)

Definition is_pop_literal_operation (op : ParamOp) (operands : list ParamExpr) : bool :=
  bool_decide (is_Some (Param.infix op)) &&
  match operands with first :: _ => bool_decide (is_Some (pop_literal (meta first))) | [] => false end.

(** [ParamContext::op]. *)
Definition op (o : ParamOp) (operands : list ParamExpr) : result ParamExpr :=
  if negb (Param.accepts_arity o (length operands)) then Err (ArityMismatch o (length operands))
  else if is_pop_literal_operation o operands then build_pop_literal o operands
  else
    match o, operands with
    | (Param.Add | Param.Mul), _ => build_ring o operands
    | Param.Shl, _ => build_shift operands
    | (Param.BoolAnd | Param.BoolOr), _ => build_connective o operands
    | Param.BoolXor, _ => build_xor operands
    | (Param.Eq | Param.Lt | Param.Le), [lhs; rhs] => build_comparison o lhs rhs
    | Param.Cond, _ => build_cond operands
    | (Param.Neg | Param.Sub | Param.Div | Param.FloorDiv | Param.Mod | Param.Pow | Param.Shr
      | Param.BitAnd | Param.BitOr | Param.BitXor), _ => build_opaque o operands
    | _, _ => build_attribute o operands
    end.

(** [ParamContext::rebuild]. *)
Definition rebuild (o : ParamOp) (operands : list ParamExpr) : result ParamExpr :=
  if negb (Param.accepts_arity o (length operands)) then Err (ArityMismatch o (length operands))
  else if is_pop_literal_operation o operands then build_pop_literal o operands
  else
    match o with
    | Param.Add | Param.Mul => build_ring_with o operands Keep
    | _ =>
        if Param.is_unfolded_call o then m ← result_meta o operands; Ok (Node m (Kind.Op o) operands)
        else op o operands
    end.

Definition neg e : result ParamExpr := op Param.Neg [e].
Definition not e : result ParamExpr := op Param.BoolXor [e; boolean true].

Definition short_circuit (and : bool) (lhs rhs : ParamExpr) : result ParamExpr :=
  op Param.Cond (if and then [lhs; rhs; lhs] else [lhs; lhs; rhs]).

(** [ParamContext::infix]. *)
Definition infix (o : InfixOp) (lhs rhs : ParamExpr) : result ParamExpr :=
  let pair := [lhs; rhs] in
  match o with
  | Add => op Param.Add pair
  | Sub =>
      domain ← arithmetic_domain Param.Add pair;
      match domain with
      | Some d => negated ← op Param.Mul [integer d (-1); rhs]; op Param.Add [lhs; negated]
      | None => op Param.Sub pair
      end
  | Mul => op Param.Mul pair
  | Div => op Param.Div pair
  | FloorDiv => op Param.FloorDiv pair
  | Mod => op Param.Mod pair
  | Pow => op Param.Pow pair
  | Shl => op Param.Shl pair
  | Shr => op Param.Shr pair
  | BitAnd => op Param.BitAnd pair
  | BitOr => op Param.BitOr pair
  | BitXor => op Param.BitXor pair
  | Eq_ => op Param.Eq pair
  | Ne => e ← op Param.Eq pair; not e
  | Lt_ => op Param.Lt pair
  | Le => op Param.Le pair
  | Gt_ => op Param.Lt [rhs; lhs]
  | Ge => op Param.Le [rhs; lhs]
  | And => op Param.BoolAnd pair
  | Or => op Param.BoolOr pair
  | _ => Err (Unsupported "unsupported dependent parameter expression")
  end.

(** [require_constant]: the value of a closed expression. *)
Fixpoint require_constant e : result CtValue :=
  let 'Node _ k l := e in
  match k with
  | Kind.Constant value => Ok value
  | Kind.Op o => constants ← mapM require_constant l; fold_primitive o constants
  | _ => Err (NotConstant (node_string e))
  end.
End build.
