(* ===== verification/ParamRing.v ===== *)
(** * ParamRing: the meaning of polynomial nodes

    A commutative ring in which the coefficients of a domain have a value
    ([Model]): the integers modulo [2 ^ 64], and the ring expressions up to the
    laws of commutative rings ([ParamCanon]).  A polynomial is read in a model
    through a valuation of its monomials, and so is a node; the constructors
    keep that reading. *)

From Stdlib Require Import Ring Setoid.
From stdpp Require Import sorting.
From S2P Require Import Prelude Text Literal Ieee NarrowFloat Dtypes FloatOps Lanes Fold ParamNode OrderedMap ParamBuild.
Local Open Scope Z_scope.

(** ** Coefficients *)

Definition modulus (d : IntDomain) : Z := match d with Domain.Literal => 0 | _ => 2 ^ 64 end.

(** Equality of coefficients in a domain. *)
Definition eqm (d : IntDomain) (a b : Z) : Prop := (modulus d | a - b).

#[export] Instance eqm_equivalence d : Equivalence (eqm d).
Proof.
  split; unfold eqm.
  - intros a. rewrite Z.sub_diag. apply Z.divide_0_r.
  - intros a b [k H]. exists (- k). lia.
  - intros a b c [k H] [k' H']. exists (k + k'). lia.
Qed.

#[export] Instance eqm_add d : Proper (eqm d ==> eqm d ==> eqm d) Z.add.
Proof. intros a a' [k H] b b' [k' H']. exists (k + k'). lia. Qed.

#[export] Instance eqm_mul d : Proper (eqm d ==> eqm d ==> eqm d) Z.mul.
Proof.
  intros a a' [k H] b b' [k' H']. exists (k * b + a' * k').
  replace (a * b - a' * b') with ((a - a') * b + a' * (b - b')) by ring. rewrite H, H'. ring.
Qed.

#[export] Instance eqm_opp d : Proper (eqm d ==> eqm d) Z.opp.
Proof. intros a a' [k H]. exists (- k). lia. Qed.

#[export] Instance eqm_sub d : Proper (eqm d ==> eqm d ==> eqm d) Z.sub.
Proof. intros a a' [k H] b b' [k' H']. exists (k - k'). lia. Qed.

Lemma eqm_machine d a b : modulus d = 2 ^ 64 → eqm d a b ↔ a mod 2 ^ 64 = b mod 2 ^ 64.
Proof.
  unfold eqm. intros ->. split.
  - intros [k H]. replace a with (b + k * 2 ^ 64) by lia. apply Z.mod_add. lia.
  - intros H. exists (a / 2 ^ 64 - b / 2 ^ 64).
    rewrite (Z.div_mod a (2 ^ 64)), (Z.div_mod b (2 ^ 64)) at 1 by lia. lia.
Qed.

Lemma eqm_literal a b : eqm Domain.Literal a b ↔ a = b.
Proof. unfold eqm, modulus. split; [intros H%Z.divide_0_l; lia|intros ->; by rewrite Z.sub_diag]. Qed.

Section coefficients.
Context {B : Type} `{!BigInt B, Bl : !BigIntLaws B}.
Implicit Types a b value : IntLiteral B.

Lemma ival_from z : ival (int_from z : IntLiteral B) = z.
Proof using Bl. apply bi_val_from. Qed.

Lemma ival_reduce d value :
  ival (reduce d value) =
    match d with
    | Domain.Int | Domain.IntStorage | Domain.Index => to_signed 64 (ival value)
    | Domain.UInt | Domain.UIntStorage => to_unsigned 64 (ival value)
    | Domain.Literal => ival value
    end.
Proof using Bl.
  destruct d; unfold reduce; rewrite ?wrapping_signed_val, ?wrapping_unsigned_val by lia; try done;
    unfold ival; simpl; by rewrite bi_val_from.
Qed.

Lemma reduce_eqm d value : eqm d (ival (reduce d value)) (ival value).
Proof using Bl.
  rewrite ival_reduce. destruct d; try done; apply eqm_machine; try done;
    first [apply to_signed_mod|apply to_unsigned_mod].
Qed.

(** Equal coefficients reduce to one literal. *)
Lemma reduce_congr d a b : eqm d (ival a) (ival b) → reduce d a = reduce d b.
Proof using Bl.
  intros H. apply ival_inj. rewrite !ival_reduce. destruct d; try (by apply eqm_literal in H);
    (apply eqm_machine in H; [|done]); first [by apply to_signed_congr|by apply to_unsigned_congr].
Qed.

Lemma reduce_idemp d a : reduce d (reduce d a) = reduce d a.
Proof using Bl. apply reduce_congr, reduce_eqm. Qed.

Lemma int_is_zero_spec a : int_is_zero a = true ↔ ival a = 0.
Proof using Bl. unfold int_is_zero, ival. rewrite bi_is_zero_val. apply Z.eqb_eq. Qed.

Lemma int_eqb_spec a b : int_eqb a b = true ↔ a = b.
Proof using Bl.
  unfold int_eqb. rewrite bi_compare_val. split.
  - destruct (Z.compare_spec (bi_val (int_value a)) (bi_val (int_value b))); try done.
    intros _. by apply ival_inj.
  - intros ->. by rewrite Z.compare_refl.
Qed.

(** The constant of a domain holds the reduced value. *)
Lemma integer_value_constant {T R} d value :
  ∃ v, integer_value (domain_constant (T:=T) (R:=R) d value) = Some v ∧ v = reduce d value.
Proof using Bl.
  destruct d; unfold domain_constant, reduce; rewrite ?wrapping_signed_val, ?wrapping_unsigned_val by lia; eauto.
Qed.

Lemma domain_constant_congr {T R} d a b :
  eqm d (ival a) (ival b) → domain_constant (T:=T) (R:=R) d a = domain_constant d b.
Proof using Bl.
  intros H. destruct d; unfold domain_constant; rewrite ?wrapping_signed_val, ?wrapping_unsigned_val by lia;
    try (apply eqm_machine in H; [|done]); simpl; f_equal;
    first [by apply to_signed_congr|by apply to_unsigned_congr|by apply eqm_literal, ival_inj in H].
Qed.
End coefficients.

(** ** Models *)

Class Model (d : IntDomain) (A : Type) : Type := {
  m_eq : relation A;
  m_zero : A;
  m_one : A;
  m_add : A → A → A;
  m_mul : A → A → A;
  m_sub : A → A → A;
  m_opp : A → A;
  m_int : Z → A;
}.

Class ModelLaws (d : IntDomain) (A : Type) `{!Model d A} : Prop := {
  m_equivalence :: Equivalence m_eq;
  m_add_proper :: Proper (m_eq ==> m_eq ==> m_eq) m_add;
  m_mul_proper :: Proper (m_eq ==> m_eq ==> m_eq) m_mul;
  m_opp_proper :: Proper (m_eq ==> m_eq) m_opp;
  m_ring : ring_theory m_zero m_one m_add m_mul m_sub m_opp m_eq;
  m_int_eqm : Proper (eqm d ==> m_eq) m_int;
  m_int_0 : m_eq (m_int 0) m_zero;
  m_int_1 : m_eq (m_int 1) m_one;
  m_int_add a b : m_eq (m_int (a + b)) (m_add (m_int a) (m_int b));
  m_int_mul a b : m_eq (m_int (a * b)) (m_mul (m_int a) (m_int b));
}.
#[export] Existing Instance m_int_eqm.

(** The integers, up to equality in the domain. *)
#[export] Instance Z_model d : Model d Z := {|
  m_eq := eqm d; m_zero := 0; m_one := 1; m_add := Z.add; m_mul := Z.mul; m_sub := Z.sub; m_opp := Z.opp;
  m_int z := z;
|}.

#[export] Instance Z_model_laws d : ModelLaws d Z.
Proof.
  split; cbn; try reflexivity; try apply _.
  - split; cbn; intros; match goal with |- eqm _ ?a ?b => replace a with b by ring end; reflexivity.
Qed.

Section rings.
#[local] Set Default Proof Using "All".
Context {d : IntDomain} {A : Type} `{Hm : !Model d A, Hl : !ModelLaws d A}.
Implicit Types x y g : A.

Add Ring rings_ring : m_ring (setoid m_equivalence (mk_reqe m_add_proper m_mul_proper m_opp_proper)).

Lemma m_cancel x y g : m_eq (m_add x g) (m_add y g) → m_eq x y.
Proof. intros H. transitivity (m_add (m_add x g) (m_opp g)); [ring|]. rewrite H. ring. Qed.

Lemma m_int_opp z : m_eq (m_int (- z)) (m_opp (m_int z)).
Proof. apply (m_cancel _ _ (m_int z)). rewrite <- m_int_add, Z.add_opp_diag_l, m_int_0. ring. Qed.
Lemma negate_times x : m_eq (m_mul x (m_opp m_one)) (m_opp x).
Proof. ring. Qed.
End rings.

Section model.
#[local] Set Default Proof Using "All".
Context {M T B R : Type} `{!BigInt B, !BigRational B R, !RationalFloats R, Hhalf : !Half, !IntegerFloats B}.
Context `{!EqDecision M, !EqDecision T, !EqDecision (CtValue T B R), Bl : !BigIntLaws B}.
Notation CtValue := (CtValue T B R).
Notation ParamExpr := (ParamExpr M CtValue T).
Context `{!TypeLanguage T CtValue, !MetaTypes M CtValue, !Rendering M ParamExpr, !Attributes M CtValue ParamExpr}.
Notation Terms := (@Terms M T B R).
Context (d : IntDomain) {A : Type} `{Hm : !Model d A, Hl : !ModelLaws d A}.
Local Infix "≈" := m_eq (at level 70).
Local Infix "⊕" := m_add (at level 50, left associativity).
Local Infix "⊗" := m_mul (at level 40, left associativity).
Notation "#" := m_zero.
Notation key := (list ParamExpr).
Implicit Types (ψ : key → A) (p q : Terms) (k : key).

Add Ring model_ring : m_ring (setoid m_equivalence (mk_reqe m_add_proper m_mul_proper m_opp_proper)).

(** *** Reading a polynomial *)

Definition psum ψ p : A := foldr (λ t acc, ψ t.1 ⊗ m_int (ival t.2) ⊕ acc) # p.

(** A valuation that sees a monomial as a bag. *)
Definition bag ψ : Prop := ∀ k k', k ≡ₚ k' → ψ k ≈ ψ k'.

Lemma psum_cons ψ k c p : psum ψ ((k, c) :: p) = ψ k ⊗ m_int (ival c) ⊕ psum ψ p.
Proof using Type. done. Qed.

Lemma psum_ext ψ ψ' p : (∀ k, ψ k ≈ ψ' k) → psum ψ p ≈ psum ψ' p.
Proof. intros H. induction p as [|[k c] p IH]; [done|]. by rewrite !psum_cons, IH, H. Qed.

Lemma psum_scale ψ a p : psum (λ k, a ⊗ ψ k) p ≈ a ⊗ psum ψ p.
Proof. induction p as [|[k c] p IH]; [simpl|rewrite !psum_cons, IH]; ring. Qed.

Lemma psum_plus ψ ψ' p : psum (λ k, ψ k ⊕ ψ' k) p ≈ psum ψ p ⊕ psum ψ' p.
Proof. induction p as [|[k c] p IH]; [simpl|rewrite !psum_cons, IH]; ring. Qed.

(** *** Reading a node *)

(** Whether a node is a sum ([Some true]) or a product of integers. *)
Definition ring_kind (e : ParamExpr) : option bool :=
  match kind e, domain_of (meta e) with
  | Kind.Op Param.Add, Some _ => Some true
  | Kind.Op Param.Mul, Some _ => Some false
  | _, _ => None
  end.

(** A node that is neither an integer constant nor a sum or product of
    integers. *)
Definition atomic (e : ParamExpr) : Prop := as_constant e ≫= integer_value = None ∧ ring_kind e = None.

(** The value of a node: of the sum of products it spells, with [ψ] the value
    of a monomial. *)
Fixpoint reading (e : ParamExpr) ψ : A :=
  let 'Node m k l := e in
  match as_constant e ≫= integer_value with
  | Some v => ψ [] ⊗ m_int (ival v)
  | None =>
      match k, domain_of m with
      | Kind.Op Param.Add, Some _ => foldr (λ e acc, reading e ψ ⊕ acc) # l
      | Kind.Op Param.Mul, Some _ =>
          (fix factors l ψ := match l with [] => ψ [] | e :: l => reading e (λ k, factors l (λ k', ψ (k ++ k'))) end) l ψ
      | _, _ => ψ [e]
      end
  end.

Definition factors_reading (l : list ParamExpr) ψ : A :=
  (fix factors l ψ := match l with [] => ψ [] | e :: l => reading e (λ k, factors l (λ k', ψ (k ++ k'))) end) l ψ.

Definition sum_reading (l : list ParamExpr) ψ : A := foldr (λ e acc, reading e ψ ⊕ acc) # l.

(** The atoms of that sum of products. *)
Fixpoint atoms (e : ParamExpr) : list ParamExpr :=
  let 'Node m k l := e in
  match as_constant e ≫= integer_value with
  | Some _ => []
  | None =>
      match k, domain_of m with
      | Kind.Op Param.Add, Some _ | Kind.Op Param.Mul, Some _ => flat_map atoms l
      | _, _ => [e]
      end
  end.

Lemma ring_kind_constant (e : ParamExpr) s : ring_kind e = Some s → as_constant e ≫= integer_value = None.
Proof using Type. destruct e as [m [] l]; try done. Qed.

Lemma reading_constant (e : ParamExpr) v ψ :
  as_constant e ≫= integer_value = Some v → reading e ψ = ψ [] ⊗ m_int (ival v).
Proof using Type. destruct e. intros H. cbn [reading]. by rewrite H. Qed.

Ltac ring_node e :=
  let H := fresh in
  intros H; pose proof (ring_kind_constant _ _ H); destruct e as [m k l];
  unfold ring_kind in H; cbn [kind meta] in H; destruct k as [| | |[]| | | | | | | | | | | | | | | |]; try done;
  destruct (domain_of m) eqn:?; try done; cbn; repeat (match goal with E : domain_of m = _ |- _ => rewrite E; clear E end).

Lemma reading_sum (e : ParamExpr) ψ : ring_kind e = Some true → reading e ψ = sum_reading (operands e) ψ.
Proof using Type. ring_node e. done. Qed.

Lemma reading_product (e : ParamExpr) ψ : ring_kind e = Some false → reading e ψ = factors_reading (operands e) ψ.
Proof using Type. ring_node e. done. Qed.

Lemma atoms_ring (e : ParamExpr) s : ring_kind e = Some s → atoms e = flat_map atoms (operands e).
Proof using Type. ring_node e; done. Qed.

Lemma of_with_sum zeros (e : ParamExpr) :
  ring_kind e = Some true → of_with d zeros e = sum_of (of_with d zeros) d (operands e).
Proof using Type. ring_node e. done. Qed.

Lemma of_with_product zeros (e : ParamExpr) :
  ring_kind e = Some false → of_with d zeros e = product d (operands e) zeros.
Proof using Type. ring_node e. done. Qed.

Lemma of_with_constant zeros (e : ParamExpr) v :
  as_constant e ≫= integer_value = Some v → of_with d zeros e = Ok (poly_constant d v).
Proof using Type. destruct e. intros H. cbn [of_with]. by rewrite H. Qed.

Lemma atomic_reading (e : ParamExpr) ψ : atomic e → reading e ψ = ψ [e].
Proof using Type.
  intros [Hc Hr]. destruct e as [m k l]. unfold ring_kind in Hr. cbn [kind meta reading] in *. rewrite Hc.
  destruct k as [| | |[]| | | | | | | | | | | | | | | |]; try done; by destruct (domain_of m).
Qed.

Lemma atomic_atoms (e : ParamExpr) : atomic e → atoms e = [e].
Proof using Type.
  intros [Hc Hr]. destruct e as [m k l]. unfold ring_kind in Hr. cbn [kind meta atoms] in *. rewrite Hc.
  destruct k as [| | |[]| | | | | | | | | | | | | | | |]; try done; by destruct (domain_of m).
Qed.

Lemma of_with_atom zeros (e : ParamExpr) : atomic e → of_with d zeros e = Ok (poly_insert d [] [e] (int_from 1)).
Proof using Type.
  intros [Hc Hr]. destruct e as [m k l]. unfold ring_kind in Hr. cbn [kind meta of_with] in *. rewrite Hc.
  destruct k as [| | |[]| | | | | | | | | | | | | | | |]; try done; by destruct (domain_of m).
Qed.

(** A node is a constant, a sum, a product or an atom. *)
Lemma node_cases (e : ParamExpr) :
  (∃ v, as_constant e ≫= integer_value = Some v) ∨ (∃ s, ring_kind e = Some s) ∨ atomic e.
Proof using Type.
  destruct (as_constant e ≫= integer_value) eqn:?; [eauto|]. destruct (ring_kind e) eqn:?; [eauto|].
  right. right. done.
Qed.

Lemma reading_ext (e : ParamExpr) : ∀ ψ ψ', (∀ k, ψ k ≈ ψ' k) → reading e ψ ≈ reading e ψ'.
Proof.
  induction e as [m k l IH] using ParamExpr_nested_ind. intros ψ ψ' Hψ.
  destruct (node_cases (Node m k l)) as [[v Hv]|[[[] Hr]|Ha]].
  - rewrite !(reading_constant _ v) by done. by rewrite Hψ.
  - rewrite !reading_sum by done. cbn [operands]. clear Hr.
    induction IH as [|e l He _ IH']; [done|]. cbn. by rewrite (He ψ ψ'), IH'.
  - rewrite !reading_product by done. cbn [operands]. clear Hr. revert ψ ψ' Hψ.
    induction IH as [|e l He _ IH']; intros ψ ψ' Hψ; [by apply Hψ|].
    apply He. intros k'. apply IH'. intros k''. apply Hψ.
  - rewrite !atomic_reading by done. apply Hψ.
Qed.

Lemma factors_reading_cons e l ψ :
  factors_reading (e :: l) ψ = reading e (λ k, factors_reading l (λ k', ψ (k ++ k'))).
Proof using Type. done. Qed.

Lemma factors_reading_ext l ψ ψ' : (∀ k, ψ k ≈ ψ' k) → factors_reading l ψ ≈ factors_reading l ψ'.
Proof.
  revert ψ ψ'. induction l as [|e l IH]; intros ψ ψ' H; [apply H|]. rewrite !factors_reading_cons.
  apply reading_ext. intros k. apply IH. intros k'. apply H.
Qed.

Lemma reading_scale (e : ParamExpr) : ∀ ψ c, reading e (λ k, c ⊗ ψ k) ≈ c ⊗ reading e ψ.
Proof.
  induction e as [m k l IH] using ParamExpr_nested_ind. intros ψ c.
  destruct (node_cases (Node m k l)) as [[v Hv]|[[[] Hr]|Ha]].
  - rewrite !(reading_constant _ v) by done. ring.
  - rewrite !reading_sum by done. cbn [operands]. clear Hr. unfold sum_reading.
    induction IH as [|e l He _ IH']; cbn [foldr]; [ring|]. rewrite He, IH'. ring.
  - rewrite !reading_product by done. cbn [operands]. clear Hr. revert ψ.
    induction IH as [|e l He _ IH']; intros ψ; [done|]. rewrite !factors_reading_cons, <- He.
    apply reading_ext. intros k'. apply IH'.
  - by rewrite !atomic_reading.
Qed.

Lemma factors_reading_scale l ψ c : factors_reading l (λ k, c ⊗ ψ k) ≈ c ⊗ factors_reading l ψ.
Proof.
  revert ψ. induction l as [|e l IH]; intros ψ; [done|]. rewrite !factors_reading_cons, <- reading_scale.
  apply reading_ext. intros k. apply IH.
Qed.

(** A product reads as the product of its factors' readings. *)
Lemma factors_reading_product e l ψ :
  (∀ k k', ψ (k ++ k') ≈ ψ k ⊗ ψ k') → factors_reading (e :: l) ψ ≈ reading e ψ ⊗ factors_reading l ψ.
Proof.
  intros Hψ. rewrite factors_reading_cons.
  transitivity (reading e (λ k, factors_reading l ψ ⊗ ψ k)); [|rewrite reading_scale; ring].
  apply reading_ext. intros k.
  transitivity (factors_reading l (λ k', ψ k ⊗ ψ k')); [apply factors_reading_ext; intros k'; apply Hψ|].
  rewrite factors_reading_scale. ring.
Qed.

(** Bags are closed under the valuations that readings use. *)
Lemma bag_app k ψ : bag ψ → bag (λ k', ψ (k ++ k')).
Proof using Type. intros H k1 k2 Hk. apply H. by rewrite Hk. Qed.

Lemma bag_factors l ψ : bag ψ → bag (λ k, factors_reading l (λ k', ψ (k ++ k'))).
Proof. intros H k1 k2 Hk. apply factors_reading_ext. intros k'. apply H. by rewrite Hk. Qed.
Context (P : ParamExpr → Prop) `{Hord : !Ordered cmp P}.
Notation keyed := (Forall (λ t : key * IntLiteral B, Forall P t.1)).

Lemma psum_insert ψ k c p :
  Forall P k → keyed p →
  psum ψ (map_insert (list_cmp cmp) k c p) ⊕ from_option (λ c', ψ k ⊗ m_int (ival c')) # (map_get (list_cmp cmp) k p)
  ≈ psum ψ p ⊕ ψ k ⊗ m_int (ival c).
Proof.
  intros Hk. induction p as [|[k' c'] p IH]; intros Hp; simpl map_insert; simpl map_get;
    [rewrite psum_cons; simpl; ring|].
  inversion_clear Hp. destruct (list_cmp cmp k k') eqn:E; simpl from_option; rewrite !psum_cons.
  - apply (ord_eq k k') in E; [subst; ring|done..].
  - ring.
  - transitivity (ψ k' ⊗ m_int (ival c') ⊕ (psum ψ (map_insert (list_cmp cmp) k c p)
      ⊕ from_option (λ c', ψ k ⊗ m_int (ival c')) # (map_get (list_cmp cmp) k p))); [ring|].
    rewrite IH by done. ring.
Qed.

Lemma psum_remove ψ k p :
  Forall P k → keyed p →
  psum ψ (map_remove (list_cmp cmp) k p) ⊕ from_option (λ c', ψ k ⊗ m_int (ival c')) # (map_get (list_cmp cmp) k p)
  ≈ psum ψ p.
Proof.
  intros Hk. induction p as [|[k' c'] p IH]; intros Hp; simpl map_remove; simpl map_get; [simpl; ring|].
  inversion_clear Hp. destruct (list_cmp cmp k k') eqn:E; simpl from_option; rewrite ?psum_cons.
  - apply (ord_eq k k') in E; [subst; ring|done..].
  - ring.
  - transitivity (ψ k' ⊗ m_int (ival c') ⊕ (psum ψ (map_remove (list_cmp cmp) k p)
      ⊕ from_option (λ c', ψ k ⊗ m_int (ival c')) # (map_get (list_cmp cmp) k p))); [ring|].
    by rewrite IH.
Qed.
(** *** Canonical polynomials *)

Definition entry (t : key * IntLiteral B) : Prop :=
  StronglySorted (below cmp) t.1 ∧ Forall atomic t.1 ∧ reduce d t.2 = t.2 ∧
  (forallb is_total t.1 = true → ival t.2 ≠ 0).

Definition canonical p : Prop := keyed p ∧ map_sorted (list_cmp cmp) p ∧ Forall entry p.

Lemma canonical_nil : canonical [].
Proof using Type. repeat constructor. Qed.

Lemma map_insert_entries (Q : key * IntLiteral B → Prop) k c p :
  Forall P k → keyed p → Q (k, c) → Forall Q p → Forall Q (map_insert (list_cmp cmp) k c p).
Proof using Hord.
  intros Hk Hp HQ. induction p as [|[k' c'] p IH]; intros HQp; simpl; [by constructor|].
  inversion_clear Hp; inversion_clear HQp. destruct (list_cmp cmp k k') eqn:E; [|by repeat constructor|constructor; auto].
  apply (ord_eq k k') in E; [subst|done..]. by constructor.
Qed.

Lemma poly_insert_spec p k c :
  Forall P k → Forall atomic k → StronglySorted (below cmp) k → canonical p →
  canonical (poly_insert d p k c) ∧ ∀ ψ, psum ψ (poly_insert d p k c) ≈ psum ψ p ⊕ ψ k ⊗ m_int (ival c).
Proof.
  intros Hk Ha Hs (Hkey & Hsorted & Hentry). unfold poly_insert.
  set (u := reduce d _).
  assert (Hu : ∀ ψ, ψ k ⊗ m_int (ival u) ≈
    from_option (λ c', ψ k ⊗ m_int (ival c')) # (map_get (list_cmp cmp) k p) ⊕ ψ k ⊗ m_int (ival c)).
  { intros ψ. unfold u. rewrite reduce_eqm. destruct (map_get _ _ _) as [c'|]; simpl; [|ring].
    unfold ival at 1. simpl. rewrite bi_val_add, m_int_add. unfold ival. ring. }
  destruct (int_is_zero u && forallb is_total k) eqn:Ez.
  - apply andb_true_iff in Ez as [Hz _]. apply int_is_zero_spec in Hz. split.
    + split; [by apply (map_remove_keys _ _ _ (λ t, Forall P t.1))|].
      split; [by apply (map_sorted_remove _ (Forall P))|by apply map_remove_keys].
    + intros ψ. specialize (Hu ψ). rewrite Hz, m_int_0 in Hu.
      pose proof (psum_remove ψ k p Hk Hkey) as Hr. rewrite <- Hr.
      match goal with |- ?x ≈ ?x ⊕ ?g ⊕ ?c => transitivity (x ⊕ (g ⊕ c)); [|ring] end.
      rewrite <- Hu. ring.
  - split.
    + split; [by apply (map_insert_keys _ _ _ _ (Forall P))|].
      split; [by apply (map_sorted_insert _ (Forall P))|].
      apply map_insert_entries; [done..| |done]. split_and!; simpl; [done..|apply reduce_idemp|].
      intros Ht Hz. rewrite Ht, andb_true_r in Ez. apply int_is_zero_spec in Hz. congruence.
    + intros ψ. specialize (Hu ψ). pose proof (psum_insert ψ k u p Hk Hkey) as Hi. rewrite Hu in Hi.
      eapply m_cancel. etransitivity; [apply Hi|]. ring.
Qed.

Lemma poly_constant_spec c :
  canonical (poly_constant d c) ∧ ∀ ψ, psum ψ (poly_constant d c) ≈ ψ [] ⊗ m_int (ival c).
Proof.
  destruct (poly_insert_spec [] [] c) as [Hc Hs]; [constructor..|apply canonical_nil|].
  split; [done|]. intros ψ. etransitivity; [apply Hs|]. simpl. ring.
Qed.

(** A fold of insertions: the terms of [q], changed by [f]. *)
Definition on_coefficients (f : IntLiteral B → IntLiteral B) q : Terms := (λ t, (t.1, f t.2)) <$> q.

Lemma on_coefficients_cons f k c q : on_coefficients f ((k, c) :: q) = (k, f c) :: on_coefficients f q.
Proof. done. Qed.

Lemma fold_insert_spec (f : IntLiteral B → IntLiteral B) p q :
  canonical p → canonical q →
  let r := foldl (λ sum t, poly_insert d sum t.1 (f t.2)) p q in
  canonical r ∧ ∀ ψ, psum ψ r ≈ psum ψ p ⊕ psum ψ (on_coefficients f q).
Proof.
  intros Hp (Hkey & _ & Hentry). revert p Hp.
  induction q as [|[k c] q IH]; intros p Hp; cbn [foldl fst snd]; [split; [done|]; intros; simpl; ring|].
  inversion_clear Hkey; inversion_clear Hentry as [|? ? (Hs & Ha & _) Hq].
  destruct (poly_insert_spec p k (f c)) as [Hc Hins]; [done..|].
  destruct (IH ltac:(done) ltac:(done) _ Hc) as [Hc' Hr]. split; [done|].
  intros ψ. rewrite on_coefficients_cons, psum_cons. etransitivity; [apply Hr|]. rewrite Hins. ring.
Qed.

Lemma psum_on_coefficients f (a : A) ψ q :
  (∀ c, m_int (ival (f c)) ≈ a ⊗ m_int (ival c)) → psum ψ (on_coefficients f q) ≈ a ⊗ psum ψ q.
Proof.
  intros Hf. induction q as [|[k c] q IH]; [simpl; ring|].
  rewrite on_coefficients_cons, !psum_cons, Hf, IH. ring.
Qed.

Lemma poly_add_spec p q :
  canonical p → canonical q → canonical (poly_add d p q) ∧ ∀ ψ, psum ψ (poly_add d p q) ≈ psum ψ p ⊕ psum ψ q.
Proof.
  intros Hp Hq. destruct (fold_insert_spec (λ c, c) p q Hp Hq) as [Hc Hs]. split; [done|].
  intros ψ. etransitivity; [apply Hs|]. rewrite (psum_on_coefficients _ m_one) by (intros; ring). ring.
Qed.

Lemma ival_mul a b : ival (int_mul a b : IntLiteral B) = ival a * ival b.
Proof using Bl. apply bi_val_mul. Qed.

Lemma poly_negated_spec p :
  canonical p → canonical (poly_negated d p) ∧ ∀ ψ, psum ψ (poly_negated d p) ≈ m_opp (psum ψ p).
Proof.
  intros Hp. destruct (fold_insert_spec int_neg [] p canonical_nil Hp) as [Hc Hs]. split; [done|].
  intros ψ. etransitivity; [apply Hs|]. rewrite (psum_on_coefficients _ (m_opp m_one)); [simpl; ring|].
  intros c. unfold ival, int_neg. simpl. rewrite bi_val_neg, m_int_opp. ring.
Qed.

Lemma poly_scale_spec p v :
  canonical p →
  let r := foldl (λ scaled t, poly_insert d scaled t.1 (int_mul t.2 v)) [] p in
  canonical r ∧ ∀ ψ, psum ψ r ≈ m_int (ival v) ⊗ psum ψ p.
Proof.
  intros Hp. destruct (fold_insert_spec (λ c, int_mul c v) [] p canonical_nil Hp) as [Hc Hs]. split; [done|].
  intros ψ. etransitivity; [apply Hs|]. rewrite (psum_on_coefficients _ (m_int (ival v))); [simpl; ring|].
  intros c. rewrite ival_mul, m_int_mul. ring.
Qed.

(** *** Products *)

Lemma mul_term_ok t t' (product product' : Terms) :
  mul_term d t product t' = Ok product' →
  poly_insert d product (product_monomial t.1 t'.1) (int_mul t.2 t'.2) = product'.
Proof using Type. unfold mul_term. destruct (_ <? _)%nat; by intros [= ->]. Qed.

Lemma monomial_product k k' (Q : ParamExpr → Prop) : Forall Q k → Forall Q k' → Forall Q (product_monomial k k').
Proof using Type. intros. apply sort_keeps, Forall_app; auto. Qed.

Lemma mul_row_spec k c q acc r :
  Forall P k → Forall atomic k → canonical acc → keyed q → Forall entry q →
  try_fold (mul_term d (k, c)) acc q = Ok r →
  canonical r ∧ ∀ ψ, bag ψ → psum ψ r ≈ psum ψ acc ⊕ m_int (ival c) ⊗ psum (λ k', ψ (k ++ k')) q.
Proof.
  intros Hk Ha. revert acc. induction q as [|[k' c'] q IH]; intros acc Hacc Hkey Hentry Hr.
  - simplify_eq/=. split; [done|]. intros ψ _. ring.
  - cbn [try_fold fst snd] in Hr. apply bind_ok_inv in Hr as (acc' & <-%mul_term_ok & Hr).
    inversion_clear Hkey; inversion_clear Hentry as [|? ? (Hs & Ha' & _) Hq]. cbn [fst snd] in *.
    destruct (poly_insert_spec acc (product_monomial k k') (int_mul c c')) as [Hc Hins];
      [by apply monomial_product..|by apply (sort_sorted P), Forall_app|done|].
    destruct (IH _ Hc ltac:(done) ltac:(done) Hr) as [Hc' Hr']. split; [done|].
    intros ψ Hψ. rewrite (Hr' ψ Hψ), Hins, psum_cons, ival_mul, m_int_mul.
    rewrite (Hψ (product_monomial k k') (k ++ k')) by apply sort_perm. ring.
Qed.

Lemma poly_mul_spec p q r :
  canonical p → canonical q → poly_mul d p q = Ok r →
  canonical r ∧ ∀ ψ, bag ψ → psum ψ r ≈ psum (λ k, psum (λ k', ψ (k ++ k')) q) p.
Proof.
  intros (Hkey & _ & Hentry) (Hkey' & _ & Hentry'). unfold poly_mul.
  assert (Hgen : ∀ acc, canonical acc →
    try_fold (λ product t, try_fold (mul_term d t) product q) acc p = Ok r →
    canonical r ∧ ∀ ψ, bag ψ → psum ψ r ≈ psum ψ acc ⊕ psum (λ k, psum (λ k', ψ (k ++ k')) q) p).
  { induction p as [|[k c] p IH]; intros acc Hacc Hr.
    - simplify_eq/=. split; [done|]. intros ψ _. ring.
    - cbn [try_fold fst snd] in Hr. apply bind_ok_inv in Hr as (acc' & Hrow & Hr).
      inversion_clear Hkey; inversion_clear Hentry as [|? ? (Hs & Ha & _) Hp]. cbn [fst snd] in *.
      destruct (mul_row_spec k c q acc acc') as [Hc Hrow']; [done..|].
      destruct (IH ltac:(done) ltac:(done) _ Hc Hr) as [Hc' Hr']. split; [done|].
      intros ψ Hψ. rewrite (Hr' ψ Hψ), (Hrow' ψ Hψ), psum_cons. ring. }
  intros Hr. destruct (Hgen [] canonical_nil Hr) as [Hc Hs]. split; [done|].
  intros ψ Hψ. rewrite (Hs ψ Hψ). simpl. ring.
Qed.
(** ** The decomposition keeps the reading *)

(** [decompose] finds a canonical polynomial with the node's reading. *)
Definition decomposes (decompose : ParamExpr → outcome (ParamError CtValue) Terms) (e : ParamExpr) : Prop :=
  ∀ p, decompose e = Ok p → canonical p ∧ ∀ ψ, bag ψ → psum ψ p ≈ reading e ψ.

Lemma sum_of_spec decompose l p :
  Forall (decomposes decompose) l → sum_of decompose d l = Ok p →
  canonical p ∧ ∀ ψ, bag ψ → psum ψ p ≈ sum_reading l ψ.
Proof.
  intros Hall. unfold sum_of.
  assert (Hgen : ∀ acc, canonical acc →
    try_fold (λ sum operand, term ← decompose operand; Ok (poly_add d sum term)) acc l = Ok p →
    canonical p ∧ ∀ ψ, bag ψ → psum ψ p ≈ psum ψ acc ⊕ sum_reading l ψ).
  { induction Hall as [|e l He _ IH]; intros acc Hacc Hp.
    - simplify_eq/=. split; [done|]. intros ψ _. unfold sum_reading. simpl. ring.
    - cbn [try_fold] in Hp. apply bind_ok_inv in Hp as (acc' & (q & Hq & [= <-])%bind_ok_inv & Hp).
      destruct (He q Hq) as [Hcq Hrq]. destruct (poly_add_spec acc q Hacc Hcq) as [Hc Hs].
      destruct (IH _ Hc Hp) as [Hcp Hrp]. split; [done|].
      intros ψ Hψ. rewrite (Hrp ψ Hψ), Hs, (Hrq ψ Hψ). unfold sum_reading. simpl. ring. }
  intros Hp. destruct (Hgen [] canonical_nil Hp) as [Hc Hr]. split; [done|].
  intros ψ Hψ. rewrite (Hr ψ Hψ). simpl. ring.
Qed.

(** A polynomial that is one constant reads as it. *)
Lemma as_constant_reading p v ψ :
  canonical p → poly_as_constant p = Some v → psum ψ p ≈ ψ [] ⊗ m_int (ival v).
Proof.
  intros (Hkey & _). destruct p as [|[k c] [|]]; simpl; [| |done].
  - intros [= <-]. rewrite ival_from, m_int_0. ring.
  - destruct k as [|x k]; [|done]. intros [= <-]. simpl. ring.
Qed.

Lemma product_of_spec decompose zeros l p :
  Forall (decomposes decompose) l → product_of decompose d zeros l = Ok p →
  canonical p ∧ ∀ ψ, bag ψ → psum ψ p ≈ factors_reading l ψ.
Proof.
  intros Hall. unfold product_of. intros Hp. apply bind_ok_inv in Hp as ([prod scale] & Hfold & [= <-]).
  assert (Hgen : ∀ l, Forall (decomposes decompose) l → ∀ prod0 scale0, canonical prod0 →
    try_fold (λ '(product, scale) factor,
      factor ← decompose factor;
      match (if decide (zeros = Keep) then poly_as_constant factor else None) with
      | Some value => Ok (product, int_mul scale value)
      | None => product ← poly_mul d product factor; Ok (product, scale)
      end) (prod0, scale0) l = Ok (prod, scale) →
    canonical prod ∧ ∀ ψ, bag ψ → m_int (ival scale) ⊗ psum ψ prod
      ≈ m_int (ival scale0) ⊗ psum (λ k, factors_reading l (λ k', ψ (k ++ k'))) prod0).
  { clear l Hall Hfold. intros l Hall. induction Hall as [|e l He Hall IH]; intros prod0 scale0 Hc0 Hfold.
    - simplify_eq/=. split; [done|]. intros ψ Hψ. f_equiv. apply psum_ext. intros k.
      unfold factors_reading. by rewrite app_nil_r.
    - cbn [try_fold] in Hfold. apply bind_ok_inv in Hfold as ([prod1 scale1] & Hstep & Hfold).
      apply bind_ok_inv in Hstep as (q & Hq & Hstep). destruct (He q Hq) as [Hcq Hrq].
      destruct (if decide (zeros = Keep) then poly_as_constant q else None) as [v|] eqn:Hv.
      + injection Hstep as <- <-. destruct (IH _ _ Hc0 Hfold) as [Hc Hr]. split; [done|].
        intros ψ Hψ. rewrite (Hr ψ Hψ), ival_mul, m_int_mul.
        transitivity (m_int (ival scale0) ⊗ (m_int (ival v) ⊗ psum (λ k, factors_reading l (λ k', ψ (k ++ k'))) prod0));
          [ring|]. f_equiv. rewrite <- psum_scale. apply psum_ext. intros k.
        rewrite factors_reading_cons, <- Hrq by (apply (bag_factors _ (λ k', ψ (k ++ k'))), bag_app, Hψ).
        destruct (decide _); [|done]. rewrite (as_constant_reading q v) by done. simpl. ring.
      + apply bind_ok_inv in Hstep as (prod1' & Hmul & [= <- <-]).
        destruct (poly_mul_spec prod0 q prod1' Hc0 Hcq Hmul) as [Hc1 Hs1].
        destruct (IH _ _ Hc1 Hfold) as [Hc Hr]. split; [done|].
        intros ψ Hψ. rewrite (Hr ψ Hψ), Hs1 by (apply bag_factors, Hψ). f_equiv.
        apply psum_ext. intros k.
        rewrite factors_reading_cons, <- Hrq by (apply (bag_factors _ (λ k', ψ (k ++ k'))), bag_app, Hψ).
        apply psum_ext. intros k'. apply factors_reading_ext. intros k''. by rewrite app_assoc. }
  destruct (poly_constant_spec (int_from 1)) as [Hc1 Hs1].
  destruct (Hgen l Hall _ _ Hc1 Hfold) as [Hc Hr].
  destruct (poly_scale_spec prod scale Hc) as [Hcs Hss]. split; [done|].
  intros ψ Hψ. rewrite Hss, (Hr ψ Hψ), Hs1, ival_from, m_int_1.
  change (m_one ⊗ (factors_reading l ψ ⊗ m_one) ≈ factors_reading l ψ). ring.
Qed.

Lemma of_with_spec zeros (e : ParamExpr) : Forall P (atoms e) → decomposes (of_with d zeros) e.
Proof.
  induction e as [m k l IH] using ParamExpr_nested_ind. intros Hatoms p Hp.
  assert (Hops : ∀ s, ring_kind (Node m k l) = Some s → Forall (decomposes (of_with d zeros)) l).
  { intros s Hs. rewrite (atoms_ring _ _ Hs) in Hatoms. cbn [operands] in Hatoms. clear -IH Hatoms Hl Hord Bl.
    induction IH as [|e l He _ IH']; [done|]. cbn [flat_map] in Hatoms. apply Forall_app in Hatoms as [H1 H2].
    constructor; auto. }
  destruct (node_cases (Node m k l)) as [[v Hv]|[[[] Hr]|Ha]].
  - rewrite (of_with_constant _ _ _ Hv) in Hp. injection Hp as <-.
    destruct (poly_constant_spec v) as [Hc Hs]. split; [done|]. intros ψ _. by rewrite (reading_constant _ v).
  - rewrite of_with_sum in Hp by done.
    destruct (sum_of_spec _ _ _ (Hops _ Hr) Hp) as [Hc Hs]. split; [done|].
    intros ψ Hψ. rewrite reading_sum by done. by apply Hs.
  - rewrite of_with_product in Hp by done.
    destruct (product_of_spec _ _ _ _ (Hops _ Hr) Hp) as [Hc Hs]. split; [done|].
    intros ψ Hψ. rewrite reading_product by done. by apply Hs.
  - rewrite of_with_atom in Hp by done. injection Hp as <-. rewrite atomic_atoms in Hatoms by done.
    destruct (poly_insert_spec [] [Node m k l] (int_from 1)) as [Hc Hs]; [done|by constructor|repeat constructor|
      apply canonical_nil|].
    split; [done|]. intros ψ _. rewrite atomic_reading by done. rewrite Hs, ival_from, m_int_1.
    change (# ⊕ ψ [Node m k l] ⊗ m_one ≈ ψ [Node m k l]). ring.
Qed.
End model.
