(* ===== verification/ParamCanon.v ===== *)
(** * ParamCanon: polynomial nodes are canonical

    Two nodes that the constructors build from the integer operators are one
    node exactly when the laws of commutative rings, and arithmetic on
    constants in the domain, make their expressions equal
    ([ring_nodes_identical]); and building one fails only on a polynomial above
    the budget. *)

From Stdlib Require Import Ring Setoid.
From stdpp Require Import sorting.
From S2P Require Import Prelude Text Literal Ieee NarrowFloat Dtypes FloatOps Lanes Fold ParamNode OrderedMap ParamBuild ParamRing.
Local Open Scope Z_scope.

(** The meta-types of a domain's nodes are of that domain, which is none of the
    [!pop] literals'.  The domains of machine integers have one meta-type
    each; a node of literals is typed by its operands. *)
Class DomainMetas {M T B R : Type} `{!BigInt B, !EqDecision M, !MetaTypes M (CtValue T B R),
    !Attributes M (CtValue T B R) (ParamExpr M (CtValue T B R) T)} (d : IntDomain) : Prop := {
  ring_meta o (l : list (ParamExpr M (CtValue T B R) T)) :
    o = Param.Add ∨ o = Param.Mul → Forall (λ e, domain_of (meta e) = Some d) l →
    domain_of (node_meta d o l) = Some d;
  constant_meta (v : IntLiteral B) :
    domain_of (meta (integer_literal d v : ParamExpr M (CtValue T B R) T)) = Some d;
  not_pop (m : M) : domain_of m = Some d → pop_literal m = None;
}.

(** ** Ring expressions *)

Inductive RingExpr {N : Type} : Type :=
| RAtom (a : N)
| RConst (z : Z)
| RAdd (a b : RingExpr)
| RSub (a b : RingExpr)
| RMul (a b : RingExpr).
Arguments RingExpr : clear implicits.

(** Equality by the laws of commutative rings, with constants of the domain
    [d]. *)
Inductive ring_eq {N} (d : IntDomain) : relation (RingExpr N) :=
| req_refl a : ring_eq d a a
| req_sym a b : ring_eq d a b → ring_eq d b a
| req_trans a b c : ring_eq d a b → ring_eq d b c → ring_eq d a c
| req_add_cong a a' b b' : ring_eq d a a' → ring_eq d b b' → ring_eq d (RAdd a b) (RAdd a' b')
| req_mul_cong a a' b b' : ring_eq d a a' → ring_eq d b b' → ring_eq d (RMul a b) (RMul a' b')
| req_const y z : eqm d y z → ring_eq d (RConst y) (RConst z)
| req_const_add y z : ring_eq d (RAdd (RConst y) (RConst z)) (RConst (y + z))
| req_const_mul y z : ring_eq d (RMul (RConst y) (RConst z)) (RConst (y * z))
| req_add_0 a : ring_eq d (RAdd (RConst 0) a) a
| req_add_comm a b : ring_eq d (RAdd a b) (RAdd b a)
| req_add_assoc a b c : ring_eq d (RAdd a (RAdd b c)) (RAdd (RAdd a b) c)
| req_mul_1 a : ring_eq d (RMul (RConst 1) a) a
| req_mul_comm a b : ring_eq d (RMul a b) (RMul b a)
| req_mul_assoc a b c : ring_eq d (RMul a (RMul b c)) (RMul (RMul a b) c)
| req_distr a b c : ring_eq d (RMul (RAdd a b) c) (RAdd (RMul a c) (RMul b c))
| req_sub a b : ring_eq d (RSub a b) (RAdd a (RMul (RConst (-1)) b))
| req_sub_diag a : ring_eq d (RSub a a) (RConst 0).

(** Ring expressions up to those laws are a model. *)
#[export] Instance RingExpr_model {N} d : Model d (RingExpr N) := {|
  m_eq := ring_eq d; m_zero := RConst 0; m_one := RConst 1; m_add := RAdd; m_mul := RMul;
  m_sub := RSub; m_opp a := RMul (RConst (-1)) a; m_int := RConst;
|}.

#[export] Instance ring_eq_equivalence {N} d : Equivalence (@ring_eq N d).
Proof. split; [exact (req_refl d)|exact (req_sym d)|exact (req_trans d)]. Qed.
#[export] Instance RAdd_proper {N} d : Proper (@ring_eq N d ==> ring_eq d ==> ring_eq d) RAdd.
Proof. intros a a' H b b' H'. by apply req_add_cong. Qed.
#[export] Instance RMul_proper {N} d : Proper (@ring_eq N d ==> ring_eq d ==> ring_eq d) RMul.
Proof. intros a a' H b b' H'. by apply req_mul_cong. Qed.

#[export] Instance RingExpr_laws {N} d : ModelLaws d (RingExpr N).
Proof.
  split; cbn; try apply _.
  - intros a b H. by apply RMul_proper.
  - split; cbn.
    + apply req_add_0.
    + apply req_add_comm.
    + apply req_add_assoc.
    + apply req_mul_1.
    + apply req_mul_comm.
    + apply req_mul_assoc.
    + apply req_distr.
    + apply req_sub.
    + intros a. rewrite <- req_sub. apply req_sub_diag.
  - intros y z. apply req_const.
  - done.
  - done.
  - intros y z. by rewrite req_const_add.
  - intros y z. by rewrite req_const_mul.
Qed.

(** ** The meaning of a ring expression *)

Section meaning.
#[local] Set Default Proof Using "All".
Context {N : Type} (d : IntDomain) {A : Type} `{Hm : !Model d A, Hl : !ModelLaws d A}.
Local Infix "≈" := m_eq (at level 70).
Local Infix "⊕" := m_add (at level 50, left associativity).
Local Infix "⊗" := m_mul (at level 40, left associativity).
Notation key := (list N).
Implicit Types (ψ : key → A) (e : RingExpr N).

Add Ring meaning_ring : m_ring (setoid m_equivalence (mk_reqe m_add_proper m_mul_proper m_opp_proper)).

Fixpoint meaning e ψ : A :=
  match e with
  | RAtom a => ψ [a]
  | RConst z => ψ [] ⊗ m_int z
  | RAdd a b => meaning a ψ ⊕ meaning b ψ
  | RSub a b => meaning a ψ ⊕ m_opp (meaning b ψ)
  | RMul a b => meaning a (λ k, meaning b (λ k', ψ (k ++ k')))
  end.

Lemma meaning_ext e ψ ψ' : (∀ k, ψ k ≈ ψ' k) → meaning e ψ ≈ meaning e ψ'.
Proof.
  revert ψ ψ'. induction e as [a|z|a IHa b IHb|a IHa b IHb|a IHa b IHb]; intros ψ ψ' H; cbn [meaning];
    [apply H|by rewrite H|by rewrite (IHa ψ ψ'), (IHb ψ ψ')..|].
  apply IHa. intros k. apply IHb. intros k'. apply H.
Qed.

Lemma meaning_linear e ψ ψ' c : meaning e (λ k, c ⊗ ψ k ⊕ ψ' k) ≈ c ⊗ meaning e ψ ⊕ meaning e ψ'.
Proof.
  revert ψ ψ'. induction e as [a|z|a IHa b IHb|a IHa b IHb|a IHa b IHb]; intros ψ ψ'; cbn [meaning];
    rewrite ?IHa, ?IHb; try ring.
  rewrite <- IHa. apply meaning_ext. intros k. apply IHb.
Qed.

Lemma meaning_zero e : meaning e (λ _, m_zero) ≈ m_zero.
Proof.
  induction e as [a|z|a IHa b IHb|a IHa b IHb|a IHa b IHb]; cbn [meaning]; rewrite ?IHa, ?IHb; try ring.
  transitivity (meaning a (λ _, m_zero)); [|done]. apply meaning_ext. intros _. apply IHb.
Qed.

Lemma meaning_scale e ψ c : meaning e (λ k, c ⊗ ψ k) ≈ c ⊗ meaning e ψ.
Proof.
  transitivity (c ⊗ meaning e ψ ⊕ meaning e (λ _, m_zero)); [|rewrite meaning_zero; ring].
  rewrite <- meaning_linear. apply meaning_ext. intros k. ring.
Qed.

Lemma meaning_plus e ψ ψ' : meaning e (λ k, ψ k ⊕ ψ' k) ≈ meaning e ψ ⊕ meaning e ψ'.
Proof.
  transitivity (m_one ⊗ meaning e ψ ⊕ meaning e ψ'); [|ring].
  rewrite <- meaning_linear. apply meaning_ext. intros k. ring.
Qed.

Lemma meaning_opp e ψ : meaning e (λ k, m_opp (ψ k)) ≈ m_opp (meaning e ψ).
Proof.
  transitivity (m_opp m_one ⊗ meaning e ψ); [|ring].
  rewrite <- meaning_scale. apply meaning_ext. intros k. ring.
Qed.

Lemma meaning_swap e e' (F : key → key → A) :
  meaning e (λ k, meaning e' (λ k', F k k')) ≈ meaning e' (λ k', meaning e (λ k, F k k')).
Proof.
  revert F. induction e as [a|z|a IHa b IHb|a IHa b IHb|a IHa b IHb]; intros F; cbn [meaning].
  - done.
  - transitivity (m_int z ⊗ meaning e' (λ k', F [] k')); [ring|].
    rewrite <- meaning_scale. apply meaning_ext. intros k. ring.
  - by rewrite meaning_plus, IHa, IHb.
  - by rewrite meaning_plus, meaning_opp, IHa, IHb.
  - rewrite <- IHa. apply meaning_ext. intros k. apply IHb.
Qed.

(** The laws are sound for every valuation that sees a monomial as a bag. *)
Lemma ring_eq_sound e e' : ring_eq d e e' → ∀ ψ, (∀ k k', k ≡ₚ k' → ψ k ≈ ψ k') → meaning e ψ ≈ meaning e' ψ.
Proof.
  induction 1; intros ψ Hψ; cbn [meaning].
  - done.
  - symmetry. auto.
  - etransitivity; eauto.
  - f_equiv; auto.
  - transitivity (meaning a (λ k, meaning b' (λ k', ψ (k ++ k')))).
    + apply meaning_ext. intros k. apply IHring_eq2. intros k1 k2 Hk. apply Hψ. by rewrite Hk.
    + apply IHring_eq1. intros k1 k2 Hk. apply meaning_ext. intros k'. apply Hψ. by rewrite Hk.
  - by rewrite H.
  - rewrite m_int_add. ring.
  - rewrite m_int_mul. cbn [app]. ring.
  - rewrite m_int_0. ring.
  - ring.
  - ring.
  - rewrite m_int_1. transitivity (meaning a (λ k, ψ ([] ++ k))); [ring|done].
  - rewrite meaning_swap. apply meaning_ext. intros k. apply meaning_ext. intros k'. apply Hψ, Permutation_app_comm.
  - apply meaning_ext. intros k. apply meaning_ext. intros k'. apply meaning_ext. intros k''. by rewrite app_assoc.
  - done.
  - rewrite (m_int_opp 1), m_int_1. transitivity (meaning a ψ ⊕ m_opp (meaning b (λ k, ψ ([] ++ k)))); [done|]. ring.
  - rewrite m_int_0. ring.
Qed.

(** A multiplicative valuation: the value of the expression. *)
Fixpoint value (ρ : N → A) e : A :=
  match e with
  | RAtom a => ρ a
  | RConst z => m_int z
  | RAdd a b => value ρ a ⊕ value ρ b
  | RSub a b => value ρ a ⊕ m_opp (value ρ b)
  | RMul a b => value ρ a ⊗ value ρ b
  end.

Definition monomial_value (ρ : N → A) (k : key) : A := foldr (λ a acc, ρ a ⊗ acc) m_one k.

Lemma monomial_value_app ρ k k' : monomial_value ρ (k ++ k') ≈ monomial_value ρ k ⊗ monomial_value ρ k'.
Proof. induction k as [|a k IH]; simpl; [|rewrite IH]; ring. Qed.

Lemma monomial_value_bag ρ k k' : k ≡ₚ k' → monomial_value ρ k ≈ monomial_value ρ k'.
Proof.
  induction 1 as [|a k k' _ IH|a b k|k k' k'' _ IH _ IH']; simpl; [done|by rewrite IH|ring|by etransitivity].
Qed.

Lemma meaning_value ρ e : meaning e (monomial_value ρ) ≈ value ρ e.
Proof.
  induction e as [a|z|a IHa b IHb|a IHa b IHb|a IHa b IHb]; cbn [meaning value]; rewrite <- ?IHa, <- ?IHb.
  - simpl. ring.
  - simpl. ring.
  - done.
  - done.
  - transitivity (meaning a (λ k, meaning b (monomial_value ρ) ⊗ monomial_value ρ k)); [|rewrite meaning_scale; ring].
    apply meaning_ext. intros k. rewrite (meaning_ext b _ (λ k', monomial_value ρ k ⊗ monomial_value ρ k')).
    + rewrite meaning_scale. ring.
    + intros k'. apply monomial_value_app.
Qed.
End meaning.

Lemma value_atoms {N} d (e : RingExpr N) : ring_eq d (value d RAtom e) e.
Proof.
  induction e as [a|z|a IHa b IHb|a IHa b IHb|a IHa b IHb]; cbn; [done..|by f_equiv| |by f_equiv].
  by rewrite req_sub, IHa, IHb.
Qed.

(** ** The node of a polynomial *)

Section nodes.
#[local] Set Default Proof Using "All".
Context {M T B R : Type} `{!BigInt B, !BigRational B R, !RationalFloats R, Hhalf : !Half, !IntegerFloats B}.
Context `{!EqDecision M, !EqDecision T, !EqDecision (CtValue T B R), Bl : !BigIntLaws B}.
Notation CtValue := (CtValue T B R).
Notation ParamExpr := (ParamExpr M CtValue T).
Context `{!TypeLanguage T CtValue, !MetaTypes M CtValue, !Rendering M ParamExpr, !Attributes M CtValue ParamExpr}.
Notation Terms := (@Terms M T B R).
Notation key := (list ParamExpr).
Context (d : IntDomain) `{Hmeta : !DomainMetas (T:=T) (R:=R) (B:=B) (M:=M) d}.
Context (P : ParamExpr → Prop) `{Hord : !Ordered cmp P} (HP : ∀ a, P a → domain_of (meta a) = Some d).
Implicit Types (p q : Terms) (e n : ParamExpr).

Notation in_domain := (Forall (λ e, domain_of (meta e) = Some d)).

Lemma keys_in_domain (k : key) : Forall P k → in_domain k.
Proof. intros H. eapply Forall_impl; [exact H|apply HP]. Qed.

Lemma integer_literal_value v :
  as_constant (integer_literal d v : ParamExpr) ≫= integer_value = Some (reduce d v).
Proof using Bl. destruct (integer_value_constant (T:=T) (R:=R) d v) as (w & Hw & ->). exact Hw. Qed.

Lemma ring_kind_node o (l : key) :
  o = Param.Add ∨ o = Param.Mul → in_domain l →
  ring_kind (Node (node_meta d o l) (Kind.Op o) l) = Some (if decide (o = Param.Add) then true else false).
Proof using Hmeta.
  intros Ho Hin. unfold ring_kind. cbn [kind meta]. rewrite ring_meta by done. by destruct Ho as [-> | ->].
Qed.

Section reading.
Context {A : Type} `{Hm : !Model d A, Hl : !ModelLaws d A}.
Local Infix "≈" := m_eq (at level 70).
Local Infix "⊕" := m_add (at level 50, left associativity).
Local Infix "⊗" := m_mul (at level 40, left associativity).
Add Ring nodes_ring : m_ring (setoid m_equivalence (mk_reqe m_add_proper m_mul_proper m_opp_proper)).
Implicit Types ψ : key → A.

Lemma integer_literal_reading v ψ : reading d (integer_literal d v) ψ ≈ ψ [] ⊗ m_int (ival v).
Proof. rewrite (reading_constant _ _ (reduce d v)) by apply integer_literal_value. by rewrite reduce_eqm. Qed.

Lemma factors_reading_atoms (k : key) ψ : Forall atomic k → factors_reading d k ψ = ψ k.
Proof.
  revert ψ. induction k as [|e k IH]; intros ψ Hk; [done|]. inversion_clear Hk.
  rewrite factors_reading_cons, atomic_reading by done. by rewrite IH.
Qed.

Lemma sum_reading_app l l' ψ : sum_reading d (l ++ l') ψ ≈ sum_reading d l ψ ⊕ sum_reading d l' ψ.
Proof. unfold sum_reading. induction l as [|e l IH]; simpl; [|rewrite IH]; ring. Qed.

Lemma term_node_reading k c ψ :
  entry d (k, c) → Forall P k → k ≠ [] → reading d (term_node d (k, c)) ψ ≈ ψ k ⊗ m_int (ival c).
Proof.
  intros (_ & Ha & _) HPk Hk. cbn [fst] in Ha. unfold term_node.
  destruct (int_eqb c (int_from 1)) eqn:Hc; cbn [app].
  - apply int_eqb_spec in Hc as ->. rewrite ival_from, m_int_1. destruct k as [|a [|a' k]]; [done|cbv iota..].
    + rewrite Forall_singleton in Ha. rewrite atomic_reading by done. ring.
    + rewrite reading_product by (rewrite ring_kind_node; auto using keys_in_domain).
      cbn [operands]. rewrite factors_reading_atoms by done. ring.
  - destruct k as [|a k]; [done|].
    cbv iota. rewrite reading_product.
    + cbn [operands]. rewrite factors_reading_cons, (reading_constant _ _ (reduce d c)) by apply integer_literal_value.
      rewrite factors_reading_atoms, reduce_eqm by done. done.
    + rewrite ring_kind_node; [done|by right|]. constructor; [apply constant_meta|by apply keys_in_domain].
Qed.
End reading.

Lemma term_node_domain k c :
  Forall P k → k ≠ [] → domain_of (meta (term_node d (k, c))) = Some d.
Proof.
  intros HPk Hk. unfold term_node. destruct (int_eqb c _); cbn [app].
  - destruct k as [|a [|a' k]]; [done|rewrite Forall_singleton in HPk; by apply HP|].
    apply ring_meta; [by right|by apply keys_in_domain].
  - destruct k as [|a k]; [done|]. apply ring_meta; [by right|].
    constructor; [apply constant_meta|by apply keys_in_domain].
Qed.

Lemma atoms_atomic (k : key) : Forall atomic k → flat_map atoms k = k.
Proof using Type. induction 1 as [|a k Ha _ IH]; [done|]. simpl. by rewrite atomic_atoms, IH. Qed.

Lemma integer_literal_atoms v : atoms (integer_literal d v : ParamExpr) = [].
Proof using Bl. pose proof (integer_literal_value v) as H. unfold integer_literal in *. cbn [atoms]. by rewrite H. Qed.

Lemma term_node_atoms k c :
  Forall P k → Forall atomic k → k ≠ [] → atoms (term_node d (k, c)) = k.
Proof.
  intros HPk Ha Hk. unfold term_node. destruct (int_eqb c _); cbn [app].
  - destruct k as [|a [|a' k]]; [done|rewrite Forall_singleton in Ha; by apply atomic_atoms|cbv iota].
    rewrite (atoms_ring _ false) by (rewrite ring_kind_node; auto using keys_in_domain). by apply atoms_atomic.
  - destruct k as [|a k]; [done|cbv iota]. rewrite (atoms_ring _ false).
    + cbn [operands]. change (atoms (integer_literal d c : ParamExpr) ++ flat_map atoms (a :: k) = a :: k).
      rewrite integer_literal_atoms. by apply atoms_atomic.
    + rewrite ring_kind_node; [done|by right|]. constructor; [apply constant_meta|by apply keys_in_domain].
Qed.

(** *** Terms and constant *)

Definition join_terms (terms : list ParamExpr) : ParamExpr :=
  match terms with
  | [] => integer d 0
  | [term] => term
  | _ => Node (node_meta d Param.Add terms) (Kind.Op Param.Add) terms
  end.

Definition nonempty (t : key * IntLiteral B) : Prop := t.1 ≠ [].

Lemma sorted_nonempty k c p :
  map_sorted (list_cmp cmp) ((k, c) :: p) → Forall nonempty p.
Proof.
  intros Hs. inversion Hs as [|? ? _ Hall]; subst. eapply Forall_impl; [exact Hall|].
  intros [k' c'] Hlt Hk'. cbn [fst] in *. subst. by destruct k.
Qed.

Lemma nonempty_terms p : Forall nonempty p →
  flat_map (λ t, if bool_decide (t.1 = []) then [] else [term_node d t]) p = term_node d <$> p ∧
  flat_map (λ t, if bool_decide (t.1 = []) then [integer_literal d t.2 : ParamExpr] else []) p = [].
Proof.
  induction 1 as [|[k c] p Hk _ [IH1 IH2]]; [done|]. unfold nonempty in Hk. cbn [flat_map fst] in *.
  rewrite bool_decide_eq_false_2 by done. rewrite IH1, IH2. done.
Qed.

(** The constant term comes first in the map and last in the node. *)
Lemma polynomial_node_join p :
  canonical d P p →
  (∃ c rest, p = ([], c) :: rest ∧ Forall nonempty rest ∧
     polynomial_node d p = join_terms ((term_node d <$> rest) ++ [integer_literal d c])) ∨
  (Forall nonempty p ∧ polynomial_node d p = join_terms (term_node d <$> p)).
Proof.
  intros (_ & Hs & _). destruct p as [|[k c] p]; [right; by split|].
  pose proof (sorted_nonempty _ _ _ Hs) as Hne. destruct k as [|a k].
  - left. exists c, p. split_and!; [done..|]. unfold polynomial_node. cbn [flat_map fst snd].
    destruct (nonempty_terms p Hne) as [-> ->]. done.
  - right. assert (Hne' : Forall nonempty ((a :: k, c) :: p)) by (by constructor). split; [done|].
    unfold polynomial_node. destruct (nonempty_terms _ Hne') as [-> ->]. cbn [last]. by rewrite app_nil_r.
Qed.

Lemma terms_in_domain p : canonical d P p → Forall nonempty p → in_domain (term_node d <$> p).
Proof.
  intros (Hk & _) Hne. apply Forall_fmap. induction Hk as [|[k c] p Hk _ IH]; [done|].
  inversion_clear Hne. constructor; [by apply term_node_domain|auto].
Qed.

Lemma join_domain l : in_domain l → domain_of (meta (join_terms l)) = Some d.
Proof.
  intros Hl. destruct l as [|e [|e' l]]; [apply constant_meta|by inversion Hl|apply ring_meta; auto].
Qed.

Lemma canonical_tail t p : canonical d P (t :: p) → canonical d P p.
Proof.
  intros (Hk & Hs & He). inversion_clear Hk; inversion_clear He. split_and!; [done| |done].
  by inversion Hs.
Qed.

Lemma polynomial_node_domain p : canonical d P p → domain_of (meta (polynomial_node d p)) = Some d.
Proof.
  intros Hc. destruct (polynomial_node_join p Hc) as [(c & rest & -> & Hne & ->)|[Hne ->]]; apply join_domain.
  - apply Forall_app. split; [by apply terms_in_domain; [eapply canonical_tail|]|].
    apply Forall_singleton, constant_meta.
  - by apply terms_in_domain.
Qed.

Lemma terms_atoms p :
  canonical d P p → Forall nonempty p → Forall P (flat_map atoms (term_node d <$> p)).
Proof.
  induction p as [|[k c] p IH]; intros Hc Hne; [constructor|].
  pose proof (canonical_tail _ _ Hc) as Hc'. destruct Hc as (Hk & _ & He).
  inversion_clear Hk; inversion_clear He as [|? ? (_ & Ha & _)]; inversion_clear Hne.
  cbn [fmap list_fmap flat_map]. apply Forall_app. split; [|by apply IH].
  by rewrite term_node_atoms.
Qed.

Lemma join_atoms l : in_domain l → Forall P (flat_map atoms l) → Forall P (atoms (join_terms l)).
Proof.
  intros Hl Ha. destruct l as [|e [|e' l]].
  - unfold join_terms, integer. by rewrite integer_literal_atoms.
  - cbn [flat_map] in Ha. by rewrite app_nil_r in Ha.
  - rewrite (atoms_ring _ true); [done|]. apply ring_kind_node; auto.
Qed.

Lemma polynomial_node_atoms p : canonical d P p → Forall P (atoms (polynomial_node d p)).
Proof.
  intros Hc. destruct (polynomial_node_join p Hc) as [(c & rest & -> & Hne & ->)|[Hne ->]]; apply join_atoms.
  - apply Forall_app. split; [by apply terms_in_domain; [eapply canonical_tail|]|].
    apply Forall_singleton, constant_meta.
  - rewrite flat_map_app. apply Forall_app. split; [by apply terms_atoms; [eapply canonical_tail|]|].
    cbn [flat_map]. by rewrite integer_literal_atoms.
  - by apply terms_in_domain.
  - by apply terms_atoms.
Qed.

Section reading_node.
Context {A : Type} `{Hm : !Model d A, Hl : !ModelLaws d A}.
Local Infix "≈" := m_eq (at level 70).
Local Infix "⊕" := m_add (at level 50, left associativity).
Local Infix "⊗" := m_mul (at level 40, left associativity).
Add Ring reading_ring : m_ring (setoid m_equivalence (mk_reqe m_add_proper m_mul_proper m_opp_proper)).
Implicit Types ψ : key → A.

Lemma terms_reading p ψ :
  canonical d P p → Forall nonempty p → sum_reading d (term_node d <$> p) ψ ≈ psum d ψ p.
Proof.
  induction p as [|[k c] p IH]; intros Hc Hne; [done|].
  pose proof (canonical_tail _ _ Hc) as Hc'. destruct Hc as (Hk & _ & He).
  inversion_clear Hk; inversion_clear He; inversion_clear Hne.
  rewrite psum_cons, <- IH by done. cbn [fmap list_fmap]. unfold sum_reading. cbn [foldr].
  by rewrite term_node_reading.
Qed.

Lemma join_reading l ψ : in_domain l → reading d (join_terms l) ψ ≈ sum_reading d l ψ.
Proof.
  intros Hin. destruct l as [|e [|e' l]].
  - unfold join_terms, integer. rewrite integer_literal_reading, ival_from, m_int_0. unfold sum_reading. simpl. ring.
  - unfold sum_reading. simpl. ring.
  - rewrite reading_sum; [done|]. apply ring_kind_node; auto.
Qed.

(** The node of a polynomial reads as the polynomial. *)
Lemma polynomial_node_reading p ψ : canonical d P p → reading d (polynomial_node d p) ψ ≈ psum d ψ p.
Proof.
  intros Hc. destruct (polynomial_node_join p Hc) as [(c & rest & -> & Hne & ->)|[Hne ->]].
  - pose proof (canonical_tail _ _ Hc) as Hc'.
    rewrite join_reading by (apply Forall_app; split; [by apply terms_in_domain|apply Forall_singleton, constant_meta]).
    rewrite sum_reading_app, terms_reading by done. rewrite psum_cons. unfold sum_reading. cbn [foldr]. rewrite integer_literal_reading. ring.
  - rewrite join_reading by (by apply terms_in_domain). by apply terms_reading.
Qed.
End reading_node.
End nodes.
