(* ===== verification/ParamIdentity.v ===== *)
(** * ParamIdentity: node identity is provable equality

    Over integer atoms that the order distinguishes and that evaluate totally,
    the nodes built from two ring expressions are equal exactly when the laws of
    commutative rings prove the expressions equal ([ring_nodes_identical]).
    Building a node changes no value ([ring_node_value]) and fails only on the
    budget ([ring_node_built]). *)

From Stdlib Require Import Ring Setoid.
From stdpp Require Import sorting.
From S2P Require Import Prelude Text Literal Ieee NarrowFloat Dtypes FloatOps Lanes Fold ParamNode OrderedMap ParamBuild ParamRing ParamCanon.
Local Open Scope Z_scope.

Section identity.
#[local] Set Default Proof Using "All".
Context {M T B R : Type} `{!BigInt B, !BigRational B R, !RationalFloats R, Hhalf : !Half, !IntegerFloats B}.
Context `{!EqDecision M, !EqDecision T, !EqDecision (CtValue T B R), Bl : !BigIntLaws B}.
Notation CtValue := (CtValue T B R).
Notation ParamExpr := (ParamExpr M CtValue T).
Context `{!TypeLanguage T CtValue, !MetaTypes M CtValue, !Rendering M ParamExpr, !Attributes M CtValue ParamExpr}.
Notation Terms := (@Terms M T B R).
Notation key := (list ParamExpr).
Notation result := (outcome (ParamError CtValue)).
Implicit Types (p q : Terms) (e : RingExpr ParamExpr) (n x y : ParamExpr).

(** The expression as the front end builds it. *)
Fixpoint build (d : IntDomain) e : result ParamExpr :=
  match e with
  | RAtom a => Ok a
  | RConst z => Ok (integer d z)
  | RAdd a b => x ← build d a; y ← build d b; infix Dtypes.Add x y
  | RSub a b => x ← build d a; y ← build d b; infix Dtypes.Sub x y
  | RMul a b => x ← build d a; y ← build d b; infix Dtypes.Mul x y
  end.

Fixpoint atoms_of e : list ParamExpr :=
  match e with
  | RAtom a => [a]
  | RConst _ => []
  | RAdd a b | RSub a b | RMul a b => atoms_of a ++ atoms_of b
  end.

Context (d : IntDomain) `{Hmeta : !DomainMetas (T:=T) (R:=R) (B:=B) (M:=M) d}.
Context (P : ParamExpr → Prop) `{Hord : !Ordered cmp P}.
Context (HP : ∀ a, P a → domain_of (meta a) = Some d) (HA : ∀ a, P a → atomic a) (HT : ∀ a, P a → is_total a = true).

(** ** A canonical polynomial is its readings *)

Definition monomial_indicator (k : key) (k' : key) : Z := if decide (k' ≡ₚ k) then 1 else 0.

Lemma indicator_bag k : bag d (monomial_indicator k).
Proof.
  intros k1 k2 Hk. unfold monomial_indicator. cbn.
  destruct (decide (k1 ≡ₚ k)) as [H1|H1], (decide (k2 ≡ₚ k)) as [H2|H2]; try done; exfalso.
  - apply H2. by rewrite <- Hk.
  - apply H1. by rewrite Hk.
Qed.

Lemma sum_absent p k :
  (∀ t, t ∈ p → ¬ t.1 ≡ₚ k) → psum d (monomial_indicator k) p = 0.
Proof.
  induction p as [|[k' c'] p IH]; intros Hp; [done|]. rewrite psum_cons, IH by (intros t Ht; apply Hp; by right).
  unfold monomial_indicator at 1. rewrite decide_False by (apply (Hp (k', c')); by left). cbn. lia.
Qed.

Lemma sorted_same k k' :
  Forall P k → Forall P k' → StronglySorted (below cmp) k → StronglySorted (below cmp) k' → k' ≡ₚ k →
  list_cmp cmp k k' = Eq.
Proof.
  intros Hk Hk' Hs Hs' Hperm. rewrite (sorted_unique P k' k) by done. by apply (ord_refl (list_cmp cmp) (Forall P)).
Qed.

(** No monomial above [k] is it. *)
Lemma sum_above p k :
  canonical d P p → Forall P k → StronglySorted (below cmp) k →
  Forall (λ t, list_cmp cmp k t.1 = Lt) p → psum d (monomial_indicator k) p = 0.
Proof.
  intros (Hkey & _ & He) Hk Hsk Hlt. apply sum_absent. intros t Ht Hperm.
  rewrite Forall_forall in Hkey, He, Hlt. destruct (He t Ht) as (Hsk' & _).
  specialize (Hlt t Ht). cbn in Hlt. by rewrite sorted_same in Hlt by auto.
Qed.

Lemma sum_indicator p k :
  canonical d P p → Forall P k → StronglySorted (below cmp) k →
  psum d (monomial_indicator k) p = from_option ival 0 (map_get (list_cmp cmp) k p).
Proof.
  intros Hc Hk Hsk. induction p as [|[k' c'] p IH]; [done|].
  pose proof (canonical_tail d P HP _ _ Hc) as Hc'. specialize (IH Hc'). destruct Hc as (Hkey & Hs & He).
  inversion_clear Hkey as [|? ? Hk' Hkey']; inversion_clear He as [|? ? (Hsk' & _)]; inversion Hs as [|? ? Hs' Hall]; subst.
  cbn [fst snd] in *. rewrite psum_cons. cbn [map_get]. unfold monomial_indicator at 1.
  destruct (decide (k' ≡ₚ k)) as [Hperm|Hperm].
  - rewrite sorted_same by done. apply (sorted_unique P) in Hperm as ->; [|done..].
    rewrite sum_above by done. cbn. lia.
  - destruct (list_cmp cmp k k') eqn:E.
    + apply (list_cmp_eq cmp P) in E; [by subst|done..].
    + rewrite sum_above; [cbn; lia|done..|]. eapply Forall_impl; [apply Forall_and, (conj Hall Hkey')|].
      intros t [Ht Hpt]. by apply (ord_trans (P:=Forall P) k k').
    + cbn. by rewrite <- IH.
Qed.

Lemma coefficient_unique p q k c :
  canonical d P p → canonical d P q → (∀ ψ : key → Z, bag d ψ → eqm d (psum d ψ p) (psum d ψ q)) →
  Forall P k → map_get (list_cmp cmp) k p = Some c → map_get (list_cmp cmp) k q = Some c.
Proof.
  intros Hp Hq Hψ Hk Hc. pose proof Hp as (Hkey & Hs & He). pose proof Hq as (Hkey' & Hs' & He').
  pose proof Hc as Hin. apply (map_get_elem _ (Forall P)) in Hin; [|done..].
  rewrite Forall_forall in He. destruct (He _ Hin) as (Hsk & _ & Hred & Hnz). cbn [fst snd] in *.
  assert (Ht : forallb is_total k = true).
  { apply forallb_forall. intros a Ha%list_elem_of_In. apply HT. by eapply Forall_forall in Ha; [|exact Hk]. }
  specialize (Hψ _ (indicator_bag k)). rewrite !sum_indicator, Hc in Hψ by done. cbn [from_option] in Hψ.
  destruct (map_get (list_cmp cmp) k q) as [c'|] eqn:Hc'; cbn [from_option] in Hψ.
  - apply (map_get_elem _ (Forall P)) in Hc'; [|done..]. rewrite Forall_forall in He'.
    destruct (He' _ Hc') as (_ & _ & Hred' & _). cbn [snd] in *. rewrite <- Hred, <- Hred'. f_equal. symmetry. by apply reduce_congr.
  - exfalso. apply (Hnz Ht). rewrite <- Hred. rewrite (reduce_congr d c (int_from 0)) by (by rewrite ival_from).
    rewrite ival_reduce, ival_from. by destruct d.
Qed.

Lemma canonical_unique p q :
  canonical d P p → canonical d P q → (∀ ψ : key → Z, bag d ψ → eqm d (psum d ψ p) (psum d ψ q)) → p = q.
Proof.
  intros Hp Hq Hψ. apply (map_ext (list_cmp cmp) (Forall P)); [apply Hp|apply Hq|apply Hp|apply Hq|].
  intros k Hk. destruct (map_get _ k p) as [c|] eqn:E; [symmetry; by apply (coefficient_unique p)|].
  destruct (map_get _ k q) as [c|] eqn:E'; [|done].
  erewrite (coefficient_unique q p) in E; [done|done|done| |done|done]. intros ψ Hb. symmetry. by apply Hψ.
Qed.
(** ** The nodes built *)

(** [n] is the node of a canonical polynomial over the atoms. *)
Definition of_polynomial n : Prop := ∃ p, canonical d P p ∧ n = polynomial_node d p.

Lemma of_polynomial_domain n : of_polynomial n → domain_of (meta n) = Some d.
Proof. intros (p & Hp & ->). by apply (polynomial_node_domain d P HP). Qed.

Lemma of_polynomial_atoms n : of_polynomial n → Forall P (atoms n).
Proof. intros (p & Hp & ->). by apply (polynomial_node_atoms d P HP). Qed.

Lemma reduce_1 : reduce d (int_from 1) = (int_from 1 : IntLiteral B).
Proof. apply ival_inj. rewrite ival_reduce, !ival_from. by destruct d. Qed.

Lemma atom_terms a : P a → canonical d P (poly_insert d [] [a] (int_from 1)).
Proof.
  intros Ha. apply (poly_insert_spec (A:=Z) d P); [by apply Forall_singleton|apply Forall_singleton; auto| |apply canonical_nil].
  by repeat constructor.
Qed.

Lemma atom_node a : polynomial_node d (poly_insert d [] [a] (int_from 1)) = a.
Proof.
  unfold poly_insert. cbn [map_get map_insert]. rewrite reduce_1.
  assert (Hz : int_is_zero (int_from 1 : IntLiteral B) = false).
  { apply not_true_is_false. rewrite int_is_zero_spec, ival_from. done. }
  rewrite Hz. cbn [andb]. unfold polynomial_node. cbn [flat_map fst snd app last term_node].
  rewrite bool_decide_eq_false_2 by done. cbn [app term_node].
  by rewrite (proj2 (int_eqb_spec _ _) eq_refl).
Qed.

Lemma atom_polynomial a : P a → of_polynomial a.
Proof. intros Ha. exists (poly_insert d [] [a] (int_from 1)). split; [by apply atom_terms|by rewrite atom_node]. Qed.

Lemma integer_congr (z z' : Z) : eqm d z z' → (integer d z : ParamExpr) = integer d z'.
Proof.
  intros H. unfold integer, integer_literal. rewrite (domain_constant_congr d (int_from z) (int_from z')); [done|].
  by rewrite !ival_from.
Qed.

Lemma constant_node z : polynomial_node d (poly_constant d (int_from z)) = integer d z.
Proof.
  unfold poly_constant, poly_insert. cbn [map_get map_insert map_remove forallb]. rewrite andb_true_r.
  destruct (int_is_zero _) eqn:Hz.
  - apply int_is_zero_spec in Hz. cbn. symmetry. apply integer_congr.
    rewrite <- (ival_from (B:=B) z), <- reduce_eqm. by rewrite Hz.
  - unfold polynomial_node. cbn. unfold integer, integer_literal.
    by rewrite (domain_constant_congr d (reduce d (int_from z)) (int_from z)) by apply reduce_eqm.
Qed.

Lemma constant_polynomial z : of_polynomial (integer d z).
Proof.
  exists (poly_constant d (int_from z)). split; [apply (poly_constant_spec (A:=Z) d P)|by rewrite constant_node].
Qed.

Lemma integer_reading {A} `{Hm : !Model d A, Hl : !ModelLaws d A} z (ψ : key → A) :
  m_eq (reading d (integer d z) ψ) (m_mul (ψ []) (m_int z)).
Proof. unfold integer. by rewrite integer_literal_reading, ival_from. Qed.

(** *** The ring constructors *)

Lemma arithmetic_domain_same o x y :
  domain_of (meta x) = Some d → domain_of (meta y) = Some d → arithmetic_domain o [x; y] = Ok (Some d).
Proof.
  intros Hx Hy. unfold arithmetic_domain. cbn [mapM]. rewrite Hx, Hy. cbn. by destruct d.
Qed.

Lemma op_ring o x y :
  o = Param.Add ∨ o = Param.Mul → domain_of (meta x) = Some d → domain_of (meta y) = Some d →
  op o [x; y] =
    (p ← (if decide (o = Param.Add) then sum_of (of_with d Drop) d [x; y] else product d [x; y] Drop);
     Ok (polynomial_node d p)).
Proof.
  intros Ho Hx Hy. unfold op.
  assert (is_pop_literal_operation o [x; y] = false) as ->.
  { unfold is_pop_literal_operation. rewrite (not_pop (d:=d) _ Hx). by rewrite andb_comm. }
  assert (build_ring o [x; y] = (p ← (if decide (o = Param.Add) then sum_of (of_with d Drop) d [x; y]
    else product d [x; y] Drop); Ok (polynomial_node d p))) as Hb.
  { unfold build_ring, build_ring_with. by rewrite arithmetic_domain_same. }
  destruct Ho as [-> | ->]; exact Hb.
Qed.

Lemma pair_decomposes {A} `{Hm : !Model d A, Hl : !ModelLaws d A} x y :
  of_polynomial x → of_polynomial y → Forall (decomposes (A:=A) d P (of_with d Drop)) [x; y].
Proof.
  intros Hx Hy. apply Forall_cons. split; [|apply Forall_singleton]; by apply (of_with_spec (A:=A) d P), of_polynomial_atoms.
Qed.

Lemma op_add_spec x y n :
  of_polynomial x → of_polynomial y → op Param.Add [x; y] = Ok n →
  of_polynomial n ∧ ∀ A (Hm : Model d A) (Hl : ModelLaws d A) (ψ : key → A), bag d ψ →
    m_eq (reading d n ψ) (m_add (reading d x ψ) (reading d y ψ)).
Proof.
  intros Hx Hy. rewrite op_ring by auto using of_polynomial_domain. cbn [decide].
  intros (p & Hp & [= <-])%bind_ok_inv. change (sum_of (of_with d Drop) d [x; y] = Ok p) in Hp.
  destruct (sum_of_spec (A:=Z) d P _ _ _ (pair_decomposes x y Hx Hy) Hp) as [Hc _]. split; [by exists p|].
  intros A Hm Hl ψ Hψ. destruct (sum_of_spec (A:=A) d P _ _ _ (pair_decomposes x y Hx Hy) Hp) as [_ Hr].
  rewrite (polynomial_node_reading d P HP) by done. rewrite (Hr ψ Hψ). unfold sum_reading. cbn [foldr].
  assert (H0 : m_eq (m_add (reading d y ψ) m_zero) (reading d y ψ)).
  { rewrite (Radd_comm m_ring). apply (Radd_0_l m_ring). }
  by rewrite H0.
Qed.

Lemma op_mul_spec x y n :
  of_polynomial x → of_polynomial y → op Param.Mul [x; y] = Ok n →
  of_polynomial n ∧ ∀ A (Hm : Model d A) (Hl : ModelLaws d A) (ψ : key → A), bag d ψ →
    m_eq (reading d n ψ) (reading d x (λ k, reading d y (λ k', ψ (k ++ k')))).
Proof.
  intros Hx Hy. rewrite op_ring by auto using of_polynomial_domain. cbn [decide].
  intros (p & Hp & [= <-])%bind_ok_inv. change (product_of (of_with d Drop) d Drop [x; y] = Ok p) in Hp.
  destruct (product_of_spec (A:=Z) d P _ _ _ _ (pair_decomposes x y Hx Hy) Hp) as [Hc _]. split; [by exists p|].
  intros A Hm Hl ψ Hψ. destruct (product_of_spec (A:=A) d P _ _ _ _ (pair_decomposes x y Hx Hy) Hp) as [_ Hr].
  rewrite (polynomial_node_reading d P HP) by done. rewrite (Hr ψ Hψ), factors_reading_cons.
  apply (reading_ext (A:=A) d). intros k. rewrite factors_reading_cons. apply (reading_ext (A:=A) d). intros k'.
  unfold factors_reading. by rewrite app_nil_r.
Qed.

Lemma infix_sub_ok x y n :
  of_polynomial x → of_polynomial y → infix Dtypes.Sub x y = Ok n →
  ∃ negated, op Param.Mul [integer d (-1); y] = Ok negated ∧ op Param.Add [x; negated] = Ok n.
Proof.
  intros Hx Hy. unfold infix. rewrite arithmetic_domain_same by auto using of_polynomial_domain.
  cbn [mbind outcome_bind]. intros (neg & Hneg & Hn)%bind_ok_inv. by exists neg.
Qed.

(** The node built has the meaning of the expression in every model. *)
Lemma build_spec e n :
  Forall P (atoms_of e) → build d e = Ok n →
  of_polynomial n ∧ ∀ A (Hm : Model d A) (Hl : ModelLaws d A) (ψ : key → A), bag d ψ →
    m_eq (reading d n ψ) (meaning d e ψ).
Proof.
  revert n. induction e as [a|z|a IHa b IHb|a IHa b IHb|a IHa b IHb]; intros n Hat; cbn [build atoms_of meaning] in *.
  - intros [= <-]. inversion_clear Hat. split; [by apply atom_polynomial|]. intros. by rewrite atomic_reading by auto.
  - intros [= <-]. split; [apply constant_polynomial|]. intros. apply integer_reading.
  - apply Forall_app in Hat as [Ha Hb]. intros (x & Hx & (y & Hy & Hn)%bind_ok_inv)%bind_ok_inv.
    destruct (IHa x Ha Hx) as [Hpx Hmx], (IHb y Hb Hy) as [Hpy Hmy].
    destruct (op_add_spec x y n Hpx Hpy Hn) as [Hpn Hmn]. split; [done|].
    intros A Hm Hl ψ Hψ. by rewrite Hmn, Hmx, Hmy.
  - apply Forall_app in Hat as [Ha Hb]. intros (x & Hx & (y & Hy & Hn)%bind_ok_inv)%bind_ok_inv.
    destruct (IHa x Ha Hx) as [Hpx Hmx], (IHb y Hb Hy) as [Hpy Hmy].
    destruct (infix_sub_ok x y n Hpx Hpy Hn) as (neg & Hneg & Hadd).
    destruct (op_mul_spec _ y neg (constant_polynomial (-1)) Hpy Hneg) as [Hpneg Hmneg].
    destruct (op_add_spec x neg n Hpx Hpneg Hadd) as [Hpn Hmn]. split; [done|].
    intros A Hm Hl ψ Hψ. rewrite Hmn, Hmx, Hmneg, integer_reading by done. f_equiv.
    rewrite (m_int_opp 1), m_int_1. rewrite <- (Hmy A Hm Hl ψ Hψ). apply negate_times.
  - apply Forall_app in Hat as [Ha Hb]. intros (x & Hx & (y & Hy & Hn)%bind_ok_inv)%bind_ok_inv.
    destruct (IHa x Ha Hx) as [Hpx Hmx], (IHb y Hb Hy) as [Hpy Hmy].
    destruct (op_mul_spec x y n Hpx Hpy Hn) as [Hpn Hmn]. split; [done|].
    intros A Hm Hl ψ Hψ. rewrite Hmn by done. etransitivity.
    + apply (reading_ext (A:=A) d). intros k. apply (Hmy A Hm Hl). by apply (bag_app d).
    + apply (Hmx A Hm Hl). intros k k' Hk. apply (meaning_ext (A:=A) d). intros k''. apply Hψ. by rewrite Hk.
Qed.
(** ** Equality of the nodes *)

(** Atoms and integer constants, and the sums and products of known nodes. *)
Inductive known : ParamExpr → Prop :=
| known_atom a : P a → known a
| known_constant v : known (integer_literal d v)
| known_ring m o l s : ring_kind (Node m (Kind.Op o) l) = Some s → Forall known l → known (Node m (Kind.Op o) l).

Lemma same_head (m m' : M) (k k' : Kind.t CtValue T) (l l' : list ParamExpr) :
  node_eq (Node m k l) (Node m' k' l') = true → m = m' ∧ Kind.same k k' = true.
Proof. cbn [node_eq]. rewrite !andb_true_iff, bool_decide_eq_true. naive_solver. Qed.

Lemma same_constant (m : M) (v : CtValue) (l : list ParamExpr) n : node_eq (Node m (Kind.Constant v) l) n = true →
  ∃ l', n = Node m (Kind.Constant v) l' ∧ lists_eq node_eq l l' = true.
Proof.
  destruct n as [m' k' l']. intros H. pose proof (same_head _ _ _ _ _ _ H) as [<- Hk].
  destruct k'; try done. cbn [Kind.same] in Hk. apply bool_decide_eq_true in Hk as <-.
  cbn [node_eq] in H. apply andb_true_iff in H as [_ H]. by exists l'.
Qed.

Lemma lists_eq_nil (l : list ParamExpr) : lists_eq node_eq l [] = true ∨ lists_eq node_eq [] l = true → l = [].
Proof. destruct l; cbn; naive_solver. Qed.

Lemma node_eq_constant v n : node_eq (integer_literal d v) n = true → n = integer_literal d v.
Proof. intros (l' & -> & Hl)%same_constant. by rewrite (lists_eq_nil l') by auto. Qed.

(** On known nodes the code's equality is identity. *)
Lemma known_eq x y : known x → known y → node_eq x y = true → x = y.
Proof.
  revert y. induction x as [m k l IH] using ParamExpr_nested_ind. intros y Hx Hy Heq.
  inversion Hx as [a Ha|v Hv|m1 o l1 s Hs Hl]; subst.
  - inversion Hy as [b Hb|w Hw|m2 o l2 s Hs Hl]; subst.
    + apply (ord_eq (cmp:=cmp) (P:=P)); [done..|]. destruct y. cbn [cmp]. by rewrite Heq.
    + destruct k; cbn [integer_literal node_eq Kind.same] in Heq; rewrite ?andb_false_r in Heq; try done.
      apply andb_true_iff in Heq as [Hk Hl]. apply andb_true_iff in Hk as [Hm Hv].
      apply bool_decide_eq_true in Hm, Hv. subst. by rewrite (lists_eq_nil l) by auto.
    + destruct (HA _ Ha) as [_ Hr]. pose proof (same_head _ _ _ _ _ _ Heq) as [-> Hk].
      destruct k; try done. cbn in Hk. apply bool_decide_eq_true in Hk as ->.
      unfold ring_kind in *. cbn [kind meta] in *. congruence.
  - symmetry. by apply node_eq_constant.
  - inversion Hy as [b Hb|w Hw|m2 o' l2 s' Hs' Hl']; subst.
    + destruct y as [m' k' l']. destruct (HA _ Hb) as [_ Hr]. pose proof (same_head _ _ _ _ _ _ Heq) as [-> Hk].
      destruct k'; try done. cbn in Hk. apply bool_decide_eq_true in Hk as ->.
      unfold ring_kind in *. cbn [kind meta] in *. congruence.
    + pose proof (same_head _ _ _ _ _ _ Heq) as [_ Hk]. done.
    + pose proof (same_head _ _ _ _ _ _ Heq) as [-> Hk]. cbn in Hk. apply bool_decide_eq_true in Hk as ->.
      cbn [node_eq] in Heq. apply andb_true_iff in Heq as [_ Heq]. apply lists_eq_Forall2 in Heq. f_equal.
      clear Hx Hy Hs Hs'. induction Heq as [|x y l l' Hxy _ IHl]; [done|].
      inversion_clear IH; inversion_clear Hl; inversion_clear Hl'. f_equal; auto.
Qed.

Lemma known_node o (l : list ParamExpr) :
  o = Param.Add ∨ o = Param.Mul → Forall (λ x, domain_of (meta x) = Some d) l → Forall known l →
  known (Node (node_meta d o l) (Kind.Op o) l).
Proof. intros Ho Hd Hl. eapply known_ring; [by apply (ring_kind_node d)|done]. Qed.

Lemma known_term k c : Forall P k → k ≠ [] → known (term_node d (k, c)).
Proof.
  intros Hk Hne. unfold term_node.
  assert (Hall : Forall known k) by (eapply Forall_impl; [exact Hk|apply known_atom]).
  assert (Hdom : Forall (λ x, domain_of (meta x) = Some d) k) by by apply (keys_in_domain d P HP).
  destruct (int_eqb c _); cbn [app].
  - destruct k as [|a [|a' k]]; [done|by inversion Hall|]. cbv iota.
    apply known_node; auto.
  - destruct k as [|a k]; [done|]. cbv iota. apply known_node; [by right|by constructor; [apply constant_meta|]|].
    by constructor; [apply known_constant|].
Qed.

Lemma known_polynomial n : of_polynomial n → known n.
Proof.
  intros (p & Hp & ->).
  assert (Hterms : ∀ q, canonical d P q → Forall nonempty q → Forall known (term_node d <$> q)).
  { intros q (Hk & _) Hne. apply Forall_fmap. induction Hk as [|[k c] q Hk _ IH]; [done|].
    inversion_clear Hne. constructor; [by apply known_term|auto]. }
  assert (Hjoin : ∀ l, Forall known l → Forall (λ x, domain_of (meta x) = Some d) l → known (join_terms d l)).
  { intros l Hl Hd. destruct l as [|e [|e' l]]; [apply known_constant|by inversion Hl|].
    apply known_node; auto. }
  destruct (polynomial_node_join d P HP p Hp) as [(c & rest & -> & Hne & ->)|[Hne ->]]; apply Hjoin.
  - apply Forall_app. split; [by apply Hterms; [eapply (canonical_tail d P HP)|]|apply Forall_singleton, known_constant].
  - apply Forall_app. split; [|apply Forall_singleton, constant_meta].
    by apply (terms_in_domain d P HP); [eapply (canonical_tail d P HP)|].
  - by apply Hterms.
  - by apply (terms_in_domain d P HP).
Qed.

(** ** The theorems *)

(** C9: Take atoms of one integer domain that the node order distinguishes, that
    are no ring operation themselves and that have a value whatever their
    parameters are (not a division or another partial operator, whose
    difference with itself is kept).  Two nodes that the constructors build from
    sums, differences and products of them and of constants are equal
    exactly when the expressions are equal by the laws of commutative rings and
    the arithmetic of the domain's constants. *)
Theorem ring_nodes_identical e1 e2 n1 n2 :
  Forall P (atoms_of e1) → Forall P (atoms_of e2) →
  build d e1 = Ok n1 → build d e2 = Ok n2 →
  node_eq n1 n2 = true ↔ ring_eq d e1 e2.
Proof.
  intros Ha1 Ha2 Hb1 Hb2. destruct (build_spec e1 n1 Ha1 Hb1) as [Hp1 Hm1], (build_spec e2 n2 Ha2 Hb2) as [Hp2 Hm2].
  split.
  - intros ->%known_eq; [|by apply known_polynomial..].
    pose proof (monomial_value_bag d (RAtom (N:=ParamExpr))) as Hbag.
    rewrite <- (value_atoms d e1), <- (value_atoms d e2), <- !meaning_value.
    etransitivity; [symmetry; exact (Hm1 (RingExpr ParamExpr) _ _ _ Hbag)|exact (Hm2 (RingExpr ParamExpr) _ _ _ Hbag)].
    all: apply _.
  - intros Heq. destruct Hp1 as (p1 & Hc1 & ->), Hp2 as (p2 & Hc2 & ->).
    enough (p1 = p2) as -> by apply node_eq_refl. apply canonical_unique; [done..|].
    intros ψ Hψ. pose proof (polynomial_node_reading (A:=Z) d P HP) as Hread.
    etransitivity; [symmetry; by apply Hread|]. etransitivity; [|by apply Hread].
    etransitivity; [exact (Hm1 Z _ _ ψ Hψ)|].
    etransitivity; [|symmetry; exact (Hm2 Z _ _ ψ Hψ)]. exact (ring_eq_sound (A:=Z) d e1 e2 Heq ψ Hψ).
Qed.
End identity.
