(* ===== verification/ParamBudget.v ===== *)
(** * ParamBudget: building a ring expression

    A polynomial node decomposes to the polynomial it was made from, so it is
    rebuilt as it was; a sum is always built, a product unless it has more
    terms than the budget. *)

From Stdlib Require Import Setoid.
From stdpp Require Import sorting.
From S2P Require Import Prelude Text Literal Ieee NarrowFloat Dtypes FloatOps Lanes Fold ParamNode OrderedMap ParamBuild ParamRing ParamCanon ParamIdentity.
Local Open Scope Z_scope.

Section budget.
#[local] Set Default Proof Using "All".
Context {M T B R : Type} `{!BigInt B, !BigRational B R, !RationalFloats R, Hhalf : !Half, !IntegerFloats B}.
Context `{!EqDecision M, !EqDecision T, !EqDecision (CtValue T B R), Bl : !BigIntLaws B}.
Notation CtValue := (CtValue T B R).
Notation ParamExpr := (ParamExpr M CtValue T).
Context `{!TypeLanguage T CtValue, !MetaTypes M CtValue, !Rendering M ParamExpr, !Attributes M CtValue ParamExpr}.
Notation Terms := (@Terms M T B R).
Notation key := (list ParamExpr).
Notation result := (outcome (ParamError CtValue)).
Implicit Types (p q : Terms) (e : RingExpr ParamExpr) (n x y : ParamExpr).


(** The operator of a ring node, a sum or a product. *)
Definition ring_op (sum : bool) : ParamOp := if sum then Param.Add else Param.Mul.

(** ** The size of a polynomial *)

Lemma length_poly_insert d p k c : (length (poly_insert d p k c) <= S (length p))%nat.
Proof using Type.
  unfold poly_insert. destruct (_ && _).
  - pose proof (length_map_remove (list_cmp cmp) k p). lia.
  - apply length_map_insert.
Qed.

Lemma length_fold_insert d (f : IntLiteral B → IntLiteral B) p q :
  (length (foldl (λ sum t, poly_insert d sum t.1 (f t.2)) p q) <= length p + length q)%nat.
Proof using Type.
  revert p. induction q as [|[k c] q IH]; intros p; cbn [foldl length]; [lia|].
  etransitivity; [apply IH|]. pose proof (length_poly_insert d p k (f c)). cbn [fst snd]. lia.
Qed.

Lemma mul_row_total d k c acc q :
  (length acc + length q <= MAX_MONOMIALS)%nat →
  ∃ r : Terms, (length r <= length acc + length q)%nat ∧
  try_fold (mul_term d (k, c)) acc q = Ok r.
Proof using Type.
  revert acc. induction q as [|[k' c'] q IH]; intros acc Hlen; cbn [try_fold length fst snd] in *.
  - exists acc. split; [lia|done].
  - pose proof (length_poly_insert d acc (product_monomial k k') (int_mul c c')) as Hins.
    destruct (IH (poly_insert d acc (product_monomial k k') (int_mul c c'))) as (r & Hr & Heq); [lia|].
    exists r. split; [lia|].
    assert (mul_term d (k, c) acc (k', c') = Ok (poly_insert d acc (product_monomial k k') (int_mul c c'))) as ->; [|exact Heq].
    unfold mul_term. cbn [fst snd]. by rewrite (proj2 (Nat.ltb_ge _ _)) by lia.
Qed.

Lemma poly_mul_total d p q :
  (length p * length q <= MAX_MONOMIALS)%nat →
  ∃ r : Terms, (length r <= length p * length q)%nat ∧ poly_mul d p q = Ok r.
Proof using Type.
  intros Hlen. unfold poly_mul.
  enough (Hgen : ∀ acc, (length acc + length p * length q <= MAX_MONOMIALS)%nat →
    ∃ r : Terms, (length r <= length acc + length p * length q)%nat ∧
    try_fold (λ product t, try_fold (mul_term d t) product q) acc p = Ok r) by by apply (Hgen []).
  clear Hlen. induction p as [|[k c] p IH]; intros acc Hlen; cbn [try_fold length fst snd Nat.mul] in *.
  - exists acc. split; [lia|done].
  - destruct (mul_row_total d k c acc q) as (r & Hr & Hrow); [lia|].
    destruct (IH r) as (r' & Hr' & Hrest); [lia|]. exists r'. split; [lia|]. rewrite Hrow. exact Hrest.
Qed.


Context (d : IntDomain) `{Hmeta : !DomainMetas (T:=T) (R:=R) (B:=B) (M:=M) d}.
Context (P : ParamExpr → Prop) `{Hord : !Ordered cmp P}.
Context (HP : ∀ a, P a → domain_of (meta a) = Some d) (HA : ∀ a, P a → atomic a) (HT : ∀ a, P a → is_total a = true).

(** ** Decomposing a node *)

Definition small (zeros : ZeroTerms) x : Prop := ∃ q : Terms, of_with d zeros x = Ok q ∧ (length q <= 1)%nat.

Lemma small_constant zeros v : small zeros (integer_literal d v).
Proof.
  exists (poly_constant d (reduce d v)). split; [by apply of_with_constant, integer_literal_value|].
  apply (length_poly_insert d []).
Qed.

Lemma small_atom zeros a : atomic a → small zeros a.
Proof. intros Ha. eexists. split; [by apply of_with_atom|]. apply (length_poly_insert d []). Qed.

Lemma small_product zeros l :
  Forall (small zeros) l → ∃ q : Terms, product d l zeros = Ok q ∧ (length q <= 1)%nat.
Proof.
  intros Hl. unfold product, product_of.
  enough (Hgen : ∀ (p : Terms) (s : IntLiteral B), (length p <= 1)%nat → ∃ p' s', (length p' <= 1)%nat ∧
    try_fold (λ '(product, scale) factor,
      factor ← of_with d zeros factor;
      match (if decide (zeros = Keep) then poly_as_constant factor else None) with
      | Some value => Ok (product, int_mul scale value)
      | None => product ← poly_mul d product factor; Ok (product, scale)
      end) (p, s) l = (Ok (p', s') : result (Terms * IntLiteral B))).
  { destruct (Hgen (poly_constant d (int_from 1)) (int_from 1)) as (p' & s' & Hlen & ->);
      [apply (length_poly_insert d [])|].
    eexists. split; [done|]. pose proof (length_fold_insert d (λ c, int_mul c s') [] p'). cbn [length] in *. lia. }
  induction Hl as [|x l (q & Hq & Hlen) _ IH]; intros p s Hp; cbn [try_fold]; [by exists p, s|].
  rewrite Hq. cbn [mbind outcome_bind].
  destruct (if decide (zeros = Keep) then poly_as_constant q else None) as [v|].
  - cbn [mbind outcome_bind]. by apply IH.
  - destruct (poly_mul_total d p q) as (r & Hr & Hmul).
    { etransitivity; [by apply Nat.mul_le_mono|]. unfold MAX_MONOMIALS. lia. }
    rewrite Hmul. cbn [mbind outcome_bind]. apply IH. etransitivity; [exact Hr|]. nia.
Qed.
Lemma sum_of_total zeros l :
  Forall (λ x, ∃ q : Terms, of_with d zeros x = Ok q) l → ∃ r : Terms, sum_of (of_with d zeros) d l = Ok r.
Proof.
  unfold sum_of. generalize ([] : Terms). intros acc Hl. revert acc.
  induction Hl as [|x l (q & Hq) _ IH]; intros acc; cbn [try_fold]; [by eexists|].
  rewrite Hq. cbn [mbind outcome_bind]. apply IH.
Qed.

Lemma term_node_total zeros k c :
  Forall P k → k ≠ [] → ∃ q : Terms, of_with d zeros (term_node d (k, c)) = Ok q.
Proof.
  intros Hk Hne. assert (Hsmall : Forall (small zeros) k).
  { eapply Forall_impl; [exact Hk|]. intros a Ha. apply small_atom; auto. }
  assert (Hdom : Forall (λ x, domain_of (meta x) = Some d) k) by by apply (keys_in_domain d P HP).
  assert (Hnode : ∀ l, Forall (small zeros) l → Forall (λ x, domain_of (meta x) = Some d) l →
    ∃ q : Terms, of_with d zeros (Node (node_meta d Param.Mul l) (Kind.Op Param.Mul) l) = Ok q).
  { intros l Hl Hd. rewrite of_with_product by (apply (ring_kind_node d); auto). cbn [operands].
    destruct (small_product zeros l Hl) as (q & Hq & _). by exists q. }
  unfold term_node. destruct (int_eqb c _); cbn [app].
  - destruct k as [|a [|a' k]]; [done|inversion_clear Hsmall as [|? ? (q & Hq & _)]; by exists q|]. by apply Hnode.
  - destruct k as [|a k]; [done|]. cbv iota. apply Hnode; constructor; try done; [apply small_constant|apply constant_meta].
Qed.

Lemma constant_total zeros v : ∃ q : Terms, of_with d zeros (integer_literal d v) = Ok q.
Proof. destruct (small_constant zeros v) as (q & Hq & _). by exists q. Qed.

(** A polynomial's node decomposes to it. *)
Lemma of_polynomial_node zeros p : canonical d P p → of_with d zeros (polynomial_node d p) = Ok p.
Proof.
  intros Hp.
  assert (Hterms : ∀ q, canonical d P q → Forall nonempty q →
    Forall (λ x, ∃ r : Terms, of_with d zeros x = Ok r) (term_node d <$> q)).
  { intros q (Hk & _) Hne. apply Forall_fmap. induction Hk as [|[k c] q Hk _ IH]; [done|].
    inversion_clear Hne. constructor; [by apply term_node_total|auto]. }
  assert (Hjoin : ∀ l, Forall (λ x, ∃ r : Terms, of_with d zeros x = Ok r) l →
    Forall (λ x, domain_of (meta x) = Some d) l → ∃ r : Terms, of_with d zeros (join_terms d l) = Ok r).
  { intros l Hl Hd. destruct l as [|x [|x' l]]; [apply constant_total|by inversion Hl|].
    unfold join_terms. rewrite of_with_sum by (apply (ring_kind_node d); auto). by apply sum_of_total. }
  assert (Htotal : ∃ r : Terms, of_with d zeros (polynomial_node d p) = Ok r).
  { destruct (polynomial_node_join d P HP p Hp) as [(c & rest & -> & Hne & ->)|[Hne ->]]; apply Hjoin.
    - apply Forall_app. split; [by apply Hterms; [eapply (canonical_tail d P HP)|]|].
      apply Forall_singleton, constant_total.
    - apply Forall_app. split; [by apply (terms_in_domain d P HP); [eapply (canonical_tail d P HP)|]|].
      apply Forall_singleton, constant_meta.
    - by apply Hterms.
    - by apply (terms_in_domain d P HP). }
  destruct Htotal as (r & Hr). rewrite Hr. f_equal.
  destruct (of_with_spec (A:=Z) d P zeros _ (polynomial_node_atoms d P HP p Hp) r Hr) as [Hc Hread].
  apply (canonical_unique d P HP HA HT); [done..|]. intros ψ Hψ.
  etransitivity; [exact (Hread ψ Hψ)|exact (polynomial_node_reading (A:=Z) d P HP p ψ Hp)].
Qed.

(** ** The constructors on such nodes *)







(** ** Building an expression *)











(** ** The value of a node *)



(** ** Rebuilding a node *)

Lemma arithmetic_domain_all o l :
  l ≠ [] → Forall (λ x, domain_of (meta x) = Some d) l → arithmetic_domain o l = Ok (Some d).
Proof.
  intros Hne Hl. unfold arithmetic_domain.
  assert (mapM (λ x, domain_of (meta x)) l = Some (replicate (length l) d)) as ->.
  { clear Hne. induction Hl as [|x l Hx _ IH]; [done|]. cbn [mapM length replicate]. by rewrite Hx, IH. }
  destruct (decide (d = Domain.Literal)) as [->|Hd].
  - assert (find (λ d, bool_decide (d ≠ Domain.Literal)) (replicate (length l) Domain.Literal) = None) as ->; [|done].
    induction (length l); [done|]. cbn [replicate find]. by rewrite bool_decide_eq_false_2 by naive_solver.
  - assert (find (λ d, bool_decide (d ≠ Domain.Literal)) (replicate (length l) d) = Some d) as ->.
    { destruct l; [done|]. cbn [length replicate find]. by rewrite bool_decide_eq_true_2. }
    clear Hne Hl. induction l as [|x l IH]; [done|]. cbn [length replicate zip zip_with try_fold].
    rewrite bool_decide_eq_false_2 by naive_solver. exact IH.
Qed.

Lemma term_node_operands k c s :
  Forall P k → k ≠ [] → ring_kind (term_node d (k, c)) = Some s →
  s = false ∧ (2 <= length (operands (term_node d (k, c))))%nat ∧
  Forall (λ x, domain_of (meta x) = Some d) (operands (term_node d (k, c))).
Proof.
  intros Hk Hne. assert (Hdom : Forall (λ x, domain_of (meta x) = Some d) k) by by apply (keys_in_domain d P HP).
  unfold term_node. destruct (int_eqb c _); cbn [app].
  - destruct k as [|a [|a' k]]; [done| |].
    + intros Hs. inversion_clear Hk as [|? ? Ha]. destruct (HA a Ha). congruence.
    + cbv iota. rewrite (ring_kind_node d) by auto. intros [= <-]. cbn [operands length]. split_and!; [done|lia|done].
  - destruct k as [|a k]; [done|]. cbv iota.
    assert (Forall (λ x, domain_of (meta x) = Some d) (integer_literal d c :: a :: k)) as Hall
      by (constructor; [apply constant_meta|done]).
    rewrite (ring_kind_node d) by auto. intros [= <-]. cbn [operands length]. split_and!; [done|lia|done].
Qed.

Lemma polynomial_node_operands p s :
  canonical d P p → ring_kind (polynomial_node d p) = Some s →
  (2 <= length (operands (polynomial_node d p)))%nat ∧
  Forall (λ x, domain_of (meta x) = Some d) (operands (polynomial_node d p)).
Proof.
  intros Hp.
  assert (Hconst : ∀ v, ring_kind (integer_literal d v) = None (A:=bool)) by (intros v; by destruct d).
  assert (Hjoin : ∀ l, Forall (λ x, domain_of (meta x) = Some d) l →
    (∀ x s, x ∈ l → ring_kind x = Some s → (2 <= length (operands x))%nat ∧
      Forall (λ x, domain_of (meta x) = Some d) (operands x)) →
    ring_kind (join_terms d l) = Some s → (2 <= length (operands (join_terms d l)))%nat ∧
      Forall (λ x, domain_of (meta x) = Some d) (operands (join_terms d l))).
  { intros l Hl Hterm. destruct l as [|x [|x' l]].
    - unfold join_terms, integer. by rewrite Hconst.
    - apply Hterm. by left.
    - intros _. cbn [join_terms operands length]. split; [lia|done]. }
  assert (Hterms : ∀ q, canonical d P q → Forall nonempty q → ∀ x s, x ∈ term_node d <$> q → ring_kind x = Some s →
    (2 <= length (operands x))%nat ∧ Forall (λ x, domain_of (meta x) = Some d) (operands x)).
  { intros q (Hk & _) Hne x s' ([k c] & -> & Hin)%list_elem_of_fmap Hs. rewrite Forall_forall in Hk, Hne.
    specialize (Hk _ Hin). specialize (Hne _ Hin). unfold nonempty in Hne. cbn [fst] in *.
    by destruct (term_node_operands k c s' Hk Hne Hs) as (_ & ? & ?). }
  destruct (polynomial_node_join d P HP p Hp) as [(c & rest & -> & Hne & ->)|[Hne ->]]; apply Hjoin.
  - apply Forall_app. split; [by apply (terms_in_domain d P HP); [eapply (canonical_tail d P HP)|]|].
    apply Forall_singleton, constant_meta.
  - intros x s' [Hin| ->%list_elem_of_singleton]%elem_of_app Hs; [|by rewrite Hconst in Hs].
    eapply Hterms; [eapply (canonical_tail d P HP); exact Hp|done..].
  - by apply (terms_in_domain d P HP).
  - by apply Hterms.
Qed.

(** A sum or product node built from such an expression is a fixed point
    of [rebuild]: rebuilding its operator over its operands gives the node. *)
Theorem ring_node_rebuilt e n s :
  Forall P (atoms_of e) → build d e = Ok n → ring_kind n = Some s →
  rebuild (ring_op s) (operands n) = Ok n.
Proof.
  intros Hat Hb Hs. destruct (build_spec d P HP HA HT e n Hat Hb) as [(p & Hp & ->) _].
  destruct (polynomial_node_operands p s Hp Hs) as [Hlen Hdom].
  pose proof (of_polynomial_node Keep p Hp) as Hof.
  set (n := polynomial_node d p) in *. unfold rebuild.
  assert (Hfirst : ∀ o, is_pop_literal_operation o (operands n) = false).
  { intros o. unfold is_pop_literal_operation. destruct (operands n) as [|x l]; [by rewrite andb_comm|].
    inversion_clear Hdom. rewrite (not_pop (d:=d) (meta x)) by done. by rewrite andb_comm. }
  assert (Hne : operands n ≠ []) by (by destruct (operands n); cbn in Hlen; [lia|]).
  assert (Harity : (2 <=? length (operands n))%nat = true) by (by apply Nat.leb_le).
  assert (Hring : ∀ o, build_ring_with o (operands n) Keep =
    (q ← (if decide (o = Param.Add) then sum_of (of_with d Keep) d (operands n) else product d (operands n) Keep);
     Ok (polynomial_node d q))).
  { intros o. unfold build_ring_with. by rewrite arithmetic_domain_all. }
  destruct s; cbn [ring_op Param.accepts_arity]; rewrite Harity, Hfirst; cbn [negb]; rewrite Hring.
  - rewrite of_with_sum in Hof by done. rewrite decide_True by done. by rewrite Hof.
  - rewrite of_with_product in Hof by done. rewrite decide_False by done. by rewrite Hof.
Qed.
End budget.
