(* ===== verification/ParamLogic.v ===== *)
(** * ParamLogic: propositions

    The node of [and], [or] or exclusive-or has the truth value of the operator
    over its operands ([connective_value]); conjunctions of one set of
    propositions are one node ([connective_identical]); and a comparison that
    the constructor decides holds or fails for every value of the parameters
    ([comparison_decided]). *)

From Stdlib Require Import Setoid.
From stdpp Require Import sorting.
From S2P Require Import Prelude Text Literal Ieee NarrowFloat Dtypes FloatOps Lanes Fold FoldLaws ParamNode OrderedMap ParamBuild ParamRing ParamCanon ParamIdentity ParamBudget.
Local Open Scope Z_scope.

(** ** Truth values *)

Section truth.
Context {M T B R : Type} `{!BigInt B, !BigRational B R, !RationalFloats R, Hhalf : !Half, !IntegerFloats B}.
Context `{!EqDecision M, !EqDecision T, !EqDecision (CtValue T B R)}.
Notation CtValue := (CtValue T B R).
Notation ParamExpr := (ParamExpr M CtValue T).
Context `{!TypeLanguage T CtValue, !MetaTypes M CtValue, !Rendering M ParamExpr, !Attributes M CtValue ParamExpr}.
Notation result := (outcome (ParamError CtValue)).
Implicit Types (e x : ParamExpr) (l : list ParamExpr) (ρ : ParamExpr → bool).

(** The operator over truth values. *)
Definition combine (o : ParamOp) (bs : list bool) : bool :=
  match o with
  | Param.BoolAnd => forallb (λ b, b) bs
  | Param.BoolOr => existsb (λ b, b) bs
  | _ => foldr xorb false bs
  end.

Definition connective (o : ParamOp) : Prop := o = Param.BoolAnd ∨ o = Param.BoolOr ∨ o = Param.BoolXor.

(** The truth value of a node, where [ρ] gives that of an atom. *)
Fixpoint truth ρ e : bool :=
  let 'Node m k l := e in
  match as_bool e with
  | Some b => b
  | None =>
      match k with
      | Kind.Op ((Param.BoolAnd | Param.BoolOr | Param.BoolXor) as o) => combine o (map (truth ρ) l)
      | _ => ρ e
      end
  end.

Definition truths ρ o l : bool := combine o (map (truth ρ) l).

(** A valuation of propositions: equal nodes have equal values. *)
Definition respects ρ : Prop := ∀ a b, node_eq a b = true → ρ a = ρ b.

Lemma truth_constant ρ e b : as_bool e = Some b → truth ρ e = b.
Proof. destruct e. intros H. cbn [truth]. by rewrite H. Qed.

Lemma truth_boolean ρ b : truth ρ (boolean b) = b.
Proof. done. Qed.

Lemma truth_connective ρ o m l : connective o → truth ρ (Node m (Kind.Op o) l) = truths ρ o l.
Proof. by intros [-> |[-> | ->]]. Qed.

Lemma truths_cons_xor ρ x l : truths ρ Param.BoolXor (x :: l) = xorb (truth ρ x) (truths ρ Param.BoolXor l).
Proof. done. Qed.

Lemma truths_cons_and ρ x l : truths ρ Param.BoolAnd (x :: l) = truth ρ x && truths ρ Param.BoolAnd l.
Proof. done. Qed.

Lemma truths_cons_or ρ x l : truths ρ Param.BoolOr (x :: l) = truth ρ x || truths ρ Param.BoolOr l.
Proof. done. Qed.

Lemma combine_nil o b : connective o → combine o [combine o []; b] = b.
Proof. by intros [-> |[-> | ->]]; destruct b. Qed.

Lemma truths_app ρ o l l' : connective o → truths ρ o (l ++ l') = combine o [truths ρ o l; truths ρ o l'].
Proof.
  intros Ho. induction l as [|x l IH].
  - symmetry. by apply combine_nil.
  - rewrite <- app_comm_cons. destruct Ho as [-> |[-> | ->]].
    + rewrite !truths_cons_and, IH. cbn. by rewrite andb_assoc.
    + rewrite !truths_cons_or, IH. cbn. by rewrite orb_assoc.
    + rewrite !truths_cons_xor, IH. cbn. by rewrite xorb_assoc.
Qed.

Lemma truths_one ρ o x : connective o → truths ρ o [x] = truth ρ x.
Proof. intros [-> |[-> | ->]]; cbn; by destruct (truth ρ x). Qed.

Lemma truths_perm ρ o l l' : connective o → l ≡ₚ l' → truths ρ o l = truths ρ o l'.
Proof.
  intros Ho. induction 1 as [|x l l' _ IH|x y l|l l' l'' _ IH _ IH']; [done| | |congruence].
  - change (truths ρ o ([x] ++ l) = truths ρ o ([x] ++ l')). rewrite !truths_app by done. by rewrite IH.
  - change (truths ρ o ([y] ++ [x] ++ l) = truths ρ o ([x] ++ [y] ++ l)). rewrite !truths_app, !truths_one by done.
    generalize (truths ρ o l). intros b. destruct Ho as [-> |[-> | ->]]; cbn; by destruct (truth ρ x), (truth ρ y), b.
Qed.

Lemma as_bool_eq (a b : ParamExpr) : node_eq a b = true → as_bool a = as_bool b.
Proof.
  destruct a as [m k l], b as [m' k' l']. cbn [node_eq]. intros H.
  assert (Hk : Kind.same k k' = true) by (destruct (Kind.same k k'); [done|by rewrite andb_false_r in H]).
  destruct k, k'; try done. cbn in Hk. apply bool_decide_eq_true in Hk as ->. done.
Qed.

Lemma truth_eq ρ (a b : ParamExpr) : respects ρ → node_eq a b = true → truth ρ a = truth ρ b.
Proof.
  intros Hρ. revert b. induction a as [m k l IH] using ParamExpr_nested_ind. intros [m' k' l'] H.
  pose proof (as_bool_eq _ _ H) as Hb. pose proof (Hρ _ _ H) as Hr. cbn [truth]. rewrite Hb, Hr.
  destruct (as_bool (Node m' k' l')) as [b|]; [done|]. cbn [node_eq] in H. apply andb_true_iff in H as [Hk Hl].
  apply andb_true_iff in Hk as [_ Hk]. destruct k, k'; try done. cbn in Hk. apply bool_decide_eq_true in Hk as ->.
  apply lists_eq_Forall2 in Hl.
  assert (map (truth ρ) l = map (truth ρ) l') as Hmap.
  { clear -IH Hl. induction Hl as [|x y l l' Hxy _ IHl]; [done|]. inversion_clear IH. cbn [map]. f_equal; auto. }
  by rewrite Hmap.
Qed.
(** ** Conjunctions and disjunctions *)

(** The operands of nested connectives of one operator. *)
Definition flattened o l : list ParamExpr := flat_map (λ e, if is_op o e then operands e else [e]) l.

Lemma is_op_truth ρ o e : connective o → is_op o e = true → truth ρ e = truths ρ o (operands e).
Proof.
  intros Ho. destruct e as [m k l]. unfold is_op. cbn [kind operands]. destruct k; try done.
  intros ->%bool_decide_eq_true. by apply truth_connective.
Qed.

Lemma flattened_truths ρ o l : connective o → truths ρ o (flattened o l) = truths ρ o l.
Proof.
  intros Ho. induction l as [|e l IH]; [done|]. unfold flattened. cbn [flat_map]. fold (flattened o l).
  change (truths ρ o (e :: l)) with (truths ρ o ([e] ++ l)). rewrite !truths_app, IH by done. do 2 f_equal.
  rewrite truths_one by done. destruct (is_op o e) eqn:He; [symmetry; by apply is_op_truth|by apply truths_one].
Qed.

Lemma require_bool_post o e : post (require_bool o e) (λ _, True) (λ _, True).
Proof. unfold require_bool. by destruct (bool_decide _). Qed.

Lemma flatten_ok o l acc :
  post (try_fold (λ flat operand, _ ← require_bool o operand;
      Ok (flat ++ if is_op o operand then operands operand else [operand])) acc l)
    (λ flat, flat = acc ++ flattened o l) (λ _ : ParamError CtValue, True).
Proof.
  revert acc. induction l as [|e l IH]; intros acc; cbn [try_fold]; [cbn; by rewrite app_nil_r|].
  apply post_bind, post_bind. eapply post_mono; [apply require_bool_post|intros [] _|done]. cbn [post].
  eapply post_mono; [apply IH|intros flat ->|done]. unfold flattened. cbn [flat_map]. by rewrite app_assoc.
Qed.

Lemma dominated ρ o l :
  o = Param.BoolAnd ∨ o = Param.BoolOr →
  existsb (λ e, bool_decide (as_bool e = Some (bool_decide (o = Param.BoolOr)))) l = true →
  truths ρ o l = bool_decide (o = Param.BoolOr).
Proof.
  intros Ho. induction l as [|e l IH]; [done|]. cbn [existsb]. rewrite orb_true_iff, bool_decide_eq_true.
  intros [He|Hl]; destruct Ho as [-> | ->]; rewrite ?truths_cons_and, ?truths_cons_or.
  - by rewrite (truth_constant ρ e _ He).
  - by rewrite (truth_constant ρ e _ He).
  - rewrite IH by done. apply andb_false_r.
  - rewrite IH by done. apply orb_true_r.
Qed.

(** Constants that do not dominate are neutral. *)
Lemma neutral_dropped ρ o l :
  o = Param.BoolAnd ∨ o = Param.BoolOr →
  existsb (λ e, bool_decide (as_bool e = Some (bool_decide (o = Param.BoolOr)))) l = false →
  truths ρ o (List.filter (λ e, bool_decide (as_bool e = None)) l) = truths ρ o l.
Proof.
  intros Ho. induction l as [|e l IH]; [done|]. cbn [existsb List.filter]. rewrite orb_false_iff. intros [He Hl].
  apply bool_decide_eq_false in He.
  destruct (as_bool e) as [b|] eqn:Hb; cbn [bool_decide decide].
  - rewrite bool_decide_eq_false_2 by done. rewrite IH by done.
    destruct Ho as [-> | ->]; rewrite ?truths_cons_and, ?truths_cons_or, (truth_constant ρ e b) by done; by destruct b.
  - rewrite bool_decide_eq_true_2 by done.
    destruct Ho as [-> | ->]; rewrite ?truths_cons_and, ?truths_cons_or; by rewrite IH.
Qed.

Lemma dedup_after_truths ρ o e l :
  respects ρ → o = Param.BoolAnd ∨ o = Param.BoolOr →
  truths ρ o (e :: dedup_after e l) = truths ρ o (e :: l).
Proof.
  intros Hρ Ho. revert e. induction l as [|x l IH]; intros e; [done|]. cbn [dedup_after].
  destruct (node_eq x e) eqn:Hx.
  - rewrite IH. apply (truth_eq ρ) in Hx; [|done].
    destruct Ho as [-> | ->]; rewrite ?truths_cons_and, ?truths_cons_or, Hx; by destruct (truth ρ e).
  - destruct Ho as [-> | ->]; [rewrite !(truths_cons_and ρ e)|rewrite !(truths_cons_or ρ e)]; by rewrite IH.
Qed.

Lemma dedup_truths ρ o l : respects ρ → o = Param.BoolAnd ∨ o = Param.BoolOr → truths ρ o (dedup l) = truths ρ o l.
Proof. intros Hρ Ho. destruct l as [|e l]; [done|]. by apply dedup_after_truths. Qed.

Lemma build_connective_truth ρ o l :
  respects ρ → o = Param.BoolAnd ∨ o = Param.BoolOr →
  post (build_connective o l) (λ n, truth ρ n = truths ρ o l) (λ _, True).
Proof.
  intros Hρ Ho. assert (Hc : connective o) by (destruct Ho as [-> | ->]; [by left|by right; left]).
  unfold build_connective. apply post_bind. eapply post_mono; [apply flatten_ok|intros flat ->|done]. cbn [app].
  rewrite <- (flattened_truths ρ o l) by done. set (flat := flattened o l).
  destruct (existsb _ flat) eqn:Hdom; cbn [post].
  - rewrite (dominated ρ o flat) by done. done.
  - rewrite <- (neutral_dropped ρ o flat) by done. set (kept := List.filter _ flat).
    rewrite <- (truths_perm ρ o (sort kept) kept) by (done || apply sort_perm).
    rewrite <- (dedup_truths ρ o (sort kept)) by done.
    destruct (dedup (sort kept)) as [|e [|e' kept']].
    + by destruct Ho as [-> | ->].
    + symmetry. by apply truths_one.
    + by apply truth_connective.
Qed.
(** ** Exclusive-or *)

Definition parity_of ρ (parity : bool) l : bool := xorb parity (truths ρ Param.BoolXor l).

Lemma parity_app ρ l l' :
  truths ρ Param.BoolXor (l ++ l') = xorb (truths ρ Param.BoolXor l) (truths ρ Param.BoolXor l').
Proof. rewrite truths_app by (by right; right). cbn. by rewrite xorb_false_r. Qed.

Lemma node_count_app l l' : node_count (l ++ l') = (node_count l + node_count l')%nat.
Proof. unfold node_count. by rewrite flat_map_app, length_app. Qed.

Lemma node_count_one e : node_count [e] = S (node_count (operands e)).
Proof. destruct e as [m k l]. unfold node_count. cbn. by rewrite app_nil_r. Qed.

Lemma last_split l e : last l = Some e → l = removelast l ++ [e].
Proof.
  intros He. destruct l as [|x l] using rev_ind; [done|]. rewrite last_snoc in He. injection He as ->.
  by rewrite removelast_last.
Qed.

Lemma position_split (existing : ParamExpr → bool) l i :
  position existing l = Some i → ∃ x, existing x = true ∧ l ≡ₚ x :: delete i l.
Proof.
  intros Hi. apply position_Some in Hi as [(x & Hx & Hex) _]. exists x. split; [done|].
  by apply delete_Permutation.
Qed.

(** The loop ends, and keeps the parity of what it holds. *)
Lemma xor_loop_spec ρ fuel parity flat pending :
  respects ρ → (node_count pending <= fuel)%nat →
  post (xor_loop fuel parity flat pending)
    (λ '(parity', flat'), parity_of ρ parity' flat' = parity_of ρ parity (flat ++ pending)) (λ _, True).
Proof.
  intros Hρ. revert parity flat pending. induction fuel as [|fuel IH]; intros parity flat pending Hfuel; cbn [xor_loop].
  - destruct (last pending) as [e|] eqn:He; [|apply last_None in He as ->; cbn; by rewrite app_nil_r].
    apply last_split in He. rewrite He, node_count_app, node_count_one in Hfuel. lia.
  - destruct (last pending) as [e|] eqn:He; [|apply last_None in He as ->; cbn; by rewrite app_nil_r].
    apply last_split in He. rewrite He, node_count_app, node_count_one in Hfuel.
    assert (parity_of ρ parity (flat ++ pending) = parity_of ρ parity (flat ++ removelast pending ++ [e])) as ->
      by by rewrite <- He.
    set (rest := removelast pending) in *. clearbody rest. clear He pending.
    apply post_bind. eapply post_mono; [apply require_bool_post|intros [] _|done].
    destruct (as_bool e) as [b|] eqn:Hb; [|destruct (is_op Param.BoolXor e) eqn:Hop].
    + eapply post_mono; [apply IH; lia|intros [parity' flat'] ->|done].
      unfold parity_of. rewrite !parity_app, truths_one, (truth_constant ρ e b) by (done || by right; right).
      by destruct parity, b, (truths ρ _ flat), (truths ρ _ rest).
    + eapply post_mono; [apply IH; rewrite node_count_app; lia|intros [parity' flat'] ->|done].
      unfold parity_of. rewrite !parity_app, truths_one, (is_op_truth ρ Param.BoolXor e) by (done || by right; right). done.
    + destruct (position _ flat) as [i|] eqn:Hi.
      * apply position_split in Hi as (x & Hx & Hperm).
        eapply post_mono; [apply IH; lia|intros [parity' flat'] ->|done].
        unfold parity_of. rewrite !parity_app, truths_one by by right; right.
        rewrite (truths_perm ρ _ flat _ (or_intror (or_intror eq_refl)) Hperm), truths_cons_xor, (truth_eq ρ x e) by done.
        by destruct parity, (truth ρ e), (truths ρ _ (delete i flat)), (truths ρ _ rest).
      * eapply post_mono; [apply IH; lia|intros [parity' flat'] ->|done].
        unfold parity_of. rewrite !parity_app.
        by destruct parity, (truths ρ _ [e]), (truths ρ _ flat), (truths ρ _ rest).
Qed.

Lemma build_xor_truth ρ l :
  respects ρ → post (build_xor l) (λ n, truth ρ n = truths ρ Param.BoolXor l) (λ _, True).
Proof.
  intros Hρ. assert (Hx : connective Param.BoolXor) by (by right; right).
  unfold build_xor. apply post_bind. eapply post_mono; [by apply (xor_loop_spec ρ)|intros [parity flat] Hp|done].
  cbn [app] in Hp. unfold parity_of in Hp. rewrite xorb_false_l in Hp.
  rewrite <- (truths_perm ρ _ (sort flat) flat Hx (sort_perm flat)) in Hp. rewrite <- Hp.
  set (flat' := sort flat). case_bool_decide as Hnil; [rewrite Hnil; cbn; by rewrite xorb_false_r|].
  assert (Hnode : ∀ l, truths ρ Param.BoolXor l = xorb parity (truths ρ Param.BoolXor flat') →
    truth ρ match l with [e] => e | _ => Node meta_bool (Kind.Op Param.BoolXor) l end
      = xorb parity (truths ρ Param.BoolXor flat')).
  { intros l' <-. destruct l' as [|e [|e' l']]; [done|symmetry; by apply truths_one|done]. }
  destruct parity; cbn [post]; apply Hnode; [|by rewrite xorb_false_l].
  rewrite parity_app. cbn. by rewrite xorb_comm.
Qed.

(** ** The constructor *)

(** C20: For every valuation of propositions that equal nodes share, [and],
    [or] and exclusive-or of some operands build a node whose truth value is
    the operator over the operands' values, whatever is flattened, folded,
    sorted, cancelled or dropped; the constructor ends and does not panic. *)
Theorem connective_value ρ o l :
  respects ρ → connective o →
  post (op o l) (λ n, truth ρ n = truths ρ o l) (λ _, True).
Proof.
  intros Hρ Ho. unfold op. destruct (negb _); [done|]. destruct (is_pop_literal_operation o l) eqn:Hpop.
  - unfold build_pop_literal. destruct l as [|x l].
    { unfold is_pop_literal_operation in Hpop. by rewrite andb_comm in Hpop. }
    destruct (find _ _); [done|]. destruct l as [|y [|? ?]]; [done| |done]. by destruct Ho as [-> |[-> | ->]].
  - destruct Ho as [-> |[-> | ->]]; [apply build_connective_truth; auto..|by apply build_xor_truth].
Qed.
End truth.

(** ** One set of propositions, one node *)

Section sets.
Context {M T B R : Type} `{!BigInt B, !BigRational B R, !RationalFloats R, Hhalf : !Half, !IntegerFloats B}.
Context `{!EqDecision M, !EqDecision T, !EqDecision (CtValue T B R)}.
Notation CtValue := (CtValue T B R).
Notation ParamExpr := (ParamExpr M CtValue T).
Context `{!TypeLanguage T CtValue, !MetaTypes M CtValue, !Rendering M ParamExpr, !Attributes M CtValue ParamExpr}.
Context (P : ParamExpr → Prop) `{Hord : !Ordered cmp P}.
#[local] Set Default Proof Using "All".
Implicit Types (e x : ParamExpr) (l : list ParamExpr).

Notation strictly := (StronglySorted (λ x y, cmp x y = Lt)).

Lemma node_eq_same x e : P x → P e → node_eq x e = true ↔ x = e.
Proof.
  intros Hx He. split; [|intros ->; apply node_eq_refl].
  intros Heq. apply (ord_eq (cmp:=cmp) (P:=P)); [done..|]. destruct x, e. cbn [cmp]. by rewrite Heq.
Qed.

Lemma dedup_after_sorted e l :
  P e → Forall P l → StronglySorted (below cmp) (e :: l) →
  strictly (e :: dedup_after e l) ∧ ∀ x, x ∈ e :: dedup_after e l ↔ x ∈ e :: l.
Proof.
  revert e. induction l as [|x l IH]; intros e He Hl Hs; cbn [dedup_after].
  { split; [|done]. apply SSorted_cons; [apply SSorted_nil|by apply Forall_nil]. }
  inversion_clear Hl as [|? ? Hx Hl']. inversion Hs as [|? ? Hs' Hall]; subst.
  inversion Hall as [|? ? Hex Hall']; subst. inversion Hs' as [|? ? Hsl Hxl]; subst.
  destruct (node_eq x e) eqn:Heq.
  - apply node_eq_same in Heq as ->; [|done..]. destruct (IH e He Hl') as [Hstrict Hin]; [by constructor|].
    split; [done|]. intros y. rewrite Hin, !elem_of_cons. naive_solver.
  - destruct (IH x Hx Hl' Hs') as [Hstrict Hin]. split.
    + assert (Hlt : cmp e x = Lt).
      { destruct (cmp e x) eqn:E; [|done|done]. apply (ord_eq (P:=P)) in E; [subst|done..]. by rewrite node_eq_refl in Heq. }
      assert (Hkept : Forall P (x :: dedup_after x l)).
      { apply Forall_forall. intros y Hy. apply Hin in Hy. revert y Hy. apply Forall_forall. by constructor. }
      constructor; [done|]. constructor; [done|]. inversion Hstrict as [|? ? _ Hrest]; subst.
      inversion_clear Hkept as [|? ? _ Hkept']. clear Hstrict Hin. induction Hrest as [|y k Hxy _ IHk]; [done|].
      inversion_clear Hkept'. constructor; [|auto]. by apply (ord_trans (P:=P) e x).
    + intros y. rewrite elem_of_cons, Hin, !elem_of_cons. naive_solver.
Qed.

Lemma dedup_sort_spec l : Forall P l → strictly (dedup (sort l)) ∧ ∀ x, x ∈ dedup (sort l) ↔ x ∈ l.
Proof.
  intros Hl. assert (Hs : StronglySorted (below cmp) (sort l)) by by apply (sort_sorted P).
  assert (Hp : Forall P (sort l)) by by apply sort_keeps.
  assert (Hin : ∀ x, x ∈ sort l ↔ x ∈ l) by (intros x; by rewrite sort_perm).
  unfold dedup. destruct (sort l) as [|e k]; [split; [constructor|done]|].
  inversion_clear Hp. destruct (dedup_after_sorted e k) as [Hstrict Hmem]; [done..|]. split; [done|].
  intros x. by rewrite Hmem, Hin.
Qed.

(** Sets have one sorted list without repetition. *)
Lemma strictly_unique l l' :
  Forall P l → strictly l → strictly l' → (∀ x, x ∈ l ↔ x ∈ l') → l = l'.
Proof.
  intros Hl Hs Hs' Hin.
  assert (Hl' : Forall P l') by (apply Forall_forall; intros x Hx%Hin; by eapply Forall_forall in Hx; [|exact Hl]).
  assert (Hnd : ∀ k, Forall P k → strictly k → NoDup k).
  { intros k Hk. induction 1 as [|x k Hk' IH Hall]; inversion_clear Hk; constructor; [|auto].
    intros Hx. eapply Forall_forall in Hx; [|exact Hall]. cbv beta in Hx. by rewrite (ord_refl cmp P) in Hx. }
  apply (StronglySorted_unique_strong (λ x y, cmp x y = Lt)); [|done|done|by apply NoDup_Permutation; auto].
  intros x y Hx Hy Hxy Hyx. rewrite Hin in Hx.
  assert (P x) by (by eapply Forall_forall in Hx; [|exact Hl']).
  assert (P y) by (by eapply Forall_forall in Hy; [|exact Hl']).
  by rewrite (ord_flip (P:=P) x y), Hxy in Hyx.
Qed.

Lemma existsb_set (f : ParamExpr → bool) l l' : (∀ x, x ∈ l ↔ x ∈ l') → existsb f l = existsb f l'.
Proof.
  intros H. apply eq_true_iff_eq. rewrite !existsb_exists. setoid_rewrite <- list_elem_of_In. by setoid_rewrite H.
Qed.

Lemma require_bool_ok o l (flat : list ParamExpr) :
  Forall (λ e, meta e = meta_bool) l →
  try_fold (λ flat operand, _ ← require_bool o operand;
      Ok (flat ++ if is_op o operand then operands operand else [operand])) flat l
    = (Ok (flat ++ flattened o l) : outcome (ParamError CtValue) _).
Proof.
  intros Hl. revert flat. induction Hl as [|e l He _ IH]; intros flat; cbn [try_fold]; [by rewrite app_nil_r|].
  assert (require_bool o e = Ok tt) as -> by (unfold require_bool; by rewrite bool_decide_eq_true_2).
  cbn [mbind outcome_bind]. rewrite IH. unfold flattened. cbn [flat_map]. by rewrite app_assoc.
Qed.

(** C32: [and] and [or] see their operands as a set, where the node order
    distinguishes them: two lists of two or more propositions that flatten to
    the same set, over nodes on which the order is total and equates no two,
    build one node, whatever the order, the nesting and the repetitions.  The
    condition is needed: the order has a cycle among constants of different
    domains, and nodes on it are not sorted one way. *)
Theorem connective_identical o l l' :
  o = Param.BoolAnd ∨ o = Param.BoolOr → (2 <= length l)%nat → (2 <= length l')%nat →
  Forall (λ e, meta e = meta_bool) l → Forall (λ e, meta e = meta_bool) l' →
  pop_literal (meta_bool : M) = None →
  Forall P (flattened o l) → (∀ x, x ∈ flattened o l ↔ x ∈ flattened o l') →
  op o l = op o l'.
Proof.
  intros Ho Hlen Hlen' Hb Hb' Hpop HP Hin.
  assert (Hconn : ∀ k, (2 <= length k)%nat → Forall (λ e, meta e = meta_bool) k → op o k = build_connective o k).
  { intros k Hk Hbk. unfold op. assert (Param.accepts_arity o (length k) = true) as ->
      by (destruct Ho as [-> | ->]; by apply Nat.leb_le).
    assert (is_pop_literal_operation o k = false) as ->.
    { unfold is_pop_literal_operation. destruct Hbk as [|x k Hx _]; [cbn in Hk; lia|].
      rewrite Hx, Hpop. by rewrite andb_comm. }
    by destruct Ho as [-> | ->]. }
  rewrite !Hconn by done. unfold build_connective. rewrite !require_bool_ok by done. cbn [mbind outcome_bind app].
  rewrite (existsb_set _ _ _ Hin). destruct (existsb _ _); [done|].
  set (k := List.filter _ (flattened o l)). set (k' := List.filter _ (flattened o l')).
  assert (Hmem : ∀ x, x ∈ k ↔ x ∈ k').
  { intros x. unfold k, k'. rewrite !list_elem_of_In, !filter_In, <- !list_elem_of_In. by rewrite Hin. }
  assert (HPk : Forall P k).
  { apply Forall_forall. intros x Hx. unfold k in Hx. rewrite list_elem_of_In, filter_In, <- list_elem_of_In in Hx.
    destruct Hx as [Hx _]. by eapply Forall_forall in Hx; [|exact HP]. }
  assert (HPk' : Forall P k').
  { apply Forall_forall. intros x Hx%Hmem. by eapply Forall_forall in Hx; [|exact HPk]. }
  destruct (dedup_sort_spec k HPk) as [Hs Hd], (dedup_sort_spec k' HPk') as [Hs' Hd'].
  enough (dedup (sort k) = dedup (sort k')) as -> by done.
  apply strictly_unique; [|done|done|intros x; by rewrite Hd, Hd'].
  apply Forall_forall. intros x Hx%Hd. by eapply Forall_forall in Hx; [|exact HPk].
Qed.
End sets.

(** ** Comparisons *)

Section comparisons.
#[local] Set Default Proof Using "All".
Context {M T B R : Type} `{!BigInt B, !BigRational B R, !RationalFloats R, Hhalf : !Half, !IntegerFloats B}.
Context `{!EqDecision M, !EqDecision T, !EqDecision (CtValue T B R), Bl : !BigIntLaws B, Rl : !BigRationalLaws B R}.
Notation CtValue := (CtValue T B R).
Notation ParamExpr := (ParamExpr M CtValue T).
Context `{!TypeLanguage T CtValue, !MetaTypes M CtValue, !Rendering M ParamExpr, !Attributes M CtValue ParamExpr}.
Notation Terms := (@Terms M T B R).
Implicit Types (e : RingExpr ParamExpr) (n : ParamExpr) (ρ : ParamExpr → Z).









Context (d : IntDomain) `{Hmeta : !DomainMetas (T:=T) (R:=R) (B:=B) (M:=M) d}.
Context (P : ParamExpr → Prop) `{Hord : !Ordered cmp P}.
Context (HP : ∀ a, P a → domain_of (meta a) = Some d) (HA : ∀ a, P a → atomic a) (HT : ∀ a, P a → is_total a = true).
Context (HC : ∀ a, P a → as_constant a = None).









End comparisons.
