(* ===== verification/ParamExamples.v ===== *)
(** * ParamExamples: the order of nodes, and a language of integers

    References to declared parameters are totally ordered, so the theorems of
    [ParamIdentity] hold over the parameters of any declaration.  Over all
    nodes the order is not one: integer constants compare by value and others
    by the text of their type, which makes a cycle ([order_cycle]).  Last, the
    theorems at a concrete expression. *)

From Stdlib Require Import Ascii String.
From stdpp Require Import sorting.
From S2P Require Import Prelude Text Literal Ieee NarrowFloat Dtypes FloatOps Lanes Fold FoldLaws ParamNode OrderedMap ParamBuild ParamRing ParamCanon ParamIdentity ParamBudget ParamLogic.
Local Open Scope Z_scope.

(** ** Strings and identities *)

Lemma ascii_compare_trans a b c : Ascii.compare a b = Lt → Ascii.compare b c = Lt → Ascii.compare a c = Lt.
Proof. unfold Ascii.compare. rewrite !N.compare_lt_iff. lia. Qed.

Lemma string_compare_cons a s b t :
  String.compare (String a s) (String b t) = then_with (Ascii.compare a b) (String.compare s t).
Proof. cbn. by destruct (Ascii.compare a b). Qed.

Lemma string_compare_trans s t u :
  String.compare s t = Lt → String.compare t u = Lt → String.compare s u = Lt.
Proof.
  revert t u. induction s as [|a s IH]; intros [|b t] [|c u]; try done.
  rewrite !string_compare_cons, !then_with_lt. intros [H1|[H1 H1']] [H2|[H2 H2']].
  - left. by eapply ascii_compare_trans.
  - apply Ascii.compare_eq_iff in H2 as ->. by left.
  - apply Ascii.compare_eq_iff in H1 as ->. by left.
  - apply Ascii.compare_eq_iff in H1 as ->. right. split; [done|by eapply IH].
Qed.

Lemma string_compare_eq s t : String.compare s t = Eq ↔ s = t.
Proof.
  split; [apply String.compare_eq_iff|intros ->]. induction t as [|a t IH]; [done|].
  rewrite string_compare_cons, then_with_eq. split; [|done]. unfold Ascii.compare. apply N.compare_refl.
Qed.

#[export] Instance id_ordered : Ordered id_cmp (λ _, True).
Proof.
  split.
  - intros [o s] [o' s'] _ _. unfold id_cmp. rewrite then_with_eq, string_compare_eq, Nat.compare_eq_iff. cbn. naive_solver.
  - intros [o s] [o' s'] _ _. unfold id_cmp. rewrite then_with_flip. cbn.
    by rewrite (String.compare_antisym o' o), (Nat.compare_antisym s s').
  - intros [o s] [o' s'] [o'' s''] _ _ _. unfold id_cmp. cbn. rewrite !then_with_lt, !Nat.compare_lt_iff.
    intros [H1|[H1 H1']] [H2|[H2 H2']].
    + left. by eapply string_compare_trans.
    + apply string_compare_eq in H2 as ->. by left.
    + apply string_compare_eq in H1 as ->. by left.
    + apply string_compare_eq in H1 as ->. right. split; [done|lia].
Qed.

(** ** References to declared parameters *)

Section references.
Context {M T B R : Type} `{!BigInt B, !BigRational B R, !EqDecision M, !EqDecision T, !EqDecision (CtValue T B R)}.
Notation ParamExpr := (ParamExpr M (CtValue T B R) T).
Context `{!Rendering M ParamExpr} (meta_of : ParamId → M) (name_of : ParamId → string).

Definition declared (i : ParamId) : ParamExpr := Node (meta_of i) (Kind.DeclRef (mkRef i (name_of i))) [].

(** The reference to a parameter, each of one type and name. *)
Definition reference (e : ParamExpr) : Prop := ∃ i, e = declared i.

Lemma cmp_declared i j : cmp (declared i) (declared j) = id_cmp i j.
Proof.
  unfold declared. cbn [cmp node_eq lists_eq Kind.same Kind.rank id]. rewrite andb_true_r, Z.compare_refl. cbn [then_with].
  destruct (decide (i = j)) as [->|Hij].
  - rewrite !bool_decide_eq_true_2 by done. cbn. symmetry. by apply (ord_refl id_cmp (λ _, True)).
  - rewrite (bool_decide_eq_false_2 (i = j)) by done. rewrite andb_false_r.
    destruct (id_cmp i j) eqn:E; [|done..]. by apply (ord_eq (P:=λ _, True)) in E.
Qed.

#[export] Instance references_ordered : Ordered cmp reference.
Proof.
  split.
  - intros ? ? [i ->] [j ->]. rewrite cmp_declared. split.
    + intros ->%(ord_eq (P:=λ _, True)); done.
    + intros [= _ H]. by apply (ord_eq (P:=λ _, True)).
  - intros ? ? [i ->] [j ->]. rewrite !cmp_declared. by apply (ord_flip (P:=λ _, True)).
  - intros ? ? ? [i ->] [j ->] [k ->]. rewrite !cmp_declared. by apply (ord_trans (P:=λ _, True)).
Qed.

Lemma reference_total e : reference e → is_total e = true.
Proof. by intros [i ->]. Qed.

Lemma reference_atomic `{!MetaTypes M (CtValue T B R)} e : reference e → atomic e.
Proof. by intros [i ->]. Qed.

End references.

(** ** The order is not transitive *)

Section cycle.
Context {M T B R : Type} `{!BigInt B, Bl : !BigIntLaws B, !BigRational B R, !EqDecision M, !EqDecision T, !EqDecision (CtValue T B R)}.
Notation CtValue := (CtValue T B R).
Notation ParamExpr := (ParamExpr M CtValue T).
Context `{!Rendering M ParamExpr}.

Definition constant_node (m : M) (v : CtValue) : ParamExpr := Node m (Kind.Constant v) [].

(** The canonical order is not transitive: integer constants compare by
    value whatever their types, and an integer and another constant by the
    text of their types.  So [UInt 3] is below [Int 5], which is below any
    string, byte or dtype constant of a type whose name lies between, which is
    below [UInt 3]. *)
Theorem order_cycle (int other uint : M) (v : CtValue) a b :
  integer_value v = None → b < a →
  String.compare (meta_string int) (meta_string other) = Lt →
  String.compare (meta_string other) (meta_string uint) = Lt →
  cmp (constant_node uint (CtUInt b)) (constant_node int (CtInt a)) = Lt ∧
  cmp (constant_node int (CtInt a)) (constant_node other v) = Lt ∧
  cmp (constant_node other v) (constant_node uint (CtUInt b)) = Lt.
Proof using Bl.
  intros Hv Hab Hio Hou. unfold constant_node. split_and!; cbn [cmp node_eq Kind.same Kind.rank lists_eq].
  - rewrite (bool_decide_eq_false_2 (CtUInt b = CtInt a)), andb_false_r by done. cbn. rewrite bi_compare_val, !bi_val_from.
    by apply Z.compare_lt_iff in Hab as ->.
  - rewrite (bool_decide_eq_false_2 (CtInt a = v)), andb_false_r by (by intros <-). cbn.
    unfold constant_order. rewrite Hv. cbn. by rewrite Hio.
  - rewrite (bool_decide_eq_false_2 (v = CtUInt b)), andb_false_r by (by intros ->). cbn.
    unfold constant_order. rewrite Hv. destruct v; cbn; by rewrite Hou.
Qed.
End cycle.

(** ** A language of integers *)

Inductive IntegerMeta : Type := MetaOf (d : IntDomain) | MetaBool | MetaType | MetaPop | MetaOther.

#[export] Instance IntegerMeta_eq_dec : EqDecision IntegerMeta.
Proof. solve_decision. Defined.

Notation Value := (CtValue unit Z Qcanon.Qc).
Notation Expr := (ParamExpr IntegerMeta Value unit).

Definition domain_text (d : IntDomain) : string :=
  match d with
  | Domain.Int => "Int" | Domain.UInt => "UInt" | Domain.IntStorage => "!kgen.scalar<index>"
  | Domain.UIntStorage => "!kgen.scalar<ui64>" | Domain.Index => "index" | Domain.Literal => "IntLiteral"
  end.

#[export] Instance integer_metas : MetaTypes IntegerMeta Value := {|
  domain_of m := match m with MetaOf d => Some d | _ => None end;
  domain_meta := MetaOf;
  domain_name := domain_text;
  meta_of_value v := match v with
    | CtInt _ => MetaOf Domain.Int | CtUInt _ => MetaOf Domain.UInt | CtIndex _ => MetaOf Domain.Index
    | CtIntLiteral _ => MetaOf Domain.Literal | CtBool _ => MetaBool | CtType _ => MetaType
    | CtPopIntLiteral _ => MetaPop | _ => MetaOther end;
  meta_bool := MetaBool;
  meta_type := MetaType;
  is_literal m := bool_decide (m = MetaOf Domain.Literal);
  is_scalar_domain m := match m with MetaOf _ | MetaBool => true | _ => false end;
  pop_literal m := match m with MetaPop => Some false | _ => None end;
|}.

#[export] Instance integer_rendering : Rendering IntegerMeta Expr := {|
  meta_string m := match m with
    | MetaOf d => domain_text d | MetaBool => "Bool" | MetaType => "Type"
    | MetaPop => "!pop.int_literal" | MetaOther => "SIMD[DType.int8, 1]" end;
  node_string _ := "";
  fingerprint _ := 0;
|}.

#[export] Instance integer_attributes : Attributes IntegerMeta Value Expr := {|
  literal_node_meta _ _ := MetaOf Domain.Literal;
  literal_at_value e _ := e;
  ct_value_is_symbolic _ := false;
  value_string _ := "";
  build_attribute _ _ := Err (Unsupported "not in this language");
|}.

#[export] Existing Instances Z_floats no_types.

#[export] Instance integer_domain_metas d : DomainMetas (T:=unit) (R:=Qcanon.Qc) (B:=Z) (M:=IntegerMeta) d.
Proof. split; [by destruct d|by destruct d|by intros []]. Qed.

Definition slot_name (i : ParamId) : string := i.(owner).

Lemma parameter_domain e :
  reference (T:=unit) (B:=Z) (R:=Qcanon.Qc) (λ _, MetaOf Domain.Int) slot_name e → domain_of (meta e) = Some Domain.Int.
Proof. by intros [i ->]. Qed.

Definition parameter (n : nat) : Expr := declared (λ _, MetaOf Domain.Int) slot_name (mkId "f" n).
Definition x : RingExpr Expr := RAtom (parameter 0).
Definition y : RingExpr Expr := RAtom (parameter 1).

(** [(x + y) * (x - y)] and [x * x - y * y]. *)
Definition product_of_sums : RingExpr Expr := RMul (RAdd x y) (RSub x y).
Definition difference_of_squares : RingExpr Expr := RSub (RMul x x) (RMul y y).

Notation is_parameter := (reference (T:=unit) (B:=Z) (R:=Qcanon.Qc) (λ _, MetaOf Domain.Int) slot_name).

Lemma product_of_sums_parameters : Forall is_parameter (atoms_of product_of_sums).
Proof. repeat constructor; by eexists. Qed.
Lemma difference_of_squares_parameters : Forall is_parameter (atoms_of difference_of_squares).
Proof. repeat constructor; by eexists. Qed.

(** Both are built as [x * x + -1 * y * y], so the laws make them equal. *)
Lemma ring_nodes_identical_witness : ring_eq Domain.Int product_of_sums difference_of_squares.
Proof.
  assert (∃ n, build Domain.Int product_of_sums = Ok n ∧ build Domain.Int difference_of_squares = Ok n) as (n & H1 & H2).
  { eexists. split; vm_compute; reflexivity. }
  exact (proj1 (ring_nodes_identical Domain.Int is_parameter parameter_domain (reference_atomic _ _) (reference_total _ _)
    _ _ n n product_of_sums_parameters difference_of_squares_parameters H1 H2) (node_eq_refl n)).
Defined.



Lemma ring_node_rebuilt_witness :
  ∃ n : Expr, build Domain.Int product_of_sums = Ok n ∧ rebuild Param.Add (operands n) = Ok n.
Proof.
  assert (∃ n : Expr, build Domain.Int product_of_sums = Ok n ∧ ring_kind n = Some true) as (n & Hn & Hs)
    by (eexists; split; vm_compute; reflexivity).
  exists n. split; [exact Hn|].
  exact (ring_node_rebuilt Domain.Int is_parameter parameter_domain (reference_atomic _ _) (reference_total _ _)
    product_of_sums n true product_of_sums_parameters Hn Hs).
Defined.

(** [UInt 3], [Int 5] and a byte. *)
Lemma order_cycle_witness :
  let byte := constant_node MetaOther (CtSimd DInt8 [LInt 4]) : Expr in
  let three := constant_node (MetaOf Domain.UInt) (CtUInt 3) : Expr in
  let five := constant_node (MetaOf Domain.Int) (CtInt 5) : Expr in
  cmp three five = Lt ∧ cmp five byte = Lt ∧ cmp byte three = Lt.
Proof.
  exact (order_cycle (MetaOf Domain.Int) MetaOther (MetaOf Domain.UInt) (CtSimd DInt8 [LInt 4]) 5 3
    eq_refl eq_refl eq_refl eq_refl).
Defined.

(** ** Propositions *)

Definition proposition (n : nat) : Expr := declared (λ _, MetaBool) slot_name (mkId "f" n).
Definition p : Expr := proposition 0.
Definition q : Expr := proposition 1.

(** The first parameter holds. *)
Definition first_holds (e : Expr) : bool :=
  match kind e with Kind.DeclRef r => bool_decide (slot r.(id) = 0%nat) | _ => false end.

Lemma first_holds_respects : respects first_holds.
Proof.
  intros [m k l] [m' k' l'] H. cbn [node_eq] in H. apply andb_true_iff in H as [H _]. apply andb_true_iff in H as [_ H].
  destruct k, k'; try done. unfold first_holds. cbn in *. by apply bool_decide_eq_true in H as ->.
Qed.

(** [p ^ q ^ p] is built as [q]. *)
Lemma connective_value_witness :
  ∃ n : Expr, op Param.BoolXor [p; q; p] = Ok n ∧ truth first_holds n = truths first_holds Param.BoolXor [p; q; p].
Proof.
  assert (∃ n : Expr, op Param.BoolXor [p; q; p] = Ok n) as (n & Hn) by (eexists; vm_compute; reflexivity).
  exists n. split; [exact Hn|].
  pose proof (connective_value first_holds Param.BoolXor [p; q; p] first_holds_respects (or_intror (or_intror eq_refl))) as H.
  rewrite Hn in H. exact H.
Defined.

Notation is_proposition := (reference (T:=unit) (B:=Z) (R:=Qcanon.Qc) (λ _, MetaBool) slot_name).

(** [(q and p) and q] and [p and q]. *)
Lemma connective_identical_witness :
  op Param.BoolAnd [Node MetaBool (Kind.Op Param.BoolAnd) [q; p]; q] = op Param.BoolAnd [p; q].
Proof.
  apply (connective_identical is_proposition Param.BoolAnd _ [p; q]);
    [by left|cbn; lia|cbn; lia|by repeat constructor|by repeat constructor|done| |].
  - repeat constructor; by eexists.
  - intros n. change (n ∈ [q; p; q] ↔ n ∈ [p; q]). rewrite !elem_of_cons. tauto.
Defined.

(** ** Comparisons *)

