(* ===== verification/Ast.v ===== *)
(** * Ast: the syntax tree (mojito-ast, [ast.rs])

    What the parser builds.  An expression, statement, pattern or target
    carries the byte range it was read from.  Left out of a node are its
    occurrence identity, which is drawn fresh from a counter and which equality
    ignores, and the module that linking stamps on it; left out of a method is
    where it came from, which the parser never sets. *)

From S2P Require Import Prelude Text Literal Token Dtypes.

Inductive ParamKind : Type := Regular | Variadic | KwVariadic.
Inductive ArgConvention : Type := CImm | CMut | CVar | COut | CRef | CDeinit.
Inductive BindingMode : Type := BindImmutable | BindVar | BindRef.
Inductive CollectionKind : Type := CollectionList | CollectionSet | CollectionDict.
Inductive CaptureKind : Type := CaptureImm | CaptureMut | CaptureRef | CaptureCopy | CaptureMove.

#[export] Instance ParamKind_eq_dec : EqDecision ParamKind.
Proof. solve_decision. Defined.
#[export] Instance ArgConvention_eq_dec : EqDecision ArgConvention.
Proof. solve_decision. Defined.
#[export] Instance BindingMode_eq_dec : EqDecision BindingMode.
Proof. solve_decision. Defined.

Record Capture : Type := mkCapture { capture_name : str; capture_kind : CaptureKind }.
Record CaptureList : Type := mkCaptures { entries : list Capture; default_capture : option CaptureKind }.
Record ImportName : Type := mkImport { import_name : str; import_alias : option str }.
Inductive ImportNames : Type := Wildcard | Names (names : list ImportName).

(** [CONTEXTUAL_SENTINEL] and [FORWARDED_KWARGS_NAME]. *)
Definition CONTEXTUAL_SENTINEL : str := lit "$contextual".
Definition FORWARDED_KWARGS_NAME : str := lit "**".

(** [canonical_destructor_name]. *)
Definition canonical_destructor_name (name : str) : str :=
  if bool_decide (name = lit "__del__") then lit "__deinit__" else name.

Section trees.
Context {B R : Type}.

Inductive Expr : Type := mkExpr (kind : ExprKind) (span : Span)
with ExprKind : Type :=
| EInt (v : IntLiteral B)
| EFloat (v : FloatLiteral R)
| EBool (b : bool)
| EStr (s : str)
| ENone
| EUninitialized
| EEmptySubscript
| EIdentifier (name : str)
| EIsRunInComptimeInterpreter
| ETypeValue (ty : SourceType)
| EPrefix (op : PrefixOp) (operand : Expr)
| EInfix (op : InfixOp) (lhs rhs : Expr)
| ECall (name : str) (param_args : list ParamArg) (args : list Expr) (kwargs : list KwArg)
| EInvoke (callee : Expr) (param_args : list ParamArg) (args : list Expr) (kwargs : list KwArg)
| EMember (object : Expr) (field : str)
| EMethodCall (object : Expr) (method : str) (args : list Expr) (kwargs : list KwArg)
| EIndex (object index : Expr)
| ETypeApply (name : str) (args : list ParamArg)
| ESpread (value : Expr)
| ETransfer (value : Expr)
| EListLit (items : list Expr)
| EBraceLit (items : list (Expr * option Expr))
| EInitializerList (args : list Expr) (kwargs : list KwArg)
| EComprehension (collection : CollectionKind) (key : option Expr) (value : Expr) (clauses : list ComprehensionClause)
| ELambda (def : Stmt)
| ETupleLit (items : list Expr)
| ENamed (target value : Expr)
| EIfExpr (cond then_branch else_branch : Expr)
| ECompare (first : Expr) (rest : list (InfixOp * Expr))
| ESlice (object : Expr) (lower upper step : option Expr)
| EMultiIndex (object : Expr) (args : list SubscriptArg)
| ETString (parts : list TStringPart) (raw : bool)
with KwArg : Type := mkKwArg (name : str) (value : Expr)
with SubscriptArg : Type :=
| SubIndex (value : Expr)
| SubKeyword (name : str) (value : Expr)
| SubSlice (lower upper step : option Expr)
| SubKeywordSlice (name : str) (lower upper step : option Expr)
with ComprehensionClause : Type :=
| ClauseFor (target : DestructureTarget) (iter : Expr) (unpack : option Stmt)
| ClauseIf (condition : Expr)
with TStringPart : Type := PartLiteral (text : str) | PartExpr (value : Expr)
with SourceType : Type :=
| TyNone
| TyNamed (name : str) (args : list ParamArg)
| TySelfParam (name : str)
| TyAssoc (base : SourceType) (name : str) (args : list ParamArg)
| TyIndexedProjection (base : SourceType) (index : Expr)
| TySelfType
| TyFunc (type_params : list TypeParam) (params : list FunctionTypeParam) (ret : SourceType) (thin raises : bool)
    (raises_type : option SourceType) (where_clauses : list Expr)
| TyRef (referent : SourceType) (origin : option (list Expr))
| TyTypeOf (operand : Expr)
| TyGenerator (params : list TypeParam) (result : SourceType)
| TyValue (value : Expr)
with FunctionTypeParam : Type :=
| mkFunctionTypeParam (name : option str) (kind : ParamKind) (convention : option ArgConvention)
    (origin : option (list Expr)) (ty : SourceType)
with ParamArg : Type := ArgType (ty : SourceType) | ArgValue (value : Expr) | ArgNamed (name : str) (value : ParamArg)
with TypeParam : Type :=
| mkTypeParam (name : str) (bounds : list str) (value_type callable_bound : option SourceType)
    (origin_mutability : option Expr) (infer_only : bool) (default : option Expr)
with FnParam : Type :=
| mkFnParam (name : str) (ty : SourceType) (default : option Expr) (kind : ParamKind)
    (convention : option ArgConvention) (origin : option (list Expr))
with Decorator : Type := mkDecorator (path : list str) (args : list Expr) (kwargs : list KwArg)
with DestructureTarget : Type := mkTarget (kind : DestructureTargetKind) (span : Span)
with DestructureTargetKind : Type :=
| TargetDiscard
| TargetDeclare (name : str) (mode : BindingMode)
| TargetPlace (place : Expr)
| TargetTuple (items : list DestructureTarget)
| TargetSequence (items : list SequenceTarget)
with SequenceTarget : Type := SequenceElement (target : DestructureTarget) | SequenceStar (target : DestructureTarget)
with MatchPattern : Type := mkPattern (kind : MatchPatternKind) (span : Span)
with MatchPatternKind : Type :=
| PatWildcard
| PatBind (name : str) (mode : BindingMode)
| PatLiteral (value : Expr) (spelling : option str)
| PatEqual (value : Expr) (spelling : option str)
| PatTuple (items : list MatchPattern)
| PatSequence (items : list SequencePattern)
| PatCall (head : Expr) (args : list MatchPattern) (kwargs : list (str * MatchPattern))
| PatHead (head : Expr)
| PatFields (fields : list (str * MatchPattern))
| PatOr (alternatives : list MatchPattern)
| PatAs (pattern : MatchPattern) (name : str)
with SequencePattern : Type := PatElement (pattern : MatchPattern) | PatStar (pattern : MatchPattern)
with MatchCase : Type := mkCase (pattern : MatchPattern) (guard : option Expr) (body : list Stmt) (span : Span)
with Condition : Type := CondExpr (value : Expr) | CondCase (pattern : MatchPattern) (value : Expr)
with WithItem : Type := mkWithItem (context : Expr) (var : option str)
with Stmt : Type := mkStmt (kind : StmtKind) (span : Span)
with StmtKind : Type :=
| SVarDecl (name : str) (ty : option SourceType) (value : Expr)
| SRefDecl (name : str) (value : Expr)
| SAssign (name : str) (value : Expr)
| SAugAssign (place : Expr) (op : InfixOp) (value : Expr)
| SDestructure (target : DestructureTarget) (value : Expr)
| SSetPlace (place value : Expr)
| SDef (name : str) (decorators : list Decorator) (type_params : list TypeParam) (params : list FnParam)
    (positional_only keyword_only : option nat) (captures : option CaptureList) (raises : bool)
    (raises_type ret : option SourceType) (where_clauses : list Expr) (body : list Stmt)
| SStruct (name : str) (decorators : list Decorator) (type_params : list TypeParam) (conforms : list str)
    (callable_conformance : option SourceType) (conformance_conditions : list (str * Expr)) (where_clauses : list Expr)
    (fields : list (str * SourceType)) (associated : list StructComptime) (methods : list Method)
    (fieldwise_init : bool) (enum_cases : option (list EnumCase))
| STrait (name : str) (refines : list str) (methods : list TraitMethod) (comptime_members : list TraitComptime)
| SComptime (name : str) (type_params : list TypeParam) (ty : option SourceType) (where_clauses : list Expr) (value : Expr)
| SComptimeIf (branches : list (Condition * list Stmt)) (orelse : option (list Stmt))
| SComptimeAssert (cond : Expr) (message : option Expr)
| SComptimeMatch (subject : Expr) (cases : list MatchCase)
| SComptimeFor (var : str) (iter : Expr) (body : list Stmt)
| SIf (branches : list (Condition * list Stmt)) (orelse : option (list Stmt))
| SWhile (cond : Condition) (body : list Stmt) (orelse : option (list Stmt))
| SMatch (subject : Expr) (cases : list MatchCase)
| SFor (target : DestructureTarget) (iter : Expr) (body : list Stmt) (orelse : option (list Stmt))
| SReturn (value : option Expr)
| SRaise (value : Expr)
| SImport (path : list str) (alias : option str)
| SFromImport (level : nat) (path : list str) (names : ImportNames)
| SWith (items : list WithItem) (body : list Stmt)
| STry (body : list Stmt) (except : option (option str * list Stmt)) (orelse finalbody : option (list Stmt))
| SScope (body : list Stmt)
| SPass
| SBreak
| SContinue
| SExpr (value : Expr)
with StructComptime : Type :=
| mkStructComptime (name : str) (params : list TypeParam) (ty : option SourceType) (where_clauses : list Expr) (value : Expr)
with TraitComptime : Type :=
| mkTraitComptime (name : str) (params : list TypeParam) (ty : SourceType) (where_clauses : list Expr) (default : option Expr)
with EnumCase : Type := mkEnumCase (name : str) (payload : list SourceType) (span : Span)
with Method : Type :=
| mkMethod (name : str) (type_params : list TypeParam) (has_self : bool) (self_convention : option ArgConvention)
    (self_origin : option (list Expr)) (self_type : option SourceType) (receiver_index : nat)
    (decorators : list Decorator) (params : list FnParam) (positional_only keyword_only : option nat)
    (raises : bool) (raises_type ret : option SourceType) (where_clauses : list Expr) (body : list Stmt)
with TraitMethod : Type :=
| mkTraitMethod (name : str) (decorators : list Decorator) (type_params : list TypeParam)
    (self_convention : option ArgConvention) (self_origin : option (list Expr)) (self_type : option SourceType)
    (params : list FnParam) (positional_only keyword_only : option nat) (raises : bool)
    (raises_type ret : option SourceType) (where_clauses : list Expr) (default_body : option (list Stmt)).
End trees.

Arguments Expr : clear implicits.
Arguments ExprKind : clear implicits.
Arguments KwArg : clear implicits.
Arguments SubscriptArg : clear implicits.
Arguments ComprehensionClause : clear implicits.
Arguments TStringPart : clear implicits.
Arguments SourceType : clear implicits.
Arguments FunctionTypeParam : clear implicits.
Arguments ParamArg : clear implicits.
Arguments TypeParam : clear implicits.
Arguments FnParam : clear implicits.
Arguments Decorator : clear implicits.
Arguments DestructureTarget : clear implicits.
Arguments DestructureTargetKind : clear implicits.
Arguments SequenceTarget : clear implicits.
Arguments MatchPattern : clear implicits.
Arguments MatchPatternKind : clear implicits.
Arguments SequencePattern : clear implicits.
Arguments MatchCase : clear implicits.
Arguments Condition : clear implicits.
Arguments WithItem : clear implicits.
Arguments Stmt : clear implicits.
Arguments StmtKind : clear implicits.
Arguments StructComptime : clear implicits.
Arguments TraitComptime : clear implicits.
Arguments EnumCase : clear implicits.
Arguments Method : clear implicits.
Arguments TraitMethod : clear implicits.
