(* ===== verification/AstWalk.v ===== *)
(** * AstWalk: the read-only traversal of the tree (mojito-ast, [visit.rs])

    What a walk reports, in its order: a node before its children, the children
    as the walk visits them.  A visitor that enters every scope sees this
    sequence; the calls that ask whether to enter one are left out. *)

From S2P Require Import Prelude Text Literal Token Dtypes Ast.

Section walk.
Context {B R : Type}.
Notation Expr := (Expr B R).
Notation SourceType := (SourceType B R).
Notation MatchPattern := (MatchPattern B R).
Notation DestructureTarget := (DestructureTarget B R).
Notation Stmt := (Stmt B R).

Inductive visit : Type :=
| VisitStmt (s : Stmt)
| VisitExpr (e : Expr)
| VisitType (t : SourceType)
| VisitPattern (p : MatchPattern)
| VisitTarget (t : DestructureTarget).

Definition walk_option {A} (f : A → list visit) (o : option A) : list visit :=
  match o with Some a => f a | None => [] end.

Fixpoint walk_stmt (statement : Stmt) : list visit :=
  let 'mkStmt kind _ := statement in
  VisitStmt statement ::
  match kind with
  | SVarDecl _ ty value => walk_option walk_type ty ++ walk_expr value
  | SRefDecl _ value | SAssign _ value | SRaise value | SReturn (Some value) | SExpr value => walk_expr value
  | SSetPlace place value | SAugAssign place _ value => walk_expr place ++ walk_expr value
  | SDestructure target value => walk_target target ++ walk_expr value
  | SMatch subject cases | SComptimeMatch subject cases => walk_expr subject ++ flat_map walk_case cases
  | SDef _ decorators type_params params _ _ _ _ raises_type ret where_clauses body =>
      flat_map walk_decorator decorators ++ flat_map walk_type_param type_params ++ flat_map walk_fn_param params ++
      walk_option walk_type raises_type ++ walk_option walk_type ret ++ flat_map walk_expr where_clauses ++
      flat_map walk_stmt body
  | SStruct _ decorators type_params _ callable_conformance conformance_conditions where_clauses fields associated
      methods _ enum_cases =>
      flat_map walk_decorator decorators ++ flat_map walk_type_param type_params ++
      walk_option walk_type callable_conformance ++ flat_map (λ '(_, condition), walk_expr condition) conformance_conditions ++
      flat_map walk_expr where_clauses ++ flat_map (λ '(_, ty), walk_type ty) fields ++
      walk_option (flat_map walk_enum_case) enum_cases ++ flat_map walk_struct_comptime associated ++
      flat_map walk_method methods
  | STrait _ _ methods comptime_members => flat_map walk_trait_method methods ++ flat_map walk_trait_comptime comptime_members
  | SComptime _ type_params ty where_clauses value =>
      flat_map walk_type_param type_params ++ walk_option walk_type ty ++ flat_map walk_expr where_clauses ++ walk_expr value
  | SIf branches orelse | SComptimeIf branches orelse =>
      flat_map (λ '(condition, body), walk_condition condition ++ flat_map walk_stmt body) branches ++
      walk_option (flat_map walk_stmt) orelse
  | SWhile cond body orelse =>
      walk_condition cond ++ flat_map walk_stmt body ++ walk_option (flat_map walk_stmt) orelse
  | SComptimeAssert cond message => walk_expr cond ++ walk_option walk_expr message
  | SScope body => flat_map walk_stmt body
  | SFor target iter body orelse =>
      walk_expr iter ++ walk_target target ++ flat_map walk_stmt body ++ walk_option (flat_map walk_stmt) orelse
  | SComptimeFor _ iter body => walk_expr iter ++ flat_map walk_stmt body
  | SWith items body => flat_map (λ '(mkWithItem context _), walk_expr context) items ++ flat_map walk_stmt body
  | STry body except orelse finalbody =>
      flat_map walk_stmt body ++ walk_option (λ '(_, body), flat_map walk_stmt body) except ++
      walk_option (flat_map walk_stmt) orelse ++ walk_option (flat_map walk_stmt) finalbody
  | SReturn None | SImport _ _ | SFromImport _ _ _ | SPass | SBreak | SContinue => []
  end
with walk_condition (condition : Condition B R) : list visit :=
  match condition with
  | CondExpr value => walk_expr value
  | CondCase pattern value => walk_expr value ++ walk_pattern pattern
  end
with walk_case (case : MatchCase B R) : list visit :=
  let 'mkCase pattern guard body _ := case in
  walk_pattern pattern ++ walk_option walk_expr guard ++ flat_map walk_stmt body
with walk_pattern (pattern : MatchPattern) : list visit :=
  let 'mkPattern kind _ := pattern in
  VisitPattern pattern ::
  match kind with
  | PatLiteral value _ | PatEqual value _ | PatHead value => walk_expr value
  | PatAs pattern _ => walk_pattern pattern
  | PatTuple items | PatOr items => flat_map walk_pattern items
  | PatSequence items => flat_map (λ item, match item with PatElement p | PatStar p => walk_pattern p end) items
  | PatCall head args kwargs =>
      walk_expr head ++ flat_map walk_pattern args ++ flat_map (λ '(_, pattern), walk_pattern pattern) kwargs
  | PatFields fields => flat_map (λ '(_, pattern), walk_pattern pattern) fields
  | PatWildcard | PatBind _ _ => []
  end
with walk_target (target : DestructureTarget) : list visit :=
  let 'mkTarget kind _ := target in
  VisitTarget target ::
  match kind with
  | TargetPlace place => walk_expr place
  | TargetTuple items => flat_map walk_target items
  | TargetSequence items =>
      flat_map (λ item, match item with SequenceElement target | SequenceStar target => walk_target target end) items
  | TargetDiscard | TargetDeclare _ _ => []
  end
with walk_expr (expression : Expr) : list visit :=
  let 'mkExpr kind _ := expression in
  VisitExpr expression ::
  match kind with
  | EPrefix _ value | ETransfer value | ESpread value | EMember value _ => walk_expr value
  | EInfix _ lhs rhs | EIndex lhs rhs => walk_expr lhs ++ walk_expr rhs
  | ECall _ param_args args kwargs => flat_map walk_param_arg param_args ++ flat_map walk_expr args ++ flat_map walk_kwarg kwargs
  | EInvoke callee param_args args kwargs =>
      walk_expr callee ++ flat_map walk_param_arg param_args ++ flat_map walk_expr args ++ flat_map walk_kwarg kwargs
  | EMethodCall object _ args kwargs => walk_expr object ++ flat_map walk_expr args ++ flat_map walk_kwarg kwargs
  | ETypeApply _ args => flat_map walk_param_arg args
  | EInitializerList args kwargs => flat_map walk_expr args ++ flat_map walk_kwarg kwargs
  | EListLit values | ETupleLit values => flat_map walk_expr values
  | EBraceLit entries => flat_map (λ '(key, value), walk_expr key ++ walk_option walk_expr value) entries
  | EComprehension _ key value clauses =>
      flat_map walk_clause clauses ++ walk_option walk_expr key ++ walk_expr value
  | ELambda def => walk_stmt def
  | ENamed target value => walk_expr target ++ walk_expr value
  | EIfExpr cond then_branch else_branch => walk_expr cond ++ walk_expr then_branch ++ walk_expr else_branch
  | ECompare first rest => walk_expr first ++ flat_map (λ '(_, value), walk_expr value) rest
  | ESlice object lower upper step =>
      walk_expr object ++ walk_option walk_expr lower ++ walk_option walk_expr upper ++ walk_option walk_expr step
  | EMultiIndex object args => walk_expr object ++ flat_map walk_subscript args
  | ETString parts _ => flat_map (λ part, match part with PartExpr value => walk_expr value | PartLiteral _ => [] end) parts
  | ETypeValue ty => walk_type ty
  | EInt _ | EFloat _ | EBool _ | EStr _ | ENone | EUninitialized | EEmptySubscript | EIsRunInComptimeInterpreter
  | EIdentifier _ => []
  end
with walk_kwarg (argument : KwArg B R) : list visit := let 'mkKwArg _ value := argument in walk_expr value
with walk_clause (clause : ComprehensionClause B R) : list visit :=
  match clause with
  | ClauseFor target iter unpack => walk_expr iter ++ walk_target target ++ walk_option walk_stmt unpack
  | ClauseIf condition => walk_expr condition
  end
with walk_subscript (argument : SubscriptArg B R) : list visit :=
  match argument with
  | SubIndex value | SubKeyword _ value => walk_expr value
  | SubSlice lower upper step | SubKeywordSlice _ lower upper step =>
      walk_option walk_expr lower ++ walk_option walk_expr upper ++ walk_option walk_expr step
  end
with walk_type (ty : SourceType) : list visit :=
  VisitType ty ::
  match ty with
  | TyNamed _ arguments => flat_map walk_param_arg arguments
  | TyAssoc base _ args => walk_type base ++ flat_map walk_param_arg args
  | TyIndexedProjection base index => walk_type base ++ walk_expr index
  | TyTypeOf operand | TyValue operand => walk_expr operand
  | TyGenerator params result => flat_map walk_type_param params ++ walk_type result
  | TyFunc type_params params ret _ _ raises_type where_clauses =>
      flat_map walk_type_param type_params ++ flat_map walk_function_type_param params ++ walk_type ret ++
      walk_option walk_type raises_type ++ flat_map walk_expr where_clauses
  | TyRef referent origin => walk_type referent ++ walk_option (flat_map walk_expr) origin
  | TyNone | TySelfParam _ | TySelfType => []
  end
with walk_param_arg (argument : ParamArg B R) : list visit :=
  match argument with
  | ArgType ty => walk_type ty
  | ArgValue value => walk_expr value
  | ArgNamed _ value => walk_param_arg value
  end
with walk_type_param (parameter : TypeParam B R) : list visit :=
  let 'mkTypeParam _ _ value_type callable_bound origin_mutability _ default := parameter in
  walk_option walk_type value_type ++ walk_option walk_type callable_bound ++ walk_option walk_expr origin_mutability ++
  walk_option walk_expr default
with walk_fn_param (parameter : FnParam B R) : list visit :=
  let 'mkFnParam _ ty default _ _ origin := parameter in
  walk_type ty ++ walk_option (flat_map walk_expr) origin ++ walk_option walk_expr default
with walk_function_type_param (parameter : FunctionTypeParam B R) : list visit :=
  let 'mkFunctionTypeParam _ _ _ origin ty := parameter in walk_type ty ++ walk_option (flat_map walk_expr) origin
with walk_decorator (decorator : Decorator B R) : list visit :=
  let 'mkDecorator _ args kwargs := decorator in flat_map walk_expr args ++ flat_map walk_kwarg kwargs
with walk_enum_case (case : EnumCase B R) : list visit := let 'mkEnumCase _ payload _ := case in flat_map walk_type payload
with walk_struct_comptime (member : StructComptime B R) : list visit :=
  let 'mkStructComptime _ params ty where_clauses value := member in
  flat_map walk_type_param params ++ walk_option walk_type ty ++ flat_map walk_expr where_clauses ++ walk_expr value
with walk_method (method : Method B R) : list visit :=
  let 'mkMethod _ type_params _ _ self_origin self_type _ decorators params _ _ _ raises_type ret where_clauses body := method in
  flat_map walk_decorator decorators ++ flat_map walk_type_param type_params ++
  walk_option (flat_map walk_expr) self_origin ++ flat_map walk_fn_param params ++ walk_option walk_type raises_type ++
  walk_option walk_type ret ++ walk_option walk_type self_type ++ flat_map walk_expr where_clauses ++ flat_map walk_stmt body
with walk_trait_method (method : TraitMethod B R) : list visit :=
  let 'mkTraitMethod _ decorators type_params _ self_origin self_type params _ _ _ raises_type ret where_clauses body := method in
  flat_map walk_decorator decorators ++ flat_map walk_type_param type_params ++
  walk_option (flat_map walk_expr) self_origin ++ flat_map walk_fn_param params ++ walk_option walk_type raises_type ++
  walk_option walk_type ret ++ walk_option walk_type self_type ++ flat_map walk_expr where_clauses ++
  walk_option (flat_map walk_stmt) body
with walk_trait_comptime (member : TraitComptime B R) : list visit :=
  let 'mkTraitComptime _ params ty where_clauses default := member in
  flat_map walk_type_param params ++ walk_type ty ++ flat_map walk_expr where_clauses ++ walk_option walk_expr default.

Definition walk_block : list Stmt → list visit := flat_map walk_stmt.
End walk.
