(* ===== verification/AstRewrite.v ===== *)
(** * AstRewrite: the rewriting traversal of the tree (mojito-ast, [visit.rs])

    The [walk_*_mut] functions rewrite a tree in place.  A visitor is a record
    of callbacks over a state; a statement is handed to it before its children
    are walked, so that a walk goes on in what the visitor made of it, and
    every other node after them.  A callback may put anything in a node's
    place, so the walks have fuel, a bound on the nesting of nodes.

    A visitor that only relocates nodes is an instance of [Tracks].  Against
    that interface the walk is compared with the read-only one of [AstWalk]. *)

From S2P Require Import Prelude Text Literal Token Dtypes Ast AstWalk.

(** ** Walks over a visitor's state *)

(** [None] is the end of the fuel. *)
Definition W (St A : Type) : Type := St → option (A * St).

#[export] Instance W_ret St : MRet (W St) := λ A a s, Some (a, s).
#[export] Instance W_bind St : MBind (W St) := λ A A' f m s, '(a, s) ← m s; f a s.
#[export] Instance W_fmap St : FMap (W St) := λ A A' f m, a ← m; mret (f a).

Section walks.
Context {B R St : Type}.
Notation Expr := (Expr B R).
Notation SourceType := (SourceType B R).
Notation MatchPattern := (MatchPattern B R).
Notation DestructureTarget := (DestructureTarget B R).
Notation Stmt := (Stmt B R).
Notation W := (W St).

(** [MutVisitor]. *)
Record MutVisitor : Type := mkVisitor {
  visit_stmt_mut : Stmt → St → Stmt * St;
  visit_expr_mut : Expr → St → Expr * St;
  visit_type_mut : SourceType → St → SourceType * St;
  visit_pattern_mut : MatchPattern → St → MatchPattern * St;
  visit_target_mut : DestructureTarget → St → DestructureTarget * St;
  visit_type_param_mut : TypeParam B R → St → TypeParam B R * St;
}.

(** The walks of the five sorts of node that nest. *)
Record Walks : Type := mkWalks {
  walk_stmt_mut : Stmt → W Stmt;
  walk_expr_mut : Expr → W Expr;
  walk_type_mut : SourceType → W SourceType;
  walk_pattern_mut : MatchPattern → W MatchPattern;
  walk_target_mut : DestructureTarget → W DestructureTarget;
}.

Definition walk_some {A} (f : A → W A) (o : option A) : W (option A) :=
  match o with Some a => Some <$> f a | None => mret None end.

(** The second of a pair. *)
Definition walk_second {K A} (f : A → W A) (entry : K * A) : W (K * A) := a ← f entry.2; mret (entry.1, a).

Definition callback {A} (f : A → St → A * St) (a : A) : W A := λ s, Some (f a s).

Section over.
Context (visitor : MutVisitor) (w : Walks).

Definition walk_block_mut : list Stmt → W (list Stmt) := mapM w.(walk_stmt_mut).
Definition walk_exprs_mut : list Expr → W (list Expr) := mapM w.(walk_expr_mut).

Fixpoint walk_param_arg_mut (argument : ParamArg B R) : W (ParamArg B R) :=
  match argument with
  | ArgType ty => ArgType <$> w.(walk_type_mut) ty
  | ArgValue value => ArgValue <$> w.(walk_expr_mut) value
  | ArgNamed name value => ArgNamed name <$> walk_param_arg_mut value
  end.
Definition walk_param_args_mut : list (ParamArg B R) → W (list (ParamArg B R)) := mapM walk_param_arg_mut.

Definition walk_type_param_mut (param : TypeParam B R) : W (TypeParam B R) :=
  '(mkTypeParam name bounds value_type callable_bound origin_mutability infer_only default) ←
    callback visitor.(visit_type_param_mut) param;
  value_type ← walk_some w.(walk_type_mut) value_type;
  callable_bound ← walk_some w.(walk_type_mut) callable_bound;
  origin_mutability ← walk_some w.(walk_expr_mut) origin_mutability;
  default ← walk_some w.(walk_expr_mut) default;
  mret (mkTypeParam name bounds value_type callable_bound origin_mutability infer_only default).
Definition walk_type_params_mut : list (TypeParam B R) → W (list (TypeParam B R)) := mapM walk_type_param_mut.

Definition walk_fn_param_mut (param : FnParam B R) : W (FnParam B R) :=
  let 'mkFnParam name ty default kind convention origin := param in
  ty ← w.(walk_type_mut) ty;
  default ← walk_some w.(walk_expr_mut) default;
  mret (mkFnParam name ty default kind convention origin).

Definition walk_kwarg_mut (arg : KwArg B R) : W (KwArg B R) :=
  let 'mkKwArg name value := arg in mkKwArg name <$> w.(walk_expr_mut) value.

Definition walk_decorator_mut (decorator : Decorator B R) : W (Decorator B R) :=
  let 'mkDecorator path args kwargs := decorator in
  args ← walk_exprs_mut args; kwargs ← mapM walk_kwarg_mut kwargs; mret (mkDecorator path args kwargs).
Definition walk_decorators_mut : list (Decorator B R) → W (list (Decorator B R)) := mapM walk_decorator_mut.

Definition walk_enum_case_mut (case : EnumCase B R) : W (EnumCase B R) :=
  let 'mkEnumCase name payload span := case in
  payload ← mapM w.(walk_type_mut) payload; mret (mkEnumCase name payload span).
Definition walk_enum_cases_mut : option (list (EnumCase B R)) → W (option (list (EnumCase B R))) :=
  walk_some (mapM walk_enum_case_mut).

Definition walk_method_mut (method : Method B R) : W (Method B R) :=
  let 'mkMethod name type_params has_self self_convention self_origin self_type receiver_index decorators params
    positional_only keyword_only raises raises_type ret where_clauses body := method in
  type_params ← walk_type_params_mut type_params;
  self_origin ← walk_some walk_exprs_mut self_origin;
  params ← mapM walk_fn_param_mut params;
  raises_type ← walk_some w.(walk_type_mut) raises_type;
  ret ← walk_some w.(walk_type_mut) ret;
  self_type ← walk_some w.(walk_type_mut) self_type;
  where_clauses ← walk_exprs_mut where_clauses;
  decorators ← walk_decorators_mut decorators;
  body ← walk_block_mut body;
  mret (mkMethod name type_params has_self self_convention self_origin self_type receiver_index decorators params
    positional_only keyword_only raises raises_type ret where_clauses body).

Definition walk_trait_method_mut (method : TraitMethod B R) : W (TraitMethod B R) :=
  let 'mkTraitMethod name decorators type_params self_convention self_origin self_type params positional_only
    keyword_only raises raises_type ret where_clauses default_body := method in
  type_params ← walk_type_params_mut type_params;
  self_origin ← walk_some walk_exprs_mut self_origin;
  params ← mapM walk_fn_param_mut params;
  raises_type ← walk_some w.(walk_type_mut) raises_type;
  ret ← walk_some w.(walk_type_mut) ret;
  self_type ← walk_some w.(walk_type_mut) self_type;
  where_clauses ← walk_exprs_mut where_clauses;
  decorators ← walk_decorators_mut decorators;
  default_body ← walk_some walk_block_mut default_body;
  mret (mkTraitMethod name decorators type_params self_convention self_origin self_type params positional_only
    keyword_only raises raises_type ret where_clauses default_body).

(** The loops over the members of a struct and of a trait. *)
Definition walk_associated_mut (member : StructComptime B R) : W (StructComptime B R) :=
  let 'mkStructComptime name params ty where_clauses value := member in
  params ← walk_type_params_mut params;
  ty ← walk_some w.(walk_type_mut) ty;
  where_clauses ← walk_exprs_mut where_clauses;
  value ← w.(walk_expr_mut) value;
  mret (mkStructComptime name params ty where_clauses value).

Definition walk_comptime_member_mut (member : TraitComptime B R) : W (TraitComptime B R) :=
  let 'mkTraitComptime name params ty where_clauses default := member in
  params ← walk_type_params_mut params;
  ty ← w.(walk_type_mut) ty;
  where_clauses ← walk_exprs_mut where_clauses;
  default ← walk_some w.(walk_expr_mut) default;
  mret (mkTraitComptime name params ty where_clauses default).

Definition walk_condition_mut (condition : Condition B R) : W (Condition B R) :=
  match condition with
  | CondExpr value => CondExpr <$> w.(walk_expr_mut) value
  | CondCase pattern value =>
      pattern ← w.(walk_pattern_mut) pattern; value ← w.(walk_expr_mut) value; mret (CondCase pattern value)
  end.

Definition walk_branch_mut (branch : Condition B R * list Stmt) : W (Condition B R * list Stmt) :=
  condition ← walk_condition_mut branch.1; block ← walk_block_mut branch.2; mret (condition, block).

Definition walk_case_mut (case : MatchCase B R) : W (MatchCase B R) :=
  let 'mkCase pattern guard body span := case in
  pattern ← w.(walk_pattern_mut) pattern;
  guard ← walk_some w.(walk_expr_mut) guard;
  body ← walk_block_mut body;
  mret (mkCase pattern guard body span).

Definition walk_with_item_mut (item : WithItem B R) : W (WithItem B R) :=
  let 'mkWithItem context var := item in context ← w.(walk_expr_mut) context; mret (mkWithItem context var).

(** ** Statements *)

Definition stmt_children_mut (kind : StmtKind B R) : W (StmtKind B R) :=
  match kind with
  | SVarDecl name ty value =>
      ty ← walk_some w.(walk_type_mut) ty; value ← w.(walk_expr_mut) value; mret (SVarDecl name ty value)
  | SRefDecl name value => SRefDecl name <$> w.(walk_expr_mut) value
  | SAssign name value => SAssign name <$> w.(walk_expr_mut) value
  | SRaise value => SRaise <$> w.(walk_expr_mut) value
  | SReturn (Some value) => SReturn ∘ Some <$> w.(walk_expr_mut) value
  | SExpr value => SExpr <$> w.(walk_expr_mut) value
  | SSetPlace place value =>
      place ← w.(walk_expr_mut) place; value ← w.(walk_expr_mut) value; mret (SSetPlace place value)
  | SAugAssign place op value =>
      place ← w.(walk_expr_mut) place; value ← w.(walk_expr_mut) value; mret (SAugAssign place op value)
  | SComptime name type_params ty where_clauses value =>
      type_params ← walk_type_params_mut type_params;
      ty ← walk_some w.(walk_type_mut) ty;
      where_clauses ← walk_exprs_mut where_clauses;
      value ← w.(walk_expr_mut) value;
      mret (SComptime name type_params ty where_clauses value)
  | SDestructure target value =>
      target ← w.(walk_target_mut) target; value ← w.(walk_expr_mut) value; mret (SDestructure target value)
  | SMatch subject cases =>
      subject ← w.(walk_expr_mut) subject; cases ← mapM walk_case_mut cases; mret (SMatch subject cases)
  | SComptimeMatch subject cases =>
      subject ← w.(walk_expr_mut) subject; cases ← mapM walk_case_mut cases; mret (SComptimeMatch subject cases)
  | SIf branches orelse =>
      branches ← mapM walk_branch_mut branches; orelse ← walk_some walk_block_mut orelse; mret (SIf branches orelse)
  | SComptimeIf branches orelse =>
      branches ← mapM walk_branch_mut branches; orelse ← walk_some walk_block_mut orelse; mret (SComptimeIf branches orelse)
  | SWhile cond body orelse =>
      cond ← walk_condition_mut cond; body ← walk_block_mut body; orelse ← walk_some walk_block_mut orelse;
      mret (SWhile cond body orelse)
  | SComptimeAssert cond message =>
      cond ← w.(walk_expr_mut) cond; message ← walk_some w.(walk_expr_mut) message; mret (SComptimeAssert cond message)
  | SScope body => SScope <$> walk_block_mut body
  | SFor target iter body orelse =>
      iter ← w.(walk_expr_mut) iter; target ← w.(walk_target_mut) target; body ← walk_block_mut body;
      mret (SFor target iter body orelse)
  | SComptimeFor var iter body =>
      iter ← w.(walk_expr_mut) iter; body ← walk_block_mut body; mret (SComptimeFor var iter body)
  | SWith items body =>
      items ← mapM walk_with_item_mut items; body ← walk_block_mut body; mret (SWith items body)
  | STry body except orelse finalbody =>
      body ← walk_block_mut body;
      except ← walk_some (walk_second walk_block_mut) except;
      orelse ← walk_some walk_block_mut orelse;
      finalbody ← walk_some walk_block_mut finalbody;
      mret (STry body except orelse finalbody)
  | SDef name decorators type_params params positional_only keyword_only captures raises raises_type ret where_clauses body =>
      type_params ← walk_type_params_mut type_params;
      params ← mapM walk_fn_param_mut params;
      raises_type ← walk_some w.(walk_type_mut) raises_type;
      ret ← walk_some w.(walk_type_mut) ret;
      where_clauses ← walk_exprs_mut where_clauses;
      decorators ← walk_decorators_mut decorators;
      body ← walk_block_mut body;
      mret (SDef name decorators type_params params positional_only keyword_only captures raises raises_type ret
        where_clauses body)
  | SStruct name decorators type_params conforms callable_conformance conformance_conditions where_clauses fields
      associated methods fieldwise_init enum_cases =>
      type_params ← walk_type_params_mut type_params;
      callable_conformance ← walk_some w.(walk_type_mut) callable_conformance;
      where_clauses ← walk_exprs_mut where_clauses;
      conformance_conditions ← mapM (walk_second w.(walk_expr_mut)) conformance_conditions;
      fields ← mapM (walk_second w.(walk_type_mut)) fields;
      enum_cases ← walk_enum_cases_mut enum_cases;
      associated ← mapM walk_associated_mut associated;
      decorators ← walk_decorators_mut decorators;
      methods ← mapM walk_method_mut methods;
      mret (SStruct name decorators type_params conforms callable_conformance conformance_conditions where_clauses
        fields associated methods fieldwise_init enum_cases)
  | STrait name refines methods comptime_members =>
      methods ← mapM walk_trait_method_mut methods;
      comptime_members ← mapM walk_comptime_member_mut comptime_members;
      mret (STrait name refines methods comptime_members)
  | SReturn None | SImport _ _ | SFromImport _ _ _ | SPass | SBreak | SContinue => mret kind
  end.

Definition walk_stmt_step (statement : Stmt) : W Stmt :=
  '(mkStmt kind span) ← callback visitor.(visit_stmt_mut) statement;
  kind ← stmt_children_mut kind;
  mret (mkStmt kind span).

(** ** Patterns and targets *)

Definition walk_sequence_pattern_mut (item : SequencePattern B R) : W (SequencePattern B R) :=
  match item with
  | PatElement pattern => PatElement <$> w.(walk_pattern_mut) pattern
  | PatStar pattern => PatStar <$> w.(walk_pattern_mut) pattern
  end.

Definition pattern_children_mut (kind : MatchPatternKind B R) : W (MatchPatternKind B R) :=
  match kind with
  | PatLiteral value spelling => value ← w.(walk_expr_mut) value; mret (PatLiteral value spelling)
  | PatEqual value spelling => value ← w.(walk_expr_mut) value; mret (PatEqual value spelling)
  | PatHead value => PatHead <$> w.(walk_expr_mut) value
  | PatAs pattern name => pattern ← w.(walk_pattern_mut) pattern; mret (PatAs pattern name)
  | PatTuple items => PatTuple <$> mapM w.(walk_pattern_mut) items
  | PatOr items => PatOr <$> mapM w.(walk_pattern_mut) items
  | PatSequence items => PatSequence <$> mapM walk_sequence_pattern_mut items
  | PatCall head args kwargs =>
      head ← w.(walk_expr_mut) head;
      args ← mapM w.(walk_pattern_mut) args;
      kwargs ← mapM (walk_second w.(walk_pattern_mut)) kwargs;
      mret (PatCall head args kwargs)
  | PatFields fields => PatFields <$> mapM (walk_second w.(walk_pattern_mut)) fields
  | PatWildcard | PatBind _ _ => mret kind
  end.

Definition walk_pattern_step (pattern : MatchPattern) : W MatchPattern :=
  let 'mkPattern kind span := pattern in
  kind ← pattern_children_mut kind; callback visitor.(visit_pattern_mut) (mkPattern kind span).

Definition walk_sequence_target_mut (item : SequenceTarget B R) : W (SequenceTarget B R) :=
  match item with
  | SequenceElement target => SequenceElement <$> w.(walk_target_mut) target
  | SequenceStar target => SequenceStar <$> w.(walk_target_mut) target
  end.

Definition target_children_mut (kind : DestructureTargetKind B R) : W (DestructureTargetKind B R) :=
  match kind with
  | TargetPlace place => TargetPlace <$> w.(walk_expr_mut) place
  | TargetTuple items => TargetTuple <$> mapM w.(walk_target_mut) items
  | TargetSequence items => TargetSequence <$> mapM walk_sequence_target_mut items
  | TargetDiscard | TargetDeclare _ _ => mret kind
  end.

Definition walk_target_step (target : DestructureTarget) : W DestructureTarget :=
  let 'mkTarget kind span := target in
  kind ← target_children_mut kind; callback visitor.(visit_target_mut) (mkTarget kind span).

(** ** Expressions *)

Definition walk_entry_mut (entry : Expr * option Expr) : W (Expr * option Expr) :=
  key ← w.(walk_expr_mut) entry.1; value ← walk_some w.(walk_expr_mut) entry.2; mret (key, value).

Definition walk_clause_mut (clause : ComprehensionClause B R) : W (ComprehensionClause B R) :=
  match clause with
  | ClauseFor target iter unpack =>
      iter ← w.(walk_expr_mut) iter; target ← w.(walk_target_mut) target;
      unpack ← walk_some w.(walk_stmt_mut) unpack; mret (ClauseFor target iter unpack)
  | ClauseIf condition => ClauseIf <$> w.(walk_expr_mut) condition
  end.

Definition walk_subscript_mut (argument : SubscriptArg B R) : W (SubscriptArg B R) :=
  match argument with
  | SubIndex value => SubIndex <$> w.(walk_expr_mut) value
  | SubKeyword name value => SubKeyword name <$> w.(walk_expr_mut) value
  | SubSlice lower upper step =>
      lower ← walk_some w.(walk_expr_mut) lower; upper ← walk_some w.(walk_expr_mut) upper;
      step ← walk_some w.(walk_expr_mut) step; mret (SubSlice lower upper step)
  | SubKeywordSlice name lower upper step =>
      lower ← walk_some w.(walk_expr_mut) lower; upper ← walk_some w.(walk_expr_mut) upper;
      step ← walk_some w.(walk_expr_mut) step; mret (SubKeywordSlice name lower upper step)
  end.

Definition walk_part_mut (part : TStringPart B R) : W (TStringPart B R) :=
  match part with PartExpr value => PartExpr <$> w.(walk_expr_mut) value | PartLiteral _ => mret part end.

Definition expr_children_mut (kind : ExprKind B R) : W (ExprKind B R) :=
  match kind with
  | EPrefix op value => EPrefix op <$> w.(walk_expr_mut) value
  | ETransfer value => ETransfer <$> w.(walk_expr_mut) value
  | ESpread value => ESpread <$> w.(walk_expr_mut) value
  | EInfix op lhs rhs =>
      lhs ← w.(walk_expr_mut) lhs; rhs ← w.(walk_expr_mut) rhs; mret (EInfix op lhs rhs)
  | EIndex object index =>
      object ← w.(walk_expr_mut) object; index ← w.(walk_expr_mut) index; mret (EIndex object index)
  | ECall name param_args args kwargs =>
      param_args ← walk_param_args_mut param_args; args ← walk_exprs_mut args; kwargs ← mapM walk_kwarg_mut kwargs;
      mret (ECall name param_args args kwargs)
  | EInvoke callee param_args args kwargs =>
      callee ← w.(walk_expr_mut) callee;
      param_args ← walk_param_args_mut param_args; args ← walk_exprs_mut args; kwargs ← mapM walk_kwarg_mut kwargs;
      mret (EInvoke callee param_args args kwargs)
  | EMember object field => object ← w.(walk_expr_mut) object; mret (EMember object field)
  | EMethodCall object method args kwargs =>
      object ← w.(walk_expr_mut) object; args ← walk_exprs_mut args; kwargs ← mapM walk_kwarg_mut kwargs;
      mret (EMethodCall object method args kwargs)
  | ETypeApply name args => ETypeApply name <$> walk_param_args_mut args
  | EInitializerList args kwargs =>
      args ← walk_exprs_mut args; kwargs ← mapM walk_kwarg_mut kwargs; mret (EInitializerList args kwargs)
  | EListLit values => EListLit <$> walk_exprs_mut values
  | ETupleLit values => ETupleLit <$> walk_exprs_mut values
  | EBraceLit entries => EBraceLit <$> mapM walk_entry_mut entries
  | EComprehension collection key value clauses =>
      key ← walk_some w.(walk_expr_mut) key; value ← w.(walk_expr_mut) value; clauses ← mapM walk_clause_mut clauses;
      mret (EComprehension collection key value clauses)
  | ENamed target value =>
      target ← w.(walk_expr_mut) target; value ← w.(walk_expr_mut) value; mret (ENamed target value)
  | EIfExpr cond then_branch else_branch =>
      cond ← w.(walk_expr_mut) cond; then_branch ← w.(walk_expr_mut) then_branch;
      else_branch ← w.(walk_expr_mut) else_branch; mret (EIfExpr cond then_branch else_branch)
  | ECompare first rest =>
      first ← w.(walk_expr_mut) first; rest ← mapM (walk_second w.(walk_expr_mut)) rest; mret (ECompare first rest)
  | ESlice object lower upper step =>
      object ← w.(walk_expr_mut) object;
      lower ← walk_some w.(walk_expr_mut) lower; upper ← walk_some w.(walk_expr_mut) upper;
      step ← walk_some w.(walk_expr_mut) step; mret (ESlice object lower upper step)
  | EMultiIndex object args =>
      object ← w.(walk_expr_mut) object; args ← mapM walk_subscript_mut args; mret (EMultiIndex object args)
  | ETString parts raw => parts ← mapM walk_part_mut parts; mret (ETString parts raw)
  | ETypeValue ty => ETypeValue <$> w.(walk_type_mut) ty
  | ELambda def => ELambda <$> w.(walk_stmt_mut) def
  | EInt _ | EFloat _ | EBool _ | EStr _ | ENone | EUninitialized | EEmptySubscript | EIsRunInComptimeInterpreter
  | EIdentifier _ => mret kind
  end.

Definition walk_expr_step (expr : Expr) : W Expr :=
  let 'mkExpr kind span := expr in
  kind ← expr_children_mut kind; callback visitor.(visit_expr_mut) (mkExpr kind span).

(** ** Types *)

Definition walk_function_type_param_mut (param : FunctionTypeParam B R) : W (FunctionTypeParam B R) :=
  let 'mkFunctionTypeParam name kind convention origin ty := param in
  ty ← w.(walk_type_mut) ty; origin ← walk_some walk_exprs_mut origin;
  mret (mkFunctionTypeParam name kind convention origin ty).

Definition walk_type_children_mut (ty : SourceType) : W SourceType :=
  match ty with
  | TyNamed name args => TyNamed name <$> walk_param_args_mut args
  | TyAssoc base name args =>
      base ← w.(walk_type_mut) base; args ← walk_param_args_mut args; mret (TyAssoc base name args)
  | TyIndexedProjection base index =>
      base ← w.(walk_type_mut) base; index ← w.(walk_expr_mut) index; mret (TyIndexedProjection base index)
  | TyTypeOf operand => TyTypeOf <$> w.(walk_expr_mut) operand
  | TyValue operand => TyValue <$> w.(walk_expr_mut) operand
  | TyGenerator params result =>
      params ← walk_type_params_mut params; result ← w.(walk_type_mut) result; mret (TyGenerator params result)
  | TyRef referent origin =>
      referent ← w.(walk_type_mut) referent; origin ← walk_some walk_exprs_mut origin; mret (TyRef referent origin)
  | TyFunc type_params params ret thin raises raises_type where_clauses =>
      type_params ← walk_type_params_mut type_params;
      params ← mapM walk_function_type_param_mut params;
      ret ← w.(walk_type_mut) ret;
      where_clauses ← walk_exprs_mut where_clauses;
      raises_type ← walk_some w.(walk_type_mut) raises_type;
      mret (TyFunc type_params params ret thin raises raises_type where_clauses)
  | TyNone | TySelfParam _ | TySelfType => mret ty
  end.

Definition walk_type_step (ty : SourceType) : W SourceType :=
  ty ← walk_type_children_mut ty; callback visitor.(visit_type_mut) ty.

Definition walks_over : Walks :=
  mkWalks walk_stmt_step walk_expr_step walk_type_step walk_pattern_step walk_target_step.
End over.

Definition no_walks : Walks :=
  mkWalks (λ _ _, None) (λ _ _, None) (λ _ _, None) (λ _ _, None) (λ _ _, None).

Fixpoint walks (visitor : MutVisitor) (fuel : nat) : Walks :=
  match fuel with O => no_walks | S n => walks_over visitor (walks visitor n) end.
End walks.
Arguments MutVisitor : clear implicits.
Arguments Walks : clear implicits.
