(* ===== verification/RewriteRuns.v ===== *)
(** * RewriteRuns: what the rewriting traversal reaches

    A visitor that [Tracks] moves nodes without replacing them, and its state
    accounts for the nodes handed to it.  Its walk ends, and accounts for the
    nodes that the read-only walk of the tree reports, in any order, where the
    tree has no [else] of a [for] and no origin of a parameter: the rewriting
    walk goes past those two. *)

From S2P Require Import Prelude Text Literal Token Dtypes Ast AstWalk AstRewrite.

(** ** Automation *)

Lemma perm_here {A} (a l : list A) : a ++ l ≡ₚ a ++ l.
Proof. done. Qed.
Lemma perm_last {A} (a : list A) : a ≡ₚ a ++ [].
Proof. by rewrite app_nil_r. Qed.
Lemma perm_next {A} (a b l l' : list A) : l ≡ₚ a ++ l' → b ++ l ≡ₚ a ++ b ++ l'.
Proof. intros ->. by rewrite Permutation_app_swap_app. Qed.
Lemma perm_pull {A} (a l r r' : list A) : r ≡ₚ a ++ r' → l ≡ₚ r' → a ++ l ≡ₚ r.
Proof. intros -> ->. done. Qed.

(** Two appends of the same lists. *)
Ltac perm :=
  simpl; rewrite ?app_nil_r, <-?(assoc_L (++));
  repeat first [reflexivity | progress rewrite ?app_nil_r | apply Permutation_app_head
    | eapply perm_pull; [repeat first [apply perm_here | apply perm_last | apply perm_next]|]].

Create HintDb walked.

Section tracking.
Context {B R St : Type}.
Notation visit := (visit (B:=B) (R:=R)).
Notation W := (W St).

(** [same] is whether the visitor leaves every node as it is; [after s l s'] is
    that handing the nodes [l] to it leads from [s] to [s']. *)
Class Tracks (visitor : MutVisitor B R St) : Type := {
  same : Prop;
  after : St → list visit → St → Prop;
  after_nil s : after s [] s;
  after_app s l s1 l1 s2 : after s l s1 → after s1 l1 s2 → after s (l ++ l1) s2;
  after_perm s l l' s' : l ≡ₚ l' → after s l s' → after s l' s';
  stmt_tracked kind span s : ∃ span' s', visit_stmt_mut visitor (mkStmt kind span) s = (mkStmt kind span', s') ∧
    (same → span' = span) ∧ ∀ kind', (same → kind' = kind) → after s [VisitStmt (mkStmt kind' span')] s';
  expr_tracked kind span s : ∃ span' s', visit_expr_mut visitor (mkExpr kind span) s = (mkExpr kind span', s') ∧
    (same → span' = span) ∧ after s [VisitExpr (mkExpr kind span')] s';
  type_tracked ty s : ∃ s', visit_type_mut visitor ty s = (ty, s') ∧ after s [VisitType ty] s';
  pattern_tracked kind span s : ∃ span' s', visit_pattern_mut visitor (mkPattern kind span) s = (mkPattern kind span', s') ∧
    (same → span' = span) ∧ after s [VisitPattern (mkPattern kind span')] s';
  target_tracked kind span s : ∃ span' s', visit_target_mut visitor (mkTarget kind span) s = (mkTarget kind span', s') ∧
    (same → span' = span) ∧ after s [VisitTarget (mkTarget kind span')] s';
  type_param_tracked param s : visit_type_param_mut visitor param s = (param, s);
}.

(** ** Coverage *)

Definition unwalked_param (param : FnParam B R) : bool :=
  let 'mkFnParam _ _ _ _ _ origin := param in match origin with Some (_ :: _) => true | _ => false end.
Definition method_params (method : Method B R) : list (FnParam B R) :=
  let 'mkMethod _ _ _ _ _ _ _ _ params _ _ _ _ _ _ _ := method in params.
Definition trait_method_params (method : TraitMethod B R) : list (FnParam B R) :=
  let 'mkTraitMethod _ _ _ _ _ _ params _ _ _ _ _ _ _ := method in params.

(** A node all of whose children the rewriting walk reaches. *)
Definition covered (v : visit) : bool :=
  match v with
  | VisitStmt (mkStmt kind _) =>
      match kind with
      | SFor _ _ _ (Some (_ :: _)) => false
      | SDef _ _ _ params _ _ _ _ _ _ _ _ => forallb (negb ∘ unwalked_param) params
      | SStruct _ _ _ _ _ _ _ _ _ methods _ _ => forallb (forallb (negb ∘ unwalked_param) ∘ method_params) methods
      | STrait _ _ methods _ => forallb (forallb (negb ∘ unwalked_param) ∘ trait_method_params) methods
      | _ => true
      end
  | _ => true
  end.

(** Covered nodes, at most [n]. *)
Definition ok (n : nat) (l : list visit) : Prop := Forall (λ v, covered v = true) l ∧ (length l ≤ n)%nat.

Lemma ok_app n l1 l2 : ok n (l1 ++ l2) → ok n l1 ∧ ok n l2.
Proof. intros [[? ?]%Forall_app Hn]. rewrite length_app in Hn. repeat split; [done|lia|done|lia]. Qed.

Lemma ok_cons n v l : ok (S n) (v :: l) → covered v = true ∧ ok n l.
Proof. intros [[? ?]%Forall_cons Hn]. simpl in Hn. repeat split; [done|done|lia]. Qed.

Lemma ok_flat_map {A} n (f : A → list visit) xs x : ok n (flat_map f xs) → x ∈ xs → ok n (f x).
Proof.
  intros H Hx. apply list_elem_of_split in Hx as (l1 & l2 & ->). rewrite flat_map_app in H.
  apply ok_app in H as [_ H]. simpl in H. by apply ok_app in H as [H _].
Qed.

(** ** Runs *)

Context (visitor : MutVisitor B R St) `{!Tracks visitor}.

(** After the nodes [pre], [m] makes of [b0] a result whose nodes are [wk] of
    it. *)
Definition tracks {A} (pre : list visit) (m : W A) (wk : A → list visit) (b0 : A) : Prop :=
  ∀ s, ∃ b s' l, m s = Some (b, s') ∧ (same → b = b0) ∧ after s l s' ∧ pre ++ l ≡ₚ wk b.

Definition Walked {A} (n : nat) (f : A → W A) (wk : A → list visit) : Prop :=
  ∀ x, ok n (wk x) → tracks [] (f x) wk x.

Lemma tracks_ret {A} pre wk (b b0 : A) : (same → b = b0) → pre ≡ₚ wk b → tracks pre (mret b) wk b0.
Proof. intros Hb Hp s. exists b, s, []. rewrite app_nil_r. split_and!; try done. apply after_nil. Qed.

Lemma tracks_bind {A A'} pre (m : W A) (f : A → W A') wk1 a0 wk b0 :
  tracks [] m wk1 a0 → (∀ a, (same → a = a0) → tracks (pre ++ wk1 a) (f a) wk b0) → tracks pre (m ≫= f) wk b0.
Proof.
  intros Hm Hf s. destruct (Hm s) as (a & s1 & l1 & Hr & Ha & Hl & Hp). destruct (Hf a Ha s1) as (b & s2 & l2 & Hr2 & Hb & Hl2 & Hp2).
  exists b, s2, (l1 ++ l2). split_and!; [|done|by eapply after_app|].
  - unfold mbind, W_bind. by rewrite Hr.
  - simpl in Hp. by rewrite <- Hp2, Hp, (assoc_L (++)).
Qed.

Lemma tracks_mapM {A} (f : A → W A) wk xs :
  (∀ x, x ∈ xs → tracks [] (f x) wk x) → tracks [] (mapM f xs) (flat_map wk) xs.
Proof.
  induction xs as [|x xs IH]; intros H; [by apply tracks_ret|].
  eapply tracks_bind; [apply H; constructor|]. intros y Hy.
  eapply tracks_bind; [apply IH; intros z Hz; apply H; by constructor|]. intros ys Hys.
  apply tracks_ret; [|done]. intros Hs. by rewrite (Hy Hs), (Hys Hs).
Qed.

Lemma walked_mapM {A} n (f : A → W A) wk : Walked n f wk → Walked n (mapM f) (flat_map wk).
Proof. intros H xs Hok. apply tracks_mapM. intros x Hx. apply H. by eapply ok_flat_map. Qed.

Lemma walked_some {A} n (f : A → W A) wk : Walked n f wk → Walked n (walk_some f) (walk_option wk).
Proof.
  intros H [x|] Hok; [|by apply tracks_ret]. simpl in *. unfold fmap, W_fmap.
  eapply tracks_bind; [by apply H|]. intros y Hy. apply tracks_ret; [intros Hs; by rewrite (Hy Hs)|done].
Qed.

Lemma walked_second {K A} n (f : A → W A) wk :
  Walked n f wk → Walked n (walk_second f) (λ entry : K * A, let '(_, x) := entry in wk x).
Proof.
  intros H [k x] Hok. unfold walk_second. simpl in *.
  eapply tracks_bind; [by apply H|]. intros y Hy. apply tracks_ret; [intros Hs; by rewrite (Hy Hs)|done].
Qed.

Lemma walked_use {A} n (f : A → W A) wk x : Walked n f wk → ok n (wk x) → tracks [] (f x) wk x.
Proof. intros H. apply H. Qed.

Hint Resolve walked_mapM walked_some walked_second : walked.

(** A walk whose callees are [Walked], in the order of its steps. *)
Ltac track :=
  unfold fmap, W_fmap;
  repeat (eapply tracks_bind; [first [eapply walked_use; [solve [eauto 6 with walked]|eassumption]|eauto 4 with walked]|intros ? ?]);
  apply tracks_ret; [intros Hsame; repeat match goal with H : same → _ |- _ => rewrite (H Hsame) by done; clear H end; reflexivity|perm].

Ltac oks := repeat match goal with H : ok _ (_ ++ _) |- _ => apply ok_app in H as [? ?] end.
Ltac walk_all := intros []; simpl; intros Hok; oks; track.

(** ** One level *)

Section level.
#[local] Set Default Proof Using "All".
Context (n : nat) (w : Walks B R St).
Context (Hstmt : Walked n w.(walk_stmt_mut) walk_stmt) (Hexpr : Walked n w.(walk_expr_mut) walk_expr)
  (Htype : Walked n w.(walk_type_mut) walk_type) (Hpattern : Walked n w.(walk_pattern_mut) walk_pattern)
  (Htarget : Walked n w.(walk_target_mut) walk_target).

Lemma walked_param_arg : Walked n (walk_param_arg_mut w) walk_param_arg.
Proof. intros x. induction x; intros Hok; simpl in *; track. Qed.
Hint Resolve walked_param_arg : walked.

Lemma walked_kwarg : Walked n (walk_kwarg_mut w) walk_kwarg.
Proof. walk_all. Qed.
Hint Resolve walked_kwarg : walked.

Lemma walked_clause : Walked n (walk_clause_mut w) walk_clause.
Proof. walk_all. Qed.
Hint Resolve walked_clause : walked.

Lemma walked_subscript : Walked n (walk_subscript_mut w) walk_subscript.
Proof. walk_all. Qed.
Hint Resolve walked_subscript : walked.

Lemma walked_decorator : Walked n (walk_decorator_mut w) walk_decorator.
Proof. walk_all. Qed.
Hint Resolve walked_decorator : walked.

Lemma walked_enum_case : Walked n (walk_enum_case_mut w) walk_enum_case.
Proof. walk_all. Qed.
Hint Resolve walked_enum_case : walked.

(** The callback of a parameter declaration leaves it as it is. *)
Lemma tracks_type_param {A} pre param (f : TypeParam B R → W A) wk b0 :
  tracks pre (f param) wk b0 → tracks pre (callback (visit_type_param_mut visitor) param ≫= f) wk b0.
Proof. intros H s. unfold mbind, W_bind, callback. rewrite type_param_tracked. apply H. Qed.

Lemma walked_type_param : Walked n (walk_type_param_mut visitor w) walk_type_param.
Proof. intros x Hok. apply tracks_type_param. destruct x. simpl in *. oks. track. Qed.
Hint Resolve walked_type_param : walked.

Lemma walked_function_type_param : Walked n (walk_function_type_param_mut w) walk_function_type_param.
Proof. walk_all. Qed.
Hint Resolve walked_function_type_param : walked.

Lemma walked_condition : Walked n (walk_condition_mut w) walk_condition.
Proof. walk_all. Qed.
Hint Resolve walked_condition : walked.

Lemma walked_case : Walked n (walk_case_mut w) walk_case.
Proof. walk_all. Qed.
Hint Resolve walked_case : walked.

Lemma walked_associated : Walked n (walk_associated_mut visitor w) walk_struct_comptime.
Proof. walk_all. Qed.
Hint Resolve walked_associated : walked.

Lemma walked_comptime_member : Walked n (walk_comptime_member_mut visitor w) walk_trait_comptime.
Proof. walk_all. Qed.
Hint Resolve walked_comptime_member : walked.

Lemma walked_with_item : Walked n (walk_with_item_mut w) (λ item, let 'mkWithItem context _ := item in walk_expr context).
Proof. walk_all. Qed.
Hint Resolve walked_with_item : walked.

Lemma walked_branch : Walked n (walk_branch_mut w) (λ branch, let '(condition, body) := branch in walk_condition condition ++ flat_map walk_stmt body).
Proof. walk_all. Qed.
Hint Resolve walked_branch : walked.

Lemma walked_entry : Walked n (walk_entry_mut w) (λ entry, let '(key, value) := entry in walk_expr key ++ walk_option walk_expr value).
Proof. walk_all. Qed.
Hint Resolve walked_entry : walked.

Lemma walked_part : Walked n (walk_part_mut w) (λ part, match part with PartExpr value => walk_expr value | PartLiteral _ => [] end).
Proof. walk_all. Qed.
Hint Resolve walked_part : walked.

Lemma walked_sequence_pattern : Walked n (walk_sequence_pattern_mut w) (λ item, match item with PatElement p | PatStar p => walk_pattern p end).
Proof. walk_all. Qed.
Hint Resolve walked_sequence_pattern : walked.

Lemma walked_sequence_target : Walked n (walk_sequence_target_mut w) (λ item, match item with SequenceElement target | SequenceStar target => walk_target target end).
Proof. walk_all. Qed.
Hint Resolve walked_sequence_target : walked.

(** *** Parameters of functions *)

Notation covers := (forallb (negb ∘ unwalked_param)).

Lemma tracks_fn_params params :
  covers params = true → ok n (flat_map walk_fn_param params) →
  tracks [] (mapM (walk_fn_param_mut w) params) (flat_map walk_fn_param) params.
Proof.
  intros Hc Hok. apply tracks_mapM. intros [name ty default kind convention origin] Hx.
  eapply ok_flat_map in Hok; [|done]. rewrite forallb_forall in Hc. apply list_elem_of_In, Hc in Hx.
  simpl in *. oks. destruct origin as [[|? ?]|]; [|done|]; simpl; track.
Qed.
Hint Resolve tracks_fn_params : walked.

Lemma tracks_methods methods :
  forallb (covers ∘ method_params) methods = true → ok n (flat_map walk_method methods) →
  tracks [] (mapM (walk_method_mut visitor w) methods) (flat_map walk_method) methods.
Proof.
  intros Hc Hok. apply tracks_mapM. intros x Hx. eapply ok_flat_map in Hok; [|done].
  rewrite forallb_forall in Hc. apply list_elem_of_In, Hc in Hx. destruct x. simpl in *. oks. track.
Qed.
Hint Resolve tracks_methods : walked.

Lemma tracks_trait_methods methods :
  forallb (covers ∘ trait_method_params) methods = true → ok n (flat_map walk_trait_method methods) →
  tracks [] (mapM (walk_trait_method_mut visitor w) methods) (flat_map walk_trait_method) methods.
Proof.
  intros Hc Hok. apply tracks_mapM. intros x Hx. eapply ok_flat_map in Hok; [|done].
  rewrite forallb_forall in Hc. apply list_elem_of_In, Hc in Hx. destruct x. simpl in *. oks. track.
Qed.
Hint Resolve tracks_trait_methods : walked.

(** *** The five sorts of node *)

(** The children of a node, without its span. *)
Definition expr_visits (kind : ExprKind B R) : list visit := tail (walk_expr (mkExpr kind (0, 0)%nat)).
Definition stmt_visits (kind : StmtKind B R) : list visit := tail (walk_stmt (mkStmt kind (0, 0)%nat)).
Definition pattern_visits (kind : MatchPatternKind B R) : list visit := tail (walk_pattern (mkPattern kind (0, 0)%nat)).
Definition target_visits (kind : DestructureTargetKind B R) : list visit := tail (walk_target (mkTarget kind (0, 0)%nat)).
Definition type_visits (ty : SourceType B R) : list visit := tail (walk_type ty).

Arguments expr_visits !kind /.
Arguments stmt_visits !kind /.
Arguments pattern_visits !kind /.
Arguments target_visits !kind /.
Arguments type_visits !ty /.

Lemma walked_expr_children : Walked n (expr_children_mut w) expr_visits.
Proof. walk_all. Qed.

Lemma walked_pattern_children : Walked n (pattern_children_mut w) pattern_visits.
Proof. walk_all. Qed.

Lemma walked_target_children : Walked n (target_children_mut w) target_visits.
Proof. walk_all. Qed.

Lemma walked_type_children : Walked n (walk_type_children_mut visitor w) type_visits.
Proof. walk_all. Qed.

Lemma tracks_stmt_children kind span :
  covered (VisitStmt (mkStmt kind span)) = true → ok n (stmt_visits kind) →
  tracks [] (stmt_children_mut visitor w kind) stmt_visits kind.
Proof.
  destruct kind; simpl; intros Hc Hok;
    try match goal with H : match ?o with Some _ => _ | None => _ end = true |- _ => destruct o as [[|? ?]|]; [|done|]; simpl in * end;
    oks; try (case_match; simpl in *; track); track.
Qed.

(** A node, the callback of which keeps its children. *)
Lemma walked_stmt : Walked (S n) (walk_stmt_step visitor w) walk_stmt.
Proof.
  intros [kind span] Hok s. apply ok_cons in Hok as [Hc Hok].
  destruct (stmt_tracked kind span s) as (span' & s1 & Hv & Hspan & Hafter).
  destruct (tracks_stmt_children kind span Hc Hok s1) as (kind' & s2 & l & Hr & Hkind & Hl & Hp).
  exists (mkStmt kind' span'), s2, (VisitStmt (mkStmt kind' span') :: l). split_and!.
  - unfold walk_stmt_step, mbind, W_bind, callback. rewrite Hv. simpl. by rewrite Hr.
  - intros Hs. by rewrite (Hkind Hs), (Hspan Hs).
  - by apply (after_app s [_] s1); [apply Hafter|].
  - simpl in *. by rewrite Hp.
Qed.

(** The four sorts of node that are handed to the visitor after their
    children. *)
Ltac post children tracked :=
  match goal with Hok : ok (S n) _ |- tracks _ _ _ (?make ?kind ?span) =>
    intros s; apply ok_cons in Hok as [_ Hok];
    destruct (children kind Hok s) as (kind' & s1 & l & Hr & Hkind & Hl & Hp);
    destruct (tracked kind' span s1) as (span' & s2 & Hv & Hspan & Hafter);
    eexists (make kind' span'), s2, (l ++ [_]); split_and!;
    [simpl; unfold mbind, W_bind, callback; rewrite Hr; simpl; by rewrite Hv
    |intros Hs; by rewrite (Hkind Hs), (Hspan Hs)
    |eapply after_app; [exact Hl|exact Hafter]
    |simpl in *; rewrite Hp; by rewrite Permutation_app_comm] end.

Lemma walked_expr : Walked (S n) (walk_expr_step visitor w) walk_expr.
Proof. intros [kind span] Hok. post walked_expr_children expr_tracked. Qed.

Lemma walked_pattern : Walked (S n) (walk_pattern_step visitor w) walk_pattern.
Proof. intros [kind span] Hok. post walked_pattern_children pattern_tracked. Qed.

Lemma walked_target : Walked (S n) (walk_target_step visitor w) walk_target.
Proof. intros [kind span] Hok. post walked_target_children target_tracked. Qed.

Lemma walked_type : Walked (S n) (walk_type_step visitor w) walk_type.
Proof.
  intros ty Hok s. assert (Hw : ∀ ty : SourceType B R, walk_type ty = VisitType ty :: type_visits ty) by by intros [].
  rewrite Hw in Hok. apply ok_cons in Hok as [_ Hok].
  destruct (walked_type_children ty Hok s) as (ty' & s1 & l & Hr & Hty & Hl & Hp).
  destruct (type_tracked ty' s1) as (s2 & Hv & Hafter).
  exists ty', s2, (l ++ [VisitType ty']). split_and!.
  - unfold walk_type_step, mbind, W_bind, callback. rewrite Hr. simpl. by rewrite Hv.
  - done.
  - by eapply after_app.
  - simpl in *. rewrite Hw, Hp. by rewrite Permutation_app_comm.
Qed.
End level.

(** ** The whole walk *)

Lemma walks_walked n :
  Walked n (walks visitor n).(walk_stmt_mut) walk_stmt ∧ Walked n (walks visitor n).(walk_expr_mut) walk_expr ∧
  Walked n (walks visitor n).(walk_type_mut) walk_type ∧ Walked n (walks visitor n).(walk_pattern_mut) walk_pattern ∧
  Walked n (walks visitor n).(walk_target_mut) walk_target.
Proof.
  induction n as [|n (? & ? & ? & ? & ?)].
  - split_and!; intros [] [_ Hn]; simpl in Hn; lia.
  - split_and!; [apply walked_stmt|apply walked_expr|apply walked_type|apply walked_pattern|apply walked_target]; done.
Qed.

Lemma block_walked (block : list (Stmt B R)) (n : nat) (s : St)
    (Hcovered : Forall (λ v, covered v = true) (walk_block block)) (Hn : (length (walk_block block) ≤ n)%nat) :
  ∃ block' s', walk_block_mut (walks visitor n) block s = Some (block', s') ∧
    (same → block' = block) ∧ after s (walk_block block') s'.
Proof.
  destruct (walks_walked n) as [Hstmt _].
  destruct (walked_mapM n _ _ Hstmt block (conj Hcovered Hn) s) as (block' & s' & l & Hr & Hb & Hl & Hp).
  exists block', s'. split_and!; [done|done|by eapply after_perm].
Qed.

(** C27: the rewriting walk of a block covered by it, under a visitor that
    moves nodes without replacing them, ends when its fuel is the number of
    nodes; it leaves the block as it is if the visitor does, and the visitor
    has been handed the nodes that the read-only walk of the outcome reports. *)
Theorem rewriting_walk_covers (block : list (Stmt B R)) (n : nat) (s : St)
    (Hcovered : Forall (λ v, covered v = true) (walk_block block)) (Hn : (length (walk_block block) ≤ n)%nat) :
  ∃ block' s', walk_block_mut (walks visitor n) block s = Some (block', s') ∧
    (same → block' = block) ∧ after s (walk_block block') s'.
Proof. by apply block_walked. Qed.
End tracking.

(** ** Collecting the nodes *)

Section collect.
Context {B R : Type}.
Notation visit := (visit (B:=B) (R:=R)).

(** The visitor that changes nothing and lists what it is handed. *)
Definition collector : MutVisitor B R (list visit) := {|
  visit_stmt_mut a log := (a, log ++ [VisitStmt a]);
  visit_expr_mut a log := (a, log ++ [VisitExpr a]);
  visit_type_mut a log := (a, log ++ [VisitType a]);
  visit_pattern_mut a log := (a, log ++ [VisitPattern a]);
  visit_target_mut a log := (a, log ++ [VisitTarget a]);
  visit_type_param_mut a log := (a, log);
|}.

#[export] Instance collector_tracks : Tracks collector.
Proof.
  refine {| same := True; after log l log' := log' ≡ₚ log ++ l |}; simpl.
  - intros s. by rewrite app_nil_r.
  - intros s l s1 l1 s2 -> ->. by rewrite (assoc_L (++)).
  - intros s l l' s' <-. done.
  - intros. eexists _, _. split; [reflexivity|]. split; [done|]. by intros kind' ->.
  - intros. by eexists _, _.
  - intros. by eexists _.
  - intros. by eexists _, _.
  - intros. by eexists _, _.
  - done.
Defined.
End collect.

(** ** Examples *)

Definition at_0 (kind : ExprKind Z Z) : Expr Z Z := mkExpr kind (0, 0)%nat.
Definition stmt_at_0 (kind : StmtKind Z Z) : Stmt Z Z := mkStmt kind (0, 0)%nat.

(** [def f(x: Int): return -x] and [for x in y: pass]. *)
Definition covered_block : list (Stmt Z Z) :=
  [stmt_at_0 (SDef (lit "f") [] [] [mkFnParam (lit "x") (TyNamed (lit "Int") []) None Regular None None] None None None
     false None None [] [stmt_at_0 (SReturn (Some (at_0 (EPrefix PrefixNeg (at_0 (EIdentifier (lit "x")))))))]);
   stmt_at_0 (SFor (mkTarget TargetDiscard (0, 0)%nat) (at_0 (EIdentifier (lit "y"))) [stmt_at_0 SPass] None)].

Lemma rewriting_walk_covers_witness :
  Forall (λ v, covered v = true) (walk_block covered_block) ∧ length (walk_block covered_block) = 9%nat ∧
  ∃ log, walk_block_mut (walks collector 9) covered_block [] = Some (covered_block, log) ∧
    log ≡ₚ walk_block covered_block.
Proof.
  assert (Hc : Forall (λ v, covered v = true) (walk_block covered_block)) by (repeat constructor).
  split; [exact Hc|]. split; [reflexivity|].
  destruct (rewriting_walk_covers collector covered_block 9 [] Hc) as (block' & log & Hr & Hs & Hl); [vm_compute; lia|].
  exists log. rewrite (Hs I) in *. split; [exact Hr|exact Hl].
Defined.

(** Membership in a list of nodes. *)
Ltac apply_In :=
  first [apply list_elem_of_In; simpl; tauto
    | intros H%list_elem_of_In; simpl in H; repeat destruct H as [H|H]; done].

(** The [else] of a [for] is reported by the read-only walk and not reached by
    the rewriting one. *)
Definition for_else : list (Stmt Z Z) :=
  [stmt_at_0 (SFor (mkTarget TargetDiscard (0, 0)%nat) (at_0 (EIdentifier (lit "y"))) []
     (Some [stmt_at_0 SBreak]))].

Lemma for_else_unwalked n : (2 ≤ n)%nat → ∃ log,
  walk_block_mut (walks collector n) for_else [] = Some (for_else, log) ∧
  VisitStmt (stmt_at_0 SBreak) ∈ walk_block for_else ∧ VisitStmt (stmt_at_0 SBreak) ∉ log.
Proof.
  intros Hn. do 2 (destruct n as [|n]; [lia|]). eexists. split; [reflexivity|]. split; apply_In.
Qed.

(** So is the origin of a parameter. *)
Definition parameter_origin : list (Stmt Z Z) :=
  [stmt_at_0 (SDef (lit "f") [] [] [mkFnParam (lit "x") TySelfType None Regular (Some CRef)
     (Some [at_0 (EIdentifier (lit "a"))])] None None None false None None [] [])].

Lemma parameter_origin_unwalked n : (2 ≤ n)%nat → ∃ log,
  walk_block_mut (walks collector n) parameter_origin [] = Some (parameter_origin, log) ∧
  VisitExpr (at_0 (EIdentifier (lit "a"))) ∈ walk_block parameter_origin ∧
  VisitExpr (at_0 (EIdentifier (lit "a"))) ∉ log.
Proof.
  intros Hn. do 2 (destruct n as [|n]; [lia|]). eexists. split; [reflexivity|]. split; apply_In.
Qed.
