(* ===== verification/Parser.v ===== *)
(** * Parser: the token cursor (mojito-parser, [parser.rs], [parser/driver.rs])

    A parser reads an iterator of tokens.  The iterator is a state and a step
    that returns a token, the end, or a lexical error, and may panic; peeking
    looks at what the step returns and keeps the state, which [Peekable] caches.
    An error keeps the parser's state, as recovery resumes from it.

    The mutually recursive parsers are written over the record [Rec] of the
    entries they call each other through, and tied together by fuel in
    [ParseProgram]; [Rec] also holds the fuel of their loops. *)

From Stdlib Require Import String.
From S2P Require Import Prelude Text Literal Token Dtypes Ast.

(** ** Binding powers *)

Module Precedence.
Inductive t : Type :=
| Lowest | Walrus | Conditional | Or | And | Not | Comparison | BitOr | BitXor | BitAnd | Shift | Sum | Product
| Unary | Power | Call.

(** The derived order. *)
Definition rank (p : t) : nat :=
  match p with
  | Lowest => 0 | Walrus => 1 | Conditional => 2 | Or => 3 | And => 4 | Not => 5 | Comparison => 6 | BitOr => 7
  | BitXor => 8 | BitAnd => 9 | Shift => 10 | Sum => 11 | Product => 12 | Unary => 13 | Power => 14 | Call => 15
  end.

Definition leb (p q : t) : bool := (rank p <=? rank q)%nat.
End Precedence.
Notation Precedence := Precedence.t.

Definition infix_precedence (op : InfixOp) : Precedence :=
  match op with
  | Or => Precedence.Or
  | And => Precedence.And
  | Eq_ | Ne | Lt_ | Gt_ | Le | Ge | In_ | NotIn | Is | IsNot => Precedence.Comparison
  | BitOr => Precedence.BitOr
  | BitXor => Precedence.BitXor
  | BitAnd => Precedence.BitAnd
  | Shl | Shr => Precedence.Shift
  | Add | Sub => Precedence.Sum
  | Mul | Div | FloorDiv | Mod | MatMul => Precedence.Product
  | Pow => Precedence.Unary
  end.

(** ** Tokens *)

(** A number for each token without a payload. *)
Definition tag {B R} (t : Token B R) : option nat :=
  match t with
  | Token.Var => Some 0 | Struct => Some 1 | Trait => Some 2 | Comptime => Some 3 | Raises => Some 4 | Enum => Some 5
  | GeneratorType => Some 6 | IsRunInComptimeInterpreter => Some 7 | Def => Some 8 | Lambda => Some 9
  | Return => Some 10 | Pass => Some 11 | NoneKw => Some 12 | Token.And => Some 13 | Token.Or => Some 14
  | Token.Not => Some 15 | If => Some 16 | Elif => Some 17 | Else => Some 18 | While => Some 19 | For => Some 20
  | Token.In => Some 21 | Token.Is => Some 22 | With => Some 23 | Break => Some 24 | Continue => Some 25
  | Raise => Some 26 | Try => Some 27 | Except => Some 28 | Finally => Some 29 | ImportKw => Some 30 | From => Some 31
  | As => Some 32 | ClassKw => Some 33 | Del => Some 34 | Match => Some 35 | Yield => Some 36 | Case => Some 37
  | Identifier _ | IntLit _ _ | FloatLit _ _ | BoolLiteral _ | StringLiteral _ _ | TripleStringLiteral _ _
  | TString _ _ => None
  | Assign => Some 38 | PlusEq => Some 39 | MinusEq => Some 40 | StarEq => Some 41 | SlashEq => Some 42
  | DoubleSlashEq => Some 43 | PercentEq => Some 44 | DoubleStarEq => Some 45 | AmpEq => Some 46 | PipeEq => Some 47
  | CaretEq => Some 48 | ShlEq => Some 49 | ShrEq => Some 50 | Colon => Some 51 | ColonEq => Some 52
  | Comma => Some 53 | Semicolon => Some 54 | Dot => Some 55 | Ellipsis => Some 56 | At => Some 57 | Amp => Some 58
  | Pipe => Some 59 | Caret => Some 60 | Tilde => Some 61 | Arrow => Some 62 | LParen => Some 63 | RParen => Some 64
  | LBracket => Some 65 | RBracket => Some 66 | LBrace => Some 67 | RBrace => Some 68 | Plus => Some 69
  | Minus => Some 70 | Star => Some 71 | DoubleStar => Some 72 | Slash => Some 73 | DoubleSlash => Some 74
  | Percent => Some 75 | EqEq => Some 76 | NotEq => Some 77 | TLt => Some 78 | TGt => Some 79 | TLe => Some 80
  | TGe => Some 81 | Token.Shl => Some 82 | Token.Shr => Some 83 | Newline => Some 84 | Indent => Some 85
  | Dedent => Some 86 | Eof => Some 87
  end.

(** [token == *expected] at a token without a payload. *)
Definition is_token {B R} (expected t : Token B R) : bool :=
  match tag expected, tag t with Some n, Some m => (n =? m)%nat | _, _ => false end.

Definition is_identifier {B R} (t : Token B R) : bool := match t with Identifier _ => true | _ => false end.
Definition is_word {B R} (word : string) (t : Token B R) : bool :=
  match t with Identifier name => bool_decide (name = lit word) | _ => false end.

Definition aug_assign_op {B R} (t : Token B R) : option InfixOp :=
  match t with
  | PlusEq => Some Add | MinusEq => Some Sub | StarEq => Some Mul | SlashEq => Some Div
  | DoubleSlashEq => Some FloorDiv | PercentEq => Some Mod | DoubleStarEq => Some Pow | AmpEq => Some BitAnd
  | PipeEq => Some BitOr | CaretEq => Some BitXor | ShlEq => Some Shl | ShrEq => Some Shr
  | _ => None
  end.

Definition convention_word (word : str) : option ArgConvention :=
  if bool_decide (word = lit "imm") then Some CImm
  else if bool_decide (word = lit "mut") then Some CMut
  else if bool_decide (word = lit "out") then Some COut
  else if bool_decide (word = lit "ref") then Some CRef
  else if bool_decide (word = lit "deinit") then Some CDeinit
  else None.

(** ** Errors *)

Inductive ParseError {B R : Type} : Type :=
| LexerError (err : LexError)
| UnexpectedToken (token : Token B R) (message : str)
| Message (message : str)
| UnexpectedEof (message : str)
| UnknownType (name : str)
| ErrorAt (err : ParseError) (span : Span).
Arguments ParseError : clear implicits.

Definition error_byte_pos {B R} (e : ParseError B R) : option nat :=
  match e with
  | LexerError err => Some (byte_pos err)
  | ErrorAt _ span => Some span.1
  | UnexpectedToken _ _ | Message _ | UnexpectedEof _ | UnknownType _ => None
  end.

(** [ParseError::at]. *)
Definition error_at {B R} (e : ParseError B R) (span : Span) : ParseError B R :=
  match error_byte_pos e with Some _ => e | None => ErrorAt e span end.

(** ** The iterator *)

(** An iterator of tokens, and [Lexer::new], which an interpolation starts. *)
Class TokenStream (B R I : Type) : Type := {
  next_item : I → outcome LexError (option (Token B R * Span)) * I;
  new_stream : str → I;
}.

(** The text of a syntax node's debug form, which two messages quote, and the
    Unicode property [char::is_lowercase]. *)
Class Rendered (B R : Type) : Type := { debug_kind : ExprKind B R → str }.
Class CaseTable : Type := { is_lowercase : char → bool }.

Section parser.
Context {B R I : Type} `{!TokenStream B R I}.
Notation Token := (Token B R).
Notation ParseError := (ParseError B R).
Notation Expr := (Expr B R).
Notation ExprKind := (ExprKind B R).

(** [Parser], with the two sets of statement starts as lists. *)
Record Parser : Type := mkParser {
  tokens : I;
  last_span : Span;
  last_significant_end : nat;
  last_stmt_ended_with_semicolon : bool;
  placeholder_statements : list nat;
  docstring_statements : list nat;
}.

(** [Parser::new]. *)
Definition new_parser (stream : I) : Parser := mkParser stream (0, 0)%nat 0 false [] [].

Definition P (A : Type) : Type := Parser → outcome ParseError A * Parser.

#[global] Instance P_ret : MRet P := λ A a s, (Ok a, s).
#[global] Instance P_bind : MBind P := λ A A' f m s,
  match m s with
  | (Ok a, s) => f a s
  | (Err e, s) => (Err e, s)
  | (Panic, s) => (Panic, s)
  | (Diverge, s) => (Diverge, s)
  end.

#[global] Instance P_fmap : FMap P := λ A A' f m, a ← m; mret (f a).

Definition get : P Parser := λ s, (Ok s, s).
Definition throw {A} (e : ParseError) : P A := λ s, (Err e, s).
Definition panic {A} : P A := λ s, (Panic, s).
Definition unexpected {A} (t : Token) (message : string) : P A := throw (UnexpectedToken t (lit message)).

(** A [loop]: [f] continues with [inl] and leaves with [inr]. *)
Fixpoint loop {X A} (fuel : nat) (f : X → P (X + A)) (x : X) : P A :=
  match fuel with
  | O => λ s, (Diverge, s)
  | S fuel => r ← f x; match r with inl x => loop fuel f x | inr a => mret a end
  end.

Definition set_semicolon (b : bool) : P unit := λ s,
  (Ok tt, mkParser s.(tokens) s.(last_span) s.(last_significant_end) b s.(placeholder_statements) s.(docstring_statements)).
Definition insert_placeholder (start : nat) : P unit := λ s,
  (Ok tt, mkParser s.(tokens) s.(last_span) s.(last_significant_end) s.(last_stmt_ended_with_semicolon)
    (start :: s.(placeholder_statements)) s.(docstring_statements)).
Definition insert_docstring (start : nat) : P unit := λ s,
  (Ok tt, mkParser s.(tokens) s.(last_span) s.(last_significant_end) s.(last_stmt_ended_with_semicolon)
    s.(placeholder_statements) (start :: s.(docstring_statements))).

(** The state after the iterator has stepped to [i] and given [item]. *)
Definition consumed (s : Parser) (i : I) (item : option (Token * Span)) : Parser :=
  match item with
  | Some (t, span) =>
      mkParser i span
        (match t with Newline | Indent | Dedent | Eof => s.(last_significant_end) | _ => span.2 end)
        s.(last_stmt_ended_with_semicolon) s.(placeholder_statements) s.(docstring_statements)
  | None => mkParser i s.(last_span) s.(last_significant_end) s.(last_stmt_ended_with_semicolon)
      s.(placeholder_statements) s.(docstring_statements)
  end.

(** [next_token]. *)
Definition next_token : P Token := λ s,
  match next_item s.(tokens) with
  | (Ok (Some (t, span)), i) => (Ok t, consumed s i (Some (t, span)))
  | (Ok None, i) => (Err (UnexpectedEof (lit "Expected a token, found EOF")), consumed s i None)
  | (Err err, i) => (Err (LexerError err), consumed s i None)
  | (Panic, i) => (Panic, consumed s i None)
  | (Diverge, i) => (Diverge, consumed s i None)
  end.

(** [peek_token]. *)
Definition peek_token : P (option Token) := λ s,
  (match fst (next_item s.(tokens)) with
   | Ok item => Ok (fst <$> item)
   | Err err => Err (LexerError err)
   | Panic => Panic
   | Diverge => Diverge
   end, s).

(** [peek_start]. *)
Definition peek_start : P nat := λ s,
  (match fst (next_item s.(tokens)) with
   | Ok (Some (_, span)) => Ok span.1
   | Ok None | Err _ => Ok s.(last_span).2
   | Panic => Panic
   | Diverge => Diverge
   end, s).

(** [matches!(self.peek_token()?, Some(..))]. *)
Definition peek_matches (p : Token → bool) : P bool := t ← peek_token; mret (from_option p false t).
Definition peek_is (t : Token) : P bool := peek_matches (is_token t).

(** [peek_token()?.cloned().unwrap_or(default)]. *)
Definition peek_or (default : Token) : P Token := t ← peek_token; mret (from_option (λ t, t) default t).

(** [Expr::new(kind, self.last_span)], and [node]. *)
Definition node (kind : ExprKind) (start : nat) : P Expr := s ← get; mret (mkExpr kind (start, s.(last_span).2)).

(** [(start, self.last_significant_end)]. *)
Definition significant_span (start : nat) : P Span := s ← get; mret (start, s.(last_significant_end)).

(** [expect]. *)
Definition expect (expected : Token) (message : string) : P unit :=
  t ← next_token; if is_token expected t then mret tt else unexpected t message.

(** [expect_identifier]. *)
Definition expect_name (message : str) : P str :=
  t ← next_token; match t with Identifier name => mret name | t => throw (UnexpectedToken t message) end.
Definition expect_identifier (message : string) : P str := expect_name (lit message).

(** [expect_member_name]. *)
Definition expect_member_name (message : string) : P str :=
  t ← next_token;
  match t with
  | Identifier name => mret name
  | t => match member_name_keyword t with Some name => mret name | None => unexpected t message end
  end.

(** Consume the next token when it is [t]. *)
Definition skip_if (t : Token) : P bool :=
  b ← peek_is t; if b : bool then _ ← next_token; mret true else mret false.

(** [expect_stmt_end]. *)
Definition expect_stmt_end : P unit :=
  t ← next_token;
  match t with
  | Semicolon => set_semicolon true
  | Newline | Eof => set_semicolon false
  | t => unexpected t "Expected newline, ';', or EOF at the end of statement"
  end.

(** ** Recursion *)

(** One element of a display, before it is a target or an expression. *)
Inductive TargetItem : Type := ItemTarget (target : DestructureTarget B R) | ItemExpr (value : Expr).

(** The entries the parsers recur through. *)
Record Rec : Type := mkRec {
  fuel : nat;
  expression : Precedence → P Expr;
  expression_from : Expr → Precedence → P Expr;
  type_ : P (SourceType B R);
  param_arg : P (ParamArg B R);
  target_item : option BindingMode → Precedence → P TargetItem;
  pattern : P (MatchPattern B R);
  statement : P (Stmt B R);
}.
End parser.
Arguments Parser : clear implicits.
Arguments P : clear implicits.
#[export] Existing Instances P_ret P_bind P_fmap.
Arguments TargetItem : clear implicits.
Arguments Rec : clear implicits.

(** [while matches!(peek, Some(t)) { next; body }]. *)
Definition while_token {B R I X} `{!TokenStream B R I} (fuel : nat) (t : Token B R) (body : X → P B R I X) (x : X) : P B R I X :=
  loop fuel (λ x, b ← skip_if t; if b : bool then inl <$> body x else mret (inr x)) x.

(** The projections the parsers use. *)
Definition expr_kind {B R} (e : Expr B R) : ExprKind B R := let 'mkExpr kind _ := e in kind.
Definition expr_span {B R} (e : Expr B R) : Span := let 'mkExpr _ span := e in span.
Definition target_kind {B R} (t : DestructureTarget B R) : DestructureTargetKind B R := let 'mkTarget kind _ := t in kind.
Definition target_span {B R} (t : DestructureTarget B R) : Span := let 'mkTarget _ span := t in span.
Definition pattern_kind {B R} (p : MatchPattern B R) : MatchPatternKind B R := let 'mkPattern kind _ := p in kind.
Definition stmt_kind {B R} (s : Stmt B R) : StmtKind B R := let 'mkStmt kind _ := s in kind.
Definition stmt_span {B R} (s : Stmt B R) : Span := let 'mkStmt _ span := s in span.
