(* ===== verification/ParseTypes.v ===== *)
(** * ParseTypes: types, compile-time arguments and parameters
      (mojito-parser, [parser/types.rs]; parts of [driver.rs], [suffix.rs],
      [items.rs] and [stmts.rs] they call) *)

From Stdlib Require Import Ascii String.
From S2P Require Import Prelude Text Literal Token Dtypes Ast Parser.

(** [is_scalar_alias_name]: the prelude's scalar types. *)
Definition is_scalar_alias_name (id : str) : bool :=
  bool_decide (id ∈ [lit "Bool"; lit "Int"; lit "UInt"; lit "Float64"]) ||
  existsb (λ d, match Dtype_.scalar_alias d with Some alias => bool_decide (id = lit alias) | None => false end) Dtype_.ALL ||
  bool_decide (id = lit "Byte").

Section types.
Context {B R I : Type} `{!TokenStream B R I, !Rendered B R}.
Notation Token := (Token B R).
Notation Expr := (Expr B R).
Notation ExprKind := (ExprKind B R).
Notation KwArg := (KwArg B R).
Notation SourceType := (SourceType B R).
Notation ParamArg := (ParamArg B R).
Notation TypeParam := (TypeParam B R).
Notation P := (P B R I).

(** [removed_convention_error]. *)
Definition removed_convention_error (word : str) : option (ParseError B R) :=
  if bool_decide (word = lit "read") then Some (UnexpectedToken (Identifier word) (lit "'read' was removed; use 'imm'"))
  else None.

Definition REMOVED_CAPTURING_EFFECT : str :=
  lit "the 'capturing' function effect is no longer supported; use a closure capture list like '{var}' or '{mut x}' instead".

(** [Type::expression_spelling]. *)
Fixpoint expression_spelling (span : Span) (ty : SourceType) : option Expr :=
  match ty with
  | TySelfType => Some (mkExpr (EIdentifier (lit "Self")) span)
  | TyNamed name [] => Some (mkExpr (EIdentifier name) span)
  | TyNamed name args => Some (mkExpr (ETypeApply name args) span)
  | TySelfParam name =>
      if bool_decide (head name = Some (ch "*")) then None
      else Some (mkExpr (EMember (mkExpr (EIdentifier (lit "Self")) span) name) span)
  | TyAssoc base name [] => base ← expression_spelling span base; Some (mkExpr (EMember base name) span)
  | _ => None
  end.

(** [rematerialize_self_param_chain], at the span of its nodes. *)
Fixpoint rematerialize (span : Span) (ty : SourceType) : option Expr :=
  match ty with
  | TySelfParam param => Some (mkExpr (EMember (mkExpr (EIdentifier (lit "Self")) span) param) span)
  | TyAssoc base name args =>
      base ← rematerialize span base;
      let member := mkExpr (EMember base name) span in
      match args with
      | [] => Some member
      | [ArgValue index] => Some (mkExpr (EIndex member index) span)
      | _ => None
      end
  | TyIndexedProjection base index => base ← rematerialize span base; Some (mkExpr (EIndex base index) span)
  | _ => None
  end.

(** The span from [start] to the last token. *)
Definition span_from (start : nat) : P Span := s ← get; mret (start, s.(last_span).2).

Definition rematerialize_self_param_chain (ty : SourceType) (start : nat) : P (option Expr) :=
  span ← span_from start; mret (rematerialize span ty).

(** [call_name]. *)
Definition call_name (callee : Expr) : P str :=
  match expr_kind callee with
  | EIdentifier name => mret name
  | other => throw (UnexpectedToken LParen (lit "only named functions can be called, found " ++ debug_kind other))
  end.

(** After an element: whether a comma and another element follow. *)
Definition more (close : Token) : P bool :=
  comma ← skip_if Comma; if comma : bool then b ← peek_is close; mret (negb b) else mret false.

Context (rec : Rec B R I).

(** [parse_call_args]. *)
Definition call_arg_step '(args, kwargs) : P (list Expr * list KwArg + list Expr * list KwArg) :=
  forwards ← skip_if DoubleStar;
  if forwards : bool then
    value ← rec.(expression) Precedence.Lowest;
    match expr_kind value with
    | ETransfer _ =>
        let kwargs := kwargs ++ [mkKwArg FORWARDED_KWARGS_NAME value] in
        comma ← skip_if Comma;
        if comma : bool then
          close ← peek_is RParen;
          if close : bool then mret (inr (args, kwargs))
          else unexpected Comma "`**kwargs^` must be the final call argument"
        else mret (inr (args, kwargs))
    | _ => unexpected DoubleStar "keyword forwarding requires a transferred StringDict (`**kwargs^`)"
    end
  else
    spread ← peek_is Star;
    expr ← (if spread : bool then
      start ← peek_start; _ ← next_token; value ← rec.(expression) Precedence.Lowest; node (ESpread value) start
    else rec.(expression) Precedence.Lowest);
    keyword ← match expr_kind expr with
      | EIdentifier name =>
          b ← peek_matches (λ t, is_token Assign t || is_token Colon t); mret (if b : bool then Some name else None)
      | _ => mret None
      end;
    '(args, kwargs) ← match keyword with
      | Some name =>
          _ ← next_token; value ← rec.(expression) Precedence.Lowest; mret (args, kwargs ++ [mkKwArg name value])
      | None =>
          match kwargs with
          | [] => mret (args ++ [expr], kwargs)
          | _ => unexpected Comma "a positional argument cannot follow a keyword argument"
          end
      end;
    again ← more RParen; mret (if again : bool then inl (args, kwargs) else inr (args, kwargs)).

Definition parse_call_args : P (list Expr * list KwArg) :=
  empty ← peek_is RParen;
  if empty : bool then mret ([], []) else loop rec.(fuel) call_arg_step ([], []).

(** The [')'] that ends call arguments. *)
Definition parse_arguments : P (list Expr * list KwArg) :=
  call ← parse_call_args; _ ← expect RParen "Expected ')' after arguments"; mret call.

(** [param_argument_name]. *)
Definition param_argument_name (arg : ParamArg) : P str :=
  match arg with
  | ArgValue (mkExpr (EIdentifier name) _) => mret name
  | _ => unexpected Assign "a compile-time keyword argument requires a name"
  end.

(** [parse_param_args]. *)
Definition param_args_step (args : list ParamArg) : P (list ParamArg + list ParamArg) :=
  arg ← rec.(param_arg);
  named ← peek_is Assign;
  arg ← (if named : bool then
    name ← param_argument_name arg; _ ← next_token;
    value ← rec.(expression) Precedence.Lowest; mret (ArgNamed name (ArgValue value))
  else mret arg);
  again ← more RBracket; mret (if again : bool then inl (args ++ [arg]) else inr (args ++ [arg])).

Definition parse_param_args : P (list ParamArg) :=
  _ ← expect LBracket "Expected '[' to begin parameter arguments";
  args ← loop rec.(fuel) param_args_step [];
  _ ← expect RBracket "Expected ']' after parameter arguments"; mret args.

(** [parse_where_clauses]. *)
Definition parse_where_clauses : P (list Expr) :=
  loop rec.(fuel) (λ clauses,
    more ← peek_matches (is_word "where");
    if more : bool then _ ← next_token; clause ← rec.(expression) Precedence.Lowest; mret (inl (clauses ++ [clause]))
    else mret (inr clauses)) [].

(** [parse_optional_origin_specifier]. *)
Definition parse_optional_origin_specifier : P (option (list Expr)) :=
  present ← skip_if LBracket;
  if present : bool then
    origins ← loop rec.(fuel) (λ origins,
      origin ← rec.(expression) Precedence.Lowest; comma ← skip_if Comma;
      mret (if comma : bool then inl (origins ++ [origin]) else inr (origins ++ [origin]))) [];
    _ ← expect RBracket "Expected ']' after the origin specifier"; mret (Some origins)
  else mret None.

(** [parse_type_of_operand]. *)
Definition parse_type_of_operand : P SourceType :=
  _ ← expect LParen "Expected '(' after 'type_of'";
  operand ← rec.(expression) Precedence.Lowest;
  _ ← expect RParen "Expected ')' after the 'type_of' operand"; mret (TyTypeOf operand).

(** [parse_named_type]. *)
Definition parse_named_type (id : str) (start : nat) : P SourceType :=
  applied ← peek_is LBracket;
  args ← (if applied : bool then parse_param_args else mret []);
  called ← skip_if LParen;
  if called : bool then
    '(call_args, kwargs) ← parse_arguments;
    call ← node (ECall id args call_args kwargs) start; mret (TyValue call)
  else mret (TyNamed id args).

(** [parse_type_assoc_tail]: an associated name, a bracketed index or
    application, and a construction through an applied member. *)
Definition assoc_index (ty : SourceType) : P SourceType :=
  s ← get; arguments ← parse_param_args;
  rematerialized ← match arguments with
    | [ArgType (TySelfParam _ as inner)] => rematerialize_self_param_chain inner s.(last_span).1
    | _ => mret None
    end;
  match rematerialized, arguments, ty with
  | Some index, _, _ => mret (TyIndexedProjection ty index)
  | None, [ArgValue index], _ => mret (TyIndexedProjection ty index)
  | None, _, TyAssoc base name [] => mret (TyAssoc base name arguments)
  | _, _, _ => unexpected RBracket "a dependent type projection requires exactly one compile-time value index"
  end.

Definition assoc_construction (ty : SourceType) (start : nat) : P (option SourceType) :=
  match ty with
  | TyAssoc base name ((_ :: _) as args) =>
      called ← peek_is LParen;
      span ← span_from start;
      match (if called : bool then expression_spelling span base else None) with
      | Some receiver =>
          let callee := mkExpr (EMember receiver name) span in
          _ ← next_token; '(call_args, kwargs) ← parse_arguments;
          value ← node (EInvoke callee args call_args kwargs) start; mret (Some (TyValue value))
      | None => mret None
      end
  | _ => mret None
  end.

Definition parse_type_assoc_tail (ty : SourceType) (start : nat) : P SourceType :=
  loop rec.(fuel) (λ ty,
    dot ← skip_if Dot;
    if dot : bool then
      name ← expect_identifier "Expected an associated type name after '.'"; mret (inl (TyAssoc ty name []))
    else
      bracket ← peek_is LBracket;
      if bracket : bool then inl <$> assoc_index ty
      else
        call ← assoc_construction ty start;
        mret match call with Some ty => inl ty | None => inr ty end) ty.

(** [parse_type_param_marker]: [//] makes the parameters before it inferred. *)
Definition infer_only (p : TypeParam) : TypeParam :=
  let 'mkTypeParam name bounds value_type callable origin _ default := p in
  mkTypeParam name bounds value_type callable origin true default.

Definition parse_type_param_marker (params : list TypeParam) : P (option (list TypeParam)) :=
  t ← peek_token;
  match (match t with
         | Some DoubleSlash => Some (infer_only <$> params) | Some Slash => Some params | _ => None end) with
  | None => mret None
  | Some params =>
      _ ← next_token; t ← peek_token;
      match t with
      | Some Comma => _ ← next_token; mret (Some params)
      | Some RBracket => mret (Some params)
      | _ => t ← next_token; unexpected t "expected ']' for parameter list"
      end
  end.

(** What a bound starts with: the recorded bound, the callable type, the fixed
    mutability of [ImmOrigin] and [MutOrigin], and the word as spelled. *)
Definition first_bound : P (str * option SourceType * option SourceType * option Expr * str) :=
  t ← peek_token;
  match t with
  | Some Def => ty ← rec.(type_); mret (lit "<function type>", None, Some ty, None, [])
  | Some GeneratorType =>
      ty ← rec.(type_); mret (lit "__generator_type", Some ty, None, None, lit "__generator_type")
  | _ =>
      bound ← expect_identifier "Expected a trait or type in the type-parameter bound";
      s ← get;
      let fixed := if bool_decide (bound = lit "ImmOrigin") then Some false
        else if bool_decide (bound = lit "MutOrigin") then Some true else None in
      mret (match fixed with Some _ => lit "Origin" | None => bound end, None, None,
        (λ flag, mkExpr (EBool flag) s.(last_span)) <$> fixed, bound)
  end.

(** The rest of the bound's first type: [type_of(..)], [Self.T] and a
    qualified type are value types. *)
Definition bound_value_type (first : str) (value_type callable : option SourceType) (spelled : str)
    : P (str * option SourceType) :=
  match callable with
  | Some _ => mret (first, value_type)
  | None =>
      applied ← (if bool_decide (first = lit "type_of") then peek_is LParen else mret false);
      if applied : bool then ty ← parse_type_of_operand; mret (first, Some ty)
      else
        dot ← peek_is Dot;
        if (bool_decide (first = lit "Self") && dot)%bool then
          _ ← next_token; param ← expect_identifier "Expected a parameter name after 'Self.'";
          mret (lit "Self." ++ param, Some (TySelfParam param))
        else if dot : bool then
          s ← get; ty ← parse_type_assoc_tail (TyNamed spelled []) s.(last_span).1; mret (spelled, Some ty)
        else mret (first, value_type)
  end.

(** [Origin[mut=..]], or the arguments of a value type. *)
Definition bound_arguments (first : str) (fixed : option Expr) (value_type : option SourceType)
    : P (option Expr * option SourceType) :=
  match fixed with
  | Some fixed => mret (Some fixed, value_type)
  | None =>
      bracket ← peek_is LBracket;
      if negb bracket then mret (None, value_type)
      else if bool_decide (first = lit "Origin") then
        _ ← next_token; key ← expect_identifier "Expected 'mut' in Origin[mut=...]";
        if bool_decide (key = lit "mut") then
          _ ← expect Assign "Expected '=' after 'mut' in Origin";
          mutability ← rec.(expression) Precedence.Lowest;
          _ ← expect RBracket "Expected ']' after Origin mutability"; mret (Some mutability, value_type)
        else unexpected (Identifier key) "expected 'mut' in Origin[mut=...]"
      else args ← parse_param_args; mret (None, Some (TyNamed first args))
  end.

(** The traits, and at most one function type, composed by [&]. *)
Definition bound_step '(bounds, callable) : P (list str * option SourceType + list str * option SourceType) :=
  amp ← peek_is Amp;
  if negb amp then mret (inr (bounds, callable))
  else
    match callable with
    | Some _ =>
        t ← next_token; unexpected t "a function type ends a type-parameter bound; compose its traits before it"
    | None =>
        _ ← next_token; function ← peek_is Def;
        if function : bool then
          ty ← rec.(type_); mret (inl (bounds ++ [lit "<function type>"], Some ty))
        else bound ← expect_identifier "Expected a trait name after '&'"; mret (inl (bounds ++ [bound], callable))
    end.

(** One parameter of [parse_type_params], after its markers. *)
Definition parse_type_param (variadic : bool) : P TypeParam :=
  name ← expect_identifier "Expected a type-parameter name";
  let name := if variadic then ch "*" :: name else name in
  _ ← expect Colon "A type parameter requires a ': bound' (e.g. 'T: Copyable')";
  '(first, value_type, callable, fixed, spelled) ← first_bound;
  '(first, value_type) ← bound_value_type first value_type callable spelled;
  '(mutability, value_type) ← bound_arguments first fixed value_type;
  '(bounds, callable) ← loop rec.(fuel) bound_step ([first], callable);
  constrained ← peek_matches (is_word "where");
  if constrained : bool then
    t ← next_token;
    unexpected t "parameter-list 'where' clauses were removed; place the constraint after the function return type"
  else
    assigned ← skip_if Assign;
    default ← (if assigned : bool then Some <$> rec.(expression) Precedence.Lowest else mret None);
    mret (mkTypeParam name bounds value_type callable mutability false default).

Definition type_params_step (params : list TypeParam) : P (list TypeParam + list TypeParam) :=
  marker ← parse_type_param_marker params;
  match marker with
  | Some params => close ← peek_is RBracket; mret (if close : bool then inr params else inl params)
  | None =>
      variadic ← skip_if Star;
      bare ← (if variadic : bool then skip_if Comma else mret false);
      if bare : bool then mret (inl params)
      else
        param ← parse_type_param variadic;
        again ← more RBracket; mret (if again : bool then inl (params ++ [param]) else inr (params ++ [param]))
  end.

(** [parse_type_params]. *)
Definition parse_type_params : P (list TypeParam) :=
  present ← skip_if LBracket;
  if present : bool then
    params ← loop rec.(fuel) type_params_step [];
    _ ← expect RBracket "Expected ']' after type parameters"; mret params
  else mret [].

(** [parse_generator_type_tail]. *)
Definition parse_generator_type_tail : P SourceType :=
  present ← peek_is LBracket;
  params ← (if present : bool then parse_type_params else mret []);
  first ← rec.(type_);
  members ← while_token rec.(fuel) Amp (λ members, ty ← rec.(type_); mret (members ++ [ty])) [first];
  mret (TyGenerator params match members with
    | [result] => result
    | _ => TyNamed (lit "$trait_composition") (ArgType <$> members)
    end).

(** *** Function types *)

(** The convention before a parameter of a function type. *)
Definition function_param_convention : P (ParamKind * option ArgConvention) :=
  t ← peek_token;
  match t with
  | Some Token.Var =>
      _ ← next_token; pack ← skip_if DoubleStar; mret (if pack : bool then KwVariadic else Regular, Some CVar)
  | Some DoubleStar =>
      t ← next_token; unexpected t "a keyword-variadic function-type parameter must be spelled 'var **name: Type'"
  | Some (Identifier word) =>
      match convention_word word, removed_convention_error word with
      | Some convention, _ => _ ← next_token; mret (Regular, Some convention)
      | None, Some error => throw error
      | None, None => mret (Regular, None)
      end
  | _ => mret (Regular, None)
  end.

(** A parameter's optional name, and its type. *)
Definition function_param_type (kind : ParamKind) : P (option str * SourceType) :=
  match kind with
  | KwVariadic =>
      name ← expect_identifier "Expected a name after 'var **'";
      _ ← expect Colon "Expected ':' after a keyword-variadic function-type parameter";
      ty ← rec.(type_); mret (Some name, ty)
  | _ =>
      first ← rec.(type_);
      named ← peek_is Colon;
      if negb named then mret (None, first)
      else
        match first with
        | TyNamed name [] => _ ← next_token; ty ← rec.(type_); mret (Some name, ty)
        | TyNamed _ _ => unexpected Colon "a function-type parameter name cannot have type arguments"
        | _ => unexpected Colon "a function-type parameter name must be an identifier"
        end
  end.

Definition function_params_step (params : list (FunctionTypeParam B R))
    : P (list (FunctionTypeParam B R) + list (FunctionTypeParam B R)) :=
  marker ← peek_matches (λ t, is_token Slash t || is_token DoubleSlash t);
  if marker : bool then _ ← next_token; _ ← skip_if Comma; mret (inl params)
  else
    '(kind, convention) ← function_param_convention;
    origin ← (if bool_decide (convention = Some CRef) then parse_optional_origin_specifier else mret None);
    '(name, ty) ← function_param_type kind;
    let params := params ++ [mkFunctionTypeParam name kind convention origin ty] in
    comma ← skip_if Comma; mret (if comma : bool then inl params else inr params).

(** [abi(..)], whose contents are dropped. *)
Definition skip_abi (message : string) : P unit :=
  _ ← next_token; _ ← expect LParen message;
  _ ← loop rec.(fuel) (λ u : unit,
    t ← peek_token; match t with Some RParen | None => mret (inr u) | _ => _ ← next_token; mret (inl u) end) tt;
  mret tt.

(** Whether [raises] ends without an error type. *)
Definition ends_raises (t : option Token) : bool :=
  match t with
  | None => true
  | Some t =>
      is_word "capturing" t || is_word "thin" t || is_word "abi" t ||
      existsb (λ e, is_token e t) [Arrow; RBracket; RParen; Comma; Assign; Colon; Amp; Newline; Dedent; Eof]
  end.

Definition effects_step '(thin, raises, raises_type)
    : P (bool * bool * option SourceType + bool * bool * option SourceType) :=
  t ← peek_token;
  match t with
  | Some Raises =>
      _ ← next_token; next ← peek_token;
      if ends_raises next then mret (inl (thin, true, raises_type))
      else ty ← rec.(type_); mret (inl (thin, true, Some ty))
  | Some (Identifier id) =>
      if bool_decide (id = lit "thin") then _ ← next_token; mret (inl (true, raises, raises_type))
      else if bool_decide (id = lit "abi") then
        _ ← skip_abi "Expected '(' after 'abi'"; _ ← expect RParen "Expected ')' to close 'abi(...)'";
        mret (inl (thin, raises, raises_type))
      else if bool_decide (id = lit "capturing") then throw (Message REMOVED_CAPTURING_EFFECT)
      else mret (inr (thin, raises, raises_type))
  | _ => mret (inr (thin, raises, raises_type))
  end.

(** [parse_function_type_tail]. *)
Definition parse_function_type_tail : P SourceType :=
  present ← peek_is LBracket;
  type_params ← (if present : bool then parse_type_params else mret []);
  _ ← expect LParen "Expected '(' in a function type";
  empty ← peek_is RParen;
  params ← (if empty : bool then mret [] else loop rec.(fuel) function_params_step []);
  _ ← expect RParen "Expected ')' after function-type parameters";
  '(thin, raises, raises_type) ← loop rec.(fuel) effects_step (false, false, None);
  arrow ← skip_if Arrow;
  ret ← (if arrow : bool then rec.(type_) else mret TyNone);
  where_clauses ← parse_where_clauses;
  mret (TyFunc type_params params ret thin raises raises_type where_clauses).

(** *** Types *)

(** What a type starts with: [inr] is a whole type, [inl] takes a tail. *)
Definition parse_type_head (token : Token) (start : nat) : P (SourceType + SourceType) :=
  match token with
  | Star =>
      name ← expect_identifier "Expected a type-pack name after '*'";
      qualified ← (if bool_decide (name = lit "Self") then peek_is Dot else mret false);
      if qualified : bool then
        _ ← next_token; pack ← expect_identifier "Expected a type-pack name after '*Self.'";
        mret (inr (TySelfParam (ch "*" :: pack)))
      else mret (inl (TyNamed (ch "*" :: name) []))
  | Def => inl <$> parse_function_type_tail
  | GeneratorType => inl <$> parse_generator_type_tail
  | NoneKw => mret (inl TyNone)
  | Identifier id =>
      if bool_decide (id = lit "Self") then
        qualified ← skip_if Dot;
        if qualified : bool then
          param ← expect_identifier "Expected a type parameter name after 'Self.'"; mret (inl (TySelfParam param))
        else mret (inl TySelfType)
      else
        applied ← (if bool_decide (id = lit "type_of") then peek_is LParen else mret false);
        if applied : bool then inl <$> parse_type_of_operand
        else
          reference ← (if bool_decide (id = lit "ref")
            then peek_matches (λ t, is_token LBracket t || is_identifier t || is_token Def t || is_token NoneKw t)
            else mret false);
          if reference : bool then
            origin ← parse_optional_origin_specifier; referent ← rec.(type_); mret (inl (TyRef referent origin))
          else inl <$> parse_named_type id start
  | token => unexpected token "Expected a type name"
  end.

(** [parse_type]. *)
Definition parse_type : P SourceType :=
  token ← next_token; s ← get;
  let start := s.(last_span).1 in
  ty ← parse_type_head token start;
  match ty with inr ty => mret ty | inl ty => parse_type_assoc_tail ty start end.

(** [peek_starts_type]. *)
Definition starts_type (t : Token) : bool :=
  match t with
  | NoneKw | Def | Star => true
  | Identifier id =>
      bool_decide (id ∈ [lit "StringLiteral"; lit "Self"; lit "ref"]) || is_scalar_alias_name id
  | _ => false
  end.
Definition peek_starts_type : P bool := peek_matches starts_type.

(** *** Compile-time arguments *)

(** A spread: of a pack, or of another type list. *)
Definition parse_spread_arg : P ParamArg :=
  start ← peek_start; _ ← next_token;
  named ← peek_matches is_identifier;
  if negb named then
    name ← expect_identifier "Expected a type-pack name after '*'"; mret (ArgType (TyNamed (ch "*" :: name) []))
  else
    operand ← rec.(expression) Precedence.Lowest;
    match expr_kind operand with
    | EIdentifier name => mret (ArgType (TyNamed (ch "*" :: name) []))
    | EMember (mkExpr (EIdentifier base) _) field =>
        if bool_decide (base = lit "Self") then mret (ArgType (TySelfParam (ch "*" :: field)))
        else ArgValue <$> node (ESpread operand) start
    | _ => ArgValue <$> node (ESpread operand) start
    end.

(** An expression continued from [atom]. *)
Definition value_from (atom : Expr) : P ParamArg := ArgValue <$> rec.(expression_from) atom Precedence.Lowest.

(** Whether the next token may continue an operator expression after a type. *)
Definition continues_operator : P bool :=
  t ← peek_token; mret match t with Some (Comma | RBracket | Dot | LParen) | None => false | _ => true end.

(** A call that ends a [Self]-rooted chain. *)
Definition self_method (ty : SourceType) (start : nat) : P (option (Expr * str)) :=
  span ← span_from start;
  mret match ty with
    | TySelfParam method => Some (mkExpr (EIdentifier (lit "Self")) span, method)
    | TyAssoc base name [] => (λ object, (object, name)) <$> rematerialize span base
    | _ => None
    end.

Definition method_or_type (ty : SourceType) (start : nat) : P ParamArg :=
  receiver ← self_method ty start;
  match receiver with
  | Some (object, method) =>
      called ← skip_if LParen;
      if called : bool then
        '(args, kwargs) ← parse_arguments; call ← node (EMethodCall object method args kwargs) start; value_from call
      else mret (ArgType ty)
  | None => mret (ArgType ty)
  end.

(** A [Self]-rooted chain as a value: the element list of the struct's own
    pack, or a chain the type grammar does not continue. *)
Definition self_chain (ty : SourceType) (start : nat) : P ParamArg :=
  span ← span_from start;
  let self := mkExpr (EIdentifier (lit "Self")) span in
  match ty with
  | TyAssoc (TySelfParam pack) name [] =>
      if bool_decide (name = lit "values") then
        mret (ArgValue (mkExpr (EMember (mkExpr (EMember self pack) span) (lit "values")) span))
      else method_or_type ty start
  | TySelfParam param =>
      dot ← peek_is Dot;
      if dot : bool then value_from (mkExpr (EMember self param) span) else method_or_type ty start
  | _ => method_or_type ty start
  end.

(** The argument a type that starts an operand is, or starts. *)
Definition parse_type_arg (ty : SourceType) (start : nat) : P ParamArg :=
  match ty with
  | TyRef _ (Some _) => throw (Message (lit "expected ']' in call argument list"))
  | TyValue value => value_from value
  | _ =>
      construction ← match ty with TySelfType => peek_is LParen | _ => mret false end;
      if construction : bool then span ← span_from start; value_from (mkExpr (EIdentifier (lit "Self")) span)
      else
        operator ← continues_operator;
        atom ← (if operator : bool then rematerialize_self_param_chain ty start else mret None);
        match atom with Some atom => value_from atom | None => self_chain ty start end
  end.

(** [parse_param_arg]. *)
Definition parse_param_arg : P ParamArg :=
  spread ← peek_is Star;
  if spread : bool then parse_spread_arg
  else
    ty ← peek_starts_type;
    if negb ty then ArgValue <$> rec.(expression) Precedence.Lowest
    else
      start ← peek_start; t ← peek_token;
      match (match t with Some (Identifier id) => if is_scalar_alias_name id then Some id else None | _ => None end) with
      | Some id =>
          _ ← next_token; called ← peek_is LParen;
          if called : bool then atom ← node (EIdentifier id) start; value_from atom
          else
            named ← parse_named_type id start; ty ← parse_type_assoc_tail named start; parse_type_arg ty start
      | None => ty ← parse_type; parse_type_arg ty start
      end.
End types.
