(* ===== verification/ParseExprs.v ===== *)
(** * ParseExprs: expressions and destructuring targets (mojito-parser,
      [parser/exprs.rs], [parser/suffix.rs]; the targets of
      [parser/patterns.rs], and the parameter lists, effects and captures of
      [parser/items.rs] and [parser/stmts.rs] that a lambda has) *)

From Stdlib Require Import Ascii String.
From S2P Require Import Prelude Text Literal Token Dtypes Ast Parser ParseTypes.

Section exprs.
Context {B R I : Type} `{!TokenStream B R I, !Rendered B R, !CaseTable}.
Notation Token := (Token B R).
Notation Expr := (Expr B R).
Notation ExprKind := (ExprKind B R).
Notation KwArg := (KwArg B R).
Notation SourceType := (SourceType B R).
Notation ParamArg := (ParamArg B R).
Notation SubscriptArg := (SubscriptArg B R).
Notation FnParam := (FnParam B R).
Notation DestructureTarget := (DestructureTarget B R).
Notation TargetItem := (TargetItem B R).
Notation P := (P B R I).

(** ** Destructuring targets *)

(** [expr_to_target], which never fails. *)
Fixpoint expr_to_target (value : Expr) : DestructureTarget :=
  let 'mkExpr kind span := value in
  mkTarget match kind with
    | EIdentifier name => if bool_decide (name = lit "_") then TargetDiscard else TargetPlace value
    | ETupleLit items => TargetTuple (map expr_to_target items)
    | EListLit items => TargetSequence (map (λ item, SequenceElement (expr_to_target item)) items)
    | _ => TargetPlace value
    end span.

(** [item_to_target]. *)
Definition item_to_target (item : TargetItem) : DestructureTarget :=
  match item with ItemTarget target => target | ItemExpr value => expr_to_target value end.

(** [bind_bare_names]. *)
Fixpoint bind_bare_names (target : DestructureTarget) : DestructureTarget :=
  let 'mkTarget kind span := target in
  mkTarget match kind with
    | TargetPlace (mkExpr (EIdentifier name) _) => TargetDeclare name BindImmutable
    | TargetTuple items => TargetTuple (map bind_bare_names items)
    | TargetSequence items => TargetSequence (map (λ item, match item with
        | SequenceElement target => SequenceElement (bind_bare_names target)
        | SequenceStar target => SequenceStar (bind_bare_names target)
        end) items)
    | kind => kind
    end span.

(** [declared_leaf]. *)
Definition declared_leaf (value : Expr) (mode : BindingMode) : P DestructureTarget :=
  match expr_kind value with
  | EIdentifier name =>
      mret (mkTarget (if bool_decide (name = lit "_") then TargetDiscard else TargetDeclare name mode) (expr_span value))
  | other =>
      throw (UnexpectedToken Assign (lit "expected a name in a declaring destructuring target, got " ++ debug_kind other))
  end.

Definition is_target (item : TargetItem) : bool := match item with ItemTarget _ => true | ItemExpr _ => false end.
Definition item_expr (item : TargetItem) : option Expr := match item with ItemExpr e => Some e | ItemTarget _ => None end.

Definition is_open (t : Token) : bool := is_token LParen t || is_token LBracket t.

Context (rec : Rec B R I).

(** [parse_loop_target]. *)
Definition parse_loop_target : P DestructureTarget :=
  start ← peek_start;
  targets ← loop rec.(fuel) (λ targets,
    item ← rec.(target_item) None Precedence.Comparison;
    let targets := targets ++ [item_to_target item] in
    comma ← skip_if Comma;
    if comma : bool then
      ends ← peek_is Token.In;
      if ends : bool then unexpected Token.In "unexpected token in expression" else mret (inl targets)
    else mret (inr targets)) [];
  span ← significant_span start;
  mret (bind_bare_names match targets with [target] => target | _ => mkTarget (TargetTuple targets) span end).

(** [parse_comprehension_clauses]. *)
Definition comprehension_step (clauses : list (ComprehensionClause B R))
    : P (list (ComprehensionClause B R) + list (ComprehensionClause B R)) :=
  t ← peek_token;
  match t with
  | Some For =>
      _ ← next_token; target ← parse_loop_target;
      _ ← expect Token.In "Expected 'in' in comprehension";
      iter ← rec.(expression) Precedence.Conditional;
      mret (inl (clauses ++ [ClauseFor target iter None]))
  | Some If =>
      match clauses with
      | [] => unexpected If "a comprehension must begin with a 'for' clause"
      | _ =>
          _ ← next_token; condition ← rec.(expression) Precedence.Conditional;
          mret (inl (clauses ++ [ClauseIf condition]))
      end
  | _ => mret (inr clauses)
  end.

Definition parse_comprehension_clauses : P (list (ComprehensionClause B R)) :=
  clauses ← loop rec.(fuel) comprehension_step [];
  match clauses with
  | [] => t ← peek_or Eof; unexpected t "expected a comprehension 'for' clause"
  | _ => mret clauses
  end.

(** [parse_target_display]: an element, and the comprehension that a [for]
    after the first one starts. *)
Definition display_comprehension (declare : option BindingMode) (close : Token) (sequence : bool) (start : nat)
    (item : TargetItem) : P TargetItem :=
  match item, declare with
  | ItemExpr value, None =>
      clauses ← parse_comprehension_clauses;
      _ ← expect close "Expected the closing bracket after a comprehension";
      if sequence then ItemExpr <$> node (EComprehension CollectionList None value clauses) start
      else unexpected LParen "generator expressions are not supported"
  | _, _ => unexpected For "a comprehension is not a destructuring target"
  end.

Definition display_state : Type := list TargetItem * option nat * bool.

Definition display_step (declare : option BindingMode) (close : Token) (sequence : bool) (start : nat)
    '((items, starred, saw_comma) : display_state) : P (display_state + (TargetItem + display_state)) :=
  closed ← peek_is close;
  if closed : bool then mret (inr (inr (items, starred, saw_comma)))
  else
    let next '((items, starred) : list TargetItem * option nat) :=
      comma ← skip_if Comma;
      mret (if comma : bool then inl (items, starred, true) else inr (inr (items, starred, saw_comma))) in
    star ← (if sequence then peek_is Star else mret false);
    if star : bool then
      star_start ← peek_start; _ ← next_token;
      match starred with
      | Some _ => unexpected Star "multiple starred expressions in list pattern"
      | None =>
          item ← rec.(target_item) declare Precedence.Lowest;
          span ← significant_span star_start;
          next (items ++ [ItemTarget (mkTarget (target_kind (item_to_target item)) span)], Some (length items))
      end
    else
      item ← rec.(target_item) declare Precedence.Lowest;
      comprehension ← match items with [] => peek_is For | _ => mret false end;
      if comprehension : bool then (inr ∘ inl) <$> display_comprehension declare close sequence start item
      else next (items ++ [item], starred).

Definition parse_target_display (declare : option BindingMode) : P TargetItem :=
  start ← peek_start; open ← next_token;
  match (match open with LParen => Some (RParen, false) | LBracket => Some (RBracket, true) | _ => None end) with
  | None => unexpected open "expected '(' or '[' to open a destructuring target"
  | Some (close, sequence) =>
      parsed ← loop rec.(fuel) (display_step declare close sequence start) ([], None, false);
      match parsed with
      | inl comprehension => mret comprehension
      | inr (items, starred, saw_comma) =>
          _ ← expect close (if sequence : bool then "Expected ']' after list elements" else "Expected ')' after tuple elements");
          span ← significant_span start;
          match items, declare, sequence, saw_comma with
          | [item], None, false, false => mret item
          | _, _, _, _ =>
              if negb (existsb is_target items) && bool_decide (declare = None) && bool_decide (starred = None) then
                let elements := omap item_expr items in
                ItemExpr <$> node (if sequence then EListLit elements else ETupleLit elements) start
              else
                let targets := map item_to_target items in
                mret (ItemTarget (mkTarget (if sequence
                  then TargetSequence (imap (λ index target,
                    if bool_decide (starred = Some index) then SequenceStar target else SequenceElement target) targets)
                  else TargetTuple targets) span))
          end
      end
  end.

(** [parse_declared_target]. *)
Definition parse_declared_target (mode : BindingMode) (start : nat) : P TargetItem :=
  display ← peek_matches is_open;
  if display : bool then
    item ← parse_target_display (Some mode); span ← significant_span start;
    mret (ItemTarget (mkTarget (target_kind (item_to_target item)) span))
  else
    let keyword := match mode with BindVar => "var" | BindRef => "ref" | BindImmutable => "a binding" end%string in
    name ← expect_name (lit "expected a name after '" ++ lit keyword ++ lit "'");
    span ← significant_span start;
    mret (ItemTarget (mkTarget (if bool_decide (name = lit "_") then TargetDiscard else TargetDeclare name mode) span)).

(** [parse_target_item]. *)
Definition parse_target_item (declare : option BindingMode) (min : Precedence) : P TargetItem :=
  start ← peek_start; t ← peek_token;
  let bare :=
    value ← rec.(expression) min;
    match declare with None => mret (ItemExpr value) | Some mode => ItemTarget <$> declared_leaf value mode end in
  match t with
  | Some Token.Var => _ ← next_token; parse_declared_target BindVar start
  | Some (LParen | LBracket) =>
      item ← parse_target_display declare;
      match item with
      | ItemExpr value => ItemExpr <$> rec.(expression_from) value min
      | ItemTarget target => mret (ItemTarget target)
      end
  | Some (Identifier word) =>
      if bool_decide (word = lit "ref") then _ ← next_token; parse_declared_target BindRef start else bare
  | _ => bare
  end.

(** ** Strings *)

(** [push_tstring_literal]. *)
Definition push_tstring_literal (parts : list (TStringPart B R)) (text : str) : list (TStringPart B R) :=
  match text, last parts with
  | [], _ => parts
  | _, Some (PartLiteral previous) => removelast parts ++ [PartLiteral (previous ++ text)]
  | _, _ => parts ++ [PartLiteral text]
  end.

(** [parse_interpolation]: a parser of its own reads the fragment. *)
Definition parse_interpolation (src : str) : P Expr := λ s,
  (fst ((expr ← rec.(expression) Precedence.Lowest; _ ← expect_stmt_end; mret expr) (new_parser (new_stream src))), s).

Fixpoint push_chunks (chunks : list TStringChunk) (parts : list (TStringPart B R)) : P (list (TStringPart B R)) :=
  match chunks with
  | [] => mret parts
  | TText text :: chunks => push_chunks chunks (push_tstring_literal parts text)
  | TInterp src :: chunks => expr ← parse_interpolation src; push_chunks chunks (parts ++ [PartExpr expr])
  end.

(** The parts of adjacent t-strings, and whether all are raw. *)
Fixpoint tstring_parts (tokens : list Token) (parts : list (TStringPart B R)) (raws : bool)
    : P (list (TStringPart B R) * bool) :=
  match tokens with
  | [] => mret (parts, raws)
  | TString chunks raw :: tokens => parts ← push_chunks chunks parts; tstring_parts tokens parts (raws && raw)
  | _ :: _ => panic
  end.

(** The text of adjacent strings. *)
Fixpoint string_text (tokens : list Token) (value : str) : P str :=
  match tokens with
  | [] => mret value
  | (StringLiteral piece _ | TripleStringLiteral piece _) :: tokens => string_text tokens (value ++ piece)
  | _ :: _ => panic
  end.

Definition is_tstring (t : Token) : bool := match t with TString _ _ => true | _ => false end.
Definition is_string (t : Token) : bool :=
  match t with StringLiteral _ _ | TripleStringLiteral _ _ => true | _ => false end.

(** [build_string_sequence]. *)
Definition build_string_sequence (first : Token) (start : nat) : P Expr :=
  let same := if is_tstring first then is_tstring else is_string in
  tokens ← loop rec.(fuel) (λ tokens,
    again ← peek_matches same;
    if again : bool then t ← next_token; mret (inl (tokens ++ [t])) else mret (inr tokens)) [first];
  if is_tstring first then '(parts, raw) ← tstring_parts tokens [] true; node (ETString parts raw) start
  else value ← string_text tokens []; node (EStr value) start.

(** ** Parameters, effects and captures *)

(** [ParamList]. *)
Definition ParamList : Type := list FnParam * option nat * option nat.

(** [parse_convention_and_name]. *)
Definition parse_convention_and_name : P (option ArgConvention * option (list Expr) * str) :=
  var ← skip_if Token.Var;
  word ← (if var : bool then mret (lit "var") else expect_identifier "Expected a parameter name");
  bare ← peek_is Colon;
  if bare : bool then mret (None, None, word)
  else
    match (if bool_decide (word = lit "var") then Some CVar else convention_word word) with
    | None =>
        match removed_convention_error word with
        | Some error => throw error
        | None =>
            unexpected (Identifier word) "expected a parameter name (or a convention: imm/mut/var/out/ref)"
        end
    | Some convention =>
        origin ← (if bool_decide (convention = CRef) then parse_optional_origin_specifier rec else mret None);
        name ← expect_identifier "Expected a parameter name after the convention";
        mret (Some convention, origin, name)
    end.

(** [finish_param]. *)
Definition finish_param (name : str) (kind : ParamKind) (convention : option ArgConvention) (origin : option (list Expr))
    : P FnParam :=
  _ ← expect Colon "Parameters require a type annotation";
  ty ← rec.(type_);
  assigned ← skip_if Assign;
  default ← (if assigned : bool then Some <$> rec.(expression) Precedence.Lowest else mret None);
  mret (mkFnParam name ty default kind convention origin).

(** [finish_leading_param]. *)
Definition finish_leading_param (name : str) (convention : option ArgConvention) (origin : option (list Expr))
    (self_typed : bool) : P FnParam :=
  unannotated ← (if self_typed && bool_decide (name = lit "self") && bool_decide (convention ≠ Some COut)
    then negb <$> peek_is Colon else mret false);
  if unannotated : bool then mret (mkFnParam name TySelfType None Regular convention origin)
  else finish_param name Regular convention origin.

(** The parameter after [var]. *)
Definition var_param (self_typed : bool) : P FnParam :=
  _ ← next_token;
  pack ← skip_if DoubleStar;
  if pack : bool then
    name ← expect_identifier "Expected a name after 'var **'"; finish_param name KwVariadic (Some CVar) None
  else
    pack ← skip_if Star;
    if pack : bool then
      name ← expect_identifier "Expected a name after 'var *'"; finish_param name Variadic (Some CVar) None
    else
      name ← expect_identifier "Expected a parameter name after the convention";
      finish_leading_param name (Some CVar) None self_typed.

(** A regular parameter. *)
Definition regular_param (self_typed initializer : bool) : P FnParam :=
  bare ← (if self_typed then peek_matches (is_word "self") else mret false);
  '(convention, origin, name) ← (if bare : bool
    then name ← expect_identifier "Expected 'self'"; mret (None, None, name)
    else parse_convention_and_name);
  unannotated ← (if initializer && bool_decide (name = lit "self") && bool_decide (convention = Some COut)
    then negb <$> peek_is Colon else mret false);
  if unannotated : bool then mret (mkFnParam name TySelfType None Regular convention origin)
  else finish_leading_param name convention origin self_typed.

(** [parse_param_list]. *)
Definition param_list_step (self_typed_leading initializer : bool) '((params, positional_only, keyword_only) : ParamList)
    : P (ParamList + ParamList) :=
  let self_typed := self_typed_leading && bool_decide (params = []) in
  t ← peek_token;
  list ← match t with
    | Some Slash => _ ← next_token; mret (params, Some (length params), keyword_only)
    | Some DoubleStar =>
        t ← next_token; unexpected t "a keyword-variadic parameter must be spelled 'var **name: Type'"
    | Some Star =>
        _ ← next_token; named ← peek_matches is_identifier;
        if named : bool then
          name ← expect_identifier "Expected a name after '*'";
          param ← finish_param name Variadic None None; mret (params ++ [param], positional_only, keyword_only)
        else mret (params, positional_only, Some (length params))
    | Some Token.Var => param ← var_param self_typed; mret (params ++ [param], positional_only, keyword_only)
    | _ => param ← regular_param self_typed initializer; mret (params ++ [param], positional_only, keyword_only)
    end;
  again ← more RParen; mret (if again : bool then inl list else inr list).

Definition parse_param_list (self_typed_leading initializer : bool) : P ParamList :=
  empty ← peek_is RParen;
  if empty : bool then mret ([], None, None)
  else loop rec.(fuel) (param_list_step self_typed_leading initializer) ([], None, None).

(** [parse_params]. *)
Definition parse_params : P ParamList := parse_param_list false false.

(** [parse_raises_effect]. *)
Definition parse_raises_effect : P (bool * option SourceType) :=
  raises ← skip_if Raises;
  if raises : bool then
    ends ← peek_matches (λ t,
      is_word "capturing" t || is_word "thin" t || is_word "abi" t || is_word "where" t ||
      is_token Arrow t || is_token Colon t || is_token LBrace t);
    error ← (if ends : bool then mret None else Some <$> rec.(type_));
    mret (true, error)
  else mret (false, None).

(** [parse_erased_callable_effects]. *)
Definition parse_erased_callable_effects : P unit :=
  loop rec.(fuel) (λ u : unit,
    t ← peek_token;
    match t with
    | Some (Identifier effect) =>
        if bool_decide (effect = lit "capturing") then throw (Message REMOVED_CAPTURING_EFFECT)
        else if bool_decide (effect = lit "thin") then _ ← next_token; mret (inl u)
        else if bool_decide (effect = lit "abi") then
          _ ← skip_abi rec "Expected '(' after abi"; _ ← expect RParen "Expected ')' after abi"; mret (inl u)
        else mret (inr u)
    | _ => mret (inr u)
    end) tt.

(** [parse_callable_effects]. *)
Definition parse_callable_effects : P (bool * option SourceType) :=
  loop rec.(fuel) (λ '((raises, raises_type) : bool * option SourceType),
    t ← peek_token;
    match t with
    | Some Raises =>
        if raises then mret (inr (raises, raises_type)) else inl <$> parse_raises_effect
    | Some t =>
        if is_word "capturing" t || is_word "thin" t || is_word "abi" t
        then _ ← parse_erased_callable_effects; mret (inl (raises, raises_type))
        else mret (inr (raises, raises_type))
    | None => mret (inr (raises, raises_type))
    end) (false, None).

(** [parse_capture_list]. *)
Definition capture_convention : P (option CaptureKind) :=
  t ← peek_token;
  match t with
  | Some Token.Var => _ ← next_token; mret (Some CaptureCopy)
  | Some (Identifier word) =>
      if bool_decide (word = lit "imm") then _ ← next_token; mret (Some CaptureImm)
      else match removed_convention_error word with
      | Some error => throw error
      | None =>
          if bool_decide (word = lit "mut") then _ ← next_token; mret (Some CaptureMut)
          else if bool_decide (word = lit "ref") then _ ← next_token; mret (Some CaptureRef)
          else mret None
      end
  | _ => mret None
  end.

Definition capture_step '((entries, default) : list Capture * option CaptureKind)
    : P (list Capture * option CaptureKind + list Capture * option CaptureKind) :=
  closed ← peek_is RBrace;
  if closed : bool then mret (inr (entries, default))
  else
    convention ← capture_convention;
    named ← peek_matches is_identifier;
    name ← (if named : bool then Some <$> expect_identifier "Expected a captured name"
      else match convention with
        | None => t ← next_token; unexpected t "Expected a capture convention or captured name"
        | Some _ => mret None
        end);
    moved ← skip_if Caret;
    kind ← match moved : bool, convention with
      | true, (None | Some CaptureCopy) => mret CaptureMove
      | true, _ => unexpected Caret "'^' requires the 'var' capture convention"
      | false, Some kind => mret kind
      | false, None => mret CaptureImm
      end;
    '(entries, default) ← match name, default with
      | Some name, _ =>
          if existsb (λ capture, bool_decide (capture.(capture_name) = name)) entries
          then throw (UnexpectedToken (Identifier name) (lit "duplicate capture '" ++ name ++ lit "'"))
          else mret (entries ++ [mkCapture name kind], default)
      | None, None => mret (entries, Some kind)
      | None, Some _ =>
          unexpected (Identifier (lit "capture convention")) "default capture convention was already specified"
      end;
    comma ← skip_if Comma;
    if comma : bool then mret (inl (entries, default))
    else
      closed ← peek_is RBrace;
      if closed : bool then mret (inl (entries, default))
      else t ← next_token; unexpected t "Expected ',' or '}' in capture list".

Definition parse_capture_list : P (option CaptureList) :=
  present ← skip_if LBrace;
  if present : bool then
    '(entries, default) ← loop rec.(fuel) capture_step ([], None);
    _ ← next_token; mret (Some (mkCaptures entries default))
  else mret None.

(** [parse_lambda]: a hidden definition that returns the body. *)
Definition lambda_params : P ParamList :=
  open ← skip_if LParen;
  if open : bool then
    list ← parse_params; _ ← expect RParen "Expected ')' after lambda arguments"; mret list
  else
    stray ← peek_matches (λ t, is_identifier t && negb (is_word "capturing" t || is_word "thin" t || is_word "abi" t));
    if stray : bool then
      t ← next_token; unexpected t "lambda arguments must be parenthesized and typed, e.g. 'lambda (x: Int) ...'"
    else mret ([], None, None).

Definition parse_lambda (start : nat) : P Expr :=
  type_params ← parse_type_params rec;
  '(params, positional_only, keyword_only) ← lambda_params;
  '(raises, raises_type) ← parse_callable_effects;
  captures ← parse_capture_list;
  arrow ← skip_if Arrow;
  ret ← (if arrow : bool then Some <$> rec.(type_) else mret None);
  _ ← expect Colon "Expected ':' before the lambda body";
  body ← rec.(expression) Precedence.Walrus;
  span ← span_from start;
  node (ELambda (mkStmt (SDef (lit "$lambda$" ++ Z_display (Z.of_nat start)) [] type_params params positional_only keyword_only
    captures raises raises_type ret [] [mkStmt (SReturn (Some body)) (expr_span body)]) span)) start.

(** ** Postfix brackets *)

(** [ParsedBracketItem]. *)
Inductive BracketItem : Type :=
| BracketParam (arg : ParamArg)
| BracketSlice (lower upper step : option Expr)
| BracketKeywordSlice (name : str) (lower upper step : option Expr).

(** [parse_slice_components]. *)
Definition parse_slice_components : P (option Expr * option Expr) :=
  _ ← expect Colon "Expected ':' in a slice";
  open ← peek_matches (λ t, is_token Colon t || is_token Comma t || is_token RBracket t);
  upper ← (if open : bool then mret None else Some <$> rec.(expression) Precedence.Lowest);
  stepped ← skip_if Colon;
  if stepped : bool then
    open ← peek_matches (λ t, is_token Comma t || is_token RBracket t);
    step ← (if open : bool then mret None else Some <$> rec.(expression) Precedence.Lowest);
    mret (upper, step)
  else mret (upper, None).

(** The item an argument is, or whose lower bound it is when [:] follows. *)
Definition bracket_argument (argument : ParamArg) : P BracketItem :=
  colon ← peek_is Colon;
  if negb colon then mret (BracketParam argument)
  else
    match argument with
    | ArgValue value => '(upper, step) ← parse_slice_components; mret (BracketSlice (Some value) upper step)
    | ArgType TyNone =>
        s ← get; '(upper, step) ← parse_slice_components;
        mret (BracketSlice (Some (mkExpr ENone s.(last_span))) upper step)
    | ArgNamed name (ArgValue lower) =>
        '(upper, step) ← parse_slice_components; mret (BracketKeywordSlice name (Some lower) upper step)
    | _ => unexpected Colon "a slice bound must be an expression"
    end.

Definition bracket_item : P BracketItem :=
  colon ← peek_is Colon;
  if colon : bool then '(upper, step) ← parse_slice_components; mret (BracketSlice None upper step)
  else
    argument ← rec.(param_arg);
    named ← peek_is Assign;
    if named : bool then
      name ← param_argument_name argument; _ ← next_token;
      colon ← peek_is Colon;
      if colon : bool then '(upper, step) ← parse_slice_components; mret (BracketKeywordSlice name None upper step)
      else value ← rec.(expression) Precedence.Lowest; bracket_argument (ArgNamed name (ArgValue value))
    else bracket_argument argument.

Definition is_slice (item : BracketItem) : bool :=
  match item with BracketParam _ => false | BracketSlice _ _ _ | BracketKeywordSlice _ _ _ _ => true end.

(** The arguments of items without a slice; the code's [unreachable!] is the
    panic. *)
Fixpoint bracket_params (items : list BracketItem) : P (list ParamArg) :=
  match items with
  | [] => mret []
  | BracketParam arg :: items => args ← bracket_params items; mret (arg :: args)
  | _ :: _ => panic
  end.

(** Mixed slices and indices. *)
Fixpoint subscript_args (items : list BracketItem) : P (list SubscriptArg) :=
  match items with
  | [] => mret []
  | item :: items =>
      arg ← match item with
        | BracketParam (ArgValue value) => mret (SubIndex value)
        | BracketParam _ => unexpected RBracket "a mixed subscript argument must be an expression"
        | BracketSlice lower upper step => mret (SubSlice lower upper step)
        | BracketKeywordSlice name lower upper step => mret (SubKeywordSlice name lower upper step)
        end;
      args ← subscript_args items; mret (arg :: args)
  end.

(** [expression_name_starts_lowercase]. *)
Definition starts_lowercase (name : str) : bool := match name with c :: _ => is_lowercase c | [] => false end.
Fixpoint expression_name_starts_lowercase (e : Expr) : bool :=
  match e with
  | mkExpr (EIdentifier name) _ => starts_lowercase name
  | mkExpr (EMember object field) _ => starts_lowercase field && expression_name_starts_lowercase object
  | mkExpr (ECall _ _ _ _ | EMethodCall _ _ _ _ | EInvoke _ _ _ _ | EIndex _ _ | EMultiIndex _ _ | ESlice _ _ _ _) _ => true
  | _ => false
  end.

(** [Expr::type_spelling]. *)
Definition starts_type_name (name : str) : bool := match name with c :: _ => negb (is_lowercase c) | [] => false end.
Fixpoint type_spelling (e : Expr) : option SourceType :=
  match e with
  | mkExpr (EIdentifier name) _ =>
      if bool_decide (name = lit "Self") then Some TySelfType
      else if starts_type_name name then Some (TyNamed name []) else None
  | mkExpr (ETypeApply name args) _ => Some (TyNamed name args)
  | mkExpr (EIndex (mkExpr (EIdentifier name) _) index) _ =>
      if starts_type_name name then Some (TyNamed name [ArgValue index]) else None
  | mkExpr (EMember object field) _ =>
      base ← type_spelling object;
      Some match base with TySelfType => TySelfParam field | base => TyAssoc base field [] end
  | _ => None
  end.

(** [parameter_application]. *)
Definition application_index (span : Span) (argument : ParamArg) : P Expr :=
  match argument with
  | ArgValue value => mret value
  | ArgType ty => mret (mkExpr (ETypeValue ty) span)
  | ArgNamed _ _ => unexpected RBracket "a keyword argument takes one compile-time value"
  end.

Fixpoint application_indices (span : Span) (args : list ParamArg) : P (list SubscriptArg) :=
  match args with
  | [] => mret []
  | argument :: args =>
      index ← match argument with
        | ArgNamed name value => SubKeyword name <$> application_index span value
        | argument => SubIndex <$> application_index span argument
        end;
      indices ← application_indices span args; mret (index :: indices)
  end.

Definition parameter_application (object : Expr) (args : list ParamArg) (start : nat) : P Expr :=
  match (match expr_kind object with EMember base _ => type_spelling base | _ => None end) with
  | None => name ← call_name object; node (ETypeApply name args) start
  | Some _ =>
      span ← span_from start; indices ← application_indices span args;
      node match indices with [SubIndex index] => EIndex object index | _ => EMultiIndex object indices end start
  end.

(** A call of [left], by name where it has one. *)
Definition call_kind (left : Expr) (param_args : list ParamArg) (args : list Expr) (kwargs : list KwArg) : ExprKind :=
  match expr_kind left with
  | EIdentifier name => ECall name param_args args kwargs
  | _ => EInvoke left param_args args kwargs
  end.

Definition is_value (arg : ParamArg) : bool := match arg with ArgValue _ => true | _ => false end.
Definition is_named (arg : ParamArg) : bool := match arg with ArgNamed _ _ => true | _ => false end.

(** A keyword subscript: named values, and values, over a value base. *)
Definition keyword_subscript (arg : ParamArg) : option SubscriptArg :=
  match arg with
  | ArgNamed name (ArgValue value) => Some (SubKeyword name value)
  | ArgValue value => Some (SubIndex value)
  | _ => None
  end.

(** A value subscript, where [None] is a value. *)
Definition value_subscript (span : Span) (arg : ParamArg) : option SubscriptArg :=
  match arg with
  | ArgValue value => Some (SubIndex value)
  | ArgType TyNone => Some (SubIndex (mkExpr ENone span))
  | _ => None
  end.

(** Whether a type is [Self.o], or a chain rooted at it whose applications are
    single values. *)
Fixpoint self_param_rooted (ty : SourceType) : bool :=
  match ty with
  | TySelfParam _ => true
  | TyAssoc base _ args => self_param_rooted base && match args with [] | [ArgValue _] => true | _ => false end
  | TyIndexedProjection base _ => self_param_rooted base
  | _ => false
  end.

(** A subscript without slices that no call follows. *)
Definition single_subscript (object : Expr) (arg : ParamArg) (start : nat) : P Expr :=
  match arg with
  | ArgValue index => node (EIndex object index) start
  | ArgType ty =>
      span ← span_from start;
      if match ty with TyNone => expression_name_starts_lowercase object | _ => false end
      then node (EIndex object (mkExpr ENone span)) start
      else if match expr_kind object with EIdentifier _ => false | _ => self_param_rooted ty end then
        match rematerialize span ty with
        | Some binder => node (EIndex object binder) start
        | None => panic
        end
      else parameter_application object [arg] start
  | ArgNamed _ _ => parameter_application object [arg] start
  end.

Definition is_attribute (object : Expr) : bool :=
  match expr_kind object with EIdentifier name => bool_decide (name = lit "__mlir_attr") | _ => false end.

Definition plain_subscript (object : Expr) (args : list ParamArg) (start : nat) : P Expr :=
  if is_attribute object then parameter_application object args start
  else
    let value_base := expression_name_starts_lowercase object in
    span ← span_from start;
    match (if existsb is_named args && value_base then mapM keyword_subscript args else None), args with
    | Some indices, _ => node (EMultiIndex object indices) start
    | None, [arg] => single_subscript object arg start
    | None, _ =>
        match (if value_base then mapM (value_subscript span) args else None) with
        | Some indices => node (EMultiIndex object indices) start
        | None => parameter_application object args start
        end
    end.

(** [parse_bracket_suffix]. *)
Definition parse_bracket_suffix (object : Expr) (start : nat) : P Expr :=
  _ ← expect LBracket "Expected '['";
  empty ← skip_if RBracket;
  if empty : bool then s ← get; node (EIndex object (mkExpr EEmptySubscript s.(last_span))) start
  else
    items ← loop rec.(fuel) (λ items,
      item ← bracket_item; again ← more RBracket;
      mret (if again : bool then inl (items ++ [item]) else inr (items ++ [item]))) [];
    _ ← expect RBracket "Expected ']' after a subscript";
    called ← peek_is LParen;
    if called : bool then
      if existsb is_slice items
      then unexpected LParen "slice expressions cannot be compile-time call parameters"
      else
        param_args ← bracket_params items; _ ← next_token;
        '(args, kwargs) ← parse_arguments rec; node (call_kind object param_args args kwargs) start
    else if existsb is_slice items then
      arguments ← subscript_args items;
      node match arguments with
        | [SubSlice lower upper step] => ESlice object lower upper step
        | _ => EMultiIndex object arguments
        end start
    else param_args ← bracket_params items; plain_subscript object param_args start.

(** ** Prefix forms *)

(** Elements after the first, each after a comma. *)
Definition parse_elements (close : Token) (first : Expr) : P (list Expr) :=
  loop rec.(fuel) (λ elems,
    again ← more close;
    if again : bool then elem ← rec.(expression) Precedence.Lowest; mret (inl (elems ++ [elem]))
    else mret (inr elems)) [first].

(** [keyword_entry]. *)
Definition keyword_entry (entry : Expr) : P (option str) :=
  match expr_kind entry with
  | EIdentifier name => b ← peek_is Assign; mret (if b : bool then Some name else None)
  | _ => mret None
  end.

(** [parse_initializer_list]. *)
Definition initializer_step '((kwargs, name) : list KwArg * str) : P (list KwArg * str + list KwArg) :=
  _ ← next_token; value ← rec.(expression) Precedence.Lowest;
  let kwargs := kwargs ++ [mkKwArg name value] in
  again ← more RBrace;
  if again : bool then
    entry ← rec.(expression) Precedence.Lowest; name ← keyword_entry entry;
    match name with
    | Some name => mret (inl (kwargs, name))
    | None => unexpected Comma "a positional entry cannot follow a keyword entry"
    end
  else mret (inr kwargs).

Definition parse_initializer_list (start : nat) (args : list Expr) (name : str) : P Expr :=
  kwargs ← loop rec.(fuel) initializer_step ([], name);
  _ ← expect RBrace "Expected '}' after initializer list"; node (EInitializerList args kwargs) start.

(** The value after a brace entry's [:]. *)
Definition entry_value : P (option Expr) :=
  colon ← skip_if Colon; if colon : bool then Some <$> rec.(expression) Precedence.Lowest else mret None.

Notation entries := (list (Expr * option Expr)).

Definition brace_step (dictionary : bool) (es : entries) : P (entries + (entries + list Expr * str)) :=
  again ← more RBrace;
  if again : bool then
    key ← rec.(expression) Precedence.Lowest;
    keyword ← (if dictionary then mret None else keyword_entry key);
    match keyword with
    | Some name => mret (inr (inr (fst <$> es, name)))
    | None =>
        value ← entry_value;
        if Bool.eqb dictionary (bool_decide (is_Some value)) then mret (inl (es ++ [(key, value)]))
        else t ← peek_or RBrace; unexpected t "set elements and dictionary key/value pairs cannot be mixed"
    end
  else mret (inr (inl es)).

Definition parse_brace (start : nat) : P Expr :=
  empty ← skip_if RBrace;
  if empty : bool then node (EBraceLit []) start
  else
    first_key ← rec.(expression) Precedence.Lowest;
    keyword ← keyword_entry first_key;
    match keyword with
    | Some name => parse_initializer_list start [] name
    | None =>
        first_value ← entry_value;
        comprehension ← peek_is For;
        if comprehension : bool then
          clauses ← parse_comprehension_clauses;
          _ ← expect RBrace "Expected '}' after collection comprehension";
          node match first_value with
            | Some value => EComprehension CollectionDict (Some first_key) value clauses
            | None => EComprehension CollectionSet None first_key clauses
            end start
        else
          parsed ← loop rec.(fuel) (brace_step (bool_decide (is_Some first_value))) [(first_key, first_value)];
          match parsed with
          | inr (args, name) => parse_initializer_list start args name
          | inl es => _ ← expect RBrace "Expected '}' after brace literal"; node (EBraceLit es) start
          end
    end.

(** A parenthesized form: a tuple, or the expression it groups. *)
Definition parse_paren (start : nat) : P Expr :=
  empty ← skip_if RParen;
  if empty : bool then node (ETupleLit []) start
  else
    first ← rec.(expression) Precedence.Lowest;
    tuple ← peek_is Comma;
    if tuple : bool then
      elems ← parse_elements RParen first;
      _ ← expect RParen "Expected ')' after tuple elements"; node (ETupleLit elems) start
    else _ ← expect RParen "Expected closing ')' after expression"; mret first.

(** A list display or comprehension. *)
Definition parse_list (start : nat) : P Expr :=
  empty ← skip_if RBracket;
  if empty : bool then node (EListLit []) start
  else
    first ← rec.(expression) Precedence.Lowest;
    comprehension ← peek_is For;
    if comprehension : bool then
      clauses ← parse_comprehension_clauses;
      _ ← expect RBracket "Expected ']' after list comprehension";
      node (EComprehension CollectionList None first clauses) start
    else
      elems ← parse_elements RBracket first;
      _ ← expect RBracket "Expected ']' after list elements"; node (EListLit elems) start.

(** A member of [object], or a call of it. *)
Definition parse_member (object : Expr) (field : str) (start : nat) : P Expr :=
  called ← skip_if LParen;
  if called : bool then
    '(args, kwargs) ← parse_arguments rec; node (EMethodCall object field args kwargs) start
  else node (EMember object field) start.

Definition prefix_operand (op : PrefixOp) (min : Precedence) (start : nat) : P Expr :=
  operand ← rec.(expression) min; node (EPrefix op operand) start.

(** [parse_prefix]. *)
Definition parse_prefix : P Expr :=
  start ← peek_start; token ← next_token;
  match token with
  | IntLit val _ => node (EInt val) start
  | FloatLit val _ => node (EFloat val) start
  | BoolLiteral val => node (EBool val) start
  | StringLiteral _ _ | TripleStringLiteral _ _ | TString _ _ => build_string_sequence token start
  | NoneKw => node ENone start
  | Ellipsis => node (EIdentifier (lit "...")) start
  | Identifier id => node (EIdentifier id) start
  | IsRunInComptimeInterpreter => node EIsRunInComptimeInterpreter start
  | Def => ty ← parse_function_type_tail rec; node (ETypeValue ty) start
  | GeneratorType => ty ← parse_generator_type_tail rec; node (ETypeValue ty) start
  | Lambda => parse_lambda start
  | Comptime =>
      _ ← expect LParen "Expected '(' after 'comptime' in an expression";
      inner ← rec.(expression) Precedence.Lowest;
      _ ← expect RParen "Expected ')' after the comptime expression";
      node (ECall (lit "comptime") [] [inner] []) start
  | Minus => prefix_operand PrefixNeg Precedence.Unary start
  | Plus => prefix_operand PrefixPos Precedence.Unary start
  | Tilde => prefix_operand PrefixInvert Precedence.Unary start
  | Token.Not => prefix_operand PrefixNot Precedence.Not start
  | LParen => parse_paren start
  | LBracket => parse_list start
  | LBrace => parse_brace start
  | Dot =>
      sentinel ← node (EIdentifier CONTEXTUAL_SENTINEL) start;
      field ← expect_member_name "Expected a member name after a leading '.'";
      parse_member sentinel field start
  | token => unexpected token "Expected an expression"
  end.

(** ** Infix forms *)

Definition is_comparison (t : Token) : bool :=
  match t with EqEq | NotEq | TLt | TGt | TLe | TGe | Token.In | Token.Is | Token.Not => true | _ => false end.

(** [peek_is_comparison]. *)
Definition peek_is_comparison : P bool := peek_matches is_comparison.

(** [parse_comparison_op]. *)
Definition parse_comparison_op : P InfixOp :=
  t ← next_token;
  match t with
  | EqEq => mret Eq_ | NotEq => mret Ne | TLt => mret Lt_ | TGt => mret Gt_ | TLe => mret Le | TGe => mret Ge
  | Token.In => mret In_
  | Token.Is => not ← skip_if Token.Not; mret (if not : bool then IsNot else Is)
  | Token.Not => _ ← expect Token.In "Expected 'in' after 'not' in a membership test"; mret NotIn
  | other => unexpected other "Expected a comparison operator"
  end.

(** [peek_precedence]. *)
Definition token_precedence (t : Token) : Precedence :=
  match t with
  | ColonEq => Precedence.Walrus
  | If => Precedence.Conditional
  | Token.Or => Precedence.Or
  | Token.And => Precedence.And
  | EqEq | NotEq | TLt | TGt | TLe | TGe | Token.In | Token.Not | Token.Is => Precedence.Comparison
  | Pipe => Precedence.BitOr
  | Caret => Precedence.BitXor
  | Amp => Precedence.BitAnd
  | Token.Shl | Token.Shr => Precedence.Shift
  | Plus | Minus => Precedence.Sum
  | Star | Slash | DoubleSlash | Percent | At => Precedence.Product
  | DoubleStar => Precedence.Power
  | LParen | LBracket | Dot => Precedence.Call
  | _ => Precedence.Lowest
  end.
Definition peek_precedence : P Precedence :=
  t ← peek_token; mret match t with Some t => token_precedence t | None => Precedence.Lowest end.

(** Whether a [^] adjacent to [left] follows: the transfer sigil. *)
Definition peek_transfer (left : Expr) : P bool :=
  caret ← peek_is Caret;
  if caret : bool then start ← peek_start; mret (bool_decide ((expr_span left).2 = start)) else mret false.

Definition binary_op (t : Token) : option InfixOp :=
  match t with
  | Plus => Some Add | Minus => Some Sub | Star => Some Mul | Slash => Some Div | DoubleSlash => Some FloorDiv
  | Percent => Some Mod | At => Some MatMul | Token.Shl => Some Shl | Token.Shr => Some Shr | Amp => Some BitAnd
  | Pipe => Some BitOr | Caret => Some BitXor | DoubleStar => Some Pow | Token.And => Some And | Token.Or => Some Or
  | _ => None
  end.

(** The comparisons of a chain. *)
Definition comparison_step (rest : list (InfixOp * Expr)) : P (list (InfixOp * Expr) + list (InfixOp * Expr)) :=
  op ← parse_comparison_op; right ← rec.(expression) Precedence.Comparison;
  again ← peek_is_comparison;
  mret (if again : bool then inl (rest ++ [(op, right)]) else inr (rest ++ [(op, right)])).

Definition parse_chain (left : Expr) (start : nat) : P Expr :=
  rest ← loop rec.(fuel) comparison_step [];
  node match rest with [(op, rhs)] => EInfix op left rhs | _ => ECompare left rest end start.

Definition parse_binary (left : Expr) (start : nat) : P Expr :=
  t ← next_token;
  match binary_op t with
  | Some op => right ← rec.(expression) (infix_precedence op); node (EInfix op left right) start
  | None => unexpected t "Expected a binary operator"
  end.

(** [parse_infix]. *)
Definition parse_infix (left : Expr) : P Expr :=
  let start := (expr_span left).1 in
  transfer ← peek_transfer left;
  if transfer : bool then _ ← next_token; node (ETransfer left) start
  else
    t ← peek_token;
    match t with
    | Some Dot =>
        _ ← next_token; field ← expect_member_name "Expected a field or method name after '.'";
        parse_member left field start
    | Some LBracket => parse_bracket_suffix left start
    | Some LParen =>
        _ ← next_token; '(args, kwargs) ← parse_arguments rec; node (call_kind left [] args kwargs) start
    | Some ColonEq =>
        _ ← next_token; value ← rec.(expression) Precedence.Lowest; node (ENamed left value) start
    | Some If =>
        _ ← next_token; cond ← rec.(expression) Precedence.Conditional;
        _ ← expect Else "Expected 'else' in a conditional expression";
        else_branch ← rec.(expression) Precedence.Lowest; node (EIfExpr cond left else_branch) start
    | _ =>
        comparison ← peek_is_comparison;
        if comparison : bool then parse_chain left start else parse_binary left start
    end.

(** [parse_expression_from]. *)
Definition parse_expression_from (left : Expr) (min : Precedence) : P Expr :=
  loop rec.(fuel) (λ left,
    transfer ← peek_transfer left;
    precedence ← (if transfer : bool then mret Precedence.Call else peek_precedence);
    if Precedence.leb precedence min then mret (inr left) else inl <$> parse_infix left) left.

(** [parse_expression]. *)
Definition parse_expression (min : Precedence) : P Expr :=
  left ← parse_prefix; parse_expression_from left min.
End exprs.
