(* ===== verification/ParseStmts.v ===== *)
(** * ParseStmts: patterns and statements (mojito-parser,
      [parser/patterns.rs], [parser/stmts.rs]) *)

From Stdlib Require Import Ascii String.
From S2P Require Import Prelude Text Literal Token Dtypes Ast Parser ParseTypes ParseExprs.

Section stmts.
Context {B R I : Type} `{!TokenStream B R I, !Rendered B R, !CaseTable}.
Notation Token := (Token B R).
Notation Expr := (Expr B R).
Notation ExprKind := (ExprKind B R).
Notation SourceType := (SourceType B R).
Notation DestructureTarget := (DestructureTarget B R).
Notation TargetItem := (TargetItem B R).
Notation MatchPattern := (MatchPattern B R).
Notation MatchPatternKind := (MatchPatternKind B R).
Notation MatchCase := (MatchCase B R).
Notation Condition := (Condition B R).
Notation Decorator := (Decorator B R).
Notation Stmt := (Stmt B R).
Notation StmtKind := (StmtKind B R).
Notation P := (P B R I).
Context (rec : Rec B R I).

(** ** Suites *)

(** [parse_block_body]. *)
Definition parse_block_body : P (list Stmt) :=
  loop rec.(fuel) (λ body,
    t ← peek_token;
    match t with
    | None => mret (inr body)
    | Some Dedent => _ ← next_token; mret (inr body)
    | Some Newline => _ ← next_token; mret (inl body)
    | Some _ => stmt ← rec.(statement); mret (inl (body ++ [stmt]))
    end) [].

(** [parse_block]. *)
Definition parse_block : P (list Stmt) := _ ← expect Indent "Expected an indented block"; parse_block_body.

(** [parse_suite]. *)
Definition line_step (body : list Stmt) : P (list Stmt + list Stmt) :=
  stmt ← rec.(statement); s ← get;
  let body := body ++ [stmt] in
  if negb s.(last_stmt_ended_with_semicolon) then mret (inr body)
  else
    t ← peek_token;
    match t with
    | Some Newline => _ ← next_token; _ ← set_semicolon false; mret (inr body)
    | Some Eof | None => _ ← set_semicolon false; mret (inr body)
    | Some _ => mret (inl body)
    end.

Definition parse_suite : P (list Stmt) :=
  block ← skip_if Newline; if block : bool then parse_block else loop rec.(fuel) line_step [].

(** [parse_tuple_display]. *)
Definition parse_tuple_display : P Expr :=
  first ← rec.(expression) Precedence.Lowest;
  tuple ← peek_is Comma;
  if negb tuple then mret first
  else
    elements ← loop rec.(fuel) (λ elements,
      comma ← skip_if Comma;
      if comma : bool then
        t ← peek_token;
        match t with
        | Some (Newline | Semicolon | Eof) | None => mret (inr elements)
        | Some _ => element ← rec.(expression) Precedence.Lowest; mret (inl (elements ++ [element]))
        end
      else mret (inr elements)) [first];
    node (ETupleLit elements) (expr_span first).1.

(** ** Patterns *)

Definition NOT_A_PATTERN : str :=
  lit "expression is not a valid match pattern; use '==' to compare against its value".

Definition literal_spelling (t : option Token) : option str :=
  match t with
  | Some (IntLit _ spelling | FloatLit _ spelling | StringLiteral _ spelling | TripleStringLiteral _ spelling) => Some spelling
  | Some (BoolLiteral value) => Some (if value then lit "True" else lit "False")
  | _ => None
  end.

(** [parse_spelled_operand]: the spelling is kept where the operand is one
    literal, as wide as its spelling; a width below zero panics. *)
Definition parse_spelled_operand (parse : P Expr) : P (Expr * option str) :=
  t ← peek_token;
  value ← parse;
  match literal_spelling t with
  | None => mret (value, None)
  | Some spelling =>
      let '(a, b) := expr_span value in
      if (b <? a)%nat then panic else mret (value, if (b - a =? str_len spelling)%nat then Some spelling else None)
  end.

(** [expect_case_name]. *)
Definition expect_case_name (message : string) : P str :=
  none ← skip_if NoneKw; if none : bool then mret (lit "None") else expect_member_name message.

Definition new_pattern (kind : MatchPatternKind) (start : nat) : P MatchPattern :=
  span ← significant_span start; mret (mkPattern kind span).

(** [parse_binding_pattern]. *)
Definition parse_binding_pattern (mode : BindingMode) : P MatchPatternKind :=
  nested ← peek_matches (λ t, is_token Token.Var t || is_word "ref" t);
  if nested : bool then
    t ← next_token; unexpected t "nested 'var' or 'ref' patterns are redundant, remove the outer pattern"
  else
    let keyword := match mode with BindVar => lit "var" | _ => lit "ref" end in
    name ← expect_name (lit "expected a name after '" ++ keyword ++ lit "'");
    mret (if bool_decide (name = lit "_") then PatWildcard else PatBind name mode).

(** Patterns up to [close] with optional trailing comma. *)
Definition pattern_list (close : Token) (first : MatchPattern) : P (list MatchPattern) :=
  loop rec.(fuel) (λ items,
    again ← more close;
    if again : bool then item ← rec.(pattern); mret (inl (items ++ [item])) else mret (inr items)) [first].

(** [name.name..], from a head. *)
Definition head_members (head : Expr) (start : nat) : P Expr :=
  while_token rec.(fuel) Dot (λ head,
    field ← expect_case_name "Expected a member name after '.'"; node (EMember head field) start) head.

Definition call_pattern_step '((args, kwargs) : list MatchPattern * list (str * MatchPattern))
    : P (list MatchPattern * list (str * MatchPattern) + list MatchPattern * list (str * MatchPattern)) :=
  closed ← peek_is RParen;
  if closed : bool then mret (inr (args, kwargs))
  else
    starred ← peek_matches (λ t, is_token Star t || is_token DoubleStar t);
    if starred : bool then
      t ← next_token; unexpected t "struct patterns do not support positional or unpacked arguments"
    else
      p ← rec.(pattern);
      keyword ← match pattern_kind p with
        | PatBind name BindImmutable => b ← peek_is Assign; mret (if b : bool then Some name else None)
        | _ => mret None
        end;
      '(args, kwargs) ← match keyword with
        | Some name =>
            _ ← next_token;
            if existsb (λ kwarg, bool_decide (kwarg.1 = name)) kwargs then
              throw (UnexpectedToken (Identifier name)
                (lit "keyword argument '" ++ name ++ lit "' was already used; remove the duplicate"))
            else p ← rec.(pattern); mret (args, kwargs ++ [(name, p)])
        | None =>
            match kwargs with
            | [] => mret (args ++ [p], kwargs)
            | _ => unexpected Comma "a positional pattern cannot follow a keyword pattern"
            end
        end;
      comma ← skip_if Comma; mret (if comma : bool then inl (args, kwargs) else inr (args, kwargs)).

(** [parse_head_pattern]. *)
Definition parse_head_pattern (head : Expr) (start : nat) : P MatchPatternKind :=
  head ← head_members head start;
  bracket ← peek_is LBracket;
  head ← (if bracket : bool then
    match expr_kind head with
    | EIdentifier name =>
        args ← parse_param_args rec; head ← node (ETypeApply name args) start; head_members head start
    | _ => unexpected LBracket "a parameterized pattern head must be a bare struct name"
    end
  else mret head);
  called ← skip_if LParen;
  if called : bool then
    '(args, kwargs) ← loop rec.(fuel) call_pattern_step ([], []);
    _ ← expect RParen "Expected ')' after pattern arguments"; mret (PatCall head args kwargs)
  else
    match expr_kind head with
    | EIdentifier _ | ETypeApply _ _ => t ← next_token; unexpected t "expected '(' after a struct pattern head"
    | _ => mret (PatHead head)
    end.

(** [parse_fields_pattern]. *)
Definition field_pattern_step (fields : list (str * MatchPattern))
    : P (list (str * MatchPattern) + list (str * MatchPattern)) :=
  closed ← peek_is RBrace;
  if closed : bool then mret (inr fields)
  else
    named ← peek_matches is_identifier;
    if negb named then throw (Message NOT_A_PATTERN)
    else
      name ← expect_identifier "expected a field name in a struct pattern";
      mapping ← peek_is Colon;
      if mapping : bool then throw (Message NOT_A_PATTERN)
      else
        _ ← expect Assign "expected '=' after the field name"; p ← rec.(pattern);
        let fields := fields ++ [(name, p)] in
        comma ← skip_if Comma; mret (if comma : bool then inl fields else inr fields).

Definition parse_fields_pattern : P MatchPatternKind :=
  fields ← loop rec.(fuel) field_pattern_step [];
  _ ← expect RBrace "Expected '}' after struct pattern fields"; mret (PatFields fields).

(** A literal pattern below zero. *)
Definition negative_pattern (start : nat) : P MatchPatternKind :=
  minus ← next_token;
  number ← peek_matches (λ t, match t with IntLit _ _ | FloatLit _ _ => true | _ => false end);
  if negb number then throw (UnexpectedToken minus NOT_A_PATTERN)
  else operand ← parse_prefix rec; value ← node (EPrefix PrefixNeg operand) start; mret (PatLiteral value None).

(** A parenthesized pattern: a tuple, or the pattern it groups. *)
Definition paren_pattern (start : nat) : P MatchPattern :=
  _ ← next_token; empty ← skip_if RParen;
  if empty : bool then new_pattern (PatTuple []) start
  else
    first ← rec.(pattern); tuple ← peek_is Comma;
    if tuple : bool then
      items ← pattern_list RParen first;
      _ ← expect RParen "Expected ')' after tuple pattern"; new_pattern (PatTuple items) start
    else _ ← expect RParen "Expected ')' after pattern"; mret first.

Section sequence_patterns.
Context (parse_closed_pattern : P MatchPattern).

(** [parse_sequence_pattern]. *)
Definition sequence_pattern_step '((items, starred) : list (SequencePattern B R) * bool)
    : P (list (SequencePattern B R) * bool + list (SequencePattern B R)) :=
  closed ← peek_is RBracket;
  if closed : bool then mret (inr items)
  else
    star ← skip_if Star;
    '(items, starred) ← (if star : bool then
      if starred : bool then unexpected Star "multiple starred expressions in list pattern"
      else p ← parse_closed_pattern; mret (items ++ [PatStar p], true)
    else p ← rec.(pattern); mret (items ++ [PatElement p], starred));
    comma ← skip_if Comma; mret (if comma : bool then inl (items, starred) else inr items).

Definition parse_sequence_pattern : P MatchPatternKind :=
  items ← loop rec.(fuel) sequence_pattern_step ([], false);
  _ ← expect RBracket "Expected ']' after list pattern"; mret (PatSequence items).
End sequence_patterns.

(** [parse_closed_pattern]; the star of a sequence holds one again, a level of
    brackets down. *)
Fixpoint closed_pattern (depth : nat) : P MatchPattern :=
  start ← peek_start; t ← peek_token;
  let literal := '(value, spelling) ← parse_spelled_operand (parse_prefix rec); new_pattern (PatLiteral value spelling) start in
  match t with
  | Some Token.Var => _ ← next_token; kind ← parse_binding_pattern BindVar; new_pattern kind start
  | Some (IntLit _ _ | FloatLit _ _ | BoolLiteral _ | StringLiteral _ _ | TripleStringLiteral _ _ | NoneKw) => literal
  | Some Minus => kind ← negative_pattern start; new_pattern kind start
  | Some EqEq =>
      _ ← next_token;
      '(value, spelling) ← parse_spelled_operand (rec.(expression) Precedence.Unary);
      new_pattern (PatEqual value spelling) start
  | Some LParen => paren_pattern start
  | Some LBracket =>
      match depth with
      | O => λ s, (Diverge, s)
      | S depth => _ ← next_token; kind ← parse_sequence_pattern (closed_pattern depth); new_pattern kind start
      end
  | Some LBrace => _ ← next_token; kind ← parse_fields_pattern; new_pattern kind start
  | Some Dot =>
      _ ← next_token; sentinel ← node (EIdentifier CONTEXTUAL_SENTINEL) start;
      field ← expect_case_name "Expected a member name after a leading '.'";
      head ← node (EMember sentinel field) start; kind ← parse_head_pattern head start; new_pattern kind start
  | Some (Identifier word) =>
      if bool_decide (word = lit "_") then _ ← next_token; new_pattern PatWildcard start
      else if bool_decide (word = lit "ref") then
        _ ← next_token; kind ← parse_binding_pattern BindRef; new_pattern kind start
      else
        name ← expect_identifier "Expected a name";
        headed ← peek_matches (λ t, is_token Dot t || is_token LParen t || is_token LBracket t);
        if headed : bool then
          head ← node (EIdentifier name) start; kind ← parse_head_pattern head start; new_pattern kind start
        else new_pattern (PatBind name BindImmutable) start
  | _ => t ← next_token; throw (UnexpectedToken t NOT_A_PATTERN)
  end.
Definition parse_closed_pattern : P MatchPattern := closed_pattern rec.(fuel).

(** [parse_pattern]. *)
Definition parse_pattern : P MatchPattern :=
  start ← peek_start;
  first ← parse_closed_pattern;
  alternatives ← while_token rec.(fuel) Pipe (λ alternatives, p ← parse_closed_pattern; mret (alternatives ++ [p])) [first];
  p ← match alternatives with [p] => mret p | _ => new_pattern (PatOr alternatives) start end;
  while_token rec.(fuel) As (λ p, name ← expect_identifier "expected a name after 'as'"; new_pattern (PatAs p name) start) p.

(** [parse_case_patterns]. *)
Definition parse_case_patterns : P MatchPattern :=
  start ← peek_start; first ← rec.(pattern);
  tuple ← peek_is Comma;
  if negb tuple then mret first
  else
    items ← loop rec.(fuel) (λ items,
      comma ← skip_if Comma;
      if comma : bool then
        ends ← peek_matches (λ t, is_token Colon t || is_token If t || is_token Assign t || is_token RParen t);
        if ends : bool then mret (inr items) else item ← rec.(pattern); mret (inl (items ++ [item]))
      else mret (inr items)) [first];
    new_pattern (PatTuple items) start.

(** [parse_case]. *)
Definition parse_case : P MatchCase :=
  start ← peek_start; _ ← expect Case "Expected 'case'";
  p ← parse_case_patterns;
  guarded ← skip_if If;
  guard ← (if guarded : bool then Some <$> rec.(expression) Precedence.Lowest else mret None);
  _ ← expect Colon "expected ':' after case pattern";
  body ← parse_suite; span ← significant_span start; mret (mkCase p guard body span).

Definition skip_newlines : P unit := while_token rec.(fuel) Newline (λ u, mret u) tt.

(** [parse_match]. *)
Definition parse_match (comptime : bool) : P StmtKind :=
  _ ← expect Match "Expected 'match'"; subject ← parse_tuple_display;
  _ ← expect Colon "expected ':' after match subject";
  _ ← expect Newline "expected a newline after the match subject";
  indented ← skip_if Indent;
  cases ← loop rec.(fuel) (λ cases,
    _ ← skip_newlines; again ← peek_is Case;
    if again : bool then case ← parse_case; mret (inl (cases ++ [case])) else mret (inr cases)) [];
  _ ← (if indented : bool then expect Dedent "expected a 'case' block" else mret tt);
  match cases with
  | [] => unexpected Match "'match' statement must have at least one 'case' block"
  | _ => mret (if comptime then SComptimeMatch subject cases else SMatch subject cases)
  end.

(** [parse_condition]. *)
Definition parse_condition : P Condition :=
  case ← skip_if Case;
  if case : bool then
    p ← parse_case_patterns; _ ← expect Assign "expected '=' after the 'case' pattern";
    value ← parse_tuple_display; mret (CondCase p value)
  else CondExpr <$> rec.(expression) Precedence.Lowest.

(** ** Destructuring *)

(** [finish_destructure]. *)
Definition finish_destructure (target : DestructureTarget) : P StmtKind :=
  _ ← expect Assign "expected '=' after a destructuring target";
  value ← parse_tuple_display; _ ← expect_stmt_end; mret (SDestructure target value).

(** [parse_destructure_tail]. *)
Definition parse_destructure_tail (first : DestructureTarget) (declare : option BindingMode) : P StmtKind :=
  tuple ← peek_is Comma;
  if negb tuple then finish_destructure first
  else
    targets ← loop rec.(fuel) (λ targets,
      comma ← skip_if Comma;
      if comma : bool then
        ends ← peek_is Assign;
        if ends : bool then mret (inr targets)
        else item ← rec.(target_item) declare Precedence.Lowest; mret (inl (targets ++ [item_to_target item]))
      else mret (inr targets)) [first];
    span ← significant_span (target_span first).1;
    finish_destructure (mkTarget (TargetTuple targets) span).

(** ** Expression statements and assignments *)

(** The items of a comma list after its first. *)
Definition list_items (first : Expr) : P (list TargetItem) :=
  loop rec.(fuel) (λ items,
    comma ← skip_if Comma;
    if comma : bool then
      t ← peek_token;
      match t with
      | Some (Assign | Newline | Semicolon | Eof) | None => mret (inr items)
      | Some _ => item ← rec.(target_item) None Precedence.Lowest; mret (inl (items ++ [item]))
      end
    else mret (inr items)) [ItemExpr first].

(** A comma list: a tuple target when [=] follows, else a tuple. *)
Definition list_statement (first : Expr) : P StmtKind :=
  items ← list_items first;
  assigned ← peek_is Assign;
  if assigned : bool then
    span ← significant_span (expr_span first).1;
    finish_destructure (mkTarget (TargetTuple (map item_to_target items)) span)
  else if existsb is_target items then unexpected Comma "expected '=' after a destructuring target"
  else
    display ← node (ETupleLit (omap item_expr items)) (expr_span first).1;
    _ ← expect_stmt_end; mret (SExpr display).

(** What follows the expression a statement starts with. *)
Definition after_expression (expr : Expr) : P StmtKind :=
  tuple ← peek_is Comma;
  if tuple : bool then list_statement expr
  else
    assigned ← peek_is Assign;
    if assigned : bool then
      match expr_kind expr with
      | ETupleLit _ | EListLit _ => finish_destructure (expr_to_target expr)
      | kind =>
          _ ← next_token; value ← parse_tuple_display; _ ← expect_stmt_end;
          mret match kind with EIdentifier name => SAssign name value | _ => SSetPlace expr value end
      end
    else
      t ← peek_token;
      match t ≫= aug_assign_op with
      | Some op =>
          _ ← next_token; value ← rec.(expression) Precedence.Lowest; _ ← expect_stmt_end;
          mret (SAugAssign expr op value)
      | None => _ ← expect_stmt_end; mret (SExpr expr)
      end.

(** [parse_expr_or_assign]. *)
Definition parse_expr_or_assign : P StmtKind :=
  display ← peek_matches is_open;
  if display : bool then
    item ← parse_target_display rec None;
    match item with
    | ItemTarget target => parse_destructure_tail target None
    | ItemExpr expr => expr ← rec.(expression_from) expr Precedence.Lowest; after_expression expr
    end
  else expr ← rec.(expression) Precedence.Lowest; after_expression expr.

(** ** Declarations *)

(** The target display after [var] or [ref]. *)
Definition declared_display (mode : BindingMode) (start : nat) (keyword : Token) (message : string) : P StmtKind :=
  item ← parse_declared_target rec mode start;
  match item with
  | ItemTarget target => parse_destructure_tail target (Some mode)
  | ItemExpr _ => unexpected keyword message
  end.

(** [parse_var_decl]. *)
Definition parse_var_decl : P StmtKind :=
  start ← peek_start; _ ← expect Token.Var "Statements must begin with a keyword";
  display ← peek_matches is_open;
  if display : bool then declared_display BindVar start Token.Var "expected a destructuring target after 'var'"
  else
    name ← expect_identifier "Expected identifier after 'var'";
    tuple ← peek_is Comma;
    if tuple : bool then
      s ← get; parse_destructure_tail (mkTarget (TargetDeclare name BindVar) s.(last_span)) (Some BindVar)
    else
      annotated ← skip_if Colon;
      ty ← (if annotated : bool then Some <$> rec.(type_) else mret None);
      assigned ← skip_if Assign;
      value ← (if assigned : bool then parse_tuple_display else s ← get; mret (mkExpr EUninitialized s.(last_span)));
      _ ← expect_stmt_end; mret (SVarDecl name ty value).

(** [parse_ref_decl]. *)
Definition parse_ref_decl : P StmtKind :=
  start ← peek_start; keyword ← expect_identifier "Expected 'ref'";
  if bool_decide (keyword ≠ lit "ref") then panic
  else
    display ← peek_matches is_open;
    if display : bool then
      declared_display BindRef start (Identifier (lit "ref")) "expected a destructuring target after 'ref'"
    else
      name ← expect_identifier "Expected a name after 'ref'";
      _ ← expect Assign "Expected '=' after the reference name";
      value ← rec.(expression) Precedence.Lowest; _ ← expect_stmt_end; mret (SRefDecl name value).

(** ** Control flow *)

(** [parse_condition_block]. *)
Definition parse_condition_block (message : string) : P (Condition * list Stmt) :=
  cond ← parse_condition; _ ← expect Colon message; body ← parse_suite; mret (cond, body).

(** The suite after a keyword and [:], when the keyword comes. *)
Definition clause (keyword : Token) (message : string) : P (option (list Stmt)) :=
  present ← skip_if keyword;
  if present : bool then _ ← expect Colon message; Some <$> parse_suite else mret None.

(** [parse_if_rest] and [parse_if]. *)
Definition parse_if_rest : P (list (Condition * list Stmt) * option (list Stmt)) :=
  _ ← expect If "Expected 'if'";
  first ← parse_condition_block "Expected ':' after the if condition";
  branches ← while_token rec.(fuel) Elif (λ branches,
    branch ← parse_condition_block "Expected ':' after the elif condition"; mret (branches ++ [branch])) [first];
  orelse ← clause Else "Expected ':' after 'else'"; mret (branches, orelse).
Definition parse_if : P StmtKind := '(branches, orelse) ← parse_if_rest; mret (SIf branches orelse).

(** [parse_loop_else]. *)
Definition parse_loop_else : P (option (list Stmt)) := clause Else "Expected ':' after loop 'else'".

(** [parse_while]. *)
Definition parse_while : P StmtKind :=
  _ ← expect While "Expected 'while'";
  '(cond, body) ← parse_condition_block "Expected ':' after the while condition";
  orelse ← parse_loop_else; mret (SWhile cond body orelse).

(** [parse_for_head]. *)
Definition parse_for_head : P (DestructureTarget * Expr) :=
  _ ← expect For "Expected 'for'"; target ← parse_loop_target rec;
  _ ← expect Token.In "Expected 'in' after the loop target";
  iter ← rec.(expression) Precedence.Lowest;
  _ ← expect Colon "Expected ':' after the for-loop iterable"; mret (target, iter).

(** [parse_for]. *)
Definition parse_for : P StmtKind :=
  '(target, iter) ← parse_for_head; body ← parse_suite; orelse ← parse_loop_else; mret (SFor target iter body orelse).

(** [parse_with]. *)
Definition with_step (items : list (WithItem B R)) : P (list (WithItem B R) + list (WithItem B R)) :=
  context ← rec.(expression) Precedence.Lowest;
  bound ← skip_if As;
  var ← (if bound : bool then Some <$> expect_identifier "Expected a name after 'as' in a 'with' item" else mret None);
  let items := items ++ [mkWithItem context var] in
  comma ← skip_if Comma; mret (if comma : bool then inl items else inr items).

Definition parse_with : P StmtKind :=
  _ ← expect With "Expected 'with'"; items ← loop rec.(fuel) with_step [];
  _ ← expect Colon "Expected ':' after the 'with' items"; body ← parse_suite; mret (SWith items body).

(** [parse_try]. *)
Definition parse_except : P (option (option str * list Stmt)) :=
  present ← skip_if Except;
  if present : bool then
    named ← peek_matches is_identifier;
    name ← (if named : bool then Some <$> expect_identifier "unreachable" else mret None);
    _ ← expect Colon "Expected ':' after 'except'"; body ← parse_suite; mret (Some (name, body))
  else mret None.

Definition parse_try : P StmtKind :=
  _ ← expect Try "Expected 'try'"; _ ← expect Colon "Expected ':' after 'try'"; body ← parse_suite;
  except ← parse_except;
  orelse ← clause Else "Expected ':' after 'else'";
  finalbody ← clause Finally "Expected ':' after 'finally'";
  match except, finalbody with
  | None, None => unexpected Try "a 'try' needs at least one of 'except' or 'finally'"
  | _, _ => mret (STry body except orelse finalbody)
  end.

(** [parse_return]. *)
Definition parse_return : P StmtKind :=
  _ ← expect Return "Expected 'return'"; t ← peek_token;
  value ← match t with Some (Newline | Eof) | None => mret None | Some _ => Some <$> parse_tuple_display end;
  _ ← expect_stmt_end; mret (SReturn value).

(** [parse_raise]. *)
Definition parse_raise : P StmtKind :=
  _ ← expect Raise "Expected 'raise'"; value ← rec.(expression) Precedence.Lowest; _ ← expect_stmt_end;
  mret (SRaise value).

(** ** Imports *)

(** [NAME ('.' NAME)*], of [parse_dotted_name] and of a decorator's path. *)
Definition dotted (first rest : string) : P (list str) :=
  name ← expect_identifier first;
  while_token rec.(fuel) Dot (λ segments, segment ← expect_identifier rest; mret (segments ++ [segment])) [name].

(** [parse_dotted_name]. *)
Definition parse_dotted_name : P (list str) := dotted "Expected a module name" "Expected a name after '.'".

(** [parse_import_alias]. *)
Definition parse_import_alias : P (option str) :=
  present ← skip_if As;
  if present : bool then Some <$> expect_identifier "Expected an alias name after 'as'" else mret None.

(** [parse_import]. *)
Definition parse_import : P StmtKind :=
  _ ← expect ImportKw "Expected 'import'"; path ← parse_dotted_name; alias ← parse_import_alias;
  _ ← expect_stmt_end; mret (SImport path alias).

(** [parse_from_import]: a leading [...] is three dots. *)
Definition import_level : P nat :=
  loop rec.(fuel) (λ level,
    t ← peek_token;
    match t with
    | Some Dot => _ ← next_token; mret (inl (level + 1)%nat)
    | Some Ellipsis => _ ← next_token; mret (inl (level + 3)%nat)
    | _ => mret (inr level)
    end) 0%nat.

Definition import_targets_step (parenthesized : bool) (targets : list ImportName) : P (list ImportName + list ImportName) :=
  closed ← (if parenthesized then peek_is RParen else mret false);
  if closed : bool then mret (inr targets)
  else
    name ← expect_identifier "Expected an imported name"; alias ← parse_import_alias;
    let targets := targets ++ [mkImport name alias] in
    comma ← skip_if Comma; mret (if comma : bool then inl targets else inr targets).

Definition parse_from_import : P StmtKind :=
  _ ← expect From "Expected 'from'"; level ← import_level;
  named ← peek_matches is_identifier;
  path ← (if named : bool then parse_dotted_name else mret []);
  if (level =? 0)%nat && bool_decide (path = []) then unexpected From "expected a module name after 'from'"
  else
    _ ← expect ImportKw "Expected 'import' after the module name";
    parenthesized ← skip_if LParen;
    wildcard ← skip_if Star;
    names ← (if wildcard : bool then mret Wildcard
      else Names <$> loop rec.(fuel) (import_targets_step parenthesized) []);
    _ ← (if parenthesized : bool then expect RParen "Expected ')' after imported names" else mret tt);
    _ ← expect_stmt_end; mret (SFromImport level path names).

(** ** Compile-time statements *)

Definition comptime_assert_outside_function : ParseError B R :=
  Message (lit "'comptime assert' must be inside a function; move this into a function body").

Definition is_case (branch : Condition * list Stmt) : bool :=
  match branch.1 with CondCase _ _ => true | CondExpr _ => false end.

(** The name a [comptime for] binds. *)
Definition comptime_for_var (target : DestructureTarget) : P str :=
  match target_kind target with
  | TargetDeclare name BindImmutable => mret name
  | TargetDiscard => mret (lit "_")
  | TargetDeclare _ _ => unexpected For "comptime for cannot use an explicit ref/var binding"
  | _ => unexpected For "a destructuring 'comptime for' target is not supported"
  end.

(** [comptime assert] and a compile-time constant. *)
Definition comptime_assert : P StmtKind :=
  cond ← rec.(expression) Precedence.Lowest; comma ← skip_if Comma;
  message ← (if comma : bool then Some <$> rec.(expression) Precedence.Lowest else mret None);
  _ ← expect_stmt_end; mret (SComptimeAssert cond message).

Definition comptime_constant (name : str) : P StmtKind :=
  type_params ← parse_type_params rec;
  annotated ← skip_if Colon;
  ty ← (if annotated : bool then Some <$> rec.(type_) else mret None);
  where_clauses ← parse_where_clauses rec;
  _ ← expect Assign "Expected '=' after the comptime constant name (or its ': Type')";
  value ← rec.(expression) Precedence.Lowest; _ ← expect_stmt_end;
  mret (SComptime name type_params ty where_clauses value).

(** [parse_comptime]. *)
Definition parse_comptime : P StmtKind :=
  _ ← expect Comptime "Expected 'comptime'"; t ← peek_token;
  match t with
  | Some If =>
      '(branches, orelse) ← parse_if_rest;
      if existsb is_case branches
      then unexpected Case "'comptime if case' is not supported; use 'comptime match'"
      else mret (SComptimeIf branches orelse)
  | Some Match => parse_match true
  | Some LParen =>
      s ← get; _ ← next_token; inner ← rec.(expression) Precedence.Lowest;
      _ ← expect RParen "Expected ')' after the comptime expression";
      call ← node (ECall (lit "comptime") [] [inner] []) s.(last_span).1;
      _ ← expect_stmt_end; mret (SExpr call)
  | Some For =>
      '(target, iter) ← parse_for_head; var ← comptime_for_var target; body ← parse_suite;
      mret (SComptimeFor var iter body)
  | _ =>
      name ← expect_identifier "Expected a name, 'if', or 'for' after 'comptime'";
      if bool_decide (name = lit "assert") then comptime_assert else comptime_constant name
  end.

(** ** Functions *)

(** [parse_decorators]. *)
Definition parse_decorator : P Decorator :=
  path ← dotted "Expected a decorator name after '@'" "Expected a name after '.' in a decorator";
  called ← skip_if LParen;
  '(args, kwargs) ← (if called : bool then
    call ← parse_call_args rec; _ ← expect RParen "Expected ')' after decorator arguments"; mret call
  else mret ([], []));
  _ ← expect_stmt_end; mret (mkDecorator path args kwargs).

Definition parse_decorators : P (list Decorator) :=
  while_token rec.(fuel) At (λ decorators, decorator ← parse_decorator; mret (decorators ++ [decorator])) [].

Definition decorator_path (d : Decorator) : list str := let 'mkDecorator path _ _ := d in path.

(** [reject_removed_closure_decorators]. *)
Definition removed_decorator (d : Decorator) : option str :=
  match decorator_path d with
  | [name] =>
      if bool_decide (name ∈ [lit "parameter"; lit "__parameter"; lit "__copy_capture"; lit "__move_capture"])
      then Some name else None
  | _ => None
  end.

Definition reject_removed_closure_decorators (decorators : list Decorator) : P unit :=
  match omap removed_decorator decorators with
  | [] => mret tt
  | name :: _ =>
      throw (Message (lit "'@" ++ name ++
        if bool_decide (name ∈ [lit "parameter"; lit "__parameter"])
        then lit "' closures are no longer supported; remove the decorator and declare the captures in a capture list like '{var}' or '{mut x}'"
        else lit "' is no longer supported; list the captures in a capture list like '{var x}' instead"))
  end.

(** The return type after [->]. *)
Definition parse_return_type : P (option SourceType) :=
  arrow ← skip_if Arrow; if arrow : bool then Some <$> rec.(type_) else mret None.

(** A dropped [{..}] of effects. *)
Definition skip_effects (message : string) : P unit :=
  present ← skip_if LBrace;
  if present : bool then
    _ ← loop rec.(fuel) (λ u : unit,
      t ← peek_token; match t with Some RBrace | None => mret (inr u) | _ => _ ← next_token; mret (inl u) end) tt;
    expect RBrace message
  else mret tt.

(** [parse_def]. *)
Definition parse_def (decorators : list Decorator) : P StmtKind :=
  _ ← reject_removed_closure_decorators decorators;
  _ ← expect Def "Expected 'def'"; name ← expect_member_name "Expected function name after 'def'";
  type_params ← parse_type_params rec;
  _ ← expect LParen "Expected '(' after function name";
  '(params, positional_only, keyword_only) ← parse_params rec;
  _ ← expect RParen "Expected ')' after parameters";
  unified ← peek_matches (is_word "unified");
  if unified : bool then
    unexpected (Identifier (lit "unified"))
      "the removed 'unified {...}' capture spelling is not accepted; write the capture list after the effects clause, e.g. 'def f() {mut x}:'"
  else
    '(raises, raises_type) ← parse_callable_effects rec;
    captures ← parse_capture_list rec;
    ret ← parse_return_type;
    _ ← skip_effects "Expected '}' after function effects";
    where_clauses ← parse_where_clauses rec;
    _ ← expect Colon "Expected ':' before the function body";
    body ← parse_suite;
    mret (SDef name decorators type_params params positional_only keyword_only captures raises raises_type ret
      where_clauses body).
End stmts.
