(* ===== verification/ParseItems.v ===== *)
(** * ParseItems: structs, enums, traits and methods (mojito-parser,
      [parser/items.rs]) *)

From Stdlib Require Import Ascii String.
From S2P Require Import Prelude Text Literal Token Dtypes Ast Parser ParseTypes ParseExprs ParseStmts.

Section items.
Context {B R I : Type} `{!TokenStream B R I, !Rendered B R, !CaseTable}.
Notation Token := (Token B R).
Notation ParseError := (ParseError B R).
Notation Expr := (Expr B R).
Notation SourceType := (SourceType B R).
Notation FnParam := (FnParam B R).
Notation Decorator := (Decorator B R).
Notation Stmt := (Stmt B R).
Notation StmtKind := (StmtKind B R).
Notation StructComptime := (StructComptime B R).
Notation TraitComptime := (TraitComptime B R).
Notation EnumCase := (EnumCase B R).
Notation Method := (Method B R).
Notation TraitMethod := (TraitMethod B R).
Notation P := (P B R I).
Notation ParamList := (@ParamList B R).

Definition no_params : ParamList := ([], None, None).

(** [Receiver]. *)
Record Receiver : Type := mkReceiver {
  receiver_convention : option ArgConvention;
  receiver_origin : option (list Expr);
  receiver_type : option SourceType;
  receiver_place : nat;
}.

Definition param_name (p : FnParam) : str := let 'mkFnParam name _ _ _ _ _ := p in name.
Definition param_convention (p : FnParam) : option ArgConvention := let 'mkFnParam _ _ _ _ convention _ := p in convention.
Definition named_self (p : FnParam) : bool := bool_decide (param_name p = lit "self").

(** The first [self] of a parameter list, with the parameters before and after it. *)
Fixpoint split_self (params : list FnParam) : option (list FnParam * FnParam * list FnParam) :=
  match params with
  | [] => None
  | p :: params =>
      if named_self p then Some ([], p, params)
      else '(before, self, after) ← split_self params; Some (p :: before, self, after)
  end.

(** [split_initializer_receiver]. *)
Definition split_initializer_receiver (list : ParamList) : outcome ParseError (option Receiver * ParamList) :=
  let '(params, positional_only, keyword_only) := list in
  match split_self params with
  | None => Ok (None, list)
  | Some (before, mkFnParam name ty _ _ convention origin, after) =>
      let index := length before in
      let others := before ++ after in
      if negb (bool_decide (convention = Some COut)) then
        Err (UnexpectedToken (Identifier name) (lit "__init__ method must return Self type with 'out' argument"))
      else if existsb named_self others then
        Err (UnexpectedToken (Identifier name) (lit "an initializer declares one 'self'"))
      else
        let shift marker := if (index <? marker)%nat then (marker - 1)%nat else marker in
        Ok (Some (mkReceiver convention origin (Some ty) index), (others, shift <$> positional_only, shift <$> keyword_only))
  end.

Definition lift {A} (o : outcome ParseError A) : P A := λ s, (o, s).

(** A message at a place. *)
Definition message_at {A} (message : string) (a b : nat) : P A := throw (error_at (Message (lit message)) (a, b)).

Definition is_triple_string (t : Token) : bool := match t with TripleStringLiteral _ _ => true | _ => false end.

Definition has_path (path : string) (d : Decorator) : bool := bool_decide (decorator_path d = [lit path]).

Context (rec : Rec B R I).

(** The parameters after a comma. *)
Definition rest_params (initializer : bool) : P ParamList :=
  comma ← skip_if Comma; if comma : bool then parse_param_list rec false initializer else mret no_params.

(** [parse_optional_receiver_type] and [parse_leading_receiver]. *)
Definition parse_optional_receiver_type : P (option SourceType) :=
  annotated ← skip_if Colon; if annotated : bool then Some <$> rec.(type_) else mret None.

Definition parse_leading_receiver (convention : option ArgConvention) (origin : option (list Expr))
    : P (option Receiver * ParamList) :=
  ty ← parse_optional_receiver_type; list ← rest_params false;
  mret (Some (mkReceiver convention origin ty 0), list).

(** The origin a [ref] convention may carry. *)
Definition convention_origin (convention : option ArgConvention) : P (option (list Expr)) :=
  match convention with Some CRef => parse_optional_origin_specifier rec | _ => mret None end.

(** The receiver or first parameter that a convention word opens. *)
Definition convention_receiver (is_initializer : bool) : P (option Receiver * ParamList) :=
  t ← peek_token;
  let conv := match t with
    | Some (Identifier id) => convention_word id | Some Token.Var => Some CVar | _ => None end in
  _ ← next_token; origin ← convention_origin conv;
  first_name ← expect_identifier "Expected 'self' after the receiver convention";
  if bool_decide (first_name = lit "self") then parse_leading_receiver conv origin
  else if is_initializer : bool then
    leading ← finish_param rec first_name Regular conv origin;
    '(params, positional_only, keyword_only) ← rest_params true;
    lift (split_initializer_receiver (leading :: params, S <$> positional_only, S <$> keyword_only))
  else unexpected (Identifier first_name) "a receiver convention must be followed by 'self'".

Definition method_receiver (is_static is_initializer : bool) : P (option Receiver * ParamList) :=
  first_is_self ← peek_matches (is_word "self");
  first_is_convention ← peek_matches (λ t,
    match t with Identifier id => bool_decide (is_Some (convention_word id)) | Token.Var => true | _ => false end);
  if is_static then list ← parse_param_list rec true false; mret (None, list)
  else if first_is_self : bool then _ ← next_token; parse_leading_receiver None None
  else if first_is_convention : bool then convention_receiver is_initializer
  else if is_initializer : bool then list ← parse_param_list rec false true; lift (split_initializer_receiver list)
  else list ← parse_param_list rec false false; mret (None, list).

(** [parse_method]. *)
Definition parse_method (decorators : list Decorator) : P Method :=
  _ ← reject_removed_closure_decorators decorators;
  _ ← expect Def "Expected 'def'"; spelled ← expect_member_name "Expected a method name after 'def'";
  let name := canonical_destructor_name spelled in
  type_params ← parse_type_params rec;
  _ ← expect LParen "Expected '(' after the method name";
  let is_initializer := bool_decide (name = lit "__init__") in
  '(receiver, (params, positional_only, keyword_only)) ←
    method_receiver (negb is_initializer && existsb (has_path "staticmethod") decorators) is_initializer;
  _ ← expect RParen "Expected ')' after the parameters";
  '(raises, raises_type) ← parse_callable_effects rec;
  ret ← parse_return_type rec;
  where_clauses ← parse_where_clauses rec;
  _ ← expect Colon "Expected ':' before the method body";
  body ← parse_suite rec;
  let '(has_self, convention, origin, ty, index) :=
    match receiver with
    | Some r => (true, r.(receiver_convention), r.(receiver_origin), r.(receiver_type), r.(receiver_place))
    | None => (false, None, None, None, 0%nat)
    end in
  mret (mkMethod name type_params has_self convention origin ty index decorators params positional_only keyword_only
    raises raises_type ret where_clauses body).

(** [body_is_placeholder]. *)
Definition body_is_placeholder (placeholders docstrings : list nat) (body : list Stmt) : bool :=
  let marked set (s : Stmt) := bool_decide ((stmt_span s).1 ∈ set) in
  existsb (marked placeholders) body && forallb (λ s, marked placeholders s || marked docstrings s) body.

Definition method_body (m : Method) : list Stmt := let 'mkMethod _ _ _ _ _ _ _ _ _ _ _ _ _ _ _ body := m in body.

(** [parse_member_method]. *)
Definition parse_member_method (decorators : list Decorator) (is_enum : bool) : P Method :=
  start ← peek_start;
  method ← parse_method decorators; s ← get;
  if is_enum && negb (existsb (has_path "unavailable") decorators) &&
     body_is_placeholder s.(placeholder_statements) s.(docstring_statements) (method_body method)
  then message_at "enum methods must have a body; '...' is reserved" start s.(last_span).2
  else mret method.

(** [parse_enum_case]. *)
Definition malformed_case {A} (start : nat) : P A :=
  s ← get; message_at "enum case must have the form 'case name' or 'case name(T, ...)'" start s.(last_span).2.

Definition labeled_case {A} (start : nat) : P A :=
  s ← get;
  message_at "labeled payloads in enum cases are not supported; use positional types, e.g. 'case C(T, U)'"
    start s.(last_span).2.

Definition payload_step (start : nat) (payload : list SourceType) : P (list SourceType + list SourceType) :=
  ty ← rec.(type_);
  let payload := payload ++ [ty] in
  t ← peek_token;
  match t with
  | Some (Colon | Assign) => labeled_case start
  | Some Comma => _ ← next_token; closed ← skip_if RParen; mret (if closed : bool then inr payload else inl payload)
  | Some RParen => _ ← next_token; mret (inr payload)
  | _ => malformed_case start
  end.

Definition case_payload (start : nat) : P (list SourceType) :=
  open ← skip_if LParen;
  if open : bool then
    empty ← peek_is RParen;
    if empty : bool then malformed_case start else loop rec.(fuel) (payload_step start) []
  else mret [].

Definition parse_enum_case : P EnumCase :=
  start ← peek_start; _ ← expect Case "Expected 'case'"; t ← peek_token;
  match t with
  | Some (Identifier name) =>
      _ ← next_token; payload ← case_payload start; t ← peek_token;
      _ ← match t with
        | Some (Newline | Semicolon | Eof) => expect_stmt_end
        | Some Dedent | None => mret tt
        | _ => malformed_case start
        end;
      span ← significant_span start; mret (mkEnumCase name payload span)
  | _ => malformed_case start
  end.

(** [parse_struct_comptime]. *)
Definition parse_struct_comptime : P StructComptime :=
  _ ← expect Comptime "Expected 'comptime'"; name ← expect_identifier "Expected a name after 'comptime'";
  if bool_decide (name = lit "assert") then throw comptime_assert_outside_function
  else
    params ← parse_type_params rec;
    annotated ← skip_if Colon;
    ty ← (if annotated : bool then Some <$> rec.(type_) else mret None);
    where_clauses ← parse_where_clauses rec;
    _ ← expect Assign "Expected '=' after the comptime member name";
    value ← rec.(expression) Precedence.Lowest; _ ← expect_stmt_end;
    mret (mkStructComptime name params ty where_clauses value).

(** ** Conformances *)

(** [parse_conformance]. *)
Definition parse_conformance : P (list str) :=
  open ← skip_if LParen;
  if open : bool then
    traits ← loop rec.(fuel) (λ traits,
      name ← expect_identifier "Expected a trait name in the conformance list";
      let traits := traits ++ [name] in
      again ← more RParen; mret (if again : bool then inl traits else inr traits)) [];
    _ ← expect RParen "Expected ')' after the conformance list"; mret traits
  else mret [].

(** [parse_struct_conformance]. *)
Definition conformances : Type := list str * list (str * Expr) * option SourceType.

Definition conformance_entry '((traits, conditions, callable) : conformances) : P conformances :=
  function ← peek_is Def;
  if function : bool then
    match callable with
    | Some _ => unexpected Def "a struct may declare only one def(...) callable conformance"
    | None => ty ← rec.(type_); mret (traits, conditions, Some ty)
    end
  else
    name ← expect_identifier "Expected a trait name in the conformance list";
    conditional ← peek_matches (is_word "where");
    conditions ← (if conditional : bool then
      _ ← next_token; condition ← rec.(expression) Precedence.Lowest; mret (conditions ++ [(name, condition)])
    else mret conditions);
    mret (traits ++ [name], conditions, callable).

Definition parse_struct_conformance : P conformances :=
  open ← skip_if LParen;
  if open : bool then
    list ← loop rec.(fuel) (λ list,
      list ← conformance_entry list; again ← more RParen; mret (if again : bool then inl list else inr list)) ([], [], None);
    _ ← expect RParen "Expected ')' after the conformance list"; mret list
  else mret ([], [], None).

(** ** Structs and enums *)

(** The members of a body as they are read. *)
Record Members : Type := mkMembers {
  fields : list (str * SourceType);
  associated : list StructComptime;
  methods : list Method;
  cases : list EnumCase;
}.

Definition add_field f m := mkMembers (m.(fields) ++ [f]) m.(associated) m.(methods) m.(cases).
Definition add_associated a m := mkMembers m.(fields) (m.(associated) ++ [a]) m.(methods) m.(cases).
Definition add_method d m := mkMembers m.(fields) m.(associated) (m.(methods) ++ [d]) m.(cases).
Definition add_case c m := mkMembers m.(fields) m.(associated) m.(methods) (m.(cases) ++ [c]).

Definition struct_field : P (str * SourceType) :=
  _ ← expect Token.Var "Expected 'var'"; name ← expect_identifier "Expected a field name";
  _ ← expect Colon "Fields require a type annotation"; ty ← rec.(type_);
  assigned ← skip_if Assign;
  _ ← (if assigned : bool then _ ← rec.(expression) Precedence.Lowest; mret tt else mret tt);
  _ ← expect_stmt_end; mret (name, ty).

Definition message_here {A} (message : string) : P A := at_ ← peek_start; message_at message at_ at_.

Definition decorated_member (is_enum : bool) (m : Members) : P Members :=
  at_ ← peek_start; decorators ← parse_decorators rec; t ← peek_token;
  match t with
  | Some Def => method ← parse_member_method decorators is_enum; mret (add_method method m)
  | other =>
      if is_enum && from_option (is_token Case) false other then
        message_at "'case' statement does not support decorators; remove the decorator" at_ at_
      else unexpected (default Eof other) "a decorator in a struct body must precede a 'def' method"
  end.

Definition body_message (is_enum : bool) : string :=
  if is_enum then "enum body may only contain 'case' declarations, 'comptime' associated facts, and 'def' methods"
  else "struct body may only contain 'var' fields, 'comptime' associated facts, and 'def' methods".

Definition struct_member (is_enum : bool) (token : Token) (m : Members) : P (Members + Members) :=
  match token with
  | Dedent => _ ← next_token; mret (inr m)
  | Newline => _ ← next_token; mret (inl m)
  | TripleStringLiteral _ _ | Pass => _ ← next_token; _ ← expect_stmt_end; mret (inl m)
  | Token.Var =>
      if is_enum then message_here "enums do not support 'var' fields; store state in a case payload"
      else f ← struct_field; mret (inl (add_field f m))
  | Enum => message_here "nested enum not supported here"
  | Comptime => a ← parse_struct_comptime; mret (inl (add_associated a m))
  | Def => method ← parse_member_method [] is_enum; mret (inl (add_method method m))
  | At => m ← decorated_member is_enum m; mret (inl m)
  | other =>
      if is_enum && is_token Case other then c ← parse_enum_case; mret (inl (add_case c m))
      else unexpected other (body_message is_enum)
  end.

Definition struct_members (is_enum : bool) : P Members :=
  loop rec.(fuel) (λ m, t ← peek_token; match t with Some t => struct_member is_enum t m | None => mret (inr m) end)
    (mkMembers [] [] [] []).

Definition struct_colon (is_enum : bool) (start : nat) : P unit :=
  if is_enum then
    colon ← skip_if Colon;
    if colon : bool then mret tt else s ← get; message_at "expected ':' in enum definition" start s.(last_span).2
  else expect Colon "Expected ':' after the struct name".

(** [parse_struct]. *)
Definition parse_struct (decorators : list Decorator) : P StmtKind :=
  let fieldwise_init := existsb (has_path "fieldwise_init") decorators in
  is_enum ← peek_is Enum; start ← peek_start;
  if is_enum && fieldwise_init then message_at "'@fieldwise_init' cannot be applied to an enum" start start
  else
    name ← (if is_enum : bool then _ ← next_token; expect_identifier "expected enum name"
      else _ ← expect Struct "Expected 'struct'"; expect_identifier "Expected a struct name after 'struct'");
    type_params ← parse_type_params rec;
    '(conforms, conditions, callable) ← parse_struct_conformance;
    where_clauses ← parse_where_clauses rec;
    _ ← struct_colon is_enum start;
    _ ← expect_stmt_end;
    _ ← expect Indent "Expected an indented struct body";
    m ← struct_members is_enum;
    mret (SStruct name decorators type_params conforms callable conditions where_clauses m.(fields) m.(associated)
      m.(methods) fieldwise_init (if is_enum : bool then Some m.(cases) else None)).

(** ** Traits *)

(** [parse_trait_comptime]. *)
Definition parse_trait_comptime : P TraitComptime :=
  _ ← expect Comptime "Expected 'comptime'"; name ← expect_identifier "Expected a name after 'comptime'";
  if bool_decide (name = lit "assert") then throw comptime_assert_outside_function
  else
    params ← parse_type_params rec;
    _ ← expect Colon "Expected ':' after the comptime member name";
    first ← rec.(type_);
    bounds ← while_token rec.(fuel) Amp (λ bounds, bound ← rec.(type_); mret (bounds ++ [bound])) [first];
    let ty := match bounds with
      | [ty] => ty
      | _ => TyNamed (lit "$trait_composition") (map ArgType bounds)
      end in
    where_clauses ← parse_where_clauses rec;
    assigned ← skip_if Assign;
    value ← (if assigned : bool then Some <$> rec.(expression) Precedence.Lowest else mret None);
    _ ← expect_stmt_end; mret (mkTraitComptime name params ty where_clauses value).

(** The receiver of a trait's method. *)
Definition trait_receiver : P (str * option ArgConvention * option (list Expr)) :=
  var ← skip_if Token.Var;
  first ← (if var : bool then mret (lit "var") else expect_identifier "A method's first parameter must be 'self'");
  let explicit := if bool_decide (first = lit "var") then Some CVar else convention_word first in
  match explicit, removed_convention_error first with
  | None, Some e => throw e
  | Some conv, _ =>
      origin ← convention_origin (Some conv);
      name ← expect_identifier "Expected 'self' after the receiver convention";
      mret (name, Some conv, origin)
  | None, None => mret (first, None, None)
  end.

(** [parse_trait_method_body]: [...] alone is a requirement. *)
Definition parse_trait_method_body : P (option (list Stmt)) :=
  inline ← skip_if Ellipsis;
  if inline : bool then _ ← expect_stmt_end; mret None
  else
    block ← skip_if Newline;
    if block : bool then
      _ ← expect Indent "Expected an indented trait-method body";
      docstring ← peek_matches is_triple_string;
      _ ← (if docstring : bool then _ ← next_token; _ ← expect_stmt_end; skip_newlines rec else mret tt);
      required ← skip_if Ellipsis;
      if required : bool then
        _ ← expect_stmt_end; _ ← expect Dedent "Expected the trait-method body to end after '...'"; mret None
      else Some <$> parse_block_body rec
    else stmt ← rec.(statement); mret (Some [stmt]).

(** [parse_trait_method]. *)
Definition parse_trait_method (decorators : list Decorator) : P TraitMethod :=
  _ ← reject_removed_closure_decorators decorators;
  _ ← expect Def "Expected 'def'"; spelled ← expect_member_name "Expected a method name after 'def'";
  let name := canonical_destructor_name spelled in
  type_params ← parse_type_params rec;
  _ ← expect LParen "Expected '(' after the method name";
  '(self_name, convention, origin) ← trait_receiver;
  if negb (bool_decide (self_name = lit "self")) then
    unexpected (Identifier self_name) "a method's first parameter must be 'self'"
  else
    ty ← parse_optional_receiver_type;
    '(params, positional_only, keyword_only) ← rest_params false;
    _ ← expect RParen "Expected ')' after the parameters";
    '(raises, raises_type) ← parse_callable_effects rec;
    ret ← parse_return_type rec;
    _ ← skip_effects rec "Expected '}' after method effects";
    where_clauses ← parse_where_clauses rec;
    _ ← expect Colon "Expected ':' before the method body";
    body ← parse_trait_method_body;
    mret (mkTraitMethod name decorators type_params convention origin ty params positional_only keyword_only
      raises raises_type ret where_clauses body).

(** [parse_trait]. *)
Definition trait_members : Type := list TraitMethod * list TraitComptime.

Definition trait_member (token : Token) '((methods, members) : trait_members) : P (trait_members + trait_members) :=
  match token with
  | Dedent => _ ← next_token; mret (inr (methods, members))
  | Newline => _ ← next_token; mret (inl (methods, members))
  | TripleStringLiteral _ _ | Pass => _ ← next_token; _ ← expect_stmt_end; mret (inl (methods, members))
  | Def => method ← parse_trait_method []; mret (inl (methods ++ [method], members))
  | At =>
      decorators ← parse_decorators rec; t ← peek_token;
      match t with
      | Some Def => method ← parse_trait_method decorators; mret (inl (methods ++ [method], members))
      | t => unexpected (default Eof t) "a decorator in a trait body must precede a 'def' method"
      end
  | Comptime => m ← parse_trait_comptime; mret (inl (methods, members ++ [m]))
  | Enum => message_here "nested enum in a trait not supported here"
  | other => unexpected other "a trait body may only contain 'def' methods, 'comptime' members, or 'pass'"
  end.

Definition parse_trait : P StmtKind :=
  _ ← expect Trait "Expected 'trait'"; name ← expect_identifier "Expected a trait name after 'trait'";
  refines ← parse_conformance;
  _ ← expect Colon "Expected ':' after the trait name"; _ ← expect_stmt_end;
  _ ← expect Indent "Expected an indented trait body";
  '(methods, members) ← loop rec.(fuel) (λ m,
    t ← peek_token; match t with Some t => trait_member t m | None => mret (inr m) end) ([], []);
  mret (STrait name refines methods members).
End items.
