(* ===== verification/ParseProgram.v ===== *)
(** * ParseProgram: statements, programs and recovery (mojito-parser,
      [parser/driver.rs], [parse_statement] and the recovery of
      [parser/stmts.rs])

    The recursion is tied by [parsers]: with no fuel every entry diverges, and
    with one more each entry is its parser over the entries below.  The fuel
    bounds the nesting of calls and the rounds of each loop; the theorems say
    how much is enough. *)

From Stdlib Require Import Ascii String.
From S2P Require Import Prelude Text Literal Token Dtypes Ast AstWalk Parser ParseTypes ParseExprs ParseStmts ParseItems.

Section program.
Context {B R I : Type} `{!TokenStream B R I, !Rendered B R, !CaseTable}.
Notation Token := (Token B R).
Notation ParseError := (ParseError B R).
Notation Stmt := (Stmt B R).
Notation StmtKind := (StmtKind B R).
Notation P := (P B R I).
Notation Parser := (Parser I).
Notation Rec := (Rec B R I).

(** ** Statements *)

(** [map_err(|err| err.at(self.last_span))]. *)
Definition located {A} (m : P A) : P A := λ s,
  match m s with (Err e, s) => (Err (error_at e s.(last_span)), s) | r => r end.

Section statement.
Context (rec : Rec).

Definition decorated_statement : P StmtKind :=
  decorators ← parse_decorators rec; t ← peek_token;
  match t with
  | Some Def => parse_def rec decorators
  | Some (Struct | Enum) => parse_struct rec decorators
  | t => unexpected (default Eof t) "a decorator must precede a 'def' or 'struct'"
  end.

(** A statement of one keyword. *)
Definition bare (kind : StmtKind) : P StmtKind := _ ← next_token; _ ← expect_stmt_end; mret kind.

Definition statement_kind (start : nat) : P StmtKind :=
  t ← peek_token;
  match t with
  | Some Token.Var => parse_var_decl rec
  | Some Def => parse_def rec []
  | Some (Struct | Enum) => parse_struct rec []
  | Some At => decorated_statement
  | Some Trait => parse_trait rec
  | Some Comptime => parse_comptime rec
  | Some If => parse_if rec
  | Some Match => parse_match rec false
  | Some Case => unexpected Case "'case' outside of a 'match' statement"
  | Some While => parse_while rec
  | Some For => parse_for rec
  | Some With => parse_with rec
  | Some Try => parse_try rec
  | Some Return => parse_return rec
  | Some Raise => parse_raise rec
  | Some ImportKw => parse_import rec
  | Some From => parse_from_import rec
  | Some Pass => bare SPass
  | Some Break => bare SBreak
  | Some Continue => bare SContinue
  | Some Ellipsis => kind ← bare SPass; _ ← insert_placeholder start; mret kind
  | Some (TripleStringLiteral _ _) => kind ← bare SPass; _ ← insert_docstring start; mret kind
  | Some (Identifier word) => if bool_decide (word = lit "ref") then parse_ref_decl rec else parse_expr_or_assign rec
  | _ => parse_expr_or_assign rec
  end.

(** [parse_statement]. *)
Definition parse_statement : P Stmt :=
  start ← peek_start; kind ← located (statement_kind start);
  span ← significant_span start; mret (mkStmt kind span).
End statement.

(** ** The recursion *)

Definition diverge {A} : P A := λ s, (Diverge, s).

Definition no_parsers : Rec :=
  mkRec 0 (λ _, diverge) (λ _ _, diverge) diverge diverge (λ _ _, diverge) diverge diverge.

Definition parsers_over (fuel : nat) (rec : Rec) : Rec :=
  mkRec fuel (parse_expression rec) (parse_expression_from rec) (parse_type rec) (parse_param_arg rec)
    (parse_target_item rec) (parse_pattern rec) (parse_statement rec).

Fixpoint parsers (fuel : nat) : Rec :=
  match fuel with O => no_parsers | S n => parsers_over fuel (parsers n) end.

(** ** Statements out of place *)

(** A block is accepted when each statement is. *)
Definition each (check : Stmt → option ParseError) : list Stmt → option ParseError :=
  fix go block :=
    match block with [] => None | s :: block => match check s with Some e => Some e | None => go block end end.

Definition first_error (checks : list (option ParseError)) : option ParseError := head (omap (λ e, e) checks).

(** [reject_comptime_statement_outside_function]. *)
Fixpoint reject_comptime_statement_outside_function (statement : Stmt) : option ParseError :=
  let block := each reject_comptime_statement_outside_function in
  let optional o := match o with Some body => block body | None => None end in
  let 'mkStmt kind span := statement in
  match kind with
  | SComptimeIf _ _ => Some (error_at (Message (lit "'comptime if' must be contained in a function")) span)
  | SComptimeMatch _ _ => Some (error_at (Message (lit "'comptime match' must be contained in a function")) span)
  | SComptimeAssert _ _ => Some (error_at comptime_assert_outside_function span)
  | SDef _ _ _ _ _ _ _ _ _ _ _ _ => None
  | SIf branches orelse => first_error [first_error (map (λ '(_, body), block body) branches); optional orelse]
  | SWhile _ body orelse => first_error [block body; optional orelse]
  | SFor _ _ body _ | SComptimeFor _ _ body | SWith _ body => block body
  | STry body except orelse finalbody =>
      first_error [block body; match except with Some (_, handler) => block handler | None => None end;
        optional orelse; optional finalbody]
  | _ => None
  end.

(** The place of a visited enum. *)
Definition enum_span (v : visit (B:=B) (R:=R)) : option Span :=
  match v with VisitStmt (mkStmt (SStruct _ _ _ _ _ _ _ _ _ _ _ (Some _)) span) => Some span | _ => None end.

(** [reject_enum_inside_function]: the statement itself is the first visit. *)
Definition reject_enum_inside_function (statement : Stmt) : option ParseError :=
  match omap enum_span (tail (walk_stmt statement)) with
  | [] => None
  | span :: _ => Some (error_at (Message (lit "enum inside a function not supported here")) span)
  end.

Definition accept (e : option ParseError) : P unit := match e with Some e => throw e | None => mret tt end.

(** A statement of the module. *)
Definition module_statement (rec : Rec) : P Stmt :=
  statement ← parse_statement rec;
  _ ← accept (reject_comptime_statement_outside_function statement);
  _ ← accept (reject_enum_inside_function statement); mret statement.

(** [parse_program]. *)
Definition program_step (rec : Rec) (stmts : list Stmt) : P (list Stmt + list Stmt) :=
  t ← peek_token;
  match t with
  | None | Some Eof => mret (inr stmts)
  | Some Newline => _ ← next_token; mret (inl stmts)
  | Some _ => statement ← module_statement rec; mret (inl (stmts ++ [statement]))
  end.

Definition parse_program (n : nat) : P (list Stmt) := loop n (program_step (parsers n)) [].

(** ** Recovery *)

(** [ParseReport]. *)
Record ParseReport : Type := mkReport { program : list Stmt; errors : list ParseError; truncated : bool }.

(** [discard_one]. *)
Definition discard_one : P unit := λ s,
  match next_item s.(tokens) with
  | (Ok item, i) => (Ok tt, consumed (B:=B) (R:=R) s i item)
  | (Err _, i) => (Ok tt, consumed (B:=B) (R:=R) s i None)
  | (Panic, i) => (Panic, consumed (B:=B) (R:=R) s i None)
  | (Diverge, i) => (Diverge, consumed (B:=B) (R:=R) s i None)
  end.

(** A token that recovery passes: its span is the last, and its end is not
    significant. *)
Definition passed (s : Parser) (i : I) (span : Span) : Parser :=
  mkParser i span s.(last_significant_end) s.(last_stmt_ended_with_semicolon) s.(placeholder_statements)
    s.(docstring_statements).

(** [synchronize_statement]. *)
Definition synchronize_step (_ : unit) : P (unit + unit) := λ s,
  match next_item s.(tokens) with
  | (Ok (Some (token, span)), i) =>
      (Ok match token with Newline | Semicolon | Dedent | Eof => inr tt | _ => inl tt end, passed s i span)
  | (Err _, i) => (Ok (inl tt), consumed (B:=B) (R:=R) s i None)
  | (Ok None, i) => (Ok (inr tt), consumed (B:=B) (R:=R) s i None)
  | (Panic, i) => (Panic, consumed (B:=B) (R:=R) s i None)
  | (Diverge, i) => (Diverge, consumed (B:=B) (R:=R) s i None)
  end.

Definition synchronize_statement (n : nat) : P unit := loop n synchronize_step tt.

(** A result as a value. *)
Definition attempt {A} (m : P A) : P (A + ParseError) := λ s,
  match m s with
  | (Ok a, s) => (Ok (inl a), s)
  | (Err e, s) => (Ok (inr e), s)
  | (Panic, s) => (Panic, s)
  | (Diverge, s) => (Diverge, s)
  end.

(** [parse_program_diagnostic]. *)
Definition diagnostic_step (n max_errors : nat) '((program, errors) : list Stmt * list ParseError)
    : P (list Stmt * list ParseError + ParseReport) :=
  peeked ← attempt peek_token;
  match peeked with
  | inl None | inl (Some Eof) => mret (inr (mkReport program errors false))
  | inr err =>
      s ← get;
      let errors := errors ++ [error_at err s.(last_span)] in
      _ ← discard_one;
      mret (if (max_errors <=? length errors)%nat then inr (mkReport program errors true) else inl (program, errors))
  | inl (Some (Newline | Indent | Dedent)) => _ ← discard_one; mret (inl (program, errors))
  | inl (Some _) =>
      statement ← attempt (module_statement (parsers n));
      match statement with
      | inl statement => mret (inl (program ++ [statement], errors))
      | inr err =>
          let errors := errors ++ [err] in
          if (max_errors <=? length errors)%nat then mret (inr (mkReport program errors true))
          else _ ← synchronize_statement n; mret (inl (program, errors))
      end
  end.

Definition parse_program_diagnostic (n max_errors : nat) : P ParseReport := loop n (diagnostic_step n max_errors) ([], []).
End program.
