(* ===== verification/ParseRuns.v ===== *)
(** * ParseRuns: reasoning about the parser

    A stream is bounded when every step of it yields a token, the end or an
    error, never a panic, and each token makes a measure smaller; the ends of
    spans come in order, and an interpolated fragment starts a stream smaller
    than the one its token came from.  A stream that resumes keeps this after
    its end and its errors, which only recovery asks for.  [wp] is the weakest precondition of a parser that may
    fail but neither panics nor diverges, and [spec] states a parser's
    behaviour: on a bounded stream of fewer than [n] tokens it consumes [k]
    tokens or more, and its result satisfies [Q]. *)

From Stdlib Require Import Ascii String.
From S2P Require Import Prelude Text Literal Token Dtypes Ast Parser.

(** ** Bounded streams *)

(** [good i e] holds of a stream whose last token ended at [e]. *)
Class Bounded (B R I : Type) `{!TokenStream B R I} : Type := {
  measure : I → nat;
  good : I → nat → Prop;
  resumes : Prop;
  next_good i e : good i e →
    match next_item i with
    | (Ok (Some (t, (a, b))), i') =>
        (a ≤ b ∧ e ≤ b)%nat ∧ good i' b ∧ (measure i' < measure i)%nat ∧
        Forall (λ src, good (new_stream src) 0 ∧ (measure (new_stream src) < measure i)%nat) (interpolations t)
    | (Ok None, i') | (Err _, i') => resumes → good i' e ∧ (measure i' ≤ measure i)%nat
    | _ => False
    end;
}.

Section runs.
Context {B R I : Type} `{!TokenStream B R I, !Bounded B R I}.
Notation Token := (Token B R).
Notation Parser := (Parser I).
Notation P := (P B R I).
Notation Expr := (Expr B R).
Notation TargetItem := (TargetItem B R).
Notation SourceType := (SourceType B R).

(** The token ahead, where it starts, the bytes read, the later of the two, and
    the tokens left. *)
Definition ahead (s : Parser) : option Token :=
  match fst (next_item s.(tokens)) with Ok item => fst <$> item | _ => None end.
Definition start_of (s : Parser) : nat :=
  match fst (next_item s.(tokens)) with Ok (Some (_, span)) => span.1 | _ => s.(last_span).2 end.
Notation reached s := (s.(last_span).2).
Definition horizon (s : Parser) : nat := Nat.max (start_of s) (reached s).
Definition left_over (s : Parser) : nat := measure s.(tokens).
Definition sound (s : Parser) : Prop := good s.(tokens) (reached s) ∧ (s.(last_span).1 ≤ reached s)%nat.

(** [s'] is [s] with [k] tokens consumed or more. *)
Record advanced (k : nat) (s s' : Parser) : Prop := {
  advanced_sound : sound s';
  advanced_left : (left_over s' + k ≤ left_over s)%nat;
  advanced_reached : (reached s ≤ reached s')%nat;
  advanced_next : (horizon s ≤ horizon s')%nat;
  advanced_start : match k with O => True | S _ => (horizon s ≤ reached s')%nat end;
}.

(** A parser from [s]; where an error leaves it is reported against [s0]. *)
Definition wp (s0 : Parser) {A} (m : P A) (Q : A → Parser → Prop) (s : Parser) : Prop :=
  match m s with
  | (Ok a, s') => Q a s'
  | (Err _, s') => resumes → advanced 0 s0 s'
  | _ => False
  end.

Definition spec {A} (n k : nat) (J : Parser → Prop) (m : P A) (Q : A → Parser → Prop) : Prop :=
  ∀ s, sound s → (left_over s < n)%nat → J s → wp s m (λ a s', advanced k s s' ∧ Q a s') s.

Definition any : Parser → Prop := λ _, True.
Definition true_of {A} : A → Parser → Prop := λ _ _, True.

(** [start] is no later than the last token. *)
Definition behind (start : nat) (s : Parser) : Prop := (start ≤ reached s)%nat.

(** The fragments of a token are smaller than [n]. *)
Definition fragments (n : nat) (t : Token) : Prop :=
  Forall (λ src, good (new_stream src) 0 ∧ (measure (new_stream src) < n)%nat) (interpolations t).

(** An expression read: its span is ordered and ends no later than the last token. *)
Definition within (e : Expr) (s : Parser) : Prop := ((expr_span e).1 ≤ (expr_span e).2 ≤ reached s)%nat.
Definition item_within (item : TargetItem) (s : Parser) : Prop :=
  match item with ItemExpr e => within e s | ItemTarget _ => True end.
Definition type_within (ty : SourceType) (s : Parser) : Prop :=
  match ty with TyValue e => within e s | _ => True end.

(** ** Rules *)

Lemma start_horizon s : (start_of s ≤ horizon s ∧ reached s ≤ horizon s)%nat.
Proof. unfold horizon. lia. Qed.

Lemma advanced_refl s : sound s → advanced 0 s s.
Proof. intros; split; [done|lia..|done]. Qed.

Lemma advanced_trans k s s' s'' : advanced 0 s s' → advanced k s' s'' → advanced 0 s s''.
Proof. intros [] []; split; [done|lia..|done]. Qed.

(** The iterator may step without a token. *)
Lemma advanced_stuck s i :
  match fst (next_item s.(tokens)) with Ok (Some _) => False | _ => True end →
  good i (reached s) → (measure i ≤ measure s.(tokens))%nat → sound s →
  advanced 0 s (consumed (B:=B) (R:=R) s i None).
Proof.
  intros Hn Hi Hm [Hs Hspan].
  assert (start_of s = reached s) as Hr.
  { unfold start_of. by destruct (fst (next_item (tokens s))) as [[|]| | |]. }
  split; try done; unfold left_over, horizon; rewrite ?Hr; simpl; try done; lia.
Qed.

Lemma wp_ret s0 {A} (a : A) (Q : A → Parser → Prop) s : Q a s → wp s0 (mret a) Q s.
Proof. done. Qed.

Lemma wp_bind s0 {A C} (m : P A) (f : A → P C) Q s :
  wp s0 m (λ a, wp s0 (f a) Q) s → wp s0 (m ≫= f) Q s.
Proof. unfold wp, mbind, P_bind. destruct (m s) as [[] ?]; auto. Qed.

Lemma wp_fmap s0 {A C} (f : A → C) (m : P A) Q s : wp s0 m (λ a, Q (f a)) s → wp s0 (f <$> m) Q s.
Proof. unfold wp, fmap, P_fmap, mbind, P_bind, mret, P_ret. destruct (m s) as [[] ?]; auto. Qed.

Lemma wp_throw s0 {A} e (Q : A → Parser → Prop) s : advanced 0 s0 s → wp s0 (throw e) Q s.
Proof. by intros ? ?. Qed.

Lemma wp_unexpected s0 {A} t message (Q : A → Parser → Prop) s : advanced 0 s0 s → wp s0 (unexpected t message) Q s.
Proof. by intros ? ?. Qed.

Lemma wp_get s0 (Q : Parser → Parser → Prop) s : Q s s → wp s0 get Q s.
Proof. done. Qed.

Lemma wp_mono s0 {A} (m : P A) (Q Q' : A → Parser → Prop) s :
  wp s0 m Q s → (∀ a s', Q a s' → Q' a s') → wp s0 m Q' s.
Proof. unfold wp. destruct (m s) as [[] ?]; auto. Qed.

Lemma wp_base s0 s1 k {A} (m : P A) Q s : wp s1 m Q s → advanced k s0 s1 → wp s0 m Q s.
Proof.
  unfold wp. intros H H1. destruct (m s) as [[] s']; try done.
  intros Hr. destruct (H Hr), H1; split; [done|lia..|done].
Qed.

(** A specified parser, anywhere. *)
Lemma wp_spec {A n k J} {m : P A} {Q : A → Parser → Prop} s0 s (Q' : A → Parser → Prop) :
  spec n k J m Q → advanced 0 s0 s → (left_over s < n)%nat → J s →
  (∀ a s', advanced k s s' → Q a s' → Q' a s') → wp s0 m Q' s.
Proof.
  intros Hm Hs Hn HJ HQ. eapply wp_mono; [eapply wp_base; [|exact Hs]; apply Hm; try done; apply Hs|].
  intros a s' []. auto.
Qed.

(** A parser before another, when only what it consumes matters. *)
Lemma wp_join s0 {A C} (m : P A) (f : A → P C) (Q : C → Parser → Prop) s :
  advanced 0 s0 s → wp s m (λ _ s', advanced 0 s s') s →
  (∀ a s', advanced 0 s s' → wp s0 (f a) Q s') → wp s0 (m ≫= f) Q s.
Proof. intros H0 Hm Hf. apply wp_bind. eapply wp_mono; [by eapply wp_base|]. auto. Qed.

(** A loop keeps [J] while each round that continues consumes a token; the
    fuel exceeds what is left. *)
Lemma wp_loop_with {X A} k (J : X → Parser → Prop) (Q : A → Parser → Prop) s0 fuel (f : X → P (X + A)) x s
    (Q' : A → Parser → Prop) :
  advanced 0 s0 s → (left_over s < fuel)%nat → J x s →
  (∀ x s1, advanced 0 s s1 → J x s1 →
    wp s1 (f x) (λ r s', match r with inl x => advanced 1 s1 s' ∧ J x s' | inr a => advanced k s1 s' ∧ Q a s' end) s1) →
  (∀ a s', advanced k s s' → Q a s' → Q' a s') →
  wp s0 (loop fuel f x) Q' s.
Proof.
  intros H0 Hl HJ Hf HQ.
  assert (Hloop : ∀ fuel s1 x, advanced 0 s s1 → (left_over s1 < fuel)%nat → J x s1 →
    wp s1 (loop fuel f x) (λ a s', advanced k s1 s' ∧ Q a s') s1).
  { clear - Hf. intros fuel. induction fuel as [|fuel IH]; intros s1 x Hs1 Hl1 HJ; [lia|].
    apply wp_bind. eapply wp_mono; [by apply Hf|].
    intros [y|a] s' [Hadv HQ]; [|by apply wp_ret].
    pose proof Hadv as [Hs' Hl' Hr' Hn' Hst]. eapply wp_base; [|exact Hadv].
    eapply wp_mono; [apply IH; try done; [by eapply advanced_trans|lia]|].
    intros a s'' [[] HQ']. split; [split|]; try done; try lia. destruct k; [done|]. simpl in *. lia. }
  eapply wp_mono; [eapply wp_base; [apply Hloop; try done|exact H0]|].
  - apply advanced_refl, H0.
  - intros a s' []. auto.
Qed.

Lemma wp_loop {X A} s0 fuel (f : X → P (X + A)) x s (Q : A → Parser → Prop) :
  advanced 0 s0 s → (left_over s < fuel)%nat →
  (∀ x s1, advanced 0 s s1 →
    wp s1 (f x) (λ r s', match r with inl _ => advanced 1 s1 s' | inr _ => advanced 0 s1 s' end) s1) →
  (∀ a s', advanced 0 s s' → Q a s') →
  wp s0 (loop fuel f x) Q s.
Proof.
  intros H0 Hl Hf HQ. apply (wp_loop_with 0 true_of true_of); try done; auto.
  intros y s1 Hs1 _. eapply wp_mono; [by apply Hf|]. by intros [].
Qed.

(** ** The token cursor *)

Lemma wp_peek_token s0 (Q : option Token → Parser → Prop) s :
  advanced 0 s0 s → Q (ahead s) s → wp s0 peek_token Q s.
Proof.
  intros Hs HQ. pose proof (next_good _ _ (proj1 (advanced_sound _ _ _ Hs))) as Hn.
  unfold wp, peek_token, ahead in *. by destruct (next_item (tokens s)) as [[[[t [a b]]|]|e| |] i']; try intros _.
Qed.

Lemma wp_peek_start s0 (Q : nat → Parser → Prop) s : sound s → Q (start_of s) s → wp s0 peek_start Q s.
Proof.
  intros [Hs _] HQ. apply next_good in Hs. unfold wp, peek_start, start_of in *.
  by destruct (next_item (tokens s)) as [[[[t [a b]]|]|e| |] i'].
Qed.

Lemma wp_next_token s0 (Q : Token → Parser → Prop) s :
  advanced 0 s0 s →
  (∀ t s', ahead s = Some t → advanced 1 s s' → fragments (left_over s) t → Q t s') →
  wp s0 next_token Q s.
Proof.
  intros Hs HQ. pose proof (advanced_sound _ _ _ Hs) as Hg. destruct Hg as [Hg Hspan].
  pose proof (next_good _ _ Hg) as Hn. unfold wp, next_token.
  destruct (next_item (tokens s)) as [[[[t [a b]]|]| | |] i'] eqn:E; simpl in *; try done.
  - destruct Hn as (? & Hi' & Hm & Ht). apply HQ; [unfold ahead; by rewrite E| |done].
    assert (start_of s = a) as Ha by (unfold start_of; by rewrite E).
    split; unfold sound, left_over, horizon; rewrite ?Ha; simpl; try lia. split; [done|lia].
  - intros Hr. destruct (Hn Hr). apply (advanced_trans 0 _ s); [done|]. by apply advanced_stuck; [rewrite E|..].
  - intros Hr. destruct (Hn Hr). apply (advanced_trans 0 _ s); [done|]. by apply advanced_stuck; [rewrite E|..].
Qed.

Lemma wp_peek_matches s0 p (Q : bool → Parser → Prop) s :
  advanced 0 s0 s → Q (from_option p false (ahead s)) s → wp s0 (peek_matches p) Q s.
Proof. intros Hs HQ. apply wp_bind, wp_peek_token; [done|]. by apply wp_ret. Qed.

Lemma wp_peek_is s0 t (Q : bool → Parser → Prop) s :
  advanced 0 s0 s → Q (from_option (is_token t) false (ahead s)) s → wp s0 (peek_is t) Q s.
Proof. apply wp_peek_matches. Qed.

Lemma wp_peek_or s0 d (Q : Token → Parser → Prop) s :
  advanced 0 s0 s → Q (default d (ahead s)) s → wp s0 (peek_or d) Q s.
Proof. intros Hs HQ. apply wp_bind, wp_peek_token; [done|]. by apply wp_ret. Qed.

Lemma wp_skip_if s0 t (Q : bool → Parser → Prop) s :
  advanced 0 s0 s → (∀ s', advanced 1 s s' → Q true s') →
  (from_option (is_token t) false (ahead s) = false → Q false s) → wp s0 (skip_if t) Q s.
Proof.
  intros Hs Ht Hf. apply wp_bind, wp_peek_is; [done|]. destruct (from_option _ _ _); [|by apply wp_ret, Hf].
  apply wp_bind, wp_next_token; [done|]. intros t' s' _ H _. apply wp_ret. auto.
Qed.

Lemma wp_node s0 kind start (Q : Expr → Parser → Prop) s :
  Q (mkExpr kind (start, reached s)) s → wp s0 (node kind start) Q s.
Proof. done. Qed.

Lemma wp_significant_span s0 start (Q : Span → Parser → Prop) s :
  (∀ e, Q (start, e) s) → wp s0 (significant_span start) Q s.
Proof. intros HQ. apply HQ. Qed.

(** The parsers of one token or none. *)
Lemma expect_spec n t message : spec n 1 any (expect t message) true_of.
Proof.
  intros s Hs _ _. pose proof (advanced_refl _ Hs). apply wp_bind, wp_next_token; [done|]. intros t' s' _ H1 _.
  destruct (is_token t t'); [by apply wp_ret|]. apply wp_unexpected. by eapply advanced_trans.
Qed.

Lemma expect_name_spec n message : spec n 1 any (expect_name message) true_of.
Proof.
  intros s Hs _ _. pose proof (advanced_refl _ Hs). apply wp_bind, wp_next_token; [done|]. intros t' s' _ H1 _.
  destruct t'; try (apply wp_throw; by eapply advanced_trans). by apply wp_ret.
Qed.

Lemma expect_member_name_spec n message : spec n 1 any (expect_member_name message) true_of.
Proof.
  intros s Hs _ _. pose proof (advanced_refl _ Hs). apply wp_bind, wp_next_token; [done|]. intros t' s' _ H1 _.
  destruct t'; simpl; (by apply wp_ret) || (apply wp_unexpected; by eapply advanced_trans).
Qed.

Lemma set_semicolon_spec n b : spec n 0 any (set_semicolon b) true_of.
Proof. intros s Hs _ _. split; [|done]. split; [done|unfold left_over; simpl; lia|simpl; lia|done|done]. Qed.

Lemma insert_placeholder_spec n start : spec n 0 any (insert_placeholder start) true_of.
Proof. intros s Hs _ _. split; [|done]. split; [done|unfold left_over; simpl; lia|simpl; lia|done|done]. Qed.

Lemma insert_docstring_spec n start : spec n 0 any (insert_docstring start) true_of.
Proof. intros s Hs _ _. split; [|done]. split; [done|unfold left_over; simpl; lia|simpl; lia|done|done]. Qed.

Lemma expect_stmt_end_spec n : spec n 1 any expect_stmt_end true_of.
Proof.
  intros s Hs Hn _. pose proof (advanced_refl _ Hs). apply wp_bind, wp_next_token; [done|]. intros t s' _ H1 _.
  destruct t; try (apply wp_unexpected; by eapply advanced_trans);
    (eapply (wp_spec s s'); [apply set_semicolon_spec with (n := n)|by eapply advanced_trans|destruct H1; lia|done|];
     intros a s'' [] _; split; [|done]; destruct H1; split; [done|lia..]).
Qed.

(** ** The recursion *)

(** The entries are safe below [n0] tokens, or below [n1] for those that call
    another entry before they consume a token. *)
Record rec_ok (n1 n0 : nat) (rec : Rec B R I) : Prop := {
  ok_order : (n1 ≤ n0 ≤ S n1)%nat;
  ok_fuel : (n1 < rec.(fuel))%nat;
  ok_expression min : spec n0 1 any (rec.(expression) min) within;
  ok_expression_from left min : spec n0 0 (within left) (rec.(expression_from) left min) within;
  ok_type : spec n0 1 any rec.(type_) type_within;
  ok_param_arg : spec n1 1 any rec.(param_arg) true_of;
  ok_target_item declare min : spec n1 1 any (rec.(target_item) declare min) item_within;
  ok_pattern : spec n0 1 any rec.(pattern) true_of;
  ok_statement : spec n1 1 any rec.(statement) true_of;
}.
End runs.
Notation reached s := (s.(last_span).2).

(** ** Automation *)

Create HintDb spec.
#[export] Hint Resolve expect_spec expect_name_spec expect_member_name_spec set_semicolon_spec insert_placeholder_spec
  insert_docstring_spec expect_stmt_end_spec ok_expression ok_expression_from ok_type ok_param_arg ok_target_item
  ok_pattern ok_statement : spec.

(** The facts of the states in the context. *)
Ltac facts :=
  repeat match goal with
  | H : advanced _ _ _ |- _ => destruct H as [? ? ? ? ?]
  | H : match S _ with O => _ | S _ => _ end |- _ => cbv beta iota in H
  | H : match O with O => _ | S _ => _ end |- _ => clear H
  | H : any _ |- _ => clear H
  | H : true_of _ _ |- _ => clear H
  | H : _ ∧ _ |- _ => destruct H
  end.
Ltac spans := unfold sound, item_within, type_within, within, behind, any, true_of in *; cbn [expr_span fst snd] in *.
Ltac start_fact s :=
  lazymatch goal with
  | _ : (start_of s ≤ horizon s ∧ _)%nat |- _ => fail
  | _ => pose proof (start_horizon s)
  end.
Ltac starts :=
  repeat match goal with
  | |- context [start_of ?s] => start_fact s
  | _ : context [start_of ?s] |- _ => start_fact s
  end.
Ltac advances :=
  solve [split; [assumption|lia|lia|lia|first [exact Logic.I|cbv beta iota; starts; lia]]].

Ltac side := first [exact Logic.I | assumption
    | cbv beta; match goal with H : ahead ?s = _ |- context [ahead ?s] => rewrite H; cbn [from_option]; assumption end
    | solve [starts; spans; repeat split; try assumption; try lia]].

Ltac finish :=
  first [assumption | exact Logic.I | advances | solve [starts; spans; repeat split; first [assumption|exact Logic.I|lia]]
    | split; [advances|finish]
    | exfalso; assumption
    | match goal with H : ahead ?s = Some _, H' : from_option _ _ (ahead ?s) = _ |- _ => rewrite H in H'; discriminate H' end ].

Ltac head_of m := lazymatch m with ?f _ => head_of f | ?f => f end.

(** A match on a token: the case of the tokens it does not name is proved once. *)
Ltac token_cases x sample :=
  lazymatch goal with
  | |- wp ?s0 ?m ?Q ?s =>
      let F := eval pattern x in m in
      lazymatch F with
      | ?f _ =>
          let d := eval cbv beta iota in (f sample) in
          let D := fresh "D" in
          assert (D : wp s0 d Q s); [|destruct x as [[]|] eqn:?; try exact D; clear D]
      end
  end.
Ltac cases x :=
  let T := type of x in
  lazymatch T with
  | option (Token.Token ?B ?R) => token_cases x (Some (@Tilde B R))
  | bool => let E := fresh in destruct x eqn:E; try discriminate E
  | _ => destruct x eqn:?
  end.

(** One step of a parser. *)
Ltac run_step :=
  cbv beta;
  lazymatch goal with
  | |- wp _ (mbind _ (match expr_kind _ with _ => _ end)) _ _ => apply wp_join; [advances| |intros ? ? ?; facts]
  | |- wp _ (mbind _ _) _ _ => apply wp_bind
  | |- wp _ (fmap _ _) _ _ => apply wp_fmap
  | |- wp _ (mret _) _ _ => apply wp_ret; cbv beta iota
  | |- wp _ (throw _) _ _ => apply wp_throw; advances
  | |- wp _ (unexpected _ _) _ _ => apply wp_unexpected; advances
  | |- wp _ get _ _ => apply wp_get
  | |- wp _ peek_token _ _ => apply wp_peek_token; [advances|]
  | |- wp _ peek_start _ _ => apply wp_peek_start; [assumption|]
  | |- wp _ next_token _ _ => apply wp_next_token; [advances|intros ? ? ? ? ?; facts]
  | |- wp _ (peek_matches _) _ _ => apply wp_peek_matches; [advances|]
  | |- wp _ (peek_is _) _ _ => apply wp_peek_is; [advances|]
  | |- wp _ (peek_or _) _ _ => apply wp_peek_or; [advances|]
  | |- wp _ (skip_if _) _ _ => apply wp_skip_if; [advances|intros ? ?; facts; cbv beta iota|intros ?; cbv beta iota]
  | |- wp _ (node _ _) _ _ => apply wp_node
  | |- wp _ (significant_span _) _ _ => apply wp_significant_span; intros ?
  | |- wp _ (while_token _ _ _ _) _ _ => unfold while_token
  | |- wp _ (loop _ _ _) _ _ =>
      apply wp_loop; [advances|lia|intros ? ? ?; facts|intros ? ? ?; facts]
  | |- wp _ (let _ := _ in _) _ _ => cbv zeta
  | |- wp _ (match ?x with _ => _ end) _ _ => cases x
  | |- wp _ ?m _ _ =>
      first [eapply wp_spec;
               [solve [eauto with spec]|advances|first [apply Nat.lt_succ_diag_r|lia]|side|intros ? ? ? ?; facts]
            |let h := head_of m in unfold h]
  | |- match (match ?x with _ => _ end) with _ => _ end => destruct x; cbv beta iota
  | |- _ => finish
  end.
Ltac parse_with Hrec :=
  pose proof (ok_order _ _ _ Hrec); pose proof (ok_fuel _ _ _ Hrec);
  intros ? ? ? ?; facts; spans; repeat run_step.
