(* ===== verification/TypeRuns.v ===== *)
(** * TypeRuns: types and arguments never panic

    Each parser of [ParseTypes], over entries that are safe below a number of
    tokens: how many tokens it may have left, how many it consumes at least,
    and where the expressions it returns lie. *)

From Stdlib Require Import Ascii String.
From S2P Require Import Prelude Text Literal Token Dtypes Ast Parser ParseTypes ParseRuns.

Section types.
Context {B R I : Type} `{!TokenStream B R I, !Bounded B R I, !Rendered B R}.
Context (rec : Rec B R I) (n1 n0 : nat) (Hrec : rec_ok n1 n0 rec).
Set Default Proof Using "All".

Lemma more_spec n close : spec n 0 any (more (B:=B) (R:=R) (I:=I) close) true_of.
Proof using Type. intros ? ? ? ?. spans. repeat run_step. Qed.
#[local] Hint Resolve more_spec : spec.

Lemma parse_call_args_spec : spec n0 0 any (parse_call_args rec) true_of.
Proof. parse_with Hrec. Qed.
#[local] Hint Resolve parse_call_args_spec : spec.

Lemma parse_arguments_spec : spec n0 1 any (parse_arguments rec) true_of.
Proof. parse_with Hrec. Qed.
#[local] Hint Resolve parse_arguments_spec : spec.

Lemma parse_param_args_spec : spec (S n1) 1 any (parse_param_args rec) true_of.
Proof. parse_with Hrec. Qed.
#[local] Hint Resolve parse_param_args_spec : spec.

Lemma parse_where_clauses_spec : spec (S n1) 0 any (parse_where_clauses rec) true_of.
Proof. parse_with Hrec. Qed.
#[local] Hint Resolve parse_where_clauses_spec : spec.

Lemma parse_optional_origin_specifier_spec : spec (S n1) 0 any (parse_optional_origin_specifier rec) true_of.
Proof. parse_with Hrec. Qed.
#[local] Hint Resolve parse_optional_origin_specifier_spec : spec.

Lemma parse_type_of_operand_spec : spec (S n1) 1 any (parse_type_of_operand rec) type_within.
Proof. parse_with Hrec. Qed.
#[local] Hint Resolve parse_type_of_operand_spec : spec.

Lemma parse_named_type_spec id start : spec (S n1) 0 (behind start) (parse_named_type rec id start) type_within.
Proof. parse_with Hrec. Qed.
#[local] Hint Resolve parse_named_type_spec : spec.

Lemma assoc_index_spec ty : spec (S n1) 1 any (assoc_index rec ty) type_within.
Proof. parse_with Hrec. Qed.
#[local] Hint Resolve assoc_index_spec : spec.

Lemma parse_type_assoc_tail_spec ty start :
  spec (S n1) 0 (λ s, behind start s ∧ type_within ty s) (parse_type_assoc_tail rec ty start) type_within.
Proof.
  pose proof (ok_order _ _ _ Hrec). pose proof (ok_fuel _ _ _ Hrec). intros s ? ? [? ?].
  apply (wp_loop_with 0 type_within type_within); [finish|lia|finish| |].
  - intros x s1 ? ?. facts. spans. repeat run_step.
  - intros x s1 ? ?. facts. finish.
Qed.
#[local] Hint Resolve parse_type_assoc_tail_spec : spec.
Lemma first_bound_spec : spec n0 1 any (first_bound rec) true_of.
Proof. parse_with Hrec. Qed.
#[local] Hint Resolve first_bound_spec : spec.

Lemma bound_value_type_spec first value_type callable spelled : spec (S n1) 0 any (bound_value_type rec first value_type callable spelled) true_of.
Proof. parse_with Hrec. Qed.
#[local] Hint Resolve bound_value_type_spec : spec.

Lemma bound_arguments_spec first fixed value_type : spec (S n1) 0 any (bound_arguments rec first fixed value_type) true_of.
Proof. parse_with Hrec. Qed.
#[local] Hint Resolve bound_arguments_spec : spec.

Lemma parse_type_param_spec variadic : spec (S n1) 1 any (parse_type_param rec variadic) true_of.
Proof. parse_with Hrec. Qed.
#[local] Hint Resolve parse_type_param_spec : spec.

Lemma parse_type_params_spec : spec (S n1) 0 any (parse_type_params rec) true_of.
Proof. parse_with Hrec. Qed.
#[local] Hint Resolve parse_type_params_spec : spec.

Lemma parse_generator_type_tail_spec : spec n0 1 any (parse_generator_type_tail rec) type_within.
Proof. parse_with Hrec. Qed.
#[local] Hint Resolve parse_generator_type_tail_spec : spec.

Lemma function_param_convention_spec : spec (S n1) 0 any (function_param_convention (B:=B) (R:=R) (I:=I)) true_of.
Proof. parse_with Hrec. Qed.
#[local] Hint Resolve function_param_convention_spec : spec.

Lemma function_param_type_spec kind : spec n0 1 any (function_param_type rec kind) true_of.
Proof. parse_with Hrec. Qed.
#[local] Hint Resolve function_param_type_spec : spec.

Lemma skip_abi_spec message : spec (S n1) 1 any (skip_abi rec message) true_of.
Proof. parse_with Hrec. Qed.
#[local] Hint Resolve skip_abi_spec : spec.

Lemma parse_function_type_tail_spec : spec n0 1 any (parse_function_type_tail rec) type_within.
Proof. parse_with Hrec. Qed.
#[local] Hint Resolve parse_function_type_tail_spec : spec.
Lemma parse_type_head_spec token start : spec n0 0 (behind start) (parse_type_head rec token start) (λ r s, match r with inl ty | inr ty => type_within ty s end).
Proof. parse_with Hrec. Qed.
#[local] Hint Resolve parse_type_head_spec : spec.

Lemma parse_type_spec : spec (S n1) 1 any (parse_type rec) type_within.
Proof. parse_with Hrec. Qed.
#[local] Hint Resolve parse_type_spec : spec.

Lemma parse_spread_arg_spec : spec n0 1 any (parse_spread_arg rec) true_of.
Proof. parse_with Hrec. Qed.
#[local] Hint Resolve parse_spread_arg_spec : spec.

Lemma value_from_spec atom : spec n0 0 (within atom) (value_from rec atom) true_of.
Proof. parse_with Hrec. Qed.
#[local] Hint Resolve value_from_spec : spec.

Lemma method_or_type_spec ty start : spec n0 0 (behind start) (method_or_type rec ty start) true_of.
Proof. parse_with Hrec. Qed.
#[local] Hint Resolve method_or_type_spec : spec.

Lemma self_chain_spec ty start : spec n0 0 (behind start) (self_chain rec ty start) true_of.
Proof. parse_with Hrec. Qed.
#[local] Hint Resolve self_chain_spec : spec.

Lemma rematerialize_span span (ty : SourceType B R) e : rematerialize span ty = Some e → expr_span e = span.
Proof using Type.
  revert e. induction ty using SourceType_ind; simpl; intros e He; repeat (case_match || simplify_option_eq); done.
Qed.

Lemma rematerialize_self_param_chain_spec n ty start :
  spec n 0 (behind start) (rematerialize_self_param_chain (B:=B) (R:=R) (I:=I) ty start)
    (λ o s, match o with Some e => within e s | None => True end).
Proof using Type.
  intros s Hs _ Hb. split; [by apply advanced_refl|]. destruct (rematerialize _ ty) as [e|] eqn:E; [|done].
  apply rematerialize_span in E. spans. rewrite E. simpl. lia.
Qed.
#[local] Hint Resolve rematerialize_self_param_chain_spec : spec.

Lemma parse_type_arg_spec ty start : spec n0 0 (λ s, behind start s ∧ type_within ty s) (parse_type_arg rec ty start) true_of.
Proof. parse_with Hrec. Qed.
#[local] Hint Resolve parse_type_arg_spec : spec.

Lemma parse_param_arg_spec : spec n0 1 any (parse_param_arg rec) true_of.
Proof. parse_with Hrec. Qed.
#[local] Hint Resolve parse_param_arg_spec : spec.
End types.
#[export] Hint Resolve more_spec parse_call_args_spec parse_arguments_spec parse_param_args_spec parse_where_clauses_spec
  parse_optional_origin_specifier_spec parse_type_of_operand_spec parse_named_type_spec assoc_index_spec
  parse_type_assoc_tail_spec first_bound_spec bound_value_type_spec bound_arguments_spec parse_type_param_spec
  parse_type_params_spec parse_generator_type_tail_spec function_param_convention_spec function_param_type_spec
  skip_abi_spec parse_function_type_tail_spec parse_type_head_spec parse_type_spec parse_spread_arg_spec value_from_spec
  method_or_type_spec self_chain_spec rematerialize_self_param_chain_spec parse_type_arg_spec parse_param_arg_spec : spec.
