(* ===== verification/ExprRuns.v ===== *)
(** * ExprRuns: expressions and targets never panic

    Each parser of [ParseExprs], over entries that are safe below a number of
    tokens.  An expression lies within the tokens read; the parts of a string
    sequence are strings of one kind, and a subscript without slices holds
    none, so the parsers' unreachable cases are not reached. *)

From Stdlib Require Import Ascii String.
From S2P Require Import Prelude Text Literal Token Dtypes Ast Parser ParseTypes ParseExprs ParseRuns TypeRuns.

Section exprs.
Context {B R I : Type} `{!TokenStream B R I, !Bounded B R I, !Rendered B R, !CaseTable}.
Context (rec : Rec B R I) (n1 n0 : nat) (Hrec : rec_ok n1 n0 rec).
Set Default Proof Using "All".

Lemma parse_loop_target_spec : spec n1 0 any (parse_loop_target rec) true_of.
Proof. parse_with Hrec. Qed.
#[local] Hint Resolve parse_loop_target_spec : spec.

Lemma parse_comprehension_clauses_spec : spec n0 0 any (parse_comprehension_clauses rec) true_of.
Proof. parse_with Hrec. Qed.
#[local] Hint Resolve parse_comprehension_clauses_spec : spec.

Lemma display_comprehension_spec declare close sequence start item : spec n0 0 (behind start) (display_comprehension rec declare close sequence start item) item_within.
Proof. parse_with Hrec. Qed.
#[local] Hint Resolve display_comprehension_spec : spec.

Definition items_within (items : list (TargetItem B R)) (s : Parser I) : Prop := Forall (λ item, item_within item s) items.

Lemma items_within_later items s s' : items_within items s → (reached s ≤ reached s')%nat → items_within items s'.
Proof using Type.
  intros Hi Hr. eapply Forall_impl; [exact Hi|]. intros [] Hx; [done|]. spans. lia.
Qed.

Lemma items_within_single item (s s' : Parser I) :
  items_within [item] s → (reached s ≤ reached s')%nat → item_within item s'.
Proof using Type. intros Hi Hr. apply (Forall_inv (items_within_later _ _ _ Hi Hr)). Qed.

Lemma items_within_snoc items item (s s1 s' : Parser I) :
  items_within items s → item_within item s1 → (reached s ≤ reached s')%nat → (reached s1 ≤ reached s')%nat →
  items_within (items ++ [item]) s'.
Proof using Type.
  intros Hi Hx Hr Hr1. apply Forall_app; split; [by eapply items_within_later|].
  apply Forall_singleton. destruct item; [done|]. spans. lia.
Qed.

(** What a round of a display leaves. *)
Definition display_result (r : TargetItem B R + display_state) (s : Parser I) : Prop :=
  match r with inl item => item_within item s | inr (items, _, _) => items_within items s end.

Lemma display_step_spec declare close sequence start st s :
  sound s → (left_over s < n1)%nat → (start ≤ reached s)%nat → items_within st.1.1 s →
  wp s (display_step rec declare close sequence start st) (λ r s',
    match r with
    | inl st => advanced 1 s s' ∧ items_within st.1.1 s'
    | inr r => advanced 0 s s' ∧ display_result r s'
    end) s.
Proof.
  pose proof (ok_order _ _ _ Hrec). pose proof (ok_fuel _ _ _ Hrec). intros Hs Hl Hb Hi.
  destruct st as [[items starred] saw_comma]. simpl in Hi. unfold display_step. repeat run_step.
  all: split; [advances|]; cbn [fst snd display_result].
  all: first [eapply (items_within_snoc _ (ItemTarget _) s s); [eassumption|exact Logic.I|lia|lia]
    | eapply (items_within_snoc _ _ s); [eassumption|eassumption|lia|lia]].
Qed.

Lemma parse_target_display_spec declare : spec n0 1 any (parse_target_display rec declare) item_within.
Proof.
  pose proof (ok_order _ _ _ Hrec). pose proof (ok_fuel _ _ _ Hrec). intros s Hs Hl _. unfold parse_target_display.
  do 5 run_step; [|run_step]. destruct p as [close sequence]. run_step. eapply (wp_loop_with 0 (λ st, items_within st.1.1) display_result); [advances|lia|by apply Forall_nil| |].
  { intros st s1 Hs1 Hi. facts. apply display_step_spec; [done|starts; lia..|done]. }
  intros [item|[[items starred] saw_comma]] s1 ? Hi; facts; simpl in Hi; repeat run_step.
  split; [advances|]. eapply items_within_single; [eassumption|lia].
Qed.
#[local] Hint Resolve parse_target_display_spec : spec.

Lemma parse_declared_target_spec mode start : spec n0 1 any (parse_declared_target rec mode start) item_within.
Proof. parse_with Hrec. Qed.
#[local] Hint Resolve parse_declared_target_spec : spec.

Lemma parse_target_item_spec declare min : spec n0 1 any (parse_target_item rec declare min) item_within.
Proof.
  pose proof (ok_order _ _ _ Hrec). pose proof (ok_fuel _ _ _ Hrec). intros s Hs Hl _.
  assert (Hbare : wp s (value ← rec.(expression) min;
      match declare with None => mret (ItemExpr value) | Some mode => ItemTarget <$> declared_leaf value mode end)
    (λ item s', advanced 1 s s' ∧ item_within item s') s) by (repeat run_step).
  unfold parse_target_item. do 4 run_step. cbv zeta. destruct (ahead s) as [[]|]; try exact Hbare; repeat run_step.
Qed.
#[local] Hint Resolve parse_target_item_spec : spec.

(** ** Strings *)

Lemma parse_interpolation_spec n src :
  good (new_stream src) 0 → (measure (new_stream src) < n0)%nat →
  spec n 0 any (parse_interpolation rec src) true_of.
Proof.
  intros Hg Hm s Hs _ _. unfold wp, parse_interpolation.
  pose proof (advanced_refl s Hs) as Hadv.
  set (s0 := new_parser (new_stream src)).
  assert (sound s0) as Hs0 by (split; simpl; [done|lia]).
  enough (wp s0 (expr ← rec.(expression) Precedence.Lowest; _ ← expect_stmt_end; mret expr) (λ _ _, True) s0) as H0.
  { unfold wp in H0. destruct (mbind (M:=P B R I) _ _ s0) as [[] ?]; [done|by intros _|done..]. }
  apply wp_bind. eapply wp_spec; [by eapply ok_expression|by apply advanced_refl|done|done|].
  intros e s1 H1 _. facts. repeat run_step.
Qed.

Lemma push_chunks_spec n chunks parts :
  Forall (λ src, good (new_stream src) 0 ∧ (measure (new_stream src) < n0)%nat)
    (omap (λ c, match c with TInterp src => Some src | TText _ => None end) chunks) →
  spec n 0 any (push_chunks rec chunks parts) true_of.
Proof.
  revert parts. induction chunks as [|[text|src] chunks IH]; simpl; intros parts Hc s Hs Hn _.
  - run_step. finish.
  - by apply IH.
  - apply Forall_cons in Hc as [[? ?] ?]. apply wp_bind.
    eapply wp_spec; [by apply (parse_interpolation_spec n)|by apply advanced_refl|done|done|].
    intros e s1 Hs1 _. eapply wp_spec; [by apply (IH (parts ++ [PartExpr e]))|done|destruct Hs1; lia|done|].
    intros x s2 [] _. facts. finish.
Qed.

(** A token of the kind [same], whose fragments are small. *)
Definition string_part (same : Token B R → bool) (t : Token B R) : Prop := same t = true ∧ fragments n0 t.

Lemma tstring_parts_spec n tokens parts raws :
  Forall (string_part is_tstring) tokens → spec n 0 any (tstring_parts rec tokens parts raws) true_of.
Proof.
  revert parts raws. induction tokens as [|t tokens IH]; simpl; intros parts raws Ht s Hs Hn _; [by run_step; finish|].
  apply Forall_cons in Ht as [[Hsame Hf] ?]. destruct t; try done. apply wp_bind.
  eapply wp_spec; [by apply (push_chunks_spec n)|by apply advanced_refl|done|done|].
  intros x s1 Hs1 _. eapply wp_spec; [by apply IH|done|destruct Hs1; lia|done|].
  intros y s2 [] _. facts. finish.
Qed.

Lemma string_text_spec n tokens value :
  Forall (string_part is_string) tokens → spec n 0 any (string_text (B:=B) (R:=R) (I:=I) tokens value) true_of.
Proof.
  revert value. induction tokens as [|t tokens IH]; simpl; intros value Ht s Hs Hn _; [by run_step; finish|].
  apply Forall_cons in Ht as [[Hsame Hf] ?]. by destruct t; try done; apply IH.
Qed.

Lemma fragments_below n (t : Token B R) : fragments n t → (n ≤ n0)%nat → fragments n0 t.
Proof using Type. intros Hf Hn. eapply Forall_impl; [exact Hf|]. intros src []. split; [done|lia]. Qed.

Lemma build_string_sequence_spec first start :
  spec (S n1) 0 (λ s, behind start s ∧ fragments n0 first ∧ is_tstring first || is_string first = true)
    (build_string_sequence rec first start) within.
Proof.
  pose proof (ok_order _ _ _ Hrec). pose proof (ok_fuel _ _ _ Hrec).
  intros s Hs Hl (Hb & Hf & Hkind). unfold build_string_sequence. run_step.
  set (same := if is_tstring first then is_tstring else is_string).
  eapply (wp_loop_with 0 (λ tokens _, Forall (string_part same) tokens) (λ tokens _, Forall (string_part same) tokens));
    [by apply advanced_refl|lia| | |].
  - apply Forall_singleton. split; [|done]. unfold same. by destruct (is_tstring first) eqn:E; rewrite ?E.
  - intros tokens s1 Hs1 Ht. facts. run_step. run_step. run_step; [|run_step; finish].
    run_step. run_step. run_step. split; [advances|]. apply Forall_app; split; [done|]. apply Forall_singleton.
    match goal with Ha : ahead s1 = Some _ |- _ => rewrite Ha in * end. split; [done|].
    eapply fragments_below; [eassumption|lia].
  - unfold same. intros tokens s1 Hs1 Ht. facts. destruct (is_tstring first).
    + apply wp_bind. eapply wp_spec; [by apply (tstring_parts_spec (S n1))|advances|lia|done|].
      intros [] s2 ? ?. facts. repeat run_step.
    + apply wp_bind. eapply wp_spec; [by apply (string_text_spec (S n1))|advances|lia|done|].
      intros ? s2 ? ?. facts. repeat run_step.
Qed.
#[local] Hint Resolve build_string_sequence_spec : spec.

(** ** Parameters, effects and captures *)

Lemma parse_convention_and_name_spec : spec (S n1) 1 any (parse_convention_and_name rec) true_of.
Proof. parse_with Hrec. Qed.
#[local] Hint Resolve parse_convention_and_name_spec : spec.

Lemma finish_param_spec name kind convention origin : spec (S n1) 1 any (finish_param rec name kind convention origin) true_of.
Proof. parse_with Hrec. Qed.
#[local] Hint Resolve finish_param_spec : spec.

Lemma finish_leading_param_spec name convention origin self_typed : spec (S n1) 0 any (finish_leading_param rec name convention origin self_typed) true_of.
Proof. parse_with Hrec. Qed.
#[local] Hint Resolve finish_leading_param_spec : spec.

Lemma var_param_spec self_typed : spec (S n1) 1 any (var_param rec self_typed) true_of.
Proof. parse_with Hrec. Qed.
#[local] Hint Resolve var_param_spec : spec.

Lemma regular_param_spec self_typed initializer : spec (S n1) 1 any (regular_param rec self_typed initializer) true_of.
Proof. parse_with Hrec. Qed.
#[local] Hint Resolve regular_param_spec : spec.

Lemma parse_param_list_spec self_typed initializer : spec (S n1) 0 any (parse_param_list rec self_typed initializer) true_of.
Proof. parse_with Hrec. Qed.
#[local] Hint Resolve parse_param_list_spec : spec.

Lemma parse_erased_callable_effects_spec :
  spec (S n1) 1 (λ s, from_option (λ t, is_word "capturing" t || is_word "thin" t || is_word "abi" t) false (ahead s) = true)
    (parse_erased_callable_effects rec) true_of.
Proof.
  pose proof (ok_order _ _ _ Hrec). pose proof (ok_fuel _ _ _ Hrec). intros s Hs Hl Hword.
  eapply (wp_loop_with 0 (λ _ s1, s1 = s ∨ advanced 1 s s1) (λ _ s', advanced 1 s s'));
    [by apply advanced_refl|lia|by left| |by intros ? ? ? ?].
  intros u s1 Hs1 Hfirst. facts. do 2 run_step. destruct (ahead s1) as [[]|] eqn:?; repeat run_step.
  all: split; [advances|]; first [by right; advances|destruct Hfirst as [->|?]; [|done]].
  all: match goal with Ha : ahead ?x = _, Hword : context [ahead ?x] |- _ => rewrite Ha in Hword end; simpl in Hword; try done.
  all: by repeat match goal with Hb : bool_decide _ = false |- _ => rewrite Hb in Hword end.
Qed.
#[local] Hint Resolve parse_erased_callable_effects_spec : spec.

Lemma parse_callable_effects_spec : spec (S n1) 0 any (parse_callable_effects rec) true_of.
Proof. parse_with Hrec. Qed.
#[local] Hint Resolve parse_callable_effects_spec : spec.

(** A convention that was read consumed its word. *)
Lemma capture_convention_runs s :
  sound s → wp s (capture_convention (B:=B) (R:=R) (I:=I)) (λ r s', advanced (if r then 1 else 0) s s') s.
Proof using Type. intros Hs. spans. repeat run_step. Qed.

Lemma parse_capture_list_spec : spec (S n1) 0 any (parse_capture_list rec) true_of.
Proof.
  pose proof (ok_order _ _ _ Hrec). pose proof (ok_fuel _ _ _ Hrec). intros s Hs Hl _. unfold parse_capture_list.
  do 2 run_step; [|repeat run_step]. do 2 run_step; [|repeat run_step].
  unfold capture_step. case_match. do 3 run_step; [repeat run_step|]. apply wp_bind.
  eapply wp_mono; [by apply capture_convention_runs|]. intros [c|] s2 Hs2; facts; repeat run_step.
Qed.
#[local] Hint Resolve parse_capture_list_spec : spec.

Lemma lambda_params_spec : spec (S n1) 0 any (lambda_params rec) true_of.
Proof. parse_with Hrec. Qed.
#[local] Hint Resolve lambda_params_spec : spec.

Lemma parse_lambda_spec start : spec (S n1) 1 (behind start) (parse_lambda rec start) within.
Proof. parse_with Hrec. Qed.
#[local] Hint Resolve parse_lambda_spec : spec.

(** ** Postfix brackets *)

Lemma parse_slice_components_spec : spec (S n1) 1 any (parse_slice_components rec) true_of.
Proof. parse_with Hrec. Qed.
#[local] Hint Resolve parse_slice_components_spec : spec.

Lemma bracket_argument_spec argument : spec (S n1) 0 any (bracket_argument rec argument) true_of.
Proof. parse_with Hrec. Qed.
#[local] Hint Resolve bracket_argument_spec : spec.

Lemma bracket_item_spec : spec n1 1 any (bracket_item rec) true_of.
Proof. parse_with Hrec. Qed.
#[local] Hint Resolve bracket_item_spec : spec.

Lemma bracket_params_spec n items :
  existsb is_slice items = false → spec n 0 any (bracket_params (B:=B) (R:=R) (I:=I) items) true_of.
Proof using Type.
  induction items as [|[arg| |] items IH]; simpl; intros Hi s Hs Hn _; try done; [run_step; finish|].
  apply wp_bind. eapply wp_spec; [by apply IH|by apply advanced_refl|done|done|].
  intros args s' ? _. run_step. split; [done|]. done.
Qed.

Lemma subscript_args_spec n items : spec n 0 any (subscript_args (B:=B) (R:=R) (I:=I) items) true_of.
Proof using Type.
  induction items as [|item items IH]; simpl; intros s Hs Hn _; [run_step; finish|].
  assert (advanced 0 s s) by by apply advanced_refl.
  apply wp_bind. apply (wp_mono _ _ (λ _ s', s' = s)).
  { destruct item as [[]| |]; first [by apply wp_ret|by apply wp_unexpected]. }
  intros arg ? ->. apply wp_bind. eapply wp_spec; [by apply IH|done|done|done|].
  intros args s' ? _. by run_step.
Qed.

Lemma application_indices_spec n span args : spec n 0 any (application_indices (B:=B) (R:=R) (I:=I) span args) true_of.
Proof using Type.
  induction args as [|arg args IH]; simpl; intros s Hs Hn _; [run_step; finish|].
  assert (advanced 0 s s) by by apply advanced_refl.
  apply wp_bind. apply (wp_mono _ _ (λ _ s', s' = s)).
  { destruct arg as [| |? []]; simpl; first [by apply wp_fmap, wp_ret|by apply wp_fmap, wp_unexpected]. }
  intros arg' ? ->. apply wp_bind. eapply wp_spec; [by apply IH|done|done|done|].
  intros ? s' ? _. by run_step.
Qed.
#[local] Hint Resolve bracket_params_spec subscript_args_spec application_indices_spec : spec.

Lemma parameter_application_spec n object args start :
  spec n 0 (behind start) (parameter_application (B:=B) (R:=R) (I:=I) object args start) within.
Proof using Type.
  intros s Hs Hn Hb. spans. unfold parameter_application.
  destruct (match expr_kind object with EMember base _ => type_spelling base | _ => None end); repeat run_step.
Qed.
#[local] Hint Resolve parameter_application_spec : spec.

(** A rooted chain has a spelling. *)
Lemma self_param_rooted_rematerializes span (ty : SourceType B R) :
  self_param_rooted ty = true → is_Some (rematerialize span ty).
Proof using Type.
  induction ty using SourceType_ind; simpl; intros Hty; try done.
  - apply andb_true_iff in Hty as [Hty Hargs]. destruct (IHty Hty) as [e ->]. simpl. by repeat case_match.
  - by destruct (IHty Hty) as [e ->].
Qed.

Lemma single_subscript_spec n object arg start :
  spec n 0 (behind start) (single_subscript (B:=B) (R:=R) (I:=I) object arg start) within.
Proof using Type.
  intros s Hs Hn Hb. unfold single_subscript. destruct arg as [ty| |]; [|spans; repeat run_step..].
  run_step. unfold span_from. do 3 run_step.
  destruct (match ty with TyNone => _ | _ => _ end); [spans; repeat run_step|].
  destruct (match expr_kind object with EIdentifier _ => _ | _ => _ end) eqn:E; [|spans; repeat run_step].
  assert (self_param_rooted ty = true) as Hty by by destruct (expr_kind object).
  destruct (self_param_rooted_rematerializes (start, reached s) ty Hty) as [e ->]. spans. repeat run_step.
Qed.

Lemma plain_subscript_spec n object args start :
  spec n 0 (behind start) (plain_subscript (B:=B) (R:=R) (I:=I) object args start) within.
Proof using Type.
  intros s Hs Hn Hb. unfold plain_subscript. destruct (is_attribute object); [spans; repeat run_step|].
  unfold span_from. do 4 run_step.
  destruct (if existsb is_named args && _ then _ else _); [spans; repeat run_step|].
  destruct args as [|arg [|]].
  all: first [by eapply wp_spec; [apply (single_subscript_spec n)|by apply advanced_refl|done|done|]
    |destruct (if _ : bool then mapM _ _ else _); spans; repeat run_step].
Qed.
#[local] Hint Resolve plain_subscript_spec : spec.

Lemma parse_bracket_suffix_spec object start : spec (S n1) 1 (behind start) (parse_bracket_suffix rec object start) within.
Proof. parse_with Hrec. Qed.
#[local] Hint Resolve parse_bracket_suffix_spec : spec.

(** ** Prefix forms *)

Lemma keyword_entry_spec n entry : spec n 0 any (keyword_entry (B:=B) (R:=R) (I:=I) entry) true_of.
Proof using Type. intros s Hs Hn _. spans. repeat run_step. Qed.
#[local] Hint Resolve keyword_entry_spec : spec.

Lemma entry_value_spec : spec n0 0 any (entry_value rec) true_of.
Proof. parse_with Hrec. Qed.
#[local] Hint Resolve entry_value_spec : spec.

Lemma parse_elements_spec close first : spec n0 0 any (parse_elements rec close first) true_of.
Proof. parse_with Hrec. Qed.
#[local] Hint Resolve parse_elements_spec : spec.

Lemma parse_initializer_list_spec start args name : spec n0 1 (behind start) (parse_initializer_list rec start args name) within.
Proof. parse_with Hrec. Qed.
#[local] Hint Resolve parse_initializer_list_spec : spec.

Lemma parse_brace_spec start : spec n0 1 (behind start) (parse_brace rec start) within.
Proof. parse_with Hrec. Qed.
#[local] Hint Resolve parse_brace_spec : spec.

Lemma parse_paren_spec start : spec n0 1 (behind start) (parse_paren rec start) within.
Proof. parse_with Hrec. Qed.
#[local] Hint Resolve parse_paren_spec : spec.

Lemma parse_list_spec start : spec n0 1 (behind start) (parse_list rec start) within.
Proof. parse_with Hrec. Qed.
#[local] Hint Resolve parse_list_spec : spec.

Lemma parse_member_spec object field start : spec (S n1) 0 (behind start) (parse_member rec object field start) within.
Proof. parse_with Hrec. Qed.
#[local] Hint Resolve parse_member_spec : spec.

Lemma prefix_operand_spec op min start : spec n0 1 (behind start) (prefix_operand rec op min start) within.
Proof. parse_with Hrec. Qed.
#[local] Hint Resolve prefix_operand_spec : spec.

Lemma parse_prefix_spec : spec (S n1) 1 any (parse_prefix rec) within.
Proof.
  pose proof (ok_order _ _ _ Hrec). pose proof (ok_fuel _ _ _ Hrec). intros s Hs Hl _. unfold parse_prefix.
  do 4 run_step.
  match goal with Hf : fragments _ t |- _ => pose proof (fragments_below _ _ Hf ltac:(lia)) end.
  destruct t; repeat run_step.
Qed.
#[local] Hint Resolve parse_prefix_spec : spec.

(** ** Infix forms *)

Lemma parse_comparison_op_spec n : spec n 1 any (parse_comparison_op (B:=B) (R:=R) (I:=I)) true_of.
Proof using Type. intros s Hs Hn _; spans; repeat run_step. Qed.
#[local] Hint Resolve parse_comparison_op_spec : spec.

Lemma parse_chain_spec left start : spec (S n1) 1 (behind start) (parse_chain rec left start) within.
Proof.
  pose proof (ok_order _ _ _ Hrec). pose proof (ok_fuel _ _ _ Hrec). intros s Hs Hl Hb. unfold parse_chain. run_step.
  eapply (wp_loop_with 1 true_of true_of); [by apply advanced_refl|lia|done| |].
  - intros rest s1 Hs1 _. facts. unfold comparison_step, peek_is_comparison. repeat run_step.
  - intros rest s1 ? _. facts. repeat run_step.
Qed.
#[local] Hint Resolve parse_chain_spec : spec.

Lemma parse_binary_spec left start : spec (S n1) 1 (behind start) (parse_binary rec left start) within.
Proof. parse_with Hrec. Qed.
#[local] Hint Resolve parse_binary_spec : spec.

Lemma peek_transfer_spec n left : spec n 0 any (peek_transfer (B:=B) (R:=R) (I:=I) left) true_of.
Proof using Type. intros s Hs Hn _. spans. repeat run_step. Qed.
#[local] Hint Resolve peek_transfer_spec : spec.

Lemma parse_infix_spec left : spec (S n1) 1 (within left) (parse_infix rec left) within.
Proof. parse_with Hrec. Qed.
#[local] Hint Resolve parse_infix_spec : spec.

Lemma parse_expression_from_spec left min : spec (S n1) 0 (within left) (parse_expression_from rec left min) within.
Proof.
  pose proof (ok_order _ _ _ Hrec). pose proof (ok_fuel _ _ _ Hrec). intros s Hs Hl Hleft.
  apply (wp_loop_with 0 within within); [by apply advanced_refl|lia|done| |by intros].
  intros e s1 Hs1 He. facts. unfold peek_precedence. repeat run_step.
Qed.
#[local] Hint Resolve parse_expression_from_spec : spec.

Lemma parse_expression_spec min : spec (S n1) 1 any (parse_expression rec min) within.
Proof. parse_with Hrec. Qed.
#[local] Hint Resolve parse_expression_spec : spec.
End exprs.
#[export] Hint Resolve parse_loop_target_spec parse_comprehension_clauses_spec parse_target_display_spec
  parse_declared_target_spec parse_target_item_spec build_string_sequence_spec parse_convention_and_name_spec
  finish_param_spec finish_leading_param_spec var_param_spec regular_param_spec parse_param_list_spec
  parse_erased_callable_effects_spec parse_callable_effects_spec parse_capture_list_spec lambda_params_spec
  parse_lambda_spec parse_bracket_suffix_spec parse_prefix_spec parse_infix_spec parse_expression_from_spec
  parse_expression_spec : spec.
