(* ===== verification/StmtRuns.v ===== *)
(** * StmtRuns: patterns and statements never panic

    Each parser of [ParseStmts], over entries that are safe below a number of
    tokens. *)

From Stdlib Require Import Ascii String.
From S2P Require Import Prelude Text Literal Token Dtypes Ast Parser ParseTypes ParseExprs ParseStmts ParseRuns TypeRuns ExprRuns.

Section stmts.
Context {B R I : Type} `{!TokenStream B R I, !Bounded B R I, !Rendered B R, !CaseTable}.
Context (rec : Rec B R I) (n1 n0 : nat) (Hrec : rec_ok n1 n0 rec).
Set Default Proof Using "All".

(** ** Suites *)

Lemma parse_block_body_spec : spec n1 0 any (parse_block_body rec) true_of.
Proof. parse_with Hrec. Qed.
#[local] Hint Resolve parse_block_body_spec : spec.

Lemma parse_suite_spec : spec n1 1 any (parse_suite rec) true_of.
Proof.
  pose proof (ok_order _ _ _ Hrec). pose proof (ok_fuel _ _ _ Hrec). intros s Hs Hl _. unfold parse_suite.
  do 2 run_step; [repeat run_step|]. cbv beta iota.
  apply (wp_loop_with 1 true_of true_of); [by apply advanced_refl|lia|done| |by intros].
  intros body s1 Hs1 _. facts. unfold line_step. repeat run_step.
Qed.
#[local] Hint Resolve parse_suite_spec : spec.

Lemma parse_tuple_display_spec : spec n0 1 any (parse_tuple_display rec) within.
Proof. parse_with Hrec. Qed.
#[local] Hint Resolve parse_tuple_display_spec : spec.

(** ** Patterns *)

Lemma parse_spelled_operand_spec n k (parse : P B R I (Expr B R)) :
  spec n k any parse within → spec n k any (parse_spelled_operand parse) true_of.
Proof using Type.
  intros Hparse s Hs Hn _. unfold parse_spelled_operand. do 2 run_step. apply wp_bind.
  eapply wp_spec; [exact Hparse|by apply advanced_refl|done|done|]. intros e s1 Hs1 [He _].
  destruct (literal_spelling (ahead s)); [|by run_step]. destruct (expr_span e) as [a b]. simpl in He.
  destruct (Nat.ltb_spec b a); [lia|]. by run_step.
Qed.

Lemma parse_binding_pattern_spec n mode : spec n 1 any (parse_binding_pattern (B:=B) (R:=R) (I:=I) mode) true_of.
Proof using Type. intros s Hs Hn _; spans; repeat run_step. Qed.
#[local] Hint Resolve parse_binding_pattern_spec : spec.

Lemma expect_case_name_spec n message : spec n 1 any (expect_case_name (B:=B) (R:=R) (I:=I) message) true_of.
Proof using Type. intros s Hs Hn _; spans; repeat run_step. Qed.
#[local] Hint Resolve expect_case_name_spec : spec.

Lemma pattern_list_spec close first : spec n0 0 any (pattern_list rec close first) true_of.
Proof. parse_with Hrec. Qed.
#[local] Hint Resolve pattern_list_spec : spec.

Lemma head_members_spec head start : spec (S n1) 0 (behind start) (head_members rec head start) true_of.
Proof. parse_with Hrec. Qed.
#[local] Hint Resolve head_members_spec : spec.

Lemma parse_head_pattern_spec head start : spec (S n1) 0 (behind start) (parse_head_pattern rec head start) true_of.
Proof. parse_with Hrec. Qed.
#[local] Hint Resolve parse_head_pattern_spec : spec.

Lemma parse_fields_pattern_spec : spec n0 1 any (parse_fields_pattern rec) true_of.
Proof. parse_with Hrec. Qed.
#[local] Hint Resolve parse_fields_pattern_spec : spec.

Lemma negative_pattern_spec start : spec (S n1) 1 any (negative_pattern rec start) true_of.
Proof. parse_with Hrec. Qed.
#[local] Hint Resolve negative_pattern_spec : spec.

Lemma paren_pattern_spec start : spec (S n1) 1 any (paren_pattern rec start) true_of.
Proof. parse_with Hrec. Qed.
#[local] Hint Resolve paren_pattern_spec : spec.

Lemma parse_sequence_pattern_spec n closed :
  (n ≤ n0)%nat → spec n 1 any closed true_of → spec n 0 any (parse_sequence_pattern rec closed) true_of.
Proof.
  pose proof (ok_order _ _ _ Hrec). pose proof (ok_fuel _ _ _ Hrec). intros Hle Hclosed s Hs Hn _.
  unfold parse_sequence_pattern. run_step. run_step; [|repeat run_step].
  unfold sequence_pattern_step. case_match. do 3 run_step; [repeat run_step|].
  do 2 run_step; [|repeat run_step]. do 2 run_step; [run_step|].
  run_step. eapply wp_spec; [exact Hclosed|advances|lia|done|]. intros p s2 ? _. facts. repeat run_step.
Qed.

Lemma closed_pattern_spec depth n : (n ≤ depth)%nat → (n ≤ S n1)%nat → spec n 1 any (closed_pattern rec depth) true_of.
Proof.
  pose proof (ok_order _ _ _ Hrec). pose proof (ok_fuel _ _ _ Hrec).
  revert n. induction depth as [|depth IH]; intros n Hd Hle s Hs Hl _; [lia|].
  assert (Hliteral : wp s ('(value, spelling) ← parse_spelled_operand (parse_prefix rec);
      new_pattern (PatLiteral value spelling) (start_of s)) (λ a s', advanced 1 s s' ∧ true_of a s') s).
  { apply wp_bind. eapply wp_spec; [by apply parse_spelled_operand_spec; eauto with spec|by apply advanced_refl|lia|done|].
    intros [] s1 ? _. facts. repeat run_step. }
  cbn [closed_pattern]. do 4 run_step. cbv zeta.
  destruct (ahead s) as [[]|]; try exact Hliteral; try solve [repeat run_step].
  - run_step. run_step. run_step. run_step. eapply wp_spec; [by apply (parse_sequence_pattern_spec (n - 1)); [lia|apply IH; lia]|advances|lia|done|].
    intros kind s2 ? _. facts. repeat run_step.
  - run_step. run_step. run_step.
    eapply wp_spec; [by apply parse_spelled_operand_spec; eauto with spec|advances|lia|done|].
    intros [] s2 ? _. facts. repeat run_step.
Qed.

Lemma parse_closed_pattern_spec : spec (S n1) 1 any (parse_closed_pattern rec) true_of.
Proof. pose proof (ok_fuel _ _ _ Hrec). apply closed_pattern_spec; lia. Qed.
#[local] Hint Resolve parse_closed_pattern_spec : spec.

Lemma parse_pattern_spec : spec (S n1) 1 any (parse_pattern rec) true_of.
Proof. parse_with Hrec. Qed.
#[local] Hint Resolve parse_pattern_spec : spec.

Lemma parse_case_patterns_spec : spec n0 1 any (parse_case_patterns rec) true_of.
Proof. parse_with Hrec. Qed.
#[local] Hint Resolve parse_case_patterns_spec : spec.

Lemma parse_case_spec : spec n1 1 any (parse_case rec) true_of.
Proof. parse_with Hrec. Qed.
#[local] Hint Resolve parse_case_spec : spec.

Lemma skip_newlines_spec : spec (S n1) 0 any (skip_newlines rec) true_of.
Proof. parse_with Hrec. Qed.
#[local] Hint Resolve skip_newlines_spec : spec.

Lemma parse_match_spec comptime : spec (S n1) 1 any (parse_match rec comptime) true_of.
Proof. parse_with Hrec. Qed.
#[local] Hint Resolve parse_match_spec : spec.

Lemma parse_condition_spec : spec n0 1 any (parse_condition rec) true_of.
Proof. parse_with Hrec. Qed.
#[local] Hint Resolve parse_condition_spec : spec.

(** ** Assignments and declarations *)

Lemma finish_destructure_spec target : spec (S n1) 1 any (finish_destructure rec target) true_of.
Proof. parse_with Hrec. Qed.
#[local] Hint Resolve finish_destructure_spec : spec.

Lemma parse_destructure_tail_spec first declare : spec (S n1) 1 any (parse_destructure_tail rec first declare) true_of.
Proof. parse_with Hrec. Qed.
#[local] Hint Resolve parse_destructure_tail_spec : spec.

Lemma list_statement_spec first : spec (S n1) 1 any (list_statement rec first) true_of.
Proof. parse_with Hrec. Qed.
#[local] Hint Resolve list_statement_spec : spec.

Lemma after_expression_spec expr : spec (S n1) 1 any (after_expression rec expr) true_of.
Proof. parse_with Hrec. Qed.
#[local] Hint Resolve after_expression_spec : spec.

Lemma parse_expr_or_assign_spec : spec n0 1 any (parse_expr_or_assign rec) true_of.
Proof. parse_with Hrec. Qed.
#[local] Hint Resolve parse_expr_or_assign_spec : spec.

Lemma declared_display_spec mode start keyword message : spec n0 1 any (declared_display rec mode start keyword message) true_of.
Proof. parse_with Hrec. Qed.
#[local] Hint Resolve declared_display_spec : spec.

Lemma parse_var_decl_spec : spec (S n1) 1 any (parse_var_decl rec) true_of.
Proof. parse_with Hrec. Qed.
#[local] Hint Resolve parse_var_decl_spec : spec.

Lemma parse_ref_decl_spec :
  spec (S n1) 1 (λ s, from_option (is_word "ref") false (ahead s) = true) (parse_ref_decl rec) true_of.
Proof.
  pose proof (ok_order _ _ _ Hrec). pose proof (ok_fuel _ _ _ Hrec). intros s Hs Hl Hword. unfold parse_ref_decl.
  do 2 run_step. run_step. unfold expect_identifier, expect_name. do 2 run_step.
  match goal with Ha : ahead s = Some _ |- _ => rewrite Ha in Hword end.
  destruct t; try done. apply wp_ret. simpl in Hword. apply bool_decide_eq_true in Hword as ->. simpl. repeat run_step.
Qed.
#[local] Hint Resolve parse_ref_decl_spec : spec.

(** ** Control flow *)

Lemma parse_condition_block_spec message : spec n0 1 any (parse_condition_block rec message) true_of.
Proof. parse_with Hrec. Qed.
#[local] Hint Resolve parse_condition_block_spec : spec.

Lemma clause_spec keyword message : spec (S n1) 0 any (clause rec keyword message) true_of.
Proof. parse_with Hrec. Qed.
#[local] Hint Resolve clause_spec : spec.

Lemma parse_if_rest_spec : spec (S n1) 1 any (parse_if_rest rec) true_of.
Proof. parse_with Hrec. Qed.
#[local] Hint Resolve parse_if_rest_spec : spec.

Lemma parse_for_head_spec : spec (S n1) 1 any (parse_for_head rec) true_of.
Proof. parse_with Hrec. Qed.
#[local] Hint Resolve parse_for_head_spec : spec.

Lemma parse_if_spec : spec (S n1) 1 any (parse_if rec) true_of.
Proof. parse_with Hrec. Qed.
#[local] Hint Resolve parse_if_spec : spec.

Lemma parse_while_spec : spec (S n1) 1 any (parse_while rec) true_of.
Proof. parse_with Hrec. Qed.
#[local] Hint Resolve parse_while_spec : spec.

Lemma parse_for_spec : spec (S n1) 1 any (parse_for rec) true_of.
Proof. parse_with Hrec. Qed.
#[local] Hint Resolve parse_for_spec : spec.

Lemma parse_with_spec : spec (S n1) 1 any (parse_with rec) true_of.
Proof. parse_with Hrec. Qed.
#[local] Hint Resolve parse_with_spec : spec.

Lemma parse_try_spec : spec (S n1) 1 any (parse_try rec) true_of.
Proof. parse_with Hrec. Qed.
#[local] Hint Resolve parse_try_spec : spec.

Lemma parse_return_spec : spec (S n1) 1 any (parse_return rec) true_of.
Proof. parse_with Hrec. Qed.
#[local] Hint Resolve parse_return_spec : spec.

Lemma parse_raise_spec : spec (S n1) 1 any (parse_raise rec) true_of.
Proof. parse_with Hrec. Qed.
#[local] Hint Resolve parse_raise_spec : spec.

(** ** Imports *)

Lemma dotted_spec first rest : spec (S n1) 1 any (dotted rec first rest) true_of.
Proof. parse_with Hrec. Qed.
#[local] Hint Resolve dotted_spec : spec.

Lemma parse_import_spec : spec (S n1) 1 any (parse_import rec) true_of.
Proof. parse_with Hrec. Qed.
#[local] Hint Resolve parse_import_spec : spec.

Lemma parse_from_import_spec : spec (S n1) 1 any (parse_from_import rec) true_of.
Proof. parse_with Hrec. Qed.
#[local] Hint Resolve parse_from_import_spec : spec.

(** ** Compile-time statements and functions *)

Lemma comptime_assert_spec : spec n0 1 any (comptime_assert rec) true_of.
Proof. parse_with Hrec. Qed.
#[local] Hint Resolve comptime_assert_spec : spec.

Lemma comptime_constant_spec name : spec (S n1) 1 any (comptime_constant rec name) true_of.
Proof. parse_with Hrec. Qed.
#[local] Hint Resolve comptime_constant_spec : spec.

Lemma parse_comptime_spec : spec (S n1) 1 any (parse_comptime rec) true_of.
Proof. parse_with Hrec. Qed.
#[local] Hint Resolve parse_comptime_spec : spec.

Lemma parse_decorator_spec : spec (S n1) 1 any (parse_decorator rec) true_of.
Proof. parse_with Hrec. Qed.
#[local] Hint Resolve parse_decorator_spec : spec.

Lemma parse_decorators_spec : spec (S n1) 0 any (parse_decorators rec) true_of.
Proof. parse_with Hrec. Qed.
#[local] Hint Resolve parse_decorators_spec : spec.

Lemma reject_removed_closure_decorators_spec n decorators : spec n 0 any (reject_removed_closure_decorators (B:=B) (R:=R) (I:=I) decorators) true_of.
Proof using Type. intros s Hs Hn _; spans; repeat run_step. Qed.
#[local] Hint Resolve reject_removed_closure_decorators_spec : spec.

Lemma parse_return_type_spec : spec n0 0 any (parse_return_type rec) true_of.
Proof. parse_with Hrec. Qed.
#[local] Hint Resolve parse_return_type_spec : spec.

Lemma skip_effects_spec message : spec (S n1) 0 any (skip_effects rec message) true_of.
Proof. parse_with Hrec. Qed.
#[local] Hint Resolve skip_effects_spec : spec.

Lemma parse_def_spec decorators : spec (S n1) 1 any (parse_def rec decorators) true_of.
Proof. parse_with Hrec. Qed.
#[local] Hint Resolve parse_def_spec : spec.
End stmts.
#[export] Hint Resolve parse_block_body_spec parse_suite_spec parse_tuple_display_spec skip_newlines_spec parse_pattern_spec
  parse_match_spec parse_expr_or_assign_spec parse_var_decl_spec parse_ref_decl_spec parse_if_spec parse_while_spec
  parse_for_spec parse_with_spec parse_try_spec parse_return_spec parse_raise_spec parse_import_spec parse_from_import_spec
  parse_comptime_spec parse_decorators_spec reject_removed_closure_decorators_spec parse_return_type_spec skip_effects_spec
  parse_def_spec : spec.
