(* ===== verification/ItemRuns.v ===== *)
(** * ItemRuns: structs, enums and traits never panic

    Each parser of [ParseItems], over entries that are safe below a number of
    tokens. *)

From Stdlib Require Import Ascii String.
From S2P Require Import Prelude Text Literal Token Dtypes Ast Parser ParseTypes ParseExprs ParseStmts ParseItems ParseRuns TypeRuns ExprRuns StmtRuns.

Section items.
Context {B R I : Type} `{!TokenStream B R I, !Bounded B R I, !Rendered B R, !CaseTable}.
Context (rec : Rec B R I) (n1 n0 : nat) (Hrec : rec_ok n1 n0 rec).
Set Default Proof Using "All".

Lemma lift_spec {A} n (o : outcome (ParseError B R) A) :
  o ≠ Panic → o ≠ Diverge → spec n 0 any (lift (I:=I) o) true_of.
Proof using Type. intros Hp Hd s Hs Hn _. pose proof (advanced_refl s Hs). destruct o; [done|by intros _|done..]. Qed.

Lemma split_initializer_receiver_spec n list : spec n 0 any (lift (I:=I) (split_initializer_receiver (B:=B) (R:=R) list)) true_of.
Proof using Type. apply lift_spec; unfold split_initializer_receiver; by repeat case_match. Qed.

Lemma message_at_spec {A} n message a b : spec n 1 any (message_at (B:=B) (R:=R) (I:=I) (A:=A) message a b) (λ _ _, False).
Proof using Type. intros s Hs Hn _ _. by apply advanced_refl. Qed.
#[local] Hint Resolve split_initializer_receiver_spec message_at_spec : spec.

Lemma rest_params_spec initializer : spec (S n1) 0 any (rest_params rec initializer) true_of.
Proof. parse_with Hrec. Qed.
#[local] Hint Resolve rest_params_spec : spec.

Lemma parse_optional_receiver_type_spec : spec (S n1) 0 any (parse_optional_receiver_type rec) true_of.
Proof. parse_with Hrec. Qed.
#[local] Hint Resolve parse_optional_receiver_type_spec : spec.

Lemma parse_leading_receiver_spec convention origin : spec (S n1) 0 any (parse_leading_receiver rec convention origin) true_of.
Proof. parse_with Hrec. Qed.
#[local] Hint Resolve parse_leading_receiver_spec : spec.

Lemma convention_origin_spec convention : spec (S n1) 0 any (convention_origin rec convention) true_of.
Proof. parse_with Hrec. Qed.
#[local] Hint Resolve convention_origin_spec : spec.

Lemma convention_receiver_spec is_initializer : spec (S n1) 1 any (convention_receiver rec is_initializer) true_of.
Proof. parse_with Hrec. Qed.
#[local] Hint Resolve convention_receiver_spec : spec.

Lemma method_receiver_spec is_static is_initializer : spec (S n1) 0 any (method_receiver rec is_static is_initializer) true_of.
Proof. parse_with Hrec. Qed.
#[local] Hint Resolve method_receiver_spec : spec.

Lemma parse_method_spec decorators : spec (S n1) 1 any (parse_method rec decorators) true_of.
Proof. parse_with Hrec. Qed.
#[local] Hint Resolve parse_method_spec : spec.

Lemma parse_member_method_spec decorators is_enum : spec (S n1) 1 any (parse_member_method rec decorators is_enum) true_of.
Proof. parse_with Hrec. Qed.
#[local] Hint Resolve parse_member_method_spec : spec.

Lemma parse_enum_case_spec : spec (S n1) 1 any (parse_enum_case rec) true_of.
Proof. parse_with Hrec. Qed.
#[local] Hint Resolve parse_enum_case_spec : spec.

Lemma parse_struct_comptime_spec : spec (S n1) 1 any (parse_struct_comptime rec) true_of.
Proof. parse_with Hrec. Qed.
#[local] Hint Resolve parse_struct_comptime_spec : spec.

(** ** Conformances, structs and traits *)

Lemma parse_conformance_spec : spec (S n1) 0 any (parse_conformance rec) true_of.
Proof. parse_with Hrec. Qed.
#[local] Hint Resolve parse_conformance_spec : spec.

Lemma parse_struct_conformance_spec : spec (S n1) 0 any (parse_struct_conformance rec) true_of.
Proof. parse_with Hrec. Qed.
#[local] Hint Resolve parse_struct_conformance_spec : spec.

Lemma struct_field_spec : spec (S n1) 1 any (struct_field rec) true_of.
Proof. parse_with Hrec. Qed.
#[local] Hint Resolve struct_field_spec : spec.

Lemma parse_trait_comptime_spec : spec (S n1) 1 any (parse_trait_comptime rec) true_of.
Proof. parse_with Hrec. Qed.
#[local] Hint Resolve parse_trait_comptime_spec : spec.

Lemma trait_receiver_spec : spec (S n1) 1 any (trait_receiver rec) true_of.
Proof. parse_with Hrec. Qed.
#[local] Hint Resolve trait_receiver_spec : spec.

Lemma parse_trait_method_body_spec : spec n1 1 any (parse_trait_method_body rec) true_of.
Proof. parse_with Hrec. Qed.
#[local] Hint Resolve parse_trait_method_body_spec : spec.

Lemma parse_trait_method_spec decorators : spec (S n1) 1 any (parse_trait_method rec decorators) true_of.
Proof. parse_with Hrec. Qed.
#[local] Hint Resolve parse_trait_method_spec : spec.

(** A member that continues the body consumed a token. *)
Lemma struct_member_runs is_enum t m s :
  sound s → (left_over s < n1)%nat → ahead s = Some t →
  wp s (struct_member rec is_enum t m) (λ r s', advanced (match r with inl _ => 1 | inr _ => 0 end) s s') s.
Proof.
  pose proof (ok_order _ _ _ Hrec). pose proof (ok_fuel _ _ _ Hrec). intros Hs Hl Ht. unfold struct_member.
  destruct t; repeat run_step.
Qed.

Lemma struct_members_spec is_enum : spec n1 0 any (struct_members rec is_enum) true_of.
Proof.
  pose proof (ok_order _ _ _ Hrec). pose proof (ok_fuel _ _ _ Hrec). intros s Hs Hl _. unfold struct_members.
  run_step; [|repeat run_step]. do 2 run_step. destruct (ahead s1) as [t|] eqn:Ht; [|repeat run_step].
  eapply wp_mono; [by apply struct_member_runs; [|lia|]|]. by intros [] s2 ?.
Qed.
#[local] Hint Resolve struct_members_spec : spec.

Lemma parse_struct_spec decorators : spec (S n1) 1 any (parse_struct rec decorators) true_of.
Proof. parse_with Hrec. Qed.
#[local] Hint Resolve parse_struct_spec : spec.

Lemma trait_member_runs t m s :
  sound s → (left_over s < n1)%nat → ahead s = Some t →
  wp s (trait_member rec t m) (λ r s', advanced (match r with inl _ => 1 | inr _ => 0 end) s s') s.
Proof.
  pose proof (ok_order _ _ _ Hrec). pose proof (ok_fuel _ _ _ Hrec). intros Hs Hl Ht. unfold trait_member.
  destruct m, t; repeat run_step.
Qed.

Lemma parse_trait_spec : spec (S n1) 1 any (parse_trait rec) true_of.
Proof.
  pose proof (ok_order _ _ _ Hrec). pose proof (ok_fuel _ _ _ Hrec). intros s Hs Hl _. unfold parse_trait.
  do 13 run_step. run_step; [|repeat run_step]. do 2 run_step. destruct (ahead s1) as [t|] eqn:Ht; [|repeat run_step].
  eapply wp_mono; [by apply trait_member_runs; [|lia|]|]. by intros [] s2 ?.
Qed.
End items.
#[export] Hint Resolve message_at_spec parse_struct_spec parse_trait_spec : spec.
