(* ===== verification/ProgramRuns.v ===== *)
(** * ProgramRuns: parsing terminates and never panics

    The recursion is safe: with two units of fuel for each token and four more,
    no entry panics or diverges.  Recovery terminates too, over a stream that
    steps past its errors and stays at its end. *)

From Stdlib Require Import Ascii String.
From S2P Require Import Prelude Text Literal Token Dtypes Ast AstWalk Parser ParseTypes ParseExprs ParseStmts ParseItems ParseProgram ParseRuns TypeRuns ExprRuns StmtRuns ItemRuns.

Section program.
Context {B R I : Type} `{!TokenStream B R I, !Bounded B R I, !Rendered B R, !CaseTable}.
Notation Parser := (Parser I).
Notation P := (P B R I).

(** ** Statements *)

Section statement.
Context (rec : Rec B R I) (n1 n0 : nat) (Hrec : rec_ok n1 n0 rec).
Set Default Proof Using "All".

Lemma wp_located s0 {A} (m : P A) (Q : A → Parser → Prop) s : wp s0 m Q s → wp s0 (located m) Q s.
Proof using Type. unfold wp, located. by destruct (m s) as [[] ?]. Qed.

Lemma decorated_statement_spec : spec (S n1) 1 any (decorated_statement rec) true_of.
Proof. parse_with Hrec. Qed.

Lemma bare_spec n kind : spec n 1 any (bare (B:=B) (R:=R) (I:=I) kind) true_of.
Proof using Type. intros s Hs Hn _. spans. repeat run_step. Qed.
#[local] Hint Resolve decorated_statement_spec bare_spec : spec.

Lemma statement_kind_spec start : spec n0 1 any (statement_kind rec start) true_of.
Proof. parse_with Hrec. Qed.

Lemma parse_statement_spec : spec n0 1 any (parse_statement rec) true_of.
Proof.
  pose proof (ok_order _ _ _ Hrec). intros s Hs Hl _. unfold parse_statement. do 2 run_step.
  apply wp_bind, wp_located. eapply wp_spec; [apply statement_kind_spec|by apply advanced_refl|done|done|].
  intros kind s1 ? _. facts. repeat run_step.
Qed.
End statement.
#[local] Hint Resolve parse_statement_spec : spec.

(** ** The recursion *)

Lemma parsers_over_ok n1 n0 fuel (rec : Rec B R I) :
  rec_ok n1 n0 rec → (n0 < fuel)%nat → rec_ok n0 (S n1) (parsers_over fuel rec).
Proof.
  intros Hrec Hfuel. pose proof (ok_order _ _ _ Hrec).
  split; simpl; intros; try lia; eauto with spec.
Qed.

Lemma no_parsers_ok : rec_ok 0 0 (parsers (B:=B) (R:=R) (I:=I) 2).
Proof. split; simpl; intros; try lia; intros s Hs Hl; lia. Qed.

Lemma parsers_ok j : rec_ok j j (parsers (B:=B) (R:=R) (I:=I) (2 + 2 * j)) ∧ rec_ok j (S j) (parsers (B:=B) (R:=R) (I:=I) (3 + 2 * j)).
Proof.
  induction j as [|j [_ IH]].
  - split; [apply no_parsers_ok|]. apply (parsers_over_ok 0 0); [apply no_parsers_ok|lia].
  - replace (2 + 2 * S j)%nat with (S (3 + 2 * j)) by lia. replace (3 + 2 * S j)%nat with (S (S (3 + 2 * j))) by lia.
    assert (rec_ok (S j) (S j) (parsers (B:=B) (R:=R) (I:=I) (S (3 + 2 * j)))) as Hs.
    { apply (parsers_over_ok j (S j)); [done|lia]. }
    split; [done|]. apply (parsers_over_ok (S j) (S j)); [done|lia].
Qed.

(** The fuel that a stream of fewer than [m] tokens needs. *)
Lemma parsers_enough m n : (2 * m + 2 ≤ n)%nat → ∃ n1 n0, rec_ok n1 n0 (parsers (B:=B) (R:=R) (I:=I) n) ∧ (m ≤ n1 ≤ n0)%nat ∧ (n1 < n)%nat.
Proof.
  intros Hn. destruct (Nat.Even_or_Odd n) as [[j ->]|[j ->]].
  - exists (j - 1)%nat, (j - 1)%nat. destruct (parsers_ok (j - 1)) as [Hj _].
    replace (2 + 2 * (j - 1))%nat with (2 * j)%nat in Hj by lia. split; [done|lia].
  - exists (j - 1)%nat, (S (j - 1))%nat. destruct (parsers_ok (j - 1)) as [_ Hj].
    replace (3 + 2 * (j - 1))%nat with (2 * j + 1)%nat in Hj by lia. split; [done|lia].
Qed.

Lemma module_statement_spec n1 n0 (rec : Rec B R I) :
  rec_ok n1 n0 rec → spec n0 1 any (module_statement rec) true_of.
Proof. intros Hrec. parse_with Hrec. Qed.
#[local] Hint Resolve module_statement_spec : spec.

Lemma parse_program_spec m n : (2 * m + 2 ≤ n)%nat → spec m 0 any (parse_program (B:=B) (R:=R) (I:=I) n) true_of.
Proof.
  intros Hn. destruct (parsers_enough m n Hn) as (n1 & n0 & Hrec & Hle & Hlt).
  intros s Hs Hl _. unfold parse_program. repeat run_step.
Qed.

(** [parse] ends with a program or an error. *)
Definition ends {A} (m : P A) (s : Parser) : Prop := ∃ r s', m s = (r, s') ∧ r ≠ Panic ∧ r ≠ Diverge.

Lemma wp_ends s0 {A} (m : P A) Q s : wp s0 m Q s → ends m s.
Proof. unfold wp, ends. destruct (m s) as [[] ?]; naive_solver. Qed.

(** ** Recovery *)

(** A stream that steps past its errors and stays at its end. *)
Class Recovering : Prop := {
  resuming : resumes;
  next_error i b e i' : good i b → next_item i = (Err e, i') → (measure i' < measure i)%nat;
  next_none i b i' : good i b → next_item i = (Ok None, i') → fst (next_item i') = Ok None;
}.

Section recovery.
Context `{!Recovering}.

(** The rounds left: none at the end of the stream. *)
Definition rounds_left (s : Parser) : nat :=
  match fst (next_item s.(tokens)) with Ok None => 0 | _ => S (left_over s) end.

Lemma rounds_left_le s : (rounds_left s ≤ S (left_over s))%nat.
Proof using Type. unfold rounds_left. destruct (fst _) as [[]| | |]; lia. Qed.

Lemma rounds_left_ahead s t : ahead s = Some t → rounds_left s = S (left_over s).
Proof using Type. unfold ahead, rounds_left. by destruct (fst _) as [[]| | |]. Qed.

Lemma rounds_left_none s i :
  sound s → next_item s.(tokens) = (Ok None, i) → rounds_left (consumed (B:=B) (R:=R) s i None) = 0%nat.
Proof. intros [Hg _] Hn. unfold rounds_left. simpl. by rewrite (next_none _ _ _ Hg Hn). Qed.

(** The state after any step of the iterator. *)
Lemma stepped s item i :
  sound s → next_item s.(tokens) = (Ok item, i) → advanced (if item then 1 else 0) s (consumed s i item).
Proof.
  intros [Hg Hspan] E. pose proof (next_good _ _ Hg) as Hn. rewrite E in Hn.
  destruct item as [[t [a b]]|].
  - destruct Hn as (? & Hi & Hm & _). assert (start_of s = a) as Ha by (unfold start_of; by rewrite E).
    split; unfold sound, left_over, horizon; rewrite ?Ha; simpl; try lia. split; [done|lia].
  - destruct (Hn resuming). by apply advanced_stuck; [rewrite E|..].
Qed.

Lemma stepped_error s e i :
  sound s → next_item s.(tokens) = (Err e, i) → advanced 1 s (consumed (B:=B) (R:=R) s i None).
Proof.
  intros [Hg Hspan] E. pose proof (next_good _ _ Hg) as Hn. rewrite E in Hn. destruct (Hn resuming) as [Hi Hm].
  pose proof (next_error _ _ _ _ Hg E) as Hless.
  assert (Hstep : advanced 0 s (consumed (B:=B) (R:=R) s i None)) by (by apply advanced_stuck; [rewrite E|..]).
  assert (start_of s = reached s) as Hr by (unfold start_of; by rewrite E).
  destruct Hstep. split; try done; unfold left_over, horizon in *; rewrite ?Hr; simpl in *; lia.
Qed.

(** Passing a token moves as consuming it does. *)
Lemma passed_advanced k s i t span :
  advanced k s (consumed (B:=B) (R:=R) s i (Some (t, span))) → advanced k s (passed s i span).
Proof using Type. by intros []. Qed.

Lemma stream_steps s : sound s → match fst (next_item s.(tokens)) with Panic | Diverge => False | _ => True end.
Proof using Type. intros [Hg _]. apply next_good in Hg. by destruct (next_item (tokens s)) as [[[[? []]|]| | |] ?]. Qed.

Lemma rounds_left_step s : fst (next_item s.(tokens)) ≠ Ok None → rounds_left s = S (left_over s).
Proof using Type. unfold rounds_left. by destruct (fst _) as [[]| | |]. Qed.

Lemma discard_one_runs s (Q : unit → Parser → Prop) :
  sound s → fst (next_item s.(tokens)) ≠ Ok None →
  (∀ s', advanced 0 s s' → (rounds_left s' < rounds_left s)%nat → Q tt s') → wp s discard_one Q s.
Proof.
  intros Hs Hmore HQ. pose proof (stream_steps s Hs) as Hsteps. rewrite (rounds_left_step _ Hmore) in HQ.
  unfold wp, discard_one. destruct (next_item (tokens s)) as [[[item|]|e| |] i] eqn:E; cbn [fst] in *; try done.
  - pose proof (stepped s _ i Hs E : advanced 1 s _) as [? ? ? ? _]. apply HQ; [split; try done; lia|].
    pose proof (rounds_left_le (consumed s i (Some item))). lia.
  - pose proof (stepped_error s e i Hs E) as [? ? ? ? _]. apply HQ; [split; try done; lia|].
    pose proof (rounds_left_le (consumed (B:=B) (R:=R) s i None)). lia.
Qed.

Lemma synchronize_step_runs s :
  sound s → wp s (synchronize_step tt) (λ r s', match r with
    | inl _ => advanced 1 s s'
    | inr _ => advanced 0 s s' ∧ (rounds_left s' ≤ left_over s)%nat
    end) s.
Proof.
  intros Hs. pose proof (stream_steps s Hs) as Hsteps. unfold wp, synchronize_step.
  destruct (next_item (tokens s)) as [[[[t span]|]|e| |] i] eqn:E; simpl in Hsteps; try done.
  - pose proof (passed_advanced 1 _ _ _ _ (stepped s _ i Hs E)) as Hp.
    pose proof (rounds_left_le (passed s i span)). destruct Hp as [? ? ? ? ?].
    assert (advanced 0 s (passed s i span)) by (split; try done; lia).
    assert (rounds_left (passed s i span) ≤ left_over s)%nat by lia.
    by destruct t.
  - split; [apply (stepped s _ i Hs E)|]. rewrite (rounds_left_none s i Hs E). lia.
  - by apply (stepped_error s e).
Qed.

Lemma synchronize_statement_runs n s :
  sound s → (left_over s < n)%nat →
  wp s (synchronize_statement n) (λ _ s', advanced 0 s s' ∧ (rounds_left s' ≤ left_over s)%nat) s.
Proof.
  intros Hs Hl. apply (wp_loop_with 0 true_of (λ _ s', (rounds_left s' ≤ left_over s)%nat)); try done.
  { by apply advanced_refl. }
  intros [] s1 Hs1 _. pose proof Hs1 as [Hsound Hleft _ _ _].
  eapply wp_mono; [by apply synchronize_step_runs|]. intros [] s2; [done|]. intros []. split; [done|lia].
Qed.

Lemma wp_attempt s0 {A} (m : P A) (Q : A + ParseError B R → Parser → Prop) s :
  wp s m (λ a, Q (inl a)) s → (∀ e s', advanced 0 s s' → m s = (Err e, s') → Q (inr e) s') → wp s0 (attempt m) Q s.
Proof. pose proof resuming. unfold wp, attempt. destruct (m s) as [[] ?]; auto. Qed.

(** What a report promises of its errors: as many as were asked for when it
    says so, and fewer otherwise. *)
Definition report_bounded (max_errors : nat) (r : ParseReport (B:=B) (R:=R)) : Prop :=
  if r.(truncated) then length r.(errors) = Nat.max 1 max_errors else (length r.(errors) < Nat.max 1 max_errors)%nat.

Definition open_report (max_errors : nat) (st : list (Stmt B R) * list (ParseError B R)) : Prop :=
  (length st.2 < Nat.max 1 max_errors)%nat.

Lemma diagnostic_step_runs n n1 n0 max_errors st s :
  rec_ok n1 n0 (parsers (B:=B) (R:=R) (I:=I) n) → sound s → (left_over s < n0)%nat → (left_over s < n)%nat → open_report max_errors st →
  wp s (diagnostic_step n max_errors st) (λ r s', match r with
    | inl st => advanced 0 s s' ∧ (rounds_left s' < rounds_left s)%nat ∧ open_report max_errors st
    | inr r => report_bounded max_errors r
    end) s.
Proof.
  intros Hrec Hs Hn0 Hn Hst. destruct st as [program errors]. unfold open_report in Hst. simpl in Hst.
  unfold diagnostic_step. apply wp_bind, wp_attempt.
  - apply wp_peek_token; [by apply advanced_refl|]. destruct (ahead s) as [t|] eqn:Ht; [|by apply wp_ret].
    assert (Hmore : fst (next_item (tokens s)) ≠ Ok None).
    { unfold ahead in Ht. by destruct (fst (next_item (tokens s))) as [[]| | |]. }
    assert (Hlayout : wp s (_ ← discard_one; mret (inl (program, errors)))
      (λ r s', match r with
        | inl st => advanced 0 s s' ∧ (rounds_left s' < rounds_left s)%nat ∧ open_report max_errors st
        | inr r => report_bounded max_errors r end) s).
    { apply wp_bind, discard_one_runs; [done|done|]. intros s1 ? ?. by apply wp_ret. }
    assert (Hstatement : wp s
      (statement ← attempt (module_statement (parsers n));
       match statement with
       | inl statement => mret (inl (program ++ [statement], errors))
       | inr err =>
           let errors := errors ++ [err] in
           if (max_errors <=? length errors)%nat then mret (inr (mkReport program errors true))
           else _ ← synchronize_statement n; mret (inl (program, errors))
       end)
      (λ r s', match r with
        | inl st => advanced 0 s s' ∧ (rounds_left s' < rounds_left s)%nat ∧ open_report max_errors st
        | inr r => report_bounded max_errors r end) s).
    { rewrite (rounds_left_step _ Hmore). apply wp_bind, wp_attempt.
      - eapply wp_spec; [by eapply module_statement_spec|by apply advanced_refl|done|done|].
        intros stmt s1 [? ? ? ? ?] _. apply wp_ret. pose proof (rounds_left_le s1).
        split; [split; try done; lia|split; [lia|done]].
      - intros e s1 Hs1 _. cbv zeta. destruct (Nat.leb_spec max_errors (length (errors ++ [e]))) as [Hle|Hgt];
          rewrite length_app in *; simpl in *.
        + apply wp_ret. unfold report_bounded. simpl. rewrite length_app. simpl. lia.
        + pose proof Hs1 as [? ? _ _ _]. apply wp_bind. eapply wp_mono; [eapply wp_base; [|exact Hs1]|].
          { apply synchronize_statement_runs; [done|lia]. }
          intros [] s2 [Hs2 Hr]. apply wp_ret. split; [by eapply advanced_trans|]. split; [lia|].
          unfold open_report. simpl. rewrite length_app. simpl. lia. }
    destruct t; try exact Hstatement; try exact Hlayout. by apply wp_ret.
  - intros e s' Hs' Hpeek. unfold peek_token in Hpeek. injection Hpeek as Hpeek <-.
    assert (Hmore : fst (next_item (tokens s)) ≠ Ok None).
    { by destruct (fst (next_item (tokens s))) as [[]| | |]. }
    apply wp_bind, wp_get, wp_bind, discard_one_runs; [done|done|]. intros s1 ? ?. apply wp_ret. cbv zeta.
    destruct (Nat.leb_spec max_errors (length (errors ++ [error_at e (last_span s)]))) as [Hle|Hgt];
      rewrite length_app in *; simpl in *.
    + unfold report_bounded. simpl. rewrite length_app. simpl. lia.
    + split; [done|]. split; [done|]. unfold open_report. simpl. rewrite length_app. simpl. lia.
Qed.

Lemma parse_program_diagnostic_runs n max_errors s :
  sound s → (2 * S (left_over s) + 2 ≤ n)%nat →
  wp s (parse_program_diagnostic n max_errors) (λ r _, report_bounded max_errors r) s.
Proof.
  intros Hs Hn. destruct (parsers_enough (S (left_over s)) n Hn) as (n1 & n0 & Hrec & Hle & Hlt).
  unfold parse_program_diagnostic.
  assert (Hst : open_report max_errors ([], [])) by (unfold open_report; simpl; lia).
  assert (Hloop : ∀ fuel st s1, advanced 0 s s1 → (rounds_left s1 < fuel)%nat → open_report max_errors st →
    wp s1 (loop fuel (diagnostic_step n max_errors) st) (λ r _, report_bounded max_errors r) s1).
  { intros fuel. induction fuel as [|fuel IH]; intros st s1 Hs1 Hf Ho; [lia|]. pose proof Hs1 as [? ? _ _ _].
    apply wp_bind. eapply wp_mono; [by eapply diagnostic_step_runs; try done; lia|].
    intros [st'|r] s2; [|by intros; apply wp_ret]. intros (Hs2 & Hr & Ho').
    eapply wp_base; [|exact Hs2]. apply IH; [by eapply advanced_trans|lia|done]. }
  apply Hloop; [by apply advanced_refl| |done]. pose proof (rounds_left_le s). lia.
Qed.
End recovery.
End program.
