(* ===== verification/ParseLexer.v ===== *)
(** * ParseLexer: the parser over the lexer

    The stream the compiler parses is the lexer's ([mojito::parse] and
    [parse_diagnostics], src/src/lib.rs).  A source is clean when its last line
    is not made of spaces only, and so is every fragment its strings
    interpolate: on a clean source the lexer is a bounded stream, so that
    parsing it ends.  Recovery over it need not: an unexpected character is
    reported and not passed. *)

From Stdlib Require Import Ascii String.
From S2P Require Import Prelude Text Literal Token Scanner Lexer Dtypes Ast Parser ParseTypes ParseExprs ParseStmts ParseItems ParseProgram ParseRuns TypeRuns ExprRuns StmtRuns ItemRuns ProgramRuns.

Section lexer_stream.
Context {B R : Type} `{!BigInt B, !BigRational B R, !UnicodeTables}.
Notation Lexer := (Lexer B R).
Notation Token := (Token B R).

#[export] Instance lexer_stream : TokenStream B R Lexer := { next_item := next; new_stream := new }.

(** [l] has returned the tokens [out] of [source]. *)
Inductive reaches (source : str) : list (Token * Span) → Lexer → Prop :=
| reaches_new : reaches source [] (new source)
| reaches_next out l item l' :
    reaches source out l → next l = (Ok (Some item), l') → reaches source (out ++ [item]) l'.

Inductive clean (strict : bool) (source : str) : Prop :=
| clean_intro :
    ¬ ends_in_spaces source →
    (strict = true → ∀ out l e l', reaches source out l → next l ≠ (Err e, l')) →
    (∀ out l t span l', reaches source out l → next l = (Ok (Some (t, span)), l') →
      ∀ src, src ∈ interpolations t → clean strict src) →
    clean strict source.

Lemma reaches_invariant source out l : ¬ ends_in_spaces source → reaches source out l → invariant source out l.
Proof.
  intros Hs. induction 1 as [|out l item l' _ IH Hn]; [by apply invariant_new|].
  pose proof (next_runs source out l Hs IH) as Hr. unfold runs in Hr. rewrite Hn in Hr. by destruct Hr.
Qed.

(** Where the last of the tokens ends. *)
Definition end_of (out : list (Token * Span)) : nat := match last out with Some (_, span) => span.2 | None => 0 end.

(** The observer has seen the last span. *)
Lemma observe_last source s t a b s' :
  observe (B:=B) (R:=R) source s (t, (a, b)) = Some s' →
  s'.(Lexer.last_span) = (a, b) ∧ (a ≤ b)%nat ∧ ((s.(Lexer.last_span)).2 ≤ b)%nat.
Proof.
  unfold observe. destruct (ended s); [done|]. simpl. destruct (Nat.leb_spec a b); [|done].
  destruct (Nat.leb_spec b (str_len source)); [|done]. cbn [andb negb].
  assert (Hd : (((Lexer.last_span s).2 <=? a)%nat || bool_decide (Lexer.last_span s = (a, b))) = true → ((Lexer.last_span s).2 ≤ b)%nat).
  { intros [Hf|Hf]%orb_true_iff; [apply Nat.leb_le in Hf; lia|apply bool_decide_eq_true in Hf; rewrite Hf; simpl; lia]. }
  destruct (Nat.leb_spec (Lexer.last_span s).2 a) as [Hle|Hgt].
  - assert (((Lexer.last_span s).2 ≤ b)%nat) by lia. clear Hd.
    destruct t; cbn [orb andb depth_effect mbind option_bind]; intros Hs; repeat (first [progress simplify_eq/= | case_match]); done.
  - destruct t; cbn [orb andb]; try done. destruct (bool_decide _); [|done]. intros Hs.
    specialize (Hd eq_refl). repeat (first [progress simplify_eq/= | case_match]); done.
Qed.

Lemma observe_all_last source s items t span s' :
  observe_all (B:=B) (R:=R) source s (items ++ [(t, span)]) = Some s' → s'.(Lexer.last_span) = span.
Proof.
  rewrite observe_all_app. intros (s1 & _ & Hs)%bind_Some. simpl in Hs. destruct span as [a b].
  apply bind_Some in Hs as (s2 & Hs & [= <-]). by apply observe_last in Hs as [-> _].
Qed.

Lemma observe_all_end source items s :
  observe_all (B:=B) (R:=R) source start_obs items = Some s → (s.(Lexer.last_span)).2 = end_of items.
Proof.
  unfold end_of. destruct items as [|[t span] items] using rev_ind; [by intros [= <-]|].
  intros Hs. rewrite last_snoc. by rewrite (observe_all_last _ _ _ _ _ _ Hs).
Qed.

(** One token more. *)
Lemma next_ordered source out l t a b l' :
  invariant source out l → invariant source (out ++ [(t, (a, b))]) l' → (a ≤ b ∧ end_of out ≤ b)%nat.
Proof.
  intros _ [_ (s' & [Ho _] & _)]. rewrite observe_all_app in Ho. apply bind_Some in Ho as (s1 & Ho & _).
  rewrite observe_all_app in Ho. apply bind_Some in Ho as (s0 & H0 & H1). simpl in H1.
  apply bind_Some in H1 as (s2 & H1 & _). apply observe_last in H1 as (_ & ? & ?).
  rewrite <- (observe_all_end _ _ _ H0). done.
Qed.

Lemma end_of_snoc out t span : end_of (out ++ [(t, span)]) = span.2.
Proof. unfold end_of. by rewrite last_snoc. Qed.

(** After its end the lexer stays there. *)
Definition finished (l : Lexer) : Prop := l.(pending_tokens) = [] ∧ l.(eof_emitted) = true.

Lemma next_finished l : finished l → next l = (Ok None, mark_start l) ∧ finished (mark_start l).
Proof.
  intros [Hp He]. split; [|done]. unfold next, next_fuel, rounds, round, mbind, M_bind, get. simpl. by rewrite Hp, He.
Qed.

Definition good_lexer (strict : bool) (l : Lexer) (e : nat) : Prop :=
  (∃ source out, clean strict source ∧ reaches source out l ∧ e = end_of out) ∨ finished l.

Lemma good_new strict source : clean strict source → good_lexer strict (new source) 0.
Proof. intros Hc. left. exists source, []. split; [done|]. split; [constructor|done]. Qed.

Definition lexer_measure (l : Lexer) : nat := potential l.(input) l.

Lemma measure_new source : lexer_measure (new source) = (3 * str_len source + 2)%nat.
Proof. unfold lexer_measure, potential. simpl. lia. Qed.

#[export] Program Instance lexer_bounded (strict : bool) : Bounded B R Lexer :=
  { measure := lexer_measure; good := good_lexer strict; resumes := strict = true }.
Next Obligation.
  intros strict l e [(source & out & Hc & Hr & ->)|Hfin]; simpl.
  2:{ destruct (next_finished l Hfin) as [-> Hfin']. intros _. split; [by right|done]. }
  pose proof Hc as [Hs Hno Hfr].
  pose proof (reaches_invariant source out l Hs Hr) as Hinv.
  pose proof (next_runs source out l Hs Hinv) as Hn. unfold runs in Hn.
  assert (input l = source) as Hi by apply Hinv.
  destruct (next l) as [[[[t [a b]]|]|e| |] l'] eqn:E; try done.
  - destruct Hn as [Hinv' Hpot]. simpl in Hpot. pose proof (weight_pos t).
    assert (input l' = source) as Hi' by apply Hinv'.
    split; [by eapply next_ordered|]. split.
    { left. exists source, (out ++ [(t, (a, b))]). split; [done|]. split; [by eapply reaches_next|]. by rewrite end_of_snoc. }
    unfold lexer_measure at 1 2. rewrite Hi, Hi'. split; [lia|].
    apply Forall_forall. intros src Hsrc. split; [apply good_new; by eapply Hfr|].
    rewrite measure_new. unfold lexer_measure. rewrite Hi. pose proof (weight_fragment t src Hsrc). lia.
  - destruct Hn as (_ & _ & _ & _ & Hp & He & Hi' & Hpot). intros _. split; [by right|].
    unfold lexer_measure. by rewrite Hi, Hi'.
  - intros ->. by edestruct Hno.
Qed.

(** Over a source that the lexer reads without an error, recovery meets none. *)
#[export] Instance lexer_recovering : Recovering (Bounded0:=lexer_bounded true).
Proof.
  split; [done| |].
  - intros l b e l' Hg E. pose proof (@next_good _ _ _ _ (lexer_bounded true) l b Hg) as Hn. simpl in E, Hn.
    destruct Hg as [(source & out & [_ Hno _] & Hr & _)|Hfin]; [by edestruct Hno|].
    destruct (next_finished l Hfin) as [E' _]. congruence.
  - intros l b l' Hg E. simpl in *. destruct Hg as [(source & out & [Hs _ _] & Hr & _)|Hfin].
    + pose proof (next_runs source out l Hs (reaches_invariant _ _ _ Hs Hr)) as Hn. unfold runs in Hn. rewrite E in Hn.
      destruct Hn as (_ & _ & _ & _ & Hp & He & _). by destruct (next_finished l') as [-> _].
    + destruct (next_finished l Hfin) as [E' Hfin']. rewrite E in E'. injection E' as ->.
      by destruct (next_finished _ Hfin') as [-> _].
Qed.
End lexer_stream.

(** ** Entry points *)

Section entries.
Context {B R : Type} `{!BigInt B, !BigRational B R, !UnicodeTables, !Rendered B R, !CaseTable}.
Notation Lexer := (Lexer B R).
Notation Token := (Token B R).

(** The parser over a source. *)
Definition source_parser (source : str) : Parser Lexer := new_parser (new source).

(** The tree that [parse_module] starts from. *)
Definition parse_source (n : nat) (source : str) : outcome (ParseError B R) (list (Stmt B R)) :=
  fst (parse_program n (source_parser source)).

(** [parse_diagnostics]. *)
Definition parse_diagnostics (n : nat) (source : str) (max_errors : nat) : outcome (ParseError B R) (ParseReport (B:=B) (R:=R)) :=
  fst (parse_program_diagnostic n (Nat.max max_errors 1) (source_parser source)).

(** Two units of fuel for each unit of the lexer's measure. *)
Definition parse_fuel (source : str) : nat := (6 * str_len source + 8)%nat.

Lemma source_parser_sound strict source : clean (B:=B) (R:=R) strict source →
  sound (Bounded0:=lexer_bounded strict) (source_parser source) ∧
  left_over (Bounded0:=lexer_bounded strict) (source_parser source) = (3 * str_len source + 2)%nat.
Proof.
  intros Hc. split; [|apply measure_new]. split; [by apply good_new|done].
Qed.

(** A source that lexes is clean when its fragments are. *)
Lemma reaches_collected source items out l :
  lex_spanned (B:=B) (R:=R) source = Ok items → reaches source out l →
  ∃ fuel rest, fst (collect fuel l) = Ok rest ∧ items = out ++ rest.
Proof.
  intros Hl. induction 1 as [|out l item l' _ (fuel & rest & Hf & ->) Hn]; [by exists (collect_fuel source), items|].
  destruct fuel as [|fuel]; [done|]. cbn [collect] in Hf. unfold mbind, M_bind in Hf. rewrite Hn in Hf.
  destruct (collect fuel l') as [[rest'|e| |] l2] eqn:E; try done. simplify_eq/=.
  exists fuel, rest'. rewrite E. split; [done|]. by rewrite <- (assoc_L (++)).
Qed.

Lemma clean_lexed strict source items :
  ¬ ends_in_spaces source → lex_spanned (B:=B) (R:=R) source = Ok items →
  Forall (λ item, Forall (clean (B:=B) (R:=R) strict) (interpolations item.1)) items → clean (B:=B) (R:=R) strict source.
Proof.
  intros Hs Hl Hi. split; [done| |].
  - intros _ out l e l' Hr Hn. destruct (reaches_collected _ _ _ _ Hl Hr) as ([|fuel] & rest & Hf & ->); [done|].
    cbn [collect] in Hf. unfold mbind, M_bind in Hf. by rewrite Hn in Hf.
  - intros out l t span l' Hr Hn src Hsrc.
    destruct (reaches_collected _ _ _ _ Hl (reaches_next _ _ _ _ _ Hr Hn)) as (fuel & rest & _ & ->).
    rewrite !Forall_app, Forall_singleton in Hi. destruct Hi as [[_ Hi] _]. rewrite Forall_forall in Hi. by apply Hi.
Qed.

(** *** Recovery reports its errors *)

(** A parser that returns no error. *)
Definition no_error {A} (m : P B R Lexer A) : Prop := ∀ s, match fst (m s) with Err _ => False | _ => True end.

Lemma no_error_bind {A C} (m : P B R Lexer A) (f : A → P B R Lexer C) :
  no_error m → (∀ a, no_error (f a)) → no_error (m ≫= f).
Proof.
  intros Hm Hf s. specialize (Hm s). unfold mbind, P_bind. destruct (m s) as [[a| | |] s']; try done. apply Hf.
Qed.

Lemma no_error_ret {A} (a : A) : no_error (mret a).
Proof. done. Qed.

Lemma no_error_attempt {A} (m : P B R Lexer A) : no_error (attempt m).
Proof. intros s. unfold attempt. by destruct (m s) as [[] ?]. Qed.

Lemma no_error_loop {X A} fuel (f : X → P B R Lexer (X + A)) : (∀ x, no_error (f x)) → ∀ x, no_error (loop fuel f x).
Proof.
  intros Hf. induction fuel as [|fuel IH]; intros x; [done|]. cbn [loop].
  apply no_error_bind; [done|]. intros [x'|a]; [apply IH|apply no_error_ret].
Qed.

Lemma no_error_discard : no_error discard_one.
Proof. intros s. unfold discard_one. by destruct (next_item (tokens s)) as [[] ?]. Qed.

Lemma no_error_synchronize n : no_error (synchronize_statement n).
Proof.
  apply no_error_loop. intros [] s. unfold synchronize_step.
  by destruct (next_item (tokens s)) as [[[[t span]|]| | |] ?].
Qed.

Lemma no_error_diagnostic n max_errors : no_error (parse_program_diagnostic n max_errors).
Proof.
  assert (Hget : no_error (get (I:=Lexer) (B:=B) (R:=R))) by done.
  apply no_error_loop. intros [program errors]. apply no_error_bind; [apply no_error_attempt|].
  intros [[t|]|e]; [|apply no_error_ret|].
  - destruct t; try apply no_error_ret.
    all: first [apply no_error_bind; [apply no_error_discard|intros []; apply no_error_ret]
      | apply no_error_bind; [apply no_error_attempt|]; intros [statement|e]; [apply no_error_ret|];
        cbv zeta; case_match; [apply no_error_ret|];
        apply no_error_bind; [apply no_error_synchronize|intros []; apply no_error_ret] ].
  - apply no_error_bind; [exact Hget|]. intros s. cbv zeta.
    apply no_error_bind; [apply no_error_discard|]. intros []. apply no_error_ret.
Qed.

(** *** Recovery of a module without errors *)

(** A parser that does not return from [s]. *)
Definition rejects {A} (m : P B R Lexer A) (s : Parser Lexer) : Prop := ∀ a s', m s ≠ (Ok a, s').

Lemma rejects_bind {A C} (m : P B R Lexer A) (f : A → P B R Lexer C) s : rejects m s → rejects (m ≫= f) s.
Proof. intros Hm a s'. unfold mbind, P_bind. destruct (m s) as [[a'| | |] s1] eqn:E; try done. by destruct (Hm a' s1). Qed.

Lemma rejects_after {A C} (m : P B R Lexer A) (f : A → P B R Lexer C) s a s1 :
  m s = (Ok a, s1) → rejects (f a) s1 → rejects (m ≫= f) s.
Proof. intros E Hf a' s'. unfold mbind, P_bind. rewrite E. apply Hf. Qed.

(** A statement does not start with indentation. *)
Definition is_layout (t : Token) : bool := match t with Indent | Dedent => true | _ => false end.

Lemma module_statement_layout n (s : Parser Lexer) t span i :
  next_item s.(tokens) = (Ok (Some (t, span)), i) → is_layout t = true → rejects (module_statement (parsers n)) s.
Proof.
  intros E Ht.
  assert (Hpeek : peek_token s = (Ok (Some t), s)) by (unfold peek_token; by rewrite E).
  assert (Hstart : peek_start s = (Ok span.1, s)) by (unfold peek_start; by rewrite E).
  assert (Hopen : peek_matches is_open s = (Ok false, s)).
  { unfold peek_matches, mbind, P_bind. rewrite Hpeek. by destruct t. }
  assert (Hprefix : ∀ rec, rejects (parse_prefix rec) s).
  { intros rec a s'. unfold parse_prefix, mbind, P_bind. rewrite Hstart. unfold next_token. rewrite E. by destruct t. }
  assert (Hexpr : rejects ((parsers n).(expression) Precedence.Lowest) s).
  { destruct n; [done|]. simpl. by apply rejects_bind. }
  apply rejects_bind. eapply rejects_after; [exact Hstart|]. apply rejects_bind.
  assert (Hkind : rejects (statement_kind (parsers n) span.1) s).
  { eapply rejects_after; [exact Hpeek|]. destruct t; try done; eapply rejects_after; try exact Hopen; by apply rejects_bind. }
  intros a s'. unfold located. specialize (Hkind a s'). by destruct (statement_kind _ _ s) as [[] ?].
Qed.

(** A step at a token that starts a statement. *)
Definition starts_a_statement (t : Token) : bool :=
  match t with Newline | Indent | Dedent | Eof => false | _ => true end.

Lemma program_step_statement rec stmts (s : Parser Lexer) t :
  peek_token s = (Ok (Some t), s) → starts_a_statement t = true →
  program_step rec stmts s = (statement ← module_statement rec; mret (inl (stmts ++ [statement]))) s.
Proof. intros Hpeek Ht. unfold program_step, mbind at 1, P_bind at 1. rewrite Hpeek. by destruct t. Qed.

Lemma diagnostic_step_statement n max_errors st (s s1 : Parser Lexer) t statement :
  peek_token s = (Ok (Some t), s) → starts_a_statement t = true →
  module_statement (parsers n) s = (Ok statement, s1) →
  diagnostic_step n max_errors st s = (Ok (inl (st.1 ++ [statement], st.2)), s1).
Proof.
  intros Hpeek Ht Hm. destruct st as [program errors].
  assert (Hattempt : attempt (module_statement (parsers n)) s = (Ok (inl statement), s1)) by (unfold attempt; by rewrite Hm).
  unfold diagnostic_step, mbind at 1, P_bind at 1, attempt at 1. rewrite Hpeek. revert Hattempt.
  generalize (attempt (module_statement (parsers n))). intros m Hattempt.
  destruct t; try done; unfold mbind, P_bind; by rewrite Hattempt.
Qed.

(** A statement parsed fail-fast is parsed by recovery. *)
Lemma diagnostic_step_follows n max_errors stmts (s s1 : Parser Lexer) r :
  program_step (parsers n) stmts s = (Ok r, s1) →
  ∃ s2, diagnostic_step n max_errors (stmts, []) s =
      (Ok match r with inl stmts => inl (stmts, []) | inr stmts => inr (mkReport stmts [] false) end, s2) ∧
    match r with inl _ => s2 = s1 | inr _ => True end.
Proof.
  destruct (next_item (tokens s)) as [[item| | |] i] eqn:E.
  2-4: unfold program_step, mbind, P_bind, peek_token; by rewrite E.
  assert (Hpeek : peek_token s = (Ok (fst <$> item), s)) by (unfold peek_token; by rewrite E).
  assert (Hdone : (item = None ∨ ∃ span, item = Some (Eof, span)) → program_step (parsers n) stmts s = (Ok (inr stmts), s) ∧
    diagnostic_step n max_errors (stmts, []) s = (Ok (inr (mkReport stmts [] false)), s)).
  { intros Hi. unfold program_step, diagnostic_step, mbind, P_bind, attempt. rewrite Hpeek. by destruct Hi as [->|[span ->]]. }
  destruct item as [[t span]|]; [|destruct Hdone as [-> ->]; [by left|intros [= <- <-]; by exists s]].
  destruct (starts_a_statement t) eqn:Ht.
  - rewrite (program_step_statement _ _ _ t) by done. unfold mbind, P_bind.
    destruct (module_statement (parsers n) s) as [[statement| | |] s2] eqn:Em; try done. intros [= <- <-]. exists s2.
    by rewrite (diagnostic_step_statement n max_errors _ _ _ t _ Hpeek Ht Em).
  - destruct (is_layout t) eqn:Hl.
    + pose proof (module_statement_layout n s t span i E Hl) as Hr.
      assert (program_step (parsers n) stmts s = (statement ← module_statement (parsers n); mret (inl (stmts ++ [statement]))) s) as ->.
      { unfold program_step, mbind at 1, P_bind at 1. rewrite Hpeek. by destruct t. }
      intros Hs. by destruct (rejects_bind _ _ _ Hr _ _ Hs).
    + destruct t; try done; [|destruct Hdone as [-> ->]; [right; by eexists|intros [= <- <-]; by exists s]].
      unfold program_step, diagnostic_step, mbind, P_bind, attempt, next_token, discard_one. rewrite Hpeek. cbn -[next].
      change (next (tokens s)) with (next_item (tokens s)). rewrite E. cbn -[next]. intros [= <- <-]. by eexists.
Qed.

Lemma diagnostic_follows n max_errors fuel stmts (s : Parser Lexer) p s' :
  loop fuel (program_step (parsers n)) stmts s = (Ok p, s') →
  ∃ s'', loop fuel (diagnostic_step n max_errors) (stmts, []) s = (Ok (mkReport p [] false), s'').
Proof.
  revert stmts s. induction fuel as [|fuel IH]; intros stmts s; [done|]. cbn [loop]. unfold mbind at 1 2, P_bind at 1 2.
  destruct (program_step (parsers n) stmts s) as [[r| | |] s1] eqn:Estep; try done.
  apply (diagnostic_step_follows n max_errors) in Estep as (s2 & -> & Hr). destruct r as [stmts'|stmts'].
  - rewrite Hr. apply IH.
  - intros [= <- <-]. by eexists.
Qed.

(** C5: parsing a module is total. *)
Theorem parse_source_total (source : str) (n : nat)
    (Hclean : clean (B:=B) (R:=R) false source) (Hn : (parse_fuel source ≤ n)%nat) :
  (∃ program, parse_source n source = Ok program) ∨ (∃ e, parse_source n source = Err e).
Proof.
  destruct (source_parser_sound false source Hclean) as [Hs Hl]. unfold parse_fuel in Hn.
  assert (Hw : ends (parse_program n) (source_parser source)).
  { eapply wp_ends, (parse_program_spec (Bounded0:=lexer_bounded false) (S (3 * str_len source + 2))); [lia|done|lia|done]. }
  destruct Hw as (r & s' & Hr & Hp & Hd). unfold parse_source. rewrite Hr. destruct r; naive_solver.
Qed.

(** C10: recovery is total on a source that lexes.  [mojito parse] gets a report,
    whose errors are as many as were asked for when it says it stopped, and
    fewer otherwise. *)
Theorem parse_diagnostics_total (source : str) (n max_errors : nat)
    (Hclean : clean (B:=B) (R:=R) true source) (Hn : (parse_fuel source ≤ n)%nat) :
  ∃ r, parse_diagnostics n source max_errors = Ok r ∧ report_bounded (Nat.max max_errors 1) r.
Proof.
  destruct (source_parser_sound true source Hclean) as [Hs Hl]. unfold parse_fuel in Hn.
  pose proof (parse_program_diagnostic_runs (Bounded0:=lexer_bounded true) n (Nat.max max_errors 1) _ Hs ltac:(lia)) as Hw.
  pose proof (no_error_diagnostic n (Nat.max max_errors 1) (source_parser source)) as He.
  unfold wp in Hw. unfold parse_diagnostics. destruct (parse_program_diagnostic _ _ _) as [[] ?]; naive_solver.
Qed.

(** C11: the two entry points agree on a module that parses: recovery returns the
    program that the fail-fast parser does, with no error and not truncated. *)
Theorem parse_diagnostics_agrees (source : str) (n max_errors : nat) program
    (Hparse : parse_source n source = Ok program) :
  parse_diagnostics n source max_errors = Ok (mkReport program [] false).
Proof.
  unfold parse_source, parse_diagnostics, parse_program, parse_program_diagnostic in *.
  destruct (loop _ _ _ _) as [[p| | |] s'] eqn:E in Hparse; try done. injection Hparse as <-.
  by destruct (diagnostic_follows n (Nat.max max_errors 1) n [] _ _ _ E) as [s'' ->].
Qed.
End entries.

(** ** Examples *)

(** Evaluation over integers, canonical fractions and the ASCII tables; no node
    is printed. *)
#[export] Instance unprinted : Rendered Z Qcanon.Qc := { debug_kind _ := [] }.
#[export] Instance ascii_case : CaseTable := { is_lowercase c := (ch "a" <=? c)%Z && (c <=? ch "z")%Z }.

Section examples.
#[local] Existing Instance ascii_tables.

Definition ascii_parse (source : str) : outcome (ParseError Z Qcanon.Qc) (list (Stmt Z Qcanon.Qc)) :=
  parse_source (parse_fuel source) source.

Definition module_example : str := source_of ["def f(x: Int) -> Int:"; "    return x * 2 + 1"].

Lemma module_example_clean strict : clean (B:=Z) (R:=Qcanon.Qc) strict module_example.
Proof.
  eapply clean_lexed; [by apply newline_ended|vm_compute; reflexivity|]. repeat constructor.
Qed.

Lemma parse_source_total_witness :
  clean (B:=Z) (R:=Qcanon.Qc) false module_example ∧
  ((∃ program, parse_source (B:=Z) (R:=Qcanon.Qc) 400 module_example = Ok program) ∨
   (∃ e, parse_source (B:=Z) (R:=Qcanon.Qc) 400 module_example = Err e)).
Proof. split; [apply module_example_clean|]. apply parse_source_total; [apply module_example_clean|]. vm_compute. lia. Defined.

Lemma parse_diagnostics_total_witness :
  ∃ r, parse_diagnostics (B:=Z) (R:=Qcanon.Qc) 400 module_example 20 = Ok r ∧ report_bounded 20 r.
Proof.
  apply (parse_diagnostics_total module_example 400 20); [apply module_example_clean|]. vm_compute. lia.
Defined.

Lemma parse_diagnostics_agrees_witness :
  ∃ program, parse_diagnostics (B:=Z) (R:=Qcanon.Qc) 400 module_example 20 = Ok (mkReport program [] false).
Proof. eexists. apply parse_diagnostics_agrees. vm_compute. reflexivity. Defined.

(** The agreement is one way: recovery skips the indentation of a module that
    the fail-fast parser rejects. *)
Example parse_diagnostics_skips_indentation :
  (∃ e, ascii_parse (source_of ["    x = 1"]) = Err e) ∧
  ∃ program, parse_diagnostics (B:=Z) (R:=Qcanon.Qc) 200 (source_of ["    x = 1"]) 20 = Ok (mkReport program [] false).
Proof. split; eexists; vm_compute; reflexivity. Qed.

(** *** Recovery at an unexpected character *)

(** The lexer reports an unexpected character without passing it, so that
    skipping to the end of the statement meets it again. *)
Lemma synchronize_stuck n (s : Parser (Lexer Z Qcanon.Qc)) e :
  next_item s.(tokens) = (Err e, s.(tokens)) → fst (synchronize_statement n s) = Diverge.
Proof.
  intros Hn. unfold synchronize_statement. induction n as [|n IH]; [done|]. cbn [loop]. unfold mbind, P_bind.
  unfold synchronize_step at 1. rewrite Hn. destruct s. apply IH.
Qed.

Definition unexpected_source : str := source_of ["x = ?"].

(** The parser at the question mark. *)
Definition stuck_parser : Parser (Lexer Z Qcanon.Qc) :=
  mkParser (mkLexer unexpected_source 4 4 [0%nat] 0 false false false WithinStatement []) (2, 3)%nat 3 false [] [].

Lemma unexpected_statement n :
  module_statement (parsers (2 + n)) (source_parser unexpected_source) =
    (Err (LexerError (UnexpectedCharacter (ch "?") 4)), stuck_parser).
Proof. vm_compute. reflexivity. Qed.

(** A round of recovery whose statement stops at such a character, with room
    for another error, does not end. *)
Lemma diagnostic_stuck n max_errors fuel program errors (s s' : Parser (Lexer Z Qcanon.Qc)) t err e :
  peek_token s = (Ok (Some t), s) → starts_a_statement t = true →
  module_statement (parsers n) s = (Err err, s') → next_item s'.(tokens) = (Err e, s'.(tokens)) →
  (S (length errors) < max_errors)%nat →
  fst (loop fuel (diagnostic_step n max_errors) (program, errors) s) = Diverge.
Proof.
  intros Hpeek Ht Hm Hn Hmax. destruct fuel as [|fuel]; [done|]. cbn [loop]. unfold mbind, P_bind.
  assert (Hstep : fst (diagnostic_step n max_errors (program, errors) s) = Diverge).
  { assert (attempt (module_statement (parsers n)) s = (Ok (inr err), s')) as Ha by (unfold attempt; by rewrite Hm).
    unfold diagnostic_step, mbind, P_bind, attempt at 1. rewrite Hpeek.
    destruct t; try done; cbv beta iota; rewrite Ha; cbv zeta beta iota; rewrite length_app; cbn [length];
      (destruct (Nat.leb_spec max_errors (length errors + 1)); [lia|]);
      pose proof (synchronize_stuck n s' e Hn); by destruct (synchronize_statement n s') as [[] ?]. }
  by destruct (diagnostic_step _ _ _ _) as [[] ?].
Qed.

(** C23: recovery that stops at a character the lexer does not pass never ends.
    From any parser whose lexer reports an error and stays where it is,
    [synchronize_statement] runs for ever; [x = ?] brings the parser there, so
    that its report never comes when more than one error may be reported.  With
    at most one, the report is that error. *)
Theorem parse_diagnostics_stuck (n max_errors : nat) :
  (∀ (s : Parser (Lexer Z Qcanon.Qc)) e,
     next_item s.(tokens) = (Err e, s.(tokens)) → fst (synchronize_statement n s) = Diverge) ∧
  (if (max_errors <=? 1)%nat
   then (2 ≤ n)%nat → parse_diagnostics (B:=Z) (R:=Qcanon.Qc) n unexpected_source max_errors =
     Ok (mkReport [] [LexerError (UnexpectedCharacter (ch "?") 4)] true)
   else parse_diagnostics (B:=Z) (R:=Qcanon.Qc) n unexpected_source max_errors = Diverge).
Proof.
  split; [intros s e; apply synchronize_stuck|].
  destruct (Nat.leb_spec max_errors 1) as [Hmax|Hmax].
  - intros Hn. destruct n as [|[|n']]; [lia|lia|]. unfold parse_diagnostics, parse_program_diagnostic.
    replace (Nat.max max_errors 1) with 1%nat by lia. vm_compute. reflexivity.
  - unfold parse_diagnostics, parse_program_diagnostic. destruct n as [|[|n']]; [done|by vm_compute|].
    pose proof (diagnostic_stuck (2 + n') (Nat.max max_errors 1) (2 + n') [] [] (source_parser unexpected_source)
      stuck_parser (Identifier (lit "x")) _ _ ltac:(by vm_compute) eq_refl (unexpected_statement n')
      ltac:(by vm_compute) ltac:(cbn [length]; lia)) as Hd.
    by destruct (loop _ _ _ _) as [[] ?].
Qed.

Lemma parse_diagnostics_stuck_witness :
  fst (synchronize_statement 1000 stuck_parser) = Diverge ∧
  parse_diagnostics (B:=Z) (R:=Qcanon.Qc) 1000 unexpected_source 20 = Diverge.
Proof.
  split; [|apply (parse_diagnostics_stuck 1000 20)].
  apply (proj1 (parse_diagnostics_stuck 1000 20)) with (e := UnexpectedCharacter (ch "?") 4). by vm_compute.
Defined.
End examples.
