(* ===== verification/Enums.v ===== *)
(** * Enums: the members of an [enum] (mojito-parser, [enums.rs])

    An enum is a struct whose members are written as source text from its
    cases, parsed, located at the cases and appended to the struct's own.  A
    payload type is the text between the parentheses of its case, cut at the
    commas outside brackets.  The parser runs on fuel, and so does the walk that
    relocates what it returns. *)

From Stdlib Require Import Ascii String.
From S2P Require Import Prelude Text Literal Token Scanner Lexer Dtypes Ast AstWalk AstRewrite RewriteRuns Parser ParseTypes ParseExprs ParseStmts ParseItems ParseProgram ParseLexer.

(** ** Text of the Rust standard library *)

Definition newline : char := 10%Z.
Definition quote : str := [34%Z].

(** [char::is_whitespace]: the Unicode property [White_Space]. *)
Definition is_whitespace (c : char) : bool :=
  char_in 9 13 c || (c =? 0x20)%Z || (c =? 0x85)%Z || (c =? 0xa0)%Z || (c =? 0x1680)%Z || char_in 0x2000 0x200a c ||
  (c =? 0x2028)%Z || (c =? 0x2029)%Z || (c =? 0x202f)%Z || (c =? 0x205f)%Z || (c =? 0x3000)%Z.

(** [<[str]>::join]. *)
Fixpoint join (separator : str) (l : list str) : str :=
  match l with
  | [] => []
  | [s] => s
  | s :: l => s ++ separator ++ join separator l
  end.

(** [str::lines]: without their ends, a newline or a return and a newline. *)
Definition end_line (line : str) : str := default line (strip_suffix line [13%Z]).
Fixpoint lines_from (line s : str) : list str :=
  match s with
  | [] => match line with [] => [] | _ => [line] end
  | c :: s => if (c =? newline)%Z then end_line line :: lines_from [] s else lines_from (line ++ [c]) s
  end.
Definition lines (s : str) : list str := lines_from [] s.

(** [str::split_whitespace]. *)
Fixpoint words_from (word s : str) : list str :=
  let whole := match word with [] => [] | _ => [word] end in
  match s with
  | [] => whole
  | c :: s => if is_whitespace c then whole ++ words_from [] s else words_from (word ++ [c]) s
  end.
Definition split_whitespace (s : str) : list str := words_from [] s.

(** The text before the last of a character. *)
Definition before_last (c : char) (s : str) : option str :=
  '(_, before) ← split_once (Z.eqb c) (reverse s); Some (reverse before).

(** The debug form of a string.  Which characters beyond ASCII are printed as
    they are is a table of the standard library. *)
Class DebugTable : Type := { prints_as_is : char → bool }.

Definition hex_char (d : Z) : char := if (d <? 10)%Z then (ch "0" + d)%Z else (ch "a" + (d - 10))%Z.
Fixpoint hex_digits (fuel : nat) (c : Z) (acc : str) : str :=
  match fuel with
  | O => acc
  | S fuel => let acc := hex_char (c mod 16)%Z :: acc in if (c <? 16)%Z then acc else hex_digits fuel (c / 16)%Z acc
  end.

Section enums.
Context {B R : Type} `{!BigInt B, !BigRational B R, !UnicodeTables, !Rendered B R, !CaseTable, !DebugTable}.
Notation Expr := (Expr B R).
Notation SourceType := (SourceType B R).
Notation Stmt := (Stmt B R).
Notation Method := (Method B R).
Notation StructComptime := (StructComptime B R).
Notation EnumCase := (EnumCase B R).
Notation ParseError := (ParseError B R).
Notation result := (outcome ParseError).

Definition debug_char (c : char) : str :=
  if (c =? 0)%Z then lit "\0" else if (c =? 9)%Z then lit "\t" else if (c =? 13)%Z then lit "\r"
  else if (c =? 10)%Z then lit "\n" else if (c =? 34)%Z then lit "\" ++ quote else if (c =? 92)%Z then lit "\\"
  else if char_in 0x20 0x7e c || prints_as_is c then [c]
  else lit "\u{" ++ hex_digits 6 c [] ++ lit "}".
Definition debug_str (s : str) : str := quote ++ flat_map debug_char s ++ quote.

Definition case_name (case : EnumCase) : str := let 'mkEnumCase name _ _ := case in name.
Definition case_types (case : EnumCase) : list SourceType := let 'mkEnumCase _ payload _ := case in payload.
Definition case_span (case : EnumCase) : Span := let 'mkEnumCase _ _ span := case in span.
Definition comptime_name (member : StructComptime) : str := let 'mkStructComptime name _ _ _ _ := member in name.
Definition method_name (method : Method) : str :=
  let 'mkMethod name _ _ _ _ _ _ _ _ _ _ _ _ _ _ _ := method in name.

(** ** Checks *)

Definition ENUM_TRAIT : str := lit "__module$std$builtin$$enum$__Enum".

Definition SYNTHESIZED_NAMES : list str :=
  lit <$> ["__enum_storage"; "_enum_case_names"; "_enum_case_types"; "_get_enum_discriminant";
           "_unsafe_get_enum_payload"; "_enum_elt_type_for_case"; "__enum_init"; "__get_enum_storage"].

Definition STRUCT_MEMBER_NAMES : list str :=
  lit <$> ["_enum_is_exhaustive"; "__init__"; "__del__"; "__copy_ctor_is_trivial"; "__move_ctor_is_trivial";
           "__del__is_trivial"].

Definition contains (names : list str) (name : str) : bool := bool_decide (name ∈ names).

Definition case_error {A} (case : EnumCase) (message : str) : result A :=
  Err (error_at (Message message) (case_span case)).

(** A name of a special method. *)
Definition is_special (name : str) : bool :=
  (4 <? str_len name)%nat && starts_with name (lit "__") && ends_with name (lit "__").

Fixpoint check_case_names (written seen : list str) (cases : list EnumCase) : result unit :=
  match cases with
  | [] => Ok tt
  | case :: cases =>
      let name := case_name case in
      if contains seen name || contains SYNTHESIZED_NAMES name || contains STRUCT_MEMBER_NAMES name then
        case_error case (lit "invalid redefinition of '" ++ name ++ lit "'")
      else if is_special name then
        case_error case (lit "case '" ++ name ++
          lit "' must not use the name of a special method that takes 'self'; rename the case")
      else if contains written name then
        case_error case (lit "enum case '" ++ name ++ lit "' conflicts with a member of the same name")
      else check_case_names written (name :: seen) cases
  end.

Fixpoint check_written_names (written : list str) : result unit :=
  match written with
  | [] => Ok tt
  | name :: written =>
      if contains SYNTHESIZED_NAMES name then
        Err (Message (lit "'" ++ name ++ lit "' is synthesized for enums and cannot be declared"))
      else check_written_names written
  end.

Definition check_member_names (cases : list EnumCase) (associated : list StructComptime) (methods : list Method) : result unit :=
  let written := (comptime_name <$> associated) ++ (method_name <$> methods) in
  _ ← check_written_names written; check_case_names written [] cases.

(** [matches!(case.payload, [Type::Named("NoneType", [])])]. *)
Definition is_none_payload (payload : list SourceType) : bool :=
  match payload with [TyNamed name []] => bool_decide (name = lit "NoneType") | _ => false end.

Definition is_recursive (name : str) (payload : SourceType) : bool :=
  match payload with
  | TySelfType => true
  | TyNamed payload [] => bool_decide (payload = name)
  | _ => false
  end.

Fixpoint check_payloads (name : str) (cases : list EnumCase) : result unit :=
  match cases with
  | [] => Ok tt
  | case :: cases =>
      if is_none_payload (case_types case) then
        case_error case (lit "enum case payload must not be 'NoneType'; a case without a payload is written 'case " ++
          case_name case ++ lit "'")
      else if existsb (is_recursive name) (case_types case) then
        case_error case (lit "case '" ++ case_name case ++ lit "' has recursive payload type '" ++ name ++ lit "'")
      else check_payloads name cases
  end.

Definition check_case_payloads (name : str) (conforms : list str) (cases : list EnumCase) (span : Span) : result unit :=
  if contains conforms (lit "TrivialRegisterPassable") then
    Err (error_at (Message (lit "enums cannot conform to 'TrivialRegisterPassable'")) span)
  else check_payloads name cases.

(** ** The spelling of a payload *)

(** The scan of a line: the spellings cut off, the open brackets, the current
    spelling. *)
Definition cut : Type := list str * nat * str.

Definition opens (c : char) : bool := (c =? ch "(")%Z || (c =? ch "[")%Z || (c =? ch "{")%Z.
Definition closes (c : char) : bool := (c =? ch ")")%Z || (c =? ch "]")%Z || (c =? ch "}")%Z.

Definition scan_char (st : cut) (c : char) : cut :=
  let '(spellings, depth, current) := st in
  if opens c then (spellings, S depth, current ++ [c])
  else if closes c then (spellings, Nat.pred depth, current ++ [c])
  else if (c =? ch ",")%Z && (depth =? 0)%nat then (spellings ++ [current], depth, [])
  else (spellings, depth, current ++ [c]).

Definition scan_line (st : cut) (line : str) : cut :=
  let '(spellings, depth, current) := fold_left scan_char (take_while (λ c, negb (c =? ch "#")%Z) line) st in
  (spellings, depth, current ++ lit " ").

Definition scan_inner (inner : str) : list str :=
  let '(spellings, _, current) := fold_left scan_line (lines inner) ([], 0%nat, []) in spellings ++ [current].

Definition respell (spelling : str) : str := join (lit " ") (split_whitespace spelling).

Definition payload_spellings (case : EnumCase) (source : str) : result (list str) :=
  match case_types case with
  | [] => Ok []
  | payload =>
      let text := default [] (str_slice source (case_span case).1 (case_span case).2) in
      let unreadable := case_error case (lit "cannot read the payload types of case '" ++ case_name case ++ lit "'") in
      match '(_, after) ← split_once (Z.eqb (ch "(")) text; before_last (ch ")") after with
      | None => unreadable
      | Some inner =>
          let spellings := filter (λ s, s ≠ []) (respell <$> scan_inner inner) in
          if (length spellings =? length payload)%nat then Ok spellings else unreadable
      end
  end.

(** ** The generated source *)

(** The pieces of a format string: text and arguments. *)
Definition format (pieces : list str) : str := concat pieces.
Definition line (pieces : list str) : str := format pieces ++ [newline].
Definition number (n : nat) : str := Z_display (Z.of_nat n).

Definition case_type (payload : list str) : str :=
  match payload with
  | [] => lit "NoneType"
  | [single] => single
  | several => format [lit "Tuple["; join (lit ", ") several; lit "]"]
  end.

Definition storage_type (case_types : list str) : str :=
  match case_types with
  | [] => lit "__EnumStorage"
  | _ => format [lit "__EnumStorage["; join (lit ", ") case_types; lit "]"]
  end.

(** The lines that a static constructor begins with, and its last. *)
Definition constructor (name parameters storage value : str) (index : nat) : str :=
  line [lit "    @staticmethod"] ++
  line [lit "    def "; name; lit "("; parameters; lit ", out result: Self):"] ++
  line [lit "        __mlir_op.`lit.ownership.mark_initialized`(__get_mvalue_as_litref(result))"] ++
  line [lit "        Pointer(to=result.__enum_storage).unsafe_write("; storage; lit "("; value; lit ", index=";
        number index; lit "))"].

Definition case_member (storage : str) (index : nat) (case : EnumCase) (payload : list str) : str :=
  match payload with
  | [] => line [lit "    comptime "; case_name case; lit ": Self = Self.__enum_init("; storage; lit "(None, index=";
                number index; lit "))"]
  | [single] => constructor (case_name case) (lit "var payload: " ++ single) storage (lit "payload^") index
  | several =>
      let parameters := join (lit ", ") (imap (λ position ty, format [lit "var payload"; number position; lit ": "; ty]) several) in
      let elements := join (lit ", ") (imap (λ position _, format [lit "payload"; number position; lit "^"]) several) in
      constructor (case_name case) parameters storage (format [lit "Tuple("; elements; lit ")"]) index
  end.

Definition generated_members (name : str) (cases : list EnumCase) (payloads : list (list str)) : str :=
  let case_types := case_type <$> payloads in
  let storage := storage_type case_types in
  let names :=
    match cases with
    | [] => lit "type=__mlir_type.`!kgen.string`"
    | _ => join (lit ", ") ((λ case, debug_str (case_name case) ++ lit ".value") <$> cases)
    end in
  let types := join (lit ", ") (lit "Trait=AnyType" :: case_types) in
  line [lit "struct "; name; lit ":"] ++
  line [lit "    comptime _enum_case_names = ParameterList.of["; names; lit "].values"] ++
  line [lit "    comptime _enum_case_types = TypeList.of["; types; lit "].values"] ++
  line [lit "    var __enum_storage: "; storage] ++
  concat (imap (λ index entry, case_member storage index entry.1 entry.2) (zip cases payloads)) ++
  line [lit "    @staticmethod"] ++
  line [lit "    def __enum_init(var storage: "; storage; lit ", out result: Self):"] ++
  line [lit "        __mlir_op.`lit.ownership.mark_initialized`(__get_mvalue_as_litref(result))"] ++
  line [lit "        Pointer(to=result.__enum_storage).unsafe_write(storage^)"] ++
  line [lit "    def __get_enum_storage(ref self) -> ref[self] "; storage; lit ":"] ++
  line [lit "        return self.__enum_storage"] ++
  line [lit "    def _get_enum_discriminant(self) -> Int:"] ++
  line [lit "        return self.__enum_storage.get_discriminant()"] ++
  line [lit "    def _unsafe_get_enum_payload[id: Int](ref self) -> ref[self] TypeList[Trait=AnyType, Self._enum_case_types]()[id]:"] ++
  line [lit "        return rebind[TypeList[Trait=AnyType, Self._enum_case_types]()[id]](self.__enum_storage[id])"].

(** [payload.replace], of the placeholder of the two spellings that
    [synthesize_enum_members] passes: what comes before and after it. *)
Definition generated_write (member before after name : str) (cases : list EnumCase) : str :=
  line [lit "    def "; member; lit "(self, mut writer: Some[Writer]):"] ++
  line [lit "        writer.write("; quote; name; lit "."; quote; lit ")"] ++
  line [lit "        var discriminant = self._get_enum_discriminant()"] ++
  concat (imap (λ index case,
    line [lit "        "; (if (index =? 0)%nat then lit "if" else lit "elif"); lit " discriminant == "; number index; lit ":"] ++
    line [lit "            writer.write("; quote; case_name case; quote; lit ")"] ++
    match case_types case with
    | [] => []
    | _ =>
        let value := format [before; lit "self._unsafe_get_enum_payload["; number index; lit "]()"; after] in
        line [lit "            writer.write("; quote; lit "("; quote; lit ", "; value; lit ", "; quote; lit ")"; quote; lit ")"]
    end) cases).

(** ** Relocation *)

(** [Relocate]. *)
Definition Relocate (at_ : Span) : MutVisitor B R unit := {|
  visit_stmt_mut '(mkStmt kind _) s := (mkStmt kind at_, s);
  visit_expr_mut '(mkExpr kind _) s := (mkExpr kind at_, s);
  visit_type_mut ty s := (ty, s);
  visit_pattern_mut pattern s := (pattern, s);
  visit_target_mut target s := (target, s);
  visit_type_param_mut param s := (param, s);
|}.

Definition relocate_block (n : nat) (at_ : Span) (body : list Stmt) : result (list Stmt) :=
  match walk_block_mut (walks (Relocate at_) n) body tt with Some (body, _) => Ok body | None => Diverge end.

Definition relocate_expr (n : nat) (at_ : Span) (expr : Expr) : result Expr :=
  statement ← relocate_block n at_ [mkStmt (SExpr expr) at_];
  Ok match statement with [mkStmt (SExpr relocated) _] => relocated | _ => expr end.

(** Where a member is located: at its case, or at the declaration. *)
Definition member_span (cases : list EnumCase) (span : Span) (name : str) : Span :=
  from_option case_span span (find (λ case, bool_decide (case_name case = name)) cases).

Definition relocate_comptime (n : nat) (cases : list EnumCase) (span : Span) (member : StructComptime) : result StructComptime :=
  let 'mkStructComptime name params ty where_clauses value := member in
  let at_ := member_span cases span name in
  value ← relocate_expr n at_ value;
  where_clauses ← mapM (relocate_expr n at_) where_clauses;
  Ok (mkStructComptime name params ty where_clauses value).

Definition relocate_method (n : nat) (cases : list EnumCase) (span : Span) (method : Method) : result Method :=
  let 'mkMethod name type_params has_self self_convention self_origin self_type receiver_index decorators params
    positional_only keyword_only raises raises_type ret where_clauses body := method in
  body ← relocate_block n (member_span cases span name) body;
  Ok (mkMethod name type_params has_self self_convention self_origin self_type receiver_index decorators params
    positional_only keyword_only raises raises_type ret where_clauses body).

(** ** The members of an enum *)

Definition parse_members (n : nat) (text : str) : result Stmt :=
  program ← parse_source n text;
  match program with
  | [statement] => Ok statement
  | _ => Err (Message (lit "internal error: the generated enum members are not one struct"))
  end.

(** The source of the members of an enum. *)
Definition members_text (name : str) (conforms : list str) (cases : list EnumCase) (methods : list Method)
    (payloads : list (list str)) : str :=
  let writes := contains conforms (lit "Writable") in
  let written member := existsb (λ method, bool_decide (method_name method = lit member)) methods in
  let write member before after :=
    if writes && negb (written member) then generated_write (lit member) before after name cases else [] in
  generated_members name cases payloads ++ write "write_to"%string [] [] ++
  write "write_repr_to"%string (lit "repr(") (lit ")").

Definition synthesize_statement (n : nat) (source : str) (statement : Stmt) : result Stmt :=
  match statement with
  | mkStmt (SStruct name decorators type_params conforms callable_conformance conformance_conditions where_clauses
      fields associated methods fieldwise_init (Some cases)) span =>
      _ ← check_member_names cases associated methods;
      _ ← check_case_payloads name conforms cases span;
      payloads ← mapM (λ case, payload_spellings case source) cases;
      members ← parse_members n (members_text name conforms cases methods payloads);
      match members with
      | mkStmt (SStruct _ _ _ _ _ _ _ generated_fields generated_associated generated_methods _ _) _ =>
          generated_associated ← mapM (relocate_comptime n cases span) generated_associated;
          generated_methods ← mapM (relocate_method n cases span) generated_methods;
          Ok (mkStmt (SStruct name decorators type_params (conforms ++ [ENUM_TRAIT]) callable_conformance
            conformance_conditions where_clauses (fields ++ generated_fields) (associated ++ generated_associated)
            (methods ++ generated_methods) fieldwise_init (Some cases)) span)
      | _ => Panic
      end
  | _ => Ok statement
  end.

Definition synthesize_enum_members (n : nat) (program : list Stmt) (source : str) : result (list Stmt) :=
  mapM (synthesize_statement n source) program.

Definition parse_module (n : nat) (source : str) : result (list Stmt) :=
  program ← parse_source n source; synthesize_enum_members n program source.
End enums.

(** ** What the checks accept *)

Section checks.
Context {B R : Type}.
Notation EnumCase := (EnumCase B R).
Notation result := (outcome (ParseError B R)).

(** A result that is decided: a value or an error. *)
Definition decides (r : result unit) (P : Prop) : Prop := (r = Ok tt ∧ P) ∨ ((∃ e, r = Err e) ∧ ¬ P).

#[local] Instance decides_proper : Proper ((=) ==> iff ==> iff) decides.
Proof. unfold decides. intros r _ <- P Q HPQ. by rewrite HPQ. Qed.

Lemma decides_ok r P : decides r P → r = Ok tt ↔ P.
Proof. unfold decides. naive_solver. Qed.

Lemma decides_bind r (r' : result unit) P Q : decides r P → decides r' Q → decides (_ ← r; r') (P ∧ Q).
Proof. intros [[-> ?]|[[e ->] ?]] Hr'; [|right; split; [by exists e|tauto]]. destruct Hr' as [[? ?]|[? ?]]; [left|right]; tauto. Qed.

Lemma decides_error (e : ParseError B R) (P : Prop) : ¬ P → decides (Err e) P.
Proof. right. split; [by eexists|done]. Qed.

Lemma contains_spec names name : contains names name = true ↔ name ∈ names.
Proof. apply bool_decide_eq_true. Qed.

Lemma contains_false names name : contains names name = false ↔ name ∉ names.
Proof. apply bool_decide_eq_false. Qed.

Lemma check_written_names_decides written :
  decides (check_written_names (B:=B) (R:=R) written) (Forall (λ name, name ∉ SYNTHESIZED_NAMES) written).
Proof.
  induction written as [|name written IH]; simpl; [by left|]. destruct (contains _ name) eqn:Hc.
  - apply decides_error. apply contains_spec in Hc. rewrite Forall_cons. tauto.
  - apply contains_false in Hc. destruct IH as [[-> ?]|[? ?]]; [left; split; [done|by constructor]|].
    right. split; [done|]. rewrite Forall_cons. tauto.
Qed.

(** A case name no rule refuses. *)
Definition admissible (written : list str) (name : str) : Prop :=
  name ∉ SYNTHESIZED_NAMES ∧ name ∉ STRUCT_MEMBER_NAMES ∧ is_special name = false ∧ name ∉ written.

Lemma check_case_names_decides written seen (cases : list EnumCase) :
  decides (check_case_names written seen cases)
    (Forall (admissible written) (case_name <$> cases) ∧ Forall (λ name, name ∉ seen) (case_name <$> cases) ∧
     NoDup (case_name <$> cases)).
Proof.
  revert seen. induction cases as [|case cases IH]; intros seen.
  { left. repeat constructor. }
  rewrite !fmap_cons, !Forall_cons, NoDup_cons. unfold admissible at 1. cbn [check_case_names]. set (name := case_name case).
  destruct (contains seen name) eqn:H1; [apply decides_error; apply contains_spec in H1; tauto|].
  destruct (contains SYNTHESIZED_NAMES name) eqn:H2; [apply decides_error; apply contains_spec in H2; tauto|].
  destruct (contains STRUCT_MEMBER_NAMES name) eqn:H3; [apply decides_error; apply contains_spec in H3; tauto|].
  destruct (is_special name) eqn:H4; [apply decides_error; naive_solver congruence|].
  destruct (contains written name) eqn:H5; [apply decides_error; apply contains_spec in H5; tauto|].
  apply contains_false in H1, H2, H3, H5. simpl.
  assert (Hseen : Forall (λ x, x ∉ name :: seen) (case_name <$> cases) ↔
    Forall (λ x, x ∉ seen) (case_name <$> cases) ∧ name ∉ case_name <$> cases).
  { rewrite !Forall_forall. setoid_rewrite not_elem_of_cons. split.
    - intros H. split; [intros x Hx; by apply H|]. intros Hx. by destruct (H _ Hx).
    - intros [Ha Hn] x Hx. split; [by intros ->|by apply Ha]. }
  destruct (IH (name :: seen)) as [[-> Hok]|[He Hno]]; [left|right]; (split; [done|tauto]).
Qed.

(** A payload no rule refuses. *)
Definition sized (name : str) (case : EnumCase) : Prop :=
  is_none_payload (case_types case) = false ∧ Forall (λ ty, is_recursive name ty = false) (case_types case).

Lemma check_payloads_decides name (cases : list EnumCase) : decides (check_payloads name cases) (Forall (sized name) cases).
Proof.
  induction cases as [|case cases IH]; simpl; [by left|]. rewrite Forall_cons. unfold sized at 1.
  destruct (is_none_payload _) eqn:Hn; [apply decides_error; naive_solver congruence|].
  destruct (existsb _ _) eqn:He.
  - apply decides_error. intros [[_ Hall] _]. apply existsb_exists in He as (ty & Hty%list_elem_of_In & Hr).
    rewrite Forall_forall in Hall. rewrite (Hall _ Hty) in Hr. done.
  - assert (Forall (λ ty, is_recursive name ty = false) (case_types case)).
    { apply Forall_forall. intros ty Hty%list_elem_of_In. destruct (is_recursive name ty) eqn:Hr; [|done].
      rewrite <- He. symmetry. apply existsb_exists. by exists ty. }
    destruct IH as [[-> ?]|[? ?]]; [left|right]; (split; [done|tauto]).
Qed.

(** The checks of an enum accept exactly the enums whose members' names do not
    clash, whose cases' names are distinct and admissible, and whose payloads
    have a size; otherwise they give an error. *)
Theorem enum_checks_correct name conforms span (cases : list EnumCase) associated methods :
  decides (_ ← check_member_names cases associated methods; check_case_payloads name conforms cases span)
    (let written := (comptime_name <$> associated) ++ (method_name <$> methods) in
     (Forall (λ name, name ∉ SYNTHESIZED_NAMES) written ∧ Forall (admissible written) (case_name <$> cases) ∧
      NoDup (case_name <$> cases)) ∧
     lit "TrivialRegisterPassable" ∉ conforms ∧ Forall (sized name) cases).
Proof.
  cbn zeta. apply decides_bind.
  - unfold check_member_names. apply decides_bind; [apply check_written_names_decides|].
    destruct (check_case_names_decides ((comptime_name <$> associated) ++ (method_name <$> methods)) [] cases) as [[-> H]|[He H]];
      [left|right]; (split; [done|]); [tauto|]. intros [? ?]. apply H. split; [done|]. split; [|done].
    apply Forall_forall. intros x _. apply not_elem_of_nil.
  - unfold check_case_payloads. destruct (contains conforms _) eqn:Hc.
    + apply decides_error. apply contains_spec in Hc. tauto.
    + apply contains_false in Hc. destruct (check_payloads_decides name cases) as [[-> ?]|[? ?]]; [left|right]; tauto.
Qed.
End checks.

(** ** Cutting a payload *)

(** The text between the parentheses on one line, without its comments. *)
Definition one_line (inner : str) : str :=
  concat (map (λ line, take_while (λ c, negb (c =? ch "#")%Z) line ++ lit " ") (lines inner)).

(** Every bracket is closed, and no comma is outside them. *)
Fixpoint nested (depth : nat) (s : str) : bool :=
  match s with
  | [] => (depth =? 0)%nat
  | c :: s =>
      if opens c then nested (S depth) s
      else if closes c then match depth with S depth => nested depth s | O => false end
      else negb ((c =? ch ",")%Z && (depth =? 0)%nat) && nested depth s
  end.

Lemma scan_line_fold st line :
  scan_line st line = fold_left scan_char (take_while (λ c, negb (c =? ch "#")%Z) line ++ lit " ") st.
Proof. unfold scan_line. rewrite fold_left_app. by destruct (fold_left _ _ st) as [[spellings depth] current]. Qed.

Lemma scan_lines_fold ls st :
  fold_left scan_line ls st =
  fold_left scan_char (concat (map (λ line, take_while (λ c, negb (c =? ch "#")%Z) line ++ lit " ") ls)) st.
Proof. revert st. induction ls as [|l ls IH]; intros st; [done|]. simpl. by rewrite IH, scan_line_fold, <- fold_left_app. Qed.

Lemma scan_nested spellings depth current s :
  nested depth s = true → fold_left scan_char s (spellings, depth, current) = (spellings, 0%nat, current ++ s).
Proof.
  revert depth current. induction s as [|c s IH]; intros depth current H; simpl in *.
  { apply Nat.eqb_eq in H as ->. by rewrite app_nil_r. }
  destruct (opens c); [by rewrite IH, <- (assoc_L (++)) by done|].
  destruct (closes c); [destruct depth; [done|]; by rewrite IH, <- (assoc_L (++)) by done|].
  apply andb_true_iff in H as [Hc%negb_true_iff H]. rewrite Hc. by rewrite IH, <- (assoc_L (++)) by done.
Qed.

Lemma scan_pieces ws spellings : ws ≠ [] → Forall (λ w, nested 0 w = true) ws →
  let '(cut, _, current) := fold_left scan_char (join [ch ","] ws) (spellings, 0%nat, []) in
  cut ++ [current] = spellings ++ ws.
Proof.
  revert spellings. induction ws as [|w ws IH]; intros spellings Hne Hws; [done|].
  apply Forall_cons in Hws as [Hw Hws]. destruct ws as [|w' ws]; [simpl; by rewrite scan_nested|].
  cbn [join]. rewrite fold_left_app, scan_nested by done. rewrite fold_left_app.
  change (fold_left scan_char [ch ","] (spellings, 0%nat, [] ++ w)) with (spellings ++ [w], 0%nat, [] : str).
  specialize (IH (spellings ++ [w])). destruct (fold_left _ _ _) as [[cut depth] current].
  rewrite IH by done. by rewrite <- (assoc_L (++)).
Qed.

Lemma scan_inner_pieces inner ws :
  one_line inner = join [ch ","] ws → ws ≠ [] → Forall (λ w, nested 0 w = true) ws → scan_inner inner = ws.
Proof.
  intros Hl Hne Hws. unfold scan_inner. rewrite scan_lines_fold. fold (one_line inner). rewrite Hl.
  pose proof (scan_pieces ws [] Hne Hws) as H. by destruct (fold_left _ _ _) as [[cut depth] current].
Qed.

Lemma before_last_snoc c s : before_last c (s ++ [c]) = Some s.
Proof. unfold before_last. rewrite reverse_snoc. simpl. rewrite Z.eqb_refl. simpl. by rewrite reverse_involutive. Qed.

Lemma split_at_open head rest : ch "(" ∉ head → split_once (Z.eqb (ch "(")) (head ++ ch "(" :: rest) = Some (head, rest).
Proof.
  intros Hh. apply split_once_app; [|apply Z.eqb_refl]. apply Forall_forall. intros c Hc. apply Z.eqb_neq. by intros <-.
Qed.

(** C28: the payload types of a case are spelled between its parentheses: when
    the text there, without comments and line ends, is the texts [ws] with
    commas between them, each with its brackets closed and no comma outside
    them, the spellings are those of [ws] that are not blank, and they are
    returned exactly when they are as many as the types parsed. *)
Theorem payload_spellings_correct {B R} (case : EnumCase B R) (source head inner : str) (ws : list str)
    (Hpayload : case_types case ≠ [])
    (Htext : str_slice source (case_span case).1 (case_span case).2 = Some (head ++ ch "(" :: inner ++ [ch ")"]))
    (Hhead : ch "(" ∉ head) (Hline : one_line inner = join [ch ","] ws) (Hws : ws ≠ [])
    (Hnested : Forall (λ w, nested 0 w = true) ws) :
  let spellings := filter (λ s, s ≠ []) (respell <$> ws) in
  (length spellings = length (case_types case) → payload_spellings case source = Ok spellings) ∧
  (length spellings ≠ length (case_types case) → ∃ e, payload_spellings case source = Err e).
Proof.
  intros spellings. unfold payload_spellings. destruct (case_types case) as [|ty types] eqn:Hp; [done|].
  rewrite Htext. cbn [from_option id]. rewrite split_at_open by done. cbn [mbind option_bind].
  rewrite before_last_snoc, (scan_inner_pieces inner ws) by done. fold spellings.
  destruct (Nat.eqb_spec (length spellings) (length (ty :: types))); split; intros; try done. by eexists.
Qed.

(** ** Relocation *)

Section relocation.
Context {B R : Type}.

(** A statement or expression at [at_]. *)
Definition located_at (at_ : Span) (v : visit (B:=B) (R:=R)) : Prop :=
  match v with VisitStmt s => stmt_span s = at_ | VisitExpr e => expr_span e = at_ | _ => True end.

#[export] Instance relocate_tracks (at_ : Span) : Tracks (Relocate (B:=B) (R:=R) at_).
Proof.
  refine {| same := False; after _ l _ := Forall (located_at at_) l |}; simpl.
  - constructor.
  - intros _ l _ l1 _ H H1. by apply Forall_app.
  - intros _ l l' _ Hp. by rewrite Hp.
  - intros kind span s. eexists _, _. split; [reflexivity|]. split; [done|]. by repeat constructor.
  - intros kind span s. eexists _, _. split; [reflexivity|]. split; [done|]. by repeat constructor.
  - intros ty s. eexists. split; [reflexivity|]. by repeat constructor.
  - intros kind span s. eexists _, _. split; [reflexivity|]. split; [done|]. by repeat constructor.
  - intros kind span s. eexists _, _. split; [reflexivity|]. split; [done|]. by repeat constructor.
  - done.
Defined.

(** Relocation ends, and every statement and expression of a covered block is
    then at the place given. *)
Theorem relocate_block_located (n : nat) (at_ : Span) (body : list (Stmt B R))
    (Hcovered : Forall (λ v, covered v = true) (walk_block body)) (Hn : (length (walk_block body) ≤ n)%nat) :
  ∃ body', relocate_block n at_ body = Ok body' ∧ Forall (located_at at_) (walk_block body').
Proof.
  destruct (block_walked (Relocate at_) body n tt Hcovered Hn) as (body' & [] & Hr & _ & Hl).
  exists body'. split; [|exact Hl]. unfold relocate_block. by rewrite Hr.
Qed.
End relocation.

(** ** Examples *)

Section examples.
#[local] Existing Instance ascii_tables.

(** Evaluation with no character beyond ASCII printed as it is. *)
#[local] Instance ascii_debug : DebugTable := { prints_as_is _ := false }.

Definition token_enum : str :=
  source_of ["enum Token(Writable):"; "    case eof"; "    case ident(String)"; "    case span(List[Int, 2],  Self.T)"].

Definition ascii_module (source : str) : outcome (ParseError Z Qcanon.Qc) (list (Stmt Z Qcanon.Qc)) :=
  parse_module 3000 source.

(** The names of the fields, of the compile-time members and of the methods of
    a module of one struct. *)
Definition member_names (program : outcome (ParseError Z Qcanon.Qc) (list (Stmt Z Qcanon.Qc))) : option (list (list str)) :=
  match program with
  | Ok [mkStmt (SStruct _ _ _ _ _ _ _ fields associated methods _ _) _] =>
      Some [fst <$> fields; comptime_name <$> associated; method_name <$> methods]
  | _ => None
  end.

Example token_members : member_names (ascii_module token_enum) = Some (map (map lit)
  [["__enum_storage"]; ["_enum_case_names"; "_enum_case_types"; "eof"];
   ["ident"; "span"; "__enum_init"; "__get_enum_storage"; "_get_enum_discriminant"; "_unsafe_get_enum_payload";
    "write_to"; "write_repr_to"]]).
Proof. vm_compute. reflexivity. Qed.

(** [case span(List[Int, 2], # two] and [Self.T)]. *)
Definition span_case : EnumCase Z Qcanon.Qc :=
  mkEnumCase (lit "span") [TyNamed (lit "List") []; TySelfParam (lit "T")] (0, 39)%nat.
Definition span_source : str := lit "case span(List[Int, 2], # two" ++ [newline] ++ lit "  Self.T)".

Lemma payload_spellings_correct_witness :
  case_types span_case ≠ [] ∧ payload_spellings span_case span_source = Ok [lit "List[Int, 2]"; lit "Self.T"].
Proof.
  split; [done|].
  destruct (payload_spellings_correct span_case span_source (lit "case span")
    (lit "List[Int, 2], # two" ++ [newline] ++ lit "  Self.T") [lit "List[Int, 2]"; lit "    Self.T "]) as [H _];
    [done|reflexivity|by intros H%list_elem_of_In; vm_compute in H; intuition|reflexivity|done|by repeat constructor|].
  exact (H eq_refl).
Defined.

(** A number sign in a string of a payload is taken for a comment. *)
Definition hash_enum : str :=
  lit "enum E:" ++ [newline] ++ lit "    case a(F[" ++ quote ++ lit "#" ++ quote ++ lit "])" ++ [newline].
Definition hash_case : EnumCase Z Qcanon.Qc := mkEnumCase (lit "a") [TyNamed (lit "F") []] (12, 26)%nat.

Lemma hash_payload_cut :
  payload_spellings hash_case hash_enum = Ok [lit "F[" ++ quote] ∧
  (∃ program, parse_source (B:=Z) (R:=Qcanon.Qc) 3000 hash_enum = Ok program) ∧ ∃ e, ascii_module hash_enum = Err e.
Proof.
  split; [vm_compute; reflexivity|].
  split; eexists; vm_compute; reflexivity.
Qed.
End examples.
