(* ===== verification/Operators.v ===== *)
(** * Operators: operator precedence

    An operator tree has names, literals, prefix and infix operators,
    conditional expressions and assignment expressions.  [print] writes one
    with the fewest parentheses that a table of levels ([level], [right_level])
    of its own allows,
    and [tree_of] reads one back from a syntax tree, whose spans it forgets.
    Parsing what [print] writes gives the tree back: the climbing of
    [parse_expression] implements the levels, their associativities and the
    prefix operators' reach. *)

From Stdlib Require Import Ascii String.
From S2P Require Import Prelude Text Literal Token Lexer Dtypes Ast Parser ParseTypes ParseExprs ParseProgram ParseLexer.

Notation rank := Precedence.rank.

Section operators.
Context {B R : Type}.
Notation Token := (Token B R).
Notation Expr := (Expr B R).

(** ** Trees and their text *)

Inductive tree : Type :=
| OName (name : str)
| OInt (v : IntLiteral B)
| OFloat (v : FloatLiteral R)
| OBool (b : bool)
| ONone
| OPrefix (op : PrefixOp) (operand : tree)
| OInfix (op : InfixOp) (lhs rhs : tree)
| ONamed (target value : tree)
| OIf (cond then_branch else_branch : tree).

Fixpoint tree_of (e : Expr) : option tree :=
  let 'mkExpr kind _ := e in
  match kind with
  | EIdentifier name => Some (OName name)
  | EInt v => Some (OInt v)
  | EFloat v => Some (OFloat v)
  | EBool b => Some (OBool b)
  | ENone => Some ONone
  | EPrefix op e => OPrefix op <$> tree_of e
  | EInfix op l r => l ← tree_of l; r ← tree_of r; Some (OInfix op l r)
  | ENamed l r => l ← tree_of l; r ← tree_of r; Some (ONamed l r)
  | EIfExpr c l r => c ← tree_of c; l ← tree_of l; r ← tree_of r; Some (OIf c l r)
  | _ => None
  end.

Definition prefix_token (op : PrefixOp) : Token :=
  match op with PrefixNeg => Minus | PrefixPos => Plus | PrefixInvert => Tilde | PrefixNot => Token.Not end.

(** How far a prefix operator reaches. *)
Definition prefix_reach (op : PrefixOp) : Precedence :=
  match op with PrefixNot => Precedence.Not | _ => Precedence.Unary end.

Definition infix_tokens (op : InfixOp) : list Token :=
  match op with
  | Add => [Plus] | Sub => [Minus] | Mul => [Star] | Div => [Slash] | FloorDiv => [DoubleSlash] | Mod => [Percent]
  | MatMul => [At] | Shl => [Token.Shl] | Shr => [Token.Shr] | BitAnd => [Amp] | BitOr => [Pipe] | BitXor => [Caret]
  | Pow => [DoubleStar] | Eq_ => [EqEq] | Ne => [NotEq] | Lt_ => [TLt] | Gt_ => [TGt] | Le => [TLe] | Ge => [TGe]
  | And => [Token.And] | Or => [Token.Or] | In_ => [Token.In] | NotIn => [Token.Not; Token.In]
  | Is => [Token.Is] | IsNot => [Token.Is; Token.Not]
  end.

(** The reference table: the level of an infix operator. *)
Definition level (op : InfixOp) : Precedence :=
  match op with
  | Or => Precedence.Or
  | And => Precedence.And
  | Eq_ | Ne | Lt_ | Gt_ | Le | Ge | In_ | NotIn | Is | IsNot => Precedence.Comparison
  | BitOr => Precedence.BitOr
  | BitXor => Precedence.BitXor
  | BitAnd => Precedence.BitAnd
  | Shl | Shr => Precedence.Shift
  | Add | Sub => Precedence.Sum
  | Mul | Div | FloorDiv | Mod | MatMul => Precedence.Product
  | Pow => Precedence.Power
  end.

(** The operand on the right is read above the operator's own level, so that the
    operator is left-associative; that of a power is a unary expression, so that
    a power is right-associative and its exponent takes a sign. *)
Definition right_level (op : InfixOp) : Precedence :=
  match op with Pow => Precedence.Unary | op => level op end.

(** The highest level of what may follow the operator's last operand: an equal
    level ends a left-associative one, and continues a comparison or a power. *)
Definition edge (op : InfixOp) : Precedence :=
  match right_level op with Precedence.Comparison => Precedence.Not | p => p end.

(** Whether [t] needs no parentheses where only levels above [min] are read and
    an operator of the level [follow] comes next. *)
Definition fits (t : tree) (min follow : nat) : bool :=
  match t with
  | OPrefix op _ => (follow <=? rank (prefix_reach op))%nat
  | OInfix op _ _ => (min <? rank (level op))%nat && (follow <=? rank (edge op))%nat
  | ONamed _ _ => (min <? rank Precedence.Walrus)%nat && (follow =? 0)%nat
  | OIf _ _ _ => (min <? rank Precedence.Conditional)%nat && (follow =? 0)%nat
  | _ => true
  end.

(** [is not] is one operator. *)
Definition clings (op : InfixOp) (rhs : tree) : bool :=
  match op, rhs with Is, OPrefix PrefixNot _ => true | _, _ => false end.

Definition parens (inner : list Token) : list Token := LParen :: inner ++ [RParen].

Fixpoint body (t : tree) (min follow : nat) : list Token :=
  let print t min follow := if fits t min follow then body t min follow else parens (body t 0 0) in
  match t with
  | OName name => [Identifier name]
  | OInt v => [IntLit v []]
  | OFloat v => [FloatLit v []]
  | OBool b => [BoolLiteral b]
  | ONone => [NoneKw]
  | OPrefix op t => prefix_token op :: print t (rank (prefix_reach op)) follow
  | OInfix op l r =>
      let min_right := rank (right_level op) in
      print l min (rank (level op)) ++ infix_tokens op ++
        (if clings op r then parens (body r 0 0) else print r min_right follow)
  | ONamed l r => print l min (rank Precedence.Walrus) ++ [ColonEq] ++ print r 0%nat 0%nat
  | OIf c l r =>
      print l min (rank Precedence.Conditional) ++ [If] ++ print c (rank Precedence.Conditional) 0%nat ++
        [Else] ++ print r 0%nat 0%nat
  end.

Definition print (t : tree) (min follow : nat) : list Token :=
  if fits t min follow then body t min follow else parens (body t 0 0).

(** A literal's text is not looked at. *)
Definition unspelled (t : Token) : Token :=
  match t with IntLit v _ => IntLit v [] | FloatLit v _ => FloatLit v [] | t => t end.

Definition texts (items : list (Token * Span)) : list Token := map (λ item, unspelled item.1) items.

(** ** First tokens *)

Lemma body_head t m f : ∃ u us, body t m f = u :: us ∧ is_token RParen u = false.
Proof.
  revert m f. induction t as [| | | | |op t IH|op l IHl r IHr|l IHl r IHr|c IHc l IHl r IHr]; intros m f; simpl;
    try by eexists _, _.
  - destruct op; by eexists _, _.
  - case_match; [destruct (IHl m (rank (level op))) as (u & us & -> & ?)|]; by eexists _, _.
  - case_match; [destruct (IHl m 1%nat) as (u & us & -> & ?)|]; by eexists _, _.
  - case_match; [destruct (IHl m 2%nat) as (u & us & -> & ?)|]; by eexists _, _.
Qed.

(** A tree that is followed by more than a comparison does not start with [not]. *)
Lemma level_edge op : (rank (edge op) ≤ rank (level op))%nat.
Proof. destruct op; simpl; lia. Qed.

Lemma print_not t m f : (rank Precedence.Not < f)%nat → ∃ u us, print t m f = u :: us ∧ is_token Token.Not u = false.
Proof.
  revert m f. unfold print. induction t as [| | | | |op t IH|op l IHl r IHr|l IHl r IHr|c IHc l IHl r IHr]; intros m f Hf; simpl.
  1-5: by eexists _, _.
  - destruct (Nat.leb_spec f (rank (prefix_reach op))) as [Hle|_]; [|by eexists _, _].
    destruct op; simpl in *; try lia; by eexists _, _.
  - destruct (_ && _) eqn:Hfit; [|by eexists _, _]. apply andb_true_iff in Hfit as [_ Hle%Nat.leb_le].
    pose proof (level_edge op). destruct (IHl m (rank (level op))) as (u & us & -> & ?); [lia|]. by eexists _, _.
  - destruct (_ && _) eqn:Hfit; [|by eexists _, _]. apply andb_true_iff in Hfit as [_ Hle%Nat.eqb_eq]. lia.
  - destruct (_ && _) eqn:Hfit; [|by eexists _, _]. apply andb_true_iff in Hfit as [_ Hle%Nat.eqb_eq]. lia.
Qed.

(** The operand of a comparison starts with [not] only as a whole. *)
Lemma comparand_head r f : clings Is r = false → ∃ u us, print r (rank Precedence.Comparison) f = u :: us ∧ is_token Token.Not u = false.
Proof.
  unfold print. destruct r as [| | | | |op t|op l r|l r|c l r]; simpl; intros Hc; try by eexists _, _.
  - destruct op; try done; case_match; by eexists _, _.
  - destruct (_ && _) eqn:Hfit; [|by eexists _, _]. apply andb_true_iff in Hfit as [Hlt%Nat.ltb_lt _].
    destruct (print_not l 6 (rank (level op))) as (u & us & Hp & ?); [simpl; lia|]. unfold print in Hp. rewrite Hp. by eexists _, _.
Qed.
End operators.

(** ** Reading tokens *)

Section reading.
Context {B R I : Type} `{!TokenStream B R I, !Rendered B R, !CaseTable}.
Notation Token := (Token B R).
Notation Expr := (Expr B R).
Notation Parser := (Parser I).
Notation P := (P B R I).
Notation tree := (tree (B:=B) (R:=R)).
Notation reached s := (s.(last_span).2).

(** The parser consumes the items from [s] to [s']. *)
Inductive read : Parser → list (Token * Span) → Parser → Prop :=
| read_nil s : read s [] s
| read_cons s i item items s' :
    next_item s.(tokens) = (Ok (Some item), i) → read (consumed s i (Some item)) items s' → read s (item :: items) s'.

(** From [e] on, tokens end in order and a caret is not adjacent to what it
    follows, where it would be a transfer. *)
Fixpoint gaps (e : nat) (items : list (Token * Span)) : Prop :=
  match items with
  | [] => True
  | (t, (a, b)) :: items => (t = Caret → (e < a)%nat) ∧ (e ≤ b)%nat ∧ gaps b items
  end.

(** What follows is of level [f] at most. *)
Definition follows (s : Parser) (f : nat) : Prop :=
  match fst (next_item s.(tokens)) with
  | Ok None => True
  | Ok (Some (t, span)) => (rank (token_precedence t) ≤ f)%nat ∧ (t = Caret → (reached s < span.1)%nat)
  | _ => False
  end.

Lemma read_step s item items s' :
  read s (item :: items) s' →
  ∃ i, next_item s.(tokens) = (Ok (Some item), i) ∧ read (consumed s i (Some item)) items s'.
Proof. inversion_clear 1. by eexists. Qed.

Lemma read_none s s' : read s [] s' → s' = s.
Proof. by inversion 1. Qed.

Lemma read_app s items1 items2 s2 : read s (items1 ++ items2) s2 → ∃ s1, read s items1 s1 ∧ read s1 items2 s2.
Proof.
  revert s. induction items1 as [|item items1 IH]; intros s; simpl; [by exists s; split; [constructor|]|].
  intros (i & Hn & Hr)%read_step. destruct (IH _ Hr) as (s1 & ? & ?). exists s1. split; [by econstructor|done].
Qed.

(** The end of the last item. *)
Fixpoint final (e : nat) (items : list (Token * Span)) : nat :=
  match items with [] => e | (_, span) :: items => final span.2 items end.

Lemma read_final s items s' : read s items s' → reached s' = final (reached s) items.
Proof. induction 1 as [|s i [t [a b]] items s' _ _ IH]; [done|]. by rewrite IH. Qed.

Lemma gaps_app e items1 items2 : gaps e (items1 ++ items2) ↔ gaps e items1 ∧ gaps (final e items1) items2.
Proof. revert e. induction items1 as [|[t [a b]] items1 IH]; intros e; simpl; [naive_solver|]. rewrite IH. naive_solver. Qed.

Lemma gaps_final e items : gaps e items → (e ≤ final e items)%nat.
Proof. revert e. induction items as [|[t [a b]] items IH]; intros e; simpl; [done|]. intros (_ & ? & Hg). apply IH in Hg. lia. Qed.

Lemma follows_mono s f f' : follows s f → (f ≤ f')%nat → follows s f'.
Proof. unfold follows. destruct (fst _) as [[[]|]| | |]; try done. intros [? ?] ?. split; [lia|done]. Qed.

(** Reading leaves the following items ahead. *)
Lemma read_follows s t span items s' f :
  read s ((t, span) :: items) s' → gaps (reached s) ((t, span) :: items) → (rank (token_precedence t) ≤ f)%nat → follows s f.
Proof. intros (i & Hn & _)%read_step. destruct span. unfold follows. rewrite Hn. intros (Hc & _) ?. by split. Qed.

(** ** Steps *)

Lemma peek_read s t span items s' : read s ((t, span) :: items) s' → peek_token s = (Ok (Some t), s).
Proof. intros (i & Hn & _)%read_step. unfold peek_token. by rewrite Hn. Qed.

Lemma next_read s t span items s' :
  read s ((t, span) :: items) s' → ∃ s1, next_token s = (Ok t, s1) ∧ read s1 items s' ∧ reached s1 = span.2 ∧ peek_start s = (Ok span.1, s).
Proof.
  intros (i & Hn & Hr)%read_step. eexists. split; [unfold next_token; by rewrite Hn|]. split; [done|]. split; [done|].
  unfold peek_start. by rewrite Hn.
Qed.

Lemma peek_matches_read p s t span items s' :
  read s ((t, span) :: items) s' → peek_matches p s = (Ok (p t), s).
Proof. intros Hr. unfold peek_matches, mbind, P_bind. by rewrite (peek_read _ _ _ _ _ Hr). Qed.

Lemma peek_follows s f :
  follows s f → ∃ o, peek_token s = (Ok o, s) ∧ (rank (from_option token_precedence Precedence.Lowest o) ≤ f)%nat.
Proof.
  unfold follows, peek_token. destruct (fst _) as [[[t span]|]| | |]; try done; [intros [? _]; by exists (Some t)|].
  intros _. exists None. split; [done|]. simpl. lia.
Qed.

Lemma no_transfer s f left : follows s f → ((expr_span left).2 ≤ reached s)%nat → peek_transfer left s = (Ok false, s).
Proof.
  unfold follows, peek_transfer, mbind, P_bind. intros Hf Hle.
  destruct (next_item (tokens s)) as [[[[t span]|]| | |] i] eqn:E; try done.
  - assert (peek_is Caret s = (Ok (is_token Caret t), s)) as ->.
    { unfold peek_is, peek_matches, mbind, P_bind, peek_token. by rewrite E. }
    destruct (is_token Caret t) eqn:Ht; [|done]. assert (t = Caret) as -> by by destruct t.
    destruct Hf as [_ Hc]. specialize (Hc eq_refl). unfold peek_start. rewrite E. simpl in *.
    rewrite bool_decide_eq_false_2; [done|lia].
  - unfold peek_is, peek_matches, mbind, P_bind, peek_token. by rewrite E.
Qed.

(** ** Climbing *)

(** One round of [parse_expression_from]. *)
Definition climb (rec : Rec B R I) (min : Precedence) (left : Expr) : P (Expr + Expr) :=
  transfer ← peek_transfer left;
  precedence ← (if transfer : bool then mret Precedence.Call else peek_precedence);
  if Precedence.leb precedence min then mret (inr left) else inl <$> parse_infix rec left.

Lemma climb_stops rec min f left s :
  follows s f → (f ≤ rank min)%nat → ((expr_span left).2 ≤ reached s)%nat → climb rec min left s = (Ok (inr left), s).
Proof.
  intros Hf Hm Hl. unfold climb, mbind at 1, P_bind at 1. rewrite (no_transfer s f) by done.
  destruct (peek_follows s f Hf) as (o & Ho & Hr). unfold peek_precedence, mbind, P_bind. rewrite Ho. cbn.
  unfold Precedence.leb. destruct (Nat.leb_spec (rank match o with Some t => token_precedence t | None => Precedence.Lowest end) (rank min)); [done|].
  destruct o; simpl in *; lia.
Qed.

Lemma climb_goes rec min t span items left s s' :
  read s ((t, span) :: items) s' → gaps (reached s) ((t, span) :: items) → ((expr_span left).2 ≤ reached s)%nat →
  (rank min < rank (token_precedence t))%nat → climb rec min left s = (inl <$> parse_infix rec left) s.
Proof.
  intros Hr Hg Hl Hm. unfold climb, mbind at 1, P_bind at 1.
  rewrite (no_transfer s (rank (token_precedence t))) by (done || by eapply read_follows).
  unfold peek_precedence, mbind, P_bind. rewrite (peek_read _ _ _ _ _ Hr). cbn. unfold Precedence.leb.
  destruct (Nat.leb_spec (rank (token_precedence t)) (rank min)); [lia|done].
Qed.

(** [e] is [t], read up to [s]. *)
Definition built (t : tree) (e : Expr) (s : Parser) : Prop := tree_of e = Some t ∧ ((expr_span e).2 ≤ reached s)%nat.

Lemma node_built kind start t s : tree_of (mkExpr kind (0, 0)%nat) = Some t →
  ∃ e, node kind start s = (Ok e, s) ∧ built t e s.
Proof. intros Ht. eexists. split; [done|]. by split. Qed.

(** A text of [t] that [ok] allows is parsed, and then the climbing goes on. *)
Definition climbs (t : tree) (ok : nat → nat → list Token → Prop) : Prop :=
  ∀ n m f s s1 items,
    ok m f (texts items) → read s items s1 → gaps (reached s) items → follows s1 f → (length items ≤ n)%nat →
    ∃ e j, built t e s1 ∧ (j < length items)%nat ∧ ∀ min F, rank min = m →
      (left ← parse_prefix (parsers n); loop (j + F) (climb (parsers n) min) left) s = loop F (climb (parsers n) min) e s1.

Definition bare_text (t : tree) (m f : nat) (text : list Token) : Prop := fits t m f = true ∧ text = body t m f.
(** Printed, or parenthesised although it fits. *)
Definition printed (bare : bool) (t : tree) (m f : nat) (text : list Token) : Prop :=
  text = if bare then print t m f else parens (body t 0 0).

(** An operand is parsed. *)
Lemma expression_read t ok n min f s s1 items :
  climbs t ok → ok (rank min) f (texts items) → read s items s1 → gaps (reached s) items → follows s1 f →
  (f ≤ rank min)%nat → (length items < n)%nat → ∃ e, (parsers n).(expression) min s = (Ok e, s1) ∧ built t e s1.
Proof.
  intros Ht Htext Hr Hg Hf Hm Hn. destruct n as [|n]; [lia|].
  destruct (Ht n (rank min) f s s1 items) as (e & j & He & Hj & Hrun); [done..|lia|].
  exists e. split; [|done]. change ((left ← parse_prefix (parsers n); loop (parsers n).(fuel) (climb (parsers n) min) left) s = (Ok e, s1)).
  assert ((parsers (B:=B) (R:=R) (I:=I) n).(fuel) = j + S (n - S j))%nat as -> by (destruct n; simpl; lia).
  rewrite Hrun by done. cbn [loop]. unfold mbind, P_bind. by rewrite (climb_stops _ _ f) by (done || apply He).
Qed.

Lemma bind_ok {A C} (m : P A) (f : A → P C) s a s' : m s = (Ok a, s') → (m ≫= f) s = f a s'.
Proof. unfold mbind, P_bind. by intros ->. Qed.

Lemma texts_cons (items : list (Token * Span)) u us :
  texts items = u :: us → ∃ t span items', items = (t, span) :: items' ∧ unspelled t = u ∧ texts items' = us.
Proof. destruct items as [|[t span] items']; [done|]. intros [= <- <-]. by eexists _, _, _. Qed.

Lemma texts_app (items : list (Token * Span)) us1 us2 :
  texts items = us1 ++ us2 → ∃ items1 items2, items = items1 ++ items2 ∧ texts items1 = us1 ∧ texts items2 = us2.
Proof. intros (items1 & items2 & -> & <- & <-)%map_eq_app. by exists items1, items2. Qed.

Lemma unspelled_is (u t : Token) : unspelled t = u → ∀ e, is_token e t = is_token e u.
Proof. intros <- e. by destruct t. Qed.

Lemma read_one s t span s' : read s [(t, span)] s' → next_token s = (Ok t, s') ∧ reached s' = span.2.
Proof. intros (s1 & Hn & Hr & Hs & _)%next_read. inversion Hr. by subst. Qed.

Lemma built_le t e s s' : built t e s → (reached s ≤ reached s')%nat → built t e s'.
Proof. intros [? ?] ?. split; [done|lia]. Qed.

Lemma print_climbs bare t : climbs t (bare_text t) → climbs t (printed bare t).
Proof.
  intros Ht n m f s s1 items Htext Hr Hg Hf Hn. unfold printed, print in Htext.
  destruct (bare && fits t m f) eqn:Hfit.
  { apply andb_true_iff in Hfit as [-> Hfit]. rewrite Hfit in Htext. by apply (Ht n m f). }
  replace (if bare then _ else _) with (parens (body t 0 0)) in Htext by (by destruct bare, (fits t m f)). clear bare Hfit.
  apply texts_cons in Htext as (open & sp1 & items' & -> & Hopen & Htext).
  apply texts_app in Htext as (inner & close & -> & Hinner & Hclose).
  apply texts_cons in Hclose as (close' & sp2 & [|? ?] & -> & Hclose & Hnil); [|done].
  assert (open = LParen) as -> by by destruct open. assert (close' = RParen) as -> by by destruct close'.
  destruct (next_read _ _ _ _ _ Hr) as (s2 & Hnext & Hr2 & Hreach & Hstart).
  apply read_app in Hr2 as (s3 & Hr2 & Hr3). destruct sp1 as [a1 b1]. simpl in Hg, Hreach. destruct Hg as (_ & Hle & Hg).
  rewrite <- Hreach in Hg. apply gaps_app in Hg as [Hg2 Hg3]. rewrite <- (read_final _ _ _ Hr2) in Hg3.
  simpl in Hn. rewrite length_app in Hn. simpl in Hn.
  destruct (expression_read t (bare_text t) n Precedence.Lowest 0 s2 s3 inner) as (e & He & Hb); try done.
  { split; [|done]. by destruct t as [| | | | |op ?|[] ? ?|? ?|? ? ?]. }
  { eapply read_follows; [exact Hr3|exact Hg3|done]. }
  { lia. }
  destruct (read_one _ _ _ _ Hr3) as [Hnext3 Hreach3].
  exists e, 0%nat. split; [eapply built_le; [done|]|split; [simpl; lia|]].
  { rewrite Hreach3. destruct sp2. simpl in *. lia. }
  intros min F _. apply bind_ok. unfold parse_prefix. rewrite (bind_ok _ _ _ _ _ Hstart), (bind_ok _ _ _ _ _ Hnext).
  unfold parse_paren. destruct (body_head t 0 0) as (u & us & Hhead & Hu). rewrite <- Hinner in Hhead.
  apply texts_cons in Hhead as (t' & sp' & rest & -> & Ht' & _).
  assert (skip_if RParen s2 = (Ok false, s2)) as Hskip.
  { unfold skip_if, peek_is. rewrite (bind_ok _ _ _ _ _ (peek_matches_read _ _ _ _ _ _ Hr2)).
    by rewrite (unspelled_is u t' Ht' RParen), Hu. }
  rewrite (bind_ok _ _ _ _ _ Hskip). cbn iota. rewrite (bind_ok _ _ _ _ _ He). unfold peek_is.
  rewrite (bind_ok _ _ _ _ _ (peek_matches_read _ _ _ _ _ _ Hr3)). change (is_token Comma RParen) with false. cbn iota.
  assert (expect RParen "Expected closing ')' after expression" s3 = (Ok tt, s1)) as Hexpect.
  { unfold expect. by rewrite (bind_ok _ _ _ _ _ Hnext3). }
  by rewrite (bind_ok _ _ _ _ _ Hexpect).
Qed.

(** ** Infix forms *)

(** The left operand, then one round for the operator. *)
Lemma infix_round t l n m s sl s1 il tok span io :
  climbs l (printed true l) → texts il = print l m (rank (token_precedence tok)) →
  read s il sl → read sl ((tok, span) :: io) s1 → gaps (reached s) (il ++ (tok, span) :: io) →
  (m < rank (token_precedence tok))%nat → (length il ≤ n)%nat →
  (∀ left, built l left sl → ∃ e, built t e s1 ∧ parse_infix (parsers n) left sl = (Ok e, s1)) →
  ∃ e j, built t e s1 ∧ (j < length (il ++ (tok, span) :: io))%nat ∧ ∀ min F, rank min = m →
    (left ← parse_prefix (parsers n); loop (j + F) (climb (parsers n) min) left) s = loop F (climb (parsers n) min) e s1.
Proof.
  intros Hl Htext Hr Hro Hg Hm Hn Hparse. apply gaps_app in Hg as [Hgl Hgo]. rewrite <- (read_final _ _ _ Hr) in Hgo.
  destruct (Hl n m (rank (token_precedence tok)) s sl il) as (left & j & Hb & Hj & Hrun); try done.
  { by eapply read_follows. }
  destruct (Hparse left Hb) as (e & He & Hinfix). exists e, (S j). split; [done|]. split; [rewrite length_app; simpl; lia|].
  intros min F Hmin. replace (S j + F)%nat with (j + S F)%nat by lia. rewrite Hrun by done. cbn [loop].
  assert (climb (parsers n) min left sl = (Ok (inl e), s1)) as Hc.
  { rewrite (climb_goes _ _ _ _ _ _ _ _ Hro Hgo) by (apply Hb || by rewrite Hmin).
    unfold fmap, P_fmap. by rewrite (bind_ok _ _ _ _ _ Hinfix). }
  by rewrite (bind_ok _ _ _ _ _ Hc).
Qed.

(** A token that is no suffix, assignment expression or condition. *)
Definition is_operator (t : Token) : bool := match t with Dot | LBracket | LParen | ColonEq | If => false | _ => true end.

Lemma infix_operator rec l left s tok span items s' :
  read s ((tok, span) :: items) s' → gaps (reached s) ((tok, span) :: items) → built l left s → is_operator tok = true →
  parse_infix rec left s = (if is_comparison tok then parse_chain rec left (expr_span left).1 else parse_binary rec left (expr_span left).1) s.
Proof.
  intros Hr Hg [_ Hl] Ht. unfold parse_infix.
  assert (peek_transfer left s = (Ok false, s)) as Htr by (eapply no_transfer; [by eapply read_follows|done]).
  rewrite (bind_ok _ _ _ _ _ Htr). cbn iota. rewrite (bind_ok _ _ _ _ _ (peek_read _ _ _ _ _ Hr)).
  pose proof (bind_ok (peek_is_comparison (B:=B) (R:=R) (I:=I))
    (λ b, if b : bool then parse_chain rec left (expr_span left).1 else parse_binary rec left (expr_span left).1)
    _ _ _ (peek_matches_read is_comparison _ _ _ _ _ Hr)) as Hgo.
  by destruct tok.
Qed.

(** The parser's binding powers are the table's. *)
Lemma infix_right_level op : infix_precedence op = right_level op.
Proof. by destruct op. Qed.

(** A binary operator's token. *)
Lemma binary_token op : infix_precedence op ≠ Precedence.Comparison →
  ∃ tok : Token, infix_tokens op = [tok] ∧ binary_op tok = Some op ∧ token_precedence tok = level op ∧
    is_comparison tok = false ∧ is_operator tok = true ∧ (∀ t, unspelled t = tok → t = tok).
Proof. destruct op; try done; intros _; eexists; (split; [reflexivity|]); split_and!; try done; by intros []. Qed.

(** A comparison's first token. *)
Lemma comparison_token op : infix_precedence op = Precedence.Comparison →
  ∃ (tok : Token) toks, infix_tokens op = tok :: toks ∧ token_precedence tok = level op ∧
    is_comparison tok = true ∧ is_operator tok = true ∧ (∀ t, unspelled t = tok → t = tok).
Proof. destruct op; try done; intros _; eexists _, _; (split; [reflexivity|]); split_and!; try done; by intros []. Qed.

(** The state after a token. *)
Lemma gaps_next s t span items s' :
  read s ((t, span) :: items) s' → gaps (reached s) ((t, span) :: items) →
  ∃ s1, next_token s = (Ok t, s1) ∧ read s1 items s' ∧ gaps (reached s1) items ∧ (reached s ≤ reached s1)%nat.
Proof.
  intros (s1 & Hn & Hr & Hs & _)%next_read. destruct span as [a b]. simpl in *. intros (_ & ? & Hg).
  exists s1. by rewrite Hs.
Qed.

Lemma read_reached s items s' : read s items s' → gaps (reached s) items → (reached s ≤ reached s')%nat.
Proof. intros Hr Hg%gaps_final. by rewrite (read_final _ _ _ Hr). Qed.

Lemma binary_read op l r bare n f left s s1 tok span ir :
  climbs r (printed bare r) → built l left s → read s ((tok, span) :: ir) s1 → gaps (reached s) ((tok, span) :: ir) →
  binary_op tok = Some op → printed bare r (rank (infix_precedence op)) f (texts ir) →
  follows s1 f → (f ≤ rank (infix_precedence op))%nat → (length ir < n)%nat →
  ∃ e, built (OInfix op l r) e s1 ∧ parse_binary (parsers n) left (expr_span left).1 s = (Ok e, s1).
Proof.
  intros Hclimb [Hl _] Hr Hg Hop Htext Hf Hle Hn. destruct (gaps_next _ _ _ _ _ Hr Hg) as (s2 & Hnext & Hr2 & Hg2 & _).
  destruct (expression_read r _ n (infix_precedence op) f s2 s1 ir Hclimb) as (right & He & [Hb _]); [done..|].
  eexists. split; [|unfold parse_binary; rewrite (bind_ok _ _ _ _ _ Hnext), Hop; rewrite (bind_ok _ _ _ _ _ He); reflexivity].
  split; [|done]. simpl. by rewrite Hl, Hb.
Qed.

(** *** Comparisons *)

Lemma comparison_op_read op s s1 iop t span rest :
  infix_precedence op = Precedence.Comparison → texts iop = infix_tokens op →
  read s (iop ++ (t, span) :: rest) s1 → gaps (reached s) (iop ++ (t, span) :: rest) →
  (op = Is → is_token Token.Not t = false) →
  ∃ s2, parse_comparison_op s = (Ok op, s2) ∧ read s2 ((t, span) :: rest) s1 ∧ gaps (reached s2) ((t, span) :: rest).
Proof.
  intros Hop Htext Hr Hg Hnot.
  assert (∃ tok toks, infix_tokens op = tok :: toks ∧ ∀ t : Token, unspelled t = tok → t = tok) as (tok & toks & Htoks & Htok).
  { destruct (comparison_token op Hop) as (tok & toks & ? & _ & _ & _ & ?). by exists tok, toks. }
  rewrite Htoks in Htext. apply texts_cons in Htext as (tok' & sp & iop' & -> & ->%Htok & Htext').
  destruct (gaps_next _ _ _ _ _ Hr Hg) as (s2 & Hnext & Hr2 & Hg2 & _).
  unfold parse_comparison_op. rewrite (bind_ok _ _ _ _ _ Hnext).
  assert (Hskip : op = Is → toks = [] → skip_if Token.Not s2 = (Ok false, s2)).
  { intros Hi ->. destruct iop'; [|done]. unfold skip_if, peek_is.
    rewrite (bind_ok _ _ _ _ _ (peek_matches_read _ _ _ _ _ _ Hr2)). by rewrite (Hnot Hi). }
  destruct op; try done; injection Htoks as <- <-.
  1-7: destruct iop'; [|done]; by exists s2.
  - apply texts_cons in Htext' as (u & sp' & [|? ?] & -> & Hu & ?); [|done]. assert (u = Token.In) as -> by by destruct u.
    destruct (gaps_next _ _ _ _ _ Hr2 Hg2) as (s3 & Hnext3 & ? & ? & _). exists s3. split; [|done].
    assert (expect Token.In "Expected 'in' after 'not' in a membership test" s2 = (Ok tt, s3)) as Hex.
    { unfold expect. by rewrite (bind_ok _ _ _ _ _ Hnext3). }
    by rewrite (bind_ok _ _ _ _ _ Hex).
  - destruct iop'; [|done]. exists s2. by rewrite (bind_ok _ _ _ _ _ (Hskip eq_refl eq_refl)).
  - apply texts_cons in Htext' as (u & sp' & [|? ?] & -> & Hu & ?); [|done]. assert (u = Token.Not) as -> by by destruct u.
    destruct (gaps_next _ _ _ _ _ Hr2 Hg2) as (s3 & Hnext3 & ? & ? & _). exists s3. split; [|done].
    assert (skip_if Token.Not s2 = (Ok true, s3)) as Hex.
    { unfold skip_if, peek_is. rewrite (bind_ok _ _ _ _ _ (peek_matches_read _ _ _ _ _ _ Hr2)).
      change (is_token Token.Not Token.Not) with true. cbn iota. by rewrite (bind_ok _ _ _ _ _ Hnext3). }
    by rewrite (bind_ok _ _ _ _ _ Hex).
Qed.

Lemma no_comparison s f : follows s f → (f < rank Precedence.Comparison)%nat → peek_is_comparison s = (Ok false, s).
Proof.
  intros Hf Hlt. destruct (peek_follows s f Hf) as (o & Ho & Hr). unfold peek_is_comparison, peek_matches.
  rewrite (bind_ok _ _ _ _ _ Ho). destruct o as [t|]; [|done]. simpl in *. destruct t; simpl in *; try done; lia.
Qed.

Lemma chain_read op l r n f left s s1 iop ir :
  infix_precedence op = Precedence.Comparison →
  climbs r (printed (negb (clings op r)) r) → built l left s → read s (iop ++ ir) s1 → gaps (reached s) (iop ++ ir) →
  texts iop = infix_tokens op → printed (negb (clings op r)) r (rank Precedence.Comparison) f (texts ir) →
  follows s1 f → (f < rank Precedence.Comparison)%nat → (length ir < n)%nat →
  ∃ e, built (OInfix op l r) e s1 ∧ parse_chain (parsers n) left (expr_span left).1 s = (Ok e, s1).
Proof.
  intros Hop Hclimb [Hl _] Hr Hg Htok Htext Hf Hle Hn.
  assert (Hhead : ∃ (u : Token) us, texts ir = u :: us ∧ (op = Is → is_token Token.Not u = false)).
  { unfold printed in Htext. rewrite Htext. destruct (clings op r) eqn:Hc; [by eexists _, _|]. simpl.
    destruct (decide (op = Is)) as [->|].
    - destruct (comparand_head r f Hc) as (u & us & Hu & ?). by exists u, us.
    - unfold print. destruct (fits r _ f); [destruct (body_head r 6 f) as (u & us & -> & _)|]; eexists _, _; (split; [reflexivity|done]). }
  destruct Hhead as (u & us & Hhead & Hnot). apply texts_cons in Hhead as Hcons. destruct Hcons as (t & sp & ir' & Hir & Ht & _).
  subst ir. destruct (comparison_op_read op s s1 iop t sp ir') as (s2 & Hcop & Hr2 & Hg2); try done.
  { intros Hi. rewrite (unspelled_is u t Ht). auto. }
  destruct (expression_read r _ n Precedence.Comparison f s2 s1 ((t, sp) :: ir') Hclimb) as (right & He & [Hb _]); try done; [simpl in *; lia|].
  eexists. split; cycle 1.
  - unfold parse_chain. assert (loop (parsers n).(fuel) (comparison_step (parsers n)) [] s = (Ok [(op, right)], s1)) as Hloop.
    { replace ((parsers n).(fuel)) with (S (n - 1)) by (destruct n; simpl in *; lia). cbn [loop].
      assert (comparison_step (parsers n) [] s = (Ok (inr [(op, right)]), s1)) as Hstep.
      { unfold comparison_step. rewrite (bind_ok _ _ _ _ _ Hcop), (bind_ok _ _ _ _ _ He).
        by rewrite (bind_ok _ _ _ _ _ (no_comparison _ _ Hf Hle)). }
      by rewrite (bind_ok _ _ _ _ _ Hstep). }
    rewrite (bind_ok _ _ _ _ _ Hloop). reflexivity.
  - split; [|done]. simpl. by rewrite Hl, Hb.
Qed.

(** *** Assignment and conditional expressions *)

Lemma gaps_lowest s s1 t span items : read s ((t, span) :: items) s1 → gaps (reached s) ((t, span) :: items) →
  token_precedence t = Precedence.Lowest → follows s 0.
Proof. intros Hr Hg Ht. eapply read_follows; [done|done|]. rewrite Ht. done. Qed.

Lemma named_read l r n left s s1 tok span ir :
  climbs r (printed true r) → built l left s → read s ((tok, span) :: ir) s1 → gaps (reached s) ((tok, span) :: ir) →
  tok = ColonEq → printed true r 0 0 (texts ir) → follows s1 0 → (length ir < n)%nat →
  ∃ e, built (ONamed l r) e s1 ∧ parse_infix (parsers n) left s = (Ok e, s1).
Proof.
  intros Hclimb [Hl Hle] Hr Hg -> Htext Hf Hn. destruct (gaps_next _ _ _ _ _ Hr Hg) as (s2 & Hnext & Hr2 & Hg2 & _).
  destruct (expression_read r _ n Precedence.Lowest 0 s2 s1 ir Hclimb) as (right & He & [Hb _]); [done..|].
  assert (peek_transfer left s = (Ok false, s)) as Htr by (eapply no_transfer; [by eapply read_follows|done]).
  eexists. split; cycle 1.
  - unfold parse_infix. rewrite (bind_ok _ _ _ _ _ Htr). cbn iota.
    rewrite (bind_ok _ _ _ _ _ (peek_read _ _ _ _ _ Hr)). cbn iota. rewrite (bind_ok _ _ _ _ _ Hnext), (bind_ok _ _ _ _ _ He). reflexivity.
  - split; [|done]. simpl. by rewrite Hl, Hb.
Qed.

Lemma conditional_read c l r n left s s1 ti spi ic te spe ir :
  climbs c (printed true c) → climbs r (printed true r) → built l left s →
  read s ((ti, spi) :: ic ++ (te, spe) :: ir) s1 → gaps (reached s) ((ti, spi) :: ic ++ (te, spe) :: ir) →
  ti = If → te = Else → printed true c (rank Precedence.Conditional) 0 (texts ic) → printed true r 0 0 (texts ir) →
  follows s1 0 → (length (ic ++ (te, spe) :: ir) < n)%nat →
  ∃ e, built (OIf c l r) e s1 ∧ parse_infix (parsers n) left s = (Ok e, s1).
Proof.
  intros Hcc Hcr [Hl Hle] Hr Hg -> -> Htc Htr Hf Hn. rewrite length_app in Hn. simpl in Hn.
  destruct (gaps_next _ _ _ _ _ Hr Hg) as (s2 & Hnext & Hr2 & Hg2 & _).
  apply read_app in Hr2 as (s3 & Hr2 & Hr3). apply gaps_app in Hg2 as [Hg2 Hg3]. rewrite <- (read_final _ _ _ Hr2) in Hg3.
  destruct (expression_read c _ n Precedence.Conditional 0 s2 s3 ic Hcc) as (cond & Hc & [Hbc _]); try done; [by eapply gaps_lowest|simpl; lia|lia|].
  destruct (gaps_next _ _ _ _ _ Hr3 Hg3) as (s4 & Hnext4 & Hr4 & Hg4 & _).
  destruct (expression_read r _ n Precedence.Lowest 0 s4 s1 ir Hcr) as (right & He & [Hb _]); try done; [lia|].
  assert (peek_transfer left s = (Ok false, s)) as Htransfer by (eapply no_transfer; [by eapply read_follows|done]).
  assert (expect Else "Expected 'else' in a conditional expression" s3 = (Ok tt, s4)) as Hex.
  { unfold expect. by rewrite (bind_ok _ _ _ _ _ Hnext4). }
  eexists. split; cycle 1.
  - unfold parse_infix. rewrite (bind_ok _ _ _ _ _ Htransfer). cbn iota.
    rewrite (bind_ok _ _ _ _ _ (peek_read _ _ _ _ _ Hr)). cbn iota.
    rewrite (bind_ok _ _ _ _ _ Hnext), (bind_ok _ _ _ _ _ Hc), (bind_ok _ _ _ _ _ Hex), (bind_ok _ _ _ _ _ He). reflexivity.
  - split; [|done]. simpl. by rewrite Hbc, Hl, Hb.
Qed.

(** ** Every tree *)

(** A leaf is one token. *)
Lemma leaf_climbs t (tok : Token) :
  (∀ m f, body t m f = [tok]) →
  (∀ tok' rec s s1 span, unspelled tok' = tok → read s [(tok', span)] s1 → ∃ e, built t e s1 ∧ parse_prefix rec s = (Ok e, s1)) →
  climbs t (bare_text t).
Proof.
  intros Hbody Hparse n m f s s1 items [_ Htext] Hr _ _ _. rewrite Hbody in Htext.
  apply texts_cons in Htext as (tok' & span & [|? ?] & -> & Htok & ?); [|done].
  destruct (Hparse tok' (parsers n) s s1 span Htok Hr) as (e & Hb & He).
  exists e, 0%nat. split; [done|]. split; [simpl; lia|]. intros. by apply bind_ok.
Qed.

Lemma prefix_climbs op t : climbs t (printed true t) → climbs (OPrefix op t) (bare_text (OPrefix op t)).
Proof.
  intros Hclimb n m f s s1 items [Hfit Htext] Hr Hg Hf Hn. apply Nat.leb_le in Hfit.
  apply texts_cons in Htext as (tok & span & it & -> & Htok & Htext).
  assert (tok = prefix_token op) as -> by (by destruct op, tok).
  destruct (next_read _ _ _ _ _ Hr) as (_ & _ & _ & _ & Hstart). destruct (gaps_next _ _ _ _ _ Hr Hg) as (s2 & Hnext & Hr2 & Hg2 & _).
  destruct (expression_read t _ n (prefix_reach op) f s2 s1 it Hclimb) as (e & He & [Hb _]); try done.
  eexists _, 0%nat. split; [|split; [simpl; lia|]]; cycle 1.
  - intros min F _. apply bind_ok. unfold parse_prefix. rewrite (bind_ok _ _ _ _ _ Hstart), (bind_ok _ _ _ _ _ Hnext).
    instantiate (1 := mkExpr (EPrefix op e) (span.1, reached s1)).
    destruct op; unfold prefix_operand; cbn [prefix_token prefix_reach] in *; by rewrite (bind_ok _ _ _ _ _ He).
  - split; [|done]. simpl. by rewrite Hb.
Qed.

Lemma infix_climbs op l r :
  climbs l (printed true l) → (∀ bare, climbs r (printed bare r)) → climbs (OInfix op l r) (bare_text (OInfix op l r)).
Proof.
  intros Hl Hcr n m f s s1 items [Hfit Htext] Hr Hg Hf Hn. apply andb_true_iff in Hfit as [Hm%Nat.ltb_lt Hedge%Nat.leb_le].
  apply texts_app in Htext as (il & io & -> & Htl & Htext). apply texts_app in Htext as (iop & ir & -> & Htop & Htr).
  rewrite !length_app in Hn. pose proof Hr as Hr'. apply read_app in Hr' as (sl & Hrl & Hro).
  pose proof Hg as Hg'. apply gaps_app in Hg' as [_ Hgo]. rewrite <- (read_final _ _ _ Hrl) in Hgo.
  assert (Hright : printed (negb (clings op r)) r (rank (infix_precedence op)) f (texts ir)).
  { unfold printed. rewrite Htr, infix_right_level. by destruct (clings op r). }
  unfold edge in Hedge. rewrite <- infix_right_level in Hedge.
  assert (infix_precedence op = Precedence.Comparison ∨ infix_precedence op ≠ Precedence.Comparison) as [Hop|Hop].
  { destruct op; first [by left|by right]. }
  - destruct (comparison_token op Hop) as (tok & toks & Htoks & Hlevel & Hcmp & Hoper & Htok).
    pose proof Htop as Htop'. rewrite Htoks in Htop'. apply texts_cons in Htop' as (tok' & span & iop' & -> & ->%Htok & _).
    rewrite <- Hlevel in *. eapply (infix_round _ l); [done|done|done|exact Hro|done|done|lia|].
    intros left Hb. rewrite (infix_operator _ _ _ _ _ _ _ _ Hro Hgo Hb Hoper), Hcmp. rewrite Hop in Hright.
    eapply (chain_read op l r n f); try done; [|simpl in *; lia]. rewrite Hop in Hedge. simpl in *. lia.
  - destruct (binary_token op Hop) as (tok & Htoks & Hbin & Hlevel & Hcmp & Hoper & Htok).
    rewrite Htoks in Htop. apply texts_cons in Htop as (tok' & span & [|? ?] & -> & ->%Htok & Hnil); [|done].
    rewrite <- Hlevel in *. eapply (infix_round _ l); [done|done|done|exact Hro|done|done|lia|].
    intros left Hb. rewrite (infix_operator _ _ _ _ _ _ _ _ Hro Hgo Hb Hoper), Hcmp.
    eapply (binary_read op l r _ n f); try done; [|simpl in *; lia]. revert Hedge. by destruct op.
Qed.

Lemma named_climbs l r : climbs l (printed true l) → climbs r (printed true r) → climbs (ONamed l r) (bare_text (ONamed l r)).
Proof.
  intros Hl Hcr n m f s s1 items [Hfit Htext] Hr Hg Hf Hn. apply andb_true_iff in Hfit as [Hm%Nat.ltb_lt ->%Nat.eqb_eq].
  apply texts_app in Htext as (il & io & -> & Htl & Htext). apply texts_cons in Htext as (tok & span & ir & -> & Htok & Htr).
  assert (tok = ColonEq) as -> by by destruct tok.
  rewrite length_app in Hn. simpl in Hn. pose proof Hr as Hr'. apply read_app in Hr' as (sl & Hrl & Hro).
  pose proof Hg as Hg'. apply gaps_app in Hg' as [_ Hgo]. rewrite <- (read_final _ _ _ Hrl) in Hgo.
  eapply (infix_round _ l); [done|done|done|exact Hro|done|done|lia|].
  intros left Hb. eapply (named_read l r n); try done. lia.
Qed.

Lemma conditional_climbs c l r :
  climbs c (printed true c) → climbs l (printed true l) → climbs r (printed true r) → climbs (OIf c l r) (bare_text (OIf c l r)).
Proof.
  intros Hc Hl Hcr n m f s s1 items [Hfit Htext] Hr Hg Hf Hn. apply andb_true_iff in Hfit as [Hm%Nat.ltb_lt ->%Nat.eqb_eq].
  apply texts_app in Htext as (il & io & -> & Htl & Htext). apply texts_cons in Htext as (ti & span & it & -> & Hti & Htext).
  assert (ti = If) as -> by by destruct ti.
  apply texts_app in Htext as (ic & ie & -> & Htc & Htext). apply texts_cons in Htext as (te & spe & ir & -> & Hte & Htr).
  assert (te = Else) as -> by by destruct te.
  rewrite length_app in Hn. simpl in Hn. pose proof Hr as Hr'. apply read_app in Hr' as (sl & Hrl & Hro).
  pose proof Hg as Hg'. apply gaps_app in Hg' as [_ Hgo]. rewrite <- (read_final _ _ _ Hrl) in Hgo.
  eapply (infix_round _ l); [done|done|done|exact Hro|done|done|lia|].
  intros left Hb. eapply (conditional_read c l r n); try done. lia.
Qed.

(** A leaf's token is one node. *)
Ltac leaf tok :=
  apply (leaf_climbs _ tok); [done|]; intros tok' rec s s1 span Htok Hr;
  destruct (next_read _ _ _ _ _ Hr) as (s2 & Hnext & ->%read_none & _ & Hstart);
  eexists; unfold parse_prefix; rewrite (bind_ok _ _ _ _ _ Hstart), (bind_ok _ _ _ _ _ Hnext);
  destruct tok'; try done; simpl in Htok; simplify_eq; (split; [|reflexivity]); (split; [reflexivity|done]).

Lemma tree_climbs t : climbs t (bare_text t).
Proof.
  induction t as [name|v|v|b| |op t IH|op l IHl r IHr|l IHl r IHr|c IHc l IHl r IHr].
  - leaf (Identifier (B:=B) (R:=R) name).
  - leaf (IntLit (R:=R) v []).
  - leaf (FloatLit (B:=B) v []).
  - leaf (BoolLiteral (B:=B) (R:=R) b).
  - leaf (NoneKw (B:=B) (R:=R)).
  - by apply prefix_climbs, print_climbs.
  - apply infix_climbs; [by apply print_climbs|]. intros bare. by apply print_climbs.
  - apply named_climbs; by apply print_climbs.
  - apply conditional_climbs; by apply print_climbs.
Qed.

(** C4: operator precedence.  On the tokens that [print] writes for an operator
    tree, where a caret is not adjacent to what it follows and what comes next
    is no operator of a level above [min], the expression parser consumes
    exactly those tokens and returns the tree. *)
Theorem operators_roundtrip (t : tree) (n : nat) (min : Precedence) (s s' : Parser) items
    (Htext : texts items = print t (rank min) (rank min)) (Hread : read s items s')
    (Hgaps : gaps (reached s) items) (Hfollows : follows s' (rank min)) (Hn : (length items < n)%nat) :
  ∃ e, (parsers n).(expression) min s = (Ok e, s') ∧ tree_of e = Some t.
Proof.
  destruct (expression_read t (printed true t) n min (rank min) s s' items) as (e & He & [Ht _]); try done.
  - apply print_climbs, tree_climbs.
  - by exists e.
Qed.

(** Reading the first tokens of a stream. *)
Fixpoint read_ahead (n : nat) (s : Parser) : option (list (Token * Span) * Parser) :=
  match n with
  | O => Some ([], s)
  | S n =>
      match next_item s.(tokens) with
      | (Ok (Some item), i) => '(items, s') ← read_ahead n (consumed s i (Some item)); Some (item :: items, s')
      | _ => None
      end
  end.

Lemma read_ahead_sound n s items s' : read_ahead n s = Some (items, s') → read s items s'.
Proof.
  revert s items. induction n as [|n IH]; intros s items; simpl; [intros [= <- <-]; constructor|].
  destruct (next_item (tokens s)) as [[[item|]| | |] i] eqn:E; try done.
  intros ([items' s''] & Hr & [= <- <-])%bind_Some. econstructor; [done|by apply IH].
Qed.
End reading.

(** [-a ** b - c - (d - e)] is [((-(a ** b)) - c) - (d - e)], and the condition
    of [a if not b < c else d] is [not (b < c)]. *)
Section examples.
#[local] Existing Instance ascii_tables.

Notation tree := (tree (B:=Z) (R:=Qcanon.Qc)).
Definition name (c : string) : tree := OName (lit c).
Definition sums : tree :=
  OInfix Sub (OInfix Sub (OPrefix PrefixNeg (OInfix Pow (name "a") (name "b"))) (name "c")) (OInfix Sub (name "d") (name "e")).
Definition conditional : tree := OIf (OPrefix PrefixNot (OInfix Lt_ (name "b") (name "c"))) (name "a") (name "d").

Definition sums_parser : Parser (Lexer.Lexer Z Qcanon.Qc) := source_parser (source_of ["-a ** b - c - (d - e)"]).

Lemma sums_read : ∃ items s', read sums_parser items s' ∧
  (texts items = print sums 0 0 ∧ gaps 0 items ∧ follows s' 0 ∧ (length items < 20)%nat).
Proof.
  eexists _, _. split; [apply (read_ahead_sound 12); vm_compute; reflexivity|]. split; [reflexivity|].
  split; [cbn; repeat split; (done || lia)|]. split; [cbn; by split|simpl; lia].
Qed.

Lemma operators_roundtrip_witness :
  ∃ s' e, (parsers 20).(expression) Precedence.Lowest sums_parser = (Ok e, s') ∧ tree_of e = Some sums.
Proof.
  destruct sums_read as (items & s' & Hread & Htext & Hgaps & Hfollows & Hn).
  destruct (operators_roundtrip sums 20 Precedence.Lowest sums_parser s' items Htext Hread Hgaps Hfollows Hn) as (e & He & Ht).
  exists s', e. split; [exact He|exact Ht].
Defined.

Example conditional_printed : print conditional 0 0 =
  [Identifier (lit "a"); If; Token.Not; Identifier (lit "b"); TLt; Identifier (lit "c"); Else; Identifier (lit "d")].
Proof. reflexivity. Qed.

(** A caret next to a closing parenthesis is no transfer: the span of the
    expression in parentheses ends before it. *)
Example parenthesised_transfer :
  (∃ e, ascii_parse (source_of ["x = (a)^"]) = Err e) ∧ (∃ program, ascii_parse (source_of ["x = a^"]) = Ok program).
Proof. split; eexists; vm_compute; reflexivity. Qed.
End examples.
